(* ===== verification/_CoqProject ===== *)
-Q . S2P
Prelude.v
Joins.v
Event.v
TapFsm.v
Rule.v
MatcherInv.v
Ownership.v
Isolation.v
Dispatch.v
Config.v
Keymap.v
Bytes.v
Text.v
Protocol.v
KeyState.v
Authorization.v
Wire.v
WireThm.v
Broker.v
BrokerInv.v
Sink.v
Client.v
BrokerClient.v
Transactions.v
TransactionsThm.v
Bridge.v
BridgeThm.v
Desktop.v
Budget.v
BudgetThm.v
Json.v
LocalIpc.v
LocalIpcThm.v
SourceThread.v
Compositors.v
Quoting.v
DeskSim.v
CompositorsThm.v
Bus.v
InputMethods.v
Companion.v
Threads.v
BusThm.v
ClientsThm.v
X11.v
X11Thm.v
Daemon.v
Transport.v
TransportThm.v
Admission.v
AdmissionThm.v
Embed.v
Listener.v
Logging.v
Lifecycle.v
LifecycleThm.v
BrokerMain.v
MacTap.v
MacTapThm.v
MacFocus.v
Control.v
ControlThm.v
Workers.v
Installed.v
DaemonThm.v
Discovery.v
SocketGuard.v
InstalledThm.v
Research.v
Fixture.v
Startup.v
Commands.v
CommandsThm.v
EngineThm.v
BrokerPath.v
Whole.v
