(* ===== verification/Prelude.v ===== *)
(** * sledge: a verification library

    sledge is a keyboard remapping daemon. Rules from a TOML file bind hotkeys
    (a key under modifiers) and taps (a modifier pressed alone n times) to
    actions (send a key, select an input source). The engine (packages/core)
    judges each key event of each device: pass, swallow or replace. On Linux it
    is reached in two ways. A privileged broker (packages/linux: broker, state,
    protocol, authorization) grabs keyboards, asks the daemon's client
    (packages/linux: backend) about every press over a socket and writes what
    may pass to a virtual keyboard; a supervising service (lifecycle, logind)
    decides which keyboards. Or a compositor plugin speaks the SHP1 protocol
    (packages/linux: hyprland/) and carries out the decisions of the daemon
    itself, reporting afterwards what it did; it is admitted only as a build
    the compiled catalogue lists. On macOS an event tap (packages/macos) asks
    the engine about each event and injects the replacements. Source actions and
    the focused application are the desktop's: adapters (packages/linux:
    desktop/) ask Sway and Hyprland over sockets, GNOME, KWin, IBus and Fcitx5
    over the session bus, and X11. The daemon (packages/cli) owns the matching
    state they share, reloads it when its file changes, answers a control
    socket, and starts and stops the other parts.

    ** Files and the code they model

    - [Prelude]: [result] (Rust's [Result]) with its monad, integers at their
      width, durations in nanoseconds, shared lemmas, tactics and hints.
    - [Joins]: threads that look at a stop flag and are joined by a drop, as the
      class [Stoppable], with the theorem that every drop ends.
    - [Event], [TapFsm], [Rule]: core/src/event.rs, action.rs, trigger.rs,
      tap_fsm.rs, rule.rs. [Matcher] is a record of the struct's fields; each
      method is a definition from state to state; a panic is [None].
    - [MatcherInv]: the matcher's representation invariant and the relation
      [matcher_run] of its executions (all public operations, any order).
    - [Ownership]: the abstract press-ownership machine [own_step]/[own_run], the
      refinement by the matcher, and the protocol of replacement tokens.
    - [Isolation]: devices do not influence each other. [Dispatch]: which rule
      fires.
    - [Config]: config/models/src/lib.rs, config/src/aliases.rs, config/src/lib.rs:
      the document, its validation in the code's order, its compilation to rules.
    - [Keymap]: linux/src/keymap.rs and macos/src/keycode.rs.
    - [Bytes], [Protocol]: little-endian integers and linux/src/protocol.rs.
    - [KeyState]: linux/src/state.rs. [Authorization]: linux/src/authorization.rs.
    - [Broker]: linux/src/broker.rs, a state and error monad over the class
      [Kernel]. [BrokerInv]: a program logic for it (triples for the value and
      the error), the laws [KernelLaws] assumed of the kernel, and the theorems.
    - [Sink]: the traits of core/src/backend.rs as classes. [Client]:
      linux/src/backend.rs over any [EventSink]. [BrokerClient]: both ends of
      the socket together. [BrokerPath]: the client over the daemon's engine, with
      reloads in between.
    - [Wire], [WireThm]: linux/src/hyprland/wire.rs and its exactness.
    - [Transactions], [TransactionsThm]: linux/src/hyprland/matcher.rs, the
      abstract recovery gate and its refinement.
    - [Bridge], [BridgeThm]: linux/src/hyprland/mod.rs and causal.rs over the
      classes [Link] (clock and packets) and [EventHandler] (the source's trait).
    - [Text]: what the parsers use of Rust's strings. [Transport],
      [TransportThm]: linux/src/hyprland/transport.rs over the class [Socket],
      with the laws [SocketLaws]; its loops take fuel. [Listener]:
      hyprland/listener.rs and linux/src/ipc.rs over the class [Endpoint].
    - [Embed]: linux/build.rs, which embeds the catalogue that [Admission] reads,
      over the class [BuildHost].
    - [Admission], [AdmissionThm]: hyprland/session.rs and catalogue.rs, the
      verification of files and processes over the classes [Files] and
      [Artifacts], the catalogue, and the retry loop over the class [Acceptor],
      of which [Listener] gives the instance.
    - [Lifecycle], [LifecycleThm]: linux/src/lifecycle.rs, logind.rs and
      bin/sledge-linux-broker.rs over [DeviceProxy] and the classes [Devices]
      (laws [DeviceLaws]) and [Bus]. [BrokerMain]: the executable around them, over
      the class [Launcher].
    - [Desktop]: linux/src/desktop/mod.rs, the caches of desktop/worker.rs,
      cli/src/daemon/source_queue.rs. [Budget], [BudgetThm]:
      desktop/operation.rs and the threads of desktop/worker.rs over the classes
      [Operations] and [Provider] (laws [OperationsLaws], [ProviderLaws]).
      [SourceThread]: the thread of source_queue.rs over the class [Channel].
    - [Json]: the values of serde_json and its parser as the class [SerdeJson].
      [LocalIpc], [LocalIpcThm]: desktop/transport.rs and the request formats of
      Sway and Hyprland over the class [LocalSockets] (laws [SocketsLaws]).
      [Compositors], [CompositorsThm], [Quoting]: desktop/sway.rs and
      desktop/hyprland.rs, as instances of [Provider]. [DeskSim]: a simulated
      compositor.
    - [Bus], [BusThm]: desktop/bus.rs over the class [SessionBus] (laws
      [BusLaws]), with a logic for what a client sends ([emits]).
      [InputMethods]: desktop/ibus.rs and fcitx5.rs. [Companion]:
      desktop/companion.rs (GNOME, KWin, the receiver of KWin's pushes).
      [ClientsThm]: what they send and confirm. [Threads]: the start and the end
      of KWin's bridge with its thread, and of the desktop worker (worker.rs).
    - [X11], [X11Thm]: desktop/x11.rs over the class [XSocket]; x11rb is a
      strategy for the timed stream it is given ([X11rb]).
    - [Daemon]: cli/src/daemon.rs, daemon/linux.rs, the handler of
      daemon/hyprland_research.rs and the rules an installed session admits.
      [DaemonThm]: invariants of the handler survive the bridge and the session.
      [Installed], [InstalledThm]: the worker of daemon/hyprland_installed.rs
      over the class [Worker] (what other threads do), end to end. [Research]:
      the listener of daemon/hyprland_research.rs. [EngineThm]: the broker
      path's engine end to end. [Fixture]: the [MatcherAdapter] of
      hyprland/matcher.rs and the research peer that drives it
      (linux/examples/hyprland_research_peer.rs), over the class [Binder].
    - [Control], [ControlThm]: cli/src/ipc.rs, config_watcher.rs and the reload
      callback of daemon.rs over the classes [Stream], [Json] and [Watch].
      [Workers]: the watcher and the source worker as threads of [Joins].
    - [Discovery]: linux/src/ipc/discovery.rs over the class [SessionFiles], the
      status of daemon/linux.rs and cli/src/status/readiness.rs.
    - [SocketGuard]: cli/src/ipc/macos.rs as programs of system calls ([Prog]) of
      any number of interleaved processes, with a rely-guarantee logic for them
      ([conforms]).
    - [Startup]: run_linux, run_macos and the signal threads of cli/src/daemon.rs
      and daemon/linux.rs, daemon/desktop.rs and the set-up of linux/src/backend.rs
      over the classes [Host] (the parts), [Loader] (the configuration), [Loops] and
      [Taps] (what runs), with the drops of Rust's scopes.
    - [Logging]: cli/src/logging.rs over the classes [Environment], [EnvFilters] and
      [Subscriber]. [Commands]: cli/src/cli.rs, status.rs, lib.rs, main.rs and
      [daemon::run], over the class [Dial]. [CommandsThm]: a client and the daemon it
      is connected to. [Whole]: [daemon::run] with [Loops] instantiated by the workers
      of [Installed] and [Research] and by the broker's client.
    - [MacTap], [MacTapThm]: macos/src/tap.rs, inject.rs, input_source_worker.rs,
      tis.rs and the sink of daemon.rs for other platforms, over the classes
      [CoreGraphics], [InputSources] and [TapHost]. [MacFocus]: macos/src/focus.rs and
      permission.rs, over the class [Privacy], and the stub of windows/src/lib.rs.

    ** What the theorems show

    - The whole program: whatever its arguments, its configuration and the failures of
      its parts, a run of the Linux daemon starts nothing without a valid
      configuration; on the compositor path it replaces only on proof, and on the
      broker path a release is answered as its press (one theorem over the loops that
      run).
    - The engine: every execution refines the ownership contract; a release
      meets the fate of its press; tokens are unique and settle once; devices
      are isolated; dispatch never panics; a replacement is always asked for by
      a live rule in scope, the first hotkey of the file wins, and tap rules fire
      on exactly the tap they name (with the tap machine's soundness and exact
      counting below).
    - Configuration: validation accepts exactly unambiguous alias tables, what it
      accepts is well formed for the engine, and it reports the first fault.
    - Formats: both codecs are exact in both directions, the key tables are
      bijections on what they support, modifier masks survive the wire.
    - The broker: its books are the consumer's truth, a keyboard is captured only
      for a proven session, capture never ends with a stuck key, decisions latch
      from press to release; the client admits nothing twice, tells the engine
      what the hands do, and serves every request an admitted proxy sends.
    - The compositor path: a proposal is settled exactly once and by the native
      route; after anything uncertain nothing is proposed until the compositor
      attests a clean state for an armed nonce; nothing is replayed across
      reconnections; and the worker of an installed session as a whole, from
      admission to its end, inherits this.
    - Getting there: the transport always returns by its deadline and moves
      packets whole and once; a connection is the expected process's; a session
      is admitted only for its unique catalogue entry and reconnects only to
      what was verified again; and what is admitted was put into the build by its
      environment, with its digest.
    - The privileged service: it holds exactly its proxies' keyboards, those of
      the proven seat, and after any failure none; however its executable ends, no
      keyboard is held, and as it ships it opens none.
    - macOS: through the tap a release meets the fate of its press, [run] stops
      when told to and leaves nothing behind; each permission dialog is asked for at most
      once per run.
    - The desktop: operations stay in nested budgets and always return; queued
      source actions are carried out in order, at most once each and on the
      inventory they were queued with, and reported as done only when the desktop
      confirmed them (Sway, Hyprland, IBus, Fcitx5, GNOME, KWin); commands are
      quoted exactly; focus and catalogues are what the compositor listed; after a
      failure a bus or X11 connection is not used again.
    - Around the engine: each save of the configuration is reloaded; requests over
      the control socket arrive as sent, and their number is bounded; a client
      talks to its own session only; at most one macOS daemon has the control
      socket, and a new one takes over after a crash; the daemon stops every part
      that it started, in an order that the parts can bear; what the commands print
      is true of the daemon that answered; and every thread that is dropped ends after
      at most the round of work it had begun.
    - The research peer: it stays within the packets, reconnections and the one fault
      of its options, and replaces only on proof.

    ** Parameters and what is assumed of them

    Code outside the repository is an argument, as a class of operations on a
    world; a second class states what is documented of them, and a simulated
    world satisfies it. The TOML parser is a function of [Config]. [Kernel]
    (evdev, uinput, poll, the client socket) with [KernelLaws]: an accepted frame
    is delivered whole, a refused one in part at most, grabs and messages affect
    only what they name. [Devices] with [DeviceLaws]: descriptors are fresh,
    closing ends a grab. [Socket] with [SocketLaws]: a datagram is read or
    written at once, a wait lasts no longer than asked, spurious wake-ups are
    finite. [Operations] and [Watch]: time does not run backwards, a raised flag
    stays raised. [Stream] and [Json]: [read_until] stops at the delimiter, JSON
    has no line breaks. [TapHost] and [CoreGraphics]: see [MacTapThm].
    [SocketsLaws], [BusLaws] and [XSocket]'s laws: a call sends at most what it was
    given and takes no longer than asked; [SerdeJson]'s: pairs read back as printed;
    [Channel]'s: receiving sends nothing; [PrivacyLaws]: only a call with the prompt
    option asks for a dialog; [LauncherLaws]: the launcher's calls concern no input node;
    [BrokerLaws]: a broker's connection takes fewer than 2^64 calls. The file systems of [SocketGuard] do not
    reuse inodes, and legacy daemons keep to their own sockets. The
    session authority (logind), the compositor's packets ([Link]), the file
    systems ([Files], [SessionFiles]), the endpoint ([Endpoint]), the parts of
    [Host], the bridge's text format ([WireFormat]) and the threads' stop flags have
    no law but that reloaded configurations come from the loader. [Env] gives the
    daemon's clock, lock contention and source cache per call, arbitrarily.

    ** Bounds

    Integers are [Z] with the source's checked, saturating or wrapping
    operations written out; instants and durations are nanoseconds and do not
    overflow. [HashMap]s and sets are [gmap]s and [gset]s; where the code's
    iteration order matters it is by sorted name or a minimum. Loops over data
    are structural: over the words of a frame, the events of a batch, or the list
    of requests a stream delivers. Loops that wait take fuel, and [None] means
    that they still run: the transport, the retries, the provider's lock, the
    drain of the watcher and the tap's [run] have theorems that say how much is
    enough (the nanoseconds to the deadline, the messages of a window, the polls
    until the flag is seen; for the desktop [enough], more rounds than nanoseconds in
    IPC_TIMEOUT, and [enough_rounds] for the pieces of a message); the service loops run until they are stopped, and
    their theorems hold of every fuel. Token generation is bounded by [u64::MAX],
    so totality is stated below it.

    ** Not modelled

    What libraries do: the parsing of argv (of clap only the constraints between the
    arguments are modelled), TOML, JSON and D-Bus encodings, SHA-256, the log's writers,
    the asynchronous runtime, Core Graphics, Text Input Sources and the input drivers of
    the kernel. Declarations without behaviour: foreign function interfaces, module
    lists, re-exports, accessors that clone a handle, the bundle identifier. The text of
    errors is kept where the code makes it up and left out where a library does. Of the
    desktop's threads, [Threads], [Workers] and [MacFocus] count steps and not time: how
    long a step may take is what the budgets of [Budget] and the transports bound. In
    [Whole] the reloads that arrive while the broker's client runs are given with its
    requests, and the threads that bring them are those of [Workers] and [Startup]. The
    sources' tests are not modelled. *)

From stdpp Require Export base tactics option list gmap sets strings
  countable numbers sorting relations finite.

#[global] Open Scope Z_scope.
#[export] Set Default Goal Selector "!".

(** * Fallible code: [Result<A, E>] *)

(** Rust's [Result]: the value of an operation that can fail, with its error. *)
Inductive result (E A : Type) : Type :=
  | Ok (a : A)
  | Err (e : E).
Arguments Ok {E A} a.
Arguments Err {E A} e.

(** The [?] operator is the bind of the error monad, written with stdpp's
    [x ← e; k] notation. *)
#[export] Instance result_ret E : MRet (result E) := λ A, Ok.
#[export] Instance result_bind E : MBind (result E) := λ A B f r,
  match r with Ok a => f a | Err e => Err e end.
#[export] Instance result_fmap E : FMap (result E) := λ A B f r,
  match r with Ok a => Ok (f a) | Err e => Err e end.

#[export] Instance result_eq_dec E A `{EqDecision E, EqDecision A} :
  EqDecision (result E A).
Proof. solve_decision. Defined.

(** [Option::ok_or_else]. *)
Definition ok_or {E A} (o : option A) (e : E) : result E A :=
  match o with Some a => Ok a | None => Err e end.

(** [Result::is_ok]. *)
Definition is_ok {E A} (r : result E A) : bool :=
  match r with Ok _ => true | Err _ => false end.

Lemma result_bind_Ok {E A B} (r : result E A) (f : A → result E B) b :
  r ≫= f = Ok b ↔ ∃ a, r = Ok a ∧ f a = Ok b.
Proof. destruct r; naive_solver. Qed.

Lemma result_bind_Err {E A B} (r : result E A) (f : A → result E B) e :
  r ≫= f = Err e ↔ r = Err e ∨ ∃ a, r = Ok a ∧ f a = Err e.
Proof. destruct r; naive_solver. Qed.

Lemma result_fmap_Ok {E A B} (r : result E A) (f : A → B) b :
  f <$> r = Ok b ↔ ∃ a, r = Ok a ∧ b = f a.
Proof. destruct r; naive_solver. Qed.

Lemma ok_or_Ok {E A} (o : option A) (e : E) a :
  ok_or o e = Ok a ↔ o = Some a.
Proof. destruct o; naive_solver. Qed.

(** [bind_ok H] peels one [?] off a hypothesis [H : (x ← e; k) = Ok b]. *)
Ltac bind_ok H :=
  apply result_bind_Ok in H; let a := fresh "a" in
  let Ha := fresh "H" a in destruct H as (a & Ha & H).

(** * Loops over a slice that can fail *)

(** [for x in l { acc = f(acc, x)?; }] *)
Fixpoint try_fold {E A S} (f : S → A → result E S) (s : S) (l : list A) :
    result E S :=
  match l with
  | [] => Ok s
  | x :: l => s' ← f s x; try_fold f s' l
  end.

(** [l.into_iter().enumerate().map(f).collect::<Result<Vec<_>, _>>()], the
    index starting at [i]. *)
Fixpoint try_mapi {E A B} (f : nat → A → result E B) (i : nat) (l : list A) :
    result E (list B) :=
  match l with
  | [] => Ok []
  | x :: l => y ← f i x; ys ← try_mapi f (S i) l; Ok (y :: ys)
  end.

Lemma try_mapi_lookup {E A B} (f : nat → A → result E B) i l ys :
  try_mapi f i l = Ok ys ↔
  length ys = length l ∧
  ∀ j x, l !! j = Some x → ∃ y, ys !! j = Some y ∧ f (i + j)%nat x = Ok y.
Proof.
  revert i ys. induction l as [|x l IH]; intros i ys; simpl.
  { split; [intros [= <-]; done|]. intros [Hlen _].
    by destruct ys. }
  rewrite result_bind_Ok. setoid_rewrite result_bind_Ok. setoid_rewrite IH.
  split.
  - intros (y & Hy & ys' & (Hlen & Hall) & [= <-]). simpl. split; [lia|].
    intros [|j] x' Hx'; simplify_eq/=.
    + exists y. by rewrite Nat.add_0_r.
    + destruct (Hall j x' Hx') as (y' & ? & ?). exists y'.
      by rewrite Nat.add_succ_r.
  - intros [Hlen Hall]. destruct ys as [|y ys]; [done|].
    destruct (Hall 0%nat x eq_refl) as (y' & [= <-] & Hy').
    exists y. rewrite Nat.add_0_r in Hy'. split; [done|].
    exists ys. split; [|done]. split; [simpl in *; lia|].
    intros j x' Hx'. destruct (Hall (S j) x' Hx') as (y' & ? & ?).
    exists y'. by rewrite Nat.add_succ_r in *.
Qed.

(** The error is that of the first element that fails. *)
Lemma try_mapi_Err_first {E A B} (f : nat → A → result E B) i l e :
  try_mapi f i l = Err e ↔
  ∃ j x, l !! j = Some x ∧ f (i + j)%nat x = Err e ∧
    ∀ j' x', (j' < j)%nat → l !! j' = Some x' → ∃ y, f (i + j')%nat x' = Ok y.
Proof.
  revert i. induction l as [|x l IH]; intros i; simpl; [split; [done|naive_solver]|].
  rewrite result_bind_Err. split.
  - intros [Hx|(y & Hy & H)].
    { exists 0%nat, x. rewrite Nat.add_0_r. split_and!; [done..|lia]. }
    apply result_bind_Err in H as [(j & x' & Hj & He & Hlt)%IH|(ys & _ & ?)]; [|done].
    exists (S j), x'. rewrite Nat.add_succ_r. split_and!; [done..|].
    intros [|j'] z Hj' Hz; simplify_eq/=; [rewrite Nat.add_0_r; eauto|].
    rewrite Nat.add_succ_r. apply (Hlt j' z); [lia|done].
  - intros ([|j] & x' & Hj & He & Hlt); simplify_eq/=.
    { left. by rewrite Nat.add_0_r in He. }
    right. destruct (Hlt 0%nat x) as [y Hy]; [lia|done|]. rewrite Nat.add_0_r in Hy.
    exists y. split; [done|]. apply result_bind_Err. left. apply IH.
    exists j, x'. rewrite Nat.add_succ_r in He. split_and!; [done..|].
    intros j' z Hj' Hz. destruct (Hlt (S j') z) as [w Hw]; [lia|done|].
    exists w. by rewrite Nat.add_succ_r in Hw.
Qed.

(** * Machine integers *)

Definition is_u8 (x : Z) : Prop := 0 ≤ x < 2 ^ 8.
Definition is_u16 (x : Z) : Prop := 0 ≤ x < 2 ^ 16.
Definition is_u32 (x : Z) : Prop := 0 ≤ x < 2 ^ 32.
Definition is_u64 (x : Z) : Prop := 0 ≤ x < 2 ^ 64.
Definition is_i32 (x : Z) : Prop := - 2 ^ 31 ≤ x < 2 ^ 31.

Definition u32_max : Z := 2 ^ 32 - 1.
Definition u64_max : Z := 2 ^ 64 - 1.

#[export] Instance is_u8_dec x : Decision (is_u8 x).
Proof. unfold is_u8. apply _. Defined.
#[export] Instance is_u16_dec x : Decision (is_u16 x).
Proof. unfold is_u16. apply _. Defined.
#[export] Instance is_u32_dec x : Decision (is_u32 x).
Proof. unfold is_u32. apply _. Defined.
#[export] Instance is_u64_dec x : Decision (is_u64 x).
Proof. unfold is_u64. apply _. Defined.
#[export] Instance is_i32_dec x : Decision (is_i32 x).
Proof. unfold is_i32. apply _. Defined.

(** [u32::saturating_add]. *)
Definition saturating_add_u32 (a b : Z) : Z := Z.min (a + b) u32_max.
(** [u64::checked_add]. *)
Definition checked_add_u64 (a b : Z) : option Z :=
  if bool_decide (a + b ≤ u64_max) then Some (a + b) else None.
(** [u64::checked_sub]. *)
Definition checked_sub_u64 (a b : Z) : option Z :=
  if bool_decide (b ≤ a) then Some (a - b) else None.
(** [u64::saturating_sub]. *)
Definition saturating_sub_u64 (a b : Z) : Z := Z.max (a - b) 0.
(** [u16::try_from] of an unsigned integer. *)
Definition u16_try_from (x : Z) : option Z :=
  if bool_decide (is_u16 x) then Some x else None.

Lemma checked_add_u64_Some a b c :
  checked_add_u64 a b = Some c ↔ c = a + b ∧ a + b ≤ u64_max.
Proof. unfold checked_add_u64. case_bool_decide; naive_solver. Qed.

(** * Time: monotonic instants and durations in nanoseconds *)

(** [Duration::from_millis]. *)
Definition from_millis (ms : Z) : Z := ms * 1000000.
(** [Instant::checked_duration_since]: [None] when [earlier] is later. *)
Definition checked_duration_since (now earlier : Z) : option Z :=
  if bool_decide (earlier ≤ now) then Some (now - earlier) else None.

(** * Sets and maps as the source updates them *)

(** [HashSet::insert]: the updated set, and whether the value was new. *)
Definition set_insert `{Countable A} (x : A) (s : gset A) : gset A * bool :=
  ({[x]} ∪ s, negb (bool_decide (x ∈ s))).
(** [HashSet::remove]: the updated set, and whether the value was present. *)
Definition set_remove `{Countable A} (x : A) (s : gset A) : gset A * bool :=
  (s ∖ {[x]}, bool_decide (x ∈ s)).

(** [BTreeSet] iteration order over integers: ascending. *)
Definition ascending (s : gset Z) : list Z := merge_sort Z.le (elements s).

Lemma elem_of_ascending x s : x ∈ ascending s ↔ x ∈ s.
Proof. unfold ascending. by rewrite merge_sort_Permutation, elem_of_elements. Qed.

Lemma NoDup_ascending s : NoDup (ascending s).
Proof. unfold ascending. rewrite merge_sort_Permutation. apply NoDup_elements. Qed.

Lemma ascending_sorted s : StronglySorted Z.le (ascending s).
Proof. apply StronglySorted_merge_sort; apply _. Qed.

Lemma ascending_empty : ascending ∅ = [].
Proof. reflexivity. Qed.

(** * Booleans *)

Lemma orb_false_iff' a b : a || b = false ↔ a = false ∧ b = false.
Proof. destruct a, b; naive_solver. Qed.

(** [bool_decide] on a conjunction of tests, as the guards are written. *)
Ltac bools :=
  repeat match goal with
  | H : (_ && _)%bool = true |- _ => apply andb_true_iff in H as [? ?]
  | H : (_ || _)%bool = false |- _ => apply orb_false_iff' in H as [? ?]
  | H : negb _ = true |- _ => apply negb_true_iff in H
  | H : negb _ = false |- _ => apply negb_false_iff in H
  | H : bool_decide _ = true |- _ => apply bool_decide_eq_true in H
  | H : bool_decide _ = false |- _ => apply bool_decide_eq_false in H
  end.

(** * Bit masks *)

(** [a.contains(b)] on bit masks: every bit of [b] is set in [a]. *)
Lemma land_contains_trans a b c :
  Z.land a b = b → Z.land b c = c → Z.land a c = c.
Proof. intros Hab Hbc. rewrite <- Hbc, Z.land_assoc, Hab. reflexivity. Qed.

Lemma land_lor_contains a b c :
  Z.land a (Z.lor b c) = Z.lor b c ↔ Z.land a b = b ∧ Z.land a c = c.
Proof.
  split.
  - intros H. split; apply Z.bits_inj'; intros n Hn;
      apply (f_equal (λ z, Z.testbit z n)) in H;
      rewrite Z.land_spec, Z.lor_spec in H; rewrite Z.land_spec;
      destruct (Z.testbit a n), (Z.testbit b n), (Z.testbit c n); done.
  - intros [Hb Hc]. rewrite Z.land_lor_distr_r. congruence.
Qed.

(** * Decision procedures for the closed cases *)

(** A hint database for the invariants of the components. *)
Create HintDb sledge.
