(* ===== verification/Joins.v ===== *)
(** * Threads that are told to stop and joined

    Several parts own a thread that looks at a stop flag between rounds of work: the
    desktop worker, the source worker, the configuration watcher and the focus poller of
    macOS. Each drop stores the flag and joins the thread. A thread is an instance of the
    class [Stoppable]: its places, its steps with what it reads of the flag, and two
    measures of what it may still do once the flag is set. The laws are discharged per
    thread; the theorem [thread_joined] is proved once, for all of them and for every
    interleaving of the thread with its owner. *)

From stdpp Require Import relations.
From S2P Require Import Prelude.

(** The owner before the drop, in [join], and after the drop *)
Inductive OwnerAt : Type := Holding | Joining | Gone.

Class Stoppable (T D : Type) : Type := {
  (** a step of the thread on the shared data, with the flag as it reads it *)
  st_step : bool → T * D → T * D → Prop;
  st_ended : T;
  (** the data when the drop has returned *)
  st_final : D → D;
  (** once the flag is set: the steps, and the rounds of work, that may follow *)
  st_left : T → nat;
  st_more : T → nat;
  (** the rounds of work that were done *)
  st_done : D → nat;
}.

Class StoppableLaws (T D : Type) `{Stoppable T D} : Prop := {
  ended_quiet stop d p : ¬ st_step stop (st_ended, d) p;
  ended_left : st_left (st_ended (D := D)) = 0%nat;
  stopping_goes t d : t = st_ended ∨ ∃ p, st_step true (t, d) p;
  stopping_left t d t' d' :
    st_step true (t, d) (t', d') →
    (st_left (D := D) t' < st_left (D := D) t)%nat ∧
    (st_done d' + st_more (D := D) t' ≤ st_done d + st_more (D := D) t)%nat;
  final_done d : (st_done (st_final d) ≤ st_done d)%nat;
}.

Record Joined (T D : Type) : Type := mkJoined {
  jo_owner : OwnerAt; jo_thread : T; jo_stop : bool; jo_data : D;
}.
Arguments mkJoined {T D}.
Arguments jo_owner {T D}.
Arguments jo_thread {T D}.
Arguments jo_stop {T D}.
Arguments jo_data {T D}.

Section joins.
Context {T D : Type} `{StoppableLaws T D}.

Inductive join_step : Joined T D → Joined T D → Prop :=
  | js_drop t b d : join_step (mkJoined Holding t b d) (mkJoined Joining t true d)
  | js_join b d : join_step (mkJoined Joining st_ended b d) (mkJoined Gone st_ended b (st_final d))
  | js_thread o t b d t' d' :
      st_step b (t, d) (t', d') → join_step (mkJoined o t b d) (mkJoined o t' b d').

Definition spawned (t : T) (d : D) : Joined T D := mkJoined Holding t false d.

Definition settled (s : Joined T D) : Prop :=
  (jo_stop s = false ↔ jo_owner s = Holding) ∧
  (jo_owner s = Gone → jo_thread s = st_ended ∧ ∃ d, jo_data s = st_final d).

Lemma settled_step s s' : settled s → join_step s s' → settled s'.
Proof.
  unfold settled. intros [H1 H2] Hs. destruct Hs as [t b d|b d|o t b d t' d' Ht]; simpl in *; [naive_solver..|].
  split; [done|]. intros Hg. destruct (H2 Hg) as [-> _]. by apply ended_quiet in Ht.
Qed.
Lemma settled_reachable t d s : rtc join_step (spawned t d) s → settled s.
Proof.
  assert (settled (spawned t d)) as Hi by done. intros Hr. revert Hi. induction Hr as [|x y z Hs _ IH]; [done|].
  intros Hx. by eapply IH, settled_step.
Qed.

(** The steps until the drop returns *)
Definition steps_left (s : Joined T D) : nat :=
  match jo_owner s with Gone => 0 | _ => 1 end + st_left (D := D) (jo_thread s).

Lemma joining_step s s' : settled s → jo_owner s = Joining → join_step s s' →
  (steps_left s' < steps_left s)%nat ∧ (jo_owner s' = Joining ∨ jo_owner s' = Gone) ∧
  (st_done (jo_data s') + st_more (D := D) (jo_thread s') ≤
   st_done (jo_data s) + st_more (D := D) (jo_thread s))%nat.
Proof.
  intros [H1 _] Ho Hs. destruct Hs as [t b d|b d|o t b d t' d' Ht]; simpl in *; [done|..].
  - unfold steps_left. simpl. split; [lia|]. split; [by right|]. pose proof (final_done d). lia.
  - subst o. assert (b = true) as -> by (destruct b; naive_solver).
    apply stopping_left in Ht as [Hl Hd]. unfold steps_left. simpl. split; [lia|]. split; [by left|done].
Qed.

Lemma gone_quiet s s' : settled s → jo_owner s = Gone → ¬ join_step s s'.
Proof.
  intros [_ H2] Ho Hs. destruct (H2 Ho) as [Ht0 _]. destruct Hs as [t b d|b d|o t b d t' d' Ht]; simpl in *; [done..|].
  subst t. by apply ended_quiet in Ht.
Qed.

Lemma work_bounded s s' : settled s → jo_owner s = Joining → rtc join_step s s' →
  (st_done (jo_data s') ≤ st_done (jo_data s) + st_more (D := D) (jo_thread s))%nat.
Proof.
  intros Hi Ho Hr. revert Hi Ho. induction Hr as [s|s s1 s' Hs Hr IH]; intros Hi Ho; [lia|].
  destruct (joining_step s s1 Hi Ho Hs) as (_ & [Ho1|Ho1] & Hd).
  - specialize (IH (settled_step _ _ Hi Hs) Ho1). lia.
  - assert (s' = s1) as ->; [|lia]. inversion Hr as [|? y ? Hy]; [done|]. subst.
    exfalso. eapply gone_quiet; [by eapply settled_step|done|exact Hy].
Qed.

(** A drop ends the thread. From the moment the owner joins, every interleaving goes on
    and gets closer to the end with every step, of which there are at most one more than
    the thread has left at any place, and the thread does no more work than it may at any
    place; once the drop has returned, the thread has ended and nothing happens any more. *)
Theorem thread_joined n k t d s :
  (∀ t, st_left (D := D) t ≤ n)%nat → (∀ t, st_more (D := D) t ≤ k)%nat →
  rtc join_step (spawned t d) s →
  (jo_owner s = Gone →
     jo_thread s = st_ended ∧ (∃ d', jo_data s = st_final d') ∧ ∀ s', ¬ join_step s s') ∧
  (jo_owner s = Joining →
     (steps_left s ≤ S n)%nat ∧ (∃ s', join_step s s') ∧
     (∀ s', join_step s s' → (steps_left s' < steps_left s)%nat) ∧
     ∀ s', rtc join_step s s' → (st_done (jo_data s') ≤ k + st_done (jo_data s))%nat).
Proof.
  intros Hn Hk Hi%settled_reachable. split.
  - intros Ho. destruct (proj2 Hi Ho) as [Ht Hd]. split_and!; [done..|]. intros s'. by apply gone_quiet.
  - intros Ho. split_and!.
    + unfold steps_left. rewrite Ho. specialize (Hn (jo_thread s)). lia.
    + destruct s as [o th b dt]; simpl in *. subst o. assert (b = true) as ->.
      { destruct Hi as [Hi _]; simpl in Hi. destruct b; [done|]. naive_solver. }
      destruct (stopping_goes th dt) as [->|[[t' d'] Hp]]; eexists; [apply js_join|by apply js_thread].
    + intros s' Hs. by apply joining_step.
    + intros s' Hs. pose proof (work_bounded s s' Hi Ho Hs). specialize (Hk (jo_thread s)). lia.
Qed.

(** What every step of the thread preserves of its place and the data holds for as long as
    the owner has not returned from the drop. *)
Lemma thread_invariant (P : T * D → Prop) t d s :
  P (t, d) → (∀ b p p', P p → st_step b p p' → P p') →
  rtc join_step (spawned t d) s → jo_owner s ≠ Gone → P (jo_thread s, jo_data s).
Proof.
  intros Hp Hk Hr. assert (jo_owner (spawned t d) ≠ Gone → P (jo_thread (spawned t d), jo_data (spawned t d)))
    as Hi by done. revert Hi. induction Hr as [|x y z Hs _ IH]; [done|]. intros Hx. apply IH.
  destruct Hs; simpl in *; [naive_solver|done|]. intros Ho. eapply Hk; [|done]. by apply Hx.
Qed.
End joins.
