(* ===== verification/Event.v ===== *)
(** * [packages/core/src/event.rs]: the normalized key event model

    Key codes, modifier masks (a 32-bit [bitflags] set, kept as its bits) and
    key events, with the masks' algebra: the predicate [Lockstep] is the doc
    comment's contract that a side-specific bit always comes with its generic
    counterpart. The module also holds the two small data files of the core
    crate that every rule is made of, [action.rs] and [trigger.rs], and the
    private helper [generic_bit] of [tap_fsm.rs]. *)

From S2P Require Import Prelude.

(** ** Key codes *)

(** [enum KeyCode], in source order. *)
Inductive KeyCode : Type :=
  | KeyA | KeyB | KeyC | KeyD | KeyE | KeyF | KeyG | KeyH | KeyI | KeyJ
  | KeyK | KeyL | KeyM | KeyN | KeyO | KeyP | KeyQ | KeyR | KeyS | KeyT
  | KeyU | KeyV | KeyW | KeyX | KeyY | KeyZ | Digit0 | Digit1 | Digit2
  | Digit3 | Digit4 | Digit5 | Digit6 | Digit7 | Digit8 | Digit9 | F1 | F2
  | F3 | F4 | F5 | F6 | F7 | F8 | F9 | F10 | F11 | F12 | F13 | F14 | F15
  | F16 | F17 | F18 | F19 | F20 | F21 | F22 | F23 | F24 | ArrowUp
  | ArrowDown | ArrowLeft | ArrowRight | LeftShift | RightShift | LeftCtrl
  | RightCtrl | LeftAlt | RightAlt | LeftCmd | RightCmd | Fn | CapsLock
  | Return | Tab | Space | Backspace | Delete | Escape | Semicolon | Quote
  | Comma | Period | Slash | Backslash | Backquote | Minus | Equal
  | LeftBracket | RightBracket | Home | End | PageUp | PageDown | Insert.

(** The discriminant: the position of the variant in the declaration. *)
Definition KeyCode_index (k : KeyCode) : nat :=
  match k with
  | KeyA => 0 | KeyB => 1 | KeyC => 2 | KeyD => 3 | KeyE => 4 | KeyF => 5
  | KeyG => 6 | KeyH => 7 | KeyI => 8 | KeyJ => 9 | KeyK => 10 | KeyL => 11
  | KeyM => 12 | KeyN => 13 | KeyO => 14 | KeyP => 15 | KeyQ => 16
  | KeyR => 17 | KeyS => 18 | KeyT => 19 | KeyU => 20 | KeyV => 21
  | KeyW => 22 | KeyX => 23 | KeyY => 24 | KeyZ => 25 | Digit0 => 26
  | Digit1 => 27 | Digit2 => 28 | Digit3 => 29 | Digit4 => 30
  | Digit5 => 31 | Digit6 => 32 | Digit7 => 33 | Digit8 => 34
  | Digit9 => 35 | F1 => 36 | F2 => 37 | F3 => 38 | F4 => 39 | F5 => 40
  | F6 => 41 | F7 => 42 | F8 => 43 | F9 => 44 | F10 => 45 | F11 => 46
  | F12 => 47 | F13 => 48 | F14 => 49 | F15 => 50 | F16 => 51 | F17 => 52
  | F18 => 53 | F19 => 54 | F20 => 55 | F21 => 56 | F22 => 57 | F23 => 58
  | F24 => 59 | ArrowUp => 60 | ArrowDown => 61 | ArrowLeft => 62
  | ArrowRight => 63 | LeftShift => 64 | RightShift => 65 | LeftCtrl => 66
  | RightCtrl => 67 | LeftAlt => 68 | RightAlt => 69 | LeftCmd => 70
  | RightCmd => 71 | Fn => 72 | CapsLock => 73 | Return => 74 | Tab => 75
  | Space => 76 | Backspace => 77 | Delete => 78 | Escape => 79
  | Semicolon => 80 | Quote => 81 | Comma => 82 | Period => 83
  | Slash => 84 | Backslash => 85 | Backquote => 86 | Minus => 87
  | Equal => 88 | LeftBracket => 89 | RightBracket => 90 | Home => 91
  | End => 92 | PageUp => 93 | PageDown => 94 | Insert => 95
  end%nat.

(** Every variant, in declaration order. *)
Definition all_keycodes : list KeyCode :=
  [
    KeyA; KeyB; KeyC; KeyD; KeyE; KeyF; KeyG; KeyH; KeyI; KeyJ; KeyK; KeyL;
    KeyM; KeyN; KeyO; KeyP; KeyQ; KeyR; KeyS; KeyT; KeyU; KeyV; KeyW; KeyX;
    KeyY; KeyZ; Digit0; Digit1; Digit2; Digit3; Digit4; Digit5; Digit6;
    Digit7; Digit8; Digit9; F1; F2; F3; F4; F5; F6; F7; F8; F9; F10; F11;
    F12; F13; F14; F15; F16; F17; F18; F19; F20; F21; F22; F23; F24;
    ArrowUp; ArrowDown; ArrowLeft; ArrowRight; LeftShift; RightShift;
    LeftCtrl; RightCtrl; LeftAlt; RightAlt; LeftCmd; RightCmd; Fn;
    CapsLock; Return; Tab; Space; Backspace; Delete; Escape; Semicolon;
    Quote; Comma; Period; Slash; Backslash; Backquote; Minus; Equal;
    LeftBracket; RightBracket; Home; End; PageUp; PageDown; Insert].

Lemma all_keycodes_index k : all_keycodes !! KeyCode_index k = Some k.
Proof. by destruct k. Qed.

#[export] Instance KeyCode_index_inj : Inj (=) (=) KeyCode_index.
Proof.
  intros k1 k2 Heq. apply (inj Some).
  by rewrite <- !all_keycodes_index, Heq.
Qed.

#[export] Instance KeyCode_eq_dec : EqDecision KeyCode := λ k1 k2,
  match decide (KeyCode_index k1 = KeyCode_index k2) with
  | left H => left (KeyCode_index_inj _ _ H)
  | right H => right (λ E, H (f_equal KeyCode_index E))
  end.

#[export] Program Instance KeyCode_countable : Countable KeyCode :=
  inj_countable KeyCode_index (λ i, all_keycodes !! i) _.
Next Obligation. apply all_keycodes_index. Qed.

Lemma elem_of_all_keycodes k : k ∈ all_keycodes.
Proof. apply list_elem_of_lookup. eauto using all_keycodes_index. Qed.

(** A decidable property of one key code holds of all of them when it
    evaluates to [true] on the declaration's list. *)
Lemma forall_keycodes (P : KeyCode → bool) :
  forallb P all_keycodes = true → ∀ k, P k = true.
Proof.
  rewrite forallb_forall. intros H k. apply H.
  apply list_elem_of_In, elem_of_all_keycodes.
Qed.

(** ** Modifier masks *)

(** [bitflags! struct Modifiers: u32], as its bits. *)
Record Modifiers : Type := mkModifiers { bits : Z }.

#[export] Instance Modifiers_eq_dec : EqDecision Modifiers.
Proof. solve_decision. Defined.

Definition CTRL := mkModifiers (Z.shiftl 1 0).
Definition SHIFT := mkModifiers (Z.shiftl 1 1).
Definition ALT := mkModifiers (Z.shiftl 1 2).
Definition CMD := mkModifiers (Z.shiftl 1 3).
Definition FN := mkModifiers (Z.shiftl 1 4).
Definition LEFT_CTRL := mkModifiers (Z.shiftl 1 8).
Definition RIGHT_CTRL := mkModifiers (Z.shiftl 1 9).
Definition LEFT_SHIFT := mkModifiers (Z.shiftl 1 10).
Definition RIGHT_SHIFT := mkModifiers (Z.shiftl 1 11).
Definition LEFT_ALT := mkModifiers (Z.shiftl 1 12).
Definition RIGHT_ALT := mkModifiers (Z.shiftl 1 13).
Definition LEFT_CMD := mkModifiers (Z.shiftl 1 14).
Definition RIGHT_CMD := mkModifiers (Z.shiftl 1 15).

(** The operations [bitflags] generates. *)
Definition mods_empty : Modifiers := mkModifiers 0.
Definition mods_is_empty (m : Modifiers) : bool := bool_decide (bits m = 0).
Definition mods_contains (m other : Modifiers) : bool :=
  bool_decide (Z.land (bits m) (bits other) = bits other).
Definition mods_union (a b : Modifiers) : Modifiers :=
  mkModifiers (Z.lor (bits a) (bits b)).
(** [a - b]: the bits of [a] that are not in [b]. *)
Definition mods_difference (a b : Modifiers) : Modifiers :=
  mkModifiers (Z.ldiff (bits a) (bits b)).

Declare Scope mods_scope.
Delimit Scope mods_scope with mods.
Bind Scope mods_scope with Modifiers.
Infix "∪" := mods_union : mods_scope.
Infix "∖" := mods_difference : mods_scope.

(** [Modifiers::matches]. *)
Definition mods_matches (self required : Modifiers) : bool :=
  mods_contains self required.

(** [Modifiers::any]. *)
Definition mods_any (self : Modifiers) : bool := negb (mods_is_empty self).

(** ** Events *)

(** [struct DeviceId(pub u64)]; zero is the legacy stream. *)
Abbreviation DeviceId := Z (only parsing).

Inductive EventKind : Type := KeyDown | KeyUp | ModifiersChanged.

#[export] Instance EventKind_eq_dec : EqDecision EventKind.
Proof. solve_decision. Defined.

Record KeyEvent : Type := mkKeyEvent {
  code : KeyCode;
  kind : EventKind;
  mods : Modifiers;
}.

#[export] Instance KeyEvent_eq_dec : EqDecision KeyEvent.
Proof. solve_decision. Defined.

(** [KeyCode::is_modifier]. *)
Definition is_modifier (k : KeyCode) : bool :=
  match k with
  | LeftShift | RightShift | LeftCtrl | RightCtrl | LeftAlt | RightAlt
  | LeftCmd | RightCmd | Fn | CapsLock => true
  | _ => false
  end.

(** [KeyCode::modifier_bit]. *)
Definition modifier_bit (k : KeyCode) : Modifiers :=
  match k with
  | LeftShift => LEFT_SHIFT
  | RightShift => RIGHT_SHIFT
  | LeftCtrl => LEFT_CTRL
  | RightCtrl => RIGHT_CTRL
  | LeftAlt => LEFT_ALT
  | RightAlt => RIGHT_ALT
  | LeftCmd => LEFT_CMD
  | RightCmd => RIGHT_CMD
  | Fn => FN
  | _ => mods_empty
  end.

(** [KeyCodeGenericBit::generic_bit] of [tap_fsm.rs]. *)
Definition generic_bit (k : KeyCode) : Modifiers :=
  match k with
  | LeftShift | RightShift => SHIFT
  | LeftCtrl | RightCtrl => CTRL
  | LeftAlt | RightAlt => ALT
  | LeftCmd | RightCmd => CMD
  | Fn => FN
  | _ => mods_empty
  end.

(** ** [action.rs] and [trigger.rs] *)

Inductive Action : Type :=
  | SendKey (key : KeyCode) (mods : Modifiers)
  | SetInputSource (id : string).

#[export] Instance Action_eq_dec : EqDecision Action.
Proof. solve_decision. Defined.

Record HotkeyTrigger : Type := mkHotkeyTrigger {
  hk_key : KeyCode;
  hk_mods : Modifiers;
}.

Record TapTrigger : Type := mkTapTrigger {
  tt_tap : KeyCode;
  tt_count : Z;      (* u32 *)
  tt_within_ms : Z;  (* u32 *)
}.

Inductive Trigger : Type :=
  | Hotkey (t : HotkeyTrigger)
  | Tap (t : TapTrigger).

#[export] Instance HotkeyTrigger_eq_dec : EqDecision HotkeyTrigger.
Proof. solve_decision. Defined.
#[export] Instance TapTrigger_eq_dec : EqDecision TapTrigger.
Proof. solve_decision. Defined.
#[export] Instance Trigger_eq_dec : EqDecision Trigger.
Proof. solve_decision. Defined.

(** ** The algebra of masks *)

Lemma mods_eq a b : bits a = bits b → a = b.
Proof. destruct a, b; simpl. by intros ->. Qed.

Lemma mods_contains_spec m o :
  mods_contains m o = true ↔
  ∀ n, 0 ≤ n → Z.testbit (bits o) n = true → Z.testbit (bits m) n = true.
Proof.
  unfold mods_contains. rewrite bool_decide_eq_true. split.
  - intros H n Hn Ho. rewrite <- H, Z.land_spec in Ho. by bools.
  - intros H. apply Z.bits_inj'. intros n Hn. rewrite Z.land_spec.
    specialize (H n Hn).
    destruct (Z.testbit (bits o) n), (Z.testbit (bits m) n); naive_solver.
Qed.

Lemma mods_contains_union m a b :
  mods_contains m (a ∪ b)%mods = mods_contains m a && mods_contains m b.
Proof.
  unfold mods_contains; simpl. apply eq_true_iff_eq.
  rewrite andb_true_iff, !bool_decide_eq_true. apply land_lor_contains.
Qed.

Lemma mods_contains_trans a b c :
  mods_contains a b = true → mods_contains b c = true →
  mods_contains a c = true.
Proof.
  unfold mods_contains. rewrite !bool_decide_eq_true. apply land_contains_trans.
Qed.

Lemma mods_contains_empty m : mods_contains m mods_empty = true.
Proof. apply bool_decide_eq_true. apply Z.land_0_r. Qed.

Lemma mods_is_empty_true m : mods_is_empty m = true ↔ m = mods_empty.
Proof.
  unfold mods_is_empty. rewrite bool_decide_eq_true.
  split; [intros; by apply mods_eq|by intros ->].
Qed.

(** ** Side bits in lockstep with generic bits *)

(** The pairs (side-specific bit, generic bit) of the doc comment of
    [Modifiers]. *)
Definition side_pairs : list (Modifiers * Modifiers) :=
  [(LEFT_CTRL, CTRL); (RIGHT_CTRL, CTRL); (LEFT_SHIFT, SHIFT);
   (RIGHT_SHIFT, SHIFT); (LEFT_ALT, ALT); (RIGHT_ALT, ALT);
   (LEFT_CMD, CMD); (RIGHT_CMD, CMD)].

Definition lockstep (m : Modifiers) : bool :=
  forallb (λ '(side, generic),
    negb (mods_contains m side) || mods_contains m generic) side_pairs.

(** [contains] of a single-bit mask is a bit test, so it distributes over a
    union of the tested mask. *)
Lemma mods_contains_bit m n :
  0 ≤ n → mods_contains m (mkModifiers (Z.shiftl 1 n)) = Z.testbit (bits m) n.
Proof.
  intros Hn. apply eq_true_iff_eq. rewrite mods_contains_spec; simpl.
  rewrite Z.shiftl_1_l. split.
  - intros H. apply H; [done|]. by apply Z.pow2_bits_true.
  - intros H k Hk. rewrite Z.pow2_bits_eqb by done. intros ->%Z.eqb_eq. done.
Qed.

Lemma mods_contains_bit_union a b n :
  0 ≤ n →
  mods_contains (a ∪ b)%mods (mkModifiers (Z.shiftl 1 n)) =
  mods_contains a (mkModifiers (Z.shiftl 1 n)) ||
  mods_contains b (mkModifiers (Z.shiftl 1 n)).
Proof. intros Hn. rewrite !mods_contains_bit by done. apply Z.lor_spec. Qed.

Lemma lockstep_empty : lockstep mods_empty = true.
Proof. reflexivity. Qed.

Lemma lockstep_pair a b i j :
  0 ≤ i → 0 ≤ j →
  let side := mkModifiers (Z.shiftl 1 i) in
  let generic := mkModifiers (Z.shiftl 1 j) in
  let ok m := negb (mods_contains m side) || mods_contains m generic in
  ok a = true → ok b = true → ok (a ∪ b)%mods = true.
Proof.
  simpl. intros Hi Hj. rewrite !mods_contains_bit_union by done.
  repeat match goal with
  | |- context [mods_contains ?m ?x] => destruct (mods_contains m x)
  end; done.
Qed.

Lemma lockstep_union a b :
  lockstep a = true → lockstep b = true → lockstep (a ∪ b)%mods = true.
Proof.
  unfold lockstep. cbn [forallb side_pairs]. intros Ha Hb. bools.
  repeat (apply andb_true_iff; split); try done;
    apply lockstep_pair; done.
Qed.

#[export] Hint Resolve lockstep_empty lockstep_union : sledge.

(** ** Key codes and their bits *)

Lemma modifier_bit_is_modifier k :
  mods_is_empty (modifier_bit k) = false → is_modifier k = true.
Proof. destruct k; done. Qed.

Lemma modifier_bit_generic k :
  mods_is_empty (modifier_bit k) = false →
  mods_is_empty (generic_bit k) = false ∧
  lockstep (modifier_bit k ∪ generic_bit k)%mods = true.
Proof. destruct k; done. Qed.
