(* ===== verification/TapFsm.v ===== *)
(** * [packages/core/src/tap_fsm.rs]: the modifier-tap state machine

    One machine per tap rule and device. Its state is the source's record (the
    per-key counter map, the active press and its taint); its operations are
    [on_transition], [on_modifier_change] and [on_other_key]. The theorems
    relate the counts it reports to the history of its inputs: a report is one
    clean press ([tap_press_clean]), a count of two or more continues a streak
    whose previous tap is within the window with nothing disqualifying in
    between ([tap_streak_sound]), and [n] clean taps in time are reported as
    [n] ([clean_taps_count]). *)

From S2P Require Import Prelude Event.

(** ** State *)

(** [struct TapState]; [Default] is a zero count and no last tap. *)
Record TapState : Type := mkTapState {
  ts_count : Z;                 (* u32 *)
  ts_last_tap_at : option Z;    (* Option<Instant> *)
}.
Definition TapState_default : TapState := mkTapState 0 None.

(** [struct TapFsm]. *)
Record TapFsm : Type := mkTapFsm {
  fsm_within : Z;                          (* Duration *)
  fsm_states : gmap KeyCode TapState;
  fsm_active_key : option KeyCode;
  fsm_active_down_at : option Z;
  fsm_active_tainted : bool;
}.

(** [enum TapResult]. *)
Inductive TapResult : Type :=
  | TapNone
  | Tapped (key : KeyCode) (count : Z).

#[export] Instance TapState_eq_dec : EqDecision TapState.
Proof. solve_decision. Defined.
#[export] Instance TapFsm_eq_dec : EqDecision TapFsm.
Proof. solve_decision. Defined.
#[export] Instance TapResult_eq_dec : EqDecision TapResult.
Proof. solve_decision. Defined.

(** ** Operations *)

(** [TapFsm::with_window]. *)
Definition with_window (within : Z) : TapFsm :=
  mkTapFsm within ∅ None None false.

(** [TapFsm::default] and [TapFsm::new]. *)
Definition TapFsm_new : TapFsm := with_window (from_millis 800).

(** [TapFsm::on_other_key]. *)
Definition on_other_key (f : TapFsm) : TapFsm :=
  mkTapFsm (fsm_within f) ∅ (fsm_active_key f) (fsm_active_down_at f)
    (match fsm_active_key f with
     | Some _ => true
     | None => fsm_active_tainted f
     end).

(** The branch [(false, true)] of [on_transition]: the key goes down. *)
Definition transition_down (f : TapFsm) (key : KeyCode) (new_mods : Modifiers)
    (now : Z) : TapFsm :=
  let other_mods := (new_mods ∖ modifier_bit key ∖ generic_bit key)%mods in
  if mods_any other_mods then
    mkTapFsm (fsm_within f) ∅ None None (fsm_active_tainted f)
  else
    let f :=
      match fsm_active_key f with
      | Some active =>
          if negb (bool_decide (active = key)) then on_other_key f else f
      | None => f
      end in
    mkTapFsm (fsm_within f)
      (filter (λ '(candidate, _), candidate = key) (fsm_states f))
      (Some key) (Some now) false.

(** The streak test of the branch [(true, false)]:
    [state.last_tap_at.is_some_and(..)]. *)
Definition within_window (within : Z) (last : option Z) (now : Z) : bool :=
  match last with
  | Some previous =>
      match checked_duration_since now previous with
      | Some elapsed => bool_decide (elapsed ≤ within)
      | None => false
      end
  | None => false
  end.

#[global] Arguments within_window : simpl never.

(** The branch [(true, false)] of [on_transition]: the key goes up. *)
Definition transition_up (f : TapFsm) (key : KeyCode) (now : Z) :
    TapFsm * TapResult :=
  if bool_decide (fsm_active_key f = Some key) && negb (fsm_active_tainted f)
  then
    let state := default TapState_default (fsm_states f !! key) in
    let count :=
      if within_window (fsm_within f) (ts_last_tap_at state) now
      then saturating_add_u32 (ts_count state) 1
      else 1 in
    (mkTapFsm (fsm_within f)
       (<[key := mkTapState count (Some now)]> (fsm_states f))
       None None (fsm_active_tainted f),
     Tapped key count)
  else if bool_decide (fsm_active_key f = Some key) then
    (mkTapFsm (fsm_within f) (fsm_states f) None None false, TapNone)
  else (f, TapNone).

(** [TapFsm::on_transition]. *)
Definition on_transition (f : TapFsm) (key : KeyCode) (was_down is_down : bool)
    (new_mods : Modifiers) (now : Z) : TapFsm * TapResult :=
  match was_down, is_down with
  | false, true => (transition_down f key new_mods now, TapNone)
  | true, false => transition_up f key now
  | _, _ => (f, TapNone)
  end.

(** [TapFsm::on_modifier_change]. *)
Definition on_modifier_change (f : TapFsm) (key : KeyCode) (was_down : bool)
    (new_mods : Modifiers) (now : Z) : TapFsm * TapResult :=
  let bit := modifier_bit key in
  if mods_is_empty bit then (f, TapNone)
  else on_transition f key was_down (mods_contains new_mods bit) new_mods now.

(** ** Histories *)

(** One input of the machine. *)
Inductive TapInput : Type :=
  | Transition (key : KeyCode) (was_down is_down : bool) (new_mods : Modifiers)
      (now : Z)
  | OtherKey.

Definition tap_step (f : TapFsm) (i : TapInput) : TapFsm * TapResult :=
  match i with
  | Transition key was_down is_down new_mods now =>
      on_transition f key was_down is_down new_mods now
  | OtherKey => (on_other_key f, TapNone)
  end.

(** The histories of a machine created with window [w], most recent input
    first, each input with the result the machine gave. *)
Inductive TapTrace (w : Z) : list (TapInput * TapResult) → TapFsm → Prop :=
  | TapTrace_nil : TapTrace w [] (with_window w)
  | TapTrace_cons tr f i f' r :
      TapTrace w tr f →
      tap_step f i = (f', r) →
      TapTrace w ((i, r) :: tr) f'.

(** The other modifiers of a transition, as [on_transition] computes them. *)
Definition other_modifiers (key : KeyCode) (new_mods : Modifiers) : bool :=
  mods_any (new_mods ∖ modifier_bit key ∖ generic_bit key)%mods.

(** An input that leaves a streak of [k] alive: not a foreign key press, not
    the press of another modifier, and not a press of [k] with another modifier
    held. *)
Definition quiet (k : KeyCode) (i : TapInput) : bool :=
  match i with
  | OtherKey => false
  | Transition key false true new_mods _ =>
      bool_decide (key = k) && negb (other_modifiers key new_mods)
  | Transition _ _ _ _ _ => true
  end.

(** A quiet input that also is not a release of [k]: the inside of one press. *)
Definition inside (k : KeyCode) (i : TapInput) : bool :=
  quiet k i &&
  match i with
  | Transition key true false _ _ => negb (bool_decide (key = k))
  | Transition _ false true _ _ => false
  | _ => true
  end.

(** ** Elementary facts *)

Lemma on_transition_key f k wd d m t f' k' n :
  on_transition f k wd d m t = (f', Tapped k' n) → k' = k.
Proof.
  unfold on_transition, transition_up. repeat case_match; intros; by simplify_eq.
Qed.

Lemma on_transition_within f k wd d m t f' r :
  on_transition f k wd d m t = (f', r) → fsm_within f' = fsm_within f.
Proof.
  unfold on_transition, transition_down, transition_up, on_other_key.
  intros H. repeat case_match; by simplify_eq/=.
Qed.

Lemma tap_step_within f i f' r :
  tap_step f i = (f', r) → fsm_within f' = fsm_within f.
Proof.
  destruct i; simpl; [apply on_transition_within|]. by intros [= <- <-].
Qed.

Lemma TapTrace_within w tr f : TapTrace w tr f → fsm_within f = w.
Proof.
  induction 1 as [|tr f i f' r _ IH Hstep]; [done|].
  by rewrite (tap_step_within _ _ _ _ Hstep).
Qed.

Lemma within_window_true w last now :
  within_window w last now = true ↔
  ∃ t, last = Some t ∧ 0 ≤ now - t ≤ w.
Proof.
  unfold within_window, checked_duration_since.
  destruct last as [t|]; [|naive_solver].
  case_bool_decide; [rewrite bool_decide_eq_true|]; split; intros.
  - exists t. split; [done|lia].
  - naive_solver lia.
  - done.
  - naive_solver lia.
Qed.

(** A report comes from a release of the active, untainted press. *)
Lemma tap_step_Tapped f i f' k c :
  tap_step f i = (f', Tapped k c) →
  ∃ m t, i = Transition k true false m t ∧
    fsm_active_key f = Some k ∧ fsm_active_tainted f = false ∧
    fsm_active_key f' = None ∧
    fsm_states f' = <[k := mkTapState c (Some t)]> (fsm_states f) ∧
    c = (if within_window (fsm_within f)
              (fsm_states f !! k ≫= ts_last_tap_at) t
         then saturating_add_u32
                (ts_count (default TapState_default (fsm_states f !! k))) 1
         else 1).
Proof.
  destruct i as [key [] [] m t|]; simpl; try done.
  unfold transition_up. intros H. case_match eqn:E; [|by case_match].
  bools. simplify_eq/=. exists m, t. repeat split; try done.
  by destruct (fsm_states f !! k).
Qed.

(** ** Soundness of the reported counts *)

(** A counter entry survives a step only if the step is quiet for its key, or
    is the report that wrote it. *)
Lemma tap_step_states f i f' r k st :
  tap_step f i = (f', r) →
  fsm_states f' !! k = Some st →
  (fsm_states f !! k = Some st ∧ quiet k i = true) ∨
  (∃ m t, i = Transition k true false m t ∧ r = Tapped k (ts_count st) ∧
     ts_last_tap_at st = Some t).
Proof.
  destruct i as [key wd d m t|]; simpl;
    [|intros [= <- <-]; simpl; by rewrite lookup_empty].
  destruct wd, d; simpl; intros Hstep Hk; simplify_eq; auto.
  - unfold transition_up in Hstep.
    case_match; simplify_eq/=; [|by case_match; simplify_eq/=; auto].
    destruct (decide (key = k)) as [->|].
    + rewrite lookup_insert_eq in Hk. simplify_eq. right. by exists m, t.
    + rewrite lookup_insert_ne in Hk by done. by left.
  - unfold transition_down in Hk. left. unfold other_modifiers.
    case_match; simpl in Hk; [by rewrite lookup_empty in Hk|].
    apply map_lookup_filter_Some in Hk as [Hk ->].
    rewrite bool_decide_true by done. split; [|done].
    repeat case_match; simplify_eq/=; auto.
Qed.

Lemma TapTrace_streak w tr f k st :
  TapTrace w tr f →
  fsm_states f !! k = Some st →
  ∃ tr2 m t tr1,
    tr = tr2 ++ (Transition k true false m t, Tapped k (ts_count st)) :: tr1 ∧
    Forall (λ p, quiet k p.1 = true) tr2 ∧
    ts_last_tap_at st = Some t.
Proof.
  intros Htr. induction Htr as [|tr f i f' r Htr IH Hstep]; simpl.
  { by rewrite lookup_empty. }
  intros Hk.
  destruct (tap_step_states _ _ _ _ _ _ Hstep Hk)
    as [[Hk' Hq]|(m & t & -> & -> & Ht)].
  - destruct (IH Hk') as (tr2 & m & t & tr1 & -> & Hall & Ht).
    exists ((i, r) :: tr2), m, t, tr1. by repeat constructor.
  - by exists [], m, t, tr.
Qed.

(** A count of two or more continues a streak: when the machine reports
    [c >= 2] taps of [k] at time [t], its history contains a previous report of
    the same key with count [c - 1] (or a saturated counter), released at most
    the window before, and since then no other key, no other modifier press and
    no press of [k] under another modifier happened. *)
Theorem tap_streak_sound w tr f i f' k c :
  TapTrace w tr f →
  tap_step f i = (f', Tapped k c) →
  2 ≤ c →
  ∃ m t, i = Transition k true false m t ∧
  ∃ tr2 m' t' c' tr1,
    tr = tr2 ++ (Transition k true false m' t', Tapped k c') :: tr1 ∧
    Forall (λ p, quiet k p.1 = true) tr2 ∧
    c = saturating_add_u32 c' 1 ∧
    0 ≤ t - t' ≤ w.
Proof.
  intros Htr Hstep Hc.
  destruct (tap_step_Tapped _ _ _ _ _ Hstep)
    as (m & t & -> & _ & _ & _ & _ & Hcount).
  exists m, t. split; [done|]. rewrite (TapTrace_within _ _ _ Htr) in Hcount.
  destruct (within_window _ _ _) eqn:Hw in Hcount; [|lia].
  apply within_window_true in Hw as (t' & Ht' & Hle).
  destruct (fsm_states f !! k) as [st|] eqn:Hst; simplify_eq/=.
  destruct (TapTrace_streak _ _ _ _ _ Htr Hst)
    as (tr2 & m' & t'' & tr1 & -> & Hall & Ht'').
  simplify_eq. by exists tr2, m', t', (ts_count st), tr1.
Qed.

(** The active, untainted press of a history. *)
Lemma TapTrace_press w tr f k :
  TapTrace w tr f →
  fsm_active_key f = Some k →
  fsm_active_tainted f = false →
  ∃ tr2 m t r tr1,
    tr = tr2 ++ (Transition k false true m t, r) :: tr1 ∧
    other_modifiers k m = false ∧
    Forall (λ p, inside k p.1 = true) tr2.
Proof.
  intros Htr. induction Htr as [|tr f i f' r Htr IH Hstep]; [done|].
  intros Hk Ht.
  assert (fsm_active_key f = Some k → fsm_active_tainted f = false →
          inside k i = true →
          ∃ tr2 m t r' tr1,
            (i, r) :: tr = tr2 ++ (Transition k false true m t, r') :: tr1 ∧
            other_modifiers k m = false ∧
            Forall (λ p, inside k p.1 = true) tr2) as Hext.
  { intros Hk' Ht' Hin. destruct (IH Hk' Ht') as (tr2 & m & t & r' & tr1 & -> & ? & ?).
    exists ((i, r) :: tr2), m, t, r', tr1. by repeat constructor. }
  destruct i as [key wd d m t|]; simpl in Hstep; simplify_eq/=.
  - unfold on_transition in Hstep.
    destruct wd, d; simplify_eq/=; [by apply Hext| | |by apply Hext].
    + unfold transition_up in Hstep. repeat case_match; simplify_eq/=.
      bools. apply Hext; try done. unfold inside; simpl.
      rewrite bool_decide_false; [done|]. intros ->. congruence.
    + unfold transition_down in Hk, Ht. case_match eqn:Ho; simplify_eq/=.
      exists [], m, t, TapNone, tr. by repeat constructor.
  - by rewrite Hk in Ht.
Qed.

(** Every reported tap is one clean press: the history holds the matching
    press of [k], made with no other modifier held, and between it and the
    release no other key, no other modifier and no second transition of [k]
    was fed to the machine. *)
Theorem tap_press_clean w tr f i f' k c :
  TapTrace w tr f →
  tap_step f i = (f', Tapped k c) →
  ∃ tr2 m t r tr1,
    tr = tr2 ++ (Transition k false true m t, r) :: tr1 ∧
    other_modifiers k m = false ∧
    Forall (λ p, inside k p.1 = true) tr2.
Proof.
  intros Htr Hstep.
  destruct (tap_step_Tapped _ _ _ _ _ Hstep) as (_ & _ & _ & Hk & Ht & _).
  by eapply TapTrace_press.
Qed.

(** ** Completeness: clean taps in time are counted *)

(** The results of a sequence of inputs, in order. *)
Fixpoint tap_run (f : TapFsm) (l : list TapInput) : TapFsm * list TapResult :=
  match l with
  | [] => (f, [])
  | i :: l =>
      let '(f, r) := tap_step f i in
      let '(f, rs) := tap_run f l in (f, r :: rs)
  end.

(** One tap: the press and the release of a key with their masks and times. *)
Record tap : Type := mktap {
  tap_down_mods : Modifiers; tap_down_at : Z;
  tap_up_mods : Modifiers; tap_up_at : Z;
}.

Definition tap_inputs (k : KeyCode) (taps : list tap) : list TapInput :=
  taps ≫= λ p, [Transition k false true (tap_down_mods p) (tap_down_at p);
                Transition k true false (tap_up_mods p) (tap_up_at p)].

(** Every release follows the previous one (if any) within the window. *)
Fixpoint in_time (w : Z) (previous : option Z) (taps : list tap) : Prop :=
  match taps with
  | [] => True
  | p :: taps =>
      from_option (λ t, 0 ≤ tap_up_at p - t ≤ w) True previous ∧
      in_time w (Some (tap_up_at p)) taps
  end.

(** The reports of a streak that starts after [c] taps. *)
Fixpoint streak_results (k : KeyCode) (c : Z) (taps : list tap) :
    list TapResult :=
  match taps with
  | [] => []
  | _ :: taps =>
      let c := saturating_add_u32 c 1 in
      TapNone :: Tapped k c :: streak_results k c taps
  end.

(** What is remembered of [k]: nothing, or a streak of [c] taps. *)
Definition streak_state (c : Z) (previous : option Z) (o : option TapState) :
    Prop :=
  match previous with
  | None => o = None ∧ c = 0
  | Some t => o = Some (mkTapState c (Some t))
  end.

Lemma transition_down_clean f k m t c previous :
  other_modifiers k m = false →
  streak_state c previous (fsm_states f !! k) →
  fsm_active_key f = None ∨ previous = None →
  let f' := transition_down f k m t in
  fsm_within f' = fsm_within f ∧ fsm_active_key f' = Some k ∧
  fsm_active_tainted f' = false ∧ streak_state c previous (fsm_states f' !! k).
Proof.
  unfold transition_down, other_modifiers. intros -> Hst Hidle; simpl.
  repeat split; try done.
  - by repeat case_match.
  - destruct previous as [p|]; simpl in *.
    + destruct Hidle as [->|]; [|done].
      by apply map_lookup_filter_Some.
    + split; [|naive_solver]. apply map_lookup_filter_None. left.
      repeat case_match; naive_solver.
Qed.

Lemma transition_up_clean f k t c previous :
  fsm_active_key f = Some k → fsm_active_tainted f = false →
  streak_state c previous (fsm_states f !! k) →
  from_option (λ p, 0 ≤ t - p ≤ fsm_within f) True previous →
  let c' := saturating_add_u32 c 1 in
  ∃ f', transition_up f k t = (f', Tapped k c') ∧
    fsm_within f' = fsm_within f ∧ fsm_active_key f' = None ∧
    streak_state c' (Some t) (fsm_states f' !! k).
Proof.
  unfold transition_up. intros Hk Ht Hst Hw. rewrite Hk, Ht.
  rewrite bool_decide_true by done. simpl.
  destruct previous as [p|]; simpl in *.
  - rewrite Hst; simpl.
    assert (within_window (fsm_within f) (Some p) t = true) as ->
      by (apply within_window_true; eauto).
    eexists. split; [reflexivity|]. simpl.
    by rewrite lookup_insert_eq.
  - destruct Hst as [-> ->]. simpl. eexists. split; [reflexivity|]. simpl.
    by rewrite lookup_insert_eq.
Qed.

Lemma clean_taps_run f k c previous taps :
  Forall (λ p, other_modifiers k (tap_down_mods p) = false) taps →
  streak_state c previous (fsm_states f !! k) →
  fsm_active_key f = None ∨ previous = None →
  in_time (fsm_within f) previous taps →
  (tap_run f (tap_inputs k taps)).2 = streak_results k c taps.
Proof.
  revert f c previous. induction taps as [|p taps IH];
    intros f c previous Hall Hst Hidle Htime; [done|].
  apply Forall_cons in Hall as [Hp Hall]. destruct Htime as [Hw Htime].
  destruct (transition_down_clean f k _ (tap_down_at p) _ _ Hp Hst Hidle)
    as (Hw1 & Hk1 & Ht1 & Hst1).
  simpl. set (f1 := transition_down _ _ _ _) in *.
  rewrite <- Hw1 in Hw, Htime.
  destruct (transition_up_clean _ _ _ _ _ Hk1 Ht1 Hst1 Hw)
    as (f2 & -> & Hw2 & Hk2 & Hst2).
  rewrite <- Hw2 in Htime.
  specialize (IH f2 _ (Some (tap_up_at p)) Hall Hst2 (or_introl Hk2) Htime).
  unfold tap_inputs in IH. destruct (tap_run f2 _) as [f3 rs]. simpl in *.
  by rewrite IH.
Qed.

(** Clean taps in time are counted exactly: from a machine that remembers
    no streak of [k], each of the presses and releases of [taps] (no other
    modifier held at a press, consecutive releases within the window) reports
    nothing on the press and the running count [1, 2, 3, ...] on the release,
    the count saturating at [u32::MAX]. *)
Theorem clean_taps_count f k taps :
  fsm_states f !! k = None →
  Forall (λ p, other_modifiers k (tap_down_mods p) = false) taps →
  in_time (fsm_within f) None taps →
  (tap_run f (tap_inputs k taps)).2 = streak_results k 0 taps.
Proof. intros Hk Hall Htime. apply (clean_taps_run _ _ _ None); auto. by split. Qed.

(** ** Witnesses *)

(** Builds a history by running its inputs. *)
Ltac tap_trace :=
  first [apply TapTrace_nil
        |eapply TapTrace_cons; [tap_trace|cbn; reflexivity]].

Definition alt_down : Modifiers := (ALT ∪ RIGHT_ALT)%mods.

(** Two taps of the right Alt key, 100 ms apart. *)
Definition two_alt_taps : list tap :=
  [mktap alt_down 0 mods_empty (from_millis 50);
   mktap alt_down (from_millis 100) mods_empty (from_millis 150)].

Definition one_tap_trace : list (TapInput * TapResult) :=
  [(Transition RightAlt false true alt_down (from_millis 100), TapNone);
   (Transition RightAlt true false mods_empty (from_millis 50), Tapped RightAlt 1);
   (Transition RightAlt false true alt_down 0, TapNone)].

Lemma one_tap_trace_ok :
  ∃ f, TapTrace (from_millis 800) one_tap_trace f ∧
       ∃ f', tap_step f (Transition RightAlt true false mods_empty
               (from_millis 150)) = (f', Tapped RightAlt 2).
Proof.
  eexists. split; [tap_trace|]. eexists. reflexivity.
Defined.

Lemma tap_streak_sound_witness :
  ∃ tr2 m' t' c' tr1,
    one_tap_trace =
      tr2 ++ (Transition RightAlt true false m' t', Tapped RightAlt c') :: tr1 ∧
    0 ≤ from_millis 150 - t' ≤ from_millis 800.
Proof.
  destruct one_tap_trace_ok as (f & Htr & f' & Hstep).
  destruct (tap_streak_sound _ _ _ _ _ _ _ Htr Hstep ltac:(lia))
    as (m & t & Hi & tr2 & m' & t' & c' & tr1 & Heq & _ & _ & Ht).
  injection Hi as _ <-. by exists tr2, m', t', c', tr1.
Defined.

Lemma tap_press_clean_witness :
  ∃ tr2 m t r tr1,
    one_tap_trace = tr2 ++ (Transition RightAlt false true m t, r) :: tr1 ∧
    other_modifiers RightAlt m = false.
Proof.
  destruct one_tap_trace_ok as (f & Htr & f' & Hstep).
  destruct (tap_press_clean _ _ _ _ _ _ _ Htr Hstep)
    as (tr2 & m & t & r & tr1 & Heq & Ho & _).
  by exists tr2, m, t, r, tr1.
Defined.

Lemma clean_taps_count_witness :
  (tap_run TapFsm_new (tap_inputs RightAlt two_alt_taps)).2 =
  [TapNone; Tapped RightAlt 1; TapNone; Tapped RightAlt 2].
Proof.
  apply (clean_taps_count TapFsm_new RightAlt two_alt_taps); [done| |].
  - repeat constructor.
  - cbn. unfold from_millis. lia.
Defined.
