(* ===== verification/Rule.v ===== *)
(** * [packages/core/src/rule.rs]: rules and the stateful matcher

    The whole of the matcher: rule sets, the per-device tap machines, the press
    ownership sets ([swallowed_downs], [forwarded_downs]) and the one-shot
    replacement tokens. Operations that can panic in the source (the
    [unreachable!] on a non-tap rule among the tap rules, the [expect] on the
    token counter) return [None] there; [MatcherInv.v] shows when they do
    not. *)

From S2P Require Import Prelude Event TapFsm.

(** ** Rules *)

(** [struct Rule]. *)
Record Rule : Type := mkRule {
  rule_trigger : Trigger;
  rule_action : Action;
  rule_when_app_in : option (list string);
}.

#[export] Instance Rule_eq_dec : EqDecision Rule.
Proof. solve_decision. Defined.

(** [enum Verdict]. *)
Inductive Verdict : Type :=
  | Verdict_Pass
  | Verdict_Swallow
  | Verdict_Replace (action : Action).

#[export] Instance Verdict_eq_dec : EqDecision Verdict.
Proof. solve_decision. Defined.

(** [struct ReplacementToken]. *)
Record ReplacementToken : Type := mkReplacementToken {
  tok_device : DeviceId;
  tok_key : KeyCode;
  tok_generation : Z;   (* u64 *)
}.

#[export] Instance ReplacementToken_eq_dec : EqDecision ReplacementToken.
Proof. solve_decision. Defined.

(** [enum ReplacementDelivery]. *)
Inductive ReplacementDelivery : Type :=
  | Delivered
  | RejectedOriginalForwarded
  | Uncertain.

#[export] Instance ReplacementDelivery_eq_dec : EqDecision ReplacementDelivery.
Proof. solve_decision. Defined.

(** [struct RuleSet]. *)
Record RuleSet : Type := mkRuleSet {
  rs_hotkeys : list Rule;
  rs_taps : list Rule;
}.

(** [RuleSet::new]. *)
Definition RuleSet_new (rules : list Rule) : RuleSet :=
  fold_left (λ rs r,
    match rule_trigger r with
    | Hotkey _ => mkRuleSet (rs_hotkeys rs ++ [r]) (rs_taps rs)
    | Tap _ => mkRuleSet (rs_hotkeys rs) (rs_taps rs ++ [r])
    end) rules (mkRuleSet [] []).

(** [RuleSet::len]. *)
Definition RuleSet_len (rs : RuleSet) : nat :=
  (length (rs_hotkeys rs) + length (rs_taps rs))%nat.

(** [RuleSet::is_empty]. *)
Definition RuleSet_is_empty (rs : RuleSet) : bool :=
  bool_decide (rs_hotkeys rs = []) && bool_decide (rs_taps rs = []).

(** [RuleSet::iter]. *)
Definition RuleSet_iter (rs : RuleSet) : list Rule :=
  rs_hotkeys rs ++ rs_taps rs.

(** [RuleSet::hotkey_matches]. *)
Definition hotkey_matches (trig : HotkeyTrigger) (evt : KeyEvent) : bool :=
  bool_decide (kind evt = KeyDown) && bool_decide (code evt = hk_key trig) &&
  mods_matches (mods evt) (hk_mods trig).

(** [RuleSet::scope_matches]. *)
Definition scope_matches (rule : Rule) (focused_app : option string) : bool :=
  match rule_when_app_in rule, focused_app with
  | None, _ => true
  | Some list, Some app => existsb (λ a, bool_decide (a = app)) list
  | Some _, None => false
  end.

(** ** Matcher state *)

(** A physical press: a key of a device. *)
Abbreviation Press := (DeviceId * KeyCode)%type (only parsing).

(** [struct Matcher]. *)
Record Matcher : Type := mkMatcher {
  m_rules : RuleSet;
  m_tap_fsms : gmap Z (list TapFsm);
  m_modifier_state : gmap (Z * KeyCode) bool;
  m_swallowed_downs : gset (Z * KeyCode);
  m_forwarded_downs : gset (Z * KeyCode);
  m_pending_deliveries : gmap (Z * KeyCode) Z;
  m_delivery_active : bool;
  m_delivery_generation : Z;   (* u64 *)
}.

(** Assignments to one field. *)
Definition set_rules rs (m : Matcher) : Matcher :=
  mkMatcher rs (m_tap_fsms m) (m_modifier_state m) (m_swallowed_downs m)
    (m_forwarded_downs m) (m_pending_deliveries m) (m_delivery_active m)
    (m_delivery_generation m).
Definition set_tap_fsms fs (m : Matcher) : Matcher :=
  mkMatcher (m_rules m) fs (m_modifier_state m) (m_swallowed_downs m)
    (m_forwarded_downs m) (m_pending_deliveries m) (m_delivery_active m)
    (m_delivery_generation m).
Definition set_modifier_state ms (m : Matcher) : Matcher :=
  mkMatcher (m_rules m) (m_tap_fsms m) ms (m_swallowed_downs m)
    (m_forwarded_downs m) (m_pending_deliveries m) (m_delivery_active m)
    (m_delivery_generation m).
Definition set_swallowed s (m : Matcher) : Matcher :=
  mkMatcher (m_rules m) (m_tap_fsms m) (m_modifier_state m) s
    (m_forwarded_downs m) (m_pending_deliveries m) (m_delivery_active m)
    (m_delivery_generation m).
Definition set_forwarded s (m : Matcher) : Matcher :=
  mkMatcher (m_rules m) (m_tap_fsms m) (m_modifier_state m)
    (m_swallowed_downs m) s (m_pending_deliveries m) (m_delivery_active m)
    (m_delivery_generation m).
Definition set_pending ps (m : Matcher) : Matcher :=
  mkMatcher (m_rules m) (m_tap_fsms m) (m_modifier_state m)
    (m_swallowed_downs m) (m_forwarded_downs m) ps (m_delivery_active m)
    (m_delivery_generation m).
Definition set_active b (m : Matcher) : Matcher :=
  mkMatcher (m_rules m) (m_tap_fsms m) (m_modifier_state m)
    (m_swallowed_downs m) (m_forwarded_downs m) (m_pending_deliveries m) b
    (m_delivery_generation m).
Definition set_generation g (m : Matcher) : Matcher :=
  mkMatcher (m_rules m) (m_tap_fsms m) (m_modifier_state m)
    (m_swallowed_downs m) (m_forwarded_downs m) (m_pending_deliveries m)
    (m_delivery_active m) g.

(** [Matcher::new]. *)
Definition Matcher_new (rules : RuleSet) : Matcher :=
  mkMatcher rules ∅ ∅ ∅ ∅ ∅ false 0.

(** [Matcher::swap_rules]. *)
Definition swap_rules (m : Matcher) (new_rules : RuleSet) : Matcher :=
  set_tap_fsms ∅ (set_rules new_rules m).

(** [Matcher::refresh_delivery_active]. *)
Definition refresh_delivery_active (m : Matcher) : Matcher :=
  set_active
    (negb (bool_decide (m_pending_deliveries m = ∅)) ||
     negb (bool_decide (m_forwarded_downs m = ∅))) m.

(** [Matcher::report_delivery]. *)
Definition report_delivery (m : Matcher) (token : ReplacementToken)
    (delivery : ReplacementDelivery) : Matcher * bool :=
  let press := (tok_device token, tok_key token) in
  if negb (bool_decide
       (m_pending_deliveries m !! press = Some (tok_generation token)))
  then (m, false)
  else
    let m := set_pending (delete press (m_pending_deliveries m)) m in
    let m :=
      if bool_decide (delivery = RejectedOriginalForwarded) then
        let '(s, removed) := set_remove press (m_swallowed_downs m) in
        let m := set_swallowed s m in
        if removed then set_forwarded ({[press]} ∪ m_forwarded_downs m) m
        else m
      else m in
    (refresh_delivery_active m, true).

(** [Matcher::invalidate_speculation]. *)
Definition Matcher_invalidate_speculation (m : Matcher) : Matcher :=
  refresh_delivery_active (set_pending ∅ (set_tap_fsms ∅ m)).

(** [Matcher::disqualify_taps]. *)
Definition disqualify_taps (m : Matcher) : Matcher :=
  set_tap_fsms (fmap (M := gmap Z) (map on_other_key) (m_tap_fsms m)) m.

(** [Matcher::settle_device_event]. *)
Definition Matcher_settle_device_event (m : Matcher) (device : DeviceId)
    (event : KeyEvent) : Matcher :=
  if negb (bool_decide (kind event = KeyUp)) then m
  else
    let press := (device, code event) in
    let m := set_swallowed (m_swallowed_downs m ∖ {[press]}) m in
    let m := set_forwarded (m_forwarded_downs m ∖ {[press]}) m in
    let m := set_pending (delete press (m_pending_deliveries m)) m in
    let m := set_modifier_state (delete press (m_modifier_state m)) m in
    let m := set_tap_fsms (delete device (m_tap_fsms m)) m in
    refresh_delivery_active m.

(** [Matcher::reset_device]. *)
Definition reset_device (m : Matcher) (device : DeviceId) : Matcher :=
  let m := set_tap_fsms (delete device (m_tap_fsms m)) m in
  let m := set_modifier_state
    (filter (λ '((id, _), _), id ≠ device) (m_modifier_state m)) m in
  let m := set_swallowed
    (filter (λ '(id, _), id ≠ device) (m_swallowed_downs m)) m in
  let m := set_forwarded
    (filter (λ '(id, _), id ≠ device) (m_forwarded_downs m)) m in
  let m := set_pending
    (filter (λ '((id, _), _), id ≠ device) (m_pending_deliveries m)) m in
  refresh_delivery_active m.

(** [Matcher::reset]. *)
Definition Matcher_reset (m : Matcher) : Matcher :=
  set_active false (set_pending ∅ (set_forwarded ∅ (set_swallowed ∅
    (set_modifier_state ∅ (set_tap_fsms ∅ m))))).

(** [Matcher::reconcile_delivery_event]. *)
Definition reconcile_delivery_event (m : Matcher) (press : Press)
    (kind : EventKind) : Matcher * bool :=
  let m :=
    if negb (bool_decide (kind = KeyDown)) ||
       (negb (bool_decide (press ∈ m_swallowed_downs m)) &&
        negb (bool_decide (press ∈ m_forwarded_downs m)))
    then set_pending (delete press (m_pending_deliveries m)) m
    else m in
  let '(m, forwarded) :=
    match kind with
    | KeyUp =>
        let '(s, removed) := set_remove press (m_forwarded_downs m) in
        (set_forwarded s m, removed)
    | KeyDown => (m, bool_decide (press ∈ m_forwarded_downs m))
    | ModifiersChanged => (m, false)
    end in
  (refresh_delivery_active m, forwarded).

(** ** Dispatch *)

(** The closure of [tap_fsms.entry(device).or_insert_with(..)]: one machine per
    tap rule; the [unreachable!] of a non-tap rule is [None]. *)
Definition new_fsms (rs : RuleSet) : option (list TapFsm) :=
  mapM (λ rule,
    match rule_trigger rule with
    | Tap trig => Some (with_window (from_millis (tt_within_ms trig)))
    | Hotkey _ => None
    end) (rs_taps rs).

(** The physical state a modifier event reports; [None] for the early return on
    a [ModifiersChanged] that no bit can prove. *)
Definition event_is_down (event : KeyEvent) : option bool :=
  match kind event with
  | KeyDown => Some true
  | KeyUp => Some false
  | ModifiersChanged =>
      let bit := modifier_bit (code event) in
      if mods_is_empty bit then None else Some (mods_contains (mods event) bit)
  end.

(** [modifier_state.iter().any(..)]: another modifier of the device is held. *)
Definition other_modifier_down (ms : gmap (Z * KeyCode) bool)
    (device : DeviceId) (key : KeyCode) : bool :=
  existsb (λ '((id, k), down),
    bool_decide (id = device) && negb (bool_decide (k = key)) && down)
    (map_to_list ms).

(** The loop over [rules.taps.iter().zip(fsms.iter_mut())]. *)
Fixpoint tap_loop (taps : list Rule) (fsms : list TapFsm) (event : KeyEvent)
    (was_down is_down : bool) (focused_app : option string) (now : Z)
    (action : option Action) : list TapFsm * option Action :=
  match taps, fsms with
  | rule :: taps, fsm :: fsms =>
      let '(fsm, result) :=
        on_transition fsm (code event) was_down is_down (mods event) now in
      let action :=
        match result, rule_trigger rule with
        | Tapped key count, Tap trig =>
            if bool_decide (action = None) && bool_decide (tt_tap trig = key) &&
               bool_decide (tt_count trig = count) &&
               scope_matches rule focused_app
            then Some (rule_action rule)
            else action
        | _, _ => action
        end in
      let '(fsms, action) :=
        tap_loop taps fsms event was_down is_down focused_app now action in
      (fsm :: fsms, action)
  | _, _ => (fsms, action)
  end.

(** The branch [if event.code.is_modifier() { .. }] of [dispatch_device]. *)
Definition dispatch_modifier (m : Matcher) (device : DeviceId)
    (event : KeyEvent) (focused_app : option string) (now : Z)
    (fsms : list TapFsm) : Matcher * Verdict :=
  let press := (device, code event) in
  let was_down := default false (m_modifier_state m !! press) in
  match event_is_down event with
  | None => (m, Verdict_Pass)
  | Some is_down =>
      let m := set_modifier_state (<[press := is_down]> (m_modifier_state m)) m in
      if is_down && negb was_down &&
         other_modifier_down (m_modifier_state m) device (code event)
      then
        (set_tap_fsms (<[device := map on_other_key fsms]> (m_tap_fsms m)) m,
         Verdict_Pass)
      else
        let '(fsms, action) :=
          tap_loop (rs_taps (m_rules m)) fsms event was_down is_down focused_app
            now None in
        let m := set_tap_fsms (<[device := fsms]> (m_tap_fsms m)) m in
        match action with
        | Some action => (m, Verdict_Replace action)
        | None => (m, Verdict_Pass)
        end
  end.

(** The test of the hotkey loop on one rule. *)
Definition hotkey_rule_matches (event : KeyEvent) (focused_app : option string)
    (rule : Rule) : bool :=
  match rule_trigger rule with
  | Hotkey trig =>
      hotkey_matches trig event && scope_matches rule focused_app
  | Tap _ => false
  end.

(** The tail of [dispatch_device]: a key that is not a modifier. *)
Definition dispatch_key (m : Matcher) (device : DeviceId) (event : KeyEvent)
    (focused_app : option string) (fsms : list TapFsm) : Matcher * Verdict :=
  let press := (device, code event) in
  if bool_decide (kind event = KeyDown) then
    let m := set_tap_fsms
      (<[device := map on_other_key fsms]> (m_tap_fsms m)) m in
    match List.find (hotkey_rule_matches event focused_app)
            (rs_hotkeys (m_rules m)) with
    | Some rule =>
        (set_swallowed ({[press]} ∪ m_swallowed_downs m) m,
         Verdict_Replace (rule_action rule))
    | None => (m, Verdict_Pass)
    end
  else (m, Verdict_Pass).

(** [Matcher::dispatch_device]; [None] is a panic. *)
Definition dispatch_device (m : Matcher) (device : DeviceId) (event : KeyEvent)
    (focused_app : option string) (now : Z) : option (Matcher * Verdict) :=
  let press := (device, code event) in
  let '(m, forwarded) :=
    if m_delivery_active m then reconcile_delivery_event m press (kind event)
    else (m, false) in
  if forwarded then Some (m, Verdict_Pass) else
  let '(swallowed, removed) := set_remove press (m_swallowed_downs m) in
  if bool_decide (kind event = KeyUp) && removed
  then Some (set_swallowed swallowed m, Verdict_Swallow) else
  if bool_decide (kind event = KeyDown) &&
     bool_decide (press ∈ m_swallowed_downs m)
  then Some (m, Verdict_Swallow) else
  fsms ← match m_tap_fsms m !! device with
         | Some fsms => Some fsms
         | None => new_fsms (m_rules m)
         end;
  let m := set_tap_fsms (<[device := fsms]> (m_tap_fsms m)) m in
  Some (if is_modifier (code event)
        then dispatch_modifier m device event focused_app now fsms
        else dispatch_key m device event focused_app fsms).

(** [Matcher::dispatch]: the legacy stream. *)
Definition dispatch (m : Matcher) (event : KeyEvent)
    (focused_app : option string) (now : Z) : option (Matcher * Verdict) :=
  dispatch_device m 0 event focused_app now.

(** [Matcher::dispatch_device_with_delivery]; [None] is a panic. *)
Definition dispatch_device_with_delivery (m : Matcher) (device : DeviceId)
    (event : KeyEvent) (focused_app : option string) (now : Z) :
    option (Matcher * (Verdict * option ReplacementToken)) :=
  '(m, verdict) ← dispatch_device m device event focused_app now;
  match verdict with
  | Verdict_Replace _ =>
      generation ← checked_add_u64 (m_delivery_generation m) 1;
      let m := set_generation generation m in
      let m := set_pending
        (<[(device, code event) := generation]> (m_pending_deliveries m)) m in
      let m := set_active true m in
      Some (m, (verdict,
        Some (mkReplacementToken device (code event) generation)))
  | _ => Some (m, (verdict, None))
  end.
