(* ===== verification/MatcherInv.v ===== *)
(** * The matcher's representation invariant

    [MatcherInv] states what the fields of [Matcher] say about each other: the
    rule set is partitioned by trigger, every device's tap machines mirror the
    tap rules, consumed and forwarded presses are disjoint and never modifiers,
    [delivery_active] caches exactly whether delivery state exists, and the
    pending token generations are distinct and already issued. Every public
    operation preserves it, so it holds in every reachable state, where in
    addition no dispatch panics. *)

From S2P Require Import Prelude Event TapFsm Rule.

(** ** Rule sets *)

Definition is_hotkey (r : Rule) : bool :=
  match rule_trigger r with Hotkey _ => true | Tap _ => false end.

Lemma RuleSet_new_aux rules hs ts :
  fold_left (λ rs r,
    match rule_trigger r with
    | Hotkey _ => mkRuleSet (rs_hotkeys rs ++ [r]) (rs_taps rs)
    | Tap _ => mkRuleSet (rs_hotkeys rs) (rs_taps rs ++ [r])
    end) rules (mkRuleSet hs ts) =
  mkRuleSet (hs ++ filter (λ r, is_hotkey r = true) rules)
            (ts ++ filter (λ r, is_hotkey r = false) rules).
Proof.
  revert hs ts. induction rules as [|r rules IH]; intros hs ts; simpl.
  { by rewrite !app_nil_r. }
  rewrite !filter_cons. destruct (is_hotkey r) eqn:E; unfold is_hotkey in E;
    destruct (rule_trigger r); try done; rewrite IH; simpl;
    f_equal; by rewrite <- ?app_assoc.
Qed.

Lemma RuleSet_new_partition rules :
  RuleSet_new rules =
  mkRuleSet (filter (λ r, is_hotkey r = true) rules)
            (filter (λ r, is_hotkey r = false) rules).
Proof. apply RuleSet_new_aux. Qed.

(** A rule set whose two halves hold what their names say. *)
Record RuleSetInv (rs : RuleSet) : Prop := {
  rsi_hotkeys : Forall (λ r, is_hotkey r = true) (rs_hotkeys rs);
  rsi_taps : Forall (λ r, is_hotkey r = false) (rs_taps rs);
}.

Lemma RuleSet_new_inv rules : RuleSetInv (RuleSet_new rules).
Proof.
  rewrite RuleSet_new_partition.
  split; simpl; apply Forall_forall; intros r [? _]%list_elem_of_filter; done.
Qed.

(** [RuleSet::new] is a stable partition that loses nothing: the rule count
    is kept, iteration is a permutation of the input, and the hotkey and tap
    halves keep the configuration order, on which first-match priority
    rests. *)
Lemma RuleSet_new_stable_partition rules :
  RuleSet_len (RuleSet_new rules) = length rules ∧
  RuleSet_iter (RuleSet_new rules) ≡ₚ rules ∧
  rs_hotkeys (RuleSet_new rules) `sublist_of` rules ∧
  rs_taps (RuleSet_new rules) `sublist_of` rules.
Proof.
  unfold RuleSet_len, RuleSet_iter. rewrite RuleSet_new_partition; simpl.
  assert (filter (λ r, is_hotkey r = true) rules ++
          filter (λ r, is_hotkey r = false) rules ≡ₚ rules) as Hperm.
  { induction rules as [|r rules IH]; [done|]. rewrite !filter_cons.
    destruct (is_hotkey r); rewrite ?decide_True, ?decide_False by done; simpl;
      [by rewrite IH|]. rewrite <- Permutation_middle. by rewrite IH. }
  repeat split.
  - by rewrite <- length_app, Hperm.
  - done.
  - apply sublist_filter.
  - apply sublist_filter.
Qed.

(** ** The invariant *)

(** The windows of the tap rules, in order. *)
Definition tap_windows (rs : RuleSet) : list Z :=
  omap (λ r, match rule_trigger r with
             | Tap t => Some (from_millis (tt_within_ms t))
             | Hotkey _ => None
             end) (rs_taps rs).

Record MatcherInv (m : Matcher) : Prop := {
  inv_rules : RuleSetInv (m_rules m);
  inv_fsms : ∀ d fsms, m_tap_fsms m !! d = Some fsms →
    fsm_within <$> fsms = tap_windows (m_rules m);
  inv_disjoint : m_swallowed_downs m ## m_forwarded_downs m;
  inv_swallowed_key : ∀ d k, (d, k) ∈ m_swallowed_downs m →
    is_modifier k = false;
  inv_forwarded_key : ∀ d k, (d, k) ∈ m_forwarded_downs m →
    is_modifier k = false;
  inv_active : m_delivery_active m = true ↔
    m_pending_deliveries m ≠ ∅ ∨ m_forwarded_downs m ≠ ∅;
  inv_pending_issued : ∀ p g, m_pending_deliveries m !! p = Some g →
    0 < g ≤ m_delivery_generation m;
  inv_pending_inj : ∀ p q g, m_pending_deliveries m !! p = Some g →
    m_pending_deliveries m !! q = Some g → p = q;
  inv_generation : is_u64 (m_delivery_generation m);
}.

Lemma refresh_active_spec m :
  m_delivery_active (refresh_delivery_active m) = true ↔
  m_pending_deliveries m ≠ ∅ ∨ m_forwarded_downs m ≠ ∅.
Proof.
  unfold refresh_delivery_active; simpl.
  rewrite orb_true_iff, !negb_true_iff, !bool_decide_eq_false. done.
Qed.

(** Most operations only shrink the delivery and ownership state and then
    refresh the cached flag. *)
Lemma MatcherInv_shrink m m' :
  MatcherInv m →
  RuleSetInv (m_rules m') →
  (∀ d fsms, m_tap_fsms m' !! d = Some fsms →
    fsm_within <$> fsms = tap_windows (m_rules m')) →
  m_swallowed_downs m' ⊆ m_swallowed_downs m →
  m_forwarded_downs m' ⊆ m_forwarded_downs m →
  m_pending_deliveries m' ⊆ m_pending_deliveries m →
  m_delivery_generation m' = m_delivery_generation m →
  (m_delivery_active m' = true ↔
    m_pending_deliveries m' ≠ ∅ ∨ m_forwarded_downs m' ≠ ∅) →
  MatcherInv m'.
Proof.
  intros [] Hrs Hfsms Hs Hf Hp Hg Ha. split; try done.
  - set_solver.
  - eauto.
  - eauto.
  - rewrite Hg. intros p g Hpg. eauto using lookup_weaken.
  - intros p q g H1 H2. eauto using lookup_weaken.
  - by rewrite Hg.
Qed.

Lemma MatcherInv_refresh m m' :
  MatcherInv m →
  RuleSetInv (m_rules m') →
  (∀ d fsms, m_tap_fsms m' !! d = Some fsms →
    fsm_within <$> fsms = tap_windows (m_rules m')) →
  m_swallowed_downs m' ⊆ m_swallowed_downs m →
  m_forwarded_downs m' ⊆ m_forwarded_downs m →
  m_pending_deliveries m' ⊆ m_pending_deliveries m →
  m_delivery_generation m' = m_delivery_generation m →
  MatcherInv (refresh_delivery_active m').
Proof.
  intros. apply (MatcherInv_shrink m); try done.
  exact (refresh_active_spec m').
Qed.

Lemma MatcherInv_new rules : RuleSetInv rules → MatcherInv (Matcher_new rules).
Proof.
  intros Hrs. split; simpl; try done; set_solver.
Qed.
#[export] Hint Resolve MatcherInv_new RuleSet_new_inv : sledge.

(** ** The tap machines of a device mirror the tap rules *)

Lemma new_fsms_windows rs fsms :
  RuleSetInv rs → new_fsms rs = Some fsms →
  fsm_within <$> fsms = tap_windows rs.
Proof.
  intros [_ Ht]. unfold new_fsms, tap_windows. revert fsms Ht.
  induction (rs_taps rs) as [|r l IH]; intros fsms Ht Hf; simpl in *.
  { by simplify_option_eq. }
  apply Forall_cons in Ht as [Hr Ht].
  destruct (rule_trigger r) eqn:E; simplify_option_eq. f_equal. auto.
Qed.

Lemma new_fsms_total rs : RuleSetInv rs → is_Some (new_fsms rs).
Proof.
  intros [_ Ht]. apply mapM_is_Some. eapply Forall_impl; [exact Ht|].
  intros r Hr. unfold is_hotkey in Hr. cbn. destruct (rule_trigger r); [done|]. by eexists.
Qed.

Lemma on_other_key_windows fsms :
  fsm_within <$> (map on_other_key fsms) = fsm_within <$> fsms.
Proof. induction fsms; [done|]. by f_equal/=. Qed.

Lemma tap_loop_windows taps fsms event wd d app now a fsms' a' :
  tap_loop taps fsms event wd d app now a = (fsms', a') →
  fsm_within <$> fsms' = fsm_within <$> fsms.
Proof.
  revert fsms a fsms'. induction taps as [|r taps IH]; intros fsms a fsms'; simpl.
  { by intros [= <- <-]. }
  destruct fsms as [|fsm fsms]; [by intros [= <- <-]|].
  destruct (on_transition _ _ _ _ _ _) as [fsm1 r1] eqn:E1.
  destruct (tap_loop _ _ _ _ _ _ _ _) as [fsms1 a1] eqn:E2.
  intros [= <- <-]. csimpl. f_equal; [|eauto].
  eauto using on_transition_within.
Qed.

(** ** Frames: what each part of a dispatch leaves alone *)

(** [reconcile_delivery_event] in closed form: it drops the pending token of a
    press that ends or starts afresh, and the forwarded mark of a press that
    ends. *)
Lemma reconcile_spec m p k :
  reconcile_delivery_event m p k =
  (refresh_delivery_active
     (set_forwarded
        (if bool_decide (k = KeyUp) then m_forwarded_downs m ∖ {[p]}
         else m_forwarded_downs m)
        (set_pending
           (if negb (bool_decide (k = KeyDown)) ||
               (negb (bool_decide (p ∈ m_swallowed_downs m)) &&
                negb (bool_decide (p ∈ m_forwarded_downs m)))
            then delete p (m_pending_deliveries m)
            else m_pending_deliveries m) m)),
   negb (bool_decide (k = ModifiersChanged)) &&
   bool_decide (p ∈ m_forwarded_downs m)).
Proof.
  unfold reconcile_delivery_event, set_remove.
  destruct k; simpl; try done; by case_match.
Qed.

Lemma reconcile_inv m p k :
  MatcherInv m → MatcherInv (reconcile_delivery_event m p k).1.
Proof.
  rewrite reconcile_spec. cbn [fst]. intros Hinv.
  apply (MatcherInv_refresh m); simpl; try apply Hinv; try done.
  - case_match; set_solver.
  - case_match; [apply delete_subseteq|done].
Qed.

(** The rest of a dispatch changes only the machines of the device, the
    modifier state of the press and, on a matched hotkey, its consumed mark. *)
Lemma dispatch_modifier_inv m d e app now fsms :
  MatcherInv m → fsm_within <$> fsms = tap_windows (m_rules m) →
  MatcherInv (dispatch_modifier m d e app now fsms).1.
Proof.
  intros Hinv Hw. unfold dispatch_modifier.
  destruct (event_is_down e) as [is_down|]; [|done]. case_match.
  - apply (MatcherInv_shrink m); simpl; try apply Hinv; try done.
    intros d' fsms' [[<- <-]|[_ ?]]%lookup_insert_Some; [|by eapply inv_fsms].
    by rewrite on_other_key_windows.
  - destruct (tap_loop _ _ _ _ _ _ _ _) as [fsms' a] eqn:E.
    assert (MatcherInv (set_tap_fsms (<[d := fsms']> (m_tap_fsms m))
      (set_modifier_state (<[(d, code e) := is_down]> (m_modifier_state m)) m))).
    { apply (MatcherInv_shrink m); simpl; try apply Hinv; try done.
      intros d' fsms'' [[<- <-]|[_ ?]]%lookup_insert_Some; [|by eapply inv_fsms].
      by rewrite (tap_loop_windows _ _ _ _ _ _ _ _ _ _ E). }
    by destruct a.
Qed.

Lemma dispatch_key_inv m d e app fsms :
  MatcherInv m → is_modifier (code e) = false →
  (kind e = KeyDown → (d, code e) ∉ m_forwarded_downs m) →
  fsm_within <$> fsms = tap_windows (m_rules m) →
  MatcherInv (dispatch_key m d e app fsms).1.
Proof.
  intros Hinv Hk Hfwd Hw. unfold dispatch_key. case_bool_decide as Hdown; [|done].
  assert (MatcherInv (set_tap_fsms
    (<[d := map on_other_key fsms]> (m_tap_fsms m)) m)) as Hinv'.
  { apply (MatcherInv_shrink m); simpl; try apply Hinv; try done.
    intros d' fsms' [[<- <-]|[_ ?]]%lookup_insert_Some; [|by eapply inv_fsms].
    by rewrite on_other_key_windows. }
  case_match; [|done]. destruct Hinv'. split; simpl in *; try done.
  - specialize (Hfwd Hdown). set_solver.
  - intros d' k' [[= -> ->]%elem_of_singleton|?]%elem_of_union; eauto.
Qed.

(** ** Dispatch *)

(** [dispatch_device] after the reconciliation of delivery state. *)
Definition dispatch_rest (m : Matcher) (device : DeviceId) (event : KeyEvent)
    (focused_app : option string) (now : Z) : option (Matcher * Verdict) :=
  let press := (device, code event) in
  let '(swallowed, removed) := set_remove press (m_swallowed_downs m) in
  if bool_decide (kind event = KeyUp) && removed
  then Some (set_swallowed swallowed m, Verdict_Swallow) else
  if bool_decide (kind event = KeyDown) &&
     bool_decide (press ∈ m_swallowed_downs m)
  then Some (m, Verdict_Swallow) else
  fsms ← match m_tap_fsms m !! device with
         | Some fsms => Some fsms
         | None => new_fsms (m_rules m)
         end;
  let m := set_tap_fsms (<[device := fsms]> (m_tap_fsms m)) m in
  Some (if is_modifier (code event)
        then dispatch_modifier m device event focused_app now fsms
        else dispatch_key m device event focused_app fsms).

(** [dispatch_device] without the [delivery_active] gate: delivery state is
    always reconciled. *)
Definition dispatch_ungated (m : Matcher) (device : DeviceId) (event : KeyEvent)
    (focused_app : option string) (now : Z) : option (Matcher * Verdict) :=
  let '(m, forwarded) :=
    reconcile_delivery_event m (device, code event) (kind event) in
  if forwarded then Some (m, Verdict_Pass)
  else dispatch_rest m device event focused_app now.

Lemma inactive_empty m :
  MatcherInv m → m_delivery_active m = false →
  m_pending_deliveries m = ∅ ∧ m_forwarded_downs m = ∅.
Proof.
  intros Hinv Ha. pose proof (inv_active _ Hinv) as Hact. rewrite Ha in Hact.
  split; apply dec_stable; naive_solver.
Qed.

Lemma reconcile_inactive m p k :
  MatcherInv m → m_delivery_active m = false →
  reconcile_delivery_event m p k = (m, false).
Proof.
  intros Hinv Ha. destruct (inactive_empty _ Hinv Ha) as [Hp Hf].
  rewrite reconcile_spec, Hp, Hf, delete_empty.
  rewrite (bool_decide_false (p ∈ ∅)) by set_solver.
  rewrite andb_false_r. f_equal.
  assert (∅ ∖ {[p]} = (∅ : gset (Z * KeyCode))) as -> by set_solver.
  destruct m; simpl in *; subst. unfold refresh_delivery_active; simpl.
  by destruct (bool_decide (k = KeyUp)), (bool_decide (k = KeyDown)),
    (bool_decide (p ∈ _)).
Qed.

Lemma dispatch_device_ungated m d e app now :
  MatcherInv m →
  dispatch_device m d e app now = dispatch_ungated m d e app now.
Proof.
  intros Hinv. unfold dispatch_device, dispatch_ungated.
  destruct (m_delivery_active m) eqn:Ha; [done|].
  by rewrite reconcile_inactive.
Qed.

(** A press that reaches the rules is not forwarded. *)
Lemma reconcile_not_forwarded m p k m' :
  reconcile_delivery_event m p k = (m', false) →
  k ≠ ModifiersChanged → p ∉ m_forwarded_downs m'.
Proof.
  rewrite reconcile_spec. intros [= <- Hb] Hk; simpl.
  rewrite bool_decide_false in Hb by done. simpl in Hb. bools.
  case_match; set_solver.
Qed.

Lemma dispatch_rest_inv m d e app now m' v :
  MatcherInv m → (kind e = KeyDown → (d, code e) ∉ m_forwarded_downs m) →
  dispatch_rest m d e app now = Some (m', v) → MatcherInv m'.
Proof.
  intros Hinv Hfwd. unfold dispatch_rest, set_remove.
  case_match; [|case_match].
  - intros [= <- <-]. apply (MatcherInv_shrink m); simpl; try apply Hinv; set_solver.
  - by intros [= <- <-].
  - intros (fsms & Hfsms & Hres)%bind_Some.
    assert (fsm_within <$> fsms = tap_windows (m_rules m)) as Hw.
    { destruct (m_tap_fsms m !! d) eqn:E; simplify_eq; [by eapply inv_fsms|].
      apply new_fsms_windows; [apply Hinv|done]. }
    assert (MatcherInv (set_tap_fsms (<[d := fsms]> (m_tap_fsms m)) m)).
    { apply (MatcherInv_shrink m); simpl; try apply Hinv; try done.
      intros d' fsms' [[<- <-]|[_ ?]]%lookup_insert_Some; [done|].
      by eapply inv_fsms. }
    injection Hres as Hres. apply (f_equal fst) in Hres. simpl in Hres. subst m'.
    destruct (is_modifier (code e)) eqn:Hmod.
    + by apply dispatch_modifier_inv.
    + by apply dispatch_key_inv.
Qed.

Lemma dispatch_device_inv m d e app now m' v :
  MatcherInv m → dispatch_device m d e app now = Some (m', v) → MatcherInv m'.
Proof.
  intros Hinv. rewrite dispatch_device_ungated by done.
  unfold dispatch_ungated. pose proof (reconcile_inv m (d, code e) (kind e) Hinv).
  destruct (reconcile_delivery_event _ _ _) as [m1 []] eqn:E; simpl in *.
  { by intros [= <- <-]. }
  intros Hd. eapply dispatch_rest_inv; [done| |done].
  intros Hk. eapply reconcile_not_forwarded; [done|]. by rewrite Hk.
Qed.

Lemma dispatch_device_total m d e app now :
  MatcherInv m → is_Some (dispatch_device m d e app now).
Proof.
  intros Hinv. rewrite dispatch_device_ungated by done. unfold dispatch_ungated.
  pose proof (reconcile_inv m (d, code e) (kind e) Hinv) as Hinv1.
  destruct (reconcile_delivery_event _ _ _) as [m1 []]; simpl in *; [by eexists|].
  unfold dispatch_rest. destruct (set_remove _ _). repeat (case_match; [by eexists|]).
  destruct (m_tap_fsms m1 !! d) as [fsms|]; [by eexists|].
  destruct (new_fsms_total (m_rules m1)) as [fsms ->]; [apply Hinv1|by eexists].
Qed.

Lemma dispatch_device_generation m d e app now m' v :
  dispatch_device m d e app now = Some (m', v) →
  m_delivery_generation m' = m_delivery_generation m ∧ m_rules m' = m_rules m.
Proof.
  unfold dispatch_device. intros H.
  assert (∀ b m1, (if m_delivery_active m
            then reconcile_delivery_event m (d, code e) (kind e)
            else (m, false)) = (m1, b) →
          m_delivery_generation m1 = m_delivery_generation m ∧
          m_rules m1 = m_rules m) as Hm1.
  { intros b m1.
    destruct (m_delivery_active m); [rewrite reconcile_spec|]; by intros [= <- <-]. }
  destruct (if m_delivery_active m then _ else _) as [m1 b].
  specialize (Hm1 b m1 eq_refl) as [<- <-].
  unfold set_remove, dispatch_modifier, dispatch_key in H.
  repeat (case_match; simplify_option_eq; try done).
Qed.

Lemma dispatch_with_delivery_inv m d e app now m' r :
  MatcherInv m →
  dispatch_device_with_delivery m d e app now = Some (m', r) → MatcherInv m'.
Proof.
  intros Hinv. unfold dispatch_device_with_delivery.
  intros ([m1 v] & Hd & Hr)%bind_Some.
  pose proof (dispatch_device_inv _ _ _ _ _ _ _ Hinv Hd) as Hinv1.
  destruct v as [| |a]; simplify_eq; try done.
  apply bind_Some in Hr as (g & [-> Hg]%checked_add_u64_Some & [= <- <-]).
  pose proof (inv_generation _ Hinv1) as Hu. unfold is_u64, u64_max in *.
  destruct Hinv1 as [Hr1 Hr2 Hr3 Hr4 Hr5 Hr6 Hiss Hinj Hgen].
  split; simpl; try done.
  - split; [|done]. intros _. left. apply insert_non_empty.
  - intros p g' [[_ <-]|[_ ?%Hiss]]%lookup_insert_Some; lia.
  - intros p q g' [[<- <-]|[? Hp]]%lookup_insert_Some
      [[<- Heq]|[? Hq]]%lookup_insert_Some; try done; eauto;
      [apply Hiss in Hq|apply Hiss in Hp]; lia.
  - unfold is_u64. lia.
Qed.

(** ** The other operations *)

Lemma swap_rules_inv m rs :
  MatcherInv m → RuleSetInv rs → MatcherInv (swap_rules m rs).
Proof. intros Hinv Hrs. apply (MatcherInv_shrink m); simpl; try apply Hinv; done. Qed.

Lemma report_delivery_inv m tok del :
  MatcherInv m → MatcherInv (report_delivery m tok del).1.
Proof.
  intros Hinv. unfold report_delivery, set_remove.
  set (p := (tok_device tok, tok_key tok)).
  destruct (negb _); [done|]. cbn [fst].
  destruct (bool_decide (del = _)).
  2: { apply (MatcherInv_refresh m); simpl; try apply Hinv; try done.
       apply delete_subseteq. }
  case_bool_decide as Hs; [|].
  - destruct Hinv as [Hrs Hfs Hdis Hsk Hfk Hact Hiss Hinj Hgen].
    split; simpl; try done.
    + set_solver.
    + intros d k Hin. apply (Hsk d). set_solver.
    + intros d k Hin. destruct (decide ((d, k) = p)) as [E|]; [|apply (Hfk d); set_solver].
      apply (Hsk d). by rewrite E.
    + by rewrite orb_true_iff, !negb_true_iff, !bool_decide_eq_false.
    + intros q g ?%lookup_delete_Some. naive_solver.
    + intros q q' g ?%lookup_delete_Some ?%lookup_delete_Some. naive_solver.
  - apply (MatcherInv_refresh m); simpl; try apply Hinv; try done; [set_solver|].
    apply delete_subseteq.
Qed.

Lemma invalidate_speculation_inv m :
  MatcherInv m → MatcherInv (Matcher_invalidate_speculation m).
Proof.
  intros Hinv. apply (MatcherInv_refresh m); simpl; try apply Hinv; try done.
  apply map_empty_subseteq.
Qed.

Lemma disqualify_taps_inv m : MatcherInv m → MatcherInv (disqualify_taps m).
Proof.
  intros Hinv. apply (MatcherInv_shrink m); simpl; try apply Hinv; try done.
  intros d fsms (fsms0 & <- & Hf)%lookup_fmap_Some.
  rewrite on_other_key_windows. by eapply inv_fsms.
Qed.

Lemma settle_device_event_inv m d e :
  MatcherInv m → MatcherInv (Matcher_settle_device_event m d e).
Proof.
  intros Hinv. unfold Matcher_settle_device_event. case_match; [done|].
  apply (MatcherInv_refresh m); simpl; try apply Hinv; try done;
    [|set_solver|set_solver|apply delete_subseteq].
  intros d' fsms [_ ?]%lookup_delete_Some. by eapply inv_fsms.
Qed.

Lemma reset_device_inv m d : MatcherInv m → MatcherInv (reset_device m d).
Proof.
  intros Hinv. unfold reset_device.
  apply (MatcherInv_refresh m); simpl; try apply Hinv; try done;
    [|set_solver|set_solver|apply map_filter_subseteq].
  intros d' fsms [_ ?]%lookup_delete_Some. by eapply inv_fsms.
Qed.

Lemma Matcher_reset_inv m : MatcherInv m → MatcherInv (Matcher_reset m).
Proof.
  intros Hinv. apply (MatcherInv_shrink m); simpl; try apply Hinv; try done;
    try set_solver. apply map_empty_subseteq.
Qed.

#[export] Hint Resolve dispatch_device_inv dispatch_with_delivery_inv
  swap_rules_inv report_delivery_inv invalidate_speculation_inv
  disqualify_taps_inv settle_device_event_inv reset_device_inv
  Matcher_reset_inv : sledge.

(** ** Executions *)

(** The public operations of [Matcher] as labels; a reload compiles its rules
    with [RuleSet::new]. *)
Inductive MatcherOp : Type :=
  | OpDispatch (device : DeviceId) (event : KeyEvent)
      (focused_app : option string) (now : Z)
  | OpDispatchDelivery (device : DeviceId) (event : KeyEvent)
      (focused_app : option string) (now : Z)
  | OpReport (token : ReplacementToken) (delivery : ReplacementDelivery)
  | OpSwap (rules : list Rule)
  | OpInvalidate
  | OpDisqualify
  | OpSettle (device : DeviceId) (event : KeyEvent)
  | OpResetDevice (device : DeviceId)
  | OpReset.

(** What an operation returns to its caller. *)
Inductive MatcherObs : Type :=
  | ObsVerdict (v : Verdict) (token : option ReplacementToken)
  | ObsReported (accepted : bool)
  | ObsNone.

Definition matcher_step (m : Matcher) (op : MatcherOp) :
    option (Matcher * MatcherObs) :=
  match op with
  | OpDispatch d e app now =>
      '(m, v) ← dispatch_device m d e app now; Some (m, ObsVerdict v None)
  | OpDispatchDelivery d e app now =>
      '(m, (v, t)) ← dispatch_device_with_delivery m d e app now;
      Some (m, ObsVerdict v t)
  | OpReport tok del =>
      let '(m, b) := report_delivery m tok del in Some (m, ObsReported b)
  | OpSwap rules => Some (swap_rules m (RuleSet_new rules), ObsNone)
  | OpInvalidate => Some (Matcher_invalidate_speculation m, ObsNone)
  | OpDisqualify => Some (disqualify_taps m, ObsNone)
  | OpSettle d e => Some (Matcher_settle_device_event m d e, ObsNone)
  | OpResetDevice d => Some (reset_device m d, ObsNone)
  | OpReset => Some (Matcher_reset m, ObsNone)
  end.

(** An execution: a list of operations with what each returned. *)
Inductive matcher_run : Matcher → list (MatcherOp * MatcherObs) → Matcher → Prop :=
  | run_nil m : matcher_run m [] m
  | run_cons m op m1 o tr m2 :
      matcher_step m op = Some (m1, o) →
      matcher_run m1 tr m2 →
      matcher_run m ((op, o) :: tr) m2.

Lemma matcher_step_inv m op m' o :
  MatcherInv m → matcher_step m op = Some (m', o) → MatcherInv m'.
Proof.
  intros Hinv. destruct op; simpl; intros H;
    try (simplify_eq; by eauto with sledge).
  - apply bind_Some in H as ([m1 v] & ? & [= <- <-]). eauto with sledge.
  - apply bind_Some in H as ([m1 [v t]] & ? & [= <- <-]). eauto with sledge.
  - destruct (report_delivery _ _ _) as [m1 b] eqn:E. simplify_eq.
    pose proof (report_delivery_inv m token delivery Hinv). by rewrite E in *.
Qed.

Lemma matcher_run_inv m tr m' :
  MatcherInv m → matcher_run m tr m' → MatcherInv m'.
Proof. intros Hinv Hrun. induction Hrun; eauto using matcher_step_inv. Qed.

(** The representation invariant holds in every reachable state: whatever
    sequence of public operations (dispatches with and without tokens, delivery
    reports, reloads, invalidations, settlements, resets) is run on a new
    matcher, [MatcherInv] holds of the resulting state. *)
Theorem matcher_reachable_inv rules tr m :
  matcher_run (Matcher_new (RuleSet_new rules)) tr m → MatcherInv m.
Proof. apply matcher_run_inv. auto with sledge. Qed.


(** The [delivery_active] gate is only an optimisation: in every reachable
    state a dispatch behaves exactly as if delivery state were always
    reconciled, so caching the flag never skips a needed reconciliation. *)
Lemma delivery_gate_transparent rules tr m d e app now :
  matcher_run (Matcher_new (RuleSet_new rules)) tr m →
  dispatch_device m d e app now = dispatch_ungated m d e app now.
Proof.
  intros Hinv%matcher_run_inv; [|auto with sledge]. by apply dispatch_device_ungated.
Qed.

(** ** Witnesses *)

(** The rule of the source's tests: Alt+K sends Alt+T. *)
Definition alt_k_rule : Rule :=
  mkRule (Hotkey (mkHotkeyTrigger KeyK ALT)) (SendKey KeyT ALT) None.

Definition alt_k_down : KeyEvent := mkKeyEvent KeyK KeyDown ALT.
Definition alt_k_up : KeyEvent := mkKeyEvent KeyK KeyUp mods_empty.

(** The matcher after the replaced press was rejected and forwarded. *)
Definition alt_k_ops : list MatcherOp :=
  [OpDispatchDelivery 7 alt_k_down None 0;
   OpReport (mkReplacementToken 7 KeyK 1) RejectedOriginalForwarded].

Fixpoint exec (m : Matcher) (ops : list MatcherOp) :
    option (Matcher * list (MatcherOp * MatcherObs)) :=
  match ops with
  | [] => Some (m, [])
  | op :: ops =>
      '(m, o) ← matcher_step m op;
      '(m, tr) ← exec m ops;
      Some (m, (op, o) :: tr)
  end.

Lemma exec_run m ops m' tr : exec m ops = Some (m', tr) → matcher_run m tr m'.
Proof.
  revert m tr. induction ops as [|op ops IH]; intros m tr; simpl.
  { intros [= <- <-]. constructor. }
  intros ([m1 o] & Hs & ([m2 tr'] & Hr & [= <- <-])%bind_Some)%bind_Some.
  econstructor; eauto.
Qed.

Definition alt_k_exec : option (Matcher * list (MatcherOp * MatcherObs)) :=
  exec (Matcher_new (RuleSet_new [alt_k_rule])) alt_k_ops.

Lemma alt_k_exec_ok :
  snd <$> alt_k_exec =
  Some [(OpDispatchDelivery 7 alt_k_down None 0,
         ObsVerdict (Verdict_Replace (SendKey KeyT ALT))
           (Some (mkReplacementToken 7 KeyK 1)));
        (OpReport (mkReplacementToken 7 KeyK 1) RejectedOriginalForwarded,
         ObsReported true)].
Proof. vm_compute. reflexivity. Qed.

Lemma alt_k_run :
  ∃ m tr, alt_k_exec = Some (m, tr) ∧
    matcher_run (Matcher_new (RuleSet_new [alt_k_rule])) tr m.
Proof.
  unfold alt_k_exec. destruct (exec _ _) as [[m tr]|] eqn:E; [|by vm_compute in E].
  exists m, tr. split; [done|]. by eapply exec_run.
Defined.

Lemma matcher_reachable_inv_witness :
  ∃ m tr, alt_k_exec = Some (m, tr) ∧ MatcherInv m.
Proof.
  destruct alt_k_run as (m & tr & E & Hrun). exists m, tr. split; [done|].
  exact (matcher_reachable_inv _ _ _ Hrun).
Defined.

