(* ===== verification/Ownership.v ===== *)
(** * Press ownership and replacement tokens

    The abstract contract of [rule.rs]: a press is unowned, consumed (its down
    was replaced or swallowed) or forwarded (its replacement was rejected and
    the original reached the consumer). [own_step] is that contract as a
    labelled transition relation; [dispatch_refines_ownership] shows that every
    dispatch of the matcher is one of its steps and leaves every other press
    alone, and [release_follows_press] lifts it to executions: whatever happens
    in between, a release meets the fate of the last press. The second half is
    the protocol of delivery tokens: they are fresh, settle at most once, and a
    stale one changes nothing. *)

From S2P Require Import Prelude Event TapFsm Rule MatcherInv.

(** ** The abstract contract *)

Inductive Ownership : Type := Unowned | Consumed | Forwarded.

#[export] Instance Ownership_eq_dec : EqDecision Ownership.
Proof. solve_decision. Defined.

(** The owner the matcher's sets record for a press. *)
Definition owner (m : Matcher) (p : Press) : Ownership :=
  if bool_decide (p ∈ m_forwarded_downs m) then Forwarded
  else if bool_decide (p ∈ m_swallowed_downs m) then Consumed
  else Unowned.

(** [own_step modifier o k v o']: an event of kind [k] on a press owned as [o]
    is answered [v] and leaves it owned as [o']. A modifier key is never
    owned. *)
Inductive own_step (modifier : bool) :
    Ownership → EventKind → Verdict → Ownership → Prop :=
  | own_forwarded_down : own_step modifier Forwarded KeyDown Verdict_Pass Forwarded
  | own_forwarded_up : own_step modifier Forwarded KeyUp Verdict_Pass Unowned
  | own_consumed_down : own_step modifier Consumed KeyDown Verdict_Swallow Consumed
  | own_consumed_up : own_step modifier Consumed KeyUp Verdict_Swallow Unowned
  | own_down_pass : own_step modifier Unowned KeyDown Verdict_Pass Unowned
  | own_down_replace a : modifier = false →
      own_step modifier Unowned KeyDown (Verdict_Replace a) Consumed
  | own_up_pass : own_step modifier Unowned KeyUp Verdict_Pass Unowned
  | own_up_tap a : modifier = true →
      own_step modifier Unowned KeyUp (Verdict_Replace a) Unowned
  | own_flags_pass o : own_step modifier o ModifiersChanged Verdict_Pass o
  | own_flags_tap o a : modifier = true →
      own_step modifier o ModifiersChanged (Verdict_Replace a) o.

(** ** Elementary facts about [owner] *)

Lemma owner_eq m m' p :
  (p ∈ m_forwarded_downs m' ↔ p ∈ m_forwarded_downs m) →
  (p ∈ m_swallowed_downs m' ↔ p ∈ m_swallowed_downs m) →
  owner m' p = owner m p.
Proof.
  intros Hf Hs. unfold owner.
  by rewrite (bool_decide_ext _ _ Hf), (bool_decide_ext _ _ Hs).
Qed.

Lemma owner_Forwarded m p : owner m p = Forwarded ↔ p ∈ m_forwarded_downs m.
Proof. unfold owner. repeat case_bool_decide; naive_solver. Qed.

Lemma owner_Consumed m p :
  MatcherInv m → (owner m p = Consumed ↔ p ∈ m_swallowed_downs m).
Proof.
  intros Hinv. pose proof (inv_disjoint _ Hinv). unfold owner.
  repeat case_bool_decide; set_solver.
Qed.

Lemma owner_Unowned m p :
  owner m p = Unowned ↔
  (p ∉ m_forwarded_downs m) ∧ (p ∉ m_swallowed_downs m).
Proof. unfold owner. repeat case_bool_decide; naive_solver. Qed.

Lemma owner_modifier m d k :
  MatcherInv m → is_modifier k = true → owner m (d, k) = Unowned.
Proof.
  intros Hinv Hk. apply owner_Unowned.
  split; intros Hin; [apply (inv_forwarded_key _ Hinv) in Hin
                     |apply (inv_swallowed_key _ Hinv) in Hin]; congruence.
Qed.

(** ** One dispatch *)

(** A modifier's dispatch never touches the ownership sets, and replaces only
    on a release or a flags change. *)
Lemma tap_loop_down taps fsms e wd app now a :
  (tap_loop taps fsms e wd true app now a).2 = a.
Proof.
  revert fsms a. induction taps as [|r taps IH]; intros [|f fsms] a; simpl; try done.
  specialize (IH fsms a). destruct wd; simpl;
    destruct (tap_loop taps _ _ _ _ _ _ _); simpl in *; done.
Qed.

Lemma dispatch_modifier_owner m d e app now fsms m' v :
  dispatch_modifier m d e app now fsms = (m', v) →
  m_forwarded_downs m' = m_forwarded_downs m ∧
  m_swallowed_downs m' = m_swallowed_downs m ∧
  v ≠ Verdict_Swallow ∧ (kind e = KeyDown → v = Verdict_Pass).
Proof.
  unfold dispatch_modifier. intros H.
  destruct (event_is_down e) as [b|] eqn:E; [|by simplify_eq].
  destruct (b && _ && _); [by simplify_eq|].
  destruct (tap_loop _ _ _ _ _ _ _ _) as [fsms' a] eqn:Et.
  destruct a; simplify_eq/=; repeat split; try done.
  intros Hk. unfold event_is_down in E. rewrite Hk in E. simplify_eq.
  apply (f_equal snd) in Et. by rewrite tap_loop_down in Et.
Qed.

Lemma dispatch_key_owner m d e app fsms m' v :
  dispatch_key m d e app fsms = (m', v) →
  m_forwarded_downs m' = m_forwarded_downs m ∧
  ((v = Verdict_Pass ∧ m_swallowed_downs m' = m_swallowed_downs m) ∨
   (∃ a, v = Verdict_Replace a ∧ kind e = KeyDown ∧
     m_swallowed_downs m' = {[(d, code e)]} ∪ m_swallowed_downs m)).
Proof.
  unfold dispatch_key. case_bool_decide; [|by intros [= <- <-]; auto].
  destruct (List.find _ _); intros [= <- <-]; simpl; eauto 10.
Qed.

Lemma reconcile_owner m p k q :
  q ≠ p ∨ k ≠ KeyUp →
  owner (reconcile_delivery_event m p k).1 q = owner m q.
Proof.
  intros Hq. rewrite reconcile_spec. apply owner_eq; simpl; [|done].
  case_bool_decide; [|done]. set_solver.
Qed.

Lemma dispatch_rest_owner_other m d e app now m' v q :
  q ≠ (d, code e) →
  dispatch_rest m d e app now = Some (m', v) → owner m' q = owner m q.
Proof.
  intros Hq. unfold dispatch_rest, set_remove.
  destruct (bool_decide (kind e = KeyUp) && _).
  { intros [= <- <-]. apply owner_eq; set_solver. }
  destruct (bool_decide (kind e = KeyDown) && _); [by intros [= <- <-]|].
  intros (fsms & _ & [= H])%bind_Some. destruct (is_modifier _).
  - apply dispatch_modifier_owner in H as (Hf & Hs & _).
    apply owner_eq; by rewrite ?Hf, ?Hs.
  - apply dispatch_key_owner in H as (Hf & [[_ Hs]|(a & _ & _ & Hs)]);
      apply owner_eq; rewrite ?Hf, ?Hs; simpl; set_solver.
Qed.

(** The effect of the part of a dispatch after reconciliation on its own
    press. *)
Lemma dispatch_rest_owner m d e app now m' v :
  MatcherInv m →
  (kind e ≠ ModifiersChanged → owner m (d, code e) ≠ Forwarded) →
  dispatch_rest m d e app now = Some (m', v) →
  own_step (is_modifier (code e)) (owner m (d, code e)) (kind e) v
    (owner m' (d, code e)).
Proof.
  intros Hinv Hnf. unfold dispatch_rest, set_remove.
  rewrite owner_Forwarded in Hnf.
  destruct (bool_decide (kind e = KeyUp) && _) eqn:E1; bools.
  { intros [= <- <-]. rewrite (proj2 (owner_Consumed m _ Hinv)) by done.
    rewrite (proj2 (owner_Unowned _ (d, code e)))
      by (simpl; split; [apply Hnf; congruence|set_solver]).
    rewrite H. constructor. }
  destruct (bool_decide (kind e = KeyDown) && _) eqn:E2; bools.
  { intros [= <- <-]. rewrite (proj2 (owner_Consumed m _ Hinv)) by done.
    rewrite H. constructor. }
  intros (fsms & _ & [= H])%bind_Some.
  destruct (is_modifier (code e)) eqn:Hmod.
  - apply dispatch_modifier_owner in H as (Hf & Hs & Hv & Hd).
    rewrite (owner_eq m m') by (by rewrite ?Hf, ?Hs).
    rewrite owner_modifier by done.
    destruct v; [|done|]; [destruct (kind e); constructor|].
    destruct (kind e); [naive_solver|by constructor..].
  - apply dispatch_key_owner in H as (Hf & [[-> Hs]|(a & -> & Hk & Hs)]); simpl in *.
    + rewrite (owner_eq m m') by (by rewrite ?Hf, ?Hs).
      destruct (decide (kind e = ModifiersChanged)) as [->|]; [constructor|].
      rewrite (proj2 (owner_Unowned _ _)).
      * destruct (kind e); [constructor|constructor|done].
      * split; [by apply Hnf|]. intros Hin. rewrite !(bool_decide_true (_ ∈ _)) in * by done.
        destruct (kind e); done.
    + rewrite Hk in *. rewrite bool_decide_true in E2 by done. simpl in E2. bools.
      rewrite (proj2 (owner_Unowned m _)) by (split; [by apply Hnf|done]).
      unfold owner. rewrite bool_decide_false by (rewrite Hf; by apply Hnf).
      rewrite bool_decide_true by (rewrite Hs; set_solver). by constructor.
Qed.

Lemma dispatch_owner m d e app now m' v :
  MatcherInv m → dispatch_device m d e app now = Some (m', v) →
  own_step (is_modifier (code e)) (owner m (d, code e)) (kind e) v
    (owner m' (d, code e)) ∧
  ∀ q, q ≠ (d, code e) → owner m' q = owner m q.
Proof.
  intros Hinv. rewrite dispatch_device_ungated by done. unfold dispatch_ungated.
  pose proof (reconcile_inv m (d, code e) (kind e) Hinv) as Hinv1.
  pose proof (reconcile_owner m (d, code e) (kind e)) as Hown.
  destruct (reconcile_delivery_event _ _ _) as [m1 b] eqn:E; simpl in *.
  assert (b = false → owner m1 (d, code e) = owner m (d, code e) ∧
          (kind e ≠ ModifiersChanged → owner m1 (d, code e) ≠ Forwarded)) as Hkeep.
  { intros ->. rewrite reconcile_spec in E. injection E as <- Hb. split.
    - apply owner_eq; simpl; [|done]. case_bool_decide as Hk; [|done].
      rewrite Hk in Hb. simpl in Hb. bools. set_solver.
    - intros Hk. rewrite bool_decide_false in Hb by done. simpl in Hb. bools.
      rewrite owner_Forwarded. simpl. case_bool_decide; set_solver. }
  destruct b.
  - intros [= <- <-]. rewrite reconcile_spec in E. injection E as <- Hb.
    bools. rewrite (proj2 (owner_Forwarded m _)) by done.
    split; [|intros q Hq; apply Hown; auto].
    destruct (kind e) eqn:Hk; [| |done].
    + rewrite (proj2 (owner_Forwarded _ _)) by (simpl; done).
      constructor.
    + rewrite (proj2 (owner_Unowned _ _)); [constructor|]. simpl.
      pose proof (inv_disjoint _ Hinv). set_solver.
  - intros Hd. destruct (Hkeep eq_refl) as [Heq Hnf]. split.
    + rewrite <- Heq. by eapply dispatch_rest_owner.
    + intros q Hq. rewrite (dispatch_rest_owner_other _ _ _ _ _ _ _ _ Hq Hd); auto.
Qed.

(** ** All operations refine the contract *)

(** The effect an operation, with what it returned, may have on the owner of a
    press. *)
Definition own_effect (op : MatcherOp) (obs : MatcherObs) (p : Press)
    (o o' : Ownership) : Prop :=
  match op, obs with
  | OpDispatch d e _ _, ObsVerdict v _
  | OpDispatchDelivery d e _ _, ObsVerdict v _ =>
      if bool_decide (p = (d, code e))
      then own_step (is_modifier (code e)) o (kind e) v o'
      else o' = o
  | OpReport tok del, ObsReported accepted =>
      o' = if accepted && bool_decide (del = RejectedOriginalForwarded) &&
              bool_decide (p = (tok_device tok, tok_key tok)) &&
              bool_decide (o = Consumed)
           then Forwarded else o
  | OpSettle d e, ObsNone =>
      o' = if bool_decide (kind e = KeyUp) && bool_decide (p = (d, code e))
           then Unowned else o
  | OpResetDevice d, ObsNone =>
      o' = if bool_decide (p.1 = d) then Unowned else o
  | OpReset, ObsNone => o' = Unowned
  | (OpSwap _ | OpInvalidate | OpDisqualify), ObsNone => o' = o
  | _, _ => False
  end.

(** The executions of the contract. *)
Inductive own_run : (Press → Ownership) → list (MatcherOp * MatcherObs) →
    (Press → Ownership) → Prop :=
  | own_run_nil s : own_run s [] s
  | own_run_cons s op obs s1 tr s2 :
      (∀ p, own_effect op obs p (s p) (s1 p)) →
      own_run s1 tr s2 →
      own_run s ((op, obs) :: tr) s2.

Lemma dispatch_with_delivery_owner m d e app now m' v t :
  MatcherInv m →
  dispatch_device_with_delivery m d e app now = Some (m', (v, t)) →
  own_step (is_modifier (code e)) (owner m (d, code e)) (kind e) v
    (owner m' (d, code e)) ∧
  ∀ q, q ≠ (d, code e) → owner m' q = owner m q.
Proof.
  intros Hinv. unfold dispatch_device_with_delivery.
  intros ([m1 v1] & Hd & H)%bind_Some.
  assert (v1 = v ∧ ∀ q, owner m' q = owner m1 q) as [-> Heq].
  { destruct v1; simplify_eq; try done.
    apply bind_Some in H as (g & _ & [= <- <- <-]). done. }
  setoid_rewrite Heq. by eapply dispatch_owner.
Qed.

Lemma report_owner m tok del p :
  MatcherInv m →
  let '(m', accepted) := report_delivery m tok del in
  own_effect (OpReport tok del) (ObsReported accepted) p (owner m p) (owner m' p).
Proof.
  intros Hinv. unfold report_delivery, set_remove.
  destruct (negb _); simpl; [done|].
  set (q := (tok_device tok, tok_key tok)).
  destruct (bool_decide (del = _)); simpl; [|by apply owner_eq].
  case_bool_decide as Hq; simpl.
  - case_bool_decide as Hp; [subst p|]; simpl.
    + rewrite (proj2 (owner_Consumed m _ Hinv)) by done.
      rewrite bool_decide_true by done. apply owner_Forwarded. simpl. set_solver.
    + apply owner_eq; simpl; set_solver.
  - assert (owner (refresh_delivery_active (set_swallowed
      (m_swallowed_downs m ∖ {[q]})
      (set_pending (delete q (m_pending_deliveries m)) m))) p = owner m p) as ->.
    { apply owner_eq; simpl; [done|]. simpl in Hq. set_solver. }
    case_bool_decide; [|done]. subst p. simpl in Hq.
    rewrite bool_decide_false; [done|]. by rewrite owner_Consumed.
Qed.

Lemma matcher_step_owner m op m' obs p :
  MatcherInv m → matcher_step m op = Some (m', obs) →
  own_effect op obs p (owner m p) (owner m' p).
Proof.
  intros Hinv. destruct op as [d e app now|d e app now|tok del|rules| | |d e|d|];
    simpl; intros H.
  - apply bind_Some in H as ([m1 v] & Hd & [= <- <-]).
    destruct (dispatch_owner _ _ _ _ _ _ _ Hinv Hd).
    case_bool_decide; [by subst p|auto].
  - apply bind_Some in H as ([m1 [v t]] & Hd & [= <- <-]).
    destruct (dispatch_with_delivery_owner _ _ _ _ _ _ _ _ Hinv Hd).
    case_bool_decide; [by subst p|auto].
  - pose proof (report_owner m tok del p Hinv).
    destruct (report_delivery _ _ _); by simplify_eq.
  - simplify_eq. by apply owner_eq.
  - simplify_eq. by apply owner_eq.
  - simplify_eq. by apply owner_eq.
  - simplify_eq. unfold Matcher_settle_device_event.
    case_bool_decide; simpl; [|done].
    case_bool_decide; [apply owner_Unowned|apply owner_eq]; simpl; set_solver.
  - simplify_eq. unfold reset_device.
    case_bool_decide; [apply owner_Unowned|apply owner_eq]; destruct p;
      simpl in *; rewrite !elem_of_filter; naive_solver.
  - simplify_eq. apply owner_Unowned. simpl. set_solver.
Qed.

Lemma matcher_run_owner m tr m' :
  MatcherInv m → matcher_run m tr m' → own_run (owner m) tr (owner m').
Proof.
  intros Hinv Hrun. induction Hrun as [|m op m1 obs tr m2 Hstep _ IH]; [constructor|].
  econstructor; [|eauto using matcher_step_inv].
  intros p. by eapply matcher_step_owner.
Qed.

(** C4. The matcher refines the ownership contract: every execution of a new
    matcher, under any interleaving of its public operations, is an execution
    of the abstract machine in which each press is unowned, consumed or
    forwarded and each verdict is the one the press's owner dictates. *)
Theorem matcher_refines_ownership rules tr m :
  matcher_run (Matcher_new (RuleSet_new rules)) tr m →
  own_run (λ _, Unowned) tr (owner m).
Proof. intros Hrun. apply matcher_run_owner in Hrun; auto with sledge. Qed.

(** ** A release meets the fate of its press *)

Definition dispatched (op : MatcherOp) : option (Press * EventKind) :=
  match op with
  | OpDispatch d e _ _ | OpDispatchDelivery d e _ _ =>
      Some ((d, code e), kind e)
  | _ => None
  end.

(** An operation that does not dispatch, settle or reset the press. *)
Definition leaves_press (p : Press) (op : MatcherOp) : bool :=
  match op with
  | OpDispatch d e _ _ | OpDispatchDelivery d e _ _ | OpSettle d e =>
      negb (bool_decide (p = (d, code e)))
  | OpResetDevice d => negb (bool_decide (p.1 = d))
  | OpReset => false
  | _ => true
  end.

(** An accepted report that the press's original was forwarded. *)
Definition rejects_press (p : Press) (step : MatcherOp * MatcherObs) : bool :=
  match step with
  | (OpReport tok RejectedOriginalForwarded, ObsReported true) =>
      bool_decide (p = (tok_device tok, tok_key tok))
  | _ => false
  end.

Lemma own_run_app s tr1 tr2 s' :
  own_run s (tr1 ++ tr2) s' ↔ ∃ s1, own_run s tr1 s1 ∧ own_run s1 tr2 s'.
Proof.
  revert s. induction tr1 as [|[op obs] tr1 IH]; intros s; simpl.
  - split; [by eexists; split; [constructor|]|].
    intros (s1 & H1 & H2). by inversion H1; subst.
  - split.
    + inversion 1; subst. destruct (proj1 (IH s1)) as (s2 & ? & ?); [done|].
      exists s2. split; [econstructor|]; eauto.
    + intros (s2 & H1 & H2). inversion H1; subst. econstructor; [done|].
      apply IH. eauto.
Qed.

(** While the press is left alone, only a rejection changes its owner. *)
Lemma own_run_leaves p s tr s' :
  own_run s tr s' → Forall (λ st, leaves_press p st.1 = true) tr →
  s' p = if bool_decide (s p = Consumed) && existsb (rejects_press p) tr
         then Forwarded else s p.
Proof.
  intros Hrun. induction Hrun as [s|s op obs s1 tr s2 Heff _ IH]; simpl.
  { by rewrite andb_false_r. }
  intros [Hop Hall]%Forall_cons. simpl in Hop. rewrite IH by done.
  specialize (Heff p). destruct op, obs; simpl in *; try done; bools;
    try match goal with H : ¬ _ |- _ => rewrite (bool_decide_false _ H) in Heff end;
    rewrite ?andb_false_r in Heff; try (by rewrite Heff).
  rewrite Heff. destruct delivery, accepted; simpl; try done.
  all: destruct (bool_decide (p = _)), (s p); simpl; try done;
    by destruct (existsb _ _).
Qed.

Lemma own_effect_dispatched op obs p k s s' :
  dispatched op = Some (p, k) → own_effect op obs p s s' →
  ∃ v t, obs = ObsVerdict v t ∧ own_step (is_modifier p.2) s k v s'.
Proof.
  destruct op; simpl; intros [= <- <-]; destruct obs; try done;
    rewrite bool_decide_true by done; eauto.
Qed.

(** C5. A release meets the fate of its press: if the last event of a
    non-modifier press before its release was a key-down answered [v], and in
    between the press was neither dispatched, settled nor reset (anything else
    may happen, including reloads, focus changes, other keys and delivery
    reports), then the release passes when the down passed, passes when the
    down was consumed but reported rejected with the original forwarded, and is
    swallowed otherwise. The consumer never sees an unmatched release of a
    consumed press nor misses the release of a forwarded one. *)
Theorem release_follows_press rules tr0 op v t tr1 op' obs' m p :
  matcher_run (Matcher_new (RuleSet_new rules))
    (tr0 ++ (op, ObsVerdict v t) :: tr1 ++ [(op', obs')]) m →
  is_modifier p.2 = false →
  dispatched op = Some (p, KeyDown) →
  dispatched op' = Some (p, KeyUp) →
  Forall (λ st, leaves_press p st.1 = true) tr1 →
  ∃ t', obs' = ObsVerdict
    (match v with
     | Verdict_Pass => Verdict_Pass
     | _ => if existsb (rejects_press p) tr1 then Verdict_Pass
            else Verdict_Swallow
     end) t'.
Proof.
  intros Hrun%matcher_run_owner Hmod Hop Hop' Hall; [|auto with sledge].
  apply own_run_app in Hrun as (s0 & _ & Hrun). inversion Hrun as [|??? s1 ?? Hd Hrun1]; subst.
  apply own_run_app in Hrun1 as (s2 & Hrun1 & Hrun2).
  inversion Hrun2 as [|??? s3 ?? Hu _]; subst.
  destruct (own_effect_dispatched _ _ _ _ _ _ Hop (Hd p)) as (v1 & t1 & [= <- <-] & Hs1).
  destruct (own_effect_dispatched _ _ _ _ _ _ Hop' (Hu p)) as (v2 & t2 & -> & Hs2).
  exists t2. f_equal. rewrite Hmod in *.
  pose proof (own_run_leaves _ _ _ _ Hrun1 Hall) as Heq.
  inversion Hs1; subst;
    match goal with H : _ = s1 p |- _ => rewrite <- H in Heq end;
    simpl in Heq; destruct (existsb (rejects_press p) tr1);
    rewrite Heq in Hs2; inversion Hs2; by subst.
Qed.

(** ** Delivery tokens *)

(** The tokens an execution issued, and the ones it settled, oldest first. *)
Definition issued_by (st : MatcherOp * MatcherObs) : list ReplacementToken :=
  match st.2 with ObsVerdict _ (Some tok) => [tok] | _ => [] end.
Definition settled_by (st : MatcherOp * MatcherObs) : list ReplacementToken :=
  match st with (OpReport tok _, ObsReported true) => [tok] | _ => [] end.
Definition issued (tr : list (MatcherOp * MatcherObs)) : list ReplacementToken :=
  tr ≫= issued_by.
Definition settled (tr : list (MatcherOp * MatcherObs)) : list ReplacementToken :=
  tr ≫= settled_by.

(** The token a pending entry stands for. *)
Definition pending_token (p : Press) (g : Z) : ReplacementToken :=
  mkReplacementToken p.1 p.2 g.

(** What a state says about the tokens issued and settled before it. *)
Record TokenInv (m : Matcher) (its sts : list ReplacementToken) : Prop := {
  tok_matcher : MatcherInv m;
  tok_issued : ∀ tok, tok ∈ its → tok_generation tok ≤ m_delivery_generation m;
  tok_issued_nodup : NoDup (tok_generation <$> its);
  tok_settled_nodup : NoDup sts;
  tok_settled : ∀ tok, tok ∈ sts → tok ∈ its;
  tok_pending : ∀ p g, m_pending_deliveries m !! p = Some g →
    pending_token p g ∈ its ∧ pending_token p g ∉ sts;
}.

(** An operation that issues and settles nothing only drops pending tokens. *)
Lemma TokenInv_shrink m m' its sts :
  TokenInv m its sts → MatcherInv m' →
  m_pending_deliveries m' ⊆ m_pending_deliveries m →
  m_delivery_generation m' = m_delivery_generation m →
  TokenInv m' its sts.
Proof.
  intros [] Hinv Hp Hg. split; try done; [by rewrite Hg|].
  intros p g Hpg. eauto using lookup_weaken.
Qed.

Lemma dispatch_rest_pending m d e app now m' v :
  dispatch_rest m d e app now = Some (m', v) →
  m_pending_deliveries m' = m_pending_deliveries m.
Proof.
  unfold dispatch_rest, set_remove, dispatch_modifier, dispatch_key. intros H.
  repeat (case_match; simplify_option_eq; try done).
Qed.

Lemma dispatch_pending m d e app now m' v :
  MatcherInv m → dispatch_device m d e app now = Some (m', v) →
  m_pending_deliveries m' =
    if negb (bool_decide (kind e = KeyDown)) ||
       bool_decide (owner m (d, code e) = Unowned)
    then delete (d, code e) (m_pending_deliveries m)
    else m_pending_deliveries m.
Proof.
  intros Hinv. rewrite dispatch_device_ungated by done. unfold dispatch_ungated.
  rewrite reconcile_spec. intros Hd.
  match type of Hd with (if _ then Some (?m1, _) else _) = _ =>
    assert (m_pending_deliveries m' = m_pending_deliveries m1) as ->
  end.
  { case_match; [by simplify_eq|]. by eapply dispatch_rest_pending. }
  simpl. unfold owner. destruct (bool_decide (kind e = KeyDown)); simpl; [|done].
  repeat case_bool_decide; try done; naive_solver.
Qed.

Lemma dispatch_pending_subseteq m d e app now m' v :
  MatcherInv m → dispatch_device m d e app now = Some (m', v) →
  m_pending_deliveries m' ⊆ m_pending_deliveries m.
Proof.
  intros Hinv Hd. rewrite (dispatch_pending _ _ _ _ _ _ _ Hinv Hd).
  case_match; [apply delete_subseteq|done].
Qed.

Lemma TokenInv_dispatch_delivery m d e app now m' v t its sts :
  TokenInv m its sts →
  dispatch_device_with_delivery m d e app now = Some (m', (v, t)) →
  TokenInv m' (its ++ option_list t) sts.
Proof.
  intros HT Hd. pose proof (tok_matcher _ _ _ HT) as Hinv.
  pose proof (dispatch_with_delivery_inv _ _ _ _ _ _ _ Hinv Hd) as Hinv'.
  unfold dispatch_device_with_delivery in Hd.
  apply bind_Some in Hd as ([m1 v1] & Hd & H).
  pose proof (dispatch_pending_subseteq _ _ _ _ _ _ _ Hinv Hd) as Hsub.
  destruct (dispatch_device_generation _ _ _ _ _ _ _ Hd) as [Hg _].
  destruct v1 as [| |a]; simplify_eq/=; rewrite ?app_nil_r;
    [by eapply TokenInv_shrink..|].
  apply bind_Some in H as (g & [-> _]%checked_add_u64_Some & [= <- <- <-]).
  assert (∀ tok, tok ∈ its → tok_generation tok ≠ m_delivery_generation m1 + 1) as Hfresh.
  { intros tok Hin. apply (tok_issued _ _ _ HT) in Hin. lia. }
  destruct HT as [_ Hi Hni Hns Hs Hp]. split; simpl; try done.
  - intros tok [Hin| ->%list_elem_of_singleton]%elem_of_app; [|simpl; lia].
    apply Hi in Hin. lia.
  - rewrite fmap_app. apply NoDup_app. repeat split; [done| |apply NoDup_singleton].
    intros g (tok & -> & Hin)%list_elem_of_fmap ?%list_elem_of_singleton.
    by apply (Hfresh tok).
  - intros tok Hin%Hs. set_solver.
  - intros p g [[<- <-]|[_ Hpg]]%lookup_insert_Some.
    + split; [set_solver|]. intros Hin%Hs. by apply (Hfresh _ Hin).
    + eapply lookup_weaken in Hpg; [|done]. apply Hp in Hpg as [? ?]. set_solver.
Qed.

Lemma TokenInv_report m tok del its sts :
  TokenInv m its sts →
  let '(m', accepted) := report_delivery m tok del in
  TokenInv m' its (sts ++ if accepted then [tok] else []).
Proof.
  intros HT. pose proof (report_delivery_inv m tok del (tok_matcher _ _ _ HT)) as Hinv'.
  unfold report_delivery in *.
  destruct (negb _) eqn:E; simpl in *; [by rewrite app_nil_r|]. bools.
  set (m1 := refresh_delivery_active _) in *.
  set (p := (tok_device tok, tok_key tok)) in *.
  assert (m_pending_deliveries m1 = delete p (m_pending_deliveries m) ∧
          m_delivery_generation m1 = m_delivery_generation m) as [Hp1 Hg1].
  { subst m1. unfold set_remove. by repeat case_match. }
  clearbody m1. destruct HT as [Hinv Hi Hni Hns Hs Hp].
  destruct (Hp _ _ E) as [Hin Hnot].
  assert (pending_token p (tok_generation tok) = tok) as Htok by by destruct tok.
  rewrite Htok in *. split; try done.
  - by rewrite Hg1.
  - apply NoDup_app. repeat split; [done| |apply NoDup_singleton].
    by intros tok' Hin' ->%list_elem_of_singleton.
  - intros tok' [?| ->%list_elem_of_singleton]%elem_of_app; auto.
  - rewrite Hp1. intros q g [Hne Hq]%lookup_delete_Some.
    destruct (Hp _ _ Hq) as [? Hnq]. split; [done|].
    intros [?|Heq%list_elem_of_singleton]%elem_of_app; [done|].
    apply Hne. subst p. rewrite <- Heq. by destruct q.
Qed.

Lemma TokenInv_step m op m' obs its sts :
  TokenInv m its sts → matcher_step m op = Some (m', obs) →
  TokenInv m' (its ++ issued_by (op, obs)) (sts ++ settled_by (op, obs)).
Proof.
  intros HT Hstep. pose proof (tok_matcher _ _ _ HT) as Hinv.
  pose proof (matcher_step_inv _ _ _ _ Hinv Hstep) as Hinv'.
  destruct op as [d e app now|d e app now|tok del|rules| | |d e|d|]; simpl in Hstep.
  - apply bind_Some in Hstep as ([m1 v] & Hd & [= <- <-]). cbn. rewrite !app_nil_r.
    destruct (dispatch_device_generation _ _ _ _ _ _ _ Hd) as [Hg _].
    eapply TokenInv_shrink; eauto using dispatch_pending_subseteq.
  - apply bind_Some in Hstep as ([m1 [v t]] & Hd & [= <- <-]). cbn.
    rewrite app_nil_r. eapply TokenInv_dispatch_delivery in Hd; [|done].
    by destruct t.
  - pose proof (TokenInv_report m tok del its sts HT).
    destruct (report_delivery _ _ _) as [m1 b]. simplify_eq. cbn.
    rewrite app_nil_r. by destruct b.
  - simplify_eq. cbn. rewrite !app_nil_r. by eapply TokenInv_shrink.
  - simplify_eq. cbn. rewrite !app_nil_r. eapply TokenInv_shrink; try done.
    apply map_empty_subseteq.
  - simplify_eq. cbn. rewrite !app_nil_r. by eapply TokenInv_shrink.
  - simplify_eq. cbn. rewrite !app_nil_r. eapply TokenInv_shrink; try done;
      unfold Matcher_settle_device_event; case_match; try done.
    apply delete_subseteq.
  - simplify_eq. cbn. rewrite !app_nil_r. eapply TokenInv_shrink; try done.
    apply map_filter_subseteq.
  - simplify_eq. cbn. rewrite !app_nil_r. eapply TokenInv_shrink; try done.
    apply map_empty_subseteq.
Qed.

Lemma TokenInv_run m tr m' its sts :
  TokenInv m its sts → matcher_run m tr m' →
  TokenInv m' (its ++ issued tr) (sts ++ settled tr).
Proof.
  intros HT Hrun. revert its sts HT.
  induction Hrun as [m|m op m1 obs tr m2 Hstep _ IH]; intros its sts HT.
  { cbn. by rewrite !app_nil_r. }
  eapply TokenInv_step in Hstep; [|done]. apply IH in Hstep.
  unfold issued, settled in *. rewrite !bind_cons, !app_assoc. done.
Qed.

Lemma TokenInv_new rules : TokenInv (Matcher_new (RuleSet_new rules)) [] [].
Proof.
  split; simpl; try (auto with sledge; constructor); set_solver.
Qed.

(** Tokens are unique and one-shot: over any execution of a new matcher the
    issued tokens are pairwise distinct (also across resets and reloads), and
    the reports that were accepted settled pairwise distinct tokens that this
    matcher had issued: no token is ever settled twice, and none is invented. *)
Theorem tokens_settle_once rules tr m :
  matcher_run (Matcher_new (RuleSet_new rules)) tr m →
  NoDup (tok_generation <$> issued tr) ∧ NoDup (settled tr) ∧
  ∀ tok, tok ∈ settled tr → tok ∈ issued tr.
Proof.
  intros Hrun. destruct (TokenInv_run _ _ _ _ _ (TokenInv_new rules) Hrun). done.
Qed.

(** A release retires the token of its press: after any reachable matcher
    dispatches the key-up of a press, every token of that press is stale, so no
    later report about it is accepted or changes the state; tokens of other
    presses keep their validity. *)
Lemma release_retires_token rules tr m d e app now m' v tok del :
  matcher_run (Matcher_new (RuleSet_new rules)) tr m →
  kind e = KeyUp →
  dispatch_device m d e app now = Some (m', v) →
  (tok_device tok, tok_key tok) = (d, code e) →
  report_delivery m' tok del = (m', false) ∧
  ∀ q, q ≠ (d, code e) →
    m_pending_deliveries m' !! q = m_pending_deliveries m !! q.
Proof.
  intros Hinv%matcher_run_inv Hk Hd Htok; [|auto with sledge].
  pose proof (dispatch_pending _ _ _ _ _ _ _ Hinv Hd) as Hp. rewrite Hk in Hp.
  simpl in Hp. split.
  - unfold report_delivery. rewrite Htok, Hp, lookup_delete_eq.
    by rewrite bool_decide_false.
  - intros q Hq. by rewrite Hp, lookup_delete_ne.
Qed.

(** ** Witnesses *)

Lemma matcher_refines_ownership_witness :
  ∃ m tr, alt_k_exec = Some (m, tr) ∧ own_run (λ _, Unowned) tr (owner m) ∧
    owner m (7, KeyK) = Forwarded.
Proof.
  destruct alt_k_run as (m & tr & E & Hrun). exists m, tr. split; [done|].
  split; [exact (matcher_refines_ownership _ _ _ Hrun)|].
  vm_compute in E. injection E as <- _. reflexivity.
Defined.

(** Alt+K is replaced, a reload drops the rule, another device types, and the
    release is still swallowed. *)
Definition hold_ops : list MatcherOp :=
  [OpDispatch 7 alt_k_down None 0; OpSwap []; OpDispatch 8 alt_k_up None 1;
   OpDispatch 7 alt_k_up None 2].

Lemma release_follows_press_witness :
  ∃ m v tr1 obs',
    exec (Matcher_new (RuleSet_new [alt_k_rule])) hold_ops =
      Some (m, (OpDispatch 7 alt_k_down None 0, ObsVerdict v None) ::
               tr1 ++ [(OpDispatch 7 alt_k_up None 2, obs')]) ∧
    ∃ t', obs' = ObsVerdict Verdict_Swallow t'.
Proof.
  destruct (exec (Matcher_new (RuleSet_new [alt_k_rule])) hold_ops)
    as [[m tr]|] eqn:E; [|by vm_compute in E].
  pose proof (exec_run _ _ _ _ E) as Hrun.
  assert (tr = [(OpDispatch 7 alt_k_down None 0,
                 ObsVerdict (Verdict_Replace (SendKey KeyT ALT)) None)] ++
               ([(OpSwap [], ObsNone);
                 (OpDispatch 8 alt_k_up None 1, ObsVerdict Verdict_Pass None)] ++
                [(OpDispatch 7 alt_k_up None 2, ObsVerdict Verdict_Swallow None)])) as Htr.
  { apply (f_equal (fmap snd)) in E. cbn [fmap option_fmap option_map snd] in E.
    vm_compute in E. injection E as <-. reflexivity. }
  rewrite Htr in Hrun.
  exists m. do 3 eexists. split; [by rewrite Htr|].
  exact (release_follows_press [alt_k_rule] [] _ _ _ _ _ _ m (7, KeyK) Hrun
    eq_refl eq_refl eq_refl ltac:(repeat constructor)).
Defined.

Lemma tokens_settle_once_witness :
  ∃ m tr, alt_k_exec = Some (m, tr) ∧ NoDup (settled tr) ∧
    settled tr = [mkReplacementToken 7 KeyK 1].
Proof.
  destruct alt_k_run as (m & tr & E & Hrun). exists m, tr. split; [done|].
  split; [exact (proj1 (proj2 (tokens_settle_once _ _ _ Hrun)))|].
  vm_compute in E. injection E as _ <-. reflexivity.
Defined.
