(* ===== verification/Isolation.v ===== *)
(** * Device isolation

    Every piece of the matcher's state is keyed by device. [agree d m1 m2] says
    that two matchers are indistinguishable through device [d]; the theorems
    show that an operation on one device is invisible through the others
    ([device_frame]) and that what a device's event decides depends on that
    device's own state only ([device_noninterference]). *)

From S2P Require Import Prelude Event TapFsm Rule MatcherInv.

(** The two matchers look the same through device [d]. *)
Record agree (d : DeviceId) (m1 m2 : Matcher) : Prop := {
  agree_rules : m_rules m1 = m_rules m2;
  agree_fsms : m_tap_fsms m1 !! d = m_tap_fsms m2 !! d;
  agree_modifiers : ∀ k,
    m_modifier_state m1 !! (d, k) = m_modifier_state m2 !! (d, k);
  agree_swallowed : ∀ k,
    (d, k) ∈ m_swallowed_downs m1 ↔ (d, k) ∈ m_swallowed_downs m2;
  agree_forwarded : ∀ k,
    (d, k) ∈ m_forwarded_downs m1 ↔ (d, k) ∈ m_forwarded_downs m2;
  agree_pending : ∀ k,
    m_pending_deliveries m1 !! (d, k) = m_pending_deliveries m2 !! (d, k);
}.

#[export] Instance agree_equivalence d : Equivalence (agree d).
Proof.
  split.
  - by intros m.
  - intros m1 m2 []. by split.
  - intros m1 m2 m3 [] []. split; try (etrans; by eauto); by etrans.
Qed.

(** ** Frames *)

Lemma reconcile_agree_other m p k d :
  d ≠ p.1 → agree d (reconcile_delivery_event m p k).1 m.
Proof.
  intros Hd. rewrite reconcile_spec. destruct p as [dp kp]; simpl in *.
  split; simpl; try done.
  - intros k'. case_bool_decide; [|done]. set_solver.
  - intros k'. case_match; [|done]. apply lookup_delete_ne. congruence.
Qed.

Lemma dispatch_rest_agree_other m d e app now m' v d' :
  d' ≠ d → dispatch_rest m d e app now = Some (m', v) → agree d' m' m.
Proof.
  intros Hd. unfold dispatch_rest, set_remove.
  destruct (bool_decide (kind e = KeyUp) && _).
  { intros [= <- <-]. split; simpl; try done. set_solver. }
  destruct (bool_decide (kind e = KeyDown) && _); [by intros [= <- <-]|].
  intros (fsms & _ & [= H])%bind_Some. unfold dispatch_modifier, dispatch_key in H.
  repeat case_match; simplify_eq; split; simpl; try done;
    try (intros k; apply lookup_insert_ne; congruence);
    rewrite ?lookup_insert_ne by done; try done; set_solver.
Qed.

Lemma dispatch_agree_other m d e app now m' v d' :
  MatcherInv m → d' ≠ d →
  dispatch_device m d e app now = Some (m', v) → agree d' m' m.
Proof.
  intros Hinv Hd. rewrite dispatch_device_ungated by done. unfold dispatch_ungated.
  pose proof (reconcile_agree_other m (d, code e) (kind e) d' Hd) as Hag.
  destruct (reconcile_delivery_event _ _ _) as [m1 []]; simpl in *.
  - by intros [= <- <-].
  - intros H%(dispatch_rest_agree_other _ _ _ _ _ _ _ d'); [|done]. by etrans.
Qed.

(** The device an operation addresses; [None] for the global ones. *)
Definition op_device (op : MatcherOp) : option DeviceId :=
  match op with
  | OpDispatch d _ _ _ | OpDispatchDelivery d _ _ _ | OpSettle d _
  | OpResetDevice d => Some d
  | OpReport tok _ => Some (tok_device tok)
  | OpSwap _ | OpInvalidate | OpDisqualify | OpReset => None
  end.

Lemma report_agree_other m tok del d :
  d ≠ tok_device tok → agree d (report_delivery m tok del).1 m.
Proof.
  intros Hd. unfold report_delivery, set_remove.
  repeat case_match; simplify_eq/=; split; simpl; try done;
    try (intros k; apply lookup_delete_ne; congruence); set_solver.
Qed.

Lemma step_agree_other m op m' obs d d' :
  MatcherInv m → op_device op = Some d → d' ≠ d →
  matcher_step m op = Some (m', obs) → agree d' m' m.
Proof.
  intros Hinv Hop Hd.
  destruct op as [dv e app now|dv e app now|tok del| | | |dv e|dv|];
    simpl in *; simplify_eq; intros H.
  - apply bind_Some in H as ([m1 v] & H & [= <- <-]). by eapply dispatch_agree_other.
  - apply bind_Some in H as ([m1 [v t]] & H & [= <- <-]).
    unfold dispatch_device_with_delivery in H.
    apply bind_Some in H as ([m2 v'] & H & Hv).
    apply (dispatch_agree_other _ _ _ _ _ _ _ d') in H as Hag; [|done..].
    destruct v'; simplify_eq; try done.
    apply bind_Some in Hv as (g & _ & [= <- <- <-]).
    etrans; [|exact Hag]. split; simpl; try done.
    intros k. apply lookup_insert_ne. congruence.
  - pose proof (report_agree_other m tok del d' Hd).
    destruct (report_delivery _ _ _); by simplify_eq.
  - simplify_eq. unfold Matcher_settle_device_event. case_match; [done|].
    split; simpl; try done; try (intros k; apply lookup_delete_ne; congruence);
      [by apply lookup_delete_ne|set_solver..].
  - simplify_eq. unfold reset_device. split; simpl; try done.
    + by apply lookup_delete_ne.
    + intros k. rewrite map_lookup_filter.
      destruct (m_modifier_state m !! _); simpl; [|done]. by rewrite option_guard_True.
    + intros k. rewrite elem_of_filter. naive_solver.
    + intros k. rewrite elem_of_filter. naive_solver.
    + intros k. rewrite map_lookup_filter.
      destruct (m_pending_deliveries m !! _); simpl; [|done]. by rewrite option_guard_True.
Qed.

(** A whole run on other devices is invisible through device [d]. *)
Lemma run_agree_other m tr m' d :
  MatcherInv m →
  Forall (λ '(op, _), ∃ d', op_device op = Some d' ∧ d ≠ d') tr →
  matcher_run m tr m' → agree d m' m.
Proof.
  intros Hinv Htr Hrun. induction Hrun as [|m op m1 o tr m2 Hs _ IH]; [done|].
  apply Forall_cons in Htr as [(d' & ? & ?) ?].
  etrans; [apply IH; [by eapply matcher_step_inv|done]|].
  by eapply step_agree_other.
Qed.

(** An operation on one device is invisible through every other: whatever
    is dispatched, reported, settled or reset on device [d], the tap machines,
    modifier state, press ownership and pending tokens of any other device are
    unchanged. *)
Lemma device_frame rules tr m op m' obs d d' :
  matcher_run (Matcher_new (RuleSet_new rules)) tr m →
  op_device op = Some d → d' ≠ d →
  matcher_step m op = Some (m', obs) →
  agree d' m' m.
Proof. intros Hinv%matcher_run_inv; [|auto with sledge]. by apply step_agree_other. Qed.

(** ** Noninterference *)

Lemma other_modifier_down_spec ms d k :
  other_modifier_down ms d k = true ↔
  ∃ k', k' ≠ k ∧ ms !! (d, k') = Some true.
Proof.
  unfold other_modifier_down. rewrite existsb_exists. split.
  - intros ([[d' k'] b] & Hin%list_elem_of_In & H). bools. subst.
    apply elem_of_map_to_list in Hin. eauto.
  - intros (k' & Hk & Hin). exists ((d, k'), true). split.
    + by apply list_elem_of_In, elem_of_map_to_list.
    + by rewrite bool_decide_true, bool_decide_false.
Qed.

Lemma other_modifier_down_agree ms1 ms2 d k :
  (∀ k', ms1 !! (d, k') = ms2 !! (d, k')) →
  other_modifier_down ms1 d k = other_modifier_down ms2 d k.
Proof.
  intros H. apply eq_true_iff_eq. rewrite !other_modifier_down_spec.
  by setoid_rewrite H.
Qed.

Lemma lookup_insert_agree {A} (m1 m2 : gmap (Z * KeyCode) A) p x (d : Z) k :
  m1 !! (d, k) = m2 !! (d, k) → <[p:=x]> m1 !! (d, k) = <[p:=x]> m2 !! (d, k).
Proof. intros H. rewrite !lookup_insert. by case_decide. Qed.

Lemma lookup_delete_agree {A} (m1 m2 : gmap (Z * KeyCode) A) p (d : Z) k :
  m1 !! (d, k) = m2 !! (d, k) → delete p m1 !! (d, k) = delete p m2 !! (d, k).
Proof. intros H. rewrite !lookup_delete. by case_decide. Qed.

Lemma reconcile_agree m1 m2 d k kd :
  agree d m1 m2 →
  agree d (reconcile_delivery_event m1 (d, k) kd).1
          (reconcile_delivery_event m2 (d, k) kd).1 ∧
  (reconcile_delivery_event m1 (d, k) kd).2 =
  (reconcile_delivery_event m2 (d, k) kd).2.
Proof.
  intros [Hr Hf Hm Hs Hw Hp]. rewrite !reconcile_spec; cbn [fst snd].
  rewrite (bool_decide_ext _ _ (Hs k)), (bool_decide_ext _ _ (Hw k)).
  split; [|done]. split; simpl; try done.
  - intros k'. case_bool_decide; [|done]. specialize (Hw k'). set_solver.
  - intros k'. case_match; [by apply lookup_delete_agree|done].
Qed.

Lemma dispatch_modifier_agree m1 m2 d e app now fsms :
  agree d m1 m2 →
  agree d (dispatch_modifier m1 d e app now fsms).1
          (dispatch_modifier m2 d e app now fsms).1 ∧
  (dispatch_modifier m1 d e app now fsms).2 =
  (dispatch_modifier m2 d e app now fsms).2.
Proof.
  intros [Hr Hf Hm Hs Hw Hp]. unfold dispatch_modifier.
  destruct (event_is_down e) as [b|]; [|by split].
  assert (∀ k, <[(d, code e):=b]> (m_modifier_state m1) !! (d, k) =
               <[(d, code e):=b]> (m_modifier_state m2) !! (d, k)) as Hms
    by (intros; by apply lookup_insert_agree).
  simpl. rewrite Hm, Hr, (other_modifier_down_agree _ _ _ _ Hms).
  destruct (b && _ && _).
  - split; [|done]. split; simpl; try done. by rewrite !lookup_insert_eq.
  - destruct (tap_loop _ _ _ _ _ _ _ _) as [fsms' []];
      (split; [|done]); split; simpl; try done; by rewrite !lookup_insert_eq.
Qed.

Lemma dispatch_key_agree m1 m2 d e app fsms :
  agree d m1 m2 →
  agree d (dispatch_key m1 d e app fsms).1 (dispatch_key m2 d e app fsms).1 ∧
  (dispatch_key m1 d e app fsms).2 = (dispatch_key m2 d e app fsms).2.
Proof.
  intros [Hr Hf Hm Hs Hw Hp]. unfold dispatch_key. case_bool_decide; [|by split].
  simpl. rewrite Hr. destruct (List.find _ _); (split; [|done]);
    split; simpl; try done; try (by rewrite !lookup_insert_eq).
  intros k. specialize (Hs k). set_solver.
Qed.

Lemma dispatch_rest_agree m1 m2 d e app now m1' v1 m2' v2 :
  agree d m1 m2 →
  dispatch_rest m1 d e app now = Some (m1', v1) →
  dispatch_rest m2 d e app now = Some (m2', v2) →
  v1 = v2 ∧ agree d m1' m2'.
Proof.
  intros Hag. pose proof Hag as [Hr Hf Hm Hs Hw Hp]. unfold dispatch_rest, set_remove.
  rewrite (bool_decide_ext _ _ (Hs (code e))), Hf, Hr.
  destruct (bool_decide (kind e = KeyUp) && _).
  { intros [= <- <-] [= <- <-]. split; [done|]. split; simpl; try done.
    intros k. specialize (Hs k). set_solver. }
  destruct (bool_decide (kind e = KeyDown) && _); [by intros [= <- <-] [= <- <-]|].
  intros (fsms & Hf1 & [= H1])%bind_Some (fsms' & Hf2 & [= H2])%bind_Some.
  rewrite Hf1 in Hf2. injection Hf2 as <-.
  assert (agree d (set_tap_fsms (<[d:=fsms]> (m_tap_fsms m1)) m1)
                  (set_tap_fsms (<[d:=fsms]> (m_tap_fsms m2)) m2)) as Hag'.
  { split; simpl; try done. by rewrite !lookup_insert_eq. }
  destruct (is_modifier (code e)).
  - destruct (dispatch_modifier_agree _ _ _ e app now fsms Hag') as [Ha Hv].
    rewrite H1, H2 in *. done.
  - destruct (dispatch_key_agree _ _ _ e app fsms Hag') as [Ha Hv].
    rewrite H1, H2 in *. done.
Qed.

(** A device's events are decided by that device's state alone: if two
    reachable matchers look the same through device [d] (and may differ in
    everything else), then the same event on [d] gets the same verdict from
    both and leaves them looking the same through [d]. *)
Theorem device_noninterference rules1 tr1 m1 rules2 tr2 m2 d e app now m1' v1 m2' v2 :
  matcher_run (Matcher_new (RuleSet_new rules1)) tr1 m1 →
  matcher_run (Matcher_new (RuleSet_new rules2)) tr2 m2 →
  agree d m1 m2 →
  dispatch_device m1 d e app now = Some (m1', v1) →
  dispatch_device m2 d e app now = Some (m2', v2) →
  v1 = v2 ∧ agree d m1' m2'.
Proof.
  intros Hinv1%matcher_run_inv Hinv2%matcher_run_inv Hag; [|auto with sledge..].
  rewrite !dispatch_device_ungated by done. unfold dispatch_ungated.
  destruct (reconcile_agree m1 m2 d (code e) (kind e) Hag) as [Hag' Hb].
  destruct (reconcile_delivery_event m1 _ _) as [n1 b1],
    (reconcile_delivery_event m2 _ _) as [n2 b2]; simpl in *. subst b2.
  destruct b1; [by intros [= <- <-] [= <- <-]|]. by apply dispatch_rest_agree.
Qed.

(** ** Witnesses *)

(** Device 8 decides alike whether or not device 7 holds a forwarded press. *)
Lemma device_noninterference_witness :
  ∃ m tr m1' v1 m2' v2, alt_k_exec = Some (m, tr) ∧
    dispatch_device m 8 alt_k_down None 9 = Some (m1', v1) ∧
    dispatch_device (Matcher_new (RuleSet_new [alt_k_rule])) 8 alt_k_down None 9 =
      Some (m2', v2) ∧
    v1 = v2 ∧ agree 8 m1' m2'.
Proof.
  destruct alt_k_run as (m & tr & E & Hrun).
  destruct (dispatch_device m 8 alt_k_down None 9) as [[m1' v1]|] eqn:H1.
  2: { vm_compute in E. injection E as <- _. by vm_compute in H1. }
  destruct (dispatch_device (Matcher_new (RuleSet_new [alt_k_rule])) 8 alt_k_down
    None 9) as [[m2' v2]|] eqn:H2; [|by vm_compute in H2].
  exists m, tr, m1', v1, m2', v2. repeat (split; [done|]).
  apply (device_noninterference [alt_k_rule] tr m [alt_k_rule] []
    (Matcher_new (RuleSet_new [alt_k_rule])) 8 alt_k_down None 9 m1' v1 m2' v2
    Hrun (run_nil _)); [|done..].
  eapply run_agree_other; [auto with sledge| |exact Hrun].
  pose proof alt_k_exec_ok as Hok. rewrite E in Hok. injection Hok as ->.
  repeat constructor; by exists 7.
Defined.
