(* ===== verification/Dispatch.v ===== *)
(** * What fires, and when

    The functional behaviour of [Matcher::dispatch_device] on a press nobody
    owns: which hotkey replaces it, when a tap rule fires, and that nothing is
    ever replaced without a rule that asks for it. *)

From S2P Require Import Prelude Event TapFsm Rule MatcherInv Isolation.

(** ** Matching *)

(** The rule applies to the focused application: it has no scope, or the focus
    is known and listed. *)
Definition in_scope (r : Rule) (app : option string) : Prop :=
  match rule_when_app_in r with
  | None => True
  | Some names => ∃ a, app = Some a ∧ a ∈ names
  end.

Lemma scope_matches_spec r app : scope_matches r app = true ↔ in_scope r app.
Proof.
  unfold scope_matches, in_scope. destruct (rule_when_app_in r) as [names|]; [|done].
  destruct app as [a|]; [|naive_solver].
  rewrite existsb_exists. setoid_rewrite bool_decide_eq_true.
  setoid_rewrite <- list_elem_of_In. naive_solver.
Qed.

(** A hotkey rule asks for this press: its key, and at least its modifiers. *)
Definition hotkey_hits (r : Rule) (e : KeyEvent) (app : option string) : Prop :=
  ∃ h, rule_trigger r = Hotkey h ∧ kind e = KeyDown ∧ hk_key h = code e ∧
    mods_contains (mods e) (hk_mods h) = true ∧ in_scope r app.

Lemma hotkey_rule_matches_spec e app r :
  hotkey_rule_matches e app r = true ↔ hotkey_hits r e app.
Proof.
  unfold hotkey_rule_matches, hotkey_hits. destruct (rule_trigger r) as [h|]; [|naive_solver].
  unfold hotkey_matches, mods_matches.
  rewrite !andb_true_iff, !bool_decide_eq_true, scope_matches_spec. naive_solver.
Qed.

(** A tap rule asks for the [n]-th clean tap of [k]. *)
Definition tap_hits (r : Rule) (k : KeyCode) (n : Z) (app : option string) : Prop :=
  ∃ t, rule_trigger r = Tap t ∧ tt_tap t = k ∧ tt_count t = n ∧ in_scope r app.

Definition tap_rule_matches (k : KeyCode) (n : Z) (app : option string) (r : Rule) : bool :=
  match rule_trigger r with
  | Tap t => bool_decide (tt_tap t = k) && bool_decide (tt_count t = n) && scope_matches r app
  | Hotkey _ => false
  end.

Lemma tap_rule_matches_spec k n app r :
  tap_rule_matches k n app r = true ↔ tap_hits r k n app.
Proof.
  unfold tap_rule_matches, tap_hits. destruct (rule_trigger r) as [|t]; [naive_solver|].
  rewrite !andb_true_iff, !bool_decide_eq_true, scope_matches_spec. naive_solver.
Qed.

(** The first rule of the configuration that passes a test. *)
Definition first_rule (P : Rule → Prop) (rules : list Rule) (r : Rule) : Prop :=
  ∃ i, rules !! i = Some r ∧ P r ∧ ∀ j r', (j < i)%nat → rules !! j = Some r' → ¬ P r'.

Lemma find_first (f : Rule → bool) (P : Rule → Prop) rules :
  (∀ r, f r = true ↔ P r) →
  match List.find f rules with
  | Some r => first_rule P rules r
  | None => ∀ r, r ∈ rules → ¬ P r
  end.
Proof.
  intros Hf. induction rules as [|r rules IH]; simpl; [set_solver|].
  destruct (f r) eqn:Hr.
  - exists 0%nat. split_and!; [done|by apply Hf|lia].
  - assert (¬ P r) as Hn by (rewrite <- Hf; congruence).
    destruct (List.find f rules) as [r'|].
    + destruct IH as (i & Hi & HP & Hlt). exists (S i). split_and!; [done..|].
      intros [|j] r0 Hj Hr0; simplify_eq/=; [done|]. apply (Hlt j); [lia|done].
    + intros r0 [->|Hin]%elem_of_cons; [done|by apply IH].
Qed.

Lemma find_filter (f g : Rule → bool) rules :
  (∀ r, f r = true → g r = true) →
  List.find f (filter (λ r, g r = true) rules) = List.find f rules.
Proof.
  intros Hfg. induction rules as [|r rules IH]; [done|]. rewrite filter_cons. simpl.
  destruct (f r) eqn:Hf.
  - rewrite decide_True by auto. simpl. by rewrite Hf.
  - case_decide; simpl; rewrite ?Hf; done.
Qed.

(** Searching one half of the rule set is searching the configuration. *)
Lemma find_hotkey rules e app :
  List.find (hotkey_rule_matches e app) (rs_hotkeys (RuleSet_new rules)) =
  List.find (hotkey_rule_matches e app) rules.
Proof.
  rewrite RuleSet_new_partition. simpl. apply find_filter. intros r.
  unfold hotkey_rule_matches, is_hotkey. by destruct (rule_trigger r).
Qed.

Lemma find_tap rules k n app :
  List.find (tap_rule_matches k n app) (rs_taps (RuleSet_new rules)) =
  List.find (tap_rule_matches k n app) rules.
Proof.
  rewrite RuleSet_new_partition. simpl.
  rewrite (list_filter_iff _ (λ r, negb (is_hotkey r) = true))
    by (intros r; by destruct (is_hotkey r)).
  apply find_filter. intros r. unfold tap_rule_matches, is_hotkey.
  by destruct (rule_trigger r).
Qed.

(** ** Nothing is replaced without a rule *)

Lemma tap_loop_action taps fsms e wd d app now a fsms' a' :
  tap_loop taps fsms e wd d app now a = (fsms', a') →
  a' = a ∨ (a = None ∧ ∃ r n, r ∈ taps ∧ tap_hits r (code e) n app ∧ a' = Some (rule_action r)).
Proof.
  revert fsms a fsms'. induction taps as [|r taps IH]; intros fsms a fsms'; simpl.
  { intros [= <- <-]. by left. }
  destruct fsms as [|f fsms]; [intros [= <- <-]; by left|].
  destruct (on_transition f _ _ _ _ _) as [f1 res] eqn:Ht.
  set (a1 := match res with Tapped _ _ => _ | _ => _ end).
  assert (a1 = a ∨ (a = None ∧ ∃ n, tap_hits r (code e) n app ∧ a1 = Some (rule_action r)))
    as Ha1.
  { unfold a1. destruct res as [|k n]; [by left|].
    destruct (rule_trigger r) as [|t] eqn:Hr; [by left|].
    destruct (_ && _) eqn:Hg; [|by left]. bools. right. split; [done|]. exists n.
    split; [|done]. exists t. rewrite <- scope_matches_spec. split_and!; try done.
    assert (k = code e) as -> by (by eapply on_transition_key). done. }
  destruct (tap_loop taps fsms _ _ _ _ _ a1) as [fsms1 a2] eqn:Hl. intros [= <- <-].
  apply IH in Hl as [->|(-> & r' & n & ? & ? & ?)].
  - destruct Ha1 as [->|(-> & n & ? & ->)]; [by left|]. right. split; [done|].
    exists r, n. set_solver.
  - destruct Ha1 as [Ha1|(_ & n' & _ & ?)]; [|done]. right. split; [done|].
    exists r', n. set_solver.
Qed.

Lemma dispatch_rest_replace m d e app now m' a :
  dispatch_rest m d e app now = Some (m', Verdict_Replace a) →
  ∃ r, rule_action r = a ∧
    if is_modifier (code e)
    then r ∈ rs_taps (m_rules m) ∧ ∃ n, tap_hits r (code e) n app
    else r ∈ rs_hotkeys (m_rules m) ∧ hotkey_hits r e app.
Proof.
  unfold dispatch_rest, set_remove. do 2 (destruct (_ && _); [done|]).
  intros (fsms & _ & [= H])%bind_Some. destruct (is_modifier (code e)).
  - unfold dispatch_modifier in H. destruct (event_is_down e) as [b|]; [|done].
    destruct (b && _ && _); [done|]. cbn [m_rules set_tap_fsms set_modifier_state] in H.
    destruct (tap_loop _ _ _ _ _ _ _ _) as [fsms' [act|]] eqn:Hl; [|done].
    injection H as _ ->. apply tap_loop_action in Hl as [?|(_ & r & n & ? & ? & [= ->])]; [done|].
    eauto.
  - unfold dispatch_key in H. case_bool_decide; [|done].
    cbn [m_rules set_tap_fsms] in H.
    pose proof (find_first _ _ (rs_hotkeys (m_rules m)) (hotkey_rule_matches_spec e app)) as Hf.
    destruct (List.find _ _) as [r|]; [|done]. injection H as _ <-.
    destruct Hf as (i & ?%list_elem_of_lookup_2 & ? & _). eauto.
Qed.

Lemma reconcile_rules m p k : m_rules (reconcile_delivery_event m p k).1 = m_rules m.
Proof. by rewrite reconcile_spec. Qed.

Lemma dispatch_device_replace m d e app now m' a :
  MatcherInv m → dispatch_device m d e app now = Some (m', Verdict_Replace a) →
  ∃ r, r ∈ RuleSet_iter (m_rules m) ∧ rule_action r = a ∧ in_scope r app ∧
    if is_modifier (code e) then ∃ n, tap_hits r (code e) n app
    else hotkey_hits r e app.
Proof.
  intros Hinv.
  rewrite dispatch_device_ungated by done. unfold dispatch_ungated.
  pose proof (reconcile_rules m (d, code e) (kind e)) as Hr.
  destruct (reconcile_delivery_event _ _ _) as [m1 []]; [done|].
  intros (r & Ha & Hk)%dispatch_rest_replace. simpl in Hr. rewrite Hr in Hk.
  exists r. unfold RuleSet_iter. rewrite elem_of_app.
  destruct (is_modifier (code e)); destruct Hk as [Hin Hh]; split_and!; auto.
  - by destruct Hh as (? & ? & _ & _ & _ & ?).
  - by destruct Hh as (? & _ & _ & _ & _ & ?).
Qed.

(** Nothing is replaced without a rule that asks for it. In every reachable
    state, whatever the event: if [dispatch_device] answers with a replacement,
    then some rule of the live rule set has that action and is in scope for the
    focused application (never when the focus is unknown and the rule is
    scoped), and it is a hotkey on that very key whose modifiers are held, or,
    for a modifier key, a tap rule on it. In particular a hotkey rule on a
    modifier key never fires. *)
Theorem replace_is_asked_for rules tr m d e app now m' a :
  matcher_run (Matcher_new (RuleSet_new rules)) tr m →
  dispatch_device m d e app now = Some (m', Verdict_Replace a) →
  ∃ r, r ∈ RuleSet_iter (m_rules m) ∧ rule_action r = a ∧ in_scope r app ∧
    if is_modifier (code e) then ∃ n, tap_hits r (code e) n app
    else hotkey_hits r e app.
Proof.
  intros Hinv%matcher_run_inv; [|auto with sledge]. by apply dispatch_device_replace.
Qed.

(** ** The first matching hotkey wins *)

(** The press is owned by nobody: not consumed, not forwarded. *)
Definition unowned (m : Matcher) (p : Z * KeyCode) : Prop :=
  (p ∉ m_swallowed_downs m) ∧ (p ∉ m_forwarded_downs m).

Lemma dispatch_unowned m d e app now :
  MatcherInv m → unowned m (d, code e) →
  dispatch_device m d e app now =
    (fsms ← match m_tap_fsms m !! d with
            | Some fsms => Some fsms
            | None => new_fsms (m_rules m)
            end;
     let m := set_tap_fsms (<[d := fsms]> (m_tap_fsms m))
                (reconcile_delivery_event m (d, code e) (kind e)).1 in
     Some (if is_modifier (code e)
           then dispatch_modifier m d e app now fsms
           else dispatch_key m d e app fsms)).
Proof.
  intros Hinv [Hs Hf]. rewrite dispatch_device_ungated by done. unfold dispatch_ungated.
  rewrite reconcile_spec. rewrite (bool_decide_false (_ ∈ m_forwarded_downs m)) by done.
  rewrite andb_false_r. unfold dispatch_rest, set_remove. cbn [fst].
  cbn [m_swallowed_downs refresh_delivery_active set_active set_forwarded set_pending].
  rewrite (bool_decide_false (_ ∈ m_swallowed_downs m)) by done. by rewrite !andb_false_r.
Qed.

(** C35. The first hotkey of the configuration wins. For a press of an ordinary
    key that nobody owns, with the rules compiled from [rules]: the press is
    replaced by the action of the first rule of the configuration that asks for
    it, and then it is owned (its release will be swallowed); and it passes,
    unowned, exactly when no rule asks for it. *)
Theorem first_hotkey_wins rules0 tr rules m d e app now m' v :
  matcher_run (Matcher_new (RuleSet_new rules0)) tr m →
  m_rules m = RuleSet_new rules → kind e = KeyDown → is_modifier (code e) = false →
  unowned m (d, code e) → dispatch_device m d e app now = Some (m', v) →
  (∃ r, first_rule (λ r, hotkey_hits r e app) rules r ∧ v = Verdict_Replace (rule_action r) ∧
        (d, code e) ∈ m_swallowed_downs m') ∨
  ((∀ r, r ∈ rules → ¬ hotkey_hits r e app) ∧ v = Verdict_Pass ∧ unowned m' (d, code e)).
Proof.
  intros Hinv%matcher_run_inv Hr Hk Hm Hu; [|auto with sledge].
  rewrite dispatch_unowned by done. intros (fsms & _ & [= H])%bind_Some.
  rewrite Hm in H. unfold dispatch_key in H. rewrite bool_decide_true in H by done.
  pose proof (reconcile_rules m (d, code e) (kind e)) as Hrr. rewrite Hr in Hrr.
  rewrite reconcile_spec in H, Hrr. cbn [fst] in *.
  cbn [m_rules set_tap_fsms refresh_delivery_active set_active set_forwarded set_pending] in H.
  rewrite Hr, find_hotkey in H.
  pose proof (find_first _ _ rules (hotkey_rule_matches_spec e app)) as Hf.
  destruct (List.find _ rules) as [r|]; injection H as <- <-.
  - left. exists r. split_and!; [done..|]. simpl. set_solver.
  - right. split_and!; [done..|]. destruct Hu. split; simpl; [done|].
    rewrite Hk. done.
Qed.

(** ** Tap rules fire on the tap they ask for *)

(** The verdicts of pressing and releasing modifier [k] of device [d] for each
    of the taps. *)
Fixpoint dispatch_taps (m : Matcher) (d : DeviceId) (k : KeyCode) (app : option string)
    (taps : list tap) : option (list (Verdict * Verdict)) :=
  match taps with
  | [] => Some []
  | p :: taps =>
      '(m, v1) ← dispatch_device m d (mkKeyEvent k KeyDown (tap_down_mods p)) app (tap_down_at p);
      '(m, v2) ← dispatch_device m d (mkKeyEvent k KeyUp (tap_up_mods p)) app (tap_up_at p);
      vs ← dispatch_taps m d k app taps;
      Some ((v1, v2) :: vs)
  end.

(** What the [n]-th and the following taps are answered with. *)
Fixpoint tap_verdicts (rules : list Rule) (k : KeyCode) (app : option string) (n : Z)
    (taps : list tap) : list (Verdict * Verdict) :=
  match taps with
  | [] => []
  | _ :: taps =>
      let n := saturating_add_u32 n 1 in
      (Verdict_Pass,
       match List.find (tap_rule_matches k n app) rules with
       | Some r => Verdict_Replace (rule_action r)
       | None => Verdict_Pass
       end) :: tap_verdicts rules k app n taps
  end.

(** The machines of a device: every one remembers a streak of [c] taps of [k]. *)
Definition streaking (k : KeyCode) (c : Z) (previous : option Z) (f : TapFsm) : Prop :=
  streak_state c previous (fsm_states f !! k) ∧ (fsm_active_key f = None ∨ previous = None).

(** Every machine holds an untainted press of [k]. *)
Definition pressed (k : KeyCode) (c : Z) (previous : option Z) (f : TapFsm) : Prop :=
  fsm_active_key f = Some k ∧ fsm_active_tainted f = false ∧
  streak_state c previous (fsm_states f !! k).

Lemma tap_loop_press taps fsms e k app now c previous a :
  code e = k → other_modifiers k (mods e) = false →
  Forall (streaking k c previous) fsms →
  ∃ fsms', tap_loop taps fsms e false true app now a = (fsms', a) ∧
    Forall (pressed k c previous) (take (length taps) fsms') ∧ length fsms' = length fsms.
Proof.
  intros <- Ho. revert fsms. induction taps as [|r taps IH]; intros fsms Hall; simpl.
  { exists fsms. rewrite take_0. by repeat constructor. }
  destruct fsms as [|f fsms]; [by exists []|]. apply Forall_cons in Hall as [[Hst Hi] Hall].
  destruct (IH fsms Hall) as (fsms' & -> & Hp & Hlen).
  destruct (transition_down_clean f (code e) (mods e) now c previous Ho Hst Hi)
    as (_ & Hk & Ht & Hst').
  eexists. split; [reflexivity|]. simpl. split; [|by rewrite Hlen]. by constructor.
Qed.

Lemma tap_loop_up taps fsms e k app now c previous a :
  code e = k → length fsms = length taps → Forall (pressed k c previous) fsms →
  Forall (λ f, from_option (λ t, 0 ≤ now - t ≤ fsm_within f) True previous) fsms →
  ∃ fsms', tap_loop taps fsms e true false app now a =
      (fsms', match a with
              | Some _ => a
              | None => rule_action <$>
                  List.find (tap_rule_matches k (saturating_add_u32 c 1) app) taps
              end) ∧
    Forall (streaking k (saturating_add_u32 c 1) (Some now)) fsms' ∧
    length fsms' = length taps.
Proof.
  intros <-. revert fsms a. induction taps as [|r taps IH]; intros fsms a Hlen Hall Hw; simpl.
  { destruct fsms; [|done]. exists []. split; [by destruct a|]. by split. }
  destruct fsms as [|f fsms]; [done|]. simpl in Hlen.
  apply Forall_cons in Hall as [(Hk & Ht & Hst) Hall]. apply Forall_cons in Hw as [Hw0 Hw].
  destruct (transition_up_clean f (code e) now c previous Hk Ht Hst Hw0)
    as (f' & Hup & _ & Hk' & Hst').
  rewrite Hup. cbn [fst snd].
  set (n := saturating_add_u32 c 1) in *.
  set (a1 := match rule_trigger r with Hotkey _ => a | Tap _ => _ end).
  destruct (IH fsms a1) as (fsms' & -> & Hall' & Hlen'); [lia|done..|].
  eexists. split; [|split; [by constructor; [split; [done|by left]|]|simpl; lia]].
  f_equal. unfold a1, tap_rule_matches.
  destruct (rule_trigger r) as [h|t]; [done|].
  destruct a as [x|]; [rewrite (bool_decide_false (Some x = None)) by done; done|].
  rewrite (bool_decide_true (None = None)) by done. cbn [andb].
  destruct (_ && _); done.
Qed.

(** Modifier presses are never owned. *)
Lemma modifier_unowned m d k : MatcherInv m → is_modifier k = true → unowned m (d, k).
Proof.
  intros Hinv Hk. split.
  - intros H%(inv_swallowed_key _ Hinv). congruence.
  - intros H%(inv_forwarded_key _ Hinv). congruence.
Qed.

(** The matcher is ready for the next tap: no modifier of the device is held,
    and the device's machines remember [c] taps. *)
Record tap_ready (rules : list Rule) (d : DeviceId) (k : KeyCode) (c : Z)
    (previous : option Z) (m : Matcher) : Prop := {
  tr_inv : MatcherInv m;
  tr_rules : m_rules m = RuleSet_new rules;
  tr_idle : ∀ k', m_modifier_state m !! (d, k') ≠ Some true;
  tr_fsms : ∃ fsms,
    match m_tap_fsms m !! d with
    | Some fsms => Some fsms
    | None => new_fsms (m_rules m)
    end = Some fsms ∧
    Forall (streaking k c previous) fsms ∧
    fsm_within <$> fsms = tap_windows (m_rules m);
}.

(** The matcher in the middle of a tap. *)
Record tap_held (rules : list Rule) (d : DeviceId) (k : KeyCode) (c : Z)
    (previous : option Z) (m : Matcher) : Prop := {
  th_inv : MatcherInv m;
  th_rules : m_rules m = RuleSet_new rules;
  th_only : ∀ k', m_modifier_state m !! (d, k') = Some true → k' = k;
  th_down : m_modifier_state m !! (d, k) = Some true;
  th_fsms : ∃ fsms, m_tap_fsms m !! d = Some fsms ∧ Forall (pressed k c previous) fsms ∧
    fsm_within <$> fsms = tap_windows (m_rules m);
}.

Lemma length_tap_windows rs : RuleSetInv rs → length (tap_windows rs) = length (rs_taps rs).
Proof.
  intros [_ Ht]. unfold tap_windows. induction Ht as [|r l Hr _ IH]; [done|].
  unfold is_hotkey in Hr. csimpl. destruct (rule_trigger r); [done|]. simpl. by f_equal.
Qed.

Lemma dispatch_tap_down rules d k c previous m app ms now :
  tap_ready rules d k c previous m → is_modifier k = true →
  other_modifiers k ms = false →
  ∃ m', dispatch_device m d (mkKeyEvent k KeyDown ms) app now = Some (m', Verdict_Pass) ∧
    tap_held rules d k c previous m'.
Proof.
  intros [Hinv Hr Hidle (fsms & Hfsms & Hst & Hwin)] Hk Ho.
  set (e := mkKeyEvent k KeyDown ms).
  destruct (dispatch_device m d e app now) as [[m' v]|] eqn:Hd.
  2: { by destruct (dispatch_device_total m d e app now Hinv) as [? ?]; simplify_eq. }
  exists m'. apply dispatch_device_inv in Hd as Hinv'; [|done].
  rewrite dispatch_unowned in Hd by (done || by apply modifier_unowned).
  rewrite Hfsms, reconcile_spec in Hd. unfold e in Hd.
  cbn [mbind option_bind code kind] in Hd. rewrite Hk in Hd.
  unfold dispatch_modifier, event_is_down in Hd.
  cbn [code kind mods fst m_modifier_state m_rules m_tap_fsms set_tap_fsms set_modifier_state
       refresh_delivery_active set_active set_forwarded set_pending] in Hd.
  assert (default false (m_modifier_state m !! (d, k)) = false) as Hw.
  { specialize (Hidle k). by destruct (m_modifier_state m !! (d, k)) as [[]|]. }
  assert (other_modifier_down (<[(d, k) := true]> (m_modifier_state m)) d k = false) as Hom.
  { apply not_true_iff_false. rewrite other_modifier_down_spec. intros (k' & Hne & Hl).
    rewrite lookup_insert_ne in Hl by congruence. by apply (Hidle k'). }
  rewrite Hw, Hom in Hd. cbn [andb negb] in Hd. fold e in Hd.
  destruct (tap_loop_press (rs_taps (m_rules m)) fsms e k app now c previous None eq_refl Ho Hst)
    as (fsms' & Hl & Hp & Hlen).
  rewrite Hl in Hd. injection Hd as <- <-. split; [done|]. split; simpl; try done.
  - intros k' Hk'. destruct (decide (k' = k)); [done|].
    rewrite lookup_insert_ne in Hk' by congruence. by apply Hidle in Hk'.
  - apply lookup_insert_eq.
  - exists fsms'. rewrite lookup_insert_eq, (tap_loop_windows _ _ _ _ _ _ _ _ _ _ Hl).
    split_and!; [done| |done]. rewrite take_ge in Hp; [done|].
    rewrite Hlen, <- (length_fmap fsm_within fsms), Hwin, length_tap_windows; [done|].
    apply inv_rules, Hinv.
Qed.

Lemma dispatch_tap_up rules d k c previous m app ms now :
  tap_held rules d k c previous m → is_modifier k = true →
  (∀ w, w ∈ tap_windows (RuleSet_new rules) →
     from_option (λ t, 0 ≤ now - t ≤ w) True previous) →
  let n := saturating_add_u32 c 1 in
  ∃ m', dispatch_device m d (mkKeyEvent k KeyUp ms) app now =
      Some (m', match List.find (tap_rule_matches k n app) rules with
                | Some r => Verdict_Replace (rule_action r)
                | None => Verdict_Pass
                end) ∧
    tap_ready rules d k n (Some now) m'.
Proof.
  intros [Hinv Hr Honly Hdown (fsms & Hfsms & Hst & Hwin)] Hk Htime n.
  set (e := mkKeyEvent k KeyUp ms).
  destruct (dispatch_device m d e app now) as [[m' v]|] eqn:Hd.
  2: { by destruct (dispatch_device_total m d e app now Hinv) as [? ?]; simplify_eq. }
  exists m'. apply dispatch_device_inv in Hd as Hinv'; [|done].
  rewrite dispatch_unowned in Hd by (done || by apply modifier_unowned).
  rewrite Hfsms, reconcile_spec in Hd. unfold e in Hd.
  cbn [mbind option_bind code kind] in Hd. rewrite Hk in Hd.
  unfold dispatch_modifier, event_is_down in Hd.
  cbn [code kind mods fst m_modifier_state m_rules m_tap_fsms set_tap_fsms set_modifier_state
       refresh_delivery_active set_active set_forwarded set_pending] in Hd.
  rewrite Hdown in Hd. cbn [default from_option id andb] in Hd. fold e in Hd.
  destruct (tap_loop_up (rs_taps (m_rules m)) fsms e k app now c previous None eq_refl)
    as (fsms' & Hl & Hp & Hlen); [|done|..].
  { rewrite <- (length_fmap fsm_within fsms), Hwin. apply length_tap_windows, Hinv. }
  { apply Forall_forall. intros f Hf. apply Htime. rewrite <- Hr, <- Hwin.
    apply list_elem_of_fmap. eauto. }
  rewrite Hl, Hr, find_tap in Hd. fold n in Hd.
  assert (tap_ready rules d k n (Some now) m') as Hready.
  { assert (m_rules m' = m_rules m ∧
      m_modifier_state m' = <[(d, k) := false]> (m_modifier_state m) ∧
      m_tap_fsms m' !! d = Some fsms') as (E1 & E2 & E3).
    { destruct (rule_action <$> _); simplify_eq/=; rewrite lookup_insert_eq; done. }
    split; [done|by rewrite E1|..].
    - intros k'. rewrite E2. destruct (decide (k' = k)) as [->|Hne];
        [by rewrite lookup_insert_eq|].
      rewrite lookup_insert_ne by congruence. by intros ?%Honly.
    - exists fsms'. rewrite E1, E3, (tap_loop_windows _ _ _ _ _ _ _ _ _ _ Hl). done. }
  destruct (List.find _ rules); simpl in Hd; by simplify_eq.
Qed.

Lemma dispatch_taps_run rules d k c previous m app taps :
  tap_ready rules d k c previous m → is_modifier k = true →
  Forall (λ p, other_modifiers k (tap_down_mods p) = false) taps →
  (∀ w, w ∈ tap_windows (RuleSet_new rules) → in_time w previous taps) →
  dispatch_taps m d k app taps = Some (tap_verdicts rules k app c taps).
Proof.
  revert c previous m. induction taps as [|p taps IH]; intros c previous m Hr Hk Hall Ht; [done|].
  apply Forall_cons in Hall as [Hp Hall]. simpl.
  destruct (dispatch_tap_down rules d k c previous m app (tap_down_mods p) (tap_down_at p)
    Hr Hk Hp) as (m1 & -> & Hh). simpl.
  destruct (dispatch_tap_up rules d k c previous m1 app (tap_up_mods p) (tap_up_at p) Hh Hk)
    as (m2 & -> & Hr2); [intros w Hw; by destruct (Ht w Hw)|]. simpl.
  rewrite (IH (saturating_add_u32 c 1) (Some (tap_up_at p)) m2); [done..|]. intros w Hw. by destruct (Ht w Hw).
Qed.

(** Tap rules fire on exactly the tap they ask for. When a device has no
    modifier down and no tap in progress, then pressing and releasing modifier
    [k] again and again (no other modifier held at a press, consecutive
    releases within the window of every tap rule) passes every press, and
    answers the n-th release with the action of the first rule of the
    configuration that asks for [n] taps of [k] in the focused application, and
    with a pass when no rule does. *)
Theorem tap_rules_fire rules0 tr rules m d k app taps :
  matcher_run (Matcher_new (RuleSet_new rules0)) tr m →
  m_rules m = RuleSet_new rules → is_modifier k = true →
  m_tap_fsms m !! d = None → (∀ k', m_modifier_state m !! (d, k') ≠ Some true) →
  Forall (λ p, other_modifiers k (tap_down_mods p) = false) taps →
  (∀ r t, r ∈ rules → rule_trigger r = Tap t →
     in_time (from_millis (tt_within_ms t)) None taps) →
  dispatch_taps m d k app taps = Some (tap_verdicts rules k app 0 taps).
Proof.
  intros Hinv%matcher_run_inv Hr Hk Hf Hidle Hall Htime; [|auto with sledge].
  apply (dispatch_taps_run rules d k 0 None); [|done..|].
  - split; [done..|]. rewrite Hf.
    destruct (new_fsms_total (m_rules m) (inv_rules _ Hinv)) as [fsms Hfsms].
    exists fsms. split_and!; [done| |by apply new_fsms_windows; [apply inv_rules|]].
    unfold new_fsms in Hfsms. apply mapM_Some in Hfsms.
    apply Forall_forall. intros f Hin. apply list_elem_of_lookup in Hin as [i Hi].
    destruct (Forall2_lookup_r _ _ _ _ _ Hfsms Hi) as (r & _ & Hm).
    destruct (rule_trigger r) as [|t]; [done|]. injection Hm as <-.
    split; [by split|by right].
  - intros w Hw. unfold tap_windows in Hw.
    apply list_elem_of_omap in Hw as (r & Hin & Hm).
    destruct (rule_trigger r) as [|t] eqn:Ht; [done|]. injection Hm as <-.
    apply (Htime r t); [|done]. rewrite RuleSet_new_partition in Hin. simpl in Hin.
    by apply list_elem_of_filter in Hin as [_ ?].
Qed.

(** ** Witnesses *)

(** Two taps of the right Alt key select a layout; Alt+K sends Alt+T. *)
Definition two_tap_rule : Rule :=
  mkRule (Tap (mkTapTrigger RightAlt 2 800)) (SetInputSource "us") None.
Definition sample_rules : list Rule := [two_tap_rule; alt_k_rule].

Lemma tap_rules_fire_witness :
  dispatch_taps (Matcher_new (RuleSet_new sample_rules)) 7 RightAlt None two_alt_taps =
    Some (tap_verdicts sample_rules RightAlt None 0 two_alt_taps) ∧
  tap_verdicts sample_rules RightAlt None 0 two_alt_taps =
    [(Verdict_Pass, Verdict_Pass); (Verdict_Pass, Verdict_Replace (SetInputSource "us"))].
Proof.
  split; [|reflexivity].
  apply (tap_rules_fire sample_rules [] sample_rules); try done.
  - apply run_nil.
  - repeat constructor.
  - intros r t Hr Ht.
    assert (t = mkTapTrigger RightAlt 2 800) as ->.
    { apply elem_of_cons in Hr as [->|Hr]; [by injection Ht|].
      apply list_elem_of_singleton in Hr as ->. done. }
    cbn. unfold from_millis. lia.
Defined.

Lemma first_hotkey_wins_witness :
  ∃ m', dispatch_device (Matcher_new (RuleSet_new sample_rules)) 7 alt_k_down None 0 =
          Some (m', Verdict_Replace (SendKey KeyT ALT)) ∧
        (7, KeyK) ∈ m_swallowed_downs m'.
Proof.
  destruct (dispatch_device (Matcher_new (RuleSet_new sample_rules)) 7 alt_k_down None 0)
    as [[m' v]|] eqn:Hd; [|by vm_compute in Hd].
  exists m'.
  destruct (first_hotkey_wins sample_rules [] sample_rules _ 7 alt_k_down None 0 m' v
    (run_nil _) eq_refl eq_refl eq_refl ltac:(split; set_solver) Hd)
    as [(r & Hr & -> & Hs)|(Hno & _ & _)].
  - split; [|done]. do 2 f_equal. destruct Hr as (i & Hi & Hh & _).
    destruct Hh as (h & Ht & _). by destruct i as [|[|i]]; simplify_eq/=.
  - exfalso. apply (Hno alt_k_rule); [set_solver|]. eexists. by split_and!.
Defined.

Lemma replace_is_asked_for_witness :
  ∃ m', dispatch_device (Matcher_new (RuleSet_new sample_rules)) 7 alt_k_down None 0 =
          Some (m', Verdict_Replace (SendKey KeyT ALT)) ∧
    ∃ r, r ∈ RuleSet_iter (RuleSet_new sample_rules) ∧ hotkey_hits r alt_k_down None.
Proof.
  destruct (dispatch_device (Matcher_new (RuleSet_new sample_rules)) 7 alt_k_down None 0)
    as [[m' v]|] eqn:Hd; [|by vm_compute in Hd].
  assert (v = Verdict_Replace (SendKey KeyT ALT)) as -> by (vm_compute in Hd; by simplify_eq).
  exists m'. split; [done|].
  destruct (replace_is_asked_for sample_rules [] _ 7 alt_k_down None 0 m' _ (run_nil _) Hd)
    as (r & Hr & _ & _ & Hh). by exists r.
Defined.
