(* ===== verification/Config.v ===== *)
(** * Configuration (packages/config, packages/config/models)

    The document as it is written on disk, its validation, and its compilation
    into the engine's [RuleSet]. The TOML parser is a parameter; a [HashMap] is
    a finite map, and where the code iterates over one it first sorts by name or
    takes a minimum, as modelled. *)

From stdpp Require Import pretty.
From S2P Require Import Prelude Event TapFsm Rule.

#[local] Open Scope string_scope.

(** ** The document (models/src/lib.rs) *)

Record DaemonSection : Type := mkDaemonSection { log_level : string }.

(** [default_log_level] *)
Definition default_log_level : string := "info".
Definition DaemonSection_default : DaemonSection := mkDaemonSection default_log_level.

Record LinuxAppIds : Type := mkLinuxAppIds {
  wayland : option string;
  x11_class : option string;
}.

Record AppAlias : Type := mkAppAlias {
  app_macos : option string;
  app_linux : option string;
  app_windows : option string;
  linux_ids : option LinuxAppIds;
}.

Record InputSourceAlias : Type := mkInputSourceAlias {
  src_macos : option string;
  src_linux : option string;
  src_windows : option string;
}.

Record WhenDoc : Type := mkWhenDoc { app_in : list string }.

Inductive TriggerDoc : Type :=
  | HotkeyDoc (key : string) (mods : list string)
  | TapDoc (tap : string) (count within_ms : Z).

Inductive ActionDoc : Type :=
  | SendKeyDoc (key : string) (mods : list string)
  | SetInputSourceDoc (id source : option string).

Record BindingDoc : Type := mkBindingDoc {
  doc_when : option WhenDoc;
  doc_trigger : TriggerDoc;
  doc_action : ActionDoc;
}.

Record ConfigDoc : Type := mkConfigDoc {
  daemon : DaemonSection;
  app_aliases : gmap string AppAlias;
  input_source_aliases : gmap string InputSourceAlias;
  bindings : list BindingDoc;
}.

(** ** The result (src/lib.rs) *)

Inductive Platform : Type := MacOS | Linux | Windows.

#[export] Instance Platform_eq_dec : EqDecision Platform.
Proof. solve_decision. Defined.
#[export] Instance Platform_countable : Countable Platform.
Proof.
  refine (inj_countable' (λ p, match p with MacOS => 0%Z | Linux => 1%Z | Windows => 2%Z end)
    (λ n, match n with 0%Z => MacOS | 1%Z => Linux | _ => Windows end) _).
  by intros [].
Defined.

Record Config : Type := mkConfig {
  cfg_daemon : DaemonSection;
  cfg_app_aliases : gmap string AppAlias;
  cfg_input_source_aliases : gmap string InputSourceAlias;
  cfg_rules : RuleSet;
}.

(** A native application identity; the categories never match each other. *)
Inductive AppIdentity : Type :=
  | IdMacOS (id : string)
  | IdLinuxLegacy (id : string)
  | IdLinuxWayland (id : string)
  | IdLinuxX11Class (id : string)
  | IdWindows (id : string).

#[export] Instance AppIdentity_eq_dec : EqDecision AppIdentity.
Proof. solve_decision. Defined.
#[export] Instance AppIdentity_countable : Countable AppIdentity.
Proof.
  refine (inj_countable'
    (λ i, match i with
          | IdMacOS s => (0%Z, s) | IdLinuxLegacy s => (1%Z, s)
          | IdLinuxWayland s => (2%Z, s) | IdLinuxX11Class s => (3%Z, s)
          | IdWindows s => (4%Z, s)
          end)
    (λ '(n, s), match n with
          | 0%Z => IdMacOS s | 1%Z => IdLinuxLegacy s | 2%Z => IdLinuxWayland s
          | 3%Z => IdLinuxX11Class s | _ => IdWindows s
          end) _).
  by intros [].
Defined.

(** [ConfigError]; what a duplicate identifier prints is kept as the identity
    itself, and the parser's error is the parameter [T]. *)
Inductive ConfigError (T : Type) : Type :=
  | ConfigIo (path : string)
  | ConfigParse (e : T)
  | InvalidLogLevel (level : string)
  | UnknownKey (name : string) (index : nat)
  | UnknownModifier (name : string) (index : nat)
  | UnknownAlias (name : string) (index : nat)
  | TapCountTooLow (index : nat) (count : Z)
  | TapWindowZero (index : nat)
  | TapNotModifier (index : nat) (name : string)
  | InvalidInputSourceAction (index : nat)
  | UnknownInputSource (index : nat) (name : string)
  | MissingInputSourcePlatform (index : nat) (name : string) (platform : Platform)
  | EmptyIdentifier (kind name : string)
  | DuplicateIdentifier (kind : string) (identity : AppIdentity + Platform * string)
      (first second : string).
Arguments ConfigIo {T}.
Arguments ConfigParse {T}.
Arguments InvalidLogLevel {T}.
Arguments UnknownKey {T}.
Arguments UnknownModifier {T}.
Arguments UnknownAlias {T}.
Arguments TapCountTooLow {T}.
Arguments TapWindowZero {T}.
Arguments TapNotModifier {T}.
Arguments InvalidInputSourceAction {T}.
Arguments UnknownInputSource {T}.
Arguments MissingInputSourcePlatform {T}.
Arguments EmptyIdentifier {T}.
Arguments DuplicateIdentifier {T}.

(** ** Strings *)

(** [str]'s order: lexicographic on the bytes. *)
Fixpoint str_leb (a b : string) : bool :=
  match a, b with
  | EmptyString, _ => true
  | String _ _, EmptyString => false
  | String x a, String y b =>
      if bool_decide (x = y) then str_leb a b
      else bool_decide (Ascii.N_of_ascii x < Ascii.N_of_ascii y)%N
  end.

Definition str_le (a b : string) : Prop := str_leb a b = true.

#[export] Instance str_le_dec : RelDecision str_le.
Proof. intros a b. unfold str_le. apply _. Defined.

(** [id.trim().is_empty()]: nothing but Unicode white space. The text is UTF-8,
    so white space is one of these byte sequences: U+0009 to U+000D, U+0020,
    U+0085, U+00A0, U+1680, U+2000 to U+200A, U+2028, U+2029, U+202F, U+205F and
    U+3000. *)
Definition is_ws1 (a : N) : bool := bool_decide (9 ≤ a ≤ 13)%N || bool_decide (a = 32)%N.
Definition is_ws2 (a b : N) : bool :=
  bool_decide (a = 194)%N && (bool_decide (b = 133)%N || bool_decide (b = 160)%N).
Definition is_ws3 (a b c : N) : bool :=
  (bool_decide (a = 225)%N && bool_decide (b = 154)%N && bool_decide (c = 128)%N) ||
  (bool_decide (a = 226)%N && bool_decide (b = 128)%N &&
     (bool_decide (128 ≤ c ≤ 138)%N || bool_decide (c = 168)%N ||
      bool_decide (c = 169)%N || bool_decide (c = 175)%N)) ||
  (bool_decide (a = 226)%N && bool_decide (b = 129)%N && bool_decide (c = 159)%N) ||
  (bool_decide (a = 227)%N && bool_decide (b = 128)%N && bool_decide (c = 128)%N).

Fixpoint is_blank (s : string) : bool :=
  match s with
  | EmptyString => true
  | String a s =>
      let a := Ascii.N_of_ascii a in
      if is_ws1 a then is_blank s
      else
        match s with
        | EmptyString => false
        | String b s =>
            let b := Ascii.N_of_ascii b in
            if is_ws2 a b then is_blank s
            else
              match s with
              | EmptyString => false
              | String c s => is_ws3 a b (Ascii.N_of_ascii c) && is_blank s
              end
        end
  end.

(** ** Aliases (src/aliases.rs) *)

(** [AppIdentity::value] *)
Definition AppIdentity_value (i : AppIdentity) : string :=
  match i with
  | IdMacOS id | IdLinuxLegacy id | IdLinuxWayland id | IdLinuxX11Class id
  | IdWindows id => id
  end.

(** [app_identities] *)
Definition app_identities (alias : AppAlias) : list AppIdentity :=
  let linux := linux_ids alias in
  option_list (IdMacOS <$> app_macos alias) ++
  option_list (IdLinuxLegacy <$> app_linux alias) ++
  option_list (IdLinuxWayland <$> (linux ≫= wayland)) ++
  option_list (IdLinuxX11Class <$> (linux ≫= x11_class)) ++
  option_list (IdWindows <$> app_windows alias).

(** [Iterator::min] over names. *)
Fixpoint str_min (names : list string) : option string :=
  match names with
  | [] => None
  | n :: names =>
      match str_min names with
      | Some m => Some (if str_leb n m then n else m)
      | None => Some n
      end
  end.

(** [resolve_app_identity] *)
Definition resolve_app_identity (aliases : gmap string AppAlias) (identity : AppIdentity) :
    option string :=
  str_min (fst <$> filter (λ entry, identity ∈ app_identities entry.2)
                     (map_to_list aliases)).

(** [input_source_id] *)
Definition input_source_id (alias : InputSourceAlias) (platform : Platform) : option string :=
  match platform with
  | MacOS => src_macos alias
  | Linux => src_linux alias
  | Windows => src_windows alias
  end.

(** [resolve_input_source] *)
Definition resolve_input_source (aliases : gmap string InputSourceAlias) (name : string)
    (platform : Platform) : option string :=
  alias ← aliases !! name; input_source_id alias platform.

(** [resolve_alias] *)
Definition resolve_alias (aliases : gmap string AppAlias) (name : string)
    (platform : Platform) : option string :=
  a ← aliases !! name;
  match platform with
  | MacOS => app_macos a
  | Linux => app_linux a
  | Windows => app_windows a
  end.

(** [sort_unstable_by_key(|(name, _)| *name)] *)
Definition name_le {A} (x y : string * A) : Prop := str_le x.1 y.1.

#[export] Instance name_le_dec {A} : RelDecision (@name_le A).
Proof. intros x y. unfold name_le. apply _. Defined.

(** [sorted_aliases] *)
Definition sorted_aliases {A} (aliases : gmap string A) : list (string * A) :=
  merge_sort name_le (map_to_list aliases).

(** ** Names *)

(** The table of [mod_from_name]. *)
Definition MOD_NAMES : list (string * Modifiers) :=
  ([("ctrl", CTRL); ("shift", SHIFT); ("alt", ALT); ("cmd", CMD); ("meta", CMD);
    ("super", CMD); ("fn", FN);
    ("left_ctrl", LEFT_CTRL ∪ CTRL); ("right_ctrl", RIGHT_CTRL ∪ CTRL);
    ("left_shift", LEFT_SHIFT ∪ SHIFT); ("right_shift", RIGHT_SHIFT ∪ SHIFT);
    ("left_alt", LEFT_ALT ∪ ALT); ("right_alt", RIGHT_ALT ∪ ALT);
    ("left_cmd", LEFT_CMD ∪ CMD); ("right_cmd", RIGHT_CMD ∪ CMD)])%mods.

(** [mod_from_name] *)
Definition mod_from_name (name : string) : option Modifiers :=
  snd <$> List.find (λ '(n, _), bool_decide (n = name)) MOD_NAMES.

(** The table of [keycode_from_name]. *)
Definition KEY_NAMES : list (string * KeyCode) :=
  [("KeyA", KeyA); ("KeyB", KeyB); ("KeyC", KeyC); ("KeyD", KeyD); ("KeyE", KeyE);
   ("KeyF", KeyF); ("KeyG", KeyG); ("KeyH", KeyH); ("KeyI", KeyI); ("KeyJ", KeyJ);
   ("KeyK", KeyK); ("KeyL", KeyL); ("KeyM", KeyM); ("KeyN", KeyN); ("KeyO", KeyO);
   ("KeyP", KeyP); ("KeyQ", KeyQ); ("KeyR", KeyR); ("KeyS", KeyS); ("KeyT", KeyT);
   ("KeyU", KeyU); ("KeyV", KeyV); ("KeyW", KeyW); ("KeyX", KeyX); ("KeyY", KeyY);
   ("KeyZ", KeyZ); ("Digit0", Digit0); ("Digit1", Digit1); ("Digit2", Digit2);
   ("Digit3", Digit3); ("Digit4", Digit4); ("Digit5", Digit5); ("Digit6", Digit6);
   ("Digit7", Digit7); ("Digit8", Digit8); ("Digit9", Digit9); ("F1", F1);
   ("F2", F2); ("F3", F3); ("F4", F4); ("F5", F5); ("F6", F6); ("F7", F7);
   ("F8", F8); ("F9", F9); ("F10", F10); ("F11", F11); ("F12", F12); ("F13", F13);
   ("F14", F14); ("F15", F15); ("F16", F16); ("F17", F17); ("F18", F18);
   ("F19", F19); ("F20", F20); ("F21", F21); ("F22", F22); ("F23", F23);
   ("F24", F24); ("ArrowUp", ArrowUp); ("ArrowDown", ArrowDown);
   ("ArrowLeft", ArrowLeft); ("ArrowRight", ArrowRight); ("LeftShift", LeftShift);
   ("RightShift", RightShift); ("LeftCtrl", LeftCtrl); ("RightCtrl", RightCtrl);
   ("LeftAlt", LeftAlt); ("RightAlt", RightAlt); ("LeftCmd", LeftCmd);
   ("RightCmd", RightCmd); ("Fn", Fn); ("CapsLock", CapsLock); ("Return", Return);
   ("Tab", Tab); ("Space", Space); ("Backspace", Backspace); ("Delete", Delete);
   ("Escape", Escape); ("Semicolon", Semicolon); ("Quote", Quote);
   ("Comma", Comma); ("Period", Period); ("Slash", Slash);
   ("Backslash", Backslash); ("Backquote", Backquote); ("Minus", Minus);
   ("Equal", Equal); ("LeftBracket", LeftBracket); ("RightBracket", RightBracket);
   ("Home", Home); ("End", End); ("PageUp", PageUp); ("PageDown", PageDown);
   ("Insert", Insert)].

(** [keycode_from_name] *)
Definition keycode_from_name (name : string) : option KeyCode :=
  snd <$> List.find (λ '(n, _), bool_decide (n = name)) KEY_NAMES.

(** ** Validation (src/lib.rs, src/aliases.rs) *)

Section config.
Context {T : Type}.
Abbreviation Result := (result (ConfigError T)).

(** [validate_identifier] *)
Definition validate_identifier (kind name id : string) : Result unit :=
  if is_blank id then Err (EmptyIdentifier kind name) else Ok ().

(** The inner loop of [validate_app_aliases]: one alias's identities. *)
Definition validate_app_alias (seen : gmap AppIdentity string)
    (entry : string * AppAlias) : Result (gmap AppIdentity string) :=
  let '(name, alias) := entry in
  try_fold (λ seen identity,
    _ ← validate_identifier "app" name (AppIdentity_value identity);
    match seen !! identity with
    | Some first => Err (DuplicateIdentifier "app" (inl identity) first name)
    | None => Ok (<[identity := name]> seen)
    end) seen (app_identities alias).

(** [validate_app_aliases] *)
Definition validate_app_aliases (aliases : gmap string AppAlias) : Result unit :=
  _ ← try_fold validate_app_alias ∅ (sorted_aliases aliases); Ok ().

(** The inner loop of [validate_input_sources]: one alias's platforms. *)
Definition validate_input_source (seen : gmap (Platform * string) string)
    (entry : string * InputSourceAlias) : Result (gmap (Platform * string) string) :=
  let '(name, alias) := entry in
  try_fold (λ seen platform,
    match input_source_id alias platform with
    | Some id =>
        _ ← validate_identifier "input source" name id;
        match seen !! (platform, id) with
        | Some first =>
            Err (DuplicateIdentifier "input source" (inr (platform, id)) first name)
        | None => Ok (<[(platform, id) := name]> seen)
        end
    | None => Ok seen
    end) seen [MacOS; Linux; Windows].

(** [validate_input_sources] *)
Definition validate_input_sources (aliases : gmap string InputSourceAlias) : Result unit :=
  _ ← try_fold validate_input_source ∅ (sorted_aliases aliases); Ok ().

(** [validate_log_level] *)
Definition validate_log_level (level : string) : Result unit :=
  if bool_decide (level ∈ ["trace"; "debug"; "info"; "warn"; "error"]) then Ok ()
  else Err (InvalidLogLevel level).

(** [parse_keycode] *)
Definition parse_keycode (index : nat) (name : string) : Result KeyCode :=
  ok_or (keycode_from_name name) (UnknownKey name index).

(** [parse_mods] *)
Definition parse_mods (index : nat) (names : list string) : Result Modifiers :=
  try_fold (λ m name,
    bit ← ok_or (mod_from_name name) (UnknownModifier name index);
    Ok (m ∪ bit)%mods) mods_empty names.

(** [parse_trigger] *)
Definition parse_trigger (index : nat) (t : TriggerDoc) : Result Trigger :=
  match t with
  | HotkeyDoc key mods =>
      key ← parse_keycode index key;
      mods ← parse_mods index mods;
      Ok (Hotkey (mkHotkeyTrigger key mods))
  | TapDoc tap count within_ms =>
      key ← parse_keycode index tap;
      if negb (is_modifier key) then Err (TapNotModifier index tap)
      else if bool_decide (count < 2)%Z then Err (TapCountTooLow index count)
      else if bool_decide (within_ms = 0)%Z then Err (TapWindowZero index)
      else Ok (Tap (mkTapTrigger key count within_ms))
  end.

(** [parse_action] *)
Definition parse_action (index : nat) (a : ActionDoc)
    (input_sources : gmap string InputSourceAlias) (platform : Platform) : Result Action :=
  match a with
  | SendKeyDoc key mods =>
      key ← parse_keycode index key;
      mods ← parse_mods index mods;
      Ok (SendKey key mods)
  | SetInputSourceDoc (Some id) None =>
      _ ← validate_identifier "native input source" ("binding #" +:+ pretty index) id;
      Ok (SetInputSource id)
  | SetInputSourceDoc None (Some name) =>
      if bool_decide (input_sources !! name = None) then
        Err (UnknownInputSource index name)
      else
        id ← ok_or (resolve_input_source input_sources name platform)
               (MissingInputSourcePlatform index name platform);
        Ok (SetInputSource id)
  | _ => Err (InvalidInputSourceAction index)
  end.

(** [validate_when] *)
Definition validate_when (index : nat) (w : WhenDoc) (aliases : gmap string AppAlias) :
    Result (list string) :=
  _ ← try_fold (λ _ name,
        if bool_decide (is_Some (aliases !! name)) then Ok ()
        else Err (UnknownAlias name index)) () (app_in w);
  Ok (app_in w).

(** [validate_binding] *)
Definition validate_binding (aliases : gmap string AppAlias)
    (input_sources : gmap string InputSourceAlias) (platform : Platform)
    (index : nat) (b : BindingDoc) : Result Rule :=
  trigger ← parse_trigger index (doc_trigger b);
  action ← parse_action index (doc_action b) input_sources platform;
  when_app_in ← match doc_when b with
                | Some w => Some <$> validate_when index w aliases
                | None => Ok None
                end;
  Ok (mkRule trigger action when_app_in).

(** [validate] *)
Definition validate (doc : ConfigDoc) (platform : Platform) : Result Config :=
  _ ← validate_log_level (log_level (daemon doc));
  _ ← validate_app_aliases (app_aliases doc);
  _ ← validate_input_sources (input_source_aliases doc);
  rules ← try_mapi
    (validate_binding (app_aliases doc) (input_source_aliases doc) platform) 0 (bindings doc);
  Ok (mkConfig (daemon doc) (app_aliases doc) (input_source_aliases doc) (RuleSet_new rules)).

(** [parse_str_for_platform], with the TOML parser as a parameter. *)
Definition parse_str_for_platform (from_str : string → result T ConfigDoc) (text : string)
    (platform : Platform) : Result Config :=
  match from_str text with
  | Ok doc => validate doc platform
  | Err e => Err (ConfigParse e)
  end.

(** [load_from_file] on the outcome of reading the file. *)
Definition load_from_file (from_str : string → result T ConfigDoc) (path : string)
    (contents : option string) (platform : Platform) : Result Config :=
  text ← ok_or contents (ConfigIo path); parse_str_for_platform from_str text platform.
End config.

(** ** The order on names *)

Lemma str_leb_refl a : str_leb a a = true.
Proof. induction a; simpl; [done|]. by rewrite bool_decide_true. Qed.

Lemma N_of_ascii_inj x y : Ascii.N_of_ascii x = Ascii.N_of_ascii y → x = y.
Proof.
  intros H. by rewrite <- (Ascii.ascii_N_embedding x), H, Ascii.ascii_N_embedding.
Qed.

Lemma str_leb_total a b : str_leb a b = false → str_leb b a = true.
Proof.
  revert b. induction a as [|x a IH]; intros [|y b]; simpl; try done.
  case_bool_decide as H; [subst; rewrite bool_decide_true by done; apply IH|].
  rewrite (bool_decide_false (y = x)) by congruence. rewrite bool_decide_eq_false.
  intros Hn. apply bool_decide_eq_true. assert (Ascii.N_of_ascii x ≠ Ascii.N_of_ascii y).
  { intros ?%N_of_ascii_inj. done. } lia.
Qed.

Lemma str_leb_trans a b c : str_leb a b = true → str_leb b c = true → str_leb a c = true.
Proof.
  revert b c. induction a as [|x a IH]; intros [|y b] [|z c]; simpl; try done.
  repeat case_bool_decide; subst; try done; [by apply IH|..]; intros; try lia.
Qed.

Lemma str_leb_antisym a b : str_leb a b = true → str_leb b a = true → a = b.
Proof.
  revert b. induction a as [|x a IH]; intros [|y b]; simpl; try done.
  repeat case_bool_decide; subst; try done; intros; [by f_equal; apply IH|lia].
Qed.

Lemma str_min_spec l :
  match str_min l with
  | Some m => m ∈ l ∧ ∀ x, x ∈ l → str_leb m x = true
  | None => l = []
  end.
Proof.
  induction l as [|n l IH]; simpl; [done|].
  destruct (str_min l) as [m|].
  - destruct IH as [Hm Hle]. destruct (str_leb n m) eqn:Hnm.
    + split; [set_solver|]. intros x [->|Hx]%elem_of_cons; [apply str_leb_refl|].
      eapply str_leb_trans; eauto.
    + split; [set_solver|]. intros x [->|Hx]%elem_of_cons; [by apply str_leb_total|auto].
  - subst l. split; [set_solver|]. intros x [->|Hx]%elem_of_cons; [apply str_leb_refl|].
    by apply elem_of_nil in Hx.
Qed.

Lemma elem_of_sorted_aliases {A} (aliases : gmap string A) n a :
  (n, a) ∈ sorted_aliases aliases ↔ aliases !! n = Some a.
Proof.
  unfold sorted_aliases. rewrite (merge_sort_Permutation name_le), elem_of_map_to_list. done.
Qed.

Lemma NoDup_sorted_aliases {A} (aliases : gmap string A) :
  NoDup (sorted_aliases aliases).*1.
Proof.
  unfold sorted_aliases. rewrite (merge_sort_Permutation name_le).
  apply NoDup_fst_map_to_list.
Qed.

(** ** Identifier tables

    Both alias validators walk the named entries and register each entry's keys
    in a table of the keys seen so far. *)
Section register.
Context {T K : Type} `{Countable K}.
Variables (kind : string) (text : K → string) (dup : K → AppIdentity + Platform * string).

Definition register (name : string) (seen : gmap K string) (k : K) :
    result (ConfigError T) (gmap K string) :=
  _ ← validate_identifier kind name (text k);
  match seen !! k with
  | Some first => Err (DuplicateIdentifier kind (dup k) first name)
  | None => Ok (<[k := name]> seen)
  end.

Lemma register_Ok name seen k seen' :
  register name seen k = Ok seen' ↔
  is_blank (text k) = false ∧ seen !! k = None ∧ seen' = <[k := name]> seen.
Proof.
  unfold register, validate_identifier.
  destruct (is_blank (text k)); simpl; [naive_solver|].
  destruct (seen !! k); naive_solver.
Qed.

(** One entry: its keys are new and, once registered, belong to it. *)
Lemma register_keys name seen ks seen' :
  try_fold (register name) seen ks = Ok seen' →
  (∀ k, k ∈ ks → is_blank (text k) = false ∧ seen !! k = None) ∧
  (∀ k m, seen' !! k = Some m ↔ seen !! k = Some m ∨ (k ∈ ks ∧ m = name)).
Proof.
  revert seen. induction ks as [|k ks IH]; intros seen; simpl.
  { intros [= <-]. split; set_solver. }
  intros (s1 & (Hb & Hn & ->)%register_Ok & Hf)%result_bind_Ok.
  apply IH in Hf as [H1 H2]. split.
  - intros k' [->|Hk']%elem_of_cons; [done|]. destruct (H1 k' Hk') as [? Hl].
    split; [done|]. by apply lookup_insert_None in Hl as [? _].
  - intros k' m. rewrite H2, lookup_insert, elem_of_cons. case_decide; naive_solver.
Qed.

Lemma register_keys_complete name seen ks :
  NoDup ks → (∀ k, k ∈ ks → is_blank (text k) = false ∧ seen !! k = None) →
  ∃ seen', try_fold (register name) seen ks = Ok seen'.
Proof.
  revert seen. induction ks as [|k ks IH]; intros seen Hnd Hk; simpl; [by eexists|].
  apply NoDup_cons in Hnd as [Hin Hnd].
  destruct (Hk k) as [Hb Hn]; [set_solver|].
  assert (register name seen k = Ok (<[k := name]> seen)) as -> by (by apply register_Ok).
  simpl. apply IH; [done|]. intros k' Hk'. destruct (Hk k') as [? ?]; [set_solver|].
  split; [done|]. rewrite lookup_insert_ne; [done|]. by intros ->.
Qed.

(** All entries. [keys] gives an entry's keys. *)
Context {A : Type} (keys : A → list K).

Definition register_entry (seen : gmap K string) (entry : string * A) :
    result (ConfigError T) (gmap K string) :=
  try_fold (register entry.1) seen (keys entry.2).

Lemma register_all seen es seen' :
  try_fold register_entry seen es = Ok seen' →
  (∀ n a k, (n, a) ∈ es → k ∈ keys a → is_blank (text k) = false) ∧
  (∀ k m, seen' !! k = Some m ↔
     seen !! k = Some m ∨ ∃ a, (m, a) ∈ es ∧ k ∈ keys a).
Proof.
  revert seen. induction es as [|[n a] es IH]; intros seen; simpl.
  { intros [= <-]. split; set_solver. }
  intros (s1 & Hs & Hf)%result_bind_Ok. unfold register_entry in Hs; simpl in Hs.
  apply register_keys in Hs as [H1 H2].
  apply IH in Hf as [H3 H4]. split.
  - intros n' a' k [[= -> ->]|Hin]%elem_of_cons Hk; [by apply H1|by eapply H3].
  - intros k m. rewrite H4, H2. setoid_rewrite elem_of_cons. naive_solver.
Qed.

Lemma register_all_complete seen es :
  (∀ a, NoDup (keys a)) → NoDup es.*1 →
  (∀ n a k, (n, a) ∈ es → k ∈ keys a → is_blank (text k) = false ∧ seen !! k = None) →
  (∀ n1 a1 n2 a2 k, (n1, a1) ∈ es → (n2, a2) ∈ es → k ∈ keys a1 → k ∈ keys a2 → n1 = n2) →
  ∃ seen', try_fold register_entry seen es = Ok seen'.
Proof.
  intros Hkeys. revert seen. induction es as [|[n a] es IH]; intros seen Hnd Hk Hu; simpl;
    [by eexists|].
  simpl in Hnd. apply NoDup_cons in Hnd as [Hn Hnd].
  destruct (register_keys_complete n seen (keys a)) as [s1 Hs1]; [done|..].
  { intros k ?. apply (Hk n a); [set_solver|done]. }
  assert (register_entry seen (n, a) = Ok s1) as -> by exact Hs1. simpl.
  apply register_keys in Hs1 as [_ H2]. apply IH; [done|..].
  - intros n' a' k Hin Hk'. destruct (Hk n' a' k) as [? Hnone]; [set_solver|done|].
    split; [done|]. destruct (s1 !! k) as [m|] eqn:Hs; [|done].
    apply H2 in Hs as [?|[Hka ->]]; [congruence|]. exfalso.
    assert (n = n') as <- by (apply (Hu n a n' a' k); set_solver).
    apply Hn. apply list_elem_of_fmap. by exists (n, a').
  - intros n1 a1 n2 a2 k Hi1 Hi2. apply (Hu n1 a1 n2 a2 k); set_solver.
Qed.
End register.

(** The two validators are instances. *)
Lemma validate_app_aliases_register {T} aliases :
  @validate_app_aliases T aliases =
  (_ ← try_fold (register_entry "app" AppIdentity_value inl app_identities)
         ∅ (sorted_aliases aliases); Ok ()).
Proof.
  unfold validate_app_aliases. f_equal. generalize (∅ : gmap AppIdentity string).
  induction (sorted_aliases aliases) as [|[n a] l IH]; intros seen; [done|]. simpl.
  unfold register_entry at 2; simpl.
  destruct (try_fold _ seen (app_identities a)); [apply IH|done].
Qed.

(** The native identifiers of a source alias, in the order they are checked. *)
Definition source_keys (alias : InputSourceAlias) : list (Platform * string) :=
  omap (λ p, pair p <$> input_source_id alias p) [MacOS; Linux; Windows].

Lemma validate_input_source_register {T} seen entry :
  @validate_input_source T seen entry =
  register_entry "input source" snd inr source_keys seen entry.
Proof.
  destruct entry as [n [m l w]]. unfold register_entry, source_keys; simpl.
  unfold register. destruct m, l, w; simpl; repeat case_match; simplify_eq/=; try done.
Qed.

Lemma try_fold_ext {E A S} (f g : S → A → result E S) s l :
  (∀ s x, f s x = g s x) → try_fold f s l = try_fold g s l.
Proof.
  intros Hfg. revert s. induction l as [|x l IH]; intros s; simpl; [done|].
  rewrite Hfg. destruct (g s x); [apply IH|done].
Qed.

Lemma app_identities_NoDup alias : NoDup (app_identities alias).
Proof.
  destruct alias as [[] [] [] [[[] []]|]]; unfold app_identities; simpl;
    repeat (constructor; [rewrite ?elem_of_cons, ?elem_of_nil; naive_solver|]); constructor.
Qed.

Lemma source_keys_NoDup alias : NoDup (source_keys alias).
Proof.
  destruct alias as [[] [] []]; unfold source_keys; simpl;
    repeat (constructor; [rewrite ?elem_of_cons, ?elem_of_nil; naive_solver|]); constructor.
Qed.

Lemma elem_of_source_keys alias p id :
  (p, id) ∈ source_keys alias ↔ input_source_id alias p = Some id.
Proof.
  unfold source_keys. rewrite list_elem_of_omap. split.
  - intros (p' & _ & (id' & Hid & [= <- <-])%fmap_Some). done.
  - intros Hid. exists p. split; [destruct p; set_solver|]. by rewrite Hid.
Qed.

(** ** What validation guarantees *)

(** No identity is claimed by two aliases, and none is blank. *)
Record aliases_wf {A K} (keys : A → list K) (text : K → string) (aliases : gmap string A) :
    Prop := {
  wf_text : ∀ n a k, aliases !! n = Some a → k ∈ keys a → is_blank (text k) = false;
  wf_unique : ∀ n1 a1 n2 a2 k, aliases !! n1 = Some a1 → aliases !! n2 = Some a2 →
    k ∈ keys a1 → k ∈ keys a2 → n1 = n2;
}.

Lemma register_sorted {T K} `{Countable K} kind text dup {A} (keys : A → list K) aliases :
  (∀ a, NoDup (keys a)) →
  is_ok (try_fold (register_entry (T:=T) kind text dup keys) ∅ (sorted_aliases aliases)) = true ↔
  aliases_wf keys text aliases.
Proof.
  intros Hkeys. split.
  - destruct (try_fold _ _ _) as [seen|] eqn:Hf; [intros _|done].
    apply register_all in Hf as [H1 H2]. split.
    + intros n a k Ha. apply (H1 n). by apply elem_of_sorted_aliases.
    + intros n1 a1 n2 a2 k Ha1 Ha2 Hk1 Hk2.
      assert (seen !! k = Some n1) as Hs1.
      { apply H2. right. exists a1. by rewrite elem_of_sorted_aliases. }
      assert (seen !! k = Some n2) as Hs2.
      { apply H2. right. exists a2. by rewrite elem_of_sorted_aliases. }
      congruence.
  - intros [Ht Hu].
    destruct (register_all_complete (T:=T) kind text dup keys ∅ (sorted_aliases aliases)) as [seen ->];
      [done|apply NoDup_sorted_aliases|..|done].
    + intros n a k Hin%elem_of_sorted_aliases Hk. split; [by eapply Ht|apply lookup_empty].
    + intros n1 a1 n2 a2 k Hi1%elem_of_sorted_aliases Hi2%elem_of_sorted_aliases.
      by apply (Hu n1 a1 n2 a2 k).
Qed.

Lemma validate_app_aliases_spec {T} aliases :
  @validate_app_aliases T aliases = Ok () ↔
  aliases_wf app_identities AppIdentity_value aliases.
Proof.
  rewrite validate_app_aliases_register, <- (register_sorted (T:=T) "app" _ inl)
    by apply app_identities_NoDup.
  destruct (try_fold _ _ _); naive_solver.
Qed.

Lemma validate_input_sources_spec {T} aliases :
  @validate_input_sources T aliases = Ok () ↔ aliases_wf source_keys snd aliases.
Proof.
  unfold validate_input_sources. rewrite (try_fold_ext _ _ _ _ validate_input_source_register).
  rewrite <- (register_sorted (T:=T) "input source" _ inr) by apply source_keys_NoDup.
  destruct (try_fold _ _ _); naive_solver.
Qed.

(** Application identities are unambiguous exactly when validation accepts
    them: [validate_app_aliases] succeeds if and only if no identity is blank
    and no two aliases claim the same identity in the same category; and then
    [resolve_app_identity] finds an alias for an identity exactly when that
    alias lists it. *)
Theorem app_identity_resolution {T} (aliases : gmap string AppAlias) :
  (@validate_app_aliases T aliases = Ok () ↔
   (∀ n a i, aliases !! n = Some a → i ∈ app_identities a →
      is_blank (AppIdentity_value i) = false) ∧
   (∀ n1 a1 n2 a2 i, aliases !! n1 = Some a1 → aliases !! n2 = Some a2 →
      i ∈ app_identities a1 → i ∈ app_identities a2 → n1 = n2)) ∧
  (@validate_app_aliases T aliases = Ok () → ∀ i n,
     resolve_app_identity aliases i = Some n ↔
     ∃ a, aliases !! n = Some a ∧ i ∈ app_identities a).
Proof.
  rewrite validate_app_aliases_spec. split.
  { split; [intros []; eauto|intros []; by split]. }
  intros [_ Hu] i n. unfold resolve_app_identity.
  set (names := fst <$> _). pose proof (str_min_spec names) as Hmin.
  assert (∀ m, m ∈ names ↔ ∃ a, aliases !! m = Some a ∧ i ∈ app_identities a) as Hnames.
  { intros m. unfold names. rewrite list_elem_of_fmap. split.
    - intros ([m' a] & -> & [? ?%elem_of_map_to_list]%list_elem_of_filter). eauto.
    - intros (a & Ha & Hi). exists (m, a). split; [done|].
      apply list_elem_of_filter. by rewrite elem_of_map_to_list. }
  rewrite <- Hnames. destruct (str_min names) as [m|]; [|rewrite Hmin; set_solver].
  destruct Hmin as [Hm _]. split; [by intros [= <-]|]. intros Hn. f_equal.
  apply Hnames in Hm as (a1 & ? & ?), Hn as (a2 & ? & ?). by eapply (Hu m a1 n a2 i).
Qed.

(** ** Rules *)

Lemma mod_from_name_lockstep name m : mod_from_name name = Some m → lockstep m = true.
Proof.
  unfold mod_from_name. intros ([n m'] & [Hin _]%List.find_some & ->)%fmap_Some. simpl.
  assert (Forall (λ '(_, m), lockstep m = true) MOD_NAMES) as Hall by (repeat constructor).
  rewrite Forall_forall in Hall. by apply (Hall (n, m')), list_elem_of_In.
Qed.

Lemma parse_mods_lockstep {T} index names m :
  @parse_mods T index names = Ok m → lockstep m = true.
Proof.
  unfold parse_mods. generalize lockstep_empty. generalize mods_empty as acc.
  induction names as [|n names IH]; intros acc Hacc; simpl; [by intros [= <-]|].
  intros (m' & (b & Hb%ok_or_Ok & [= <-])%result_bind_Ok & Hf)%result_bind_Ok.
  eapply IH; [|exact Hf]. apply lockstep_union; [done|]. by eapply mod_from_name_lockstep.
Qed.

(** What every compiled trigger, action and scope satisfies. *)
Definition trigger_wf (t : Trigger) : Prop :=
  match t with
  | Hotkey h => lockstep (hk_mods h) = true
  | Tap t => is_modifier (tt_tap t) = true ∧ (2 ≤ tt_count t)%Z ∧ tt_within_ms t ≠ 0%Z
  end.

(** A compiled source action names a non-blank native identifier. *)
Definition action_wf (a : Action) : Prop :=
  match a with
  | SendKey _ m => lockstep m = true
  | SetInputSource id => is_blank id = false
  end.

(** A scope lists only aliases of the document. *)
Definition scope_wf (aliases : gmap string AppAlias) (scope : option (list string)) : Prop :=
  ∀ names n, scope = Some names → n ∈ names → is_Some (aliases !! n).

Record rule_wf (aliases : gmap string AppAlias) (r : Rule) : Prop := {
  rw_trigger : trigger_wf (rule_trigger r);
  rw_action : action_wf (rule_action r);
  rw_scope : scope_wf aliases (rule_when_app_in r);
}.

Lemma parse_trigger_wf {T} index t tr : @parse_trigger T index t = Ok tr → trigger_wf tr.
Proof.
  destruct t as [k ms|k c w]; simpl.
  - intros (key & _ & (m & Hm%parse_mods_lockstep & [= <-])%result_bind_Ok)%result_bind_Ok.
    done.
  - intros (key & _ & H)%result_bind_Ok.
    destruct (is_modifier key) eqn:Hk; [|done]. simpl in H.
    do 2 (case_bool_decide; [done|]). simplify_eq. simpl. split; [done|lia].
Qed.

Lemma parse_action_wf {T} index a sources p act :
  aliases_wf source_keys snd sources →
  @parse_action T index a sources p = Ok act → action_wf act.
Proof.
  intros [Ht _]. destruct a as [k ms|[id|] [n|]]; simpl; try done.
  - intros (key & _ & (m & Hm%parse_mods_lockstep & [= <-])%result_bind_Ok)%result_bind_Ok.
    done.
  - unfold validate_identifier. destruct (is_blank id) eqn:Hb; [done|]. by intros [= <-].
  - case_bool_decide; [done|]. intros (id & Hid%ok_or_Ok & [= <-])%result_bind_Ok. simpl.
    unfold resolve_input_source in Hid. apply bind_Some in Hid as (al & Hal & Hid).
    apply (Ht n al (p, id) Hal). by apply elem_of_source_keys.
Qed.

Lemma validate_when_Ok {T} index w aliases names :
  @validate_when T index w aliases = Ok names ↔
  names = app_in w ∧ ∀ n, n ∈ app_in w → is_Some (aliases !! n).
Proof.
  unfold validate_when. rewrite result_bind_Ok.
  match goal with |- context [try_fold ?f () (app_in w)] =>
    assert (∀ l, try_fold f () l = Ok () ↔ ∀ n, n ∈ l → is_Some (aliases !! n)) as Hl
  end.
  { induction l as [|n l IH]; simpl; [set_solver|].
    case_bool_decide as Hn; simpl; [rewrite IH|]; split; [set_solver..|done|].
    intros Hall. exfalso. apply Hn, Hall. set_solver. }
  destruct (Hl (app_in w)) as [Hl1 Hl2]. split.
  - intros ([] & H & [= <-]). auto.
  - intros [-> H]. exists (). auto.
Qed.

Lemma validate_binding_wf {T} aliases sources p i b r :
  aliases_wf source_keys snd sources →
  @validate_binding T aliases sources p i b = Ok r → rule_wf aliases r.
Proof.
  intros Hs. unfold validate_binding.
  intros (t & Ht%parse_trigger_wf & H)%result_bind_Ok.
  apply result_bind_Ok in H as (a & Ha & H). apply parse_action_wf in Ha; [|done].
  apply result_bind_Ok in H as (w & Hw & [= <-]). split; [done..|]. simpl.
  intros names n -> Hn. destruct (doc_when b) as [wd|]; [|done].
  apply result_fmap_Ok in Hw as (ns & (-> & Hall)%validate_when_Ok & [= ->]). by apply Hall.
Qed.

(** C38. A configuration that validates is one the engine can run. Its rules are
    the bindings in order (the n-th rule compiles the n-th binding, partitioned
    by [RuleSet::new]); every tap rule names a modifier, a count of at least two
    and a positive window; every mask keeps side bits in lockstep with generic
    bits; every scope lists only declared aliases; every input source is a
    non-blank identifier; the log level is known; and the alias tables it
    carries are unambiguous. *)
Theorem validated_config_wf {T} doc p cfg :
  @validate T doc p = Ok cfg →
  (∃ rules, cfg_rules cfg = RuleSet_new rules ∧ length rules = length (bindings doc) ∧
     ∀ i b, bindings doc !! i = Some b → ∃ r, rules !! i = Some r ∧
       @validate_binding T (app_aliases doc) (input_source_aliases doc) p i b = Ok r ∧
       rule_wf (app_aliases doc) r) ∧
  log_level (cfg_daemon cfg) ∈ ["trace"; "debug"; "info"; "warn"; "error"] ∧
  aliases_wf app_identities AppIdentity_value (cfg_app_aliases cfg) ∧
  aliases_wf source_keys snd (cfg_input_source_aliases cfg).
Proof.
  unfold validate. intros ([] & Hl & H)%result_bind_Ok.
  apply result_bind_Ok in H as ([] & Ha%validate_app_aliases_spec & H).
  apply result_bind_Ok in H as ([] & Hs%validate_input_sources_spec & H).
  apply result_bind_Ok in H as (rules & [Hlen Hr]%try_mapi_lookup & [= <-]). simpl.
  split_and!; [|unfold validate_log_level in Hl; by case_bool_decide|done..].
  exists rules. split_and!; [done..|]. intros i b Hb. destruct (Hr i b Hb) as (r & ? & ?).
  exists r. split_and!; [done..|]. by eapply validate_binding_wf.
Qed.

(** The document is judged in one order and the first fault is reported:
    when the log level and the alias tables are sound, validation fails exactly
    when some binding does, with the error of the first such binding. *)
Theorem first_bad_binding_reported {T} doc p e :
  @validate_log_level T (log_level (daemon doc)) = Ok () →
  @validate_app_aliases T (app_aliases doc) = Ok () →
  @validate_input_sources T (input_source_aliases doc) = Ok () →
  @validate T doc p = Err e ↔
  ∃ i b, bindings doc !! i = Some b ∧
    validate_binding (app_aliases doc) (input_source_aliases doc) p i b = Err e ∧
    ∀ j b', (j < i)%nat → bindings doc !! j = Some b' →
      ∃ r, @validate_binding T (app_aliases doc) (input_source_aliases doc) p j b' = Ok r.
Proof.
  intros H1 H2 H3. unfold validate. rewrite H1, H2, H3. simpl.
  rewrite <- (try_mapi_Err_first _ 0). destruct (try_mapi _ _ _); naive_solver.
Qed.

(** ** Key names *)

(** The name of a key: the table read backwards. *)
Definition keycode_name (k : KeyCode) : option string :=
  fst <$> List.find (λ '(_, k'), bool_decide (k' = k)) KEY_NAMES.

Lemma KEY_NAMES_functional :
  Forall (λ '(n, k), keycode_from_name n = Some k ∧ keycode_name k = Some n) KEY_NAMES.
Proof. apply (bool_decide_unpack _). vm_compute. exact I. Qed.

Lemma keycode_from_name_iff n k :
  keycode_from_name n = Some k ↔ keycode_name k = Some n.
Proof.
  pose proof KEY_NAMES_functional as Hall. rewrite Forall_forall in Hall. split.
  - unfold keycode_from_name. intros ([n' k'] & [Hin Hb]%List.find_some & ->)%fmap_Some.
    bools. subst. by apply (Hall (n, k')), list_elem_of_In.
  - unfold keycode_name. intros ([n' k'] & [Hin Hb]%List.find_some & ->)%fmap_Some.
    bools. subst. by apply (Hall (n', k)), list_elem_of_In.
Qed.

(** Key names are exact: every key code has one name, no other text names
    it, and so no two names mean the same key. *)
Theorem key_names_exact :
  ∀ k, ∃ n, ∀ n', keycode_from_name n' = Some k ↔ n' = n.
Proof.
  intros k. assert (is_Some (keycode_name k)) as [n Hn] by (destruct k; by eexists).
  exists n. intros n'. rewrite keycode_from_name_iff, Hn. naive_solver.
Qed.

(** ** Witnesses *)

(** The document of docs/config-schema.md: Alt+K in one application, and three
    taps of the right Alt key to select a logical source. *)
Definition sample_doc : ConfigDoc :=
  mkConfigDoc DaemonSection_default
    {["ghostty" := mkAppAlias (Some "com.mitchellh.ghostty") None None
        (Some (mkLinuxAppIds (Some "com.mitchellh.ghostty") None))]}
    {["us" := mkInputSourceAlias (Some "com.apple.keylayout.US") (Some "xkb:us::eng") None]}
    [mkBindingDoc (Some (mkWhenDoc ["ghostty"])) (HotkeyDoc "KeyK" ["alt"])
       (SendKeyDoc "KeyT" ["alt"]);
     mkBindingDoc None (TapDoc "RightAlt" 3 600) (SetInputSourceDoc None (Some "us"))].

Definition sample_aliases : gmap string AppAlias := app_aliases sample_doc.

Lemma app_identity_resolution_witness :
  resolve_app_identity sample_aliases (IdLinuxWayland "com.mitchellh.ghostty") =
    Some "ghostty".
Proof.
  assert (@validate_app_aliases unit sample_aliases = Ok ()) as Hv by (vm_compute; reflexivity).
  apply (proj2 (app_identity_resolution sample_aliases) Hv). eexists.
  split; [vm_compute; reflexivity|]. apply (bool_decide_unpack _). vm_compute. exact I.
Defined.

Lemma validated_config_wf_witness :
  ∃ cfg, @validate unit sample_doc Linux = Ok cfg ∧
    ∃ rules, cfg_rules cfg = RuleSet_new rules ∧ length rules = 2%nat.
Proof.
  destruct (@validate unit sample_doc Linux) as [cfg|e] eqn:Hv; [|by vm_compute in Hv].
  exists cfg. split; [done|].
  destruct (validated_config_wf sample_doc Linux cfg Hv) as ((rules & Hr & Hlen & _) & _).
  exists rules. by split.
Defined.

(** On Windows the logical source has no identifier: binding 1 is refused. *)
Lemma first_bad_binding_reported_witness :
  @validate unit sample_doc Windows = Err (MissingInputSourcePlatform 1 "us" Windows).
Proof.
  apply (first_bad_binding_reported sample_doc Windows);
    [vm_compute; reflexivity..|].
  exists 1%nat. eexists. split; [reflexivity|]. split; [vm_compute; reflexivity|].
  intros [|j] b Hj; [|lia]. intros [= <-]. eexists. vm_compute. reflexivity.
Defined.
