(* ===== verification/Keymap.v ===== *)
(** * Native key codes

    The two tables between the platforms' key codes and [KeyCode]:
    packages/linux/src/keymap.rs (evdev) in [Module Linux] and
    packages/macos/src/keycode.rs (Carbon virtual key codes) in
    [Module MacOS]. *)

From S2P Require Import Prelude Event.

Module Linux.

(** [KEYS] *)
Definition KEYS : list (Z * KeyCode) :=
  [(1, Escape); (2, Digit1); (3, Digit2); (4, Digit3); (5, Digit4); (6, Digit5);
   (7, Digit6); (8, Digit7); (9, Digit8); (10, Digit9); (11, Digit0);
   (12, Minus); (13, Equal); (14, Backspace); (15, Tab); (16, KeyQ); (17, KeyW);
   (18, KeyE); (19, KeyR); (20, KeyT); (21, KeyY); (22, KeyU); (23, KeyI);
   (24, KeyO); (25, KeyP); (26, LeftBracket); (27, RightBracket); (28, Return);
   (29, LeftCtrl); (30, KeyA); (31, KeyS); (32, KeyD); (33, KeyF); (34, KeyG);
   (35, KeyH); (36, KeyJ); (37, KeyK); (38, KeyL); (39, Semicolon); (40, Quote);
   (41, Backquote); (42, LeftShift); (43, Backslash); (44, KeyZ); (45, KeyX);
   (46, KeyC); (47, KeyV); (48, KeyB); (49, KeyN); (50, KeyM); (51, Comma);
   (52, Period); (53, Slash); (54, RightShift); (56, LeftAlt); (57, Space);
   (58, CapsLock); (59, F1); (60, F2); (61, F3); (62, F4); (63, F5); (64, F6);
   (65, F7); (66, F8); (67, F9); (68, F10); (87, F11); (88, F12);
   (97, RightCtrl); (100, RightAlt); (102, Home); (103, ArrowUp); (104, PageUp);
   (105, ArrowLeft); (106, ArrowRight); (107, End); (108, ArrowDown);
   (109, PageDown); (110, Insert); (111, Delete); (125, LeftCmd);
   (126, RightCmd); (183, F13); (184, F14); (185, F15); (186, F16); (187, F17);
   (188, F18); (189, F19); (190, F20); (191, F21); (192, F22); (193, F23);
   (194, F24); (464, Fn)].

(** [from_evdev]: the first entry with this raw code. *)
Definition from_evdev (code : Z) : option KeyCode :=
  snd <$> List.find (λ '(raw, _), bool_decide (raw = code)) KEYS.

(** [to_evdev]: the first entry with this key. *)
Definition to_evdev (key : KeyCode) : option Z :=
  fst <$> List.find (λ '(_, mapped), bool_decide (mapped = key)) KEYS.

(** [modifier]: the mask bits a held evdev code contributes. *)
Definition modifier (code : Z) : Modifiers :=
  (match code with
   | 29 => CTRL ∪ LEFT_CTRL
   | 97 => CTRL ∪ RIGHT_CTRL
   | 42 => SHIFT ∪ LEFT_SHIFT
   | 54 => SHIFT ∪ RIGHT_SHIFT
   | 56 => ALT ∪ LEFT_ALT
   | 100 => ALT ∪ RIGHT_ALT
   | 125 => CMD ∪ LEFT_CMD
   | 126 => CMD ∪ RIGHT_CMD
   | 464 => FN
   | _ => mods_empty
   end)%mods.

End Linux.

Module MacOS.

(** [from_cg_keycode] *)
Definition from_cg_keycode (kc : Z) : option KeyCode :=
  match kc with
  | 0 => Some KeyA | 11 => Some KeyB | 8 => Some KeyC | 2 => Some KeyD
  | 14 => Some KeyE | 3 => Some KeyF | 5 => Some KeyG | 4 => Some KeyH
  | 34 => Some KeyI | 38 => Some KeyJ | 40 => Some KeyK | 37 => Some KeyL
  | 46 => Some KeyM | 45 => Some KeyN | 31 => Some KeyO | 35 => Some KeyP
  | 12 => Some KeyQ | 15 => Some KeyR | 1 => Some KeyS | 17 => Some KeyT
  | 32 => Some KeyU | 9 => Some KeyV | 13 => Some KeyW | 7 => Some KeyX
  | 16 => Some KeyY | 6 => Some KeyZ | 29 => Some Digit0 | 18 => Some Digit1
  | 19 => Some Digit2 | 20 => Some Digit3 | 21 => Some Digit4
  | 23 => Some Digit5 | 22 => Some Digit6 | 26 => Some Digit7
  | 28 => Some Digit8 | 25 => Some Digit9 | 122 => Some F1 | 120 => Some F2
  | 99 => Some F3 | 118 => Some F4 | 96 => Some F5 | 97 => Some F6
  | 98 => Some F7 | 100 => Some F8 | 101 => Some F9 | 109 => Some F10
  | 103 => Some F11 | 111 => Some F12 | 105 => Some F13 | 107 => Some F14
  | 113 => Some F15 | 106 => Some F16 | 64 => Some F17 | 79 => Some F18
  | 80 => Some F19 | 90 => Some F20 | 126 => Some ArrowUp
  | 125 => Some ArrowDown | 123 => Some ArrowLeft | 124 => Some ArrowRight
  | 56 => Some LeftShift | 60 => Some RightShift | 59 => Some LeftCtrl
  | 62 => Some RightCtrl | 58 => Some LeftAlt | 61 => Some RightAlt
  | 55 => Some LeftCmd | 54 => Some RightCmd | 63 => Some Fn
  | 57 => Some CapsLock | 36 => Some Return | 48 => Some Tab | 49 => Some Space
  | 51 => Some Backspace | 117 => Some Delete | 53 => Some Escape
  | 41 => Some Semicolon | 39 => Some Quote | 43 => Some Comma
  | 47 => Some Period | 44 => Some Slash | 42 => Some Backslash
  | 50 => Some Backquote | 27 => Some Minus | 24 => Some Equal
  | 33 => Some LeftBracket | 30 => Some RightBracket | 115 => Some Home
  | 119 => Some End | 116 => Some PageUp | 121 => Some PageDown
  | 114 => Some Insert
  | _ => None
  end.

(** [to_cg_keycode] *)
Definition to_cg_keycode (code : KeyCode) : Z :=
  match code with
  | KeyA => 0 | KeyB => 11 | KeyC => 8 | KeyD => 2 | KeyE => 14 | KeyF => 3
  | KeyG => 5 | KeyH => 4 | KeyI => 34 | KeyJ => 38 | KeyK => 40 | KeyL => 37
  | KeyM => 46 | KeyN => 45 | KeyO => 31 | KeyP => 35 | KeyQ => 12 | KeyR => 15
  | KeyS => 1 | KeyT => 17 | KeyU => 32 | KeyV => 9 | KeyW => 13 | KeyX => 7
  | KeyY => 16 | KeyZ => 6 | Digit0 => 29 | Digit1 => 18 | Digit2 => 19
  | Digit3 => 20 | Digit4 => 21 | Digit5 => 23 | Digit6 => 22 | Digit7 => 26
  | Digit8 => 28 | Digit9 => 25 | F1 => 122 | F2 => 120 | F3 => 99 | F4 => 118
  | F5 => 96 | F6 => 97 | F7 => 98 | F8 => 100 | F9 => 101 | F10 => 109
  | F11 => 103 | F12 => 111 | F13 => 105 | F14 => 107 | F15 => 113 | F16 => 106
  | F17 => 64 | F18 => 79 | F19 => 80 | F20 => 90 | F21 | F22 | F23 | F24 => 0
  | ArrowUp => 126 | ArrowDown => 125 | ArrowLeft => 123 | ArrowRight => 124
  | LeftShift => 56 | RightShift => 60 | LeftCtrl => 59 | RightCtrl => 62
  | LeftAlt => 58 | RightAlt => 61 | LeftCmd => 55 | RightCmd => 54 | Fn => 63
  | CapsLock => 57 | Return => 36 | Tab => 48 | Space => 49 | Backspace => 51
  | Delete => 117 | Escape => 53 | Semicolon => 41 | Quote => 39 | Comma => 43
  | Period => 47 | Slash => 44 | Backslash => 42 | Backquote => 50 | Minus => 27
  | Equal => 24 | LeftBracket => 33 | RightBracket => 30 | Home => 115
  | End => 119 | PageUp => 116 | PageDown => 121 | Insert => 114
  end.

(** [mapped_cg_keycode] *)
Definition mapped_cg_keycode (code : KeyCode) : option Z :=
  match code with
  | F21 | F22 | F23 | F24 => None
  | _ => Some (to_cg_keycode code)
  end.

End MacOS.

(** ** The evdev table *)

Lemma from_evdev_Some c k :
  Linux.from_evdev c = Some k → (c, k) ∈ Linux.KEYS.
Proof.
  unfold Linux.from_evdev. intros ([raw k'] & [Hin Hb]%List.find_some & ->)%fmap_Some.
  apply list_elem_of_In. by bools; subst.
Qed.

Lemma to_evdev_Some k c : Linux.to_evdev k = Some c → (c, k) ∈ Linux.KEYS.
Proof.
  unfold Linux.to_evdev. intros ([raw k'] & [Hin Hb]%List.find_some & ->)%fmap_Some.
  apply list_elem_of_In. by bools; subst.
Qed.

(** Both lookups find every entry, so the table has no duplicates. *)
Lemma KEYS_functional :
  Forall (λ '(c, k), Linux.from_evdev c = Some k ∧ Linux.to_evdev k = Some c ∧
                     0 ≤ c ≤ 767) Linux.KEYS.
Proof.
  apply (bool_decide_unpack _). vm_compute. exact I.
Qed.

Lemma KEYS_entry c k :
  (c, k) ∈ Linux.KEYS →
  Linux.from_evdev c = Some k ∧ Linux.to_evdev k = Some c ∧ 0 ≤ c ≤ 767.
Proof. pose proof KEYS_functional as H. rewrite Forall_forall in H. apply H. Qed.

Lemma from_to_evdev c k :
  Linux.from_evdev c = Some k ↔ Linux.to_evdev k = Some c.
Proof.
  split; [intros ?%from_evdev_Some%KEYS_entry|intros ?%to_evdev_Some%KEYS_entry];
    naive_solver.
Qed.

Lemma to_evdev_total k : is_Some (Linux.to_evdev k).
Proof. destruct k; by vm_compute; eexists. Qed.

(** The codes with a nonempty mask. *)
Lemma modifier_cases c :
  Linux.modifier c = mods_empty ∨
  c ∈ ([29; 97; 42; 54; 56; 100; 125; 126; 464] : list Z).
Proof.
  unfold Linux.modifier.
  repeat (case_match; try (by left); try (right; set_solver)).
Qed.

(** What [modifier] contributes is the key's side bit and its generic bit. *)
Lemma modifier_of_key c k :
  Linux.from_evdev c = Some k →
  Linux.modifier c =
    if mods_is_empty (modifier_bit k) then mods_empty
    else (generic_bit k ∪ modifier_bit k)%mods.
Proof.
  intros Hk%from_to_evdev. revert c Hk.
  destruct k; intros c Hc; vm_compute in Hc; injection Hc as <-; reflexivity.
Qed.

Lemma modifier_lockstep c : lockstep (Linux.modifier c) = true.
Proof.
  destruct (modifier_cases c) as [->|H]; [done|].
  repeat (apply elem_of_cons in H as [->|H]; [done|]). by apply elem_of_nil in H.
Qed.

(** A code carries the side bit of key [k] exactly when it is [k]'s code. *)
Lemma modifier_contains_bit c k :
  mods_is_empty (modifier_bit k) = false →
  mods_contains (Linux.modifier c) (modifier_bit k) = true ↔
  Linux.from_evdev c = Some k.
Proof.
  intros Hk. rewrite from_to_evdev. destruct (modifier_cases c) as [Hc|Hc].
  - rewrite Hc. split; [by destruct k|]. intros Hto%from_to_evdev%modifier_of_key.
    rewrite Hc, Hk in Hto. by destruct k.
  - repeat (apply elem_of_cons in Hc as [->|Hc];
      [destruct k; try discriminate Hk; vm_compute; split; done|]).
    by apply elem_of_nil in Hc.
Qed.

Lemma modifier_spec c :
  Linux.modifier c =
    match Linux.from_evdev c with
    | Some k => if mods_is_empty (modifier_bit k) then mods_empty
                else (generic_bit k ∪ modifier_bit k)%mods
    | None => mods_empty
    end.
Proof.
  destruct (Linux.from_evdev c) as [k|] eqn:Hk; [by apply modifier_of_key|].
  destruct (modifier_cases c) as [->|Hc]; [done|].
  repeat (apply elem_of_cons in Hc as [->|Hc]; [by vm_compute in Hk|]).
  by apply elem_of_nil in Hc.
Qed.

(** The evdev table is a bijection between the key codes and their evdev
    codes: every key has a code, inside the broker's [MAX_KEY] bound,
    [from_evdev] and [to_evdev] invert each other, and [modifier] gives a code
    exactly the side and generic bits that the core assigns to its key, and
    nothing to a code without a key or to a key without a mask bit. *)
Theorem evdev_table_bijective :
  (∀ k, ∃ c, Linux.to_evdev k = Some c ∧ 0 ≤ c ≤ 767) ∧
  (∀ c k, Linux.from_evdev c = Some k ↔ Linux.to_evdev k = Some c) ∧
  (∀ c, Linux.modifier c =
    match Linux.from_evdev c with
    | Some k => if mods_is_empty (modifier_bit k) then mods_empty
                else (generic_bit k ∪ modifier_bit k)%mods
    | None => mods_empty
    end).
Proof.
  split_and!; [|apply from_to_evdev|apply modifier_spec].
  intros k. destruct (to_evdev_total k) as [c Hc]. exists c. split; [done|].
  by apply to_evdev_Some, KEYS_entry in Hc as (_ & _ & ?).
Qed.

(** ** The Carbon table *)

Lemma from_to_cg_keycode k :
  k ∉ [F21; F22; F23; F24] → MacOS.from_cg_keycode (MacOS.to_cg_keycode k) = Some k.
Proof. intros Hk. destruct k; try reflexivity; exfalso; apply Hk; set_solver. Qed.

(** The Carbon table round-trips on every key it claims to support:
    [mapped_cg_keycode] is undefined exactly for F21 to F24, its codes are
    virtual key codes ([u16]), [from_cg_keycode] inverts it, and every native
    code that is recognised is the mapped code of its key. *)
Theorem cg_table_roundtrip :
  (∀ k, MacOS.mapped_cg_keycode k = None ↔ k ∈ [F21; F22; F23; F24]) ∧
  (∀ c k, MacOS.from_cg_keycode c = Some k ↔ MacOS.mapped_cg_keycode k = Some c) ∧
  (∀ c k, MacOS.mapped_cg_keycode k = Some c → is_u16 c).
Proof.
  split_and!.
  - intros k. rewrite !elem_of_cons, elem_of_nil.
    destruct k; simpl; split; naive_solver.
  - intros c k. split.
    + unfold MacOS.from_cg_keycode. repeat (case_match; try done);
        intros [= <-]; reflexivity.
    + destruct k; intros [= <-]; reflexivity.
  - intros c k. destruct k; intros [= <-]; done.
Qed.
