(* ===== verification/Bytes.v ===== *)
(** * Byte buffers

    What the wire formats use of Rust's byte arrays: slices, [copy_from_slice]
    into a zeroed buffer, little-endian integers ([to_le_bytes] and
    [from_le_bytes], coqutil's [le_split] and [le_combine]) and the round trips
    that the frame codecs rest on. *)

From Stdlib Require Import Strings.Byte.
From coqutil Require Word.LittleEndianList Byte.
From S2P Require Import Prelude.
Import Byte(byte).

#[export] Instance byte_eq_dec : EqDecision byte := Byte.byte_eq_dec.

(** A byte as its unsigned value, and back. *)
Definition byte_val (b : byte) : Z := coqutil.Byte.byte.unsigned b.
Definition byte_of (z : Z) : byte := coqutil.Byte.byte.of_Z z.

(** [[0; n]] *)
Definition zeroed (n : nat) : list byte := replicate n x00.
(** [bytes[a..b]] *)
Definition slice (a b : nat) (bs : list byte) : list byte := take (b - a) (drop a bs).
(** [bytes[off..off + data.len()].copy_from_slice(data)] *)
Definition copy_at (off : nat) (data bs : list byte) : list byte :=
  take off bs ++ data ++ drop (off + length data) bs.

(** [uN::to_le_bytes] and [uN::from_le_bytes], [n] in bytes. *)
Definition to_le (n : nat) (z : Z) : list byte := LittleEndianList.le_split n z.
Definition from_le (bs : list byte) : Z := LittleEndianList.le_combine bs.
(** [i32::from_le_bytes]: the two's complement reading. *)
Definition from_le_i32 (bs : list byte) : Z :=
  let u := from_le bs in if bool_decide (u < 2 ^ 31) then u else u - 2 ^ 32.

#[global] Arguments to_le : simpl never.
#[global] Arguments from_le : simpl never.
#[global] Arguments from_le_i32 : simpl never.

(** ** Little-endian round trips *)

Lemma length_to_le n z : length (to_le n z) = n.
Proof. apply LittleEndianList.length_le_split. Qed.

Lemma from_to_le n z : 0 ≤ z < 2 ^ (8 * Z.of_nat n) → from_le (to_le n z) = z.
Proof.
  intros H. unfold from_le, to_le. rewrite LittleEndianList.le_combine_split.
  rewrite Z.mod_small; [done|]. by rewrite (Z.mul_comm _ 8).
Qed.

Lemma to_from_le n bs : length bs = n → to_le n (from_le bs) = bs.
Proof. intros <-. apply LittleEndianList.split_le_combine. Qed.

Lemma from_le_bound bs : 0 ≤ from_le bs < 2 ^ (8 * Z.of_nat (length bs)).
Proof. apply LittleEndianList.le_combine_bound. Qed.

Lemma to_le_mod n z : to_le n (z mod 2 ^ (8 * Z.of_nat n)) = to_le n z.
Proof. unfold to_le. rewrite (Z.mul_comm 8). symmetry. apply LittleEndianList.le_split_mod. Qed.

Lemma from_to_le_i32 z : is_i32 z → from_le_i32 (to_le 4 z) = z.
Proof.
  intros [Hlo Hhi]. unfold from_le_i32. rewrite <- to_le_mod.
  rewrite from_to_le by (apply Z.mod_pos_bound; lia).
  change (2 ^ (8 * Z.of_nat 4)) with (2 ^ 32) in *.
  destruct (decide (0 ≤ z)).
  - rewrite Z.mod_small by lia. by rewrite bool_decide_true.
  - replace (z mod 2 ^ 32) with (z + 2 ^ 32).
    + rewrite bool_decide_false; lia.
    + rewrite <- (Z_mod_plus_full z 1), Z.mod_small; lia.
Qed.

Lemma to_from_le_i32 bs : length bs = 4%nat → to_le 4 (from_le_i32 bs) = bs.
Proof.
  intros Hlen. rewrite <- (to_from_le 4 bs Hlen) at 2. unfold from_le_i32.
  case_bool_decide; [done|]. rewrite <- (to_le_mod 4 (_ - _)).
  change (2 ^ (8 * Z.of_nat 4)) with (2 ^ 32).
  rewrite <- (Z_mod_plus_full _ 1). replace (from_le bs - 2 ^ 32 + 1 * 2 ^ 32) with (from_le bs) by lia.
  apply (to_le_mod 4).
Qed.

Lemma from_le_u16 bs : length bs = 2%nat → is_u16 (from_le bs).
Proof. intros H. pose proof (from_le_bound bs) as Hb. by rewrite H in Hb. Qed.
Lemma from_le_u32 bs : length bs = 4%nat → is_u32 (from_le bs).
Proof. intros H. pose proof (from_le_bound bs) as Hb. by rewrite H in Hb. Qed.
Lemma from_le_u64 bs : length bs = 8%nat → is_u64 (from_le bs).
Proof. intros H. pose proof (from_le_bound bs) as Hb. by rewrite H in Hb. Qed.
Lemma from_le_is_i32 bs : length bs = 4%nat → is_i32 (from_le_i32 bs).
Proof.
  intros H. pose proof (from_le_u32 bs H) as Hb. unfold is_u32, is_i32 in *.
  unfold from_le_i32. case_bool_decide; lia.
Qed.

Lemma byte_of_val b : byte_of (byte_val b) = b.
Proof. apply coqutil.Byte.byte.of_Z_unsigned. Qed.
Lemma byte_val_of z : is_u8 z → byte_val (byte_of z) = z.
Proof.
  intros [??]. unfold byte_val, byte_of. rewrite coqutil.Byte.byte.unsigned_of_Z.
  apply Z.mod_small. lia.
Qed.
Lemma byte_val_u8 b : is_u8 (byte_val b).
Proof. apply coqutil.Byte.byte.unsigned_range. Qed.

(** ** Slices *)

Lemma length_slice a b bs : (a ≤ b ≤ length bs)%nat → length (slice a b bs) = (b - a)%nat.
Proof. intros. unfold slice. rewrite length_take, length_drop. lia. Qed.

Lemma length_zeroed n : length (zeroed n) = n.
Proof. apply length_replicate. Qed.

Lemma length_copy_at off data bs :
  (off + length data ≤ length bs)%nat → length (copy_at off data bs) = length bs.
Proof.
  intros. unfold copy_at. rewrite !length_app, length_take, length_drop. lia.
Qed.

(** [split_bytes l n H]: writes the list [l], of known length [n], as [n]
    separate bytes. *)
Ltac split_bytes l :=
  repeat (let b := fresh "b" in destruct l as [|b l]; [discriminate|]);
  (destruct l; [|discriminate]).

(** A list cut at consecutive offsets is the concatenation of its slices. *)
Lemma slice_cut a b c bs :
  (a ≤ b)%nat → (b ≤ c)%nat → slice a c bs = slice a b bs ++ slice b c bs.
Proof.
  intros. unfold slice. rewrite <- (take_drop (b - a) (take (c - a) (drop a bs))).
  rewrite take_take, skipn_firstn_comm, drop_drop. f_equal; [f_equal; lia|].
  f_equal; [lia|f_equal; lia].
Qed.

Lemma slice_all bs : slice 0 (length bs) bs = bs.
Proof. unfold slice. rewrite Nat.sub_0_r, drop_0. by rewrite firstn_all. Qed.

(** A slice of a concatenation whose parts have known lengths. *)
Lemma slice_app_l a b bs cs : (b ≤ length bs)%nat → slice a b (bs ++ cs) = slice a b bs.
Proof.
  intros. unfold slice. destruct (decide (a ≤ length bs)%nat).
  - rewrite drop_app_le by lia. rewrite take_app_le; [done|]. rewrite length_drop. lia.
  - replace (b - a)%nat with 0%nat by lia. by rewrite !take_0.
Qed.
Lemma slice_app_r a b bs cs :
  (length bs ≤ a)%nat → slice a b (bs ++ cs) = slice (a - length bs) (b - length bs) cs.
Proof.
  intros. unfold slice. rewrite drop_app_ge by lia. f_equal; lia.
Qed.
Lemma slice_full bs n : length bs = n → slice 0 n bs = bs.
Proof. intros <-. apply slice_all. Qed.

(** ** Buffers written field by field *)

(** A zeroed buffer of [n] bytes into which the fields [ws] (offset, bytes) were
    copied one after the other. *)
Definition filled (n : nat) (ws : list (nat * list byte)) : list byte :=
  foldl (λ bs w, copy_at w.1 w.2 bs) (zeroed n) ws.

(** Fields in increasing position, without overlap, from [pos] on. *)
Fixpoint ordered (n pos : nat) (ws : list (nat * list byte)) : Prop :=
  match ws with
  | [] => (pos ≤ n)%nat
  | (off, d) :: ws => (pos ≤ off)%nat ∧ ordered n (off + length d) ws
  end.

(** The buffer as the concatenation of its fields and the gaps between them. *)
Fixpoint layout (n pos : nat) (ws : list (nat * list byte)) : list byte :=
  match ws with
  | [] => zeroed (n - pos)
  | (off, d) :: ws => zeroed (off - pos) ++ d ++ layout n (off + length d) ws
  end.

Lemma ordered_le n pos ws : ordered n pos ws → (pos ≤ n)%nat.
Proof.
  revert pos. induction ws as [|[off d] ws IH]; intros pos; simpl; [done|].
  intros [? H%IH]. lia.
Qed.

Lemma filled_layout n ws : ordered n 0 ws → filled n ws = layout n 0 ws.
Proof.
  intros Hord. unfold filled.
  assert (∀ pre, ordered n (length pre) ws →
    foldl (λ bs w, copy_at w.1 w.2 bs) (pre ++ zeroed (n - length pre)) ws =
    pre ++ layout n (length pre) ws) as Hgen.
  { clear Hord. induction ws as [|[off d] ws IH]; intros pre Hord; simpl in *; [done|].
    destruct Hord as [Hpos Hord]. apply ordered_le in Hord as Hle.
    assert (copy_at off d (pre ++ zeroed (n - length pre)) =
      (pre ++ zeroed (off - length pre) ++ d) ++ zeroed (n - (off + length d))) as ->.
    { unfold copy_at, zeroed. rewrite take_app_ge, drop_app_ge by lia.
      rewrite take_replicate, drop_replicate, Nat.min_l by lia.
      rewrite <- !app_assoc. do 4 f_equal. lia. }
    assert (length (pre ++ zeroed (off - length pre) ++ d) = (off + length d)%nat) as Hlen.
    { rewrite !length_app, length_zeroed. lia. }
    rewrite <- Hlen. rewrite IH by (by rewrite Hlen). by rewrite Hlen, <- !app_assoc. }
  specialize (Hgen []). simpl in Hgen. rewrite Nat.sub_0_r in Hgen. by apply Hgen.
Qed.

Lemma lookup_copy_at off d bs i :
  (off + length d ≤ length bs)%nat →
  copy_at off d bs !! i =
    if decide (i < off)%nat then bs !! i
    else if decide (i < off + length d)%nat then d !! (i - off)%nat else bs !! i.
Proof.
  intros H. unfold copy_at. case_decide.
  { rewrite lookup_app_l by (rewrite length_take; lia). by apply lookup_take_lt. }
  rewrite lookup_app_r by (rewrite length_take; lia).
  rewrite length_take, Nat.min_l by lia. case_decide.
  - by rewrite lookup_app_l by lia.
  - rewrite lookup_app_r, lookup_drop by lia. f_equal. lia.
Qed.

(** Writes to disjoint places commute. *)
Lemma copy_at_comm o1 d1 o2 d2 bs :
  (o1 + length d1 ≤ o2)%nat → (o2 + length d2 ≤ length bs)%nat →
  copy_at o2 d2 (copy_at o1 d1 bs) = copy_at o1 d1 (copy_at o2 d2 bs).
Proof.
  intros H1 H2. apply list_eq. intros i.
  rewrite !lookup_copy_at by (rewrite ?length_copy_at; lia).
  repeat case_decide; try done; lia.
Qed.

(** A slice of a slice. *)
Lemma slice_slice a b c d bs :
  (c + b ≤ d)%nat → slice a b (slice c d bs) = slice (c + a) (c + b) bs.
Proof.
  intros H. unfold slice. rewrite skipn_firstn_comm, take_take, drop_drop.
  repeat f_equal; lia.
Qed.

Lemma slice_empty a b bs : (b ≤ a)%nat → slice a b bs = [].
Proof. intros. unfold slice. by replace (b - a)%nat with 0%nat by lia. Qed.

(** The length of a buffer built with [copy_at], for [lia]. *)
Lemma length_copy_at_eq off d bs :
  length (copy_at off d bs) =
  (Nat.min off (length bs) + (length d + (length bs - (off + length d))))%nat.
Proof. unfold copy_at. rewrite !length_app, length_take, length_drop. lia. Qed.

Ltac buf_len := rewrite ?length_copy_at_eq, ?length_to_le, ?length_zeroed; simpl length; lia.

Lemma length_layout n pos ws : ordered n pos ws → length (layout n pos ws) = (n - pos)%nat.
Proof.
  revert pos. induction ws as [|[off d] ws IH]; intros pos; simpl.
  { intros _. apply length_zeroed. }
  intros [Hp Ho]. apply ordered_le in Ho as Hle.
  rewrite !length_app, length_zeroed, IH by done. lia.
Qed.

(** ** UTF-8 *)

(** The continuation byte ranges of well-formed UTF-8. *)
Definition in_range (lo hi : Z) (b : byte) : bool :=
  bool_decide (lo ≤ byte_val b ≤ hi).

Abbreviation cont := (in_range 128 191).

(** [std::str::from_utf8] succeeds. *)
Fixpoint utf8_valid (bs : list byte) : bool :=
  match bs with
  | [] => true
  | b0 :: bs =>
      if in_range 0 127 b0 then utf8_valid bs
      else
        match bs with
        | [] => false
        | b1 :: bs =>
            if in_range 194 223 b0 then cont b1 && utf8_valid bs
            else
              match bs with
              | [] => false
              | b2 :: bs =>
                  if in_range 224 224 b0 then in_range 160 191 b1 && cont b2 && utf8_valid bs
                  else if in_range 237 237 b0 then
                    in_range 128 159 b1 && cont b2 && utf8_valid bs
                  else if in_range 225 239 b0 then cont b1 && cont b2 && utf8_valid bs
                  else
                    match bs with
                    | [] => false
                    | b3 :: bs =>
                        if in_range 240 240 b0 then
                          in_range 144 191 b1 && cont b2 && cont b3 && utf8_valid bs
                        else if in_range 241 243 b0 then
                          cont b1 && cont b2 && cont b3 && utf8_valid bs
                        else if in_range 244 244 b0 then
                          in_range 128 143 b1 && cont b2 && cont b3 && utf8_valid bs
                        else false
                    end
              end
        end
  end.
