(* ===== verification/Text.v ===== *)
(** * Text as the verification code reads it

    The parts of Rust's [str] that session.rs and lifecycle.rs use on the text files
    of the kernel and of udev: characters of UTF-8, [rfind], [split_whitespace],
    [lines], [split_once], [strip_prefix] and the integer parsers. A text is the
    list of its code points. *)

From Stdlib Require Import Strings.Byte.
From S2P Require Import Prelude Bytes.

Definition text : Type := list Z.

(** [str::chars] of well-formed UTF-8. *)
Fixpoint chars (bs : list byte) : text :=
  match bs with
  | [] => []
  | b0 :: bs =>
      if in_range 0 127 b0 then byte_val b0 :: chars bs
      else
        match bs with
        | [] => []
        | b1 :: bs =>
            let c1 := Z.land (byte_val b1) 63 in
            if in_range 194 223 b0 then Z.land (byte_val b0) 31 * 64 + c1 :: chars bs
            else
              match bs with
              | [] => []
              | b2 :: bs =>
                  let c2 := Z.land (byte_val b2) 63 in
                  if in_range 224 239 b0
                  then (Z.land (byte_val b0) 15 * 64 + c1) * 64 + c2 :: chars bs
                  else
                    match bs with
                    | [] => []
                    | b3 :: bs =>
                        ((Z.land (byte_val b0) 7 * 64 + c1) * 64 + c2) * 64 +
                          Z.land (byte_val b3) 63 :: chars bs
                    end
              end
        end
  end.

(** [str::from_utf8] *)
Definition from_utf8 (bs : list byte) : option text :=
  if utf8_valid bs then Some (chars bs) else None.

(** A literal. *)
Definition lit (s : string) : text := chars (String.list_byte_of_string s).

(** [char::is_whitespace] (Unicode White_Space) *)
Definition is_whitespace (c : Z) : bool :=
  bool_decide (9 ≤ c ≤ 13) || bool_decide (c ∈ [32; 133; 160; 5760]) ||
  bool_decide (8192 ≤ c ≤ 8202) || bool_decide (c ∈ [8232; 8233; 8239; 8287; 12288]).

(** [str::split_whitespace], with the characters of the current word. *)
Fixpoint split_words (word l : text) : list text :=
  match l with
  | [] => if bool_decide (word = []) then [] else [word]
  | c :: l =>
      if is_whitespace c
      then if bool_decide (word = []) then split_words [] l else word :: split_words [] l
      else split_words (word ++ [c]) l
  end.
Definition split_whitespace (l : text) : list text := split_words [] l.

(** The text after the last [c]: [&s[s.rfind(c)? + 1..]]. *)
Fixpoint after_last (c : Z) (l : text) : option text :=
  match l with
  | [] => None
  | x :: l =>
      match after_last c l with
      | Some rest => Some rest
      | None => if bool_decide (x = c) then Some l else None
      end
  end.

(** [str::split_once] on a character. *)
Fixpoint split_once (c : Z) (l : text) : option (text * text) :=
  match l with
  | [] => None
  | x :: l =>
      if bool_decide (x = c) then Some ([], l)
      else '(a, b) ← split_once c l; Some (x :: a, b)
  end.

(** [str::strip_prefix] *)
Fixpoint strip_prefix (prefix l : text) : option text :=
  match prefix, l with
  | [], _ => Some l
  | p :: prefix, x :: l => if bool_decide (p = x) then strip_prefix prefix l else None
  | _ :: _, [] => None
  end.

(** [str::lines]: split at each line feed, a carriage return before it dropped; the
    text after the last line feed is a line when it is not empty. *)
Definition strip_cr (line : text) : text :=
  match last line with Some 13 => removelast line | _ => line end.
Fixpoint lines_from (line l : text) : list text :=
  match l with
  | [] => if bool_decide (line = []) then [] else [line]
  | c :: l =>
      if bool_decide (c = 10) then strip_cr line :: lines_from [] l
      else lines_from (line ++ [c]) l
  end.
Definition lines (l : text) : list text := lines_from [] l.

(** [char::to_digit] *)
Definition to_digit (radix c : Z) : option Z :=
  let d :=
    if bool_decide (48 ≤ c ≤ 57) then Some (c - 48)
    else if bool_decide (97 ≤ c ≤ 122) then Some (c - 87)
    else if bool_decide (65 ≤ c ≤ 90) then Some (c - 55) else None in
  d ← d; if bool_decide (d < radix) then Some d else None.

(** The digits after [acc], with checked arithmetic. *)
Fixpoint parse_digits (radix acc : Z) (l : text) : option Z :=
  match l with
  | [] => Some acc
  | c :: l =>
      d ← to_digit radix c;
      if bool_decide (acc * radix + d ≤ u64_max) then parse_digits radix (acc * radix + d) l
      else None
  end.

(** [u64::from_str_radix], and [str::parse::<u64>] at radix ten: a plus sign may
    precede the digits, of which there is at least one. *)
Definition parse_u64 (radix : Z) (l : text) : option Z :=
  match l with
  | [] => None
  | 43 :: (_ :: _) as l => parse_digits radix 0 (tail l)
  | _ => parse_digits radix 0 l
  end.

(** ** Lemmas *)

(** The value a sequence of digits denotes. *)
Definition digits_value (radix : Z) (ds : list Z) : Z := fold_left (λ acc d, acc * radix + d) ds 0.

(** A parsed number is not negative. *)
Lemma parse_digits_nonneg radix l : ∀ acc n,
  0 ≤ radix → 0 ≤ acc → parse_digits radix acc l = Some n → 0 ≤ n.
Proof.
  induction l as [|c l IH]; intros acc n Hr Ha; simpl; [by intros [= <-]|].
  intros (d & Hd & Hk)%bind_Some. case_bool_decide; [|done]. apply IH in Hk; [done..|].
  unfold to_digit in Hd. apply bind_Some in Hd as (d1 & Hd1 & Hd). case_bool_decide; simplify_eq.
  repeat (case_bool_decide; simplify_eq); nia.
Qed.
Lemma parse_u64_nonneg radix l n : 0 ≤ radix → parse_u64 radix l = Some n → 0 ≤ n.
Proof.
  intros Hr. assert (∀ l, parse_digits radix 0 l = Some n → 0 ≤ n) as Hd
    by (intros l'; by apply parse_digits_nonneg).
  unfold parse_u64. repeat case_match; try done; apply Hd.
Qed.

(** Decimal digits as characters. *)
Definition decimal (ds : list Z) : text := (λ d, d + 48) <$> ds.

Lemma parse_digits_decimal acc ds :
  0 ≤ acc → Forall (λ d, 0 ≤ d < 10) ds →
  fold_left (λ acc d, acc * 10 + d) ds acc ≤ u64_max →
  parse_digits 10 acc (decimal ds) = Some (fold_left (λ acc d, acc * 10 + d) ds acc).
Proof.
  intros Ha Hd. revert acc Ha. induction Hd as [|d ds Hd Hds IH]; intros acc Ha Hle; [done|].
  simpl in *. unfold to_digit. rewrite bool_decide_true by lia. simpl.
  replace (d + 48 - 48) with d by lia. rewrite bool_decide_true by lia. simpl.
  assert (acc * 10 + d ≤ fold_left (λ acc d, acc * 10 + d) ds (acc * 10 + d)) as Hmono.
  { clear -Ha Hd Hds. assert (0 ≤ acc * 10 + d) as H0 by lia. revert H0.
    generalize (acc * 10 + d). induction Hds as [|x xs Hx _ IH]; intros a H0; simpl; [lia|].
    specialize (IH (a * 10 + x) ltac:(lia)). lia. }
  rewrite bool_decide_true by lia. apply IH; [lia|done].
Qed.

Lemma parse_decimal ds :
  ds ≠ [] → Forall (λ d, 0 ≤ d < 10) ds → digits_value 10 ds ≤ u64_max →
  parse_u64 10 (decimal ds) = Some (digits_value 10 ds).
Proof.
  intros Hne Hd Hle. destruct ds as [|d ds]; [done|].
  assert (parse_u64 10 (decimal (d :: ds)) = parse_digits 10 0 (decimal (d :: ds))) as ->.
  { apply Forall_cons in Hd as [Hd _]. simpl. unfold parse_u64.
    assert (d + 48 ≠ 43) as Hn by lia. destruct (d + 48) as [|p|p]; try done.
    do 6 (destruct p as [p|p|]; try done). }
  apply parse_digits_decimal; done.
Qed.

Lemma after_last_app c l rest : c ∉ rest → after_last c (l ++ c :: rest) = Some rest.
Proof.
  intros Hc. assert (after_last c rest = None) as Hn.
  { induction rest as [|x rest IH]; [done|]. apply not_elem_of_cons in Hc as [Hx Hr]. simpl.
    rewrite IH by done. by rewrite bool_decide_false. }
  induction l as [|x l IH]; simpl; [by rewrite Hn, bool_decide_true|]. by rewrite IH.
Qed.

(** Words are read back from text that separates them by single blanks. *)
Definition word (w : text) : Prop := w ≠ [] ∧ Forall (λ c, is_whitespace c = false) w.

Lemma split_words_app cur w l :
  Forall (λ c, is_whitespace c = false) w → split_words cur (w ++ l) = split_words (cur ++ w) l.
Proof.
  intros Hw. revert cur. induction Hw as [|c w Hc Hw IH]; intros cur; simpl.
  - by rewrite app_nil_r.
  - rewrite Hc, IH. by rewrite <- app_assoc.
Qed.

(** Each word preceded by a blank. *)
Definition spaced (ws : list text) : text := ws ≫= λ w, 32 :: w.

Lemma split_words_spaced cur ws :
  Forall word ws →
  split_words cur (spaced ws) = (if bool_decide (cur = []) then [] else [cur]) ++ ws.
Proof.
  intros Hws. revert cur. induction Hws as [|w ws [Hne Hw] Hws IH]; intros cur.
  - simpl. by rewrite app_nil_r.
  - unfold spaced in *. rewrite bind_cons. simpl. rewrite split_words_app by done. simpl.
    rewrite IH, (bool_decide_false (w = [])) by done. by destruct (bool_decide (cur = [])).
Qed.

Lemma split_spaced ws : Forall word ws → split_whitespace (spaced ws) = ws.
Proof. intros. unfold split_whitespace. by rewrite split_words_spaced. Qed.

(** [str::parse] to the integer types of machine width *)
Definition parse_below (max : Z) (s : string) : option Z :=
  n ← parse_u64 10 (lit s); if bool_decide (n ≤ max) then Some n else None.
Definition parse_i32 (s : string) : option Z :=
  match lit s with
  | 45 :: (_ :: _ as digits) =>
      n ← parse_digits 10 0 digits; if bool_decide (n ≤ 2147483648) then Some (- n) else None
  | _ => parse_below 2147483647 s
  end.
