(* ===== verification/Protocol.v ===== *)
(** * The broker protocol (packages/linux/src/protocol.rs)

    Fixed-size frames between the privileged device broker and the daemon's
    backend: [Message::write] and [Message::read] over a byte stream, and the
    test that a reply answers a request. The socket's deadline arithmetic
    ([DeadlineSocket::remaining]) is modelled on the clock's reading. *)

From Stdlib Require Import Strings.Byte.
From S2P Require Import Prelude Bytes.

(** The [io::ErrorKind]s the protocol and the broker produce or pass on. *)
Inductive IoErrorKind : Type :=
  | InvalidData | UnexpectedEof | TimedOut | PermissionDenied | BrokenPipe
  | WouldBlock | ConnectionReset | ConnectionAborted | OtherKind.

#[export] Instance IoErrorKind_eq_dec : EqDecision IoErrorKind.
Proof. solve_decision. Defined.

(** [DECISION_TIMEOUT] *)
Definition DECISION_TIMEOUT : Z := from_millis 10.
Definition MAGIC : list byte := ["S"; "L"; "G"; "1"]%byte.
Definition SIZE : nat := 40.

(** [DeadlineSocket::remaining]: what is left of one aggregate frame deadline. *)
Definition remaining (deadline now : Z) : result IoErrorKind Z :=
  match checked_duration_since deadline now with
  | Some time => if bool_decide (time = 0) then Err TimedOut else Ok time
  | None => Err TimedOut
  end.

Record RawEvent : Type := mkRawEvent {
  event_type : Z;
  raw_code : Z;
  value : Z;
}.

#[export] Instance RawEvent_eq_dec : EqDecision RawEvent.
Proof. solve_decision. Defined.

(** [RawEvent::default()] *)
Definition RawEvent_default : RawEvent := mkRawEvent 0 0 0.

Inductive Operation : Type :=
  | Event | Pass | Swallow | Replace | DeviceReset | SnapshotKey | DeviceRetire.

#[export] Instance Operation_eq_dec : EqDecision Operation.
Proof. solve_decision. Defined.

(** [operation as u8] *)
Definition Operation_code (op : Operation) : byte :=
  match op with
  | Event => x01 | Pass => x02 | Swallow => x03 | Replace => x04
  | DeviceReset => x05 | SnapshotKey => x06 | DeviceRetire => x07
  end.

(** The [match bytes[4]] of [Message::read]. *)
Definition Operation_of (b : byte) : option Operation :=
  match b with
  | x01 => Some Event | x02 => Some Pass | x03 => Some Swallow
  | x04 => Some Replace | x05 => Some DeviceReset | x06 => Some SnapshotKey
  | x07 => Some DeviceRetire | _ => None
  end.

Record Message : Type := mkMessage {
  operation : Operation;
  generation : Z;
  epoch : Z;
  sequence : Z;
  event : RawEvent;
}.

#[export] Instance Message_eq_dec : EqDecision Message.
Proof. solve_decision. Defined.

(** [Message { operation, ..request }] *)
Definition with_operation (op : Operation) (m : Message) : Message :=
  mkMessage op (generation m) (epoch m) (sequence m) (event m).

(** [Message::write]: the bytes handed to [write_all]. *)
Definition Message_write (self : Message) : list byte :=
  let bytes := zeroed SIZE in
  let bytes := copy_at 0 MAGIC bytes in
  let bytes := <[4%nat := Operation_code (operation self)]> bytes in
  let bytes := copy_at 8 (to_le 8 (generation self)) bytes in
  let bytes := copy_at 16 (to_le 8 (epoch self)) bytes in
  let bytes := copy_at 24 (to_le 8 (sequence self)) bytes in
  let bytes := copy_at 32 (to_le 2 (event_type (event self))) bytes in
  let bytes := copy_at 34 (to_le 2 (raw_code (event self))) bytes in
  copy_at 36 (to_le 4 (value (event self))) bytes.

(** The body of [Message::read] once [read_exact] filled the buffer. *)
Definition Message_decode (bytes : list byte) : result IoErrorKind Message :=
  if negb (bool_decide (slice 0 4 bytes = MAGIC)) ||
     negb (bool_decide (slice 5 8 bytes = zeroed 3))
  then Err InvalidData
  else
    op ← ok_or (Operation_of (nth 4 bytes x00)) InvalidData;
    Ok (mkMessage op
      (from_le (slice 8 16 bytes))
      (from_le (slice 16 24 bytes))
      (from_le (slice 24 32 bytes))
      (mkRawEvent
        (from_le (slice 32 34 bytes))
        (from_le (slice 34 36 bytes))
        (from_le_i32 (slice 36 40 bytes)))).

(** [Message::read]: takes the frame off the front of the stream; what is left
    of the stream is the second component. *)
Definition Message_read (stream : list byte) :
    result IoErrorKind (Message * list byte) :=
  if bool_decide (length stream < SIZE)%nat then Err UnexpectedEof
  else
    m ← Message_decode (take SIZE stream);
    Ok (m, drop SIZE stream).

(** [Message::answers] *)
Definition answers (self request : Message) : bool :=
  match operation self with Pass | Swallow | Replace => true | _ => false end &&
  bool_decide (generation self = generation request) &&
  bool_decide (epoch self = epoch request) &&
  bool_decide (sequence self = sequence request).

(** ** The fields fit their widths *)

Record RawEvent_wf (e : RawEvent) : Prop := {
  wf_type : is_u16 (event_type e);
  wf_code : is_u16 (raw_code e);
  wf_value : is_i32 (value e);
}.

Record Message_wf (m : Message) : Prop := {
  wf_generation : is_u64 (generation m);
  wf_epoch : is_u64 (epoch m);
  wf_sequence : is_u64 (sequence m);
  wf_event : RawEvent_wf (event m);
}.

#[export] Instance RawEvent_wf_dec e : Decision (RawEvent_wf e).
Proof.
  refine (cast_if_and3 (decide (is_u16 (event_type e))) (decide (is_u16 (raw_code e)))
    (decide (is_i32 (value e)))); [by split|by intros []..].
Defined.

#[export] Instance Message_wf_dec m : Decision (Message_wf m).
Proof.
  refine (cast_if_and4 (decide (is_u64 (generation m))) (decide (is_u64 (epoch m)))
    (decide (is_u64 (sequence m))) (decide (RawEvent_wf (event m))));
    [by split|by intros []..].
Defined.

(** ** The codec *)

Lemma Operation_of_code op : Operation_of (Operation_code op) = Some op.
Proof. by destruct op. Qed.

Lemma Operation_code_of b op : Operation_of b = Some op → b = Operation_code op.
Proof. destruct b; intros [= <-]; done. Qed.

(** The frame as the concatenation of its fields. *)
Lemma Message_write_fields m :
  Message_write m =
  MAGIC ++ [Operation_code (operation m)] ++ zeroed 3 ++
  to_le 8 (generation m) ++ to_le 8 (epoch m) ++ to_le 8 (sequence m) ++
  to_le 2 (event_type (event m)) ++ to_le 2 (raw_code (event m)) ++
  to_le 4 (value (event m)).
Proof.
  unfold Message_write.
  pose proof (length_to_le 8 (generation m)) as H1.
  pose proof (length_to_le 8 (epoch m)) as H2.
  pose proof (length_to_le 8 (sequence m)) as H3.
  pose proof (length_to_le 2 (event_type (event m))) as H4.
  pose proof (length_to_le 2 (raw_code (event m))) as H5.
  pose proof (length_to_le 4 (value (event m))) as H6.
  generalize (Operation_code (operation m)) as c.
  generalize dependent (to_le 8 (generation m)). intros g Hg.
  generalize dependent (to_le 8 (epoch m)). intros e He.
  generalize dependent (to_le 8 (sequence m)). intros s Hs.
  generalize dependent (to_le 2 (event_type (event m))). intros t Ht.
  generalize dependent (to_le 2 (raw_code (event m))). intros k Hk.
  generalize dependent (to_le 4 (value (event m))). intros v Hv c.
  split_bytes g. split_bytes e. split_bytes s. split_bytes t. split_bytes k.
  split_bytes v. reflexivity.
Qed.

Lemma length_Message_write m : length (Message_write m) = SIZE.
Proof. rewrite Message_write_fields, !length_app, !length_to_le. reflexivity. Qed.

(** Reads one field off a frame written as a concatenation. *)
Ltac field :=
  repeat (rewrite slice_app_r by (rewrite ?length_to_le; simpl; lia);
          rewrite ?length_to_le; cbn [length MAGIC zeroed replicate Nat.sub]);
  try (rewrite slice_app_l by (rewrite ?length_to_le; simpl; lia));
  apply slice_full; rewrite ?length_to_le; reflexivity.

Lemma Message_decode_write m :
  Message_wf m → Message_decode (Message_write m) = Ok m.
Proof.
  intros [Hg He Hs [Ht Hk Hv]]. rewrite Message_write_fields. unfold Message_decode.
  set (bytes := MAGIC ++ _).
  assert (slice 0 4 bytes = MAGIC) as -> by (unfold bytes; field).
  assert (slice 5 8 bytes = zeroed 3) as -> by (unfold bytes; field).
  rewrite !bool_decide_true by done. simpl. rewrite Operation_of_code. simpl.
  assert (slice 8 16 bytes = to_le 8 (generation m)) as -> by (unfold bytes; field).
  assert (slice 16 24 bytes = to_le 8 (epoch m)) as -> by (unfold bytes; field).
  assert (slice 24 32 bytes = to_le 8 (sequence m)) as -> by (unfold bytes; field).
  assert (slice 32 34 bytes = to_le 2 (event_type (event m))) as ->
    by (unfold bytes; field).
  assert (slice 34 36 bytes = to_le 2 (raw_code (event m))) as ->
    by (unfold bytes; field).
  assert (slice 36 40 bytes = to_le 4 (value (event m))) as -> by (unfold bytes; field).
  rewrite !from_to_le, from_to_le_i32 by assumption. by destruct m as [? ? ? ? []].
Qed.

Lemma Message_write_decode bytes m :
  length bytes = SIZE → Message_decode bytes = Ok m →
  Message_wf m ∧ Message_write m = bytes.
Proof.
  intros Hlen. unfold Message_decode. destruct (_ || _) eqn:Hg; [done|]. bools.
  intros (op & Hop%ok_or_Ok & [= <-])%result_bind_Ok.
  apply Operation_code_of in Hop. unfold SIZE in Hlen.
  assert (∀ a b, (a ≤ b ≤ 40)%nat → length (slice a b bytes) = (b - a)%nat) as HL
    by (intros; apply length_slice; lia).
  split; [split; [..|split]; simpl;
    [apply from_le_u64|apply from_le_u64|apply from_le_u64|apply from_le_u16|
     apply from_le_u16|apply from_le_is_i32]; apply HL; lia|].
  rewrite Message_write_fields. simpl operation; simpl generation; simpl epoch;
    simpl sequence; simpl event; simpl event_type; simpl raw_code; simpl value.
  rewrite !to_from_le, to_from_le_i32 by (apply HL; lia).
  rewrite <- Hop, <- H, <- H0. clear -Hlen. split_bytes bytes. reflexivity.
Qed.

(** C32. The broker frame codec is exact in both directions. Every message whose
    fields fit their widths is written as one 40-byte frame that reads back as
    that message, leaving the rest of the stream untouched; and whatever
    [Message::read] accepts is a well-formed message whose encoding is exactly
    the bytes consumed, so no two frames are read as the same message. *)
Theorem message_codec_exact :
  (∀ m rest, Message_wf m →
     length (Message_write m) = SIZE ∧
     Message_read (Message_write m ++ rest) = Ok (m, rest)) ∧
  (∀ stream m rest, Message_read stream = Ok (m, rest) →
     Message_wf m ∧ stream = Message_write m ++ rest).
Proof.
  split.
  - intros m rest Hwf. split; [apply length_Message_write|]. unfold Message_read.
    rewrite length_app, length_Message_write, bool_decide_false by lia.
    rewrite take_app_length', drop_app_length' by (by rewrite length_Message_write).
    by rewrite Message_decode_write.
  - intros stream m rest. unfold Message_read. case_bool_decide as Hlen; [done|].
    intros (m' & Hd & [= <- <-])%result_bind_Ok.
    apply Message_write_decode in Hd as [? ->];
      [|rewrite length_take; unfold SIZE in *; lia].
    split; [done|]. by rewrite take_drop.
Qed.

(** What [Message::read] refuses, and with which error. *)
Lemma Message_read_Err stream e :
  Message_read stream = Err e ↔
  ((length stream < SIZE)%nat ∧ e = UnexpectedEof) ∨
  ((SIZE ≤ length stream)%nat ∧ e = InvalidData ∧
   (take 4 stream ≠ MAGIC ∨ slice 5 8 stream ≠ zeroed 3 ∨
    Operation_of (nth 4 stream x00) = None)).
Proof.
  unfold Message_read. case_bool_decide as Hlen; [naive_solver lia|].
  assert (∀ a b, (a ≤ b ≤ 40)%nat → slice a b (take SIZE stream) = slice a b stream) as HS.
  { intros. unfold slice, SIZE. rewrite skipn_firstn_comm, take_take. f_equal. lia. }
  assert (nth 4 (take SIZE stream) x00 = nth 4 stream x00) as HN.
  { unfold SIZE in *. do 5 (destruct stream as [|? stream]; [simpl in *; lia|]). done. }
  unfold Message_decode. rewrite !HS, HN by lia.
  change (slice 0 4 stream) with (take 4 (drop 0 stream)). rewrite drop_0.
  destruct (bool_decide _) eqn:H1; bools; simpl; [|naive_solver lia].
  destruct (bool_decide (slice 5 8 stream = _)) eqn:H2; bools; simpl; [|naive_solver lia].
  destruct (Operation_of _) eqn:H3; simpl; naive_solver lia.
Qed.

(** ** Witnesses *)

(** A release of key 30 on device generation 3. *)
Definition sample_message : Message :=
  mkMessage Event 3 1 258 (mkRawEvent 1 30 (-1)).

Lemma message_codec_exact_witness :
  Message_read (Message_write sample_message ++ [x2a]) = Ok (sample_message, [x2a]).
Proof.
  apply (proj2 (proj1 message_codec_exact sample_message [x2a]
    ltac:(by apply (bool_decide_unpack _)))).
Defined.
