(* ===== verification/KeyState.v ===== *)
(** * Per-proxy key ownership (packages/linux/src/state.rs)

    [KeyState] decides which key events of a grabbed keyboard reach the
    virtual output: decisions latch on key-down through key-up, output is
    speculative until the frame is committed, and everything still held is
    released before the device is let go. *)

From S2P Require Import Prelude Protocol.

(** [MAX_KEY] *)
Definition MAX_KEY : Z := 767.

Record KeyState : Type := mkKeyState {
  physical : gset Z;
  output : gset Z;
  committed_output : gset Z;
  swallowed : gset Z;
  dropping : bool;
}.

(** [KeyState::default()] *)
Definition KeyState_default : KeyState := mkKeyState ∅ ∅ ∅ ∅ false.

(** [key(code, value)] *)
Definition key (code value : Z) : RawEvent := mkRawEvent 1 code value.

(** [KeyState::commit_output] *)
Definition commit_output (s : KeyState) : KeyState :=
  mkKeyState (physical s) (output s) (output s) (swallowed s) (dropping s).

(** [KeyState::rollback_output] *)
Definition rollback_output (s : KeyState) : KeyState :=
  mkKeyState (physical s) (committed_output s) (committed_output s) (swallowed s)
    (dropping s).

(** [KeyState::press] *)
Definition press (s : KeyState) (event : RawEvent) (decision : Operation) :
    KeyState * list RawEvent :=
  let '(ph, fresh) := set_insert (raw_code event) (physical s) in
  if negb fresh then
    (mkKeyState ph (output s) (committed_output s) (swallowed s) (dropping s), [])
  else if bool_decide (decision = Pass) then
    (mkKeyState ph ({[raw_code event]} ∪ output s) (committed_output s) (swallowed s)
       (dropping s), [event])
  else
    (mkKeyState ph (output s) (committed_output s) ({[raw_code event]} ∪ swallowed s)
       (dropping s), []).

(** [KeyState::apply] *)
Definition apply (s : KeyState) (event : RawEvent) (decision : Operation) :
    KeyState * list RawEvent :=
  if negb (match decision with Pass | Swallow => true | _ => false end) then (s, [])
  else if bool_decide (event_type event = 0) && bool_decide (raw_code event = 3) then
    (mkKeyState (physical s) (output s) (committed_output s) (swallowed s) true, [])
  else if dropping s then (s, [])
  else if negb (bool_decide (event_type event = 1)) then (s, [event])
  else if bool_decide (MAX_KEY < raw_code event) ||
          negb (bool_decide (0 ≤ value event ≤ 2)) then (s, [])
  else
    match value event with
    | 0 =>
        let '(out, present) := set_remove (raw_code event) (output s) in
        (mkKeyState (physical s ∖ {[raw_code event]}) out (committed_output s)
           (swallowed s ∖ {[raw_code event]}) (dropping s),
         if present then [event] else [])
    | 2 => (s, if bool_decide (raw_code event ∈ output s) then [event] else [])
    | _ => press s event decision
    end.

(** The loop of [resync] over the keys that are physically down. *)
Fixpoint resync_loop (swallowed : gset Z) (output : gset Z) (keys : list Z) :
    gset Z * list RawEvent :=
  match keys with
  | [] => (output, [])
  | code :: keys =>
      if bool_decide (code ≤ MAX_KEY) && negb (bool_decide (code ∈ output)) &&
         negb (bool_decide (code ∈ swallowed))
      then
        let '(output, events) := resync_loop swallowed ({[code]} ∪ output) keys in
        (output, key code 1 :: events)
      else resync_loop swallowed output keys
  end.

(** [KeyState::resync] *)
Definition resync (s : KeyState) (keys : gset Z) : KeyState * list RawEvent :=
  let releases := (λ code, key code 0) <$> ascending (output s ∖ keys) in
  let out := output s ∩ keys in
  let sw := swallowed s ∩ keys in
  let '(out, presses) := resync_loop sw out (ascending keys) in
  (mkKeyState keys out (committed_output s) sw false, releases ++ presses).

(** [KeyState::release_all] *)
Definition release_all (s : KeyState) : KeyState * list RawEvent :=
  (KeyState_default,
   (λ code, key code 0) <$> ascending (output s ∪ committed_output s)).

(** ** The consumer's view

    What the reader of the virtual keyboard believes is held down. *)

Definition view_event (v : gset Z) (e : RawEvent) : gset Z :=
  if bool_decide (event_type e = 1) then
    if bool_decide (value e = 0) then v ∖ {[raw_code e]}
    else {[raw_code e]} ∪ v
  else v.

Definition view (v : gset Z) (es : list RawEvent) : gset Z := foldl view_event v es.

(** A stream the consumer cannot misread: a press only of a key that is up,
    a repeat or a release only of a key that is down. *)
Fixpoint alternates (v : gset Z) (es : list RawEvent) : Prop :=
  match es with
  | [] => True
  | e :: es =>
      (event_type e = 1 →
         (value e = 1 ∧ raw_code e ∉ v) ∨
         ((value e = 0 ∨ value e = 2) ∧ raw_code e ∈ v)) ∧
      alternates (view_event v e) es
  end.

Lemma view_app v es es' : view v (es ++ es') = view (view v es) es'.
Proof. apply foldl_app. Qed.

Lemma alternates_app v es es' :
  alternates v (es ++ es') ↔ alternates v es ∧ alternates (view v es) es'.
Proof.
  revert v. induction es as [|e es IH]; intros v; simpl; [tauto|].
  rewrite IH. unfold view. simpl. tauto.
Qed.

Lemma view_releases v ks : view v ((λ c, key c 0) <$> ks) = v ∖ list_to_set ks.
Proof.
  revert v. induction ks as [|k ks IH]; intros v; simpl; [set_solver|].
  change (view (v ∖ {[k]}) ((λ c, key c 0) <$> ks) = v ∖ ({[k]} ∪ list_to_set ks)).
  rewrite IH. set_solver.
Qed.

Lemma alternates_releases v ks :
  NoDup ks → (∀ k, k ∈ ks → k ∈ v) → alternates v ((λ c, key c 0) <$> ks).
Proof.
  revert v. induction ks as [|k ks IH]; intros v Hnd Hin; simpl; [done|].
  apply NoDup_cons in Hnd as [Hk Hnd]. split.
  - intros _. right. simpl. split; [by left|]. apply Hin. set_solver.
  - change (alternates (v ∖ {[k]}) ((λ c, key c 0) <$> ks)). apply IH; [done|].
    intros k' Hk'. apply elem_of_difference. split; [apply Hin; set_solver|set_solver].
Qed.

Lemma list_to_set_ascending s : list_to_set (ascending s) = s.
Proof. apply set_eq. intros x. rewrite elem_of_list_to_set. apply elem_of_ascending. Qed.

(** ** Each operation emits exactly its change of [output] *)

Lemma resync_loop_spec sw out ks out' es :
  NoDup ks → resync_loop sw out ks = (out', es) →
  out' = view out es ∧ alternates out es ∧
  out' = out ∪ filter (λ k, k ≤ MAX_KEY ∧ k ∉ sw) (list_to_set ks).
Proof.
  revert out out' es. induction ks as [|k ks IH]; intros out out' es Hnd; simpl.
  { intros [= <- <-]. split_and!; [done..|]. set_solver. }
  apply NoDup_cons in Hnd as [Hk Hnd].
  destruct (_ && _) eqn:Hg.
  - bools. destruct (resync_loop sw _ ks) as [o1 e1] eqn:Hl. intros [= <- <-].
    apply IH in Hl as (Hv & Ha & Ho); [|done]. split_and!.
    + done.
    + simpl. split; [|done]. intros _. by left.
    + rewrite Ho. apply set_eq. intros x.
      rewrite !elem_of_union, !elem_of_filter, elem_of_union, !elem_of_singleton.
      destruct (decide (x = k)); subst; tauto.
  - intros Hl. apply IH in Hl as (Hv & Ha & Ho); [|done]. split_and!; [done..|].
    rewrite Ho. apply set_eq. intros x.
    rewrite !elem_of_union, !elem_of_filter, elem_of_union, elem_of_singleton.
    apply andb_false_iff in Hg as [Hg|Hg]; [apply andb_false_iff in Hg as [Hg|Hg]|];
      bools; naive_solver.
Qed.

Lemma view_single_key v c x : view v [mkRawEvent 1 c x] =
  if bool_decide (x = 0) then v ∖ {[c]} else {[c]} ∪ v.
Proof. unfold view, view_event; simpl. done. Qed.

(** A physical key event that [apply] looks at. *)
Definition is_key_event (e : RawEvent) : bool :=
  bool_decide (event_type e = 1) && bool_decide (raw_code e ≤ MAX_KEY) &&
  bool_decide (0 ≤ value e ≤ 2).

(** [SYN_DROPPED] *)
Definition is_dropped (e : RawEvent) : bool :=
  bool_decide (event_type e = 0) && bool_decide (raw_code e = 3).

(** The broker's [Pass] or [Swallow]. *)
Definition is_decision (d : Operation) : bool :=
  match d with Pass | Swallow => true | _ => false end.

(** What is known of a state [s] whose consumer has seen [v] and whose
    uncommitted output is [p]. *)
Record frame_inv (s : KeyState) (v : gset Z) (p : list RawEvent) : Prop := {
  fi_committed : committed_output s = v;
  fi_output : output s = view v p;
  fi_alternates : alternates v p;
  fi_owned : dropping s = false →
    output s ∪ swallowed s = filter (λ k, k ≤ MAX_KEY) (physical s);
  fi_bound : ∀ k, k ∈ output s ∪ committed_output s ∪ swallowed s → k ≤ MAX_KEY;
}.

Lemma frame_inv_default : frame_inv KeyState_default ∅ [].
Proof. split; simpl; try done; set_solver. Qed.

(** A press in closed form. *)
Lemma apply_press s c x d :
  dropping s = false → is_decision d = true → c ≤ MAX_KEY → x = 1 →
  apply s (mkRawEvent 1 c x) d =
    if bool_decide (c ∈ physical s) then (s, [])
    else if bool_decide (d = Pass) then
      (mkKeyState ({[c]} ∪ physical s) ({[c]} ∪ output s) (committed_output s)
         (swallowed s) false, [mkRawEvent 1 c x])
    else (mkKeyState ({[c]} ∪ physical s) (output s) (committed_output s)
         ({[c]} ∪ swallowed s) false, []).
Proof.
  intros Hd Hdec Hc ->. unfold apply, press, set_insert; simpl.
  replace (negb _) with false by (by destruct d). rewrite Hd.
  rewrite (bool_decide_false (MAX_KEY < c)) by lia. simpl.
  case_bool_decide as Hin; simpl; [|done].
  replace ({[c]} ∪ physical s) with (physical s) by set_solver.
  destruct s; simpl in *. by rewrite Hd.
Qed.

(** The three ways [apply] treats an event while frames are not dropped. *)
Lemma apply_cases s e d :
  dropping s = false → is_decision d = true → is_dropped e = false →
  (is_key_event e = false ∧
     apply s e d = (s, if bool_decide (event_type e = 1) then [] else [e])) ∨
  (∃ c, e = mkRawEvent 1 c 0 ∧ c ≤ MAX_KEY ∧
     apply s e d =
       (mkKeyState (physical s ∖ {[c]}) (output s ∖ {[c]}) (committed_output s)
          (swallowed s ∖ {[c]}) false,
        if bool_decide (c ∈ output s) then [e] else [])) ∨
  (∃ c, e = mkRawEvent 1 c 2 ∧ c ≤ MAX_KEY ∧
     apply s e d = (s, if bool_decide (c ∈ output s) then [e] else [])) ∨
  (∃ c, e = mkRawEvent 1 c 1 ∧ c ≤ MAX_KEY ∧
     apply s e d =
       if bool_decide (c ∈ physical s) then (s, [])
       else if bool_decide (d = Pass) then
         (mkKeyState ({[c]} ∪ physical s) ({[c]} ∪ output s) (committed_output s)
            (swallowed s) false, [e])
       else (mkKeyState ({[c]} ∪ physical s) (output s) (committed_output s)
            ({[c]} ∪ swallowed s) false, [])).
Proof.
  intros Hd Hdec Hdrop. destruct e as [t c x].
  destruct (decide (t = 1)) as [->|Ht].
  2: { left. unfold is_key_event, apply; simpl. rewrite (bool_decide_false (t = 1)) by done.
       unfold is_dropped in Hdrop; simpl in Hdrop. rewrite Hdrop, Hd.
       by destruct d. }
  destruct (decide (c ≤ MAX_KEY)) as [Hc|Hc].
  2: { left. unfold is_key_event, apply; simpl. rewrite Hd.
       rewrite (bool_decide_false (c ≤ _)), (bool_decide_true (MAX_KEY < c)) by lia.
       by destruct d. }
  destruct (decide (0 ≤ x ≤ 2)) as [Hx|Hx].
  2: { left. unfold is_key_event, apply; simpl. rewrite Hd.
       rewrite (bool_decide_false (0 ≤ x ≤ 2)) by done.
       rewrite andb_false_r. simpl. rewrite orb_true_r. by destruct d. }
  right. assert (x = 0 ∨ x = 2 ∨ x = 1) as [->|[->|Hx1]] by lia.
  - left. exists c. split_and!; [done..|]. unfold apply; simpl.
    rewrite Hd, (bool_decide_false (MAX_KEY < c)) by lia. by destruct d.
  - right; left. exists c. split_and!; [done..|]. unfold apply; simpl.
    rewrite Hd, (bool_decide_false (MAX_KEY < c)) by lia. by destruct d.
  - right; right. exists c. subst x. split_and!; [done..|]. by apply apply_press.
Qed.

Lemma alternates_snoc v p e :
  alternates v p → 
  (event_type e = 1 →
     (value e = 1 ∧ raw_code e ∉ view v p) ∨
     ((value e = 0 ∨ value e = 2) ∧ raw_code e ∈ view v p)) →
  alternates v (p ++ [e]).
Proof. intros. apply alternates_app. by repeat split. Qed.

Lemma view_snoc v p e : view v (p ++ [e]) = view_event (view v p) e.
Proof. by rewrite view_app. Qed.

(** [apply] keeps the consumer's stream well formed. *)
Lemma apply_frame s v p e d s' es :
  frame_inv s v p → dropping s = false → is_decision d = true →
  is_dropped e = false → apply s e d = (s', es) →
  frame_inv s' v (p ++ es) ∧ dropping s' = false.
Proof.
  intros Hinv Hd Hdec Hdrop.
  pose proof Hinv as [Hc Ho Ha Hown Hb]. specialize (Hown Hd).
  assert (∀ k, k ∈ output s ∨ k ∈ swallowed s ↔ k ≤ MAX_KEY ∧ k ∈ physical s) as Hk.
  { intros k. rewrite <- elem_of_union, Hown, elem_of_filter. done. }
  destruct (apply_cases s e d Hd Hdec Hdrop)
    as [[He ->]|[(c & -> & Hm & ->)|[(c & -> & Hm & ->)|(c & -> & Hm & ->)]]].
  - intros [= <- <-]. split; [|done]. case_bool_decide as Ht.
    { by rewrite app_nil_r. }
    split; [done| |by apply alternates_snoc|done..].
    rewrite view_snoc. unfold view_event. by rewrite bool_decide_false.
  - intros [= <- <-]. split; [|done]. case_bool_decide as Hin.
    + split; simpl; [done| | | |set_solver].
      * rewrite view_snoc, <- Ho. done.
      * apply alternates_snoc; [done|]. rewrite <- Ho. simpl. intros _. right. auto.
      * intros _. apply set_eq. intros k. specialize (Hk k). set_solver.
    + rewrite app_nil_r. split; simpl; [done| |done| |set_solver].
      * rewrite <- Ho. set_solver.
      * intros _. apply set_eq. intros k. specialize (Hk k). set_solver.
  - intros [= <- <-]. split; [|done]. case_bool_decide as Hin; [|by rewrite app_nil_r].
    split; [done| | |done..].
    + rewrite view_snoc, <- Ho. unfold view_event; simpl. set_solver.
    + apply alternates_snoc; [done|]. rewrite <- Ho. simpl. intros _. right. auto.
  - case_bool_decide as Hin; [intros [= <- <-]; by rewrite app_nil_r|].
    case_bool_decide; intros [= <- <-]; (split; [|done]).
    + split; simpl; [done| | | |set_solver].
      * rewrite view_snoc, <- Ho. done.
      * apply alternates_snoc; [done|]. rewrite <- Ho. simpl. intros _. left.
        split; [done|]. naive_solver.
      * intros _. apply set_eq. intros k. specialize (Hk k).
        rewrite elem_of_filter. destruct (decide (k = c)); set_solver.
    + rewrite app_nil_r. split; simpl; [done..| |set_solver].
      intros _. apply set_eq. intros k. specialize (Hk k).
      rewrite elem_of_filter. destruct (decide (k = c)); set_solver.
Qed.

(** [resync] reconciles the consumer with the physical keys. *)
Lemma resync_frame s v p keys s' es :
  frame_inv s v p → resync s keys = (s', es) →
  frame_inv s' v (p ++ es) ∧ dropping s' = false ∧
  output s' = (output s ∩ keys) ∪ filter (λ k, k ≤ MAX_KEY ∧ k ∉ swallowed s) keys.
Proof.
  intros [Hc Ho Ha Hown Hb]. unfold resync.
  destruct (resync_loop _ _ _) as [out es'] eqn:Hl. intros [= <- <-].
  apply resync_loop_spec in Hl as (Hv & Hal & Hout); [|apply NoDup_ascending].
  rewrite list_to_set_ascending in Hout.
  assert (view (output s) ((λ c, key c 0) <$> ascending (output s ∖ keys)) =
          output s ∩ keys) as Hrel.
  { rewrite view_releases, list_to_set_ascending. apply set_eq. intros k.
    destruct (decide (k ∈ keys)); set_solver. }
  split_and!; [split; simpl|done|].
  - done.
  - by rewrite !view_app, <- Ho, Hrel, Hv.
  - rewrite app_assoc. apply alternates_app. rewrite view_app, <- Ho, Hrel.
    split; [|done]. apply alternates_app. split; [done|]. rewrite <- Ho.
    apply alternates_releases; [apply NoDup_ascending|].
    intros k Hk%elem_of_ascending. set_solver.
  - intros _. rewrite Hout. apply set_eq. intros k.
    specialize (Hb k). rewrite !elem_of_union in Hb.
    rewrite !elem_of_union, !elem_of_filter, !elem_of_intersection.
    destruct (decide (k ∈ swallowed s)), (decide (k ∈ keys)); tauto.
  - intros k. specialize (Hb k). rewrite !elem_of_union in Hb.
    rewrite Hout, !elem_of_union, !elem_of_filter, !elem_of_intersection. tauto.
  - simpl. rewrite Hout. f_equal. apply set_eq. intros k.
    rewrite !elem_of_filter, elem_of_intersection. tauto.
Qed.

(** A committed frame becomes the consumer's view. *)
Lemma commit_frame s v p :
  frame_inv s v p → frame_inv (commit_output s) (view v p) [].
Proof.
  intros [Hc Ho Ha Hown Hb]. split; simpl; [done|done|done|done|]. set_solver.
Qed.

(** [SYN_DROPPED]: the pending frame is thrown away and the state waits for a
    resync. *)
Lemma rollback_frame s v p e d :
  frame_inv s v p → is_dropped e = true → is_decision d = true →
  frame_inv (apply (rollback_output s) e d).1 v [] ∧
  dropping (apply (rollback_output s) e d).1 = true ∧
  (apply (rollback_output s) e d).2 = [].
Proof.
  intros [Hc Ho Ha Hown Hb] He Hd. unfold apply. unfold is_dropped in He. rewrite He.
  replace (negb _) with false by (by destruct d). split_and!; simpl; [|done..].
  split; simpl; [done..|]. set_solver.
Qed.

(** While frames are dropped nothing is emitted and nothing changes. *)
Lemma apply_dropping s e d :
  dropping s = true → is_dropped e = false → apply s e d = (s, []).
Proof.
  intros Hd He. unfold apply, is_dropped in *. rewrite He, Hd. by destruct (negb _).
Qed.

(** ** Decisions latch

    The contract as an abstract machine: a map from the keys that are held to
    whether their press was passed. *)

Definition latch_step (held : gmap Z bool) (e : RawEvent) (d : Operation) :
    gmap Z bool * list RawEvent :=
  if negb (is_key_event e) then
    (held, if bool_decide (event_type e = 1) then [] else [e])
  else if bool_decide (value e = 1) then
    match held !! raw_code e with
    | Some _ => (held, [])
    | None => (<[raw_code e := bool_decide (d = Pass)]> held,
               if bool_decide (d = Pass) then [e] else [])
    end
  else
    (if bool_decide (value e = 0) then delete (raw_code e) held else held,
     if bool_decide (held !! raw_code e = Some true) then [e] else []).

Fixpoint apply_run (s : KeyState) (evs : list (RawEvent * Operation)) :
    KeyState * list RawEvent :=
  match evs with
  | [] => (s, [])
  | (e, d) :: evs =>
      let '(s, es) := apply s e d in
      let '(s, es') := apply_run s evs in (s, es ++ es')
  end.

Fixpoint latch_run (held : gmap Z bool) (evs : list (RawEvent * Operation)) :
    list RawEvent :=
  match evs with
  | [] => []
  | (e, d) :: evs =>
      let '(held, es) := latch_step held e d in es ++ latch_run held evs
  end.

(** The abstraction: the keys known to be held, and whether they were passed. *)
Record latched (s : KeyState) (held : gmap Z bool) : Prop := {
  la_dropping : dropping s = false;
  la_passed : ∀ k, k ∈ output s ↔ held !! k = Some true;
  la_held : ∀ k, k ∈ physical s ↔ is_Some (held !! k);
}.

Lemma latched_step s held e d :
  latched s held → is_decision d = true → is_dropped e = false →
  latched (apply s e d).1 (latch_step held e d).1 ∧
  (apply s e d).2 = (latch_step held e d).2.
Proof.
  intros [Hd Hp Hh] Hdec Hdrop. unfold latch_step.
  destruct (apply_cases s e d Hd Hdec Hdrop)
    as [[He ->]|[(c & -> & Hm & ->)|[(c & -> & Hm & ->)|(c & -> & Hm & ->)]]].
  { rewrite He. by split. }
  all: replace (negb _) with false
    by (symmetry; unfold is_key_event; simpl; by rewrite (bool_decide_true (c ≤ _))).
  - simpl. rewrite (bool_decide_ext _ _ (Hp c)). split; [|done].
    split; simpl; [done|..]; intros k; specialize (Hp k); specialize (Hh k);
      rewrite lookup_delete, elem_of_difference, elem_of_singleton;
      case_decide; subst; naive_solver.
  - simpl. by rewrite (bool_decide_ext _ _ (Hp c)).
  - simpl. pose proof (Hh c) as Hhc. case_bool_decide as Hin.
    + apply Hhc in Hin as [b Hb]. rewrite Hb. by split.
    + destruct (held !! c) eqn:Hc; [naive_solver|].
      case_bool_decide; simpl; (split; [|done]); split; simpl; try done;
        intros k; specialize (Hp k); specialize (Hh k);
        rewrite lookup_insert, ?elem_of_union, ?elem_of_singleton;
        case_decide; subst; naive_solver.
Qed.

(** Decisions latch from key-down to key-up: on any stream of events and
    decisions without a [SYN_DROPPED], what [KeyState::apply] lets through is
    what the latch machine lets through: a press is decided once, its repeats
    and its release follow that decision whatever is answered to them, a press
    of a held key is dropped, and events that are not keys pass unchanged. *)
Theorem decisions_latch evs :
  Forall (λ '(e, d), is_decision d = true ∧ is_dropped e = false) evs →
  (apply_run KeyState_default evs).2 = latch_run ∅ evs.
Proof.
  assert (latched KeyState_default ∅) as Hl.
  { split; simpl; [done|..]; intros k; rewrite lookup_empty; split;
      [set_solver|done|set_solver|intros []; done]. }
  generalize dependent KeyState_default. generalize (∅ : gmap Z bool).
  induction evs as [|[e d] evs IH]; intros held s Hl Hall; simpl; [done|].
  apply Forall_cons in Hall as [[Hd He] Hall].
  destruct (latched_step s held e d Hl Hd He) as [Hl' Heq].
  destruct (apply s e d) as [s1 es1], (latch_step held e d) as [h1 es1'].
  specialize (IH h1 s1 Hl' Hall). simpl in *. subst es1'.
  destruct (apply_run s1 evs). simpl in *. by rewrite IH.
Qed.

(** ** Cleanup *)

(** An event that presses or releases a key (not a repeat). *)
Definition is_change (e : RawEvent) : bool :=
  bool_decide (event_type e = 1) && negb (bool_decide (value e = 2)).

Lemma view_keeps v p k :
  k ∈ v → k ∉ raw_code <$> filter is_change p → k ∈ view v p.
Proof.
  revert v. induction p as [|e p IH]; intros v Hv Hk; [done|].
  change (k ∈ view (view_event v e) p). rewrite filter_cons in Hk.
  apply IH.
  - unfold view_event. case_bool_decide as Ht; [|done].
    case_bool_decide as Hx; [|set_solver].
    assert (is_change e = true) as Hc.
    { unfold is_change. rewrite bool_decide_true, bool_decide_false; [done|lia|done]. }
    rewrite decide_True in Hk by (by rewrite Hc). set_solver.
  - case_decide; set_solver.
Qed.

Lemma view_new v p k :
  alternates v p → k ∈ view v p → k ∉ v → k ∈ raw_code <$> filter is_change p.
Proof.
  revert v. induction p as [|e p IH]; intros v Ha Hin Hv; [done|].
  destruct Ha as [Ha Hal].
  change (k ∈ view (view_event v e) p) in Hin. rewrite filter_cons.
  destruct (decide (k ∈ view_event v e)) as [Hk|Hk].
  - unfold view_event in Hk. case_bool_decide as Ht; [|done].
    case_bool_decide as Hx; [set_solver|]. specialize (Ha Ht).
    assert (k = raw_code e) as -> by set_solver.
    assert (is_change e = true) as Hc.
    { unfold is_change. rewrite bool_decide_true, bool_decide_false; [done| |done].
      naive_solver lia. }
    rewrite decide_True by (by rewrite Hc). set_solver.
  - case_decide; [|by eapply IH]. rewrite fmap_cons, elem_of_cons. right. by eapply IH.
Qed.

(** A partly delivered frame that changes no key twice holds only keys that
    were down before it or are down after it. *)
Lemma view_prefix v p q k :
  alternates v (p ++ q) → NoDup (raw_code <$> filter is_change (p ++ q)) →
  k ∈ view v p → k ∈ v ∨ k ∈ view v (p ++ q).
Proof.
  intros [Ha _]%alternates_app Hnd Hk. destruct (decide (k ∈ v)); [by left|right].
  rewrite view_app. apply view_keeps; [done|].
  rewrite filter_app, fmap_app in Hnd. apply NoDup_app in Hnd as (_ & Hnd & _).
  apply Hnd. by apply (view_new v).
Qed.

Lemma release_all_view s w :
  (∀ k, k ∈ w → k ∈ output s ∨ k ∈ committed_output s) →
  view w (release_all s).2 = ∅.
Proof.
  intros H. simpl. rewrite view_releases, list_to_set_ascending. set_solver.
Qed.

(** Cleanup strands no key: however much of the pending frame reached the
    consumer before capture was torn down (nothing, all of it, or any prefix,
    as long as the frame changes no key twice), the releases that
    [release_all] emits leave the consumer with no key held, and the state
    itself is back to its initial value. *)
Theorem release_all_covers s v p n :
  frame_inv s v p → NoDup (raw_code <$> filter is_change p) →
  view (view v (take n p)) (release_all s).2 = ∅ ∧ (release_all s).1 = KeyState_default.
Proof.
  intros [Hc Ho Ha _ _] Hnd. split; [|done]. apply release_all_view. intros k Hk.
  rewrite Hc, Ho. rewrite <- (take_drop n p) in Hnd, Ha |- * at 1.
  destruct (view_prefix v (take n p) (drop n p) k Ha Hnd Hk); auto.
Qed.

(** ** Witnesses *)

Definition key_30_events : list (RawEvent * Operation) :=
  [(key 30 1, Swallow); (key 30 2, Pass); (key 31 1, Pass); (RawEvent_default, Pass);
   (key 30 0, Pass); (key 31 0, Swallow)].

Lemma decisions_latch_witness :
  (apply_run KeyState_default key_30_events).2 = latch_run ∅ key_30_events ∧
  latch_run ∅ key_30_events = [key 31 1; RawEvent_default; key 31 0].
Proof.
  split; [|reflexivity]. apply decisions_latch. repeat constructor.
Defined.

(** Key 31 is down for the consumer, its release and the press of key 32 are
    pending, and only the release was delivered. *)
Lemma release_all_covers_witness :
  let s := (apply_run (commit_output (apply KeyState_default (key 31 1) Pass).1)
              [(key 31 0, Pass); (key 32 1, Pass)]).1 in
  view (view {[31]} (take 1 [key 31 0; key 32 1])) (release_all s).2 = ∅ ∧
  (release_all s).1 = KeyState_default.
Proof.
  intros s.
  destruct (apply_frame KeyState_default ∅ [] (key 31 1) Pass _ _ frame_inv_default
    eq_refl eq_refl eq_refl eq_refl) as [H1%commit_frame _].
  destruct (apply_frame _ _ _ (key 31 0) Pass _ _ H1 eq_refl eq_refl eq_refl eq_refl)
    as [H2 _].
  destruct (apply_frame _ _ _ (key 32 1) Pass _ _ H2 eq_refl eq_refl eq_refl eq_refl)
    as [H3 _].
  apply (release_all_covers s {[31]} [key 31 0; key 32 1] 1).
  - exact H3.
  - apply (bool_decide_unpack _). vm_compute. exact I.
Defined.
