(* ===== verification/Authorization.v ===== *)
(** * Peer authorization (packages/linux/src/authorization.rs)

    Credentials come from the kernel, session facts from a trusted authority;
    the broker only combines them. [SessionAuthority] is the interface the
    broker's operations are written against. *)

From S2P Require Import Prelude Protocol.

Record PeerIdentity : Type := mkPeerIdentity {
  uid : Z;
  pid : Z;
}.

#[export] Instance PeerIdentity_eq_dec : EqDecision PeerIdentity.
Proof. solve_decision. Defined.

(** [authorize_socket_peer], given the peer's credentials and our [geteuid]. *)
Definition authorize_socket_peer (peer : result IoErrorKind PeerIdentity) (euid : Z) :
    result IoErrorKind PeerIdentity :=
  p ← peer;
  if negb (bool_decide (uid p = euid)) || bool_decide (pid p ≤ 0)
  then Err PermissionDenied else Ok p.

Record SessionProof : Type := mkSessionProof {
  peer : PeerIdentity;
  seat : string;
  session : string;
  active : bool;
  unlocked : option bool;
  local : bool;
}.

(** [SessionProof::permits] *)
Definition permits (self : SessionProof) (p : PeerIdentity) : bool :=
  bool_decide (peer self = p) && negb (bool_decide (uid p = 0)) &&
  bool_decide (0 < pid p) && local self && active self &&
  bool_decide (unlocked self = Some true) &&
  negb (bool_decide (seat self = "")) && negb (bool_decide (session self = "")).

(** The trait [SessionAuthority]: three questions to a stateful authority. The
    descriptor a device question is about is the argument [fd]. *)
Class SessionAuthority (A : Type) : Type := {
  authority_verify : A → PeerIdentity → A * result IoErrorKind SessionProof;
  verify_output_ready : A → Z → PeerIdentity → A * result IoErrorKind unit;
  verify_device : A → Z → PeerIdentity → A * result IoErrorKind unit;
}.

(** The trait's default for both device questions: deny. *)
Definition deny_device {A} (a : A) (fd : Z) (p : PeerIdentity) :
    A * result IoErrorKind unit := (a, Err PermissionDenied).

(** [UnavailableAuthority], the authority the binary ships with. *)
Inductive UnavailableAuthority : Type := mkUnavailableAuthority.

#[export] Instance UnavailableAuthority_authority : SessionAuthority UnavailableAuthority := {
  authority_verify a _ := (a, Err PermissionDenied);
  verify_output_ready := deny_device;
  verify_device := deny_device;
}.
