(* ===== verification/Wire.v ===== *)
(** * SHP1 framing (packages/linux/src/hyprland/wire.rs)

    The 512-byte packets between the compositor's native plugin and the daemon:
    [Packet::encode] and [Packet::decode] with every check on reserved fields,
    unused slots and text. Text ([String]) is the list of its UTF-8 bytes. *)

From Stdlib Require Import Strings.Byte.
From S2P Require Import Prelude Bytes Protocol.

Module Wire.

Definition PACKET_SIZE : nat := 512.
Definition MAX_WAIT_NS : Z := 10000000.

Record Scope : Type := mkScope {
  generation : Z;
  lock_epoch : Z;
  sequence : Z;
  deadline_ns : Z;
  nonce : Z;
}.

Record Identity : Type := mkIdentity {
  capabilities : Z;
  api_hash : list byte;
  artifact : list byte;
}.

Record Event : Type := mkEvent {
  ev_key : Z;
  ev_state : Z;
  ev_time_ms : Z;
  ev_modifiers : Z;
  ev_focus_epoch : Z;
  ev_focus_kind : Z;
  ev_focus : list byte;
}.

Inductive Decision : Type :=
  | Pass
  | Swallow
  | Replace (key modifiers : Z).

Inductive ResultKind : Type :=
  | Replaced | RejectedOriginalAdmitted | PartialUncertainFatal
  | TimeoutOriginalAdmitted | SwallowCommitted | StockConsumed
  | OriginalAdmitted | MergedOriginal | LockerOwned | Quarantined.

Record Outcome : Type := mkOutcome {
  out_result : ResultKind;
  out_reason : Z;
  out_key : Z;
  out_state : Z;
  out_focus_epoch : Z;
}.

Inductive Body : Type :=
  | Hello (i : Identity)
  | HelloAck (i : Identity)
  | BodyEvent (e : Event)
  | BodyDecision (d : Decision)
  | BodyOutcome (o : Outcome)
  | Inject (d : Decision)
  | Reset (reason : Z)
  | Retire (reason : Z)
  | Lock (state reason : Z).

Record Packet : Type := mkPacket {
  scope : Scope;
  body : Body;
}.

#[global] Instance Scope_eq_dec : EqDecision Scope.
Proof. solve_decision. Defined.
#[global] Instance Identity_eq_dec : EqDecision Identity.
Proof. solve_decision. Defined.
#[global] Instance Event_eq_dec : EqDecision Event.
Proof. solve_decision. Defined.
#[global] Instance Decision_eq_dec : EqDecision Decision.
Proof. solve_decision. Defined.
#[global] Instance ResultKind_eq_dec : EqDecision ResultKind.
Proof. solve_decision. Defined.
#[global] Instance Outcome_eq_dec : EqDecision Outcome.
Proof. solve_decision. Defined.
#[global] Instance Body_eq_dec : EqDecision Body.
Proof. solve_decision. Defined.

Abbreviation IoResult := (result IoErrorKind).

(** [invalid()] *)
Definition invalid {A} : IoResult A := Err InvalidData.

(** [u16_at], [u32_at], [u64_at] *)
Definition u16_at (b : list byte) (p : nat) : Z := from_le (slice p (p + 2) b).
Definition u32_at (b : list byte) (p : nat) : Z := from_le (slice p (p + 4) b).
Definition u64_at (b : list byte) (p : nat) : Z := from_le (slice p (p + 8) b).

(** [zero] *)
Definition zero (b : list byte) : IoResult unit :=
  if existsb (λ v, negb (bool_decide (v = x00))) b then invalid else Ok ().

(** [text] *)
Definition text (b : list byte) : IoResult (list byte) :=
  if bool_decide (x00 ∈ b) then invalid
  else if utf8_valid b then Ok b else invalid.

(** [bits & !mask != 0] *)
Definition outside (bits mask : Z) : bool := negb (bool_decide (Z.land bits (Z.lnot mask) = 0)).

(** [hello] *)
Definition hello (b : list byte) : IoResult Identity :=
  let h := Z.to_nat (u16_at b 8) in
  let a := Z.to_nat (u16_at b 10) in
  let capabilities := u64_at b 0 in
  if bool_decide (192 < h)%nat || bool_decide (192 < a)%nat || outside capabilities 15
  then invalid
  else
    _ ← zero (slice 12 16 b);
    _ ← zero (slice (16 + h) 208 b);
    _ ← zero (slice (208 + a) 400 b);
    api_hash ← text (slice 16 (16 + h) b);
    artifact ← text (slice 208 (208 + a) b);
    Ok (mkIdentity capabilities api_hash artifact).

(** [event] *)
Definition event (b : list byte) : IoResult Event :=
  let len := Z.to_nat (u16_at b 26) in
  let kind := u16_at b 24 in
  if bool_decide (256 < len)%nat || negb (bool_decide (length b = 32 + len)%nat) ||
     bool_decide (2 < kind) ||
     (bool_decide (kind = 0) && negb (bool_decide (len = 0)%nat)) ||
     (negb (bool_decide (kind = 0)) && bool_decide (len = 0)%nat) ||
     bool_decide (2 < u32_at b 4) || outside (u32_at b 12) 255
  then invalid
  else
    _ ← zero (slice 28 32 b);
    focus ← text (slice 32 (length b) b);
    Ok (mkEvent (u32_at b 0) (u32_at b 4) (u32_at b 8) (u32_at b 12) (u64_at b 16) kind focus).

(** [decision] *)
Definition decision (b : list byte) : IoResult Decision :=
  _ ← zero (slice 12 16 b);
  let key := u32_at b 4 in
  let modifiers := u32_at b 8 in
  match u32_at b 0 with
  | 0 => if bool_decide (key = 0) && bool_decide (modifiers = 0) then Ok Pass else invalid
  | 1 => if bool_decide (key = 0) && bool_decide (modifiers = 0) then Ok Swallow else invalid
  | 2 => if outside modifiers 255 then invalid else Ok (Replace key modifiers)
  | _ => invalid
  end.

(** [o.result as u32] and its inverse in [outcome]. *)
Definition ResultKind_code (r : ResultKind) : Z :=
  match r with
  | Replaced => 0 | RejectedOriginalAdmitted => 1 | PartialUncertainFatal => 2
  | TimeoutOriginalAdmitted => 3 | SwallowCommitted => 4 | StockConsumed => 5
  | OriginalAdmitted => 6 | MergedOriginal => 7 | LockerOwned => 8 | Quarantined => 9
  end.
Definition ResultKind_of (n : Z) : option ResultKind :=
  match n with
  | 0 => Some Replaced | 1 => Some RejectedOriginalAdmitted
  | 2 => Some PartialUncertainFatal | 3 => Some TimeoutOriginalAdmitted
  | 4 => Some SwallowCommitted | 5 => Some StockConsumed | 6 => Some OriginalAdmitted
  | 7 => Some MergedOriginal | 8 => Some LockerOwned | 9 => Some Quarantined
  | _ => None
  end.

(** [outcome] *)
Definition outcome (b : list byte) : IoResult Outcome :=
  result ← ok_or (ResultKind_of (u32_at b 0)) InvalidData;
  if bool_decide (7 < u32_at b 4) || bool_decide (2 < u32_at b 12) then invalid
  else Ok (mkOutcome result (u32_at b 4) (u32_at b 8) (u32_at b 12) (u64_at b 16)).

(** The [match u16_at(bytes, 6)] of [Packet::decode] on the opcode [op], the
    body's length [len] and its bytes. *)
Definition decode_body (op : Z) (len : nat) (scope : Scope) (b : list byte) : IoResult Body :=
  match op with
  | 1 => if bool_decide (len = 400%nat) then Hello <$> hello b else invalid
  | 2 => if bool_decide (len = 400%nat) then HelloAck <$> hello b else invalid
  | 3 => if bool_decide (32 ≤ len)%nat then BodyEvent <$> event b else invalid
  | 4 => if bool_decide (len = 16%nat) then BodyDecision <$> decision b else invalid
  | 5 => if bool_decide (len = 24%nat) then BodyOutcome <$> outcome b else invalid
  | 6 =>
      if bool_decide (len = 16%nat) && bool_decide (generation scope = 0) then
        d ← decision b;
        match d with Replace _ _ => Ok (Inject d) | _ => invalid end
      else invalid
  | 7 | 8 =>
      if bool_decide (len = 8%nat) then
        _ ← zero (slice 4 8 b);
        let reason := u32_at b 0 in
        if bool_decide (8 < reason) || (bool_decide (op = 8) && bool_decide (reason = 8))
        then invalid
        else if bool_decide (op = 7) then Ok (Reset reason)
        else if negb (bool_decide (generation scope = 0)) then Ok (Retire reason)
        else invalid
      else invalid
  | 9 =>
      if bool_decide (len = 8%nat) && bool_decide (u32_at b 0 ≤ 2) &&
         bool_decide (u32_at b 4 ≤ 7)
      then Ok (Lock (u32_at b 0) (u32_at b 4)) else invalid
  | _ => invalid
  end.

Definition SHP1 : list byte := ["S"; "H"; "P"; "1"]%byte.

(** [Packet::decode] *)
Definition decode (bytes : list byte) : IoResult Packet :=
  if negb (bool_decide (length bytes = PACKET_SIZE)) ||
     negb (bool_decide (slice 0 4 bytes = SHP1)) ||
     negb (bool_decide (u16_at bytes 4 = 1))
  then invalid
  else
    let len := Z.to_nat (u32_at bytes 8) in
    if bool_decide (448 < len)%nat then invalid
    else
      _ ← zero (slice 12 16 bytes);
      _ ← zero (slice 56 64 bytes);
      _ ← zero (slice (64 + len) PACKET_SIZE bytes);
      let b := slice 64 (64 + len) bytes in
      let sc := mkScope (u64_at bytes 16) (u64_at bytes 24) (u64_at bytes 32)
                  (u64_at bytes 40) (u64_at bytes 48) in
      bd ← decode_body (u16_at bytes 6) len sc b;
      Ok (mkPacket sc bd).

(** [put] *)
Definition put (p : nat) (value : list byte) (b : list byte) : list byte := copy_at p value b.

(** The fields of a body, in the order they are written, and the body's length.
    [None] where [encode_body] returns an error. *)
Definition encode_body (bd : Body) : IoResult (Z * list byte) :=
  match bd with
  | Hello i | HelloAck i =>
      let opcode := match bd with Hello _ => 1 | _ => 2 end in
      if bool_decide (192 < length (api_hash i))%nat ||
         bool_decide (192 < length (artifact i))%nat
      then invalid
      else
        let b := zeroed 400 in
        let b := put 0 (to_le 8 (capabilities i)) b in
        let b := put 8 (to_le 2 (Z.of_nat (length (api_hash i)))) b in
        let b := put 10 (to_le 2 (Z.of_nat (length (artifact i)))) b in
        let b := put 16 (api_hash i) b in
        Ok (opcode, put 208 (artifact i) b)
  | BodyEvent e =>
      if bool_decide (256 < length (ev_focus e))%nat then invalid
      else
        let b := zeroed (32 + length (ev_focus e)) in
        let b := put 0 (to_le 4 (ev_key e)) b in
        let b := put 4 (to_le 4 (ev_state e)) b in
        let b := put 8 (to_le 4 (ev_time_ms e)) b in
        let b := put 12 (to_le 4 (ev_modifiers e)) b in
        let b := put 16 (to_le 8 (ev_focus_epoch e)) b in
        let b := put 24 (to_le 2 (ev_focus_kind e)) b in
        let b := put 26 (to_le 2 (Z.of_nat (length (ev_focus e)))) b in
        Ok (3, put 32 (ev_focus e) b)
  | BodyDecision d | Inject d =>
      let opcode := match bd with BodyDecision _ => 4 | _ => 6 end in
      let '(verdict, key, modifiers) :=
        match d with
        | Pass => (0, 0, 0)
        | Swallow => (1, 0, 0)
        | Replace key modifiers => (2, key, modifiers)
        end in
      let b := zeroed 16 in
      let b := put 0 (to_le 4 verdict) b in
      let b := put 4 (to_le 4 key) b in
      Ok (opcode, put 8 (to_le 4 modifiers) b)
  | BodyOutcome o =>
      let b := zeroed 24 in
      let b := put 0 (to_le 4 (ResultKind_code (out_result o))) b in
      let b := put 4 (to_le 4 (out_reason o)) b in
      let b := put 8 (to_le 4 (out_key o)) b in
      let b := put 12 (to_le 4 (out_state o)) b in
      Ok (5, put 16 (to_le 8 (out_focus_epoch o)) b)
  | Reset r => Ok (7, put 0 (to_le 4 r) (zeroed 8))
  | Retire r => Ok (8, put 0 (to_le 4 r) (zeroed 8))
  | Lock state reason =>
      Ok (9, put 4 (to_le 4 reason) (put 0 (to_le 4 state) (zeroed 8)))
  end.

(** The bytes [Packet::encode] builds before it checks them. *)
Definition encode_bytes (self : Packet) (opcode : Z) (b : list byte) : list byte :=
  let bytes := zeroed PACKET_SIZE in
  let bytes := put 0 SHP1 bytes in
  let bytes := put 4 (to_le 2 1) bytes in
  let bytes := put 16 (to_le 8 (generation (scope self))) bytes in
  let bytes := put 24 (to_le 8 (lock_epoch (scope self))) bytes in
  let bytes := put 32 (to_le 8 (sequence (scope self))) bytes in
  let bytes := put 40 (to_le 8 (deadline_ns (scope self))) bytes in
  let bytes := put 48 (to_le 8 (nonce (scope self))) bytes in
  let bytes := put 6 (to_le 2 opcode) bytes in
  let bytes := put 8 (to_le 4 (Z.of_nat (length b))) bytes in
  put 64 b bytes.

(** [Packet::encode] *)
Definition encode (self : Packet) : IoResult (list byte) :=
  '(opcode, b) ← encode_body (body self);
  let bytes := encode_bytes self opcode b in
  _ ← decode bytes;
  Ok bytes.

End Wire.
