(* ===== verification/WireThm.v ===== *)
(** * SHP1 packets round-trip *)

From Stdlib Require Import Strings.Byte.
From S2P Require Import Prelude Bytes Protocol Wire.
Import Wire.

(** ** Values of the Rust types *)

Record scope_typed (s : Scope) : Prop := {
  st_generation : is_u64 (generation s);
  st_lock_epoch : is_u64 (lock_epoch s);
  st_sequence : is_u64 (sequence s);
  st_deadline : is_u64 (deadline_ns s);
  st_nonce : is_u64 (nonce s);
}.

Definition decision_typed (d : Decision) : Prop :=
  match d with Replace key modifiers => is_u32 key ∧ is_u32 modifiers | _ => True end.

(** Every integer fits its width and every [String] is UTF-8. *)
Definition body_typed (b : Body) : Prop :=
  match b with
  | Hello i | HelloAck i =>
      is_u64 (capabilities i) ∧ utf8_valid (api_hash i) = true ∧ utf8_valid (artifact i) = true
  | BodyEvent e =>
      is_u32 (ev_key e) ∧ is_u32 (ev_state e) ∧ is_u32 (ev_time_ms e) ∧
      is_u32 (ev_modifiers e) ∧ is_u64 (ev_focus_epoch e) ∧ is_u16 (ev_focus_kind e) ∧
      utf8_valid (ev_focus e) = true
  | BodyDecision d | Inject d => decision_typed d
  | BodyOutcome o =>
      is_u32 (out_reason o) ∧ is_u32 (out_key o) ∧ is_u32 (out_state o) ∧
      is_u64 (out_focus_epoch o)
  | Reset r | Retire r => is_u32 r
  | Lock s r => is_u32 s ∧ is_u32 r
  end.

Definition packet_typed (p : Packet) : Prop := scope_typed (scope p) ∧ body_typed (body p).

(** ** Elementary facts *)

Lemma zero_Ok b : zero b = Ok () ↔ b = zeroed (length b).
Proof.
  unfold zero. induction b as [|x b IH]; [done|]. simpl.
  case_bool_decide as Hx; simpl.
  - subst x. rewrite IH. unfold zeroed. simpl. split; [by intros <-|by intros [= <-]].
  - split; [done|]. unfold zeroed. simpl. by intros [= ->].
Qed.

Lemma zero_zeroed n : zero (zeroed n) = Ok ().
Proof. apply zero_Ok. by rewrite length_zeroed. Qed.

Lemma text_Ok b s : text b = Ok s ↔ s = b ∧ (x00 ∉ b) ∧ utf8_valid b = true.
Proof.
  unfold text. case_bool_decide; [naive_solver|]. destruct (utf8_valid b); naive_solver.
Qed.

Lemma u16_at_to_le b p z : slice p (p + 2) b = to_le 2 z → is_u16 z → u16_at b p = z.
Proof. intros H Hz. unfold u16_at. rewrite H. by apply from_to_le. Qed.
Lemma u32_at_to_le b p z : slice p (p + 4) b = to_le 4 z → is_u32 z → u32_at b p = z.
Proof. intros H Hz. unfold u32_at. rewrite H. by apply from_to_le. Qed.
Lemma u64_at_to_le b p z : slice p (p + 8) b = to_le 8 z → is_u64 z → u64_at b p = z.
Proof. intros H Hz. unfold u64_at. rewrite H. by apply from_to_le. Qed.

Lemma to_le_u16_at b p : (p + 2 ≤ length b)%nat → to_le 2 (u16_at b p) = slice p (p + 2) b.
Proof. intros. apply to_from_le. rewrite length_slice; lia. Qed.
Lemma to_le_u32_at b p : (p + 4 ≤ length b)%nat → to_le 4 (u32_at b p) = slice p (p + 4) b.
Proof. intros. apply to_from_le. rewrite length_slice; lia. Qed.
Lemma to_le_u64_at b p : (p + 8 ≤ length b)%nat → to_le 8 (u64_at b p) = slice p (p + 8) b.
Proof. intros. apply to_from_le. rewrite length_slice; lia. Qed.

Lemma u16_at_typed b p : (p + 2 ≤ length b)%nat → is_u16 (u16_at b p).
Proof. intros. apply from_le_u16. rewrite length_slice; lia. Qed.
Lemma u32_at_typed b p : (p + 4 ≤ length b)%nat → is_u32 (u32_at b p).
Proof. intros. apply from_le_u32. rewrite length_slice; lia. Qed.
Lemma u64_at_typed b p : (p + 8 ≤ length b)%nat → is_u64 (u64_at b p).
Proof. intros. apply from_le_u64. rewrite length_slice; lia. Qed.

(** ** The frame *)

(** The bytes of a frame as the concatenation of its fields. *)
Definition frame (s : Scope) (opcode : Z) (b : list byte) : list byte :=
  SHP1 ++ to_le 2 1 ++ to_le 2 opcode ++ to_le 4 (Z.of_nat (length b)) ++ zeroed 4 ++
  to_le 8 (generation s) ++ to_le 8 (lock_epoch s) ++ to_le 8 (sequence s) ++
  to_le 8 (deadline_ns s) ++ to_le 8 (nonce s) ++ zeroed 8 ++
  b ++ zeroed (448 - length b).

Lemma encode_bytes_frame p opcode b :
  (length b ≤ 448)%nat → encode_bytes p opcode b = frame (scope p) opcode b.
Proof.
  intros Hb. unfold encode_bytes, put, PACKET_SIZE.
  do 5 (rewrite <- (copy_at_comm 6) by buf_len).
  do 5 (rewrite <- (copy_at_comm 8) by buf_len).
  transitivity (filled 512
    [(0%nat, SHP1); (4%nat, to_le 2 1); (6%nat, to_le 2 opcode);
     (8%nat, to_le 4 (Z.of_nat (length b))); (16%nat, to_le 8 (generation (scope p)));
     (24%nat, to_le 8 (lock_epoch (scope p))); (32%nat, to_le 8 (sequence (scope p)));
     (40%nat, to_le 8 (deadline_ns (scope p))); (48%nat, to_le 8 (nonce (scope p)));
     (64%nat, b)]); [done|].
  rewrite filled_layout.
  - unfold frame, layout. rewrite !length_to_le. reflexivity.
  - unfold ordered. rewrite !length_to_le. simpl length. lia.
Qed.

(** Reads one field off a buffer written as a concatenation of fields. *)
Ltac fld :=
  repeat (rewrite slice_app_r by (rewrite ?length_to_le, ?length_zeroed; simpl length; lia);
          rewrite ?length_to_le, ?length_zeroed);
  try (rewrite slice_app_l by (rewrite ?length_to_le, ?length_zeroed; simpl length; lia));
  match goal with
  | |- slice ?a ?b ?l = ?r =>
      replace (slice a b l) with (slice 0 (length l) l)
        by (f_equal; rewrite ?length_to_le, ?length_zeroed; simpl length; lia);
      rewrite slice_all; try reflexivity; f_equal; lia
  end.

(** Reassembles a buffer from its slices. *)
Ltac uncut := rewrite <- ?slice_cut by lia; apply slice_full.

Section frame.
Variables (s : Scope) (op : Z) (b : list byte).
Hypotheses (Hb : (length b ≤ 448)%nat).

Lemma frame_magic : slice 0 4 (frame s op b) = SHP1.
Proof. unfold frame. fld. Qed.
Lemma frame_version : slice 4 6 (frame s op b) = to_le 2 1.
Proof. unfold frame. fld. Qed.
Lemma frame_opcode : slice 6 8 (frame s op b) = to_le 2 op.
Proof. unfold frame. fld. Qed.
Lemma frame_len : slice 8 12 (frame s op b) = to_le 4 (Z.of_nat (length b)).
Proof. unfold frame. fld. Qed.
Lemma frame_pad1 : slice 12 16 (frame s op b) = zeroed 4.
Proof. unfold frame. fld. Qed.
Lemma frame_generation : slice 16 24 (frame s op b) = to_le 8 (generation s).
Proof. unfold frame. fld. Qed.
Lemma frame_lock_epoch : slice 24 32 (frame s op b) = to_le 8 (lock_epoch s).
Proof. unfold frame. fld. Qed.
Lemma frame_sequence : slice 32 40 (frame s op b) = to_le 8 (sequence s).
Proof. unfold frame. fld. Qed.
Lemma frame_deadline : slice 40 48 (frame s op b) = to_le 8 (deadline_ns s).
Proof. unfold frame. fld. Qed.
Lemma frame_nonce : slice 48 56 (frame s op b) = to_le 8 (nonce s).
Proof. unfold frame. fld. Qed.
Lemma frame_pad2 : slice 56 64 (frame s op b) = zeroed 8.
Proof. unfold frame. fld. Qed.
Lemma frame_body : slice 64 (64 + length b) (frame s op b) = b.
Proof. unfold frame. fld. Qed.
Lemma frame_tail : slice (64 + length b) 512 (frame s op b) = zeroed (448 - length b).
Proof. unfold frame. fld. Qed.

Lemma length_frame : length (frame s op b) = PACKET_SIZE.
Proof.
  unfold frame. rewrite !length_app, !length_to_le, !length_zeroed. simpl length.
  unfold PACKET_SIZE. lia.
Qed.

Lemma decode_frame :
  scope_typed s → is_u16 op →
  decode (frame s op b) = (bd ← decode_body op (length b) s b; Ok (mkPacket s bd)).
Proof.
  intros [Hg He Hs Hd Hn] Hop. unfold decode.
  rewrite length_frame, frame_magic.
  assert (is_u32 (Z.of_nat (length b))) as Hl by (unfold is_u32; lia).
  rewrite (u16_at_to_le _ 4 1 frame_version) by done.
  rewrite (u32_at_to_le _ 8 _ frame_len) by done. rewrite Nat2Z.id.
  rewrite !bool_decide_true by done. rewrite (bool_decide_false (448 < _)%nat) by lia.
  cbn [negb orb]. rewrite frame_pad1, frame_pad2. unfold PACKET_SIZE. rewrite frame_tail.
  rewrite !zero_zeroed, frame_body. cbn [mbind result_bind].
  rewrite (u16_at_to_le _ 6 _ frame_opcode), (u64_at_to_le _ 16 _ frame_generation),
    (u64_at_to_le _ 24 _ frame_lock_epoch), (u64_at_to_le _ 32 _ frame_sequence),
    (u64_at_to_le _ 40 _ frame_deadline), (u64_at_to_le _ 48 _ frame_nonce) by done.
  by destruct s.
Qed.
End frame.

(** Everything [decode] accepts is a frame. *)
Lemma decode_inv bytes p :
  decode bytes = Ok p →
  ∃ op b, bytes = frame (scope p) op b ∧ (length b ≤ 448)%nat ∧ is_u16 op ∧
    scope_typed (scope p) ∧ decode_body op (length b) (scope p) b = Ok (body p).
Proof.
  unfold decode. destruct (_ || _) eqn:Hg; [done|]. bools. unfold PACKET_SIZE in *.
  case_bool_decide as Hlen; [done|]. intros ([] & Hz1%zero_Ok & Hd)%result_bind_Ok.
  apply result_bind_Ok in Hd as ([] & Hz2%zero_Ok & Hd).
  apply result_bind_Ok in Hd as ([] & Hz3%zero_Ok & Hd).
  apply result_bind_Ok in Hd as (bd & Hd & [= <-]). cbn [scope body].
  set (len := Z.to_nat (u32_at bytes 8)) in *.
  assert (length (slice 64 (64 + len) bytes) = len) as Hb by (rewrite length_slice; lia).
  exists (u16_at bytes 6), (slice 64 (64 + len) bytes). rewrite Hb. split_and!.
  - unfold frame. cbn [generation lock_epoch sequence deadline_ns nonce]. rewrite Hb.
    rewrite length_slice in Hz1, Hz2, Hz3 by lia.
    assert (to_le 2 1 = slice 4 6 bytes) as ->.
    { transitivity (to_le 2 (u16_at bytes 4)); [by f_equal|apply (to_le_u16_at bytes 4); lia]. }
    assert (to_le 4 (Z.of_nat len) = slice 8 12 bytes) as ->.
    { transitivity (to_le 4 (u32_at bytes 8)); [|apply (to_le_u32_at bytes 8); lia].
      f_equal. unfold len. apply Z2Nat.id.
      pose proof (u32_at_typed bytes 8 ltac:(lia)) as [? _]. done. }
    rewrite !to_le_u64_at, to_le_u16_at by lia.
    change (zeroed 4) with (zeroed (16 - 12)). rewrite <- Hz1.
    change (zeroed 8) with (zeroed (64 - 56)). rewrite <- Hz2.
    replace (448 - len)%nat with (512 - (64 + len))%nat by lia. rewrite <- Hz3.
    match goal with H : slice 0 4 bytes = SHP1 |- _ => rewrite <- H end.
    cbn [Nat.add]. symmetry. uncut. done.
  - lia.
  - apply u16_at_typed. lia.
  - split; apply u64_at_typed; lia.
  - done.
Qed.

(** ** The bodies *)

(** *** Hello *)

Definition hello_bytes (i : Identity) : list byte :=
  to_le 8 (capabilities i) ++ to_le 2 (Z.of_nat (length (api_hash i))) ++
  to_le 2 (Z.of_nat (length (artifact i))) ++ zeroed 4 ++
  api_hash i ++ zeroed (192 - length (api_hash i)) ++
  artifact i ++ zeroed (192 - length (artifact i)).

Lemma encode_hello i :
  (length (api_hash i) ≤ 192)%nat → (length (artifact i) ≤ 192)%nat →
  encode_body (Hello i) = Ok (1, hello_bytes i) ∧
  encode_body (HelloAck i) = Ok (2, hello_bytes i).
Proof.
  intros H1 H2.
  assert (filled 400 [(0%nat, to_le 8 (capabilities i));
    (8%nat, to_le 2 (Z.of_nat (length (api_hash i))));
    (10%nat, to_le 2 (Z.of_nat (length (artifact i))));
    (16%nat, api_hash i); (208%nat, artifact i)] = hello_bytes i) as Hf.
  { rewrite filled_layout.
    - unfold layout, hello_bytes. rewrite !length_to_le.
      cbn [Nat.sub Nat.add zeroed replicate app].
      replace (208 - (16 + length (api_hash i)))%nat with (192 - length (api_hash i))%nat by lia.
      replace (400 - (208 + length (artifact i)))%nat with (192 - length (artifact i))%nat by lia.
      reflexivity.
    - unfold ordered. rewrite !length_to_le. lia. }
  unfold encode_body. rewrite !bool_decide_false by lia. cbn [orb].
  by rewrite <- Hf.
Qed.

Section hello.
Variable i : Identity.
Hypotheses (Hh : (length (api_hash i) ≤ 192)%nat) (Ha : (length (artifact i) ≤ 192)%nat).

Lemma hello_slices :
  let b := hello_bytes i in
  let h := length (api_hash i) in
  let a := length (artifact i) in
  slice 0 8 b = to_le 8 (capabilities i) ∧ slice 8 10 b = to_le 2 (Z.of_nat h) ∧
  slice 10 12 b = to_le 2 (Z.of_nat a) ∧ slice 12 16 b = zeroed 4 ∧
  slice 16 (16 + h) b = api_hash i ∧ slice (16 + h) 208 b = zeroed (192 - h) ∧
  slice 208 (208 + a) b = artifact i ∧ slice (208 + a) 400 b = zeroed (192 - a).
Proof. unfold hello_bytes. split_and!; fld. Qed.

Lemma length_hello_bytes : length (hello_bytes i) = 400%nat.
Proof. unfold hello_bytes. rewrite !length_app, !length_to_le, !length_zeroed. lia. Qed.

Lemma hello_decode i' :
  is_u64 (capabilities i) → hello (hello_bytes i) = Ok i' → i' = i.
Proof.
  intros Hc. destruct hello_slices as (S0 & S8 & S10 & S12 & S16 & Sp & S208 & Sq).
  unfold hello.
  assert (is_u16 (Z.of_nat (length (api_hash i)))) by (unfold is_u16; lia).
  assert (is_u16 (Z.of_nat (length (artifact i)))) by (unfold is_u16; lia).
  rewrite (u16_at_to_le _ 8 _ S8), (u16_at_to_le _ 10 _ S10), (u64_at_to_le _ 0 _ S0) by done.
  rewrite !Nat2Z.id. destruct (_ || _); [done|].
  rewrite S12, S16, Sp, S208, Sq, !zero_zeroed. cbn [mbind result_bind].
  intros (h & (-> & _)%text_Ok & (a & (-> & _)%text_Ok & [= <-])%result_bind_Ok)%result_bind_Ok.
  by destruct i.
Qed.
End hello.

Lemma hello_inv b i :
  length b = 400%nat → hello b = Ok i →
  b = hello_bytes i ∧ (length (api_hash i) ≤ 192)%nat ∧ (length (artifact i) ≤ 192)%nat ∧
  is_u64 (capabilities i) ∧ utf8_valid (api_hash i) = true ∧ utf8_valid (artifact i) = true.
Proof.
  intros Hlen. unfold hello. destruct (_ || _) eqn:Hg; [done|]. bools.
  set (h := Z.to_nat (u16_at b 8)) in *. set (a := Z.to_nat (u16_at b 10)) in *.
  intros ([] & Z1%zero_Ok & Hd)%result_bind_Ok.
  apply result_bind_Ok in Hd as ([] & Z2%zero_Ok & Hd).
  apply result_bind_Ok in Hd as ([] & Z3%zero_Ok & Hd).
  apply result_bind_Ok in Hd as (th & (-> & _ & Uh)%text_Ok & Hd).
  apply result_bind_Ok in Hd as (ta & (-> & _ & Ua)%text_Ok & Hd).
  assert (i = mkIdentity (u64_at b 0) (slice 16 (16 + h) b) (slice 208 (208 + a) b)) as ->
    by congruence.
  assert (length (slice 16 (16 + h) b) = h) as Lh by (rewrite length_slice; lia).
  assert (length (slice 208 (208 + a) b) = a) as La by (rewrite length_slice; lia).
  cbn [capabilities api_hash artifact]. rewrite Lh, La.
  split_and!; try done; try lia; [|apply u64_at_typed; lia].
  unfold hello_bytes. cbn [capabilities api_hash artifact]. rewrite Lh, La.
  rewrite length_slice in Z1, Z2, Z3 by lia.
  assert (to_le 2 (Z.of_nat h) = slice 8 10 b) as ->.
  { transitivity (to_le 2 (u16_at b 8)); [|apply (to_le_u16_at b 8); lia].
    f_equal. apply Z2Nat.id. by pose proof (u16_at_typed b 8 ltac:(lia)) as [? _]. }
  assert (to_le 2 (Z.of_nat a) = slice 10 12 b) as ->.
  { transitivity (to_le 2 (u16_at b 10)); [|apply (to_le_u16_at b 10); lia].
    f_equal. apply Z2Nat.id. by pose proof (u16_at_typed b 10 ltac:(lia)) as [? _]. }
  rewrite to_le_u64_at by lia. change (zeroed 4) with (zeroed (16 - 12)). rewrite <- Z1.
  replace (192 - h)%nat with (208 - (16 + h))%nat by lia. rewrite <- Z2.
  replace (192 - a)%nat with (400 - (208 + a))%nat by lia. rewrite <- Z3.
  cbn [Nat.add]. symmetry. uncut. done.
Qed.

(** *** Event *)

Definition event_bytes (e : Event) : list byte :=
  to_le 4 (ev_key e) ++ to_le 4 (ev_state e) ++ to_le 4 (ev_time_ms e) ++
  to_le 4 (ev_modifiers e) ++ to_le 8 (ev_focus_epoch e) ++ to_le 2 (ev_focus_kind e) ++
  to_le 2 (Z.of_nat (length (ev_focus e))) ++ zeroed 4 ++ ev_focus e.

Lemma length_event_bytes e : length (event_bytes e) = (32 + length (ev_focus e))%nat.
Proof. unfold event_bytes. rewrite !length_app, !length_to_le, !length_zeroed. lia. Qed.

Lemma encode_event e :
  (length (ev_focus e) ≤ 256)%nat → encode_body (BodyEvent e) = Ok (3, event_bytes e).
Proof.
  intros Hl. unfold encode_body. rewrite bool_decide_false by lia. do 2 f_equal.
  transitivity (filled (32 + length (ev_focus e))
    [(0%nat, to_le 4 (ev_key e)); (4%nat, to_le 4 (ev_state e)); (8%nat, to_le 4 (ev_time_ms e));
     (12%nat, to_le 4 (ev_modifiers e)); (16%nat, to_le 8 (ev_focus_epoch e));
     (24%nat, to_le 2 (ev_focus_kind e)); (26%nat, to_le 2 (Z.of_nat (length (ev_focus e))));
     (32%nat, ev_focus e)]); [done|].
  rewrite filled_layout.
  - unfold layout, event_bytes. rewrite !length_to_le.
    cbn [Nat.sub Nat.add zeroed replicate app].
    rewrite Nat.sub_diag. by rewrite app_nil_r.
  - unfold ordered. rewrite !length_to_le. lia.
Qed.

Lemma event_decode e e' :
  body_typed (BodyEvent e) → (length (ev_focus e) ≤ 256)%nat →
  event (event_bytes e) = Ok e' → e' = e.
Proof.
  intros (T1 & T2 & T3 & T4 & T5 & T6 & _) Hl. unfold event.
  assert (is_u16 (Z.of_nat (length (ev_focus e)))) by (unfold is_u16; lia).
  set (b := event_bytes e).
  assert (slice 0 4 b = to_le 4 (ev_key e)) as S0 by (unfold b, event_bytes; fld).
  assert (slice 4 8 b = to_le 4 (ev_state e)) as S4 by (unfold b, event_bytes; fld).
  assert (slice 8 12 b = to_le 4 (ev_time_ms e)) as S8 by (unfold b, event_bytes; fld).
  assert (slice 12 16 b = to_le 4 (ev_modifiers e)) as S12 by (unfold b, event_bytes; fld).
  assert (slice 16 24 b = to_le 8 (ev_focus_epoch e)) as S16 by (unfold b, event_bytes; fld).
  assert (slice 24 26 b = to_le 2 (ev_focus_kind e)) as S24 by (unfold b, event_bytes; fld).
  assert (slice 26 28 b = to_le 2 (Z.of_nat (length (ev_focus e)))) as S26
    by (unfold b, event_bytes; fld).
  assert (slice 28 32 b = zeroed 4) as S28 by (unfold b, event_bytes; fld).
  assert (slice 32 (length b) b = ev_focus e) as S32.
  { unfold b at 1. rewrite length_event_bytes. unfold b, event_bytes. fld. }
  rewrite (u16_at_to_le _ 26 _ S26), (u16_at_to_le _ 24 _ S24), (u32_at_to_le _ 0 _ S0),
    (u32_at_to_le _ 4 _ S4), (u32_at_to_le _ 8 _ S8), (u32_at_to_le _ 12 _ S12),
    (u64_at_to_le _ 16 _ S16), S28, S32, zero_zeroed by done.
  destruct (_ || _); [done|]. cbn [mbind result_bind].
  intros (f & (-> & _)%text_Ok & [= <-])%result_bind_Ok. by destruct e.
Qed.

Lemma event_inv b e :
  (32 ≤ length b)%nat → event b = Ok e →
  b = event_bytes e ∧ (length (ev_focus e) ≤ 256)%nat ∧ body_typed (BodyEvent e).
Proof.
  intros Hlen. unfold event. destruct (_ || _) eqn:Hg; [done|].
  repeat match goal with H : (_ || _)%bool = false |- _ =>
    apply orb_false_iff' in H as [? ?] end. bools.
  set (l := Z.to_nat (u16_at b 26)) in *.
  intros ([] & Z1%zero_Ok & Hd)%result_bind_Ok.
  apply result_bind_Ok in Hd as (f & (-> & _ & Uf)%text_Ok & [= <-]).
  match goal with H : length b = (32 + l)%nat |- _ => rename H into Hb end.
  assert (length (slice 32 (length b) b) = l) as Lf by (rewrite length_slice; lia).
  cbn [ev_focus]. rewrite Lf. split_and!.
  - unfold event_bytes.
    cbn [ev_key ev_state ev_time_ms ev_modifiers ev_focus_epoch ev_focus_kind ev_focus].
    rewrite Lf, length_slice in * by lia.
    assert (to_le 2 (Z.of_nat l) = slice 26 28 b) as ->.
    { transitivity (to_le 2 (u16_at b 26)); [|apply (to_le_u16_at b 26); lia].
      f_equal. apply Z2Nat.id. by pose proof (u16_at_typed b 26 ltac:(lia)) as [? _]. }
    rewrite !to_le_u32_at, to_le_u64_at, to_le_u16_at by lia.
    change (zeroed 4) with (zeroed (32 - 28)). rewrite <- Z1.
    cbn [Nat.add]. symmetry. uncut. done.
  - lia.
  - split_and!; simpl; try done;
      first [apply u32_at_typed|apply u64_at_typed|apply u16_at_typed]; lia.
Qed.

(** *** Decision *)

Definition decision_bytes (v k m : Z) : list byte :=
  to_le 4 v ++ to_le 4 k ++ to_le 4 m ++ zeroed 4.

Definition decision_fields (d : Decision) : Z * Z * Z :=
  match d with
  | Pass => (0, 0, 0)
  | Swallow => (1, 0, 0)
  | Replace key modifiers => (2, key, modifiers)
  end.

Lemma put_decision v k m :
  put 8 (to_le 4 m) (put 4 (to_le 4 k) (put 0 (to_le 4 v) (zeroed 16))) = decision_bytes v k m.
Proof.
  transitivity (filled 16 [(0%nat, to_le 4 v); (4%nat, to_le 4 k); (8%nat, to_le 4 m)]); [done|].
  rewrite filled_layout.
  - unfold layout, decision_bytes. by rewrite !length_to_le.
  - unfold ordered. rewrite !length_to_le. lia.
Qed.

Lemma encode_decision d :
  let '(v, k, m) := decision_fields d in
  encode_body (BodyDecision d) = Ok (4, decision_bytes v k m) ∧
  encode_body (Inject d) = Ok (6, decision_bytes v k m).
Proof. destruct d; simpl; by rewrite put_decision. Qed.

Lemma decision_at v k m :
  is_u32 v → is_u32 k → is_u32 m →
  let b := decision_bytes v k m in
  u32_at b 0 = v ∧ u32_at b 4 = k ∧ u32_at b 8 = m ∧ zero (slice 12 16 b) = Ok ().
Proof.
  intros Hv Hk Hm. unfold decision_bytes. split_and!.
  - apply u32_at_to_le; [fld|done].
  - apply u32_at_to_le; [fld|done].
  - apply u32_at_to_le; [fld|done].
  - match goal with |- zero ?x = _ => assert (x = zeroed 4) as -> by fld end.
    apply zero_zeroed.
Qed.

Lemma decision_decode d d' :
  decision_typed d →
  (let '(v, k, m) := decision_fields d in decision (decision_bytes v k m)) = Ok d' → d' = d.
Proof.
  assert (∀ n, 0 ≤ n < 3 → is_u32 n) as Hn by (unfold is_u32; lia).
  destruct d as [| |k m]; simpl; [intros _|intros _|intros [Hk Hm]]; unfold decision.
  - destruct (decision_at 0 0 0) as (-> & -> & -> & ->); [by apply Hn; lia..|]. by intros [= <-].
  - destruct (decision_at 1 0 0) as (-> & -> & -> & ->); [by apply Hn; lia..|]. by intros [= <-].
  - destruct (decision_at 2 k m) as (-> & -> & -> & ->); [by apply Hn; lia|done..|].
    cbn [mbind result_bind]. destruct (outside m 255); [done|]. by intros [= <-].
Qed.

Lemma decision_inv b d :
  length b = 16%nat → decision b = Ok d →
  decision_typed d ∧ let '(v, k, m) := decision_fields d in b = decision_bytes v k m.
Proof.
  intros Hlen. unfold decision. intros ([] & Hz%zero_Ok & Hd)%result_bind_Ok.
  rewrite length_slice in Hz by lia.
  assert (∀ v k m, u32_at b 0 = v → u32_at b 4 = k → u32_at b 8 = m → b = decision_bytes v k m)
    as Hb.
  { intros v k m <- <- <-. unfold decision_bytes. rewrite !to_le_u32_at by lia.
    change (zeroed 4) with (zeroed (16 - 12)). rewrite <- Hz. cbn [Nat.add]. symmetry. by uncut. }
  pose proof (u32_at_typed b 4 ltac:(lia)). pose proof (u32_at_typed b 8 ltac:(lia)).
  destruct (u32_at b 0) as [|[[]|[]|]|] eqn:Hv; try done.
  - case_bool_decide; [|done]. case_bool_decide; [|done]. simpl in Hd. simplify_eq.
    split; [done|]. by apply Hb.
  - destruct (outside _ _); [done|]. simplify_eq. split; [done|]. by apply Hb.
  - case_bool_decide; [|done]. case_bool_decide; [|done]. simpl in Hd. simplify_eq.
    split; [done|]. by apply Hb.
Qed.

(** *** Outcome *)

Definition outcome_bytes (o : Outcome) : list byte :=
  to_le 4 (ResultKind_code (out_result o)) ++ to_le 4 (out_reason o) ++ to_le 4 (out_key o) ++
  to_le 4 (out_state o) ++ to_le 8 (out_focus_epoch o).

Lemma encode_outcome o : encode_body (BodyOutcome o) = Ok (5, outcome_bytes o).
Proof.
  unfold encode_body. apply (f_equal (λ b, Ok (5, b))).
  transitivity (filled 24
    [(0%nat, to_le 4 (ResultKind_code (out_result o))); (4%nat, to_le 4 (out_reason o));
     (8%nat, to_le 4 (out_key o)); (12%nat, to_le 4 (out_state o));
     (16%nat, to_le 8 (out_focus_epoch o))]); [done|].
  rewrite filled_layout.
  - unfold layout, outcome_bytes. rewrite !length_to_le.
    cbn [Nat.sub Nat.add zeroed replicate app]. by rewrite app_nil_r.
  - unfold ordered. rewrite !length_to_le. lia.
Qed.

Lemma ResultKind_of_code r : ResultKind_of (ResultKind_code r) = Some r.
Proof. by destruct r. Qed.

Lemma ResultKind_code_of n r : ResultKind_of n = Some r → n = ResultKind_code r.
Proof. unfold ResultKind_of. repeat case_match; intros; by simplify_eq. Qed.

Lemma ResultKind_code_u32 r : is_u32 (ResultKind_code r).
Proof. by destruct r. Qed.

Lemma outcome_decode o o' :
  body_typed (BodyOutcome o) → outcome (outcome_bytes o) = Ok o' → o' = o.
Proof.
  intros (T1 & T2 & T3 & T4). unfold outcome. set (b := outcome_bytes o).
  assert (u32_at b 0 = ResultKind_code (out_result o)) as ->.
  { apply u32_at_to_le; [unfold b, outcome_bytes; fld|apply ResultKind_code_u32]. }
  assert (u32_at b 4 = out_reason o) as ->
    by (apply u32_at_to_le; [unfold b, outcome_bytes; fld|done]).
  assert (u32_at b 8 = out_key o) as ->
    by (apply u32_at_to_le; [unfold b, outcome_bytes; fld|done]).
  assert (u32_at b 12 = out_state o) as ->
    by (apply u32_at_to_le; [unfold b, outcome_bytes; fld|done]).
  assert (u64_at b 16 = out_focus_epoch o) as ->
    by (apply u64_at_to_le; [unfold b, outcome_bytes; fld|done]).
  rewrite ResultKind_of_code. simpl. destruct (_ || _); [done|]. intros [= <-]. by destruct o.
Qed.

Lemma outcome_inv b o :
  length b = 24%nat → outcome b = Ok o → b = outcome_bytes o ∧ body_typed (BodyOutcome o).
Proof.
  intros Hlen. unfold outcome.
  intros (r & Hr%ok_or_Ok%ResultKind_code_of & Hd)%result_bind_Ok.
  destruct (_ || _); [done|]. injection Hd as <-. split.
  - unfold outcome_bytes. cbn [out_result out_reason out_key out_state out_focus_epoch].
    rewrite <- Hr, !to_le_u32_at, to_le_u64_at by lia. cbn [Nat.add]. symmetry. by uncut.
  - split_and!; simpl; first [apply u32_at_typed|apply u64_at_typed]; lia.
Qed.

(** *** Reset, retire and lock *)

Definition pair_bytes (x y : Z) : list byte := to_le 4 x ++ to_le 4 y.

Lemma put_pair x y : put 4 (to_le 4 y) (put 0 (to_le 4 x) (zeroed 8)) = pair_bytes x y.
Proof.
  transitivity (filled 8 [(0%nat, to_le 4 x); (4%nat, to_le 4 y)]); [done|].
  rewrite filled_layout.
  - unfold layout, pair_bytes. rewrite !length_to_le.
    cbn [Nat.sub Nat.add zeroed replicate app]. by rewrite app_nil_r.
  - unfold ordered. rewrite !length_to_le. lia.
Qed.

Lemma put_reason r : put 0 (to_le 4 r) (zeroed 8) = to_le 4 r ++ zeroed 4.
Proof.
  transitivity (filled 8 [(0%nat, to_le 4 r)]); [done|]. rewrite filled_layout.
  - unfold layout. by rewrite !length_to_le.
  - unfold ordered. rewrite !length_to_le. lia.
Qed.

Lemma pair_at x y :
  is_u32 x → is_u32 y → u32_at (pair_bytes x y) 0 = x ∧ u32_at (pair_bytes x y) 4 = y.
Proof.
  intros. unfold pair_bytes.
  split; (apply u32_at_to_le; [|done]); [fld|].
  rewrite slice_app_r by (rewrite length_to_le; lia). rewrite length_to_le.
  apply (slice_full (to_le 4 y)). by rewrite length_to_le.
Qed.

Lemma pair_inv b : length b = 8%nat → b = pair_bytes (u32_at b 0) (u32_at b 4).
Proof.
  intros. unfold pair_bytes. rewrite !to_le_u32_at by lia. cbn [Nat.add]. symmetry. by uncut.
Qed.

(** ** Bodies round-trip *)

(** The encoding of a body is decoded, if at all, to that body. *)
Definition body_roundtrip (bd : Body) (op : Z) (b : list byte) : Prop :=
  (length b ≤ 448)%nat ∧ is_u16 op ∧
  ∀ s bd', decode_body op (length b) s b = Ok bd' → bd' = bd.

Lemma length_decision_bytes v k m : length (decision_bytes v k m) = 16%nat.
Proof. unfold decision_bytes. by rewrite !length_app, !length_to_le, length_zeroed. Qed.

Lemma length_outcome_bytes o : length (outcome_bytes o) = 24%nat.
Proof. unfold outcome_bytes. by rewrite !length_app, !length_to_le. Qed.

Lemma length_pair_bytes x y : length (pair_bytes x y) = 8%nat.
Proof. unfold pair_bytes. by rewrite !length_app, !length_to_le. Qed.

Lemma encode_decode_hello i op b :
  body_typed (Hello i) →
  (encode_body (Hello i) = Ok (op, b) → body_roundtrip (Hello i) op b) ∧
  (encode_body (HelloAck i) = Ok (op, b) → body_roundtrip (HelloAck i) op b).
Proof.
  intros (T & _).
  destruct (decide (length (api_hash i) ≤ 192 ∧ length (artifact i) ≤ 192)%nat) as [[Hh Ha]|Hn].
  - destruct (encode_hello i Hh Ha) as [-> ->]. unfold body_roundtrip.
    split; intros [= <- <-]; rewrite length_hello_bytes by done; (split_and!; [lia|done|]);
      intros s bd' (i' & ->%(hello_decode i Hh Ha) & ->)%result_fmap_Ok; done.
  - simpl. destruct (_ || _) eqn:Hg; [done|]. bools. lia.
Qed.

Lemma encode_decode_event e op b :
  body_typed (BodyEvent e) → encode_body (BodyEvent e) = Ok (op, b) →
  body_roundtrip (BodyEvent e) op b.
Proof.
  intros T. destruct (decide (length (ev_focus e) ≤ 256)%nat) as [Hl|Hn].
  - rewrite encode_event by done. intros [= <- <-]. unfold body_roundtrip.
    rewrite length_event_bytes. split_and!; [lia|done|]. intros s bd'. unfold decode_body.
    rewrite bool_decide_true by lia.
    by intros (e' & ->%(event_decode e _ T Hl) & ->)%result_fmap_Ok.
  - simpl. case_bool_decide; [done|lia].
Qed.

Lemma encode_decode_decision d op b :
  decision_typed d →
  (encode_body (BodyDecision d) = Ok (op, b) → body_roundtrip (BodyDecision d) op b) ∧
  (encode_body (Inject d) = Ok (op, b) → body_roundtrip (Inject d) op b).
Proof.
  intros T. pose proof (encode_decision d) as He. pose proof (decision_decode d) as Hd.
  destruct (decision_fields d) as [[v k] m]. destruct He as [-> ->]. unfold body_roundtrip.
  split; intros [= <- <-]; rewrite length_decision_bytes; (split_and!; [lia|done|]); intros s bd'.
  - by intros (d' & ->%(Hd _ T) & ->)%result_fmap_Ok.
  - unfold decode_body. destruct (_ && _); [|done].
    intros (d' & ->%(Hd _ T) & Hr)%result_bind_Ok. destruct d; try done. congruence.
Qed.

Lemma encode_reason (r : Z) :
  encode_body (Reset r) = Ok (7, pair_bytes r 0) ∧ encode_body (Retire r) = Ok (8, pair_bytes r 0).
Proof. simpl. by rewrite put_reason. Qed.

Lemma encode_decode_body bd op b :
  body_typed bd → encode_body bd = Ok (op, b) → body_roundtrip bd op b.
Proof.
  assert (is_u32 0) as H0 by done.
  destruct bd as [i|i|e|d|o|d|r|r|st r]; intros T.
  - by apply encode_decode_hello.
  - by apply encode_decode_hello.
  - by apply encode_decode_event.
  - by apply encode_decode_decision.
  - rewrite encode_outcome. intros [= <- <-]. unfold body_roundtrip.
    rewrite length_outcome_bytes. split_and!; [lia|done|].
    by intros s bd' (o' & ->%(outcome_decode o _ T) & ->)%result_fmap_Ok.
  - by apply encode_decode_decision.
  - rewrite (proj1 (encode_reason r)). intros [= <- <-]. unfold body_roundtrip.
    rewrite length_pair_bytes. split_and!; [lia|done|]. intros s bd'.
    cbn -[pair_bytes u32_at zero]. destruct (pair_at r 0) as [-> _]; [done..|].
    destruct (zero _); [|done]. cbn. destruct (_ || _); [done|]. by intros [= <-].
  - rewrite (proj2 (encode_reason r)). intros [= <- <-]. unfold body_roundtrip.
    rewrite length_pair_bytes. split_and!; [lia|done|]. intros s bd'.
    cbn -[pair_bytes u32_at zero]. destruct (pair_at r 0) as [-> _]; [done..|].
    destruct (zero _); [|done]. cbn. destruct (_ || _); [done|].
    destruct (negb _); [|done]. by intros [= <-].
  - cbn -[put pair_bytes]. rewrite put_pair. intros [= <- <-]. unfold body_roundtrip.
    rewrite length_pair_bytes. split_and!; [lia|done|]. intros s bd'. destruct T as [Ts Tr].
    cbn -[pair_bytes u32_at]. destruct (pair_at st r) as [-> ->]; [done..|].
    destruct (_ && _); [|done]. by intros [= <-].
Qed.

(** What [decode_body] accepts is the encoding of its result. *)
Lemma decode_encode_decision b d :
  length b = 16%nat → decision b = Ok d →
  decision_typed d ∧ encode_body (BodyDecision d) = Ok (4, b) ∧ encode_body (Inject d) = Ok (6, b).
Proof.
  intros Hl Hd. apply decision_inv in Hd as [T Hb]; [|done].
  pose proof (encode_decision d) as He. destruct (decision_fields d) as [[v k] m]. by subst b.
Qed.

Lemma reason_inv b :
  length b = 8%nat → zero (slice 4 8 b) = Ok () → b = pair_bytes (u32_at b 0) 0 ∧ is_u32 (u32_at b 0).
Proof.
  intros Hl Hz%zero_Ok. split; [|apply u32_at_typed; lia].
  rewrite (pair_inv b) at 1 by done. unfold pair_bytes at 1 2. f_equal.
  rewrite to_le_u32_at by lia. cbn [Nat.add]. rewrite Hz, length_slice by lia. done.
Qed.

Lemma decode_encode_body op s b bd :
  decode_body op (length b) s b = Ok bd → encode_body bd = Ok (op, b) ∧ body_typed bd.
Proof.
  unfold decode_body.
  destruct op as [|[[[[]|[]|]|[[]|[]|]|]|[[[]|[]|]|[[]|[]|]|]|]|]; try done.
  - case_bool_decide as Hl; [|done]. intros ([] & Hz & Hr)%result_bind_Ok.
    destruct (reason_inv b Hl Hz) as [Hb Hu]. destruct (_ || _); [done|].
    assert (bd = Reset (u32_at b 0)) as -> by (by injection Hr as <-).
    by rewrite (proj1 (encode_reason _)), <- Hb.
  - destruct (_ && _) eqn:Hg; [|done]. bools. intros [= <-].
    match goal with H : length b = 8%nat |- _ => rename H into Hl end.
    pose proof (pair_inv b Hl) as Hb. cbn -[put]. rewrite put_pair, <- Hb.
    split_and!; [done|apply u32_at_typed; lia..].
  - case_bool_decide; [|done]. intros (o & Ho & ->)%result_fmap_Ok.
    apply outcome_inv in Ho as [-> T]; [|done]. by rewrite encode_outcome.
  - case_bool_decide; [|done]. intros (e & He & ->)%result_fmap_Ok.
    apply event_inv in He as (-> & Hl & T); [|lia]. by rewrite encode_event.
  - destruct (_ && _) eqn:Hg; [|done]. bools. intros (d & Hd & Hr)%result_bind_Ok.
    destruct (decode_encode_decision b d) as (T & _ & He); [done..|].
    assert (bd = Inject d) as -> by (destruct d; [done..|by injection Hr as <-]). done.
  - case_bool_decide as Hl; [|done]. intros ([] & Hz & Hr)%result_bind_Ok.
    destruct (reason_inv b Hl Hz) as [Hb Hu]. destruct (_ || _); [done|].
    cbn in Hr. destruct (negb _); [|done]. injection Hr as <-.
    by rewrite (proj2 (encode_reason _)), <- Hb.
  - case_bool_decide; [|done]. intros (d & Hd & ->)%result_fmap_Ok.
    by destruct (decode_encode_decision b d) as (T & He & _).
  - case_bool_decide; [|done]. intros (i & Hi & ->)%result_fmap_Ok.
    apply hello_inv in Hi as (-> & Hh & Ha & T); [|done].
    by rewrite (proj2 (encode_hello i Hh Ha)).
  - case_bool_decide; [|done]. intros (i & Hi & ->)%result_fmap_Ok.
    apply hello_inv in Hi as (-> & Hh & Ha & T); [|done].
    by rewrite (proj1 (encode_hello i Hh Ha)).
Qed.

Lemma encode_decode p bytes :
  packet_typed p → encode p = Ok bytes → length bytes = PACKET_SIZE ∧ decode bytes = Ok p.
Proof.
  intros [Ts Tb] ([op b] & Hb & H)%result_bind_Ok.
  apply result_bind_Ok in H as (p' & Hd & [= <-]).
  destruct (encode_decode_body _ _ _ Tb Hb) as (Hl & Hop & Hu).
  rewrite encode_bytes_frame in * by done.
  split; [by apply length_frame|]. rewrite Hd. f_equal.
  rewrite decode_frame in Hd by done.
  apply result_bind_Ok in Hd as (bd & ->%Hu & [= <-]). by destruct p.
Qed.

Lemma decode_encode bytes p : decode bytes = Ok p → packet_typed p ∧ encode p = Ok bytes.
Proof.
  intros Hd. pose proof Hd as (op & b & -> & Hl & Hop & Ts & Hb)%decode_inv.
  apply decode_encode_body in Hb as [He Tb]. split; [done|].
  unfold encode. rewrite He. cbn [mbind result_bind].
  rewrite encode_bytes_frame by done. by rewrite Hd.
Qed.

(** C31. The SHP1 codec is exact: whatever [Packet::encode] accepts is a 512-byte
    frame that [Packet::decode] reads back as the same packet, and whatever
    [Packet::decode] accepts is byte for byte what [Packet::encode] writes for the
    packet it returns, so no two frames carry the same packet and no frame has
    unread content. *)
Theorem packet_codec_exact :
  (∀ p bytes, packet_typed p → encode p = Ok bytes →
     length bytes = PACKET_SIZE ∧ decode bytes = Ok p) ∧
  (∀ bytes p, decode bytes = Ok p → packet_typed p ∧ encode p = Ok bytes).
Proof. split; [exact encode_decode|exact decode_encode]. Qed.

Definition sample_packet : Packet :=
  mkPacket (mkScope 0 7 11 900 3) (Inject (Replace 105 4)).

Definition sample_bytes : list byte :=
  match encode sample_packet with Ok b => b | Err _ => [] end.

Lemma packet_codec_exact_witness :
  (length sample_bytes = PACKET_SIZE ∧ decode sample_bytes = Ok sample_packet) ∧
  (packet_typed sample_packet ∧ encode sample_packet = Ok sample_bytes).
Proof.
  assert (encode sample_packet = Ok sample_bytes) as He by (vm_compute; reflexivity).
  assert (packet_typed sample_packet) as Ht by (repeat split; done).
  split.
  - exact (proj1 packet_codec_exact sample_packet sample_bytes Ht He).
  - apply (proj2 packet_codec_exact sample_bytes sample_packet). vm_compute. reflexivity.
Defined.
