(* ===== verification/Broker.v ===== *)
(** * The device broker (packages/linux/src/broker.rs)

    A [DeviceProxy] owns one grabbed keyboard and one virtual output. Its
    operations talk to the kernel (descriptors, poll, evdev, uinput) and to the
    client's socket; those are the operations of the class [Kernel], so that the
    proxy is a function of its own state and of the kernel's answers. Every
    operation runs in a state and error monad whose error is the
    [io::ErrorKind]. *)

From S2P Require Import Prelude Protocol KeyState Authorization.

(** What the broker reads of an input device's capabilities. *)
Record InputDevice : Type := mkInputDevice {
  dev_name : option string;
  dev_bus_type : Z;
  dev_supported_events : list Z;
  dev_supported_keys : option (gset Z);
  dev_misc : option (gset Z);
}.

(** [BUS_VIRTUAL], [EV_SYN], [EV_KEY], [EV_MSC], [KEY_A] and [KEY_ENTER] *)
Definition BUS_VIRTUAL : Z := 6.
Definition EV_SYN : Z := 0.
Definition EV_KEY : Z := 1.
Definition EV_MSC : Z := 4.
Definition KEY_A : Z := 30.
Definition KEY_ENTER : Z := 28.

(** The refusals of [from_authorized_fd]: our own output, virtual devices, and
    devices with capabilities the output cannot reproduce. *)
Definition unsupported_input (dev : InputDevice) : bool :=
  match dev_name dev with Some name => String.prefix "sledge broker" name | None => false end ||
  bool_decide (dev_bus_type dev = BUS_VIRTUAL) ||
  existsb (λ kind, negb (bool_decide (kind ∈ [EV_SYN; EV_KEY; EV_MSC])))
    (dev_supported_events dev).

(** ** The kernel and the client's socket

    One operation per call the broker makes; [fd] names the device. *)
Class Kernel (W : Type) : Type := {
  (** [getsockopt(SO_PEERCRED)] on the client's socket *)
  k_peer_identity : W → W * result IoErrorKind PeerIdentity;
  (** [poll] of the client's socket: whether it hung up *)
  k_poll_peer : W → W * result IoErrorKind bool;
  (** [poll] of the input for 25 ms: [None] on timeout, else whether it is gone *)
  k_poll_input : W → Z → W * result IoErrorKind (option bool);
  (** [fetch_events] *)
  k_fetch_events : W → Z → W * result IoErrorKind (list RawEvent);
  (** [get_key_state]: the keys physically down *)
  k_get_key_state : W → Z → W * result IoErrorKind (gset Z);
  (** [set_read_timeout] and [set_write_timeout] *)
  k_set_timeouts : W → W * result IoErrorKind unit;
  (** [Message::write_socket] and [Message::read_socket] within a deadline *)
  k_write_socket : W → Message → W * result IoErrorKind unit;
  k_read_socket : W → W * result IoErrorKind Message;
  (** [EVIOCGRAB] *)
  k_grab : W → Z → W * result IoErrorKind unit;
  k_ungrab : W → Z → W * result IoErrorKind unit;
  (** [VirtualDevice::emit]: one output frame *)
  k_emit : W → Z → list RawEvent → W * result IoErrorKind unit;
  (** [fcntl(O_NONBLOCK)] *)
  k_nonblocking : W → Z → W * result IoErrorKind unit;
  (** [RawDevice::from_fd] *)
  k_raw_device : W → Z → W * result IoErrorKind InputDevice;
  (** [VirtualDevice::builder] with the input's keys and misc codes *)
  k_build_output : W → Z → gset Z → option (gset Z) → W * result IoErrorKind unit;
}.

(** [DeviceProxy]; [px_fd] stands for its input and output descriptors. *)
Record DeviceProxy : Type := mkDeviceProxy {
  px_fd : Z;
  px_state : KeyState;
  px_generation : Z;
  px_epoch : Z;
  px_sequence : Z;
  px_grabbed : bool;
  px_pending : list RawEvent;
}.

Definition px_set_state s (p : DeviceProxy) : DeviceProxy :=
  mkDeviceProxy (px_fd p) s (px_generation p) (px_epoch p) (px_sequence p)
    (px_grabbed p) (px_pending p).
Definition px_set_epoch e (p : DeviceProxy) : DeviceProxy :=
  mkDeviceProxy (px_fd p) (px_state p) (px_generation p) e (px_sequence p)
    (px_grabbed p) (px_pending p).
Definition px_set_sequence n (p : DeviceProxy) : DeviceProxy :=
  mkDeviceProxy (px_fd p) (px_state p) (px_generation p) (px_epoch p) n
    (px_grabbed p) (px_pending p).
Definition px_set_grabbed b (p : DeviceProxy) : DeviceProxy :=
  mkDeviceProxy (px_fd p) (px_state p) (px_generation p) (px_epoch p) (px_sequence p)
    b (px_pending p).
Definition px_set_pending es (p : DeviceProxy) : DeviceProxy :=
  mkDeviceProxy (px_fd p) (px_state p) (px_generation p) (px_epoch p) (px_sequence p)
    (px_grabbed p) es.

(** [admitted_decision] *)
Definition admitted_decision (request reply : Message) : result IoErrorKind Operation :=
  if negb (is_decision (operation reply)) || negb (answers reply request) ||
     negb (bool_decide (event reply = event request))
  then Err PermissionDenied else Ok (operation reply).

(** [quiescent] *)
Definition quiescent (queue_empty keys_empty : bool) : result IoErrorKind unit :=
  if negb queue_empty || negb keys_empty then Err PermissionDenied else Ok ().

Section broker.
Context {W A : Type} `{Kernel W, SessionAuthority A}.

Definition St : Type := DeviceProxy * W * A.
(** The monad of the proxy's methods. *)
Definition M (X : Type) : Type := St → St * result IoErrorKind X.

#[global] Instance M_ret : MRet M := λ X x s, (s, Ok x).
#[global] Instance M_bind : MBind M := λ X Y f m s,
  match m s with
  | (s, Ok x) => f x s
  | (s, Err e) => (s, Err e)
  end.

Definition fail {X} (e : IoErrorKind) : M X := λ s, (s, Err e).
(** [return Err(denied(..))] *)
Definition denied {X} : M X := fail PermissionDenied.
Definition lift {X} (r : result IoErrorKind X) : M X := λ s, (s, r).
Definition get : M DeviceProxy := λ s, (s, Ok s.1.1).
Definition modify (f : DeviceProxy → DeviceProxy) : M unit :=
  λ '(p, w, a), ((f p, w, a), Ok ()).
Definition kernel {X} (f : W → W * result IoErrorKind X) : M X :=
  λ '(p, w, a), let '(w, r) := f w in ((p, w, a), r).
Definition device {X} (f : W → Z → W * result IoErrorKind X) : M X :=
  λ '(p, w, a), let '(w, r) := f w (px_fd p) in ((p, w, a), r).
Definition ask {X} (f : A → A * result IoErrorKind X) : M X :=
  λ '(p, w, a), let '(a, r) := f a in ((p, w, a), r).

Fixpoint for_each {X} (f : X → M unit) (l : list X) : M unit :=
  match l with
  | [] => mret ()
  | x :: l => f x ≫= λ _, for_each f l
  end.

(** [verify] *)
Definition verify (p : PeerIdentity) : M unit :=
  proof ← ask (λ a, authority_verify a p);
  if permits proof p then mret () else denied.

Definition check_device (p : PeerIdentity) : M unit :=
  d ← get; ask (λ a, verify_device a (px_fd d) p).
Definition check_output (p : PeerIdentity) : M unit :=
  d ← get; ask (λ a, verify_output_ready a (px_fd d) p).

(** [DeviceProxy::from_authorized_fd]; the proxy is handed out only when every
    check passed. *)
Definition from_authorized_fd (fd generation : Z) (p : PeerIdentity) (wa : W * A) :
    W * A * result IoErrorKind DeviceProxy :=
  let self := mkDeviceProxy fd KeyState_default generation 1 0 false [] in
  let checks : M unit :=
    _ ← verify p;
    _ ← check_device p;
    _ ← device k_nonblocking;
    input ← device k_raw_device;
    _ ← (if unsupported_input input then denied else mret ());
    keys ← lift (ok_or (dev_supported_keys input) PermissionDenied);
    _ ← (if negb (bool_decide (KEY_A ∈ keys)) || negb (bool_decide (KEY_ENTER ∈ keys))
         then denied else mret ());
    held ← device k_get_key_state;
    _ ← (if bool_decide (held = ∅) then mret () else denied);
    _ ← device (λ w fd, k_build_output w fd keys (dev_misc input));
    device k_nonblocking in
  let '((self, w, a), r) := checks (self, wa.1, wa.2) in
  (w, a, (λ _, self) <$> r).

(** One event of [DeviceProxy::emit]. *)
Definition emit_one (e : RawEvent) : M unit :=
  if bool_decide (event_type e = 0) && bool_decide (raw_code e = 0) then
    d ← get;
    _ ← device (λ w fd, k_emit w fd (px_pending d));
    modify (λ d, px_set_pending [] (px_set_state (commit_output (px_state d)) d))
  else if negb (bool_decide (event_type e = 0)) then
    d ← get;
    if bool_decide (256 ≤ length (px_pending d))%nat then denied
    else modify (px_set_pending (px_pending d ++ [e]))
  else mret ().

(** [DeviceProxy::emit] *)
Definition emit (events : list RawEvent) : M unit := for_each emit_one events.

(** [DeviceProxy::bypass]: errors of the cleanup are ignored. *)
Definition bypass : M unit := λ '(d, w, a),
  let d := px_set_pending [] d in
  let '(s, releases) := release_all (px_state d) in
  let '((d, w, a), _) := emit (releases ++ [RawEvent_default]) (px_set_state s d, w, a) in
  if px_grabbed d then
    let '(w, _) := k_ungrab w (px_fd d) in ((px_set_grabbed false d, w, a), Ok ())
  else ((d, w, a), Ok ()).

(** [if result.is_err() { self.bypass(); } result] *)
Definition or_bypass {X} (m : M X) : M X := λ s,
  match m s with
  | (s, Ok x) => (s, Ok x)
  | (s, Err e) => ((bypass s).1, Err e)
  end.

(** [DeviceProxy::check_post_grab] *)
Definition check_post_grab : M unit := λ s,
  match device k_fetch_events s with
  | (s, Err WouldBlock) =>
      (keys ← device k_get_key_state; lift (quiescent true (bool_decide (keys = ∅)))) s
  | (s, Err e) => (s, Err e)
  | (s, Ok events) =>
      (keys ← device k_get_key_state;
       lift (quiescent (bool_decide (events = [])) (bool_decide (keys = ∅)))) s
  end.

(** [DeviceProxy::activate] *)
Definition activate (p : PeerIdentity) : M unit :=
  _ ← verify p;
  _ ← check_device p;
  keys ← device k_get_key_state;
  _ ← (if bool_decide (keys = ∅) then mret () else denied);
  _ ← check_output p;
  _ ← device k_grab;
  _ ← modify (px_set_grabbed true);
  or_bypass (_ ← check_post_grab; check_output p).

(** [self.sequence.checked_add(1)] *)
Definition next_sequence : M unit :=
  d ← get;
  n ← lift (ok_or (checked_add_u64 (px_sequence d) 1) PermissionDenied);
  modify (px_set_sequence n).

(** The [Message] of the current sequence number. *)
Definition request (op : Operation) (e : RawEvent) : M Message :=
  d ← get; mret (mkMessage op (px_generation d) (px_epoch d) (px_sequence d) e).

(** [DeviceProxy::control] *)
Definition control (op : Operation) (e : RawEvent) : M unit :=
  _ ← next_sequence;
  req ← request op e;
  _ ← kernel (λ w, k_write_socket w req);
  reply ← kernel k_read_socket;
  if negb (bool_decide (operation reply = Pass)) || negb (answers reply req)
  then denied else mret ().

(** [DeviceProxy::retire_client] and [DeviceProxy::reset_client] *)
Definition retire_client : M unit := control DeviceRetire RawEvent_default.
Definition reset_client : M unit := control DeviceReset RawEvent_default.

(** The resync at the [SYN_REPORT] that ends a dropped sequence. *)
Definition pump_resync : M unit :=
  keys ← device k_get_key_state;
  d ← get;
  e ← lift (ok_or (checked_add_u64 (px_epoch d) 1) PermissionDenied);
  _ ← modify (px_set_epoch e);
  let '(s, reconciled) := resync (px_state d) keys in
  _ ← modify (px_set_state s);
  _ ← reset_client;
  _ ← for_each (λ code, control SnapshotKey (key code 1)) (ascending keys);
  _ ← emit reconciled;
  emit [RawEvent_default].

(** [decision]: only a key event outside a dropped sequence is asked about. *)
Definition pump_decision (req : Message) (raw : RawEvent) : M Operation :=
  d ← get;
  if bool_decide (event_type raw = 1) && negb (dropping (px_state d)) then
    _ ← kernel (λ w, k_write_socket w req);
    reply ← kernel k_read_socket;
    lift (admitted_decision req reply)
  else mret Pass.

(** One event of the batch. *)
Definition pump_event (p : PeerIdentity) (raw : RawEvent) : M unit :=
  _ ← verify p;
  d ← get;
  if dropping (px_state d) && bool_decide (event_type raw = 0) &&
     bool_decide (raw_code raw = 0)
  then pump_resync
  else
    _ ← next_sequence;
    req ← request Event raw;
    decision ← pump_decision req raw;
    _ ← (if is_dropped raw
         then modify (λ d, px_set_state (rollback_output (px_state d))
                             (px_set_pending [] d))
         else mret ());
    d ← get;
    let '(s, out) := apply (px_state d) raw decision in
    _ ← modify (px_set_state s);
    emit out.

(** [DeviceProxy::pump_inner] *)
Definition pump_inner : M unit :=
  p ← kernel k_peer_identity;
  _ ← verify p;
  _ ← check_device p;
  _ ← check_output p;
  d ← get;
  _ ← (if px_grabbed d then mret () else denied);
  hung_up ← kernel k_poll_peer;
  _ ← (if hung_up : bool then fail BrokenPipe else mret ());
  polled ← device k_poll_input;
  match polled with
  | None => mret ()
  | Some true => fail BrokenPipe
  | Some false =>
      fetched ← device k_fetch_events;
      let events := take 257 fetched in
      _ ← (if bool_decide (256 < length events)%nat then denied else mret ());
      _ ← kernel k_set_timeouts;
      for_each (pump_event p) events
  end.

(** [DeviceProxy::pump] *)
Definition pump : M unit := or_bypass pump_inner.
End broker.
