(* ===== verification/BrokerInv.v ===== *)
(** * The broker strands no key

    A small program logic for the proxy's monad, the laws that the proofs need
    of the kernel, and the theorems: after every operation the consumer of the
    virtual keyboard agrees with the proxy's bookkeeping, and whenever capture
    ends the consumer is left with no key held. *)

From S2P Require Import Prelude Protocol KeyState Authorization Broker.

(** ** What is assumed of the kernel

    [held w fd] is what the reader of the virtual output of [fd] believes is
    down, [sent w] the messages the client was sent. *)
Class KernelLaws (W : Type) `{Kernel W} : Type := {
  held : W → Z → gset Z;
  sent : W → list Message;
  (** [VirtualDevice::emit]: an accepted frame is delivered whole. *)
  emit_accepted w fd p w' u :
    k_emit w fd p = (w', Ok u) → held w' fd = view (held w fd) p;
  (** A refused frame is delivered in part at most: a key that is down after it
      was down before it or is down at its end. *)
  emit_refused w fd p w' e :
    k_emit w fd p = (w', Err e) → held w' fd ⊆ held w fd ∪ view (held w fd) p;
  emit_other w fd p fd' : fd' ≠ fd → held (k_emit w fd p).1 fd' = held w fd';
  emit_sent w fd p : sent (k_emit w fd p).1 = sent w;
  (** A message is sent whole, or not at all as far as the client's frames go. *)
  write_sent w m w' r :
    k_write_socket w m = (w', r) →
    sent w' = match r with Ok _ => sent w ++ [m] | Err _ => sent w end;
  write_held w m fd : held (k_write_socket w m).1 fd = held w fd;
  (** [EVIOCGKEY] reports key codes below [KEY_CNT]. *)
  key_state_bound w fd w' keys :
    k_get_key_state w fd = (w', Ok keys) → ∀ k, k ∈ keys → 0 ≤ k ≤ MAX_KEY;
  (** Nothing else reaches the consumer or the client. *)
  peer_identity_frame w fd :
    held (k_peer_identity w).1 fd = held w fd ∧ sent (k_peer_identity w).1 = sent w;
  poll_peer_frame w fd :
    held (k_poll_peer w).1 fd = held w fd ∧ sent (k_poll_peer w).1 = sent w;
  poll_input_frame w fd fd' :
    held (k_poll_input w fd).1 fd' = held w fd' ∧ sent (k_poll_input w fd).1 = sent w;
  fetch_events_frame w fd fd' :
    held (k_fetch_events w fd).1 fd' = held w fd' ∧ sent (k_fetch_events w fd).1 = sent w;
  get_key_state_frame w fd fd' :
    held (k_get_key_state w fd).1 fd' = held w fd' ∧ sent (k_get_key_state w fd).1 = sent w;
  set_timeouts_frame w fd :
    held (k_set_timeouts w).1 fd = held w fd ∧ sent (k_set_timeouts w).1 = sent w;
  read_socket_frame w fd :
    held (k_read_socket w).1 fd = held w fd ∧ sent (k_read_socket w).1 = sent w;
  grab_frame w fd fd' :
    held (k_grab w fd).1 fd' = held w fd' ∧ sent (k_grab w fd).1 = sent w;
  ungrab_frame w fd fd' :
    held (k_ungrab w fd).1 fd' = held w fd' ∧ sent (k_ungrab w fd).1 = sent w;
  nonblocking_frame w fd fd' :
    held (k_nonblocking w fd).1 fd' = held w fd' ∧ sent (k_nonblocking w fd).1 = sent w;
  raw_device_frame w fd fd' :
    held (k_raw_device w fd).1 fd' = held w fd' ∧ sent (k_raw_device w fd).1 = sent w;
  (** A new virtual output has no key down. *)
  build_output_held w fd keys misc w' u :
    k_build_output w fd keys misc = (w', Ok u) → held w' fd = ∅;
  build_output_sent w fd keys misc : sent (k_build_output w fd keys misc).1 = sent w;
}.

(** ** Triples

    [triple P m Q E]: from a state with [P], [m] ends with [Q] on success and
    with [E] on an error. *)
Section logic.
Context {W A : Type} `{Kernel W, SessionAuthority A}.
Implicit Types P E : @St W A → Prop.

Definition triple {X} P (m : M X) (Q : X → @St W A → Prop) E : Prop :=
  ∀ s, P s → match m s with
             | (s', Ok x) => Q x s'
             | (s', Err _) => E s'
             end.

Lemma triple_bind {X Y} P (m : M X) (f : X → M Y) Q R E :
  triple P m Q E → (∀ x, triple (Q x) (f x) R E) → triple P (m ≫= f) R E.
Proof.
  intros Hm Hf s Hs. unfold mbind, M_bind. specialize (Hm s Hs).
  destruct (m s) as [s' [x|e]]; [|done]. by apply (Hf x).
Qed.

Lemma triple_ret {X} (x : X) P (Q : X → _ → Prop) E :
  (∀ s, P s → Q x s) → triple P (mret x) Q E.
Proof. intros HQ s Hs. by apply HQ. Qed.

Lemma triple_fail {X} e P (Q : X → _ → Prop) E :
  (∀ s, P s → E s) → triple P (fail e) Q E.
Proof. intros HE s Hs. by apply HE. Qed.

Lemma triple_get P (Q : DeviceProxy → _ → Prop) E :
  (∀ s, P s → Q s.1.1 s) → triple P get Q E.
Proof. intros HQ s Hs. by apply HQ. Qed.

Lemma triple_modify f P (Q : unit → _ → Prop) E :
  (∀ d w a, P (d, w, a) → Q () (f d, w, a)) → triple P (modify f) Q E.
Proof. intros HQ [[d w] a] Hs. by apply HQ. Qed.

Lemma triple_lift {X} (r : result IoErrorKind X) P (Q : X → _ → Prop) E :
  (∀ s x, r = Ok x → P s → Q x s) → (∀ s, P s → E s) → triple P (lift r) Q E.
Proof. intros HQ HE s Hs. unfold lift. destruct r; [by apply HQ|by apply HE]. Qed.

Lemma triple_weaken {X} P P' (m : M X) (Q Q' : X → _ → Prop) E E' :
  triple P' m Q' E' → (∀ s, P s → P' s) → (∀ x s, Q' x s → Q x s) →
  (∀ s, E' s → E s) → triple P m Q E.
Proof.
  intros Hm HP HQ HE s Hs. specialize (Hm s (HP s Hs)).
  destruct (m s) as [s' [x|e]]; auto.
Qed.

Lemma triple_if {X} (b : bool) P (m m' : M X) Q E :
  (b = true → triple P m Q E) → (b = false → triple P m' Q E) →
  triple P (if b then m else m') Q E.
Proof. destruct b; auto. Qed.

(** A loop with an invariant. *)
Lemma triple_for_each {X} (f : X → M unit) (l : list X) P E :
  (∀ x, x ∈ l → triple P (f x) (λ _, P) E) → triple P (for_each f l) (λ _, P) E.
Proof.
  induction l as [|x l IH]; intros Hf; simpl.
  - by apply triple_ret.
  - eapply triple_bind; [apply Hf; set_solver|]. intros []. apply IH. set_solver.
Qed.

Lemma for_each_app {X} (f : X → M unit) (l1 l2 : list X) (s : @St W A) :
  for_each f (l1 ++ l2) s = (for_each f l1 ≫= λ _, for_each f l2) s.
Proof.
  revert s. induction l1 as [|x l1 IH]; intros s; [done|]. simpl.
  unfold mbind, M_bind. destruct (f x s) as [s' [[]|e]]; [|done]. apply IH.
Qed.

(** The authority cannot touch the proxy or the kernel. *)
Lemma triple_ask {X} (f : A → A * result IoErrorKind X) P (Q : X → _ → Prop) E :
  (∀ d w a a' x, P (d, w, a) → Q x (d, w, a')) →
  (∀ d w a a', P (d, w, a) → E (d, w, a')) → triple P (ask f) Q E.
Proof.
  intros HQ HE [[d w] a] Hs. unfold ask. destruct (f a) as [a' [x|e]]; eauto.
Qed.
End logic.

(** ** The invariant *)
Section invariant.
Context {W A : Type} `{KernelLaws W, SessionAuthority A}.

(** The proxy's bookkeeping agrees with its consumer: with the output [es]
    still to be emitted, the pending frame and [es] take the consumer from
    what it holds to [output]. *)
Definition Emitting (es : list RawEvent) (s : @St W A) : Prop :=
  let '(d, w, _) := s in
  frame_inv (px_state d) (held w (px_fd d)) (px_pending d ++ es).

Definition ProxyInv : @St W A → Prop := Emitting [].

(** Enough for the cleanup: everything the consumer holds is accounted for. *)
Definition Covered (s : @St W A) : Prop :=
  let '(d, w, _) := s in
  held w (px_fd d) ⊆ output (px_state d) ∪ committed_output (px_state d).

Lemma Emitting_covered es s : Emitting es s → Covered s.
Proof. destruct s as [[d w] a]. intros [Hc _ _ _ _]. simpl. set_solver. Qed.

(** Operations of the kernel that the consumer does not see. *)
Lemma triple_kernel {X} (f : W → W * result IoErrorKind X) es :
  (∀ w fd, held (f w).1 fd = held w fd) →
  triple (Emitting es) (kernel f) (λ _, Emitting es) Covered.
Proof.
  intros Hf [[d w] a] Hs. unfold kernel. specialize (Hf w (px_fd d)).
  destruct (f w) as [w' [x|e]]; simpl in *.
  - by rewrite Hf.
  - apply (Emitting_covered es (d, w', a)). simpl. by rewrite Hf.
Qed.

Lemma triple_device {X} (f : W → Z → W * result IoErrorKind X) es :
  (∀ w fd, held (f w fd).1 fd = held w fd) →
  triple (Emitting es) (device f) (λ _, Emitting es) Covered.
Proof.
  intros Hf [[d w] a] Hs. unfold device. specialize (Hf w (px_fd d)).
  destruct (f w (px_fd d)) as [w' [x|e]]; simpl in *.
  - by rewrite Hf.
  - apply (Emitting_covered es (d, w', a)). simpl. by rewrite Hf.
Qed.

Lemma triple_ask_inv {X} (f : A → A * result IoErrorKind X) es :
  triple (Emitting es) (ask f) (λ _, Emitting es) Covered.
Proof.
  apply triple_ask; [by intros|]. intros. by apply (Emitting_covered es).
Qed.

Lemma triple_fail_inv {X} e es (Q : X → _ → Prop) :
  triple (Emitting es) (fail e) Q Covered.
Proof. apply triple_fail. apply Emitting_covered. Qed.

(** [get] followed by code that only looks at the proxy. *)
Lemma triple_get_inv {X} (f : DeviceProxy → M X) es (Q : X → _ → Prop) E :
  (∀ d, triple (λ s, Emitting es s ∧ s.1.1 = d) (f d) Q E) →
  triple (Emitting es) (d ← get; f d) Q E.
Proof.
  intros Hf. eapply triple_bind; [by apply (triple_get _ (λ d s, Emitting es s ∧ s.1.1 = d))|].
  done.
Qed.

Lemma triple_drop {X} P (m : M X) d (Q : X → @St W A → Prop) E :
  triple P m Q E → triple (λ s, P s ∧ s.1.1 = d) m Q E.
Proof. intros Hm. eapply triple_weaken; [done|by intros ? []|done..]. Qed.

Lemma triple_verify p es : triple (Emitting es) (verify p) (λ _, Emitting es) Covered.
Proof.
  eapply triple_bind; [apply triple_ask_inv|]. intros proof.
  apply triple_if; intros _; [by apply triple_ret|apply triple_fail_inv].
Qed.

Lemma triple_check_device p es :
  triple (Emitting es) (check_device p) (λ _, Emitting es) Covered.
Proof. apply triple_get_inv. intros d. apply triple_drop, triple_ask_inv. Qed.

Lemma triple_check_output p es :
  triple (Emitting es) (check_output p) (λ _, Emitting es) Covered.
Proof. apply triple_get_inv. intros d. apply triple_drop, triple_ask_inv. Qed.

(** Changes of the proxy that touch neither its keys nor its frame. *)
Lemma triple_modify_other f es :
  (∀ d, px_fd (f d) = px_fd d ∧ px_state (f d) = px_state d ∧
        px_pending (f d) = px_pending d) →
  triple (Emitting es) (modify f) (λ _, Emitting es) Covered.
Proof.
  intros Hf. apply triple_modify. intros d w a. simpl.
  destruct (Hf d) as (-> & -> & ->). done.
Qed.

Lemma triple_next_sequence es :
  triple (Emitting es) next_sequence (λ _, Emitting es) Covered.
Proof.
  apply triple_get_inv. intros d. apply triple_drop.
  eapply triple_bind; [apply (triple_lift _ _ (λ _, Emitting es));
    [done|apply Emitting_covered]|]. intros n. by apply triple_modify_other.
Qed.

Lemma triple_request op e es :
  triple (Emitting es) (request op e) (λ _, Emitting es) Covered.
Proof. apply triple_get_inv. intros d. apply triple_drop. by apply triple_ret. Qed.

Lemma triple_control op e es :
  triple (Emitting es) (control op e) (λ _, Emitting es) Covered.
Proof.
  eapply triple_bind; [apply triple_next_sequence|]. intros [].
  eapply triple_bind; [apply triple_request|]. intros req.
  eapply triple_bind; [apply triple_kernel; intros; apply write_held|]. intros u.
  eapply triple_bind; [apply triple_kernel; intros; by apply read_socket_frame|].
  intros reply. apply triple_if; intros _; [apply triple_fail_inv|by apply triple_ret].
Qed.

(** ** Emission *)

(** [SYN_REPORT], the end of a frame. *)
Definition is_syn_report (e : RawEvent) : bool :=
  bool_decide (event_type e = 0) && bool_decide (raw_code e = 0).

Lemma triple_emit_key e es :
  event_type e ≠ 0 → 
  triple (Emitting (e :: es)) (emit_one e) (λ _, Emitting es) Covered.
Proof.
  intros He. unfold emit_one. rewrite bool_decide_false by done. simpl.
  apply triple_get_inv. intros d. apply triple_if; intros _.
  { apply triple_drop, triple_fail_inv. }
  apply triple_modify. intros d' w a [Hs Heq]. simpl in Heq. subst d. simpl in *.
  by rewrite <- app_assoc.
Qed.

Lemma triple_emit_syn e :
  is_syn_report e = true →
  triple ProxyInv (emit_one e) (λ _, ProxyInv) Covered.
Proof.
  intros He. unfold emit_one. unfold is_syn_report in He. rewrite He.
  intros [[d w] a] Hs. unfold mbind, M_bind, get, device; simpl.
  destruct (k_emit w (px_fd d) (px_pending d)) as [w' [u|e']] eqn:Hk; simpl.
  - apply emit_accepted in Hk. simpl in Hs. rewrite app_nil_r in Hs.
    apply commit_frame in Hs. by rewrite Hk.
  - apply emit_refused in Hk. destruct Hs as [Hc Ho _ _ _]. rewrite app_nil_r in Ho.
    rewrite Ho, Hc. set_solver.
Qed.

Lemma triple_emit_keys es es' :
  Forall (λ e, event_type e ≠ 0) es →
  triple (Emitting (es ++ es')) (emit es) (λ _, Emitting es') Covered.
Proof.
  intros Hes. unfold emit. induction Hes as [|e es He Hes IH]; simpl.
  - by apply triple_ret.
  - eapply triple_bind; [by apply triple_emit_key|]. by intros [].
Qed.

(** ** The loop *)

Lemma resync_no_syn s keys : Forall (λ e, event_type e ≠ 0) (resync s keys).2.
Proof.
  unfold resync. destruct (resync_loop _ _ _) as [out es] eqn:Hl. simpl.
  apply Forall_app. split; [by apply Forall_fmap, Forall_true|].
  revert Hl. generalize (output s ∩ keys). revert out es.
  induction (ascending keys) as [|k ks IH]; intros out es o; simpl.
  { by intros [= <- <-]. }
  destruct (_ && _); [|by apply IH].
  destruct (resync_loop _ _ ks) eqn:Hl. intros [= <- <-].
  constructor; [done|]. by eapply IH.
Qed.

Lemma triple_pump_resync : triple ProxyInv pump_resync (λ _, ProxyInv) Covered.
Proof.
  eapply triple_bind; [apply triple_device; intros; by apply get_key_state_frame|].
  intros keys. apply triple_get_inv. intros d.
  eapply (triple_bind _ _ _ (λ _ s, ProxyInv s ∧ px_state s.1.1 = px_state d)).
  { apply triple_lift; [|intros s [? _]; by eapply Emitting_covered].
    intros s x _ [? <-]. done. }
  intros ep. eapply (triple_bind _ _ _ (λ _ s, ProxyInv s ∧ px_state s.1.1 = px_state d)).
  { by apply triple_modify. }
  intros []. pose proof (resync_no_syn (px_state d) keys) as Hsyn.
  destruct (resync (px_state d) keys) as [s' es] eqn:Hr.
  eapply (triple_bind _ _ _ (λ _, Emitting (es ++ []))).
  { apply triple_modify. intros d' w a [Hs Heq]. simpl in *. rewrite app_nil_r in Hs.
    rewrite Heq in Hs. eapply resync_frame in Hs as [Hs _]; [|exact Hr].
    by rewrite app_nil_r. }
  intros []. eapply triple_bind; [apply triple_control|]. intros [].
  eapply triple_bind; [apply triple_for_each; intros; apply triple_control|]. intros [].
  eapply triple_bind; [by apply triple_emit_keys|]. intros [].
  eapply triple_bind; [by apply triple_emit_syn|]. intros []. by apply triple_ret.
Qed.

(** Every answer the loop acts on is a decision. *)
Lemma admitted_is_decision req reply d :
  admitted_decision req reply = Ok d → is_decision d = true.
Proof.
  unfold admitted_decision. destruct (_ || _) eqn:Hg; [done|]. intros [= <-]. by bools.
Qed.

Lemma triple_pump_decision req raw es :
  triple (Emitting es) (pump_decision req raw)
    (λ d s, Emitting es s ∧ is_decision d = true) Covered.
Proof.
  apply triple_get_inv. intros d. apply triple_drop. apply triple_if; intros _.
  - eapply triple_bind; [apply triple_kernel; intros; apply write_held|]. intros u.
    eapply triple_bind; [apply triple_kernel; intros; by apply read_socket_frame|].
    intros reply. apply triple_lift; [|apply Emitting_covered].
    intros s x Hx ?. split; [done|]. by eapply admitted_is_decision.
  - by apply triple_ret.
Qed.

Lemma frame_inv_syn s v p e :
  event_type e = 0 → frame_inv s v (p ++ [e]) → frame_inv s v p.
Proof.
  intros He [Hc Ho [Ha _]%alternates_app Hown Hb]. split; [done| |done..].
  rewrite Ho, view_snoc. unfold view_event. by rewrite He.
Qed.

Lemma triple_emit_single e : triple (Emitting [e]) (emit_one e) (λ _, ProxyInv) Covered.
Proof.
  destruct (decide (event_type e = 0)) as [He|He]; [|by apply triple_emit_key].
  apply (triple_weaken _ ProxyInv _ _ (λ _, ProxyInv) _ Covered); [| |done..].
  - destruct (is_syn_report e) eqn:Hs; [by apply triple_emit_syn|].
    unfold is_syn_report in Hs. unfold emit_one. rewrite Hs, He. by apply triple_ret.
  - intros [[d w] a]. simpl. rewrite app_nil_r. by apply frame_inv_syn.
Qed.

(** [apply] lets through the event itself or nothing. *)
Lemma apply_out s e d : (apply s e d).2 = [] ∨ (apply s e d).2 = [e].
Proof. unfold apply, press, set_insert, set_remove. repeat case_match; auto. Qed.

Lemma triple_emit_out s e d :
  triple (Emitting (apply s e d).2) (emit (apply s e d).2) (λ _, ProxyInv) Covered.
Proof.
  destruct (apply_out s e d) as [->| ->]; simpl; [by apply triple_ret|].
  eapply triple_bind; [apply triple_emit_single|]. intros []. by apply triple_ret.
Qed.

(** [apply] on a prepared state: on [SYN_DROPPED] the pending frame is gone and
    the speculative output was rolled back. *)
Lemma apply_prepared e d k v p :
  (if is_dropped e then ∃ p0 k0, frame_inv k0 v p0 ∧ k = rollback_output k0 ∧ p = []
   else frame_inv k v p) →
  is_decision d = true → frame_inv (apply k e d).1 v (p ++ (apply k e d).2).
Proof.
  intros Hk Hd. destruct (is_dropped e) eqn:He.
  - destruct Hk as (p0 & k0 & Hk & -> & ->).
    destruct (rollback_frame k0 v p0 e d Hk He Hd) as (Hr & _ & ->). done.
  - destruct (dropping k) eqn:Hdr.
    + rewrite apply_dropping by done. simpl. by rewrite app_nil_r.
    + destruct (apply k e d) as [s' es] eqn:Ha. by eapply apply_frame.
Qed.

Lemma triple_pump_event p raw : triple ProxyInv (pump_event p raw) (λ _, ProxyInv) Covered.
Proof.
  eapply triple_bind; [apply triple_verify|]. intros [].
  apply triple_get_inv. intros d0. apply triple_if; intros _.
  { apply triple_drop, triple_pump_resync. }
  apply triple_drop.
  eapply triple_bind; [apply triple_next_sequence|]. intros [].
  eapply triple_bind; [apply triple_request|]. intros req.
  eapply triple_bind; [apply triple_pump_decision|]. intros dec.
  eapply (triple_bind _ _ _ (λ _ s, is_decision dec = true ∧
    let '(d, w, _) := s in
    if is_dropped raw then
      ∃ p0 k0, frame_inv k0 (held w (px_fd d)) p0 ∧ px_state d = rollback_output k0 ∧
               px_pending d = []
    else frame_inv (px_state d) (held w (px_fd d)) (px_pending d))).
  { apply triple_if; intros Hdr; rewrite Hdr.
    - apply triple_modify. intros d w a [Hs Hdec]. split; [done|]. simpl. eauto.
    - apply triple_ret. intros [[d w] a] [Hs Hdec]. split; [done|].
      simpl in Hs. by rewrite app_nil_r in Hs. }
  intros []. intros [[d w] a] [Hdec Hs]. unfold mbind, M_bind, get; simpl.
  pose proof (apply_prepared raw dec (px_state d) (held w (px_fd d)) (px_pending d) Hs Hdec)
    as Hf.
  pose proof (triple_emit_out (px_state d) raw dec) as He.
  destruct (apply (px_state d) raw dec) as [s' es]; simpl in *.
  apply (He (px_set_state s' d, w, a) Hf).
Qed.

Lemma triple_pump_inner : triple ProxyInv pump_inner (λ _, ProxyInv) Covered.
Proof.
  eapply triple_bind; [apply triple_kernel; intros; by apply peer_identity_frame|].
  intros p. eapply triple_bind; [apply triple_verify|]. intros [].
  eapply triple_bind; [apply triple_check_device|]. intros [].
  eapply triple_bind; [apply triple_check_output|]. intros [].
  apply triple_get_inv. intros d. apply triple_drop.
  eapply (triple_bind _ _ _ (λ _, ProxyInv)).
  { apply triple_if; intros _; [by apply triple_ret|apply triple_fail_inv]. }
  intros []. eapply triple_bind; [apply triple_kernel; intros; by apply poll_peer_frame|].
  intros hung. eapply (triple_bind _ _ _ (λ _, ProxyInv)).
  { apply triple_if; intros _; [apply triple_fail_inv|by apply triple_ret]. }
  intros []. eapply triple_bind; [apply triple_device; intros; by apply poll_input_frame|].
  intros [[]|]; [apply triple_fail_inv| |by apply triple_ret].
  eapply triple_bind; [apply triple_device; intros; by apply fetch_events_frame|].
  intros fetched. eapply (triple_bind _ _ _ (λ _, ProxyInv)).
  { apply triple_if; intros _; [apply triple_fail_inv|by apply triple_ret]. }
  intros []. eapply triple_bind; [apply triple_kernel; intros; by apply set_timeouts_frame|].
  intros []. apply triple_for_each. intros e _. apply triple_pump_event.
Qed.

(** ** Cleanup *)

(** The kernel (or the frame bound) refused the frame of releases. *)
Definition cleanup_refused (s : @St W A) : Prop :=
  let '(d, w, a) := s in
  let '(k, releases) := release_all (px_state d) in
  ∃ e, (emit (releases ++ [RawEvent_default])
          (px_set_state k (px_set_pending [] d), w, a)).2 = Err e.

Lemma triple_emit_releases d w (a : A) ks :
  triple (λ s : @St W A, s = (d, w, a)) (emit ((λ c, key c 0) <$> ks))
    (λ _ s, s = (px_set_pending (px_pending d ++ ((λ c, key c 0) <$> ks)) d, w, a))
    (λ _, True).
Proof.
  revert d. induction ks as [|k ks IH]; intros d.
  - apply triple_ret. intros s ->. rewrite app_nil_r. by destruct d.
  - simpl.
    eapply (triple_bind _ _ _
      (λ _ s, s = (px_set_pending (px_pending d ++ [key k 0]) d, w, a))).
    + intros s ->. unfold emit_one; simpl. unfold mbind, M_bind, get; simpl.
      case_bool_decide; simpl; [done|]. reflexivity.
    + intros []. eapply triple_weaken;
        [apply (IH (px_set_pending (px_pending d ++ [key k 0]) d))|by intros| |by intros].
      intros [] s ->. simpl. by rewrite <- app_assoc.
Qed.

Lemma emit_cleanup d w (a : A) ks :
  px_pending d = [] → px_state d = KeyState_default →
  triple (λ s : @St W A, s = (d, w, a))
    (emit (((λ c, key c 0) <$> ks) ++ [RawEvent_default]))
    (λ _ s, held s.1.2 (px_fd s.1.1) = view (held w (px_fd d)) ((λ c, key c 0) <$> ks) ∧
            px_state s.1.1 = KeyState_default ∧ px_pending s.1.1 = [])
    (λ _, True).
Proof.
  intros Hp Hst s ->. unfold emit. rewrite for_each_app. unfold mbind, M_bind.
  pose proof (triple_emit_releases d w a ks (d, w, a) eq_refl) as He. unfold emit in He.
  destruct (for_each emit_one _ (d, w, a)) as [s1 [[]|e]]; [|done]. subst s1.
  rewrite Hp. simpl. unfold emit_one; simpl. unfold mbind, M_bind, get, device; simpl.
  destruct (k_emit w (px_fd d) _) as [w' [u'|e]] eqn:Hk; simpl; [|done].
  apply emit_accepted in Hk. by rewrite Hst.
Qed.

(** Whatever happened before, [bypass] ungrabs; and when the kernel takes the
    releases the consumer holds nothing and the proxy is as new. *)
Lemma bypass_spec s :
  Covered s →
  px_grabbed (bypass s).1.1.1 = false ∧
  (cleanup_refused s ∨
   (held (bypass s).1.1.2 (px_fd (bypass s).1.1.1) = ∅ ∧ ProxyInv (bypass s).1)).
Proof.
  destruct s as [[d w] a]. intros Hcov. unfold bypass, cleanup_refused, release_all.
  pose proof (release_all_view (px_state d) (held w (px_fd d))) as Hview.
  pose proof (emit_cleanup (px_set_state KeyState_default (px_set_pending [] d)) w a
    (ascending (output (px_state d) ∪ committed_output (px_state d)))
    eq_refl eq_refl _ eq_refl) as He.
  change (px_state (px_set_pending [] d)) with (px_state d).
  simpl in Hview, He. rewrite Hview in He by set_solver. clear Hview.
  destruct (emit _ _) as [[[d1 w1] a1] r]; cbn [fst snd] in *.
  set (s' := if px_grabbed d1 then _ else _).
  assert (px_grabbed s'.1.1.1 = false ∧ s'.1.1.1 = px_set_grabbed false d1 ∧
          held s'.1.1.2 (px_fd d1) = held w1 (px_fd d1)) as (Hg & Hd & Hw).
  { unfold s'. destruct (px_grabbed d1) eqn:Hg.
    - pose proof (ungrab_frame w1 (px_fd d1) (px_fd d1)) as [Hf _].
      destruct (k_ungrab w1 (px_fd d1)) as [w2 u]. done.
    - split_and!; [done| |done]. destruct d1; simpl in *. by rewrite Hg. }
  split; [done|]. destruct r as [[]|e]; [right|left; by eexists].
  destruct He as (Hh & Hs & Hp). destruct s'.1 as [[d2 w2] a2]; simpl in *. subst d2.
  simpl. rewrite Hw, Hh. split; [done|]. rewrite Hs, Hp. apply frame_inv_default.
Qed.

Lemma triple_or_bypass {X} P (m : @M W A X) Q :
  triple P m Q Covered →
  triple P (or_bypass m) Q (λ s, px_grabbed s.1.1 = false).
Proof.
  intros Hm s Hs. unfold or_bypass. specialize (Hm s Hs).
  destruct (m s) as [s' [x|e]]; [done|]. by apply bypass_spec.
Qed.

Lemma triple_check_post_grab : triple ProxyInv check_post_grab (λ _, ProxyInv) Covered.
Proof.
  assert (∀ b, triple ProxyInv
    (keys ← device k_get_key_state; lift (quiescent b (bool_decide (keys = ∅))))
    (λ _, ProxyInv) Covered) as Hq.
  { intros b. eapply triple_bind; [apply triple_device; intros; by apply get_key_state_frame|].
    intros keys. by apply triple_lift; [|apply Emitting_covered]. }
  assert (∀ w fd, held (k_fetch_events w fd).1 fd = held w fd) as Hfetch
    by (intros; by apply fetch_events_frame).
  intros [[d w] a] Hs. unfold check_post_grab.
  specialize (Hfetch w (px_fd d)). unfold device at 1 2.
  destruct (k_fetch_events w (px_fd d)) as [w' r]; simpl in Hfetch.
  assert (ProxyInv (d, w', a)) as Hs' by (simpl in *; by rewrite Hfetch).
  destruct r as [evs|[]]; try (by apply (Emitting_covered [])).
  - apply (Hq (bool_decide (evs = [])) _ Hs').
  - apply (Hq true _ Hs').
Qed.

Lemma triple_any_err {X} P (m : @M W A X) Q E : triple P m Q E → triple P m Q (λ _, True).
Proof. intros Hm. by eapply triple_weaken. Qed.

Lemma triple_activate p :
  triple ProxyInv (activate p) (λ _, ProxyInv) (λ _, True).
Proof.
  eapply triple_bind; [eapply triple_any_err, triple_verify|]. intros [].
  eapply triple_bind; [eapply triple_any_err, triple_check_device|]. intros [].
  eapply triple_bind; [eapply triple_any_err, triple_device; intros; by apply get_key_state_frame|].
  intros keys. eapply (triple_bind _ _ _ (λ _, ProxyInv)).
  { apply triple_if; intros _; [apply triple_ret|apply triple_fail]; by intros. }
  intros []. eapply triple_bind; [eapply triple_any_err, triple_check_output|].
  intros []. eapply triple_bind; [eapply triple_any_err, triple_device; intros; by apply grab_frame|].
  intros []. eapply triple_bind; [apply (triple_any_err _ _ (λ _, ProxyInv) Covered), triple_modify_other; by intros|].
  intros []. eapply triple_any_err, triple_or_bypass.
  eapply triple_bind; [apply triple_check_post_grab|]. intros []. apply triple_check_output.
Qed.

(** ** Admission

    None of the checks of [from_authorized_fd] changes the proxy. *)

Definition Is (self : DeviceProxy) (s : @St W A) : Prop := s.1.1 = self.

Lemma keep_device {X} (f : W → Z → W * result IoErrorKind X) self :
  triple (Is self) (device f) (λ _, Is self) (λ _, True).
Proof.
  intros [[d w] a] Hs. unfold device. by destruct (f w (px_fd d)) as [? []].
Qed.

Lemma keep_guard (b : bool) self :
  triple (Is self) (if b then denied else mret ()) (λ _, Is self) (λ _, True) ∧
  triple (Is self) (if b then mret () else denied) (λ _, Is self) (λ _, True).
Proof. by destruct b; split; intros s. Qed.

Lemma keep_verify p self : triple (Is self) (verify p) (λ _, Is self) (λ _, True).
Proof.
  eapply (triple_bind _ _ _ (λ _, Is self)); [by apply triple_ask|].
  intros proof. apply keep_guard.
Qed.

Lemma keep_check_device p self : triple (Is self) (check_device p) (λ _, Is self) (λ _, True).
Proof.
  eapply (triple_bind _ _ _ (λ _, Is self)); [by apply triple_get|].
  intros d. by apply triple_ask.
Qed.

(** A new proxy is in the invariant. *)
Lemma from_authorized_inv fd g p w a w' a' d :
  from_authorized_fd fd g p (w, a) = (w', a', Ok d) →
  d = mkDeviceProxy fd KeyState_default g 1 0 false [] ∧ ProxyInv (d, w', a').
Proof.
  unfold from_authorized_fd. set (self := mkDeviceProxy fd _ g 1 0 false []).
  set (checks := verify p ≫= _). cbn [fst snd].
  assert (triple (Is self) checks
    (λ _ s, Is self s ∧ held s.1.2 fd = ∅) (λ _, True)) as Hc.
  { eapply triple_bind; [apply keep_verify|]. intros [].
    eapply triple_bind; [apply keep_check_device|]. intros [].
    eapply triple_bind; [apply keep_device|]. intros [].
    eapply triple_bind; [apply keep_device|]. intros input.
    eapply triple_bind; [apply keep_guard|]. intros [].
    eapply (triple_bind _ _ _ (λ _, Is self)); [by apply triple_lift|]. intros keys.
    eapply triple_bind; [apply keep_guard|]. intros [].
    eapply triple_bind; [apply keep_device|]. intros down.
    eapply triple_bind; [apply keep_guard|]. intros [].
    eapply (triple_bind _ _ _ (λ _ s, Is self s ∧ held s.1.2 fd = ∅)).
    { intros [[d0 w0] a0] Hs. unfold Is in Hs; simpl in Hs. subst d0. unfold device.
      destruct (k_build_output w0 (px_fd self) keys (dev_misc input)) as [w1 [u|e]] eqn:Hb;
        [|done]. split; [done|]. by eapply build_output_held. }
    intros []. intros [[d0 w0] a0] [Hs Hh]. unfold Is in Hs; simpl in Hs, Hh. subst d0.
    unfold device. pose proof (nonblocking_frame w0 (px_fd self) fd) as [Hf _].
    destruct (k_nonblocking w0 (px_fd self)) as [w1 [u|e]]; [|done].
    split; [done|]. simpl in *. by rewrite Hf. }
  specialize (Hc (self, w, a) eq_refl).
  destruct (checks (self, w, a)) as [[[d1 w1] a1] [[]|e]]; intros [= <- <- <-].
  destruct Hc as [Hd Hh]. unfold Is in Hd; simpl in *. subst d1. split; [done|].
  simpl. rewrite Hh. apply frame_inv_default.
Qed.

(** The life of a proxy of generation [g] admitted when the kernel was in
    state [w0]: any successful operations after its admission. *)
Inductive proxy_reach (g : Z) (w0 : W) : @St W A → Prop :=
  | reach_new fd p a0 w a d :
      from_authorized_fd fd g p (w0, a0) = (w, a, Ok d) → proxy_reach g w0 (d, w, a)
  | reach_activate s p s' :
      proxy_reach g w0 s → activate p s = (s', Ok ()) → proxy_reach g w0 s'
  | reach_pump s s' : proxy_reach g w0 s → pump s = (s', Ok ()) → proxy_reach g w0 s'
  | reach_reset s s' :
      proxy_reach g w0 s → reset_client s = (s', Ok ()) → proxy_reach g w0 s'.

Lemma triple_Ok {X} P (m : @M W A X) Q E s s' x :
  triple P m Q E → P s → m s = (s', Ok x) → Q x s'.
Proof. intros Hm Hs Heq. specialize (Hm s Hs). by rewrite Heq in Hm. Qed.

Lemma triple_Err {X} P (m : @M W A X) Q E s s' e :
  triple P m Q E → P s → m s = (s', Err e) → E s'.
Proof. intros Hm Hs Heq. specialize (Hm s Hs). by rewrite Heq in Hm. Qed.

Lemma proxy_reach_inv g w0 s : proxy_reach g w0 s → ProxyInv s.
Proof.
  induction 1 as [fd p a0 w a d Hn|s p s' _ IH Hs|s s' _ IH Hs|s s' _ IH Hs].
  - by apply from_authorized_inv in Hn as [_ ?].
  - by eapply (triple_Ok _ _ _ _ _ _ _ (triple_activate p)).
  - by eapply (triple_Ok _ _ _ _ _ _ _ (triple_or_bypass _ _ _ triple_pump_inner)).
  - by eapply (triple_Ok _ _ _ _ _ _ _ (triple_control _ _ [])).
Qed.
End invariant.

(** C18. The broker's bookkeeping is the consumer's truth. In every state a proxy
    can be in between operations, [committed_output] is exactly what the reader
    of the virtual keyboard holds down, [output] is what it will hold once the
    pending frame is delivered, and that frame is well formed for it: it presses
    only keys that are up and repeats or releases only keys that are down. *)
Theorem broker_tracks_consumer {W A} `{KernelLaws W, SessionAuthority A} g w0
    (d : DeviceProxy) (w : W) (a : A) :
  proxy_reach g w0 (d, w, a) →
  committed_output (px_state d) = held w (px_fd d) ∧
  output (px_state d) = view (held w (px_fd d)) (px_pending d) ∧
  alternates (held w (px_fd d)) (px_pending d).
Proof.
  intros Hs%proxy_reach_inv. simpl in Hs. rewrite app_nil_r in Hs. by destruct Hs.
Qed.


(** ** Authorization *)

Lemma permits_spec proof p :
  permits proof p = true ↔
  peer proof = p ∧ uid p ≠ 0 ∧ 0 < pid p ∧ local proof = true ∧ active proof = true ∧
  unlocked proof = Some true ∧ seat proof ≠ ""%string ∧ session proof ≠ ""%string.
Proof.
  unfold permits. rewrite !andb_true_iff, !negb_true_iff, !bool_decide_eq_true,
    !bool_decide_eq_false. tauto.
Qed.

Section authorization.
Context {W A : Type} `{KernelLaws W, SessionAuthority A}.

(** A step that fails leaves the keyboard as it was (not grabbed); used to walk
    through [activate] up to the grab. *)
Lemma verify_Ok p (s s' : @St W A) :
  verify p s = (s', Ok ()) →
  ∃ proof, (authority_verify s.2 p).2 = Ok proof ∧ permits proof p = true.
Proof.
  destruct s as [[d w] a]. unfold verify, mbind, M_bind, ask. simpl.
  destruct (authority_verify a p) as [a' [proof|e]]; [|done].
  destruct (permits proof p) eqn:Hp; [|done]. eauto.
Qed.

Definition Free (s : @St W A) : Prop := px_grabbed s.1.1 = false.

Lemma free_device {X} (f : W → Z → W * result IoErrorKind X) :
  triple Free (device f) (λ _, Free) Free.
Proof. intros [[d w] a] Hs. unfold device. by destruct (f w (px_fd d)) as [? []]. Qed.

Lemma free_verify p : triple Free (verify p) (λ _, Free) Free.
Proof.
  eapply (triple_bind _ _ _ (λ _, Free)); [by apply triple_ask|]. intros proof.
  destruct (permits proof p); by intros s.
Qed.

Lemma free_check_device p : triple Free (check_device p) (λ _, Free) Free.
Proof.
  eapply (triple_bind _ _ _ (λ _, Free)); [by apply triple_get|]. intros d.
  by apply triple_ask.
Qed.

Lemma free_check_output p : triple Free (check_output p) (λ _, Free) Free.
Proof.
  eapply (triple_bind _ _ _ (λ _, Free)); [by apply triple_get|]. intros d.
  by apply triple_ask.
Qed.

(** [bypass] always ungrabs. *)
Lemma bypass_free (s : @St W A) : Free (bypass s).1.
Proof.
  destruct s as [[d w] a]. unfold bypass, Free. destruct (release_all _) as [k rel].
  destruct (emit _ _) as [[[d1 w1] a1] r]. destruct (px_grabbed d1) eqn:Hg; [|done].
  by destruct (k_ungrab w1 (px_fd d1)).
Qed.

(** An activation that fails leaves the keyboard free. *)
Lemma activate_fails_free p : triple Free (activate p) (λ _ _, True) Free.
Proof.
  eapply triple_bind; [apply free_verify|]. intros [].
  eapply triple_bind; [apply free_check_device|]. intros [].
  eapply triple_bind; [apply free_device|]. intros keys.
  eapply (triple_bind _ _ _ (λ _, Free)); [case_bool_decide; by intros s|]. intros [].
  eapply triple_bind; [apply free_check_output|]. intros [].
  eapply triple_bind; [apply free_device|]. intros [].
  eapply (triple_bind _ _ _ (λ _ _, True)); [by intros [[d w] a]|]. intros [].
  intros s _. unfold or_bypass.
  destruct ((_ ← check_post_grab; check_output p) s) as [s' [x|e]]; [done|].
  apply bypass_free.
Qed.
End authorization.


(** The shipped default never captures: with [UnavailableAuthority], for
    every kernel, no proxy is created and no activation succeeds, both fail
    without a single kernel call, and [pump_inner] fails before it fetches an
    event or asks the client anything. *)
Lemma default_authority_never_captures {W} `{Kernel W} fd g p (d : DeviceProxy) (w : W)
    (a : UnavailableAuthority) :
  from_authorized_fd fd g p (w, a) = (w, a, Err PermissionDenied) ∧
  activate p (d, w, a) = ((d, w, a), Err PermissionDenied) ∧
  ∃ w' e, k_peer_identity w = (w', e) ∧
    (pump_inner (d, w, a)).1 = (d, w', a) ∧ ∃ e', (pump_inner (d, w, a)).2 = Err e'.
Proof.
  split; [done|]. split; [done|]. unfold pump_inner, mbind, M_bind, kernel.
  destruct (k_peer_identity w) as [w' [x|e]] eqn:Hk; exists w'; eexists; eauto.
Qed.

(** ** Witnesses

    A simulated kernel: a script of input batches, a client that passes every
    event and hangs up when the script ends, and a uinput that takes every
    frame. *)

Record Sim : Type := mkSim {
  sim_held : gmap Z (gset Z);
  sim_sent : list Message;
  sim_input : list (list RawEvent);
}.

Definition sim_view (w : Sim) (fd : Z) : gset Z := default ∅ (sim_held w !! fd).

Definition sim_keyboard : InputDevice :=
  mkInputDevice (Some "keyboard"%string) 3 [EV_SYN; EV_KEY; EV_MSC] (Some {[28; 30; 42]}) None.

#[export] Instance Sim_kernel : Kernel Sim := {
  k_peer_identity w := (w, Ok (mkPeerIdentity 1000 42));
  k_poll_peer w := (w, Ok (bool_decide (sim_input w = [])));
  k_poll_input w fd := (w, Ok (Some false));
  k_fetch_events w fd :=
    (mkSim (sim_held w) (sim_sent w) (tail (sim_input w)), Ok (default [] (head (sim_input w))));
  k_get_key_state w fd := (w, Ok ∅);
  k_set_timeouts w := (w, Ok ());
  k_write_socket w m := (mkSim (sim_held w) (sim_sent w ++ [m]) (sim_input w), Ok ());
  k_read_socket w :=
    (w, match last (sim_sent w) with
        | Some m => Ok (with_operation Pass m)
        | None => Err TimedOut
        end);
  k_grab w fd := (w, Ok ());
  k_ungrab w fd := (w, Ok ());
  k_emit w fd p :=
    (mkSim (<[fd := view (sim_view w fd) p]> (sim_held w)) (sim_sent w) (sim_input w), Ok ());
  k_nonblocking w fd := (w, Ok ());
  k_raw_device w fd := (w, Ok sim_keyboard);
  k_build_output w fd keys misc :=
    (mkSim (<[fd := ∅]> (sim_held w)) (sim_sent w) (sim_input w), Ok ());
}.

#[export] Instance Sim_laws : KernelLaws Sim.
Proof.
  refine {| held := sim_view; sent := sim_sent |}; try done.
  - intros w fd p w' u [= <-]. unfold sim_view; simpl. by rewrite lookup_insert_eq.
  - intros w fd p fd' Hfd. unfold sim_view; simpl. by rewrite lookup_insert_ne.
  - by intros w m w' r [= <- <-].
  - intros w fd w' keys [= <- <-]. set_solver.
  - intros w fd keys misc w' u [= <-]. unfold sim_view; simpl. by rewrite lookup_insert_eq.
Defined.

(** An authority that proves one peer. *)
Inductive DeskAuthority : Type := mkDeskAuthority.

Definition desk_peer : PeerIdentity := mkPeerIdentity 1000 42.

#[export] Instance DeskAuthority_authority : SessionAuthority DeskAuthority := {
  authority_verify a _ :=
    (a, Ok (mkSessionProof desk_peer "seat0" "c1" true (Some true) true));
  verify_output_ready a _ _ := (a, Ok ());
  verify_device a _ _ := (a, Ok ());
}.

(** Admitted, activated, and one batch pumped: shift went down and was passed. *)
Definition sim_start : Sim := mkSim ∅ [] [[]; [key 42 1; RawEvent_default]].

Definition sim_new : @St Sim DeskAuthority :=
  match from_authorized_fd 5 9 desk_peer (sim_start, mkDeskAuthority) with
  | (w, a, Ok d) => (d, w, a)
  | (w, a, Err _) => (mkDeviceProxy 5 KeyState_default 9 1 0 false [], w, a)
  end.
Definition sim_active : @St Sim DeskAuthority := (activate desk_peer sim_new).1.
Definition sim_pumped : @St Sim DeskAuthority := (pump sim_active).1.

Lemma sim_reach : proxy_reach 9 sim_start sim_pumped.
Proof.
  apply (reach_pump _ _ sim_active); [|reflexivity].
  apply (reach_activate _ _ sim_new desk_peer); [|reflexivity].
  apply (reach_new _ _ 5 desk_peer mkDeskAuthority). reflexivity.
Qed.

Lemma broker_tracks_consumer_witness :
  committed_output (px_state sim_pumped.1.1) = held sim_pumped.1.2 5 ∧
  held sim_pumped.1.2 5 = {[42]}.
Proof.
  split; [|reflexivity].
  exact (proj1 (broker_tracks_consumer 9 sim_start sim_pumped.1.1 sim_pumped.1.2 sim_pumped.2 sim_reach)).
Defined.

Lemma pair_eta {X Y} (x : X * Y) y : x.2 = y → x = (x.1, y).
Proof. destruct x; simpl. by intros ->. Qed.


