(* ===== verification/Sink.v ===== *)
(** * The backend interface (packages/core/src/backend.rs)

    What a platform backend and the engine promise each other: the backend
    delivers events and discontinuities to an [EventSink] and obeys its
    verdicts. *)

From S2P Require Import Prelude Event.

Inductive BackendVerdict : Type := VerdictPass | VerdictSwallow.

#[export] Instance BackendVerdict_eq_dec : EqDecision BackendVerdict.
Proof. solve_decision. Defined.

Inductive BackendError : Type :=
  | MissingPermission (message : string)
  | TapInstall (message : string)
  | Inject (message : string)
  | UnknownInputSource (id : string)
  | Other (message : string).

#[export] Instance BackendError_eq_dec : EqDecision BackendError.
Proof. solve_decision. Defined.

(** The trait [EventSink], over the sink's state. *)
Class EventSink (S : Type) : Type := {
  on_event : S → KeyEvent → option string → S * BackendVerdict;
  on_device_event : S → DeviceId → KeyEvent → option string → S * BackendVerdict;
  on_device_reset : S → DeviceId → S;
  on_stream_reset : S → S;
}.

(** The trait's default [on_device_event]: legacy sinks ignore the device. *)
Definition on_device_event_default {S} (on_event : S → KeyEvent → option string → S * BackendVerdict)
    (s : S) (device : DeviceId) (event : KeyEvent) (focused_app : option string) :
    S * BackendVerdict :=
  on_event s event focused_app.

(** A sink that records what it is told and swallows nothing. *)
#[export] Instance recording_sink : EventSink (list KeyEvent) := {
  on_event s e _ := (s ++ [e], VerdictPass);
  on_device_event s _ e _ := (s ++ [e], VerdictPass);
  on_device_reset s _ := s;
  on_stream_reset s := [];
}.
