(* ===== verification/Client.v ===== *)
(** * The daemon's broker client (packages/linux/src/backend.rs)

    [ClientState] admits the broker's requests (generation, epoch and sequence
    checks), keeps the keys held per device, and turns raw key events into the
    engine's events; [serve_request] is one round of [LinuxBackend::serve]. The
    engine behind the [EventSink] is any instance of the class. *)

From S2P Require Import Prelude Event TapFsm Rule Keymap Sink Protocol KeyState.

(** ** Focus *)

(** [FocusTracker]: the application and when it was observed. *)
Definition FocusTracker : Type := option (string * Z).

(** [FocusTracker::current]: a stale observation is unknown. *)
Definition focus_current (f : FocusTracker) (now : Z) : option string :=
  '(application, observed) ← f;
  if bool_decide (now - observed ≤ from_millis 500) then Some application else None.

(** [FocusTracker::update] *)
Definition focus_update (application : option string) (now : Z) : FocusTracker :=
  (λ a, (a, now)) <$> application.

(** ** The client's state *)

Record ClientState : Type := mkClientState {
  cs_physical : gmap Z (gset Z);
  cs_epochs : gmap Z Z;
  cs_sequences : gmap Z Z;
  cs_highest_generation : Z;
}.

(** [ClientState::default()] *)
Definition ClientState_default : ClientState := mkClientState ∅ ∅ ∅ 0.

Definition cs_set_physical p (c : ClientState) : ClientState :=
  mkClientState p (cs_epochs c) (cs_sequences c) (cs_highest_generation c).

(** [ClientState::retire] *)
Definition cs_retire (c : ClientState) (g : Z) : ClientState :=
  mkClientState (delete g (cs_physical c)) (delete g (cs_epochs c))
    (delete g (cs_sequences c)) (cs_highest_generation c).

(** The operations a broker may send. *)
Definition is_request (op : Operation) : bool :=
  match op with Event | DeviceReset | SnapshotKey | DeviceRetire => true | _ => false end.

(** The condition of [ClientState::validate]. *)
Definition stale (c : ClientState) (request : Message) : bool :=
  bool_decide (generation request = 0) || bool_decide (epoch request = 0) ||
  bool_decide (sequence request = 0) ||
  match cs_sequences c !! generation request with
  | Some last => bool_decide (sequence request ≤ last)
  | None => false
  end ||
  match cs_epochs c !! generation request with
  | Some epoch' => bool_decide (epoch request < epoch')
  | None => false
  end ||
  (negb (bool_decide (is_Some (cs_epochs c !! generation request))) &&
   bool_decide (generation request ≤ cs_highest_generation c)) ||
  (negb (bool_decide (is_Some (cs_epochs c !! generation request))) &&
   bool_decide (128 ≤ size (cs_epochs c))%nat).

Section client.
Context {S : Type} `{EventSink S}.

(** [ClientState::validate] *)
Definition validate (c : ClientState) (sink : S) (request : Message) :
    result BackendError (ClientState * S) :=
  if negb (is_request (operation request)) then
    Err (Other "unexpected broker operation")
  else if stale c request then
    Err (Other "invalid or stale broker generation/epoch/sequence")
  else
    let g := generation request in
    let previous := cs_epochs c !! g in
    let c := mkClientState (cs_physical c) (<[g := epoch request]> (cs_epochs c))
               (<[g := sequence request]> (cs_sequences c))
               (Z.max (cs_highest_generation c) g) in
    match previous with
    | Some e =>
        if negb (bool_decide (e = epoch request)) then
          Ok (cs_set_physical (delete g (cs_physical c)) c, on_device_reset sink g)
        else Ok (c, sink)
    | None => Ok (c, sink)
    end.

(** The keys held on a device. *)
Definition held_keys (c : ClientState) (g : Z) : gset Z := default ∅ (cs_physical c !! g).

(** The [fold] over the held keys: their combined mask. *)
Definition held_mods (keys : gset Z) : Modifiers :=
  foldl (λ mods code, (mods ∪ Linux.modifier code)%mods) mods_empty (ascending keys).

(** The event's kind as [dispatch] classifies it. *)
Definition raw_kind (raw : RawEvent) : EventKind :=
  if negb (mods_is_empty (Linux.modifier (raw_code raw))) then ModifiersChanged
  else if bool_decide (value raw = 0) then KeyUp
  else KeyDown.

(** [ClientState::dispatch]; [focus] is the tracker's current application. *)
Definition dispatch_raw (c : ClientState) (sink : S) (request : Message)
    (focus : option string) : ClientState * S * Operation :=
  let raw := event request in
  let g := generation request in
  if bool_decide (event_type raw = 1) && bool_decide (value raw = 2) then (c, sink, Pass)
  else if bool_decide (event_type raw = 1) && bool_decide (0 ≤ value raw ≤ 2) then
    let keys := if bool_decide (value raw = 0) then held_keys c g ∖ {[raw_code raw]}
                else {[raw_code raw]} ∪ held_keys c g in
    let c := cs_set_physical (<[g := keys]> (cs_physical c)) c in
    let mods := held_mods keys in
    match Linux.from_evdev (raw_code raw) with
    | Some code =>
        let '(sink, verdict) :=
          on_device_event sink g (mkKeyEvent code (raw_kind raw) mods) focus in
        (c, sink, if bool_decide (verdict = VerdictSwallow) then Swallow else Pass)
    | None => (c, sink, Pass)
    end
  else (c, sink, Pass).

(** One request of [LinuxBackend::serve] and the reply it writes. *)
Definition serve_request (c : ClientState) (sink : S) (request : Message)
    (focus : option string) : ClientState * S * result BackendError Message :=
  match validate c sink request with
  | Err e => (c, sink, Err e)
  | Ok (c, sink) =>
      let g := generation request in
      match operation request with
      | DeviceReset | DeviceRetire =>
          let c := cs_set_physical (delete g (cs_physical c)) c in
          let c := if bool_decide (operation request = DeviceRetire)
                   then cs_retire c g else c in
          (c, on_device_reset sink g, Ok (with_operation Pass request))
      | SnapshotKey =>
          if negb (bool_decide (event_type (event request) = 1)) ||
             negb (bool_decide (value (event request) = 1)) ||
             bool_decide (MAX_KEY < raw_code (event request))
          then (c, sink, Err (Other "invalid broker key snapshot"))
          else
            (cs_set_physical
               (<[g := {[raw_code (event request)]} ∪ held_keys c g]> (cs_physical c)) c,
             sink, Ok (with_operation Pass request))
      | _ =>
          let '(c, sink, op) := dispatch_raw c sink request focus in
          (c, sink, Ok (with_operation op request))
      end
  end.

(** The loop of [serve] over the requests and the focus at each of them; it
    stops at the first error. The replies written are kept. *)
Fixpoint serve (c : ClientState) (sink : S) (requests : list (Message * option string)) :
    ClientState * S * list Message * result BackendError unit :=
  match requests with
  | [] => (c, sink, [], Ok ())
  | (request, focus) :: requests =>
      match serve_request c sink request focus with
      | (c, sink, Err e) => (c, sink, [], Err e)
      | (c, sink, Ok reply) =>
          let '(c, sink, replies, r) := serve c sink requests in
          (c, sink, reply :: replies, r)
      end
  end.

(** [LinuxBackend::run] on the requests that arrive before the connection or
    the daemon stops: whatever ends it, the engine's stream is reset; an
    error after a requested shutdown is not reported. *)
Definition run_backend (sink : S) (requests : list (Message * option string))
    (requested_shutdown : bool) : S * list Message * result BackendError unit :=
  let '(_, sink, replies, r) := serve ClientState_default sink requests in
  (on_stream_reset sink, replies, if requested_shutdown then Ok () else r).
End client.

(** [LinuxBackend::inject]; [source] is the configured dispatcher. *)
Definition inject (source : option (string → result BackendError unit)) (action : Action) :
    result BackendError unit :=
  match action with
  | SetInputSource id =>
      f ← ok_or source (UnknownInputSource id); f id
  | SendKey _ _ =>
      Err (Inject "asynchronous injection is gated until broker output/modifier ownership is qualified")
  end.

(** ** Admission *)

Lemma stale_false c m :
  stale c m = false ↔
  generation m ≠ 0 ∧ epoch m ≠ 0 ∧ sequence m ≠ 0 ∧
  (∀ last, cs_sequences c !! generation m = Some last → last < sequence m) ∧
  (∀ e, cs_epochs c !! generation m = Some e → e ≤ epoch m) ∧
  (cs_epochs c !! generation m = None →
     cs_highest_generation c < generation m ∧ (size (cs_epochs c) < 128)%nat).
Proof.
  unfold stale.
  destruct (cs_epochs c !! generation m) as [e|];
    [rewrite (bool_decide_true (is_Some _)) by eauto
    |rewrite (bool_decide_false (is_Some _)) by (by intros [? ?])];
    cbn [negb andb]; rewrite !orb_false_iff, !bool_decide_eq_false;
    destruct (cs_sequences c !! generation m) as [n|]; rewrite ?bool_decide_eq_false;
    (split; [intros; destruct_and!; split_and!; intros; simplify_eq; try done; try lia
            |intros (?&?&?&Hs&He&Hn); split_and!; try done]).
  all: try (pose proof (Hs _ eq_refl)); try (pose proof (He _ eq_refl));
    try (destruct (Hn eq_refl)); try lia.
Qed.

(** A request stream of generation [g] as a broker sends it: requests only, all
    of one generation, sequence numbers increasing from above [n], epochs not
    decreasing from [e] on, snapshots of keys inside the bound, and nothing
    after a retirement. *)
Fixpoint request_stream (g n e : Z) (ms : list Message) : Prop :=
  match ms with
  | [] => True
  | m :: ms =>
      is_request (operation m) = true ∧ generation m = g ∧ n < sequence m ∧ e ≤ epoch m ∧
      (operation m = SnapshotKey →
         event_type (event m) = 1 ∧ value (event m) = 1 ∧ raw_code (event m) ≤ MAX_KEY) ∧
      (operation m = DeviceRetire → ms = []) ∧
      request_stream g (sequence m) (epoch m) ms
  end.

(** ** The engine's events *)

Lemma modifier_bit_single k :
  mods_is_empty (modifier_bit k) = false →
  ∃ n, 0 ≤ n ∧ modifier_bit k = mkModifiers (Z.shiftl 1 n).
Proof.
  destruct k; try done; intros _; (eexists; split; [|reflexivity]); done.
Qed.

Lemma foldl_mods_contains k acc l :
  mods_is_empty (modifier_bit k) = false →
  mods_contains (foldl (λ mods code, (mods ∪ Linux.modifier code)%mods) acc l)
    (modifier_bit k) = true ↔
  mods_contains acc (modifier_bit k) = true ∨ ∃ c, c ∈ l ∧ Linux.from_evdev c = Some k.
Proof.
  intros Hk. destruct (modifier_bit_single k Hk) as (n & Hn & Hb). revert acc.
  induction l as [|c l IH]; intros acc; simpl; [set_solver|].
  rewrite IH, Hb, mods_contains_bit_union, orb_true_iff, <- Hb by done.
  rewrite (modifier_contains_bit c k Hk). set_solver.
Qed.

(** The mask says exactly which modifier keys are held. *)
Lemma held_mods_contains keys k :
  mods_is_empty (modifier_bit k) = false →
  mods_contains (held_mods keys) (modifier_bit k) = true ↔
  ∃ c, c ∈ keys ∧ Linux.from_evdev c = Some k.
Proof.
  intros Hk. unfold held_mods. rewrite foldl_mods_contains by done.
  setoid_rewrite elem_of_ascending. split; [|by right].
  intros [Hc|]; [|done]. exfalso. revert Hk Hc. by destruct k.
Qed.

Lemma held_mods_lockstep keys : lockstep (held_mods keys) = true.
Proof.
  unfold held_mods. generalize (lockstep_empty). generalize mods_empty as acc.
  induction (ascending keys) as [|c l IH]; intros acc Hacc; simpl; [done|].
  apply IH, lockstep_union; [done|]. apply modifier_lockstep.
Qed.

(** The keys held once an event of value [v] on code [c] was recorded. *)
Definition keys_after (keys : gset Z) (c v : Z) : gset Z :=
  if bool_decide (v = 0) then keys ∖ {[c]} else {[c]} ∪ keys.

(** The engine is told what the hands do. For a press or release of a key
    the engine knows, [dispatch] delivers one event of that key whose mask
    holds exactly the modifier keys physically held after it on that device,
    side bits and generic bits in lockstep; a modifier key's event is one that
    the matcher reads as going down exactly when the key went down, also for
    Caps Lock and Fn, and any other key's event is its key-down or key-up. The
    reply is the engine's verdict. *)
Theorem engine_sees_physical_keys {S} `{EventSink S} c (sink : S) m focus k :
  event_type (event m) = 1 → value (event m) = 0 ∨ value (event m) = 1 →
  Linux.from_evdev (raw_code (event m)) = Some k →
  let keys := keys_after (held_keys c (generation m)) (raw_code (event m)) (value (event m)) in
  ∃ ev, 
    dispatch_raw c sink m focus =
      (let '(sink', verdict) := on_device_event sink (generation m) ev focus in
       (cs_set_physical (<[generation m := keys]> (cs_physical c)) c, sink',
        if bool_decide (verdict = VerdictSwallow) then Swallow else Pass)) ∧
    code ev = k ∧ lockstep (mods ev) = true ∧
    (∀ k', mods_is_empty (modifier_bit k') = false →
       mods_contains (mods ev) (modifier_bit k') = true ↔
       ∃ c', c' ∈ keys ∧ Linux.from_evdev c' = Some k') ∧
    (if is_modifier k
     then event_is_down ev = Some (bool_decide (value (event m) = 1))
     else kind ev = if bool_decide (value (event m) = 1) then KeyDown else KeyUp).
Proof.
  intros Ht Hv Hk keys. 
  exists (mkKeyEvent k (raw_kind (event m)) (held_mods keys)). split_and!.
  - unfold dispatch_raw. rewrite Ht, Hk.
    rewrite (bool_decide_false (value _ = 2)) by lia.
    rewrite (bool_decide_true (0 ≤ value _ ≤ 2)) by lia. done.
  - done.
  - apply held_mods_lockstep.
  - intros k' Hk'. simpl. by apply held_mods_contains.
  - pose proof (modifier_of_key _ _ Hk) as Hm. unfold raw_kind. rewrite Hm.
    destruct (mods_is_empty (modifier_bit k)) eqn:He.
    + assert (bool_decide (value (event m) = 0) = negb (bool_decide (value (event m) = 1)))
        as Hb by (destruct Hv as [-> | ->]; done).
      simpl. rewrite Hb. destruct (is_modifier k); unfold event_is_down; simpl;
        by destruct (bool_decide (value (event m) = 1)).
    + assert (mods_is_empty (generic_bit k ∪ modifier_bit k)%mods = false) as ->
        by (revert He; by destruct k).
      rewrite (modifier_bit_is_modifier k He). unfold event_is_down; simpl. rewrite He.
      f_equal. apply eq_true_iff_eq. rewrite held_mods_contains by done.
      rewrite bool_decide_eq_true. unfold keys, keys_after. split.
      * intros (c' & Hc' & Hk'). destruct Hv as [Hv|]; [|done]. exfalso.
        rewrite bool_decide_true in Hc' by done.
        apply from_to_evdev in Hk, Hk'. rewrite Hk in Hk'. set_solver.
      * intros Hv1. exists (raw_code (event m)). split; [|done].
        rewrite bool_decide_false by lia. set_solver.
Qed.

(** ** Replay protection *)

(** The client's own invariant. *)
Record ClientInv (c : ClientState) : Prop := {
  ci_dom : ∀ g, is_Some (cs_sequences c !! g) ↔ is_Some (cs_epochs c !! g);
  ci_highest : ∀ g, is_Some (cs_epochs c !! g) → 0 < g ≤ cs_highest_generation c;
  ci_bound : (size (cs_epochs c) ≤ 128)%nat;
  ci_nonneg : 0 ≤ cs_highest_generation c;
}.

(** What the state remembers of an admitted request. *)
Record remembers (c : ClientState) (m : Message) : Prop := {
  rm_highest : generation m ≤ cs_highest_generation c;
  rm_sequence : ∀ n, cs_sequences c !! generation m = Some n → sequence m ≤ n;
  rm_epoch : ∀ e, cs_epochs c !! generation m = Some e → epoch m ≤ e;
  rm_retired : operation m = DeviceRetire → cs_epochs c !! generation m = None;
}.

(** The bookkeeping of an admitted request, before the retirement. *)
Definition admitted (c : ClientState) (m : Message) : ClientState :=
  mkClientState (cs_physical c) (<[generation m := epoch m]> (cs_epochs c))
    (<[generation m := sequence m]> (cs_sequences c))
    (Z.max (cs_highest_generation c) (generation m)).

(** Two states that differ at most in the keys held. *)
Definition same_books (c c' : ClientState) : Prop :=
  cs_epochs c = cs_epochs c' ∧ cs_sequences c = cs_sequences c' ∧
  cs_highest_generation c = cs_highest_generation c'.

Lemma serve_request_books {S} `{EventSink S} c (sink : S) m focus c' sink' reply :
  serve_request c sink m focus = (c', sink', Ok reply) →
  is_request (operation m) = true ∧ stale c m = false ∧
  same_books c' (if bool_decide (operation m = DeviceRetire)
                 then cs_retire (admitted c m) (generation m) else admitted c m).
Proof.
  unfold serve_request, validate.
  destruct (is_request (operation m)) eqn:Hr; [|done]. cbn [negb].
  destruct (stale c m); [done|]. intros Hs. split_and!; [done..|].
  assert (∃ p s, match cs_epochs c !! generation m with
    | Some e => if negb (bool_decide (e = epoch m))
        then Ok (cs_set_physical (delete (generation m) (cs_physical c)) (admitted c m),
                 on_device_reset sink (generation m))
        else Ok (admitted c m, sink)
    | None => Ok (admitted c m, sink)
    end = Ok (E:=BackendError) (cs_set_physical p (admitted c m), s)) as (p & s & Hv).
  { destruct (cs_epochs c !! generation m); [case_bool_decide|]; simpl;
      by do 2 eexists; f_equal. }
  unfold admitted in Hv at 1 2 3. cbn [cs_physical cs_set_physical] in Hs.
  simpl in Hv, Hs. rewrite Hv in Hs.
  destruct (operation m); try done; simplify_eq/=.
  - unfold dispatch_raw in Hs. repeat case_match; simplify_eq/=; done.
  - done.
  - repeat case_match; simplify_eq/=; done.
  - done.
Qed.

Lemma admitted_inv c m :
  ClientInv c → stale c m = false → 0 ≤ generation m → ClientInv (admitted c m).
Proof.
  intros [Hd Hh Hb Hn] Hs%stale_false Hg. destruct Hs as (Hg0 & _ & _ & _ & _ & Hnew).
  split; simpl.
  - intros g. rewrite !lookup_insert. case_decide; [by split; eauto|]. apply Hd.
  - intros g. rewrite lookup_insert. case_decide; [lia|]. intros Hsome.
    specialize (Hh g Hsome). lia.
  - destruct (cs_epochs c !! generation m) eqn:He.
    + rewrite map_size_insert_Some by eauto. done.
    + rewrite map_size_insert_None by done. destruct (Hnew eq_refl). lia.
  - lia.
Qed.

Lemma cs_retire_inv c g : ClientInv c → ClientInv (cs_retire c g).
Proof.
  intros [Hd Hh Hb Hn]. split; simpl; [..|done].
  - intros g'. rewrite !lookup_delete. case_decide; [by split; intros []|]. apply Hd.
  - intros g'. rewrite lookup_delete. case_decide; [by intros []|]. apply Hh.
  - destruct (cs_epochs c !! g) eqn:He.
    + rewrite map_size_delete_Some by eauto. lia.
    + by rewrite delete_id.
Qed.

Lemma same_books_inv c c' : same_books c c' → ClientInv c' → ClientInv c.
Proof. intros (He & Hs & Hh) [Hd Hg Hb Hn]. by split; rewrite ?He, ?Hs, ?Hh. Qed.

Lemma serve_request_inv {S} `{EventSink S} c (sink : S) m focus c' sink' reply :
  ClientInv c → 0 ≤ generation m →
  serve_request c sink m focus = (c', sink', Ok reply) → ClientInv c'.
Proof.
  intros Hc Hg (_ & Hs & Hb)%serve_request_books. eapply same_books_inv; [exact Hb|].
  case_bool_decide; [apply cs_retire_inv|]; by apply admitted_inv.
Qed.

(** An admitted request is new to the state, and is remembered. *)
Lemma remembers_newer c m0 m :
  ClientInv c → remembers c m0 → stale c m = false → generation m = generation m0 →
  sequence m0 < sequence m ∧ epoch m0 ≤ epoch m ∧ operation m0 ≠ DeviceRetire.
Proof.
  intros [Hd _ _ _] [Hh Hs He Hr] Hst%stale_false Hg. rewrite Hg in Hst.
  destruct Hst as (_ & _ & _ & Hseq & Hep & Hnew).
  destruct (cs_epochs c !! generation m0) as [e|] eqn:Hee; [|naive_solver lia].
  assert (is_Some (cs_sequences c !! generation m0)) as [n Hns] by (apply Hd; eauto).
  specialize (Hs _ Hns). specialize (Hseq _ Hns). specialize (He _ eq_refl).
  specialize (Hep _ eq_refl). split_and!; [lia..|]. by intros ?%Hr.
Qed.

Lemma serve_remembers {S} `{EventSink S} c (sink : S) m focus c' sink' reply m0 :
  ClientInv c → remembers c m0 ∨ m0 = m →
  serve_request c sink m focus = (c', sink', Ok reply) → remembers c' m0.
Proof.
  intros Hc Hm0 (_ & Hst & He & Hs & Hh)%serve_request_books.
  assert (remembers (admitted c m) m0 ∨ m0 = m) as Ha.
  { destruct Hm0 as [Hm0| ->]; [left|by right].
    destruct (decide (generation m = generation m0)) as [Hg|Hg].
    - destruct (remembers_newer c m0 m Hc Hm0 Hst Hg) as (? & ? & ?).
      destruct Hm0 as [Hh0 _ _ _]. split; simpl; [lia|..]; rewrite Hg, ?lookup_insert_eq;
        [intros ? [= <-]; lia..|done].
    - destruct Hm0 as [Hh0 Hs0 He0 Hr0].
      split; simpl; [lia|..]; rewrite lookup_insert_ne by done; done. }
  case_bool_decide as Hop; simpl in He, Hs, Hh.
  - assert (generation m0 ≤ Z.max (cs_highest_generation c) (generation m)) as Hmax.
    { destruct Ha as [[Hx _ _ _]| ->]; [done|lia]. }
    destruct (decide (generation m = generation m0)) as [Hg|Hg].
    + split; rewrite ?He, ?Hs, ?Hh; [done|..]; rewrite Hg, lookup_delete_eq; done.
    + destruct Ha as [[Hx Hs0 He0 Hr0]| ->]; [|done]. simpl in *.
      split; rewrite ?He, ?Hs, ?Hh; [done|..]; rewrite lookup_delete_ne; done.
  - destruct Ha as [[Hx Hs0 He0 Hr0]| ->].
    + by split; rewrite ?He, ?Hs, ?Hh.
    + split; rewrite ?He, ?Hs, ?Hh, ?lookup_insert_eq; [lia| | |done];
        intros ? [= <-]; done.
Qed.

Lemma serve_remembered {S} `{EventSink S} c (sink : S) rs j m0 mj :
  ClientInv c → Forall (λ r, 0 ≤ generation r.1) rs → remembers c m0 →
  rs.*1 !! j = Some mj → (j < length (serve c sink rs).1.2)%nat →
  generation mj = generation m0 →
  sequence m0 < sequence mj ∧ epoch m0 ≤ epoch mj ∧ operation m0 ≠ DeviceRetire.
Proof.
  revert c sink j. induction rs as [|[m f] rs IH]; intros c sink j Hc Hall Hm0 Hj Hlen Hg;
    [done|].
  apply Forall_cons in Hall as [Hgen Hall]. simpl in *.
  destruct (serve_request c sink m f) as [[c1 s1] [reply|e]] eqn:Hs; [|simpl in Hlen; lia].
  destruct (serve c1 s1 rs) as [[[c2 s2] replies] r] eqn:Hrun. simpl in *.
  destruct j as [|j]; simplify_eq/=.
  - apply serve_request_books in Hs as (_ & Hst & _). by eapply remembers_newer.
  - eapply (IH c1 s1 j); try done.
    + by eapply serve_request_inv.
    + eapply serve_remembers; [exact Hc|by left|done].
    + rewrite Hrun. simpl. lia.
Qed.

(** The client admits nothing twice. Over any stream of broker requests,
    whatever they contain, two requests of one device generation that are both
    answered have increasing sequence numbers and non-decreasing epochs, and a
    generation that was retired is never served again: a replayed, reordered
    or resurrected request ends the session instead. *)
Theorem client_replay_free {S} `{EventSink S} (sink : S) rs i j mi mj :
  Forall (λ r, 0 ≤ generation r.1) rs →
  (i < j < length (serve ClientState_default sink rs).1.2)%nat →
  rs.*1 !! i = Some mi → rs.*1 !! j = Some mj → generation mj = generation mi →
  sequence mi < sequence mj ∧ epoch mi ≤ epoch mj ∧ operation mi ≠ DeviceRetire.
Proof.
  assert (ClientInv ClientState_default) as Hc.
  { split; simpl; [done|by intros g [? ?]|rewrite map_size_empty; lia|done]. }
  generalize dependent ClientState_default. intros c Hc. revert c sink i j Hc.
  induction rs as [|[m f] rs IH]; intros c sink i j Hc Hall Hij Hi Hj Hg; [done|].
  apply Forall_cons in Hall as [Hgen Hall]. simpl in *.
  destruct (serve_request c sink m f) as [[c1 s1] [reply|e]] eqn:Hs; [|simpl in Hij; lia].
  destruct (serve c1 s1 rs) as [[[c2 s2] replies] r] eqn:Hrun. simpl in *.
  destruct j as [|j]; [lia|]. destruct i as [|i]; simplify_eq/=.
  - apply (serve_remembered c1 s1 rs j mi mj); try done.
    + by eapply serve_request_inv.
    + eapply serve_remembers; [exact Hc|by right|exact Hs].
    + rewrite Hrun. simpl. lia.
  - apply (IH c1 s1 i j); try done; [by eapply serve_request_inv|].
    rewrite Hrun. simpl. lia.
Qed.

(** ** A broker's stream is served *)

(** The client is ready for a stream that continues at [n] and [e]. *)
Definition ready (c : ClientState) (g n e : Z) : Prop :=
  match cs_epochs c !! g with
  | Some e0 => e0 ≤ e ∧ cs_sequences c !! g = Some n
  | None => cs_highest_generation c < g ∧ (size (cs_epochs c) < 128)%nat ∧
            cs_sequences c !! g = None
  end.

Lemma ready_not_stale c g n e m :
  0 < g → 0 ≤ n → 1 ≤ e → ready c g n e →
  generation m = g → n < sequence m → e ≤ epoch m → stale c m = false.
Proof.
  intros Hg Hn He Hr Hm Hs Hep. apply stale_false. rewrite Hm. unfold ready in Hr.
  destruct (cs_epochs c !! g); naive_solver lia.
Qed.

Lemma serve_request_ready {S} `{EventSink S} c (sink : S) g n e m focus :
  0 < g → 0 ≤ n → 1 ≤ e → ready c g n e →
  is_request (operation m) = true → generation m = g → n < sequence m → e ≤ epoch m →
  (operation m = SnapshotKey →
     event_type (event m) = 1 ∧ value (event m) = 1 ∧ raw_code (event m) ≤ MAX_KEY) →
  ∃ c' sink' reply, serve_request c sink m focus = (c', sink', Ok reply) ∧
    answers reply m = true ∧
    (operation m ≠ DeviceRetire → ready c' g (sequence m) (epoch m)).
Proof.
  intros Hg Hn He Hr Hop Hgen Hseq Hep Hsnap.
  pose proof (ready_not_stale c g n e m Hg Hn He Hr Hgen Hseq Hep) as Hst.
  destruct (serve_request c sink m focus) as [[c' s'] [reply|er]] eqn:Hs.
  - exists c', s', reply. split; [done|]. split.
    + clear -Hs Hop. unfold serve_request in Hs. destruct (validate _ _ _) as [[]|]; [|done].
      assert (∀ op, is_decision op = true → answers (with_operation op m) m = true) as Ha.
      { intros op. unfold answers. simpl. rewrite !bool_decide_true by done. by destruct op. }
      destruct (operation m); try done; simplify_eq/=; try (by apply Ha).
      * destruct (dispatch_raw _ _ _ _) as [[c1 s1] op] eqn:Hd. simplify_eq.
        apply Ha. unfold dispatch_raw in Hd. by repeat case_match; simplify_eq.
      * case_match; simplify_eq. by apply Ha.
    + intros Hnr. apply serve_request_books in Hs as (_ & _ & Heq).
      rewrite bool_decide_false in Heq by done. destruct Heq as (E1 & E2 & E3).
      unfold ready. rewrite E1, E2. simpl. rewrite <- Hgen, !lookup_insert_eq. done.
  - exfalso. unfold serve_request, validate in Hs. rewrite Hop, Hst in Hs. simpl in Hs.
    destruct (operation m) eqn:Ho; try done; try (by repeat case_match; simplify_eq).
    destruct (Hsnap eq_refl) as (H1 & H2 & H3). rewrite H1, H2 in Hs.
    rewrite (bool_decide_false (MAX_KEY < _)) in Hs by lia.
    by repeat case_match; simplify_eq.
Qed.

Lemma serve_stream {S} `{EventSink S} c (sink : S) g n e rs :
  0 < g → 0 ≤ n → 1 ≤ e → ready c g n e → request_stream g n e rs.*1 →
  (serve c sink rs).2 = Ok () ∧
  Forall2 (λ r reply, answers reply r.1 = true) rs (serve c sink rs).1.2.
Proof.
  revert c sink n e. induction rs as [|[m f] rs IH]; intros c sink n e Hg Hn He Hr Hst;
    [by split|].
  destruct Hst as (Hop & Hgen & Hseq & Hep & Hsnap & Hret & Hst). simpl in *.
  destruct (serve_request_ready c sink g n e m f) as (c1 & s1 & reply & Hs & Ha & Hr1); try done.
  rewrite Hs. destruct (decide (operation m = DeviceRetire)) as [Hd|Hd].
  - destruct rs; [|naive_solver]. simpl. by repeat constructor.
  - destruct (IH c1 s1 (sequence m) (epoch m)) as [Hok Hall]; [lia..|auto|done|].
    destruct (serve c1 s1 rs) as [[[c2 s2] replies] r]. simpl in *.
    split; [done|]. by constructor.
Qed.

(** ** Witnesses *)

(** Left shift (evdev 42) goes down on device 9. *)
Definition shift_down : Message := mkMessage Event 9 1 1 (key 42 1).

Lemma engine_sees_physical_keys_witness :
  ∃ ev : KeyEvent,
    (dispatch_raw ClientState_default [] shift_down None).1.2 = [ev] ∧
    event_is_down ev = Some true.
Proof.
  destruct (engine_sees_physical_keys ClientState_default [] shift_down None LeftShift
    eq_refl (or_intror eq_refl) eq_refl) as (ev & Hd & _ & _ & _ & Hdown).
  exists ev. rewrite Hd. split; [reflexivity|exact Hdown].
Defined.

(** Two presses of device 9. *)
Definition two_requests : list (Message * option string) :=
  [(shift_down, None); (mkMessage Event 9 1 2 (key 30 1), None)].

Lemma client_replay_free_witness :
  length (serve ClientState_default [] two_requests).1.2 = 2%nat ∧ 1 < 2.
Proof.
  split; [reflexivity|].
  exact (proj1 (client_replay_free [] two_requests 0 1 shift_down
    (mkMessage Event 9 1 2 (key 30 1)) ltac:(repeat constructor; done)
    ltac:(vm_compute; lia) eq_refl eq_refl eq_refl)).
Defined.
