(* ===== verification/BrokerClient.v ===== *)
(** * The broker and its client agree

    The two ends of the broker socket are written separately: the proxy numbers
    its requests, the client rejects what is stale. Here the proxy is shown to
    send only request streams ([request_stream], the contract stated with the
    client), and so every request of an admitted proxy is served and answered. *)

From S2P Require Import Prelude Event Sink Protocol KeyState Authorization Broker BrokerInv Client.

Lemma request_stream_snoc g n e ms m :
  request_stream g n e ms → Forall (λ m', operation m' ≠ DeviceRetire) ms →
  is_request (operation m) = true → generation m = g →
  n < sequence m → e ≤ epoch m →
  Forall (λ m', sequence m' < sequence m ∧ epoch m' ≤ epoch m) ms →
  (operation m = SnapshotKey →
     event_type (event m) = 1 ∧ value (event m) = 1 ∧ raw_code (event m) ≤ MAX_KEY) →
  request_stream g n e (ms ++ [m]).
Proof.
  revert n e. induction ms as [|m0 ms IH]; intros n e Hst Hnr Hop Hg Hn He Hlt Hsnap.
  { simpl. split_and!; try done. }
  destruct Hst as (? & ? & ? & ? & ? & _ & Hst).
  apply Forall_cons in Hnr as [Hnr0 Hnr]. apply Forall_cons in Hlt as [[Hs0 He0] Hlt].
  simpl. split_and!; try done. by apply IH.
Qed.

Section stream.
Context {W A : Type} `{KernelLaws W, SessionAuthority A}.
Variables (l0 : list Message) (g : Z).

(** What the proxy sent since its admission is a request stream whose sequence
    numbers are at most [px_sequence - slack]. *)
Definition Stream (slack : Z) (s : @St W A) : Prop :=
  let '(d, w, _) := s in
  px_generation d = g ∧ 0 ≤ px_sequence d - slack ∧ 1 ≤ px_epoch d ∧
  ∃ ms, sent w = l0 ++ ms ∧ request_stream g 0 1 ms ∧
    Forall (λ m, operation m ≠ DeviceRetire) ms ∧
    Forall (λ m, sequence m ≤ px_sequence d - slack ∧ epoch m ≤ px_epoch d) ms.

Abbreviation Any := (λ _ : @St W A, True).

Lemma Stream_weaken s : Stream 1 s → Stream 0 s.
Proof.
  destruct s as [[d w] a]. intros (? & ? & ? & ms & ? & ? & ? & Hle).
  split; [done|]. split; [lia|]. split; [done|]. exists ms. split_and!; try done.
  eapply Forall_impl; [exact Hle|]. simpl. intros; lia.
Qed.

Lemma stream_kernel {X} (f : W → W * result IoErrorKind X) k :
  (∀ w, sent (f w).1 = sent w) → triple (Stream k) (kernel f) (λ _, Stream k) Any.
Proof.
  intros Hf [[d w] a] Hs. unfold kernel. specialize (Hf w).
  destruct (f w) as [w' [x|e]]; [|done]. simpl in *. by rewrite Hf.
Qed.

Lemma stream_device {X} (f : W → Z → W * result IoErrorKind X) k :
  (∀ w fd, sent (f w fd).1 = sent w) → triple (Stream k) (device f) (λ _, Stream k) Any.
Proof.
  intros Hf [[d w] a] Hs. unfold device. specialize (Hf w (px_fd d)).
  destruct (f w (px_fd d)) as [w' [x|e]]; [|done]. simpl in *. by rewrite Hf.
Qed.

Lemma stream_ask {X} (f : A → A * result IoErrorKind X) k :
  triple (Stream k) (ask f) (λ _, Stream k) Any.
Proof. by apply triple_ask. Qed.

Lemma stream_get {X} (f : DeviceProxy → M X) k (Q : X → @St W A → Prop) :
  (∀ d, triple (Stream k) (f d) Q Any) → triple (Stream k) (d ← get; f d) Q Any.
Proof.
  intros Hf. eapply (triple_bind _ _ _ (λ _, Stream k)); [by apply triple_get|]. done.
Qed.

Lemma stream_modify f k :
  (∀ d, px_sequence (f d) = px_sequence d ∧ px_epoch (f d) = px_epoch d ∧
        px_generation (f d) = px_generation d) →
  triple (Stream k) (modify f) (λ _, Stream k) Any.
Proof.
  intros Hf. apply triple_modify. intros d w a. simpl.
  destruct (Hf d) as (-> & -> & ->). done.
Qed.

Lemma stream_guard (b : bool) k e :
  triple (Stream k) (if b then fail e else mret ()) (λ _, Stream k) Any ∧
  triple (Stream k) (if b then mret () else fail e) (λ _, Stream k) Any.
Proof. by destruct b; split; intros s. Qed.

Lemma stream_lift {X} (r : result IoErrorKind X) k :
  triple (Stream k) (lift r) (λ _, Stream k) Any.
Proof. by apply triple_lift. Qed.

Lemma stream_verify p k : triple (Stream k) (verify p) (λ _, Stream k) Any.
Proof. eapply triple_bind; [apply stream_ask|]. intros proof. apply stream_guard. Qed.

Lemma stream_check_device p k : triple (Stream k) (check_device p) (λ _, Stream k) Any.
Proof. apply stream_get. intros d. apply stream_ask. Qed.

Lemma stream_check_output p k : triple (Stream k) (check_output p) (λ _, Stream k) Any.
Proof. apply stream_get. intros d. apply stream_ask. Qed.

(** A fresh number is above everything sent. *)
Lemma stream_next_sequence : triple (Stream 0) next_sequence (λ _, Stream 1) Any.
Proof.
  intros [[d w] a] Hs. unfold next_sequence, mbind, M_bind, get, lift. simpl.
  destruct (checked_add_u64 (px_sequence d) 1) as [n|] eqn:Hn; simpl; [|done].
  apply checked_add_u64_Some in Hn as [-> _].
  replace (px_sequence d + 1 - 1) with (px_sequence d - 0) by lia. exact Hs.
Qed.

(** A request that carries the fresh number may be sent. *)
Definition request_of (op : Operation) (e : RawEvent) (m : Message) (s : @St W A) : Prop :=
  m = mkMessage op (px_generation s.1.1) (px_epoch s.1.1) (px_sequence s.1.1) e.

Lemma stream_request op e :
  triple (Stream 1) (request op e) (λ m s, Stream 1 s ∧ request_of op e m s) Any.
Proof. by intros [[d w] a] Hs. Qed.

Lemma stream_send op e m :
  is_request op = true → op ≠ DeviceRetire →
  (op = SnapshotKey → event_type e = 1 ∧ value e = 1 ∧ raw_code e ≤ MAX_KEY) →
  triple (λ s, Stream 1 s ∧ request_of op e m s) (kernel (λ w, k_write_socket w m))
    (λ _, Stream 0) Any.
Proof.
  intros Hop Hnr Hsnap [[d w] a] [Hs Hm]. unfold request_of in Hm; simpl in Hm.
  unfold kernel. destruct (k_write_socket w m) as [w' [u|er]] eqn:Hk; [|done].
  apply write_sent in Hk. destruct Hs as (Hg & Hn & He & ms & Hsent & Hst & Hret & Hle).
  split; [done|]. split; [lia|]. split; [done|]. exists (ms ++ [m]). rewrite Hk, Hsent, <- app_assoc.
  subst m. split_and!; [done| | |].
  - apply request_stream_snoc; simpl; try done; [lia|].
    eapply Forall_impl; [exact Hle|]. simpl. intros; lia.
  - apply Forall_app. split; [done|]. by repeat constructor.
  - apply Forall_app. split; [|by repeat constructor; simpl; lia].
    eapply Forall_impl; [exact Hle|]. simpl. intros; lia.
Qed.

Lemma stream_control op e :
  is_request op = true → op ≠ DeviceRetire →
  (op = SnapshotKey → event_type e = 1 ∧ value e = 1 ∧ raw_code e ≤ MAX_KEY) →
  triple (Stream 0) (control op e) (λ _, Stream 0) Any.
Proof.
  intros Hop Hnr Hsnap.
  eapply triple_bind; [apply stream_next_sequence|]. intros [].
  eapply triple_bind; [apply stream_request|]. intros m.
  eapply triple_bind; [by apply stream_send|]. intros u.
  eapply triple_bind; [apply stream_kernel; intros; by apply (read_socket_frame _ 0)|].
  intros reply. apply stream_guard.
Qed.

Lemma stream_emit es : triple (Stream 0) (emit es) (λ _, Stream 0) Any.
Proof.
  apply triple_for_each. intros e _. unfold emit_one. apply triple_if; intros _.
  { apply stream_get. intros d.
    eapply triple_bind; [apply stream_device; intros; apply emit_sent|]. intros [].
    by apply stream_modify. }
  apply triple_if; intros _; [|by intros s].
  apply stream_get. intros d. case_bool_decide; [by intros s|]. by apply stream_modify.
Qed.

(** A new epoch is above every epoch sent. *)
Lemma stream_next_epoch {X} (k : DeviceProxy → M X) (Q : X → @St W A → Prop) :
  (∀ d, triple (Stream 0) (k d) Q Any) →
  triple (Stream 0)
    (d ← get;
     e ← lift (ok_or (checked_add_u64 (px_epoch d) 1) PermissionDenied);
     _ ← modify (px_set_epoch e); k d) Q Any.
Proof.
  intros Hk [[d w] a] Hs. unfold mbind, M_bind, get, lift, modify. simpl.
  destruct (checked_add_u64 (px_epoch d) 1) as [e|] eqn:He; simpl; [|done].
  apply checked_add_u64_Some in He as [-> _]. apply Hk.
  destruct Hs as (? & ? & ? & ms & ? & ? & ? & Hle). split; [done|]. split; [done|].
  split; [simpl; lia|]. exists ms. split_and!; try done. eapply Forall_impl; [exact Hle|]. simpl. intros; lia.
Qed.

Lemma stream_resync : triple (Stream 0) pump_resync (λ _, Stream 0) Any.
Proof.
  eapply (triple_bind _ _ _ (λ keys s, Stream 0 s ∧ ∀ k, k ∈ keys → 0 ≤ k ≤ MAX_KEY)).
  { intros [[d w] a] Hs. unfold device.
    pose proof (get_key_state_frame w (px_fd d) 0) as [_ Hf].
    destruct (k_get_key_state w (px_fd d)) as [w' [keys|e]] eqn:Hk; [|done].
    simpl in *. rewrite Hf. split; [done|]. by eapply key_state_bound. }
  intros keys s0 [Hs0 Hb]. revert s0 Hs0. apply stream_next_epoch. intros d.
  destruct (resync (px_state d) keys) as [s' es].
  eapply triple_bind; [by apply stream_modify|]. intros [].
  eapply triple_bind; [by apply stream_control|]. intros [].
  eapply (triple_bind _ _ _ (λ _, Stream 0)).
  { apply triple_for_each. intros k Hk%elem_of_ascending%Hb. apply stream_control; [done..|].
    intros _. simpl. lia. }
  intros []. eapply triple_bind; [apply stream_emit|]. intros []. apply stream_emit.
Qed.

Lemma stream_pump_decision req raw :
  triple (λ s, Stream 1 s ∧ request_of Event raw req s) (pump_decision req raw)
    (λ _, Stream 0) Any.
Proof.
  assert (triple (λ s, Stream 1 s ∧ request_of Event raw req s)
    (_ ← kernel (λ w, k_write_socket w req); reply ← kernel k_read_socket;
     lift (admitted_decision req reply)) (λ _, Stream 0) Any) as Ht.
  { eapply triple_bind; [by apply stream_send|]. intros u.
    eapply triple_bind; [apply stream_kernel; intros; by apply (read_socket_frame _ 0)|].
    intros reply. apply stream_lift. }
  eapply (triple_bind _ _ _ (λ _ s, Stream 1 s ∧ request_of Event raw req s));
    [by apply triple_get|].
  intros d. apply triple_if; intros _; [exact Ht|].
  apply triple_ret. intros s [Hs _]. by apply Stream_weaken.
Qed.

Lemma stream_event p raw : triple (Stream 0) (pump_event p raw) (λ _, Stream 0) Any.
Proof.
  eapply triple_bind; [apply stream_verify|]. intros [].
  apply stream_get. intros d0. apply triple_if; intros _; [apply stream_resync|].
  eapply triple_bind; [apply stream_next_sequence|]. intros [].
  eapply triple_bind; [apply stream_request|]. intros req.
  eapply triple_bind; [apply stream_pump_decision|].
  intros dec. eapply (triple_bind _ _ _ (λ _, Stream 0)).
  { destruct (is_dropped raw); [by apply stream_modify|by intros s]. }
  intros []. apply stream_get. intros d. destruct (apply (px_state d) raw dec) as [s' es].
  eapply triple_bind; [by apply stream_modify|]. intros []. apply stream_emit.
Qed.

Lemma stream_pump_inner : triple (Stream 0) pump_inner (λ _, Stream 0) Any.
Proof.
  eapply triple_bind; [apply stream_kernel; intros; by apply (peer_identity_frame _ 0)|].
  intros p. eapply triple_bind; [apply stream_verify|]. intros [].
  eapply triple_bind; [apply stream_check_device|]. intros [].
  eapply triple_bind; [apply stream_check_output|]. intros [].
  apply stream_get. intros d. eapply triple_bind; [apply stream_guard|]. intros [].
  eapply triple_bind; [apply stream_kernel; intros; by apply (poll_peer_frame _ 0)|].
  intros hung. eapply triple_bind; [apply stream_guard|]. intros [].
  eapply triple_bind; [apply stream_device; intros; by apply (poll_input_frame _ _ 0)|].
  intros [[]|]; [by intros s| |by intros s].
  eapply triple_bind; [apply stream_device; intros; by apply (fetch_events_frame _ _ 0)|].
  intros fetched. eapply triple_bind; [apply stream_guard|]. intros [].
  eapply triple_bind; [apply stream_kernel; intros; by apply (set_timeouts_frame _ 0)|].
  intros []. apply triple_for_each. intros e _. apply stream_event.
Qed.

Lemma stream_or_bypass {X} P (m : @M W A X) Q :
  triple P m Q Any → triple P (or_bypass m) Q Any.
Proof.
  intros Hm s Hs. unfold or_bypass. specialize (Hm s Hs). by destruct (m s) as [s' [x|e]].
Qed.

Lemma stream_check_post_grab : triple (Stream 0) check_post_grab (λ _, Stream 0) Any.
Proof.
  assert (∀ b, triple (Stream 0)
    (keys ← device k_get_key_state; lift (quiescent b (bool_decide (keys = ∅))))
    (λ _, Stream 0) Any) as Hq.
  { intros b.
    eapply triple_bind; [apply stream_device; intros; by apply (get_key_state_frame _ _ 0)|].
    intros keys. apply stream_lift. }
  intros [[d w] a] Hs. unfold check_post_grab, device at 1.
  pose proof (fetch_events_frame w (px_fd d) 0) as [_ Hf].
  destruct (k_fetch_events w (px_fd d)) as [w' r]; simpl in Hf.
  assert (Stream 0 (d, w', a)) as Hs' by (simpl in *; by rewrite Hf).
  destruct r as [evs|[]]; try done; [apply (Hq (bool_decide (evs = [])) _ Hs')|].
  apply (Hq true _ Hs').
Qed.

Lemma stream_activate p : triple (Stream 0) (activate p) (λ _, Stream 0) Any.
Proof.
  eapply triple_bind; [apply stream_verify|]. intros [].
  eapply triple_bind; [apply stream_check_device|]. intros [].
  eapply triple_bind; [apply stream_device; intros; by apply (get_key_state_frame _ _ 0)|].
  intros keys. eapply triple_bind; [apply stream_guard|]. intros [].
  eapply triple_bind; [apply stream_check_output|]. intros [].
  eapply triple_bind; [apply stream_device; intros; by apply (grab_frame _ _ 0)|]. intros [].
  eapply triple_bind; [by apply stream_modify|]. intros []. apply stream_or_bypass.
  eapply triple_bind; [apply stream_check_post_grab|]. intros []. apply stream_check_output.
Qed.

(** Admission itself sends nothing. *)
Lemma from_authorized_stream fd p w a w' a' d :
  sent w = l0 → from_authorized_fd fd g p (w, a) = (w', a', Ok d) →
  Stream 0 (d, w', a').
Proof.
  intros Hl Hn. apply from_authorized_inv in Hn as Hi. destruct Hi as [-> _].
  revert Hn. unfold from_authorized_fd.
  set (self := mkDeviceProxy fd _ g 1 0 false []). set (checks := verify p ≫= _).
  cbn [fst snd].
  assert (triple (Stream 0) checks (λ _, Stream 0) Any) as Hc.
  { eapply triple_bind; [apply stream_verify|]. intros [].
    eapply triple_bind; [apply stream_check_device|]. intros [].
    eapply triple_bind; [apply stream_device; intros; by apply (nonblocking_frame _ _ 0)|].
    intros []. eapply triple_bind;
      [apply stream_device; intros; by apply (raw_device_frame _ _ 0)|]. intros input.
    eapply triple_bind; [apply stream_guard|]. intros [].
    eapply triple_bind; [apply stream_lift|]. intros keys.
    eapply triple_bind; [apply stream_guard|]. intros [].
    eapply triple_bind; [apply stream_device; intros; by apply (get_key_state_frame _ _ 0)|].
    intros down. eapply triple_bind; [apply stream_guard|]. intros [].
    eapply triple_bind; [apply stream_device; intros; apply build_output_sent|]. intros [].
    apply stream_device. intros. by apply (nonblocking_frame _ _ 0). }
  assert (Stream 0 (self, w, a)) as Hs.
  { split_and!; [done..|]. exists []. by rewrite app_nil_r. }
  specialize (Hc _ Hs). destruct (checks (self, w, a)) as [[[d1 w1] a1] [[]|e]]; [|done].
  simpl. intros [= -> -> ->]. exact Hc.
Qed.
End stream.

Lemma proxy_reach_stream {W A} `{KernelLaws W, SessionAuthority A} g w0 (s : @St W A) :
  proxy_reach g w0 s → Stream (sent w0) g 0 s.
Proof.
  induction 1 as [fd p a0 w a d Hn|s p s' _ IH Hs|s s' _ IH Hs|s s' _ IH Hs].
  - by eapply from_authorized_stream.
  - by eapply (triple_Ok _ _ _ _ _ _ _ (stream_activate _ _ p)).
  - by eapply (triple_Ok _ _ _ _ _ _ _ (stream_or_bypass _ _ _ (stream_pump_inner _ _))).
  - eapply (triple_Ok _ _ _ _ _ _ _ (stream_control _ _ DeviceReset RawEvent_default
      eq_refl ltac:(done) ltac:(done))); done.
Qed.

(** A client that never heard of generation [g] and has room for one more device. *)
Record unseen (c : ClientState) (g : Z) : Prop := {
  un_epoch : cs_epochs c !! g = None;
  un_sequence : cs_sequences c !! g = None;
  un_generation : cs_highest_generation c < g;
  un_room : (size (cs_epochs c) < 128)%nat;
}.


(** ** Witnesses *)

Definition sim_requests : list (Message * option string) :=
  (λ m, (m, None)) <$> sent sim_pumped.1.2.

