(* ===== verification/Transactions.v ===== *)
(** * Matcher transactions (packages/linux/src/hyprland/matcher.rs)

    [MatcherTransactions] sits between the compositor bridge and a matcher: it
    turns one native event into one proposed decision, holds the matcher's token
    until the compositor reports what it did, and refuses every proposal after an
    uncertain delivery until the compositor attests a clean state. The matcher is
    passed next to it, as the source passes [&mut Matcher]; [None] is a panic of
    [Matcher::dispatch_device_with_delivery]. *)

From S2P Require Import Prelude Event TapFsm Rule Keymap Protocol Wire.

(** ** Delivery reports ([hyprland/mod.rs]) *)

(** [enum DeliveryReport] *)
Inductive DeliveryReport : Type :=
  | Acknowledged (outcome : Wire.Outcome)
  | Report_Uncertain.

#[export] Instance DeliveryReport_eq_dec : EqDecision DeliveryReport.
Proof. solve_decision. Defined.

(** [DeliveryReport::replacement_delivery] *)
Definition replacement_delivery (self : DeliveryReport) : ReplacementDelivery :=
  match self with
  | Acknowledged outcome =>
      match Wire.out_result outcome with
      | Wire.Replaced => Delivered
      | Wire.RejectedOriginalAdmitted | Wire.TimeoutOriginalAdmitted =>
          RejectedOriginalForwarded
      | _ => Uncertain
      end
  | Report_Uncertain => Uncertain
  end.

(** ** Modifier masks *)

(** [physical_modifiers]: the loop over the eight modifier keys of the wire
    mask. *)
Definition physical_modifiers (bits : Z) : Modifiers :=
  fold_left (λ mods '(index, key),
    if negb (bool_decide (Z.land bits (Z.shiftl 1 index) = 0))
    then (mods ∪ Linux.modifier key)%mods else mods)
    [(0, 42); (1, 54); (2, 29); (3, 97); (4, 56); (5, 100); (6, 125); (7, 126)]
    mods_empty.

(** [requested_modifiers] *)
Definition requested_modifiers (mods : Modifiers) : option Z :=
  if mods_contains mods FN then None
  else Some (fold_left (λ bits '(l, r, generic, offset),
    let bits :=
      if mods_contains mods l || (mods_contains mods generic && negb (mods_contains mods r))
      then Z.lor bits (Z.shiftl 1 offset) else bits in
    if mods_contains mods r then Z.lor bits (Z.shiftl 1 (offset + 1)) else bits)
    [(LEFT_SHIFT, RIGHT_SHIFT, SHIFT, 0); (LEFT_CTRL, RIGHT_CTRL, CTRL, 2);
     (LEFT_ALT, RIGHT_ALT, ALT, 4); (LEFT_CMD, RIGHT_CMD, CMD, 6)] 0).

(** ** State *)

(** [enum RecoveryState] *)
Inductive RecoveryState : Type :=
  | Unbound
  | AwaitingNativeProof
  | FreshAdmissionRequired
  | Ready.

#[export] Instance RecoveryState_eq_dec : EqDecision RecoveryState.
Proof. solve_decision. Defined.

(** [struct Pending] *)
Record Pending : Type := mkPending {
  p_scope : Wire.Scope;
  p_token : ReplacementToken;
  p_decision : Wire.Decision;
  p_key : Z;
  p_state : Z;
  p_focus_epoch : Z;
}.

(** [struct MatcherTransactions] *)
Record MatcherTransactions : Type := mkTx {
  tx_pending : option Pending;
  tx_modifier_tap_release : bool;
  tx_physical_downs : gset (Z * Z);
  tx_observation : option (Z * Z * Z * Z);
  tx_replacement_disabled : bool;
  tx_recovery_nonce : option Z;
  tx_previous_recovery_nonce : option Z;
}.

(** [MatcherTransactions::default] *)
Definition Tx_default : MatcherTransactions := mkTx None false ∅ None false None None.

(** Assignments to one field. *)
Definition tx_set_pending p (t : MatcherTransactions) : MatcherTransactions :=
  mkTx p (tx_modifier_tap_release t) (tx_physical_downs t) (tx_observation t)
    (tx_replacement_disabled t) (tx_recovery_nonce t) (tx_previous_recovery_nonce t).
Definition tx_set_downs d (t : MatcherTransactions) : MatcherTransactions :=
  mkTx (tx_pending t) (tx_modifier_tap_release t) d (tx_observation t)
    (tx_replacement_disabled t) (tx_recovery_nonce t) (tx_previous_recovery_nonce t).
Definition tx_set_observation o (t : MatcherTransactions) : MatcherTransactions :=
  mkTx (tx_pending t) (tx_modifier_tap_release t) (tx_physical_downs t) o
    (tx_replacement_disabled t) (tx_recovery_nonce t) (tx_previous_recovery_nonce t).
Definition tx_set_disabled b (t : MatcherTransactions) : MatcherTransactions :=
  mkTx (tx_pending t) (tx_modifier_tap_release t) (tx_physical_downs t) (tx_observation t)
    b (tx_recovery_nonce t) (tx_previous_recovery_nonce t).
Definition tx_set_nonce n (t : MatcherTransactions) : MatcherTransactions :=
  mkTx (tx_pending t) (tx_modifier_tap_release t) (tx_physical_downs t) (tx_observation t)
    (tx_replacement_disabled t) n (tx_previous_recovery_nonce t).
Definition tx_set_previous n (t : MatcherTransactions) : MatcherTransactions :=
  mkTx (tx_pending t) (tx_modifier_tap_release t) (tx_physical_downs t) (tx_observation t)
    (tx_replacement_disabled t) (tx_recovery_nonce t) n.

(** [MatcherTransactions::set_modifier_tap_release] *)
Definition set_modifier_tap_release (enabled : bool) (t : MatcherTransactions) :
    MatcherTransactions :=
  mkTx (tx_pending t) enabled (tx_physical_downs t) (tx_observation t)
    (tx_replacement_disabled t) (tx_recovery_nonce t) (tx_previous_recovery_nonce t).

(** The two objects every operation borrows. *)
Abbreviation TxM := (MatcherTransactions * Matcher)%type.

(** ** Proposals *)

(** [observe_physical] *)
Definition observe_physical (t : MatcherTransactions) (m : Matcher) (scope : Wire.Scope)
    (event : Wire.Event) : TxM * bool :=
  let identity := (Wire.nonce scope, Wire.lock_epoch scope, Wire.ev_focus_epoch event,
                   Wire.generation scope) in
  let m := if negb (bool_decide (tx_observation t = Some identity))
           then disqualify_taps m else m in
  let t := tx_set_observation (Some identity) t in
  let press := (Wire.generation scope, Wire.ev_key event) in
  match Wire.ev_state event with
  | 1 => let '(s, fresh) := set_insert press (tx_physical_downs t) in
         ((tx_set_downs s t, m), fresh)
  | 0 => let '(s, held) := set_remove press (tx_physical_downs t) in
         ((tx_set_downs s t, m), held)
  | _ => ((t, m), false)
  end.

(** [u16::try_from(event.key).ok().and_then(from_evdev)] *)
Definition event_code (event : Wire.Event) : option KeyCode :=
  u16_try_from (Wire.ev_key event) ≫= Linux.from_evdev.

(** The normalized [KeyEvent] of a native event. *)
Definition normalized (code : KeyCode) (event : Wire.Event) : KeyEvent :=
  mkKeyEvent code (if bool_decide (Wire.ev_state event = 0) then KeyUp else KeyDown)
    (physical_modifiers (Wire.ev_modifiers event)).

(** The [match verdict] of [propose_with_source]; [admit_source] works on a state
    of its own. *)
Definition verdict_decision {S} (admit_source : S → string → S * bool) (s : S)
    (event : Wire.Event) (verdict : Verdict) : S * Wire.Decision :=
  match verdict with
  | Verdict_Pass => (s, Wire.Pass)
  | Verdict_Swallow =>
      (s, if bool_decide (Wire.ev_state event = 0) then Wire.Pass else Wire.Swallow)
  | Verdict_Replace (SendKey key mods) =>
      (s, match Linux.to_evdev key, requested_modifiers mods with
          | Some key, Some modifiers => Wire.Replace key modifiers
          | _, _ => Wire.Pass
          end)
  | Verdict_Replace (SetInputSource id) =>
      let '(s, admitted) := admit_source s id in
      (s, if admitted then Wire.Swallow else Wire.Pass)
  end.

(** [propose_with_source] *)
Definition propose_with_source {S} (admit_source : S → string → S * bool)
    (t : MatcherTransactions) (m : Matcher) (s : S) (scope : Wire.Scope)
    (event : Wire.Event) (focused_app : option string) (now : Z) :
    option (MatcherTransactions * Matcher * S * Wire.IoResult Wire.Decision) :=
  if bool_decide (is_Some (tx_pending t)) || tx_replacement_disabled t
  then Some (t, m, s, Wire.invalid)
  else if bool_decide (1 < Wire.ev_state event) ||
          (bool_decide (Wire.ev_state event = 0) && negb (tx_modifier_tap_release t))
  then Some (t, m, s, Ok Wire.Pass)
  else
    let '((t, m), fresh) :=
      if tx_modifier_tap_release t then observe_physical t m scope event
      else ((t, m), true) in
    if negb fresh then Some (t, m, s, Ok Wire.Pass)
    else
      match event_code event with
      | None => Some (t, disqualify_taps m, s, Ok Wire.Pass)
      | Some code =>
          '(m, (verdict, token)) ←
            dispatch_device_with_delivery m (Wire.generation scope) (normalized code event)
              focused_app now;
          let m :=
            if tx_modifier_tap_release t && is_modifier code &&
               bool_decide (Wire.ev_state event = 1) &&
               existsb (λ press,
                 negb (bool_decide (press = (Wire.generation scope, Wire.ev_key event))))
                 (elements (tx_physical_downs t))
            then disqualify_taps m else m in
          let '(s, decision) := verdict_decision admit_source s event verdict in
          let t :=
            match token with
            | Some token =>
                tx_set_pending (Some (mkPending scope token decision (Wire.ev_key event)
                  (Wire.ev_state event) (Wire.ev_focus_epoch event))) t
            | None => t
            end in
          Some (t, m, s, Ok decision)
      end.

(** [propose]: no source selection is admitted. *)
Definition propose (t : MatcherTransactions) (m : Matcher) (scope : Wire.Scope)
    (event : Wire.Event) (focused_app : option string) (now : Z) :
    option (MatcherTransactions * Matcher * unit * Wire.IoResult Wire.Decision) :=
  propose_with_source (λ s _, (s, false)) t m tt scope event focused_app now.

(** ** Settlement *)

(** The test of the [matches!] in [on_delivery]: the acknowledgement is not of
    the proposal. *)
Definition mismatched (p : Pending) (o : Wire.Outcome) : bool :=
  negb (bool_decide (Wire.out_key o = p_key p)) ||
  negb (bool_decide (Wire.out_state o = p_state p)) ||
  negb (bool_decide (Wire.out_focus_epoch o = p_focus_epoch p)) ||
  (bool_decide (Wire.out_result o = Wire.Replaced) &&
   negb (match p_decision p with Wire.Replace _ _ => true | _ => false end)) ||
  (bool_decide (Wire.out_result o = Wire.SwallowCommitted) &&
   negb (bool_decide (p_decision p = Wire.Swallow))).

(** [let result = ..] of [on_delivery]. *)
Definition delivery_result (p : Pending) (report : DeliveryReport) : ReplacementDelivery :=
  let acked r :=
    match report with
    | Acknowledged o => bool_decide (Wire.out_result o = r)
    | Report_Uncertain => false
    end in
  if bool_decide (p_decision p = Wire.Pass) && acked Wire.OriginalAdmitted
  then RejectedOriginalForwarded
  else if bool_decide (p_decision p = Wire.Swallow) && acked Wire.SwallowCommitted
  then Delivered
  else replacement_delivery report.

(** [on_delivery] *)
Definition on_delivery (t : MatcherTransactions) (m : Matcher) (scope : Wire.Scope)
    (report : DeliveryReport) : TxM * bool :=
  match tx_pending t with
  | None => ((t, m), false)
  | Some p =>
      if negb (bool_decide (p_scope p = scope)) then ((t, m), false)
      else
        let t := tx_set_pending None t in
        if match report with Acknowledged o => mismatched p o | Report_Uncertain => false end
        then
          ((tx_set_disabled true t, (report_delivery m (p_token p) Uncertain).1), false)
        else
          let result := delivery_result p report in
          let t := if bool_decide (result = Uncertain) then tx_set_disabled true t else t in
          let '(m, settled) := report_delivery m (p_token p) result in
          ((t, m), settled)
  end.

(** [settle_device_event] *)
Definition settle_device_event (t : MatcherTransactions) (m : Matcher) (scope : Wire.Scope)
    (event : Wire.Event) (report : DeliveryReport) : TxM * bool :=
  if bool_decide (Wire.ev_state event = 1) || bool_decide (2 < Wire.ev_state event) ||
     bool_decide (Wire.generation scope = 0)
  then ((t, m), false)
  else
    match report with
    | Report_Uncertain => ((tx_set_disabled true t, m), false)
    | Acknowledged outcome =>
        if negb (bool_decide (Wire.out_key outcome = Wire.ev_key event)) ||
           negb (bool_decide (Wire.out_state outcome = Wire.ev_state event)) ||
           negb (bool_decide (Wire.out_focus_epoch outcome = Wire.ev_focus_epoch event)) ||
           (bool_decide (Wire.out_result outcome = Wire.PartialUncertainFatal) ||
            bool_decide (Wire.out_result outcome = Wire.Replaced))
        then ((tx_set_disabled true t, m), false)
        else
          match event_code event with
          | None => ((t, m), false)
          | Some code =>
              let t :=
                if bool_decide (Wire.ev_state event = 0) &&
                   match tx_pending t with
                   | Some p =>
                       bool_decide (Wire.generation (p_scope p) = Wire.generation scope) &&
                       bool_decide (p_key p = Wire.ev_key event)
                   | None => false
                   end
                then tx_set_pending None t else t in
              ((t, Matcher_settle_device_event m (Wire.generation scope)
                     (normalized code event)), true)
          end
    end.

(** ** Speculation and recovery *)

(** [invalidate_speculation] *)
Definition invalidate_speculation (t : MatcherTransactions) (m : Matcher) : TxM :=
  let t := if bool_decide (is_Some (tx_pending t))
           then tx_set_disabled true (tx_set_pending None t) else t in
  (tx_set_observation None t, Matcher_invalidate_speculation m).

(** [disconnected] *)
Definition disconnected (t : MatcherTransactions) (m : Matcher) : TxM :=
  let '(t, m) := invalidate_speculation t m in
  (tx_set_disabled true (tx_set_nonce None t), m).

(** [await_reconciliation] *)
Definition await_reconciliation (t : MatcherTransactions) (m : Matcher) (nonce : Z) :
    TxM * bool :=
  if bool_decide (nonce = 0) ||
     bool_decide (tx_previous_recovery_nonce t = Some nonce) ||
     bool_decide (tx_recovery_nonce t = Some nonce)
  then ((t, m), false)
  else
    let '(t, m) := invalidate_speculation t m in
    ((tx_set_nonce (Some nonce) (tx_set_disabled true t), m), true).

(** [await_lifecycle_reconciliation] *)
Definition await_lifecycle_reconciliation (t : MatcherTransactions) (m : Matcher)
    (scope : Wire.Scope) (body : Wire.Body) : TxM * bool :=
  if negb (match body with Wire.Reset 2 | Wire.Reset 3 => true | _ => false end) ||
     negb (bool_decide (Wire.generation scope = 0)) ||
     tx_replacement_disabled t ||
     bool_decide (is_Some (tx_pending t)) ||
     negb (bool_decide (tx_previous_recovery_nonce t = Some (Wire.nonce scope)))
  then ((t, m), false)
  else
    let '(t, m) := invalidate_speculation t m in
    ((tx_set_nonce (Some (Wire.nonce scope)) (tx_set_disabled true t), m), true).

(** [reconciled] *)
Definition reconciled (t : MatcherTransactions) (m : Matcher) (scope : Wire.Scope)
    (body : Wire.Body) : TxM * bool :=
  if negb (match body with Wire.Reset 8 => true | _ => false end) ||
     negb (bool_decide (Wire.generation scope = 0)) ||
     negb (bool_decide (tx_recovery_nonce t = Some (Wire.nonce scope)))
  then ((t, m), false)
  else
    let m := Matcher_reset m in
    let t := tx_set_downs ∅ t in
    let t := tx_set_observation None t in
    let t := tx_set_pending None t in
    let t := tx_set_disabled false t in
    let t := tx_set_nonce None (tx_set_previous (tx_recovery_nonce t) t) in
    ((t, m), true).

(** [retire_device] *)
Definition retire_device (t : MatcherTransactions) (m : Matcher) (generation : Z) : TxM :=
  if bool_decide (generation = 0) then (t, m)
  else
    let t :=
      if match tx_pending t with
         | Some p => bool_decide (Wire.generation (p_scope p) = generation)
         | None => false
         end
      then tx_set_disabled true (tx_set_pending None t) else t in
    let t := tx_set_downs (filter (λ '(id, _), id ≠ generation) (tx_physical_downs t)) t in
    (t, reset_device m generation).

(** [is_reconciled] *)
Definition is_reconciled (t : MatcherTransactions) (nonce : Z) : bool :=
  negb (bool_decide (nonce = 0)) && negb (tx_replacement_disabled t) &&
  bool_decide (tx_recovery_nonce t = None) &&
  bool_decide (tx_previous_recovery_nonce t = Some nonce).

(** [needs_reconciliation] *)
Definition needs_reconciliation (t : MatcherTransactions) : bool :=
  tx_replacement_disabled t && bool_decide (tx_recovery_nonce t = None).

(** [observe_lock_boundary] *)
Definition observe_lock_boundary (t : MatcherTransactions) (m : Matcher) (nonce : Z) : TxM :=
  if bool_decide (tx_recovery_nonce t = Some nonce) && tx_replacement_disabled t &&
     bool_decide (tx_pending t = None)
  then (tx_set_observation None t, Matcher_invalidate_speculation m)
  else disconnected t m.

(** [observe_unlocked_epoch] *)
Definition observe_unlocked_epoch (t : MatcherTransactions) (m : Matcher) (nonce : Z) : TxM :=
  if is_reconciled t nonce && bool_decide (tx_pending t = None)
  then (tx_set_observation None t, Matcher_invalidate_speculation m)
  else observe_lock_boundary t m nonce.

(** [recovery_state] *)
Definition recovery_state (t : MatcherTransactions) : RecoveryState :=
  if tx_replacement_disabled t then
    if bool_decide (is_Some (tx_recovery_nonce t)) then AwaitingNativeProof
    else FreshAdmissionRequired
  else if bool_decide (is_Some (tx_previous_recovery_nonce t)) then Ready
  else Unbound.
