(* ===== verification/TransactionsThm.v ===== *)
(** * Matcher transactions are exact and fail closed *)

From S2P Require Import Prelude Event TapFsm Rule MatcherInv Ownership Dispatch Keymap.
From S2P Require Import Protocol Wire Transactions.

(** ** Executions *)

(** The operations of [MatcherTransactions], and the reload of
    [MatchingState::replace] next to it. *)
Inductive TxOp : Type :=
  | TxPropose (scope : Wire.Scope) (event : Wire.Event) (focused_app : option string)
      (now : Z) (admits : string → bool)
  | TxDelivery (scope : Wire.Scope) (report : DeliveryReport)
  | TxSettle (scope : Wire.Scope) (event : Wire.Event) (report : DeliveryReport)
  | TxAwait (nonce : Z)
  | TxAwaitLifecycle (scope : Wire.Scope) (body : Wire.Body)
  | TxReconciled (scope : Wire.Scope) (body : Wire.Body)
  | TxRetire (generation : Z)
  | TxUnlockedEpoch (nonce : Z)
  | TxLockBoundary (nonce : Z)
  | TxInvalidate
  | TxDisconnected
  | TxReload (rules : list Rule).

Inductive TxObs : Type :=
  | ObsDecision (d : Wire.IoResult Wire.Decision)
  | ObsBool (b : bool)
  | ObsUnit.

Definition tx_step (s : TxM) (op : TxOp) : option (TxM * TxObs) :=
  let '(t, m) := s in
  match op with
  | TxPropose scope event app now admits =>
      '(t, m, _, d) ← propose_with_source (λ s id, (s, admits id)) t m tt scope event app now;
      Some ((t, m), ObsDecision d)
  | TxDelivery scope report => let '(s, b) := on_delivery t m scope report in Some (s, ObsBool b)
  | TxSettle scope event report =>
      let '(s, b) := settle_device_event t m scope event report in Some (s, ObsBool b)
  | TxAwait nonce => let '(s, b) := await_reconciliation t m nonce in Some (s, ObsBool b)
  | TxAwaitLifecycle scope body =>
      let '(s, b) := await_lifecycle_reconciliation t m scope body in Some (s, ObsBool b)
  | TxReconciled scope body => let '(s, b) := reconciled t m scope body in Some (s, ObsBool b)
  | TxRetire g => Some (retire_device t m g, ObsUnit)
  | TxUnlockedEpoch nonce => Some (observe_unlocked_epoch t m nonce, ObsUnit)
  | TxLockBoundary nonce => Some (observe_lock_boundary t m nonce, ObsUnit)
  | TxInvalidate => Some (invalidate_speculation t m, ObsUnit)
  | TxDisconnected => Some (disconnected t m, ObsUnit)
  | TxReload rules =>
      let '(t, m) := invalidate_speculation t m in
      Some ((t, swap_rules m (RuleSet_new rules)), ObsUnit)
  end.

Inductive tx_run : TxM → list (TxOp * TxObs) → TxM → Prop :=
  | tx_run_nil s : tx_run s [] s
  | tx_run_cons s op s1 o tr s2 :
      tx_step s op = Some (s1, o) → tx_run s1 tr s2 → tx_run s ((op, o) :: tr) s2.

(** The state the daemon starts in, tap releases admitted or not. *)
Definition tx_start (tap_release : bool) (rules : list Rule) : TxM :=
  (set_modifier_tap_release tap_release Tx_default, Matcher_new (RuleSet_new rules)).

Lemma tx_run_app s tr1 tr2 s' :
  tx_run s (tr1 ++ tr2) s' ↔ ∃ s1, tx_run s tr1 s1 ∧ tx_run s1 tr2 s'.
Proof.
  split.
  - revert s. induction tr1 as [|st tr1 IH]; intros s; simpl.
    + intros H. exists s. split; [constructor|done].
    + inversion 1; subst. destruct (IH s1) as (s2 & ? & ?); [done|].
      exists s2. split; [by econstructor|done].
  - intros (s1 & H1 & H2). induction H1; [done|]. simpl. econstructor; eauto.
Qed.

(** ** The invariant *)

(** The tokens the matcher may still settle: the held proposal's, if any. *)
Definition outstanding (t : MatcherTransactions) : gmap (Z * KeyCode) Z :=
  match tx_pending t with
  | Some p => {[(tok_device (p_token p), tok_key (p_token p)) := tok_generation (p_token p)]}
  | None => ∅
  end.

(** A held proposal is of a known key, its token of that key and device. *)
Definition pending_wf (p : Pending) : Prop :=
  tok_device (p_token p) = Wire.generation (p_scope p) ∧
  Linux.from_evdev (p_key p) = Some (tok_key (p_token p)).

Record TxInv (s : TxM) : Prop := {
  txi_matcher : MatcherInv s.2;
  txi_tokens : m_pending_deliveries s.2 = outstanding s.1;
  txi_pending : ∀ p, tx_pending s.1 = Some p → pending_wf p;
  txi_nonce : ∀ n, tx_recovery_nonce s.1 = Some n → tx_replacement_disabled s.1 = true ∧ n ≠ 0;
  txi_previous : ∀ n, tx_previous_recovery_nonce s.1 = Some n → n ≠ 0;
}.

Lemma TxInv_tokens t m : TxInv (t, m) → m_pending_deliveries m = outstanding t.
Proof. by intros []. Qed.

(** Operations that leave the recovery fields alone and drop or keep the held
    proposal. *)
Lemma TxInv_frame t m t' m' :
  TxInv (t, m) → MatcherInv m' →
  tx_recovery_nonce t' = tx_recovery_nonce t →
  tx_previous_recovery_nonce t' = tx_previous_recovery_nonce t →
  (tx_replacement_disabled t = true → tx_replacement_disabled t' = true) →
  (tx_pending t' = tx_pending t ∧ m_pending_deliveries m' = m_pending_deliveries m ∨
   tx_pending t' = None ∧ m_pending_deliveries m' = ∅) →
  TxInv (t', m').
Proof.
  intros [Hm Ht Hp Hn Hv] Hm' Hr Hpr Hd Hpend. simpl in *. split; simpl.
  - done.
  - unfold outstanding in *. destruct Hpend as [[-> ->]|[-> ->]]; done.
  - destruct Hpend as [[-> _]|[-> _]]; [done|]. by intros p ?.
  - rewrite Hr. intros n [? ?]%Hn. auto.
  - by rewrite Hpr.
Qed.

Lemma event_code_Some e k : event_code e = Some k → Linux.from_evdev (Wire.ev_key e) = Some k.
Proof.
  unfold event_code, u16_try_from. case_bool_decide; [|done]. done.
Qed.

Lemma observe_physical_frame t m scope e :
  let '((t', m'), _) := observe_physical t m scope e in
  (∃ ds o, t' = tx_set_downs ds (tx_set_observation o t)) ∧ (m' = m ∨ m' = disqualify_taps m).
Proof.
  unfold observe_physical, set_insert, set_remove.
  set (o := Some _). set (m1 := if negb _ then _ else _).
  assert (m1 = m ∨ m1 = disqualify_taps m) by (unfold m1; case_match; auto).
  assert (tx_set_observation o t =
    tx_set_downs (tx_physical_downs t) (tx_set_observation o t)) as E by (by destruct t).
  destruct (Wire.ev_state e) as [|[]|]; (split; [|done]); eauto.
Qed.

(** [t'] is [t] but for the physical observation. *)
Definition same_but_observation (t t' : MatcherTransactions) : Prop :=
  ∃ ds o, t' = tx_set_downs ds (tx_set_observation o t).

Lemma same_but_observation_refl t : same_but_observation t t.
Proof. exists (tx_physical_downs t), (tx_observation t). by destruct t. Qed.

(** What the taps of a matcher may lose while a native event is observed. *)
Definition same_but_taps (m m' : Matcher) : Prop := m' = m ∨ m' = disqualify_taps m.

(** The ways [propose_with_source] returns. *)
Inductive proposal {S} (admits : S → string → S * bool) (t : MatcherTransactions) (m : Matcher)
    (s : S) (scope : Wire.Scope) (e : Wire.Event) (app : option string) (now : Z) :
    MatcherTransactions → Matcher → S → Wire.IoResult Wire.Decision → Prop :=
  | proposal_refused :
      is_Some (tx_pending t) ∨ tx_replacement_disabled t = true →
      proposal admits t m s scope e app now t m s Wire.invalid
  | proposal_ignored t' m' :
      tx_pending t = None → tx_replacement_disabled t = false →
      same_but_observation t t' →
      m_pending_deliveries m' = m_pending_deliveries m → m_rules m' = m_rules m →
      (∀ p, owner m' p = owner m p) → (MatcherInv m → MatcherInv m') →
      proposal admits t m s scope e app now t' m' s (Ok Wire.Pass)
  | proposal_dispatched t1 m1 m2 m' code v token s' d :
      tx_pending t = None → tx_replacement_disabled t = false →
      Wire.ev_state e ≤ 1 →
      same_but_observation t t1 → same_but_taps m m1 → same_but_taps m2 m' →
      Linux.from_evdev (Wire.ev_key e) = Some code →
      dispatch_device_with_delivery m1 (Wire.generation scope) (normalized code e) app now =
        Some (m2, (v, token)) →
      verdict_decision admits s e v = (s', d) →
      proposal admits t m s scope e app now
        (match token with
         | Some token =>
             tx_set_pending (Some (mkPending scope token d (Wire.ev_key e) (Wire.ev_state e)
               (Wire.ev_focus_epoch e))) t1
         | None => t1
         end) m' s' (Ok d).

Lemma same_but_taps_facts m m' :
  same_but_taps m m' →
  m_pending_deliveries m' = m_pending_deliveries m ∧ m_rules m' = m_rules m ∧
  (∀ p, owner m' p = owner m p) ∧ (MatcherInv m → MatcherInv m').
Proof. intros [->| ->]; split_and!; try done. apply disqualify_taps_inv. Qed.

Lemma propose_cases {S} (admits : S → string → S * bool) t m s scope e app now t' m' s' r :
  propose_with_source admits t m s scope e app now = Some (t', m', s', r) →
  proposal admits t m s scope e app now t' m' s' r.
Proof.
  unfold propose_with_source. destruct (_ || tx_replacement_disabled t) eqn:Hg.
  { intros [= <- <- <- <-]. constructor.
    apply orb_true_iff in Hg as [?%bool_decide_eq_true|?]; auto. }
  bools. match goal with H : ¬ is_Some _ |- _ => apply eq_None_not_Some in H end.
  destruct (_ || _) eqn:Hst.
  { intros [= <- <- <- <-].
    by apply proposal_ignored; auto using same_but_observation_refl. }
  bools.
  assert (∀ t1 m1 (b : bool),
    (if tx_modifier_tap_release t then observe_physical t m scope e else (t, m, true)) =
      (t1, m1, b) → same_but_observation t t1 ∧ same_but_taps m m1) as Hobs.
  { intros t1 m1 b. destruct (tx_modifier_tap_release t).
    - pose proof (observe_physical_frame t m scope e) as H'. intros E. by rewrite E in H'.
    - intros [= <- <- <-]. split; [apply same_but_observation_refl|by left]. }
  destruct (if tx_modifier_tap_release t then _ else _) as [[t1 m1] fresh].
  destruct (Hobs _ _ _ eq_refl) as [Ht1 Hm1]. clear Hobs.
  destruct (same_but_taps_facts _ _ Hm1) as (? & ? & ? & ?).
  destruct fresh; simpl; [|intros [= <- <- <- <-]; by apply proposal_ignored].
  destruct (event_code e) as [code|] eqn:Hc.
  2: { intros [= <- <- <- <-]. apply proposal_ignored; auto using disqualify_taps_inv. }
  intros ([m2 [v token]] & Hd & Hr)%bind_Some.
  destruct (verdict_decision admits s e v) as [s2 d] eqn:Hv. injection Hr as <- <- <- <-.
  eapply proposal_dispatched; eauto using event_code_Some; [lia|].
  unfold same_but_taps. destruct (tx_modifier_tap_release t1 && _ && _ && _); auto.
Qed.

Lemma dispatch_delivery_tokens m d e app now m' v tok :
  MatcherInv m → m_pending_deliveries m = ∅ →
  dispatch_device_with_delivery m d e app now = Some (m', (v, tok)) →
  match tok with
  | None => m_pending_deliveries m' = ∅
  | Some tok =>
      m_pending_deliveries m' = {[(d, code e) := tok_generation tok]} ∧
      tok_device tok = d ∧ tok_key tok = code e
  end.
Proof.
  intros Hinv He. unfold dispatch_device_with_delivery. intros ([m1 v1] & Hd & Hr)%bind_Some.
  apply dispatch_pending_subseteq in Hd; [|done]. rewrite He in Hd.
  assert (m_pending_deliveries m1 = ∅) as E.
  { apply (anti_symm (⊆)); [done|apply map_empty_subseteq]. }
  destruct v1 as [| |a]; simplify_eq; try done.
  apply bind_Some in Hr as (g & _ & [= <- <- <-]). simpl. rewrite E. done.
Qed.

Lemma propose_inv {S} (admits : S → string → S * bool) t m s scope e app now t' m' s' r :
  TxInv (t, m) →
  propose_with_source admits t m s scope e app now = Some (t', m', s', r) → TxInv (t', m').
Proof.
  intros Hi Hp%propose_cases.
  destruct Hp as [Hb|t' m' Hn Hd (ds & o & ->) Hpd Hrl Ho Hm|
    t1 m1 m2 m' code v token s' d Hn Hd Hst (ds & o & ->) Hm1 Hm2 Hc Hdi Hv]; [done| |].
  { eapply TxInv_frame; [done|apply Hm, Hi|done..|]. by left. }
  destruct (same_but_taps_facts _ _ Hm1) as (E1 & _ & _ & I1).
  destruct (same_but_taps_facts _ _ Hm2) as (E2 & _ & _ & I2).
  assert (MatcherInv m1) as Hi1 by (apply I1, Hi).
  assert (m_pending_deliveries m1 = ∅) as Hempty.
  { rewrite E1. rewrite (TxInv_tokens _ _ Hi). unfold outstanding. simpl. by rewrite Hn. }
  pose proof (dispatch_delivery_tokens _ _ _ _ _ _ _ _ Hi1 Hempty Hdi) as Htok.
  assert (MatcherInv m') as Hm' by (eapply I2, dispatch_with_delivery_inv; eauto).
  destruct token as [tok|].
  - destruct Htok as (Htok & Hdev & Hkey), Hi as [_ _ _ Hi4 Hi5]. split; simpl.
    + done.
    + rewrite E2, Htok. unfold outstanding. simpl. by rewrite Hdev, Hkey.
    + intros p [= <-]. split; simpl; [done|]. by rewrite Hkey.
    + done.
    + done.
  - eapply TxInv_frame; [exact Hi|done..|]. simpl. right. rewrite E2. by rewrite Hn.
Qed.

Lemma report_pending_token m tok del :
  m_pending_deliveries m = {[(tok_device tok, tok_key tok) := tok_generation tok]} →
  m_pending_deliveries (report_delivery m tok del).1 = ∅ ∧ (report_delivery m tok del).2 = true.
Proof.
  intros E. unfold report_delivery. rewrite E, lookup_singleton_eq. simpl.
  rewrite bool_decide_true by done. simpl. split; [|done].
  repeat case_match; simpl; by rewrite ?E, delete_singleton_eq.
Qed.

Lemma on_delivery_inv t m scope report :
  TxInv (t, m) → TxInv (on_delivery t m scope report).1.
Proof.
  intros Hi. unfold on_delivery. destruct (tx_pending t) as [p|] eqn:Hp; [|done].
  destruct (negb _); [done|].
  assert (∀ del, m_pending_deliveries (report_delivery m (p_token p) del).1 = ∅) as He.
  { intros del. apply report_pending_token. rewrite (TxInv_tokens _ _ Hi).
    unfold outstanding. simpl. by rewrite Hp. }
  pose proof (λ del, report_delivery_inv m (p_token p) del (txi_matcher _ Hi)) as Hm.
  destruct (match report with Acknowledged _ => _ | _ => _ end).
  - eapply TxInv_frame; [exact Hi|apply Hm|done..|]. by right.
  - specialize (He (delivery_result p report)). specialize (Hm (delivery_result p report)).
    destruct (report_delivery _ _ _) as [m' b]. simpl in *.
    eapply TxInv_frame; [exact Hi|apply Hm|case_bool_decide; done..|].
    right. case_bool_decide; done.
Qed.

Lemma settle_inv t m scope e report :
  TxInv (t, m) → TxInv (settle_device_event t m scope e report).1.
Proof.
  intros Hi. unfold settle_device_event. destruct (_ || _ || _) eqn:Hg; [done|].
  assert (TxInv (tx_set_disabled true t, m)) as Hdis.
  { eapply TxInv_frame; [exact Hi|apply Hi|done..|]. by left. }
  destruct report as [o|]; [|done]. destruct (_ || _ || _ || _); [done|].
  destruct (event_code e) as [k|] eqn:Hk; [|done]. apply event_code_Some in Hk. cbn [fst].
  pose proof (settle_device_event_inv m (Wire.generation scope) (normalized k e)
    (txi_matcher _ Hi)) as Hm.
  clear Hg. case_bool_decide as Hs; cbn [andb].
  2: { eapply TxInv_frame; [exact Hi|done..|]. left. split; [done|].
       unfold Matcher_settle_device_event, normalized. simpl.
       by rewrite (bool_decide_false (_ = 0)). }
  assert (m_pending_deliveries (Matcher_settle_device_event m (Wire.generation scope)
    (normalized k e)) = delete (Wire.generation scope, k) (outstanding t)) as E.
  { unfold Matcher_settle_device_event, normalized. simpl.
    rewrite (bool_decide_true (_ = 0)) by done. simpl. by rewrite (TxInv_tokens _ _ Hi). }
  eapply TxInv_frame; [exact Hi|done|by case_match..|]. rewrite E, (TxInv_tokens _ _ Hi). simpl.
  unfold outstanding. destruct (tx_pending t) as [p|] eqn:Hp; [|right; by rewrite delete_empty].
  destruct (txi_pending _ Hi p Hp) as [Hdev Hcode].
  destruct (bool_decide (Wire.generation (p_scope p) = _)) eqn:E1; cbn [andb];
    [destruct (bool_decide (p_key p = _)) eqn:E2|]; bools.
  - right. split; [done|].
    assert (tok_key (p_token p) = k) as -> by congruence.
    rewrite Hdev, E1. apply delete_singleton_eq.
  - left. split; [done|]. apply delete_singleton_ne. intros [= _ Hkk].
    apply E2. apply from_to_evdev in Hk, Hcode. congruence.
  - left. split; [done|]. apply delete_singleton_ne. intros [= ? _]. congruence.
Qed.

Lemma invalidate_inv t m : TxInv (t, m) → TxInv (invalidate_speculation t m).
Proof.
  intros Hi. eapply TxInv_frame; [exact Hi| |by destruct (bool_decide _)..|].
  - apply invalidate_speculation_inv, Hi.
  - right. case_bool_decide as Hp; simpl; [done|]. by apply eq_None_not_Some in Hp.
Qed.

Lemma disconnected_inv t m : TxInv (t, m) → TxInv (disconnected t m).
Proof.
  intros Hi%invalidate_inv. unfold disconnected.
  destruct (invalidate_speculation t m) as [t' m']. by destruct Hi.
Qed.

Lemma arm_inv t m n : TxInv (t, m) → n ≠ 0 →
  let '(t', m') := invalidate_speculation t m in
  TxInv (tx_set_nonce (Some n) (tx_set_disabled true t'), m').
Proof.
  intros Hi%invalidate_inv Hn. destruct (invalidate_speculation t m) as [t' m'].
  destruct Hi. split; simpl; try done. by intros n' [= <-].
Qed.

Lemma await_inv t m n : TxInv (t, m) → TxInv (await_reconciliation t m n).1.
Proof.
  intros Hi. unfold await_reconciliation. destruct (_ || _) eqn:Hg; [done|]. bools.
  pose proof (arm_inv t m n Hi) as H'. destruct (invalidate_speculation t m). auto.
Qed.

Lemma await_lifecycle_inv t m scope body :
  TxInv (t, m) → TxInv (await_lifecycle_reconciliation t m scope body).1.
Proof.
  intros Hi. unfold await_lifecycle_reconciliation. destruct (_ || _) eqn:Hg; [done|]. bools.
  pose proof (arm_inv t m (Wire.nonce scope) Hi) as H'.
  destruct (invalidate_speculation t m). apply H'. eapply (txi_previous _ Hi). done.
Qed.

Lemma reconciled_inv t m scope body : TxInv (t, m) → TxInv (reconciled t m scope body).1.
Proof.
  intros Hi. unfold reconciled. destruct (_ || _) eqn:Hg; [done|]. bools.
  split; simpl; try done; [apply Matcher_reset_inv, Hi|]. apply (txi_nonce _ Hi).
Qed.

Lemma retire_inv t m g : TxInv (t, m) → TxInv (retire_device t m g).
Proof.
  intros Hi. unfold retire_device. case_bool_decide; [done|].
  set (b := match tx_pending t with Some _ => _ | _ => _ end).
  pose proof (reset_device_inv m g (txi_matcher _ Hi)) as Hm.
  eapply TxInv_frame; [exact Hi|exact Hm|by destruct b..|].
  cbn [m_pending_deliveries reset_device refresh_delivery_active set_active set_pending
    set_forwarded set_swallowed set_modifier_state set_tap_fsms].
  rewrite (TxInv_tokens _ _ Hi). unfold outstanding, b in *. clear b.
  destruct (tx_pending t) as [p|] eqn:Hp; simpl.
  2: { right. split; [done|]. apply map_filter_empty. }
  destruct (txi_pending _ Hi p Hp) as [Hdev _].
  case_bool_decide as Hg; [right|left]; (split; [done|]).
  - apply map_empty. intros [id k]. apply map_lookup_filter_None. right.
    intros x [[= <- <-] _]%lookup_singleton_Some. rewrite Hdev, Hg. tauto.
  - apply map_filter_id. intros [id k] x [[= <- <-] _]%lookup_singleton_Some.
    congruence.
Qed.

Lemma lock_boundary_inv t m n : TxInv (t, m) → TxInv (observe_lock_boundary t m n).
Proof.
  intros Hi. unfold observe_lock_boundary. destruct (_ && _ && _) eqn:Hg;
    [|by apply disconnected_inv]. bools.
  eapply TxInv_frame; [exact Hi|apply invalidate_speculation_inv, Hi|done..|]. by right.
Qed.

Lemma unlocked_epoch_inv t m n : TxInv (t, m) → TxInv (observe_unlocked_epoch t m n).
Proof.
  intros Hi. unfold observe_unlocked_epoch. destruct (_ && _) eqn:Hg;
    [|by apply lock_boundary_inv]. bools.
  eapply TxInv_frame; [exact Hi|apply invalidate_speculation_inv, Hi|done..|]. by right.
Qed.

Lemma reload_inv t m rules :
  TxInv (t, m) →
  let '(t', m') := invalidate_speculation t m in TxInv (t', swap_rules m' (RuleSet_new rules)).
Proof.
  intros Hi%invalidate_inv. destruct (invalidate_speculation t m) as [t' m'].
  eapply TxInv_frame; [exact Hi| |done..|]; [|by left].
  apply swap_rules_inv; [apply Hi|apply RuleSet_new_inv].
Qed.

#[export] Hint Resolve propose_inv on_delivery_inv settle_inv invalidate_inv disconnected_inv
  await_inv await_lifecycle_inv reconciled_inv retire_inv lock_boundary_inv
  unlocked_epoch_inv : sledge.

Lemma tx_step_inv s op s' o : TxInv s → tx_step s op = Some (s', o) → TxInv s'.
Proof.
  destruct s as [t m]. intros Hi. destruct op; simpl; intros Hs;
    try (simplify_eq; by auto with sledge);
    try (match type of Hs with (let '(_, _) := ?f in _) = _ =>
           assert (TxInv f.1) as Hf by auto with sledge;
           destruct f as [s1 b]; by simplify_eq
         end).
  - apply bind_Some in Hs as ([[[t' m'] []] d] & Hd & [= <- <-]). eauto with sledge.
  - pose proof (reload_inv t m rules Hi). by simplify_eq.
Qed.

Lemma tx_run_inv s tr s' : TxInv s → tx_run s tr s' → TxInv s'.
Proof. intros Hi. induction 1; eauto using tx_step_inv. Qed.

Lemma tx_start_inv b rules : TxInv (tx_start b rules).
Proof. split; simpl; try done. apply MatcherInv_new, RuleSet_new_inv. Qed.

#[export] Hint Resolve tx_start_inv : sledge.

Lemma dispatch_delivery_total m d e app now :
  MatcherInv m → m_delivery_generation m < u64_max →
  is_Some (dispatch_device_with_delivery m d e app now).
Proof.
  intros Hm Hg. unfold dispatch_device_with_delivery.
  destruct (dispatch_device_total m d e app now Hm) as [[m2 v] Hd]. rewrite Hd.
  apply dispatch_device_generation in Hd as [Hg2 _].
  assert (∃ g, checked_add_u64 (m_delivery_generation m2) 1 = Some g) as [g Hadd].
  { eexists. apply checked_add_u64_Some. split; [done|]. lia. }
  destruct v; simpl; rewrite ?Hadd; by eexists.
Qed.

Lemma propose_total {S} (admits : S → string → S * bool) t m s scope e app now :
  MatcherInv m → m_delivery_generation m < u64_max →
  is_Some (propose_with_source admits t m s scope e app now).
Proof.
  intros Hm Hg. unfold propose_with_source. destruct (_ || _); [by eexists|].
  destruct (_ || _); [by eexists|].
  pose proof (observe_physical_frame t m scope e) as Ho.
  set (x := if tx_modifier_tap_release t then _ else _).
  assert (same_but_taps m x.1.2) as Hx.
  { unfold x. destruct (tx_modifier_tap_release t); [|by left].
    destruct (observe_physical t m scope e) as [[t1 m1] b]. apply Ho. }
  destruct x as [[t1 m1] fresh]. simpl in Hx. destruct (negb fresh); [by eexists|].
  destruct (event_code e) as [k|]; [|by eexists].
  destruct (dispatch_delivery_total m1 (Wire.generation scope) (normalized k e) app now)
    as [[m2 [v tok]] Hd].
  - by destruct (same_but_taps_facts _ _ Hx) as (_ & _ & _ & ?); auto.
  - by destruct Hx as [->| ->].
  - rewrite Hd. cbn [mbind option_bind]. destruct (verdict_decision admits s e v). by eexists.
Qed.

(** The transaction layer and its matcher agree on what is outstanding, and
    proposing never panics. After any sequence of proposals, delivery reports,
    settlements, recovery steps, retirements, lock controls and reloads, the
    matcher has a live token exactly when a proposal is held, and it is that
    proposal's token (the device is the proposal's generation, the key its evdev
    code); a nonce is armed only while matching is disabled; and every operation
    returns as long as fewer than [u64::MAX] tokens were issued. *)
Theorem transactions_agree tap rules tr t m :
  tx_run (tx_start tap rules) tr (t, m) →
  m_pending_deliveries m = outstanding t ∧
  (∀ p, tx_pending t = Some p → pending_wf p) ∧
  (∀ n, tx_recovery_nonce t = Some n → tx_replacement_disabled t = true) ∧
  (m_delivery_generation m < u64_max → ∀ op, is_Some (tx_step (t, m) op)).
Proof.
  intros Hi%tx_run_inv; [|auto with sledge]. split_and!.
  - apply (TxInv_tokens _ _ Hi).
  - apply (txi_pending _ Hi).
  - intros n Hn. by apply (txi_nonce _ Hi) in Hn as [? _].
  - intros Hg op. destruct op; simpl;
      try (match goal with |- is_Some (let '(_, _) := ?f in _) => destruct f end); try by eexists.
    destruct (propose_total (λ s id, (s, admits id)) t m tt scope event focused_app now
      (txi_matcher _ Hi) Hg) as [[[[t' m'] u] d] ->]. by eexists.
Qed.

(** ** The recovery gate *)

(** The abstract contract: matching is closed, perhaps with a nonce armed, or
    open, perhaps on the proof of a nonce. *)
Inductive Gate : Type :=
  | Closed (armed : option Z)
  | Open (proved : option Z).

#[export] Instance Gate_eq_dec : EqDecision Gate.
Proof. solve_decision. Defined.

Definition gate (t : MatcherTransactions) : Gate :=
  if tx_replacement_disabled t then Closed (tx_recovery_nonce t)
  else Open (tx_previous_recovery_nonce t).

Definition close (g : Gate) : Gate :=
  match g with Closed a => Closed a | Open _ => Closed None end.

Definition gate_state (g : Gate) : RecoveryState :=
  match g with
  | Closed (Some _) => AwaitingNativeProof
  | Closed None => FreshAdmissionRequired
  | Open (Some _) => Ready
  | Open None => Unbound
  end.

(** What each operation may do to the gate. *)
Definition gate_effect (op : TxOp) (obs : TxObs) (g g' : Gate) : Prop :=
  match op, obs with
  | TxPropose _ _ _ _ _, ObsDecision r =>
      g' = g ∧ match r, g with Ok _, Closed _ => False | _, _ => True end
  | TxAwait n, ObsBool true => n ≠ 0 ∧ g' = Closed (Some n)
  | TxAwaitLifecycle scope body, ObsBool true =>
      (body = Wire.Reset 2 ∨ body = Wire.Reset 3) ∧ Wire.generation scope = 0 ∧
      g = Open (Some (Wire.nonce scope)) ∧ g' = Closed (Some (Wire.nonce scope))
  | TxReconciled scope body, ObsBool true =>
      body = Wire.Reset 8 ∧ Wire.generation scope = 0 ∧
      g = Closed (Some (Wire.nonce scope)) ∧ g' = Open (Some (Wire.nonce scope))
  | TxAwait _, ObsBool false | TxAwaitLifecycle _ _, ObsBool false
  | TxReconciled _ _, ObsBool false => g' = g
  | TxUnlockedEpoch n, _ =>
      g' = Closed None ∨ (g' = g ∧ (g = Open (Some n) ∨ g = Closed (Some n)))
  | TxLockBoundary n, _ => g' = Closed None ∨ (g' = g ∧ g = Closed (Some n))
  | TxDisconnected, _ => g' = Closed None
  | _, _ => g' = g ∨ g' = close g
  end.

Inductive gate_run : Gate → list (TxOp * TxObs) → Gate → Prop :=
  | gate_run_nil g : gate_run g [] g
  | gate_run_cons g op obs g1 tr g2 :
      gate_effect op obs g g1 → gate_run g1 tr g2 → gate_run g ((op, obs) :: tr) g2.

Lemma gate_recovery_state t : recovery_state t = gate_state (gate t).
Proof. unfold recovery_state, gate. by destruct t as [? ? ? ? [] [] []]. Qed.

(** Setting the flag, with or without dropping the proposal, closes the gate. *)
Lemma gate_disable t t' :
  TxInv t → tx_recovery_nonce t' = tx_recovery_nonce t.1 →
  tx_replacement_disabled t' = true → gate t' = close (gate t.1).
Proof.
  intros Hi Hn Hd. unfold gate. rewrite Hd, Hn.
  destruct (tx_replacement_disabled t.1) eqn:E; [done|]. simpl.
  destruct (tx_recovery_nonce t.1) as [n|] eqn:E2; [|done].
  apply (txi_nonce _ Hi) in E2 as [? _]. congruence.
Qed.

Lemma gate_invalidate t m :
  TxInv (t, m) →
  gate (invalidate_speculation t m).1 = gate t ∨
  gate (invalidate_speculation t m).1 = close (gate t).
Proof.
  intros Hi. unfold invalidate_speculation. cbn [fst]. case_bool_decide; [right|by left].
  by apply (gate_disable (t, m)).
Qed.

Lemma gate_disconnected t m : gate (disconnected t m).1 = Closed None.
Proof. done. Qed.

Lemma gate_lock_boundary t m n :
  gate (observe_lock_boundary t m n).1 = Closed None ∨
  (gate (observe_lock_boundary t m n).1 = gate t ∧ gate t = Closed (Some n)).
Proof.
  unfold observe_lock_boundary. destruct (_ && _ && _) eqn:Hg; [right|by left]. bools.
  split; [done|]. unfold gate.
  by repeat match goal with H : _ = _ |- _ => rewrite H end.
Qed.

Lemma gate_unlocked_epoch t m n :
  gate (observe_unlocked_epoch t m n).1 = Closed None ∨
  (gate (observe_unlocked_epoch t m n).1 = gate t ∧
   (gate t = Open (Some n) ∨ gate t = Closed (Some n))).
Proof.
  unfold observe_unlocked_epoch, is_reconciled. destruct (_ && bool_decide (_ = None)) eqn:Hg.
  - bools. right. split; [done|]. left. unfold gate.
    by repeat match goal with H : _ = _ |- _ => rewrite H end.
  - destruct (gate_lock_boundary t m n) as [|[]]; auto.
Qed.

Lemma gate_propose t m scope e app now admits t' m' u r :
  propose_with_source (λ s id, (s, admits id)) t m u scope e app now = Some (t', m', (), r) →
  gate t' = gate t ∧ match r, gate t with Ok _, Closed _ => False | _, _ => True end.
Proof.
  intros Hp%propose_cases.
  destruct Hp as [Hb|t' m' Hn Hd (ds & o & ->) Hpd Hrl Ho Hm|
    t1 m1 m2 m' code v token s' d Hn Hd Hst (ds & o & ->) Hm1 Hm2 Hc Hdi Hv]; [done| |];
    (split; [by try destruct token|]); unfold gate; by rewrite Hd.
Qed.

Lemma gate_on_delivery t m scope report :
  TxInv (t, m) →
  let t' := (on_delivery t m scope report).1.1 in gate t' = gate t ∨ gate t' = close (gate t).
Proof.
  intros Hi. unfold on_delivery. destruct (tx_pending t) as [p|]; [|by left].
  destruct (negb _); [by left|].
  destruct (match report with Acknowledged _ => _ | _ => _ end).
  - right. by apply (gate_disable (t, m)).
  - destruct (report_delivery _ _ _). cbn [fst].
    case_bool_decide; [right; by apply (gate_disable (t, m))|by left].
Qed.

Lemma gate_settle t m scope e report :
  TxInv (t, m) →
  let t' := (settle_device_event t m scope e report).1.1 in
  gate t' = gate t ∨ gate t' = close (gate t).
Proof.
  intros Hi. unfold settle_device_event.
  assert (gate (tx_set_disabled true t) = close (gate t)) by (by apply (gate_disable (t, m))).
  destruct (_ || _ || _); [by left|]. destruct report as [o|]; [|by right].
  destruct (_ || _ || _ || _); [by right|]. destruct (event_code e); [|by left].
  left. cbn [fst]. by destruct (_ && _).
Qed.

Lemma gate_retire t m g :
  TxInv (t, m) →
  gate (retire_device t m g).1 = gate t ∨ gate (retire_device t m g).1 = close (gate t).
Proof.
  intros Hi. unfold retire_device. destruct (bool_decide (g = 0)); [by left|]. cbn [fst].
  destruct (match tx_pending t with Some _ => _ | _ => _ end); [right|by left].
  by apply (gate_disable (t, m)).
Qed.

Lemma tx_step_gate s op s' obs :
  TxInv s → tx_step s op = Some (s', obs) → gate_effect op obs (gate s.1) (gate s'.1).
Proof.
  destruct s as [t m]. intros Hi. destruct op; simpl tx_step; intros Hs.
  - apply bind_Some in Hs as ([[[t' m'] []] d] & Hd & [= <- <-]).
    by apply gate_propose in Hd.
  - pose proof (gate_on_delivery t m scope report Hi). destruct (on_delivery _ _ _ _). by simplify_eq.
  - pose proof (gate_settle t m scope event report Hi).
    destruct (settle_device_event _ _ _ _ _). by simplify_eq.
  - unfold await_reconciliation in Hs. destruct (_ || _) eqn:Hg; simplify_eq; [done|]. bools.
    destruct (invalidate_speculation t m). by simplify_eq.
  - unfold await_lifecycle_reconciliation in Hs.
    destruct (_ || _) eqn:Hg; simplify_eq; [done|]. bools.
    destruct (invalidate_speculation t m). simplify_eq. unfold gate_effect. split_and!; try done.
    + destruct body as [| | | | | |[|[[]|[]|]|]| |]; auto; done.
    + unfold gate. cbn [fst].
      repeat match goal with H : _ t = _ |- _ => rewrite H end. done.
  - unfold reconciled in Hs. destruct (_ || _) eqn:Hg; simplify_eq; [done|]. bools.
    match goal with H : tx_recovery_nonce t = _ |- _ => rename H into Hn end.
    unfold gate_effect. split_and!; try done.
    + by destruct body as [| | | | | |[|[|[|[|[]|]|]|]|]| |].
    + pose proof (proj1 (txi_nonce _ Hi _ Hn)) as Hd. unfold gate. simpl in *. by rewrite Hd, Hn.
    + unfold gate. simpl. by rewrite Hn.
  - simplify_eq. by apply gate_retire.
  - simplify_eq. by apply gate_unlocked_epoch.
  - simplify_eq. by apply gate_lock_boundary.
  - simplify_eq. by apply gate_invalidate.
  - by simplify_eq.
  - pose proof (gate_invalidate t m Hi). by simplify_eq.
Qed.

Lemma tx_run_gate s tr s' :
  TxInv s → tx_run s tr s' → gate_run (gate s.1) tr (gate s'.1).
Proof.
  intros Hi Hr. induction Hr as [s|s op s1 o tr s2 Hs Hr IH]; [constructor|].
  econstructor; [by eapply tx_step_gate|]. eauto using tx_step_inv.
Qed.

(** C9. Matching is guarded by the recovery gate. Any execution of the
    transaction layer is an execution of the abstract gate: a proposal is
    answered only while the gate is open; uncertainty and disconnection close it;
    arming a nonce keeps it closed; and the one operation that opens it is the
    compositor's global reset with reason 8 for the very nonce that is armed.
    [recovery_state] reports the gate's state. *)
Theorem recovery_gate_refined tap rules tr t m :
  tx_run (tx_start tap rules) tr (t, m) →
  gate_run (Open None) tr (gate t) ∧ recovery_state t = gate_state (gate t).
Proof.
  intros Hr. split; [|apply gate_recovery_state].
  apply tx_run_gate in Hr; [done|auto with sledge].
Qed.

(** *** Reopening needs a proof *)

(** The steps that arm the nonce [n], and the step that proves it. *)
Definition arms (n : Z) (st : TxOp * TxObs) : Prop :=
  st = (TxAwait n, ObsBool true) ∨
  ∃ scope body, st = (TxAwaitLifecycle scope body, ObsBool true) ∧ Wire.nonce scope = n.

Definition proves (n : Z) (st : TxOp * TxObs) : Prop :=
  ∃ scope, st = (TxReconciled scope (Wire.Reset 8), ObsBool true) ∧
    Wire.generation scope = 0 ∧ Wire.nonce scope = n.

Lemma gate_effect_arms op obs g n :
  gate_effect op obs g (Closed (Some n)) → g = Closed (Some n) ∨ arms n (op, obs).
Proof.
  unfold arms. destruct op, obs as [|[]|]; simpl; intros He;
    repeat match goal with
    | H : _ ∧ _ |- _ => destruct H
    | H : _ ∨ _ |- _ => destruct H
    end; simplify_eq; eauto 8; by destruct g; simplify_eq/=; auto.
Qed.

Lemma gate_effect_opens op obs a b :
  gate_effect op obs (Closed a) (Open b) → ∃ n, a = Some n ∧ proves n (op, obs).
Proof.
  unfold proves. destruct op, obs as [|[]|]; simpl; intros He;
    repeat match goal with
    | H : _ ∧ _ |- _ => destruct H
    | H : _ ∨ _ |- _ => destruct H
    end; simplify_eq/=; eauto 8.
Qed.

(** An armed gate was armed in the run, unless it started so. *)
Lemma gate_run_armed tr g n :
  gate_run g tr (Closed (Some n)) → g ≠ Closed (Some n) → ∃ st, st ∈ tr ∧ arms n st.
Proof.
  remember (Closed (Some n)) as g' eqn:E. intros Hr.
  induction Hr as [g|g op obs g1 tr g2 He Hr IH]; [done|]. intros Hg. specialize (IH E).
  subst g2. destruct (decide (g1 = Closed (Some n))) as [->|Hne].
  - apply gate_effect_arms in He as [?|Ha]; [done|]. exists (op, obs). split; [left|done].
  - destruct (IH Hne) as (st & Hst & Ha). exists st. split; [by right|done].
Qed.

(** A gate that opens was armed for the nonce whose proof opens it. *)
Lemma gate_run_opened tr a b :
  gate_run (Closed a) tr (Open b) →
  ∃ pre st post n, tr = pre ++ st :: post ∧ gate_run (Closed a) pre (Closed (Some n)) ∧
    proves n st.
Proof.
  remember (Closed a) as g eqn:Eg. remember (Open b) as g' eqn:Eg'. intros Hr. revert a Eg.
  induction Hr as [g|g op obs g1 tr g2 He Hr IH]; intros a ->; [done|].
  destruct g1 as [a1|b1].
  - destruct (IH Eg' a1 eq_refl) as (pre & st & post & n & -> & Hpre & Hp).
    exists ((op, obs) :: pre), st, post, n. split_and!; [done|by econstructor|done].
  - apply gate_effect_opens in He as (n & -> & Hp).
    exists [], (op, obs), tr, n. split_and!; [done|constructor|done].
Qed.

Lemma gate_run_app g tr1 g1 tr2 g2 :
  gate_run g tr1 g1 → gate_run g1 tr2 g2 → gate_run g (tr1 ++ tr2) g2.
Proof. induction 1; simpl; [done|]. intros. econstructor; eauto. Qed.

(** Matching never resumes by itself. If the transaction layer is disabled at
    some point of an execution (an uncertain delivery, a lost connection, a lock)
    and a proposal is answered later, then in between the compositor sent a
    global [Reset(8)] for a nonce that had been armed, by a fresh admission or a
    lifecycle reset, before it. *)
Theorem reopening_needs_proof tap rules tr1 t1 m1 tr2 t2 m2 s3 scope e app now admits d :
  tx_run (tx_start tap rules) tr1 (t1, m1) → tx_replacement_disabled t1 = true →
  tx_run (t1, m1) tr2 (t2, m2) →
  tx_step (t2, m2) (TxPropose scope e app now admits) = Some (s3, ObsDecision (Ok d)) →
  ∃ n pre st post, tr2 = pre ++ st :: post ∧ proves n st ∧
    ∃ st', st' ∈ tr1 ++ pre ∧ arms n st'.
Proof.
  intros H1 Hd H2 H3.
  assert (TxInv (t1, m1)) as Hi1 by (eapply tx_run_inv; [|done]; auto with sledge).
  assert (TxInv (t2, m2)) as Hi2 by (by eapply tx_run_inv).
  apply tx_run_gate in H1; [|auto with sledge]. apply tx_run_gate in H2; [|done].
  apply tx_step_gate in H3; [|done]. destruct H3 as [_ H3]. simpl in *.
  destruct (gate t2) as [a|b] eqn:E2; [done|].
  assert (gate t1 = Closed (tx_recovery_nonce t1)) as E1 by (unfold gate; by rewrite Hd).
  rewrite E1 in H1, H2.
  apply gate_run_opened in H2 as (pre & st & post & n & -> & Hpre & Hp).
  exists n, pre, st, post. split_and!; [done..|].
  eapply gate_run_armed; [by eapply gate_run_app|done].
Qed.

(** ** Settlement *)

(** What a report says of a proposal. *)
Inductive Settlement : Type :=
  | Committed   (* the proposed decision was carried out *)
  | Original    (* the original key was admitted to the stock route *)
  | Unknown.

#[export] Instance Settlement_eq_dec : EqDecision Settlement.
Proof. solve_decision. Defined.

(** The table of outcomes: an acknowledgement counts only for the key, state and
    focus epoch of the proposal, and a committed outcome only for the decision
    that asked for it. *)
Definition settlement (p : Pending) (report : DeliveryReport) : Settlement :=
  match report with
  | Report_Uncertain => Unknown
  | Acknowledged o =>
      if bool_decide ((Wire.out_key o, Wire.out_state o, Wire.out_focus_epoch o) =
                      (p_key p, p_state p, p_focus_epoch p))
      then
        match p_decision p, Wire.out_result o with
        | Wire.Replace _ _, Wire.Replaced => Committed
        | Wire.Swallow, Wire.SwallowCommitted => Committed
        | Wire.Pass, Wire.OriginalAdmitted => Original
        | _, Wire.RejectedOriginalAdmitted | _, Wire.TimeoutOriginalAdmitted => Original
        | _, _ => Unknown
        end
      else Unknown
  end.

(** The press a proposal is about. *)
Definition press_of (p : Pending) : Z * KeyCode :=
  (Wire.generation (p_scope p), tok_key (p_token p)).

(** The matcher's view of the press after a settlement. *)
Definition settled_owner (st : Settlement) (o : Ownership) : Ownership :=
  if bool_decide (st = Original) && bool_decide (o = Consumed) then Forwarded else o.

Definition settlement_delivery (st : Settlement) : ReplacementDelivery :=
  match st with
  | Committed => Delivered
  | Original => RejectedOriginalForwarded
  | Unknown => Uncertain
  end.

(** [on_delivery] computes the table. *)
Lemma on_delivery_table t m p report :
  tx_pending t = Some p →
  let st := settlement p report in
  let '((t', m'), b) := on_delivery t m (p_scope p) report in
  m' = (report_delivery m (p_token p) (settlement_delivery st)).1 ∧
  t' = (if bool_decide (st = Unknown) then tx_set_disabled true (tx_set_pending None t)
        else tx_set_pending None t) ∧
  (st ≠ Unknown → b = (report_delivery m (p_token p) (settlement_delivery st)).2).
Proof.
  intros Hp. unfold on_delivery. rewrite Hp, bool_decide_true by done. cbn [negb].
  destruct report as [o|]; simpl.
  2: { unfold delivery_result. rewrite !andb_false_r. simpl.
       by destruct (report_delivery _ _ _). }
  unfold mismatched, delivery_result, settlement.
  destruct (decide (Wire.out_key o = p_key p)) as [->|?];
    [|rewrite (bool_decide_false (Wire.out_key o = _)), (bool_decide_false (_ = _ :> Z * Z * Z))
       by congruence; done].
  destruct (decide (Wire.out_state o = p_state p)) as [->|?];
    [|rewrite (bool_decide_false (Wire.out_state o = _)), (bool_decide_false (_ = _ :> Z * Z * Z)),
       orb_true_r by congruence; done].
  destruct (decide (Wire.out_focus_epoch o = p_focus_epoch p)) as [->|?];
    [|rewrite (bool_decide_false (Wire.out_focus_epoch o = _)),
       (bool_decide_false (_ = _ :> Z * Z * Z)), !orb_true_r by congruence; done].
  rewrite !(bool_decide_true (_ = _ :> Z)), (bool_decide_true (_ = _ :> Z * Z * Z)) by done.
  simpl. destruct (p_decision p) as [| |k ms], (Wire.out_result o); simpl;
    try done; by destruct (report_delivery _ _ _).
Qed.

(** C17. Settlement follows the compositor's route. In every reachable state with
    a held proposal, a report for its scope settles it exactly once: the proposal
    and the matcher's token are gone; the press becomes forwarded precisely when
    the report says that the original key was admitted (and the matcher had
    consumed it), and keeps its owner otherwise; no other press changes owner; and
    matching is disabled exactly when the report leaves the output unknown: it is
    missing, names another key, state or focus epoch, confirms a decision that was
    not proposed, or reports a partial output. A report for another scope changes
    nothing. *)
Theorem settlement_follows_native tap rules tr t m p report :
  tx_run (tx_start tap rules) tr (t, m) → tx_pending t = Some p →
  (let '((t', m'), b) := on_delivery t m (p_scope p) report in
   let st := settlement p report in
   tx_pending t' = None ∧ m_pending_deliveries m' = ∅ ∧
   owner m' (press_of p) = settled_owner st (owner m (press_of p)) ∧
   (∀ q, q ≠ press_of p → owner m' q = owner m q) ∧
   tx_replacement_disabled t' = bool_decide (st = Unknown) || tx_replacement_disabled t ∧
   (st ≠ Unknown → b = true)) ∧
  (∀ scope, scope ≠ p_scope p → on_delivery t m scope report = ((t, m), false)).
Proof.
  intros Hi%tx_run_inv Hp; [|auto with sledge]. split.
  2: { intros scope Hs. unfold on_delivery. rewrite Hp. by rewrite bool_decide_false. }
  pose proof (on_delivery_table t m p report Hp) as Ht.
  destruct (on_delivery t m (p_scope p) report) as [[t' m'] b]. destruct Ht as (-> & -> & Hb).
  set (st := settlement p report) in *. set (del := settlement_delivery st) in *.
  destruct (txi_pending _ Hi p Hp) as [Hdev _].
  assert (m_pending_deliveries m =
    {[(tok_device (p_token p), tok_key (p_token p)) := tok_generation (p_token p)]}) as Htok.
  { rewrite (TxInv_tokens _ _ Hi). unfold outstanding. by rewrite Hp. }
  destruct (report_pending_token m (p_token p) del Htok) as [He Hset].
  pose proof (λ q, report_owner m (p_token p) del q (txi_matcher _ Hi)) as Ho.
  destruct (report_delivery m (p_token p) del) as [m' b'] eqn:Er. simpl in *. subst b'.
  unfold press_of. rewrite <- Hdev. split_and!.
  - by case_match.
  - done.
  - specialize (Ho (tok_device (p_token p), tok_key (p_token p))).
    rewrite (bool_decide_true (_ = _ :> Z * KeyCode)) in Ho by done.
    unfold settled_owner, del in *. destruct st; simpl in *; done.
  - intros q Hq. specialize (Ho q). rewrite (bool_decide_false (q = _)) in Ho by done.
    by rewrite andb_false_r in Ho.
  - by destruct (bool_decide (st = Unknown)).
  - done.
Qed.

(** ** Proposals come from rules *)

(** The rule [r] asks for its action on this native event. *)
Definition asks (m : Matcher) (r : Rule) (code : KeyCode) (e : Wire.Event)
    (app : option string) : Prop :=
  r ∈ RuleSet_iter (m_rules m) ∧ in_scope r app ∧
  if is_modifier code then ∃ n, tap_hits r code n app else hotkey_hits r (normalized code e) app.

Lemma dispatch_delivery_replace m d e app now m' a tok :
  MatcherInv m →
  dispatch_device_with_delivery m d e app now = Some (m', (Verdict_Replace a, tok)) →
  is_Some tok ∧
  ∃ r, r ∈ RuleSet_iter (m_rules m) ∧ rule_action r = a ∧ in_scope r app ∧
    if is_modifier (code e) then ∃ n, tap_hits r (code e) n app else hotkey_hits r e app.
Proof.
  intros Hi. unfold dispatch_device_with_delivery. intros ([m1 v] & Hd & Hr)%bind_Some.
  destruct v; simplify_eq. apply bind_Some in Hr as (g & _ & [= <- -> <-]).
  split; [done|]. by eapply dispatch_device_replace.
Qed.

(** C36. A decision the compositor is told to carry out was asked for. In every
    reachable state: if a proposal is answered with a replacement key, a rule of
    the live rule set that is in scope for the focused application and matches the
    native event (the key its evdev code maps to, the physical modifiers the
    compositor reports) sends exactly that key with exactly those modifiers, and
    the decision is held for settlement; if it is answered with a swallow, the
    press is one the matcher consumed already, or a rule that asks for an input
    source which was admitted to the queue. Everything else passes. *)
Theorem proposal_is_asked_for tap rules tr t m scope e app now admits t' m' d :
  tx_run (tx_start tap rules) tr (t, m) →
  tx_step (t, m) (TxPropose scope e app now admits) = Some ((t', m'), ObsDecision (Ok d)) →
  match d with
  | Wire.Pass => True
  | Wire.Swallow =>
      ∃ code, Linux.from_evdev (Wire.ev_key e) = Some code ∧
        (owner m (Wire.generation scope, code) = Consumed ∨
         ∃ r id, asks m r code e app ∧ rule_action r = SetInputSource id ∧ admits id = true)
  | Wire.Replace k b =>
      ∃ code r key mods, Linux.from_evdev (Wire.ev_key e) = Some code ∧
        asks m r code e app ∧ rule_action r = SendKey key mods ∧
        Linux.to_evdev key = Some k ∧ requested_modifiers mods = Some b ∧
        ∃ p, tx_pending t' = Some p ∧ p_scope p = scope ∧ p_decision p = d
  end.
Proof.
  intros Hi%tx_run_inv; [|auto with sledge]. simpl.
  intros ([[[t1 m1] []] r] & Hp%propose_cases & [= -> -> ->])%bind_Some.
  inversion Hp as [| |t2 m2 m3 m4 code v token s' d' Hn Hd Hst Ht2 Hm2 Hm3 Hc Hdi Hv]; subst;
    [done|].
  destruct (same_but_taps_facts _ _ Hm2) as (_ & Hrl & Ho & I2).
  assert (MatcherInv m2) as Hi2 by apply I2, Hi.
  destruct v as [| |[key mods|id]]; simpl in Hv.
  - by injection Hv as <-.
  - injection Hv as <-. case_bool_decide; [done|]. exists code. split; [done|]. left.
    apply dispatch_with_delivery_owner in Hdi as [Hown _]; [|done]. rewrite Ho in Hown.
    by inversion Hown.
  - apply dispatch_delivery_replace in Hdi as [[tok ->] (r & Hr)]; [|done].
    rewrite Hrl in Hr. destruct Hr as (Hr1 & Hr2 & Hr3 & Hr4). injection Hv as <-.
    destruct (Linux.to_evdev key) as [k|] eqn:Ek; [|done].
    destruct (requested_modifiers mods) as [b|] eqn:Eb; [|done].
    exists code, r, key, mods. split_and!; try done. by eexists.
  - apply dispatch_delivery_replace in Hdi as [[tok ->] (r & Hr)]; [|done].
    rewrite Hrl in Hr. destruct Hr as (Hr1 & Hr2 & Hr3 & Hr4). injection Hv as <-.
    destruct (admits id) eqn:Ea; [|done]. exists code. split; [done|]. right. exists r, id.
    by repeat split.
Qed.

(** ** Modifier masks *)

(** One iteration of either loop adds a bit or a mask. *)
Lemma testbit_add (c : bool) x y n :
  Z.testbit (if c then Z.lor x y else x) n = Z.testbit x n || (c && Z.testbit y n).
Proof. destruct c; simpl; [apply Z.lor_spec|by rewrite orb_false_r]. Qed.

Lemma land_bit x i :
  0 ≤ i → negb (bool_decide (Z.land x (Z.shiftl 1 i) = 0)) = Z.testbit x i.
Proof.
  intros Hi. rewrite Z.shiftl_1_l. destruct (Z.testbit x i) eqn:E.
  - rewrite bool_decide_false; [done|]. intros H.
    apply (f_equal (λ z, Z.testbit z i)) in H.
    by rewrite Z.land_spec, E, Z.pow2_bits_true, Z.bits_0 in H.
  - rewrite bool_decide_true; [done|]. apply Z.bits_inj'. intros n Hn.
    rewrite Z.land_spec, Z.bits_0, Z.pow2_bits_eqb by done.
    destruct (Z.eqb_spec i n) as [<-|]; [by rewrite E|by rewrite andb_false_r].
Qed.

Lemma physical_bit b n :
  Z.testbit (bits (physical_modifiers b)) n =
  existsb (λ '(i, key), Z.testbit b i && Z.testbit (bits (Linux.modifier key)) n)
    [(0, 42); (1, 54); (2, 29); (3, 97); (4, 56); (5, 100); (6, 125); (7, 126)].
Proof.
  unfold physical_modifiers. cbn [fold_left].
  rewrite !land_bit by lia.
  assert (∀ (c : bool) x y, bits (if c then (x ∪ y)%mods else x) =
    if c then Z.lor (bits x) (bits y) else bits x) as Hif by (by intros []).
  rewrite !Hif, !testbit_add. cbn [bits mods_empty]. rewrite Z.bits_0. cbn [existsb].
  rewrite orb_false_r, orb_false_l. by rewrite <- !orb_assoc.
Qed.

(** The modifier families: left, right and generic bit. *)
Definition families : list (Modifiers * Modifiers * Modifiers) :=
  [(LEFT_SHIFT, RIGHT_SHIFT, SHIFT); (LEFT_CTRL, RIGHT_CTRL, CTRL);
   (LEFT_ALT, RIGHT_ALT, ALT); (LEFT_CMD, RIGHT_CMD, CMD)].

(** The left key stands for a generic modifier unless the right one is asked. *)
Definition wants_left (m l r g : Modifiers) : bool :=
  mods_contains m l || (mods_contains m g && negb (mods_contains m r)).

Lemma requested_bit m b n :
  requested_modifiers m = Some b →
  Z.testbit b n =
  existsb (λ '((l, r, g), o),
    (wants_left m l r g && Z.testbit (Z.shiftl 1 o) n) ||
    (mods_contains m r && Z.testbit (Z.shiftl 1 (o + 1)) n))
    (zip families [0; 2; 4; 6]).
Proof.
  unfold requested_modifiers. destruct (mods_contains m FN); [done|]. intros [= <-].
  cbn [fold_left]. rewrite !testbit_add, Z.bits_0, orb_false_l.
  cbn [existsb zip zip_with families]. rewrite orb_false_r. unfold wants_left.
  by rewrite <- !orb_assoc.
Qed.

Lemma requested_range m b : requested_modifiers m = Some b → 0 ≤ b < 256.
Proof.
  intros Hb. assert (b = b mod 2 ^ 8) as ->; [|by apply Z.mod_pos_bound].
  apply Z.bits_inj'. intros n Hn. destruct (decide (n < 8)) as [|Hn8].
  - by rewrite Z.mod_pow2_bits_low.
  - rewrite Z.mod_pow2_bits_high by lia. rewrite (requested_bit _ _ _ Hb).
    cbn [existsb zip zip_with families].
    rewrite !Z.shiftl_1_l, !Z.pow2_bits_eqb by lia.
    rewrite !(proj2 (Z.eqb_neq _ n)) by lia. by rewrite !andb_false_r.
Qed.

(** Evaluates the closed bit tests of a goal. *)
Ltac eval_bits :=
  repeat match goal with
  | |- context [Z.testbit (Z.shiftl 1 ?o) ?n] =>
      let v := eval vm_compute in (Z.testbit (Z.shiftl 1 o) n) in
      change (Z.testbit (Z.shiftl 1 o) n) with v
  | |- context [Z.testbit (bits (Linux.modifier ?k)) ?n] =>
      let v := eval vm_compute in (Z.testbit (bits (Linux.modifier k)) n) in
      change (Z.testbit (bits (Linux.modifier k)) n) with v
  end;
  rewrite ?andb_true_r, ?andb_false_r, ?orb_false_r, ?orb_false_l.

(** The eight bits of a requested mask, and the masks' bits a decoder sees. *)
Lemma requested_bits m b :
  requested_modifiers m = Some b →
  Z.testbit b 0 = wants_left m LEFT_SHIFT RIGHT_SHIFT SHIFT ∧
  Z.testbit b 1 = mods_contains m RIGHT_SHIFT ∧
  Z.testbit b 2 = wants_left m LEFT_CTRL RIGHT_CTRL CTRL ∧
  Z.testbit b 3 = mods_contains m RIGHT_CTRL ∧
  Z.testbit b 4 = wants_left m LEFT_ALT RIGHT_ALT ALT ∧
  Z.testbit b 5 = mods_contains m RIGHT_ALT ∧
  Z.testbit b 6 = wants_left m LEFT_CMD RIGHT_CMD CMD ∧
  Z.testbit b 7 = mods_contains m RIGHT_CMD.
Proof.
  intros Hb. rewrite !(requested_bit m b _ Hb). cbn [existsb zip zip_with families].
  eval_bits. done.
Qed.

Lemma physical_contains b x n :
  x = mkModifiers (Z.shiftl 1 n) → 0 ≤ n →
  mods_contains (physical_modifiers b) x =
  existsb (λ '(i, key), Z.testbit b i && Z.testbit (bits (Linux.modifier key)) n)
    [(0, 42); (1, 54); (2, 29); (3, 97); (4, 56); (5, 100); (6, 125); (7, 126)].
Proof. intros -> Hn. rewrite mods_contains_bit by done. apply physical_bit. Qed.

(** The wire's modifier mask means what the rules mean. Decoding an eight-bit
    mask of physical keys and encoding it again is the identity, and the decoded
    mask keeps every side bit in lockstep with its generic bit. A requested mask
    can be encoded unless it asks for Fn; then, per family, the right key is held
    iff the right bit is asked, the left key iff the left bit is asked or the
    generic bit without the right one, and the generic bit comes out set iff any of
    the three was asked: the keys pressed are those the rule names, and no other. *)
Theorem modifier_masks_exact :
  (∀ b, 0 ≤ b < 256 →
     requested_modifiers (physical_modifiers b) = Some b ∧
     lockstep (physical_modifiers b) = true) ∧
  (∀ m, requested_modifiers m = None ↔ mods_contains m FN = true) ∧
  (∀ m b, requested_modifiers m = Some b →
     0 ≤ b < 256 ∧ mods_contains (physical_modifiers b) FN = false ∧
     Forall (λ '(l, r, g),
       mods_contains (physical_modifiers b) r = mods_contains m r ∧
       mods_contains (physical_modifiers b) l = wants_left m l r g ∧
       mods_contains (physical_modifiers b) g =
         mods_contains m g || mods_contains m l || mods_contains m r) families).
Proof.
  split_and!.
  - assert (Forall (λ b, requested_modifiers (physical_modifiers b) = Some b ∧
      lockstep (physical_modifiers b) = true) (seqZ 0 256)) as H
      by (apply (bool_decide_unpack _); vm_compute; exact I).
    rewrite Forall_forall in H. intros b Hb. apply H, elem_of_seqZ. lia.
  - intros m. unfold requested_modifiers. by destruct (mods_contains m FN).
  - intros m b Hb. split; [by eapply requested_range|].
    destruct (requested_bits m b Hb) as (B0 & B1 & B2 & B3 & B4 & B5 & B6 & B7).
    unfold families. rewrite !Forall_cons, Forall_nil.
    rewrite (physical_contains b FN 4), (physical_contains b LEFT_SHIFT 10),
      (physical_contains b RIGHT_SHIFT 11), (physical_contains b SHIFT 1),
      (physical_contains b LEFT_CTRL 8), (physical_contains b RIGHT_CTRL 9),
      (physical_contains b CTRL 0), (physical_contains b LEFT_ALT 12),
      (physical_contains b RIGHT_ALT 13), (physical_contains b ALT 2),
      (physical_contains b LEFT_CMD 14), (physical_contains b RIGHT_CMD 15),
      (physical_contains b CMD 3) by done.
    cbn [existsb]. eval_bits.
    rewrite B0, B1, B2, B3, B4, B5, B6, B7. unfold wants_left.
    split_and!; try done;
      repeat match goal with |- context [mods_contains m ?x] => destruct (mods_contains m x) end;
      done.
Qed.

(** ** A session on concrete input *)

Fixpoint tx_exec (s : TxM) (ops : list TxOp) : option (TxM * list (TxOp * TxObs)) :=
  match ops with
  | [] => Some (s, [])
  | op :: ops =>
      '(s, o) ← tx_step s op;
      '(s, tr) ← tx_exec s ops;
      Some (s, (op, o) :: tr)
  end.

Lemma tx_exec_run s ops s' tr : tx_exec s ops = Some (s', tr) → tx_run s tr s'.
Proof.
  revert s tr. induction ops as [|op ops IH]; intros s tr; simpl.
  { intros [= <- <-]. constructor. }
  intros ([s1 o] & Hs & ([s2 tr'] & Hr & [= <- <-])%bind_Some)%bind_Some.
  econstructor; eauto.
Qed.

(** The final state and the trace of a run that succeeds. *)
Definition tx_final (s : TxM) (ops : list TxOp) : TxM :=
  match tx_exec s ops with Some (s', _) => s' | None => s end.
Definition tx_trace (s : TxM) (ops : list TxOp) : list (TxOp * TxObs) :=
  match tx_exec s ops with Some (_, tr) => tr | None => [] end.

Lemma tx_final_run s ops :
  bool_decide (is_Some (tx_exec s ops)) = true → tx_run s (tx_trace s ops) (tx_final s ops).
Proof.
  unfold tx_trace, tx_final. intros [[s' tr] E]%bool_decide_eq_true. rewrite E.
  by eapply tx_exec_run.
Qed.

(** KeyA sends KeyB; the fixture of the source's tests. *)
Definition a_to_b : Rule :=
  mkRule (Hotkey (mkHotkeyTrigger KeyA mods_empty)) (SendKey KeyB mods_empty) None.

Definition a_scope : Wire.Scope := Wire.mkScope 5 1 1 1000 9.
Definition a_down : Wire.Event := Wire.mkEvent 30 1 1 0 1 0 [].
Definition control_scope : Wire.Scope := Wire.mkScope 0 1 2 1000 9.
Definition a_proposal : TxOp := TxPropose a_scope a_down None 0 (λ _, false).

(** Armed and proved, a proposal is held. *)
Definition held_ops : list TxOp :=
  [TxAwait 9; TxReconciled control_scope (Wire.Reset 8); a_proposal].

Definition held_state : TxM := tx_final (tx_start false [a_to_b]) held_ops.

Lemma held_run : tx_run (tx_start false [a_to_b])
  (tx_trace (tx_start false [a_to_b]) held_ops) (held_state.1, held_state.2).
Proof.
  rewrite <- surjective_pairing. apply tx_final_run. vm_compute. reflexivity.
Defined.

Definition held_pending : Pending :=
  mkPending a_scope (mkReplacementToken 5 KeyA 1) (Wire.Replace 48 0) 30 1 1.

Lemma held_state_pending : tx_pending held_state.1 = Some held_pending.
Proof. vm_compute. reflexivity. Defined.

Lemma transactions_agree_witness :
  m_pending_deliveries held_state.2 = outstanding held_state.1 ∧ pending_wf held_pending.
Proof.
  destruct (transactions_agree _ _ _ _ _ held_run) as (E & Hp & _).
  split; [exact E|]. exact (Hp _ held_state_pending).
Defined.

Lemma recovery_gate_refined_witness :
  gate_run (Open None) (tx_trace (tx_start false [a_to_b]) held_ops) (gate held_state.1) ∧
  recovery_state held_state.1 = Ready.
Proof.
  destruct (recovery_gate_refined _ _ _ _ _ held_run) as [Hg Hr]. split; [exact Hg|].
  rewrite Hr. vm_compute. reflexivity.
Defined.

(** The compositor admits the original: the press is forwarded from then on. *)
Definition timeout_report : DeliveryReport :=
  Acknowledged (Wire.mkOutcome Wire.TimeoutOriginalAdmitted 0 30 1 1).

Lemma settlement_follows_native_witness :
  owner (on_delivery held_state.1 held_state.2 a_scope timeout_report).1.2 (5, KeyA) = Forwarded.
Proof.
  destruct (settlement_follows_native _ _ _ _ _ held_pending timeout_report held_run
    held_state_pending) as [H _].
  revert H. change (p_scope held_pending) with a_scope.
  destruct (on_delivery _ _ _ _) as [[t' m'] b]. intros (_ & _ & Ho & _).
  change (5, KeyA) with (press_of held_pending). cbn [fst snd]. rewrite Ho.
  vm_compute. reflexivity.
Defined.

Lemma proposal_is_asked_for_witness :
  ∃ r key mods, rule_action r = SendKey key mods ∧ Linux.to_evdev key = Some 48 ∧
    r ∈ RuleSet_iter (m_rules (tx_start false [a_to_b]).2).
Proof.
  assert (tx_step (tx_start false [a_to_b]) a_proposal =
    Some (tx_final (tx_start false [a_to_b]) [a_proposal],
          ObsDecision (Ok (Wire.Replace 48 0)))) as Hs by (vm_compute; reflexivity).
  rewrite (surjective_pairing (tx_final _ _)) in Hs.
  destruct (proposal_is_asked_for false [a_to_b] [] _ _ a_scope a_down None 0 (λ _, false) _ _
    (Wire.Replace 48 0) (tx_run_nil _) Hs) as (code & r & key & mods & _ & (Hin & _) & Ha & Hk & _).
  exists r, key, mods. split_and!; [exact Ha|exact Hk|exact Hin].
Defined.

(** After a lost connection, matching resumes on the proof of a fresh nonce. *)
Definition lost_ops : list TxOp := [a_proposal; TxDisconnected].
Definition resume_ops : list TxOp :=
  [TxAwait 9; TxReconciled control_scope (Wire.Reset 8)].
Definition lost_state : TxM := tx_final (tx_start false [a_to_b]) lost_ops.
Definition resumed_state : TxM := tx_final lost_state resume_ops.

Lemma reopening_needs_proof_witness :
  ∃ n pre st post, tx_trace lost_state resume_ops = pre ++ st :: post ∧ proves n st.
Proof.
  assert (tx_run (tx_start false [a_to_b]) (tx_trace (tx_start false [a_to_b]) lost_ops)
    (lost_state.1, lost_state.2)) as H1.
  { rewrite <- surjective_pairing. apply tx_final_run. vm_compute. reflexivity. }
  assert (tx_run (lost_state.1, lost_state.2) (tx_trace lost_state resume_ops)
    (resumed_state.1, resumed_state.2)) as H2.
  { rewrite <- !surjective_pairing. apply tx_final_run. vm_compute. reflexivity. }
  assert (tx_step (resumed_state.1, resumed_state.2) a_proposal =
    Some (tx_final resumed_state [a_proposal], ObsDecision (Ok (Wire.Replace 48 0)))) as H3
    by (vm_compute; reflexivity).
  destruct (reopening_needs_proof false [a_to_b] _ _ _ _ _ _ _ a_scope a_down None 0
    (λ _, false) (Wire.Replace 48 0) H1 ltac:(vm_compute; reflexivity) H2 H3)
    as (n & pre & st & post & E & Hp & _).
  exists n, pre, st, post. split; [exact E|exact Hp].
Defined.

Lemma modifier_masks_exact_witness :
  requested_modifiers (physical_modifiers 165) = Some 165.
Proof. exact (proj1 (proj1 modifier_masks_exact 165 ltac:(lia))). Defined.
