(* ===== verification/Bridge.v ===== *)
(** * The compositor bridge (packages/linux/src/hyprland/mod.rs, causal.rs)

    [Bridge] runs the SHP1 protocol over one authenticated connection: handshake
    and reconnect, validation of every packet's scope, and the event transaction
    (proposal, decision, outcome, settlement). The connection and the clock are the
    operations of the class [Link], the consumer the class [EventHandler] (the
    source's trait). The methods run in a monad over the bridge, the link and the
    handler; [None] is a panic of a handler's callback. *)

From S2P Require Import Prelude Protocol Wire Transactions.

Definition MAX_RETIRED_GENERATIONS : nat := 4096.
Definition MAX_CONNECTION_NONCES : nat := 64.

(** [enum ResearchFault]; a duration is in nanoseconds. *)
Inductive ResearchFault : Type :=
  | Fault_None
  | DelayDecision (delay : Z)
  | DropDecision
  | DisconnectBeforeDecision
  | DisconnectAfterDecision.

(** [enum CausalTerminal], [struct CausalTrace] *)
Inductive CausalTerminal : Type :=
  | Terminal_Acknowledged
  | Terminal_Uncertain
  | Terminal_Rejected.

#[export] Instance CausalTerminal_eq_dec : EqDecision CausalTerminal.
Proof. solve_decision. Defined.

Record CausalTrace : Type := mkTrace {
  tr_scope : Wire.Scope;
  tr_received_ns : option Z;
  tr_decision_send_start_ns : option Z;
  tr_decision_send_return_ns : option Z;
  tr_decision_sent_ns : option Z;
  tr_outcome_received_ns : option Z;
  tr_terminal_ns : option Z;
  tr_terminal : CausalTerminal;
}.

(** [CausalTrace::received] *)
Definition CausalTrace_received (scope : Wire.Scope) (now : option Z) : CausalTrace :=
  mkTrace scope now None None None None None Terminal_Uncertain.

Definition set_received ns (t : CausalTrace) : CausalTrace :=
  mkTrace (tr_scope t) ns (tr_decision_send_start_ns t) (tr_decision_send_return_ns t)
    (tr_decision_sent_ns t) (tr_outcome_received_ns t) (tr_terminal_ns t) (tr_terminal t).
Definition set_send_start ns (t : CausalTrace) : CausalTrace :=
  mkTrace (tr_scope t) (tr_received_ns t) ns (tr_decision_send_return_ns t)
    (tr_decision_sent_ns t) (tr_outcome_received_ns t) (tr_terminal_ns t) (tr_terminal t).
Definition set_send_return ns (t : CausalTrace) : CausalTrace :=
  mkTrace (tr_scope t) (tr_received_ns t) (tr_decision_send_start_ns t) ns
    (tr_decision_sent_ns t) (tr_outcome_received_ns t) (tr_terminal_ns t) (tr_terminal t).
Definition set_sent ns (t : CausalTrace) : CausalTrace :=
  mkTrace (tr_scope t) (tr_received_ns t) (tr_decision_send_start_ns t)
    (tr_decision_send_return_ns t) ns (tr_outcome_received_ns t) (tr_terminal_ns t)
    (tr_terminal t).
Definition set_outcome_received ns (t : CausalTrace) : CausalTrace :=
  mkTrace (tr_scope t) (tr_received_ns t) (tr_decision_send_start_ns t)
    (tr_decision_send_return_ns t) (tr_decision_sent_ns t) ns (tr_terminal_ns t)
    (tr_terminal t).
Definition set_terminal_ns ns (t : CausalTrace) : CausalTrace :=
  mkTrace (tr_scope t) (tr_received_ns t) (tr_decision_send_start_ns t)
    (tr_decision_send_return_ns t) (tr_decision_sent_ns t) (tr_outcome_received_ns t) ns
    (tr_terminal t).
Definition set_terminal x (t : CausalTrace) : CausalTrace :=
  mkTrace (tr_scope t) (tr_received_ns t) (tr_decision_send_start_ns t)
    (tr_decision_send_return_ns t) (tr_decision_sent_ns t) (tr_outcome_received_ns t)
    (tr_terminal_ns t) x.

(** ** Interfaces *)

(** The connection ([Transport], named by a descriptor) and the clock. *)
Class Link (W : Type) : Type := {
  l_monotonic_ns : W → W * Wire.IoResult Z;
  l_receive : W → Z → Z → W * Wire.IoResult Wire.Packet;
  l_receive_if_ready : W → Z → Z → W * Wire.IoResult (option Wire.Packet);
  l_send : W → Z → Wire.Packet → Z → W * Wire.IoResult unit;
  l_sleep : W → Z → W;
}.

(** [trait EventHandler]; [None] is a panic of the callback. *)
Class EventHandler (H : Type) : Type := {
  h_modifier_release_actions : H → bool;
  h_propose : H → Wire.Scope → Wire.Event → option (H * Wire.Decision);
  h_causal_trace : H → CausalTrace → H;
  h_research_fault : H → Wire.Scope → Wire.Event → H * ResearchFault;
  h_delivery : H → Wire.Scope → Wire.Event → Wire.Decision → DeliveryReport → H;
  h_reset : H → Wire.Scope → Wire.Body → H;
  h_unlocked_epoch : H → Wire.Scope → Wire.Body → H;
  h_disconnected : H → H;
}.

(** [struct Bridge]; the transport is the descriptor of the connection. *)
Record Bridge : Type := mkBridge {
  br_transport : option Z;
  br_nonce : Z;
  br_epoch : Z;
  br_sequence : Z;
  br_retired : gset Z;
  br_previous_nonces : gset Z;
  br_awaiting_reconciliation : bool;
  br_locked : bool;
}.

Definition set_transport x (b : Bridge) : Bridge :=
  mkBridge x (br_nonce b) (br_epoch b) (br_sequence b) (br_retired b) (br_previous_nonces b)
    (br_awaiting_reconciliation b) (br_locked b).
Definition set_awaiting x (b : Bridge) : Bridge :=
  mkBridge (br_transport b) (br_nonce b) (br_epoch b) (br_sequence b) (br_retired b)
    (br_previous_nonces b) x (br_locked b).
Definition set_retired x (b : Bridge) : Bridge :=
  mkBridge (br_transport b) (br_nonce b) (br_epoch b) (br_sequence b) x (br_previous_nonces b)
    (br_awaiting_reconciliation b) (br_locked b).

(** ** Operations on the link alone *)

Section link.
Context {W : Type} `{Link W}.

Definition LM (X : Type) : Type := W → W * Wire.IoResult X.
#[global] Instance LM_ret : MRet LM := λ X x w, (w, Ok x).
#[global] Instance LM_bind : MBind LM := λ X Y f m w,
  match m w with
  | (w, Ok x) => f x w
  | (w, Err e) => (w, Err e)
  end.
Definition lfail {X} (e : IoErrorKind) : LM X := λ w, (w, Err e).

(** [check_deadline] *)
Definition check_deadline (deadline_ns : Z) : LM unit :=
  l_monotonic_ns ≫= λ n,
  match checked_sub_u64 deadline_ns n with
  | Some rest =>
      if bool_decide (1 ≤ rest ≤ Wire.MAX_WAIT_NS) then mret () else lfail InvalidData
  | None => lfail TimedOut
  end.

(** [apply_before_fault] *)
Definition apply_before_fault (fault : ResearchFault) (deadline : Z) : LM unit :=
  match fault with
  | Fault_None | DisconnectAfterDecision => mret ()
  | DelayDecision delay =>
      (λ w, (l_sleep w delay, Ok ())) ≫= λ _, check_deadline deadline
  | DropDecision =>
      l_monotonic_ns ≫= λ n,
      (λ w, (l_sleep w (saturating_sub_u64 deadline n), Ok ())) ≫= λ _, lfail TimedOut
  | DisconnectBeforeDecision => lfail ConnectionAborted
  end.

(** The checks of [handshake_packet] on the identity and scope of a Hello. *)
Definition hello_rejected (expected identity : Wire.Identity) (scope : Wire.Scope) : bool :=
  negb (bool_decide (identity = expected)) ||
  bool_decide (Wire.api_hash identity = []) ||
  bool_decide (Wire.artifact identity = []) ||
  negb (bool_decide (Wire.generation scope = 0)) ||
  negb (bool_decide (Wire.sequence scope = 0)) ||
  bool_decide (Wire.nonce scope = 0).

(** [Bridge::handshake_packet] *)
Definition handshake_packet (fd : Z) (expected : Wire.Identity) (deadline_ns : Z)
    (passive : bool) (hello : Wire.Packet) : LM Bridge :=
  let scope := Wire.scope hello in
  match Wire.body hello with
  | Wire.Hello identity =>
      (if passive then
         if negb (bool_decide (Wire.lock_epoch scope = 0)) ||
            negb (bool_decide (Wire.deadline_ns scope = 0))
         then lfail InvalidData else mret ()
       else check_deadline (Wire.deadline_ns scope)) ≫= λ _,
      if hello_rejected expected identity scope then lfail InvalidData
      else
        let ack := Wire.mkPacket scope
          (Wire.HelloAck (Wire.mkIdentity 0 (Wire.api_hash identity)
                                           (Wire.artifact identity))) in
        (λ w, l_send w fd ack
          (if passive then deadline_ns
           else Z.min deadline_ns (Wire.deadline_ns scope))) ≫= λ _,
        mret (mkBridge (Some fd) (Wire.nonce scope) (Wire.lock_epoch scope) 0 ∅ ∅ true false)
  | _ => lfail InvalidData
  end.

(** [Bridge::handshake_inner], [Bridge::handshake], [Bridge::passive_handshake] *)
Definition handshake_inner (fd : Z) (expected : Wire.Identity) (deadline_ns : Z)
    (passive : bool) : LM Bridge :=
  (λ w, l_receive w fd deadline_ns) ≫= handshake_packet fd expected deadline_ns passive.
Definition handshake (fd : Z) (expected : Wire.Identity) (deadline_ns : Z) : LM Bridge :=
  handshake_inner fd expected deadline_ns false.
Definition passive_handshake (fd : Z) (expected : Wire.Identity) (deadline_ns : Z) :
    LM Bridge :=
  if negb (bool_decide (Wire.capabilities expected = 0)) then lfail InvalidData
  else handshake_inner fd expected deadline_ns true.

(** [Bridge::reconnect] on the bridge [b]; the bridge is updated only on
    success. *)
Definition reconnect (b : Bridge) (fd : Z) (expected : Wire.Identity) (deadline_ns : Z) :
    LM Bridge :=
  if negb (bool_decide (Wire.capabilities expected = 0)) ||
     bool_decide (is_Some (br_transport b)) ||
     bool_decide (MAX_CONNECTION_NONCES ≤ size (br_previous_nonces b))%nat
  then lfail InvalidData
  else
    (λ w, l_receive w fd deadline_ns) ≫= λ hello,
    if bool_decide (Wire.nonce (Wire.scope hello) = br_nonce b) ||
       bool_decide (Wire.nonce (Wire.scope hello) ∈ br_previous_nonces b)
    then lfail InvalidData
    else
      handshake_packet fd expected deadline_ns true hello ≫= λ fresh,
      mret (mkBridge (br_transport fresh) (br_nonce fresh) (br_epoch b) 0 (br_retired b)
              ({[br_nonce b]} ∪ br_previous_nonces b) true (br_locked b)).
End link.

Section bridge.
Context {W H : Type} `{Link W, EventHandler H}.

Definition BSt : Type := Bridge * W * H.
(** The monad of the bridge's methods. *)
Definition BM (X : Type) : Type := BSt → option (BSt * Wire.IoResult X).

#[global] Instance BM_ret : MRet BM := λ X x s, Some (s, Ok x).
#[global] Instance BM_bind : MBind BM := λ X Y f m s,
  match m s with
  | Some (s, Ok x) => f x s
  | Some (s, Err e) => Some (s, Err e)
  | None => None
  end.

Definition bfail {X} (e : IoErrorKind) : BM X := λ s, Some (s, Err e).
(** [Err(wire::invalid())] *)
Definition binvalid {X} : BM X := bfail InvalidData.
Definition blift {X} (r : Wire.IoResult X) : BM X := λ s, Some (s, r).
Definition bget : BM Bridge := λ s, Some (s, Ok s.1.1).
Definition bmodify (f : Bridge → Bridge) : BM unit :=
  λ '(b, w, h), Some ((f b, w, h), Ok ()).
Definition link {X} (f : LM X) : BM X :=
  λ '(b, w, h), let '(w, r) := f w in Some ((b, w, h), r).
Definition hget : BM H := λ s, Some (s, Ok s.2).
Definition handler (f : H → H) : BM unit :=
  λ '(b, w, h), Some ((b, w, f h), Ok ()).
Definition ask_handler {X} (f : H → option (H * X)) : BM X :=
  λ '(b, w, h), match f h with Some (h, x) => Some ((b, w, h), Ok x) | None => None end.
(** The result of an operation as a value. *)
Definition attempt {X} (m : BM X) : BM (Wire.IoResult X) :=
  λ s, match m s with Some (s, r) => Some (s, Ok r) | None => None end.

Definition result_ok {X} (r : Wire.IoResult X) : option X :=
  match r with Ok x => Some x | Err _ => None end.

(** [monotonic_ns()] and [monotonic_ns().ok()] *)
Definition now : BM Z := link l_monotonic_ns.
Definition now_ok : BM (option Z) := attempt now ≫= λ r, mret (result_ok r).

(** [transport.as_ref().ok_or_else(wire::invalid)?] *)
Definition transport : BM Z :=
  bget ≫= λ b, match br_transport b with Some fd => mret fd | None => binvalid end.

(** ** Validation *)

Definition is_event (body : Wire.Body) : bool :=
  match body with Wire.BodyEvent _ => true | _ => false end.
Definition is_lock (body : Wire.Body) : bool :=
  match body with Wire.Lock _ _ => true | _ => false end.

(** The scope checks of [Bridge::validate], each rejected with [scope_error]. *)
Definition scope_rejected (b : Bridge) (packet : Wire.Packet) : bool :=
  let scope := Wire.scope packet in
  let lock := is_lock (Wire.body packet) in
  negb (bool_decide (Wire.nonce scope = br_nonce b)) ||
  bool_decide (Wire.sequence scope ≤ br_sequence b) ||
  bool_decide (Wire.generation scope ∈ br_retired b) ||
  (lock && negb (bool_decide (Wire.generation scope = 0))) ||
  (lock && bool_decide (Wire.lock_epoch scope ≤ br_epoch b)) ||
  (negb lock && negb (bool_decide (Wire.lock_epoch scope = br_epoch b))) ||
  (is_event (Wire.body packet) && bool_decide (Wire.generation scope = 0)).

(** The assignments of an accepted packet. *)
Definition advance (packet : Wire.Packet) (b : Bridge) : Bridge :=
  mkBridge (br_transport b) (br_nonce b) (Wire.lock_epoch (Wire.scope packet))
    (Wire.sequence (Wire.scope packet)) (br_retired b) (br_previous_nonces b)
    (br_awaiting_reconciliation b)
    (match Wire.body packet with
     | Wire.Lock state _ => negb (bool_decide (state = 0))
     | _ => br_locked b
     end).

(** [Bridge::validate] *)
Definition validate (packet : Wire.Packet) : BM unit :=
  link (check_deadline (Wire.deadline_ns (Wire.scope packet))) ≫= λ _,
  bget ≫= λ b,
  if scope_rejected b packet then bfail InvalidData else bmodify (advance packet).

(** ** The event transaction *)

(** The checks on the acknowledgement in [event_traced]. *)
Definition outcome_of (packet : Wire.Packet) (event : Wire.Event) (decision : Wire.Decision)
    (ack : Wire.Packet) : Wire.IoResult Wire.Outcome :=
  match Wire.body ack with
  | Wire.BodyOutcome outcome =>
      if negb (bool_decide (Wire.scope ack = Wire.scope packet)) ||
         negb (bool_decide (Wire.out_key outcome = Wire.ev_key event)) ||
         negb (bool_decide (Wire.out_state outcome = Wire.ev_state event)) ||
         negb (bool_decide (Wire.out_focus_epoch outcome = Wire.ev_focus_epoch event)) ||
         (bool_decide (Wire.out_result outcome = Wire.Replaced) &&
          negb (match decision with Wire.Replace _ _ => true | _ => false end)) ||
         (bool_decide (Wire.ev_state event = 1) &&
          bool_decide (Wire.out_result outcome = Wire.SwallowCommitted) &&
          negb (bool_decide (decision = Wire.Swallow)))
      then Wire.invalid else Ok outcome
  | _ => Wire.invalid
  end.

(** Reports an uncertain delivery and fails. *)
Definition uncertain {X} (scope : Wire.Scope) (event : Wire.Event) (decision : Wire.Decision)
    (e : IoErrorKind) : BM X :=
  handler (λ h, h_delivery h scope event decision Report_Uncertain) ≫= λ _, bfail e.

(** The end of [event_traced]: the acknowledgement and its delivery. *)
Definition await_outcome (packet : Wire.Packet) (event : Wire.Event)
    (decision : Wire.Decision) (fd deadline : Z) (trace : CausalTrace) :
    BM (CausalTrace * Wire.IoResult unit) :=
  let scope := Wire.scope packet in
  attempt (link (λ w, l_receive w fd deadline)) ≫= λ received,
  match received with
  | Err e => attempt (uncertain scope event decision e) ≫= λ r, mret (trace, r)
  | Ok ack =>
      now_ok ≫= λ t2,
      let trace := set_outcome_received t2 trace in
      match outcome_of packet event decision ack with
      | Err e => attempt (uncertain scope event decision e) ≫= λ r, mret (trace, r)
      | Ok outcome =>
          let trace := set_terminal Terminal_Acknowledged trace in
          handler (λ h, h_delivery h scope event decision (Acknowledged outcome)) ≫= λ _,
          mret (trace,
            if bool_decide (Wire.out_result outcome = Wire.PartialUncertainFatal)
            then Err ConnectionAborted else Ok ())
      end
  end.

(** [Bridge::event_traced]: the trace it leaves and its result. *)
Definition event_traced (packet : Wire.Packet) (event : Wire.Event) (deadline_ns : Z)
    (research : bool) (trace : CausalTrace) : BM (CausalTrace * Wire.IoResult unit) :=
  let scope := Wire.scope packet in
  bget ≫= λ b,
  hget ≫= λ h,
  (if research && negb (br_locked b) &&
      (bool_decide (Wire.ev_state event = 1) ||
       (bool_decide (Wire.ev_state event = 0) && h_modifier_release_actions h))
   then ask_handler (λ h, h_propose h scope event)
   else mret Wire.Pass) ≫= λ decision,
  let deadline := Z.min deadline_ns (Wire.deadline_ns scope) in
  (if research && negb (br_locked b) && bool_decide (Wire.ev_state event = 1)
   then ask_handler (λ h, Some (h_research_fault h scope event))
   else mret Fault_None) ≫= λ fault,
  attempt (link (apply_before_fault fault deadline)) ≫= λ before,
  match before with
  | Err e => attempt (uncertain scope event decision e) ≫= λ r, mret (trace, r)
  | Ok _ =>
      attempt transport ≫= λ fd,
      match fd with
      | Err e => mret (trace, Err e)
      | Ok fd =>
          now_ok ≫= λ t0,
          attempt (link (λ w, l_send w fd
            (Wire.mkPacket scope (Wire.BodyDecision decision)) deadline)) ≫= λ sent,
          now_ok ≫= λ t1,
          let trace := set_send_return t1 (set_send_start t0 trace) in
          match sent with
          | Err e => attempt (uncertain scope event decision e) ≫= λ r, mret (trace, r)
          | Ok _ =>
              let trace := set_sent (tr_decision_send_return_ns trace) trace in
              match fault with
              | DisconnectAfterDecision =>
                  attempt (uncertain scope event decision ConnectionAborted) ≫= λ r,
                  mret (trace, r)
              | _ =>
                  await_outcome packet event decision fd deadline trace
              end
          end
      end
  end.

(** [Bridge::event] *)
Definition bridge_event (packet : Wire.Packet) (event : Wire.Event) (deadline_ns : Z)
    (research : bool) (received_ns : option Z) : BM unit :=
  now_ok ≫= λ n,
  let trace := set_received received_ns (CausalTrace_received (Wire.scope packet) n) in
  event_traced packet event deadline_ns research trace ≫= λ '(trace, result),
  let trace :=
    match result with Err _ => set_terminal Terminal_Uncertain trace | Ok _ => trace end in
  now_ok ≫= λ n,
  handler (λ h, h_causal_trace h (set_terminal_ns n trace)) ≫= λ _,
  blift result.

(** ** Packets *)

(** [matches!(packet.body, Body::Reset(2 | 3))] and the like. *)
Definition is_lifecycle_reset (body : Wire.Body) : bool :=
  match body with Wire.Reset 2 | Wire.Reset 3 => true | _ => false end.
Definition is_reason8 (body : Wire.Body) : bool :=
  match body with Wire.Reset 8 => true | _ => false end.
Definition is_retire (body : Wire.Body) : bool :=
  match body with Wire.Retire _ => true | _ => false end.

(** The controls of [process_packet]: resets, retirements and locks. *)
Definition control (packet : Wire.Packet) (unlocked_epoch : bool) : BM unit :=
  let scope := Wire.scope packet in
  let body := Wire.body packet in
  (if is_lifecycle_reset body && bool_decide (Wire.generation scope = 0)
   then bmodify (set_awaiting true) else mret ()) ≫= λ _,
  bget ≫= λ b,
  (if is_reason8 body then
     if negb (bool_decide (Wire.generation scope = 0)) || br_locked b ||
        negb (br_awaiting_reconciliation b)
     then bfail InvalidData else bmodify (set_awaiting false)
   else mret ()) ≫= λ _,
  bget ≫= λ b,
  (if is_retire body then
     if bool_decide (MAX_RETIRED_GENERATIONS ≤ size (br_retired b))%nat then binvalid
     else
       let '(s, fresh) := set_insert (Wire.generation scope) (br_retired b) in
       bmodify (set_retired s) ≫= λ _, if fresh then mret () else binvalid
   else mret ()) ≫= λ _,
  if unlocked_epoch then handler (λ h, h_unlocked_epoch h scope body)
  else handler (λ h, h_reset h scope body).

(** [Bridge::process_packet] *)
Definition process_packet (packet : Wire.Packet) (deadline_ns : Z) (research : bool) :
    BM unit :=
  now_ok ≫= λ received_ns,
  bget ≫= λ b,
  let unlocked_epoch :=
    negb (br_locked b) && match Wire.body packet with Wire.Lock 0 _ => true | _ => false end in
  attempt (validate packet) ≫= λ valid,
  match valid with
  | Err e =>
      (if is_event (Wire.body packet) then
         now_ok ≫= λ n,
         let trace := set_terminal Terminal_Rejected
           (set_received received_ns (CausalTrace_received (Wire.scope packet) n)) in
         now_ok ≫= λ n,
         handler (λ h, h_causal_trace h (set_terminal_ns n trace))
       else mret ()) ≫= λ _, bfail e
  | Ok _ =>
      match Wire.body packet with
      | Wire.BodyEvent event =>
          bridge_event packet event deadline_ns research received_ns
      | Wire.Reset _ | Wire.Retire _ | Wire.Lock _ _ => control packet unlocked_epoch
      | _ => binvalid
      end
  end.

(** [if result.is_err() { self.transport.take(); handler.disconnected(); }] *)
Definition closing {X} (m : BM X) : BM X :=
  attempt m ≫= λ r,
  match r with
  | Err e =>
      bmodify (set_transport None) ≫= λ _, handler h_disconnected ≫= λ _, bfail e
  | Ok x => mret x
  end.

(** [Bridge::step_inner], [Bridge::step_mode] *)
Definition step_inner (deadline_ns : Z) (research : bool) : BM unit :=
  transport ≫= λ fd,
  link (λ w, l_receive w fd deadline_ns) ≫= λ packet,
  process_packet packet deadline_ns research.
Definition step_mode (deadline_ns : Z) (research : bool) : BM unit :=
  closing (step_inner deadline_ns research).

(** [Bridge::ready_mode] *)
Definition ready_mode (idle_deadline_ns : Z) (research : bool) : BM bool :=
  closing (
    transport ≫= λ fd,
    link (λ w, l_receive_if_ready w fd idle_deadline_ns) ≫= λ ready,
    match ready with
    | None => mret false
    | Some packet =>
        process_packet packet (Wire.deadline_ns (Wire.scope packet)) research ≫= λ _,
        mret true
    end).

(** [step], [research_step], [research_step_if_ready], [admitted_step_if_ready],
    [passive_step_if_ready] *)
Definition step (deadline_ns : Z) : BM unit := step_mode deadline_ns false.
Definition research_step (deadline_ns : Z) : BM unit := step_mode deadline_ns true.
Definition research_step_if_ready (d : Z) : BM bool := ready_mode d true.
Definition admitted_step_if_ready (d : Z) : BM bool := ready_mode d true.
Definition passive_step_if_ready (d : Z) : BM bool := ready_mode d false.

(** [Bridge::request_reconciliation] *)
Definition request_reconciliation : BM unit :=
  bmodify (λ b, set_awaiting true (set_transport None b)) ≫= λ _, handler h_disconnected.
End bridge.
