(* ===== verification/BridgeThm.v ===== *)
(** * The bridge settles every proposal once, never replays, and fails closed *)

From Stdlib Require Import Strings.Byte.
From S2P Require Import Prelude Protocol Wire Transactions Bridge.

(** ** Recording a handler *)

Inductive Call : Type :=
  | CPropose (scope : Wire.Scope) (event : Wire.Event) (d : Wire.Decision)
  | CFault (scope : Wire.Scope) (event : Wire.Event)
  | CDelivery (scope : Wire.Scope) (event : Wire.Event) (d : Wire.Decision)
      (report : DeliveryReport)
  | CReset (scope : Wire.Scope) (body : Wire.Body)
  | CUnlocked (scope : Wire.Scope) (body : Wire.Body)
  | CTrace (trace : CausalTrace)
  | CDisconnected.

(** A handler next to the list of the calls made to it. *)
Definition Recorded (H : Type) : Type := H * list Call.

#[export] Instance Recorded_handler {H} `{EventHandler H} : EventHandler (Recorded H) := {|
  h_modifier_release_actions := λ '(h, _), h_modifier_release_actions h;
  h_propose := λ '(h, l) s e,
    '(h, d) ← h_propose h s e; Some ((h, l ++ [CPropose s e d]), d);
  h_causal_trace := λ '(h, l) t, (h_causal_trace h t, l ++ [CTrace t]);
  h_research_fault := λ '(h, l) s e,
    let '(h, f) := h_research_fault h s e in ((h, l ++ [CFault s e]), f);
  h_delivery := λ '(h, l) s e d r, (h_delivery h s e d r, l ++ [CDelivery s e d r]);
  h_reset := λ '(h, l) s b, (h_reset h s b, l ++ [CReset s b]);
  h_unlocked_epoch := λ '(h, l) s b, (h_unlocked_epoch h s b, l ++ [CUnlocked s b]);
  h_disconnected := λ '(h, l), (h_disconnected h, l ++ [CDisconnected]);
|}.

(** ** Weakest preconditions over the calls *)

Section wp.
Context {W H : Type} `{Link W, EventHandler H}.

Abbreviation RM := (BM (W := W) (H := Recorded H)).

(** Whatever the link and the handler answer, [m] started on the bridge [b]
    ends with a bridge, a result and new calls that satisfy [Φ]. *)
Definition wp {X} (m : RM X) (b : Bridge)
    (Φ : Bridge → Wire.IoResult X → list Call → Prop) : Prop :=
  ∀ w h log s r, m (b, w, (h, log)) = Some (s, r) →
    ∃ b' w' h' l, s = (b', w', (h', log ++ l)) ∧ Φ b' r l.

Lemma wp_mono {X} (m : RM X) b (Φ Ψ : Bridge → Wire.IoResult X → list Call → Prop) :
  (∀ b' r l, Φ b' r l → Ψ b' r l) → wp m b Φ → wp m b Ψ.
Proof. intros Himp Hm w h log s r (b' & w' & h' & l & -> & ?)%Hm. naive_solver. Qed.

Lemma wp_ret {X} (x : X) b (Φ : Bridge → Wire.IoResult X → list Call → Prop) :
  Φ b (Ok x) [] → wp (mret x) b Φ.
Proof.
  intros HΦ w h log s r [= <- <-]. exists b, w, h, []. by rewrite app_nil_r.
Qed.

Lemma wp_bind {X Y} (m : RM X) (f : X → RM Y) b
    (Φ : Bridge → Wire.IoResult Y → list Call → Prop) :
  wp m b (λ b1 r l1, match r with
    | Err e => Φ b1 (Err e) l1
    | Ok x => wp (f x) b1 (λ b2 r2 l2, Φ b2 r2 (l1 ++ l2))
    end) → wp (m ≫= f) b Φ.
Proof.
  intros Hm w h log s r. unfold mbind, BM_bind.
  destruct (m (b, w, (h, log))) as [[s1 r1]|] eqn:E; [|done].
  destruct (Hm _ _ _ _ _ E) as (b1 & w1 & h1 & l1 & -> & HΦ).
  destruct r1 as [x|e]; [|intros [= <- <-]; by exists b1, w1, h1, l1].
  intros (b2 & w2 & h2 & l2 & -> & ?)%HΦ.
  exists b2, w2, h2, (l1 ++ l2). by rewrite app_assoc.
Qed.

Lemma wp_fail {X} e b (Φ : Bridge → Wire.IoResult X → list Call → Prop) :
  Φ b (Err e) [] → wp (bfail e) b Φ.
Proof. intros HΦ w h log s r [= <- <-]. exists b, w, h, []. by rewrite app_nil_r. Qed.

Lemma wp_lift {X} x b (Φ : Bridge → Wire.IoResult X → list Call → Prop) :
  Φ b x [] → wp (blift x) b Φ.
Proof. intros HΦ w h log s r [= <- <-]. exists b, w, h, []. by rewrite app_nil_r. Qed.

Lemma wp_get b (Φ : Bridge → Wire.IoResult Bridge → list Call → Prop) :
  Φ b (Ok b) [] → wp bget b Φ.
Proof. intros HΦ w h log s r [= <- <-]. exists b, w, h, []. by rewrite app_nil_r. Qed.

Lemma wp_hget b (Φ : Bridge → Wire.IoResult (Recorded H) → list Call → Prop) :
  (∀ h, Φ b (Ok h) []) → wp hget b Φ.
Proof. intros HΦ w h log s r [= <- <-]. exists b, w, h, []. by rewrite app_nil_r. Qed.

Lemma wp_modify f b (Φ : Bridge → Wire.IoResult unit → list Call → Prop) :
  Φ (f b) (Ok ()) [] → wp (bmodify f) b Φ.
Proof. intros HΦ w h log s r [= <- <-]. exists (f b), w, h, []. by rewrite app_nil_r. Qed.

Lemma wp_link {X} (f : LM X) b (Φ : Bridge → Wire.IoResult X → list Call → Prop) :
  (∀ r, Φ b r []) → wp (link f) b Φ.
Proof.
  intros HΦ w h log s r. unfold link. destruct (f w) as [w' r'] eqn:E. intros [= <- <-].
  exists b, w', h, []. by rewrite app_nil_r.
Qed.

Lemma wp_attempt {X} (m : RM X) b
    (Φ : Bridge → Wire.IoResult (Wire.IoResult X) → list Call → Prop) :
  wp m b (λ b' r l, Φ b' (Ok r) l) → wp (attempt m) b Φ.
Proof.
  intros Hm w h log s r. unfold attempt.
  destruct (m _) as [[s1 r1]|] eqn:E; [|done]. intros [= <- <-]. by eapply Hm.
Qed.

Lemma wp_now_ok b (Φ : Bridge → Wire.IoResult (option Z) → list Call → Prop) :
  (∀ n, Φ b (Ok n) []) → wp now_ok b Φ.
Proof.
  intros HΦ. unfold now_ok, now. apply wp_bind, wp_attempt, wp_link. intros r.
  by apply wp_ret.
Qed.

(** The callbacks append themselves. *)
Lemma wp_handler f c b (Φ : Bridge → Wire.IoResult unit → list Call → Prop) :
  (∀ h l, (f (h, l)).2 = l ++ [c]) → Φ b (Ok ()) [c] → wp (handler f) b Φ.
Proof.
  intros Hf HΦ w h log s r. unfold handler. specialize (Hf h log).
  destruct (f (h, log)) as [h' l']. simpl in Hf. subst l'. intros [= <- <-].
  by exists b, w, h', [c].
Qed.

Lemma wp_propose scope e b (Φ : Bridge → Wire.IoResult Wire.Decision → list Call → Prop) :
  (∀ d, Φ b (Ok d) [CPropose scope e d]) →
  wp (ask_handler (λ h, h_propose h scope e)) b Φ.
Proof.
  intros HΦ w h log s r. unfold ask_handler. simpl.
  destruct (h_propose h scope e) as [[h' d]|]; simpl; [|done]. intros [= <- <-].
  by exists b, w, h', [CPropose scope e d].
Qed.

Lemma wp_fault scope e b (Φ : Bridge → Wire.IoResult ResearchFault → list Call → Prop) :
  (∀ f, Φ b (Ok f) [CFault scope e]) →
  wp (ask_handler (λ h, Some (h_research_fault h scope e))) b Φ.
Proof.
  intros HΦ w h log s r. unfold ask_handler. simpl.
  destruct (h_research_fault h scope e) as [h' f]; simpl. intros [= <- <-].
  by exists b, w, h', [CFault scope e].
Qed.
End wp.

(** ** The grammar of one packet *)

(** The outcome is of this event, and confirms only what was decided. *)
Definition confirms (e : Wire.Event) (d : Wire.Decision) (o : Wire.Outcome) : Prop :=
  Wire.out_key o = Wire.ev_key e ∧ Wire.out_state o = Wire.ev_state e ∧
  Wire.out_focus_epoch o = Wire.ev_focus_epoch e ∧
  (Wire.out_result o = Wire.Replaced → ∃ k m, d = Wire.Replace k m) ∧
  (Wire.ev_state e = 1 → Wire.out_result o = Wire.SwallowCommitted → d = Wire.Swallow).

Lemma outcome_of_Ok p e d ack o :
  outcome_of p e d ack = Ok o →
  Wire.scope ack = Wire.scope p ∧ Wire.body ack = Wire.BodyOutcome o ∧ confirms e d o.
Proof.
  unfold outcome_of. destruct (Wire.body ack); try done. destruct (_ || _) eqn:Hg; [done|].
  intros [= <-]. bools. split_and!; try done. unfold confirms. split_and!; try done.
  - intros Hr. match goal with H : _ && negb (match d with _ => _ end) = false |- _ =>
      rewrite (bool_decide_true (_ = Wire.Replaced)) in H by done end.
    destruct d; try done. eauto.
  - intros Hs Hr. match goal with H : bool_decide (Wire.ev_state e = 1) && _ && _ = false |- _ =>
      rewrite !bool_decide_true in H by done; cbn [andb] in H end. by bools.
Qed.

(** The calls of one event transaction up to its trace: at most one proposal,
    whose decision is the one delivered ([Pass] where nothing was proposed), and
    exactly one delivery, acknowledged only by an outcome that confirms it; the
    transaction succeeds iff it was acknowledged and not fatal. *)
Inductive transaction (b : Bridge) (research : bool) (scope : Wire.Scope) (e : Wire.Event) :
    bool → list Call → Prop :=
  | transaction_intro props faults d rep ok :
      (props = [] ∧ d = Wire.Pass ∨
       props = [CPropose scope e d] ∧ research = true ∧ br_locked b = false ∧
         (Wire.ev_state e = 0 ∨ Wire.ev_state e = 1)) →
      (faults = [] ∨ faults = [CFault scope e]) →
      (∀ o, rep = Acknowledged o → confirms e d o) →
      ok = match rep with
           | Acknowledged o => negb (bool_decide (Wire.out_result o = Wire.PartialUncertainFatal))
           | Report_Uncertain => false
           end →
      transaction b research scope e ok (props ++ faults ++ [CDelivery scope e d rep]).

Definition succeeded {X} (r : Wire.IoResult X) : bool :=
  match r with Ok _ => true | Err _ => false end.

Section events.
Context {W H : Type} `{Link W, EventHandler H}.
Variables (p : Wire.Packet) (e : Wire.Event) (research : bool) (b : Bridge).
Let scope := Wire.scope p.

(** The calls before the delivery of the decision [d]. *)
Definition opening (pre : list Call) (d : Wire.Decision) : Prop :=
  ∀ rep ok, (∀ o, rep = Acknowledged o → confirms e d o) →
    ok = match rep with
         | Acknowledged o => negb (bool_decide (Wire.out_result o = Wire.PartialUncertainFatal))
         | Report_Uncertain => false
         end →
    transaction b research scope e ok (pre ++ [CDelivery scope e d rep]).

(** A transaction whose calls before this point were [pre]. *)
Definition traced_post (pre : list Call) (b' : Bridge)
    (r : Wire.IoResult (CausalTrace * Wire.IoResult unit)) (l : list Call) : Prop :=
  b' = b ∧ ∃ t res, r = Ok (t, res) ∧ tr_scope t = scope ∧
    transaction b research scope e (succeeded res) (pre ++ l) ∧
    (succeeded res = true → tr_terminal t = Terminal_Acknowledged).

Lemma uncertain_wp pre d err t :
  opening pre d → tr_scope t = scope →
  wp (W := W) (H := H) (attempt (uncertain scope e d err) ≫= λ r, mret (t, r)) b
    (traced_post pre).
Proof.
  intros Ho Ht. apply wp_bind, wp_attempt. unfold uncertain. apply wp_bind.
  apply (wp_handler _ (CDelivery scope e d Report_Uncertain)); [done|].
  apply wp_fail, wp_ret. split; [done|]. exists t, (Err err).
  split_and!; [done|done|by apply Ho|done].
Qed.

Lemma await_outcome_wp pre d fd dl t :
  opening pre d → tr_scope t = scope →
  wp (W := W) (H := H) (await_outcome p e d fd dl t) b (traced_post pre).
Proof.
  intros Hpre Ht. unfold await_outcome.
  apply wp_bind, wp_attempt, wp_link. intros [ack|err]; [|by apply uncertain_wp].
  apply wp_bind, wp_now_ok. intros t2.
  destruct (outcome_of p e d ack) as [o|err] eqn:Ho; [|by apply uncertain_wp].
  apply outcome_of_Ok in Ho as (_ & _ & Ho). apply wp_bind.
  apply (wp_handler _ (CDelivery scope e d (Acknowledged o))); [done|]. apply wp_ret.
  split; [done|]. eexists _, _. split_and!; [done|done| |done].
  apply Hpre; [by intros o' [= <-]|]. by case_bool_decide.
Qed.

Lemma proposal_wp (c : bool) :
  (c = true → research = true ∧ br_locked b = false ∧
     (Wire.ev_state e = 0 ∨ Wire.ev_state e = 1)) →
  wp (W := W) (H := H)
    (if c then ask_handler (λ h, h_propose h scope e) else mret Wire.Pass) b
    (λ b' r l, b' = b ∧ ∃ d, r = Ok d ∧
       (l = [] ∧ d = Wire.Pass ∨
        l = [CPropose scope e d] ∧ research = true ∧ br_locked b = false ∧
          (Wire.ev_state e = 0 ∨ Wire.ev_state e = 1))).
Proof.
  intros Hc. destruct c.
  - apply wp_propose. intros d. split; [done|]. exists d. naive_solver.
  - apply wp_ret. split; [done|]. exists Wire.Pass. naive_solver.
Qed.

Lemma event_traced_wp dl t fd :
  br_transport b = Some fd → tr_scope t = scope →
  wp (W := W) (H := H) (event_traced p e dl research t) b (traced_post []).
Proof.
  intros Hfd Hts. unfold event_traced.
  apply wp_bind, wp_get, wp_bind, wp_hget. intros h.
  eapply wp_bind, wp_mono; [|apply proposal_wp].
  2: { intros Hp. bools. split_and!; try done.
       match goal with H : _ || _ = true |- _ => apply orb_true_iff in H as [?|?] end;
         bools; auto. }
  intros b' r props (-> & d & -> & Hprops). apply wp_bind.
  apply (wp_mono _ _ (λ b' r l, b' = b ∧ ∃ f, r = Ok f ∧ (l = [] ∨ l = [CFault scope e]))).
  2: { destruct (research && negb (br_locked b) && bool_decide (Wire.ev_state e = 1)).
       - apply wp_fault. intros f. split; [done|]. eauto.
       - apply wp_ret. split; [done|]. eauto. }
  intros b' r faults (-> & fault & -> & Hfaults).
  assert (opening (props ++ faults) d) as Hpre.
  { intros rep ok H1' H2'. rewrite <- app_assoc. by apply transaction_intro. }
  apply (wp_mono _ _ (traced_post (props ++ faults))).
  { intros b' r l. unfold traced_post. by rewrite <- !app_assoc. }
  apply wp_bind, wp_attempt, wp_link. intros [[]|err]; [|by apply uncertain_wp].
  apply wp_bind, wp_attempt. unfold transport. apply wp_bind, wp_get. rewrite Hfd.
  apply wp_ret. apply wp_bind, wp_now_ok. intros t0.
  apply wp_bind, wp_attempt, wp_link. intros [[]|err]; apply wp_bind, wp_now_ok; intros t1;
    [|by apply uncertain_wp].
  destruct fault; first [by apply uncertain_wp|by apply await_outcome_wp].
Qed.
End events.

(** ** One packet *)

(** What [control] does to the bridge, and whether it accepts the packet. *)
Definition control_state (p : Wire.Packet) (b : Bridge) : Bridge * bool :=
  let gen := Wire.generation (Wire.scope p) in
  if is_lifecycle_reset (Wire.body p) then
    (if bool_decide (gen = 0) then set_awaiting true b else b, true)
  else if is_reason8 (Wire.body p) then
    if bool_decide (gen = 0) && negb (br_locked b) && br_awaiting_reconciliation b
    then (set_awaiting false b, true) else (b, false)
  else if is_retire (Wire.body p) then
    if bool_decide (size (br_retired b) < MAX_RETIRED_GENERATIONS)%nat
    then (set_retired ({[gen]} ∪ br_retired b) b, bool_decide (gen ∉ br_retired b))
    else (b, false)
  else (b, true).

Definition is_control (body : Wire.Body) : bool :=
  match body with Wire.Reset _ | Wire.Retire _ | Wire.Lock _ _ => true | _ => false end.

(** A lock packet for a bridge that is not locked and stays so. *)
Definition unlocked_lock (b : Bridge) (p : Wire.Packet) : bool :=
  negb (br_locked b) && match Wire.body p with Wire.Lock 0 _ => true | _ => false end.

(** The bridge, the result and the calls one received packet leaves. *)
Inductive packet_log (b : Bridge) (p : Wire.Packet) (research : bool) :
    Bridge → Wire.IoResult unit → list Call → Prop :=
  | packet_rejected err l :
      (l = [] ∨ ∃ t, l = [CTrace t]) → packet_log b p research b (Err err) l
  | packet_event e res l t :
      scope_rejected b p = false → Wire.body p = Wire.BodyEvent e →
      transaction (advance p b) research (Wire.scope p) e (succeeded res) l →
      tr_scope t = Wire.scope p →
      tr_terminal t = (if succeeded res then Terminal_Acknowledged else Terminal_Uncertain) →
      packet_log b p research (advance p b) res (l ++ [CTrace t])
  | packet_control b' :
      scope_rejected b p = false → is_control (Wire.body p) = true →
      control_state p (advance p b) = (b', true) →
      packet_log b p research b' (Ok ())
        [if unlocked_lock b p then CUnlocked (Wire.scope p) (Wire.body p)
         else CReset (Wire.scope p) (Wire.body p)]
  | packet_refused b' err :
      scope_rejected b p = false →
      (b' = advance p b ∨ control_state p (advance p b) = (b', false)) →
      packet_log b p research b' (Err err) [].

Section packets.
Context {W H : Type} `{Link W, EventHandler H}.

Lemma bridge_event_wp p e dl research rn fd b :
  br_transport b = Some fd →
  wp (W := W) (H := H) (bridge_event p e dl research rn) b (λ b' res l,
    b' = b ∧ ∃ l0 t, l = l0 ++ [CTrace t] ∧ tr_scope t = Wire.scope p ∧
      transaction b research (Wire.scope p) e (succeeded res) l0 ∧
      tr_terminal t = (if succeeded res then Terminal_Acknowledged else Terminal_Uncertain)).
Proof.
  intros Hfd. unfold bridge_event. apply wp_bind, wp_now_ok. intros n.
  eapply wp_bind, wp_mono; [|by eapply event_traced_wp].
  intros b' r l (-> & t & res & -> & Hts & Htx & Hterm).
  apply wp_bind, wp_now_ok. intros n'.
  set (t' := match res with Ok _ => t | Err _ => _ end).
  apply wp_bind, (wp_handler _ (CTrace (set_terminal_ns n' t'))); [done|]. apply wp_lift.
  split; [done|]. exists l, (set_terminal_ns n' t').
  split_and!; [by rewrite app_nil_l, app_nil_r| |done|];
    unfold t'; destruct res; simpl; auto.
Qed.

Lemma control_wp p u b :
  wp (W := W) (H := H) (control p u) b (λ b' r l,
    (control_state p b = (b', true) ∧ r = Ok () ∧
     l = [if u then CUnlocked (Wire.scope p) (Wire.body p)
          else CReset (Wire.scope p) (Wire.body p)]) ∨
    (control_state p b = (b', false) ∧ l = [] ∧ ∃ e, r = Err e)).
Proof.
  assert (∀ b (Φ : Bridge → Wire.IoResult unit → list Call → Prop),
    Φ b (Ok ()) [if u then CUnlocked (Wire.scope p) (Wire.body p)
                 else CReset (Wire.scope p) (Wire.body p)] →
    wp (W := W) (H := H)
      (if u then handler (λ h, h_unlocked_epoch h (Wire.scope p) (Wire.body p))
       else handler (λ h, h_reset h (Wire.scope p) (Wire.body p))) b Φ) as Hlast.
  { intros b' Φ HΦ. destruct u; eapply wp_handler; done. }
  assert (is_lifecycle_reset (Wire.body p) = true →
    is_reason8 (Wire.body p) = false ∧ is_retire (Wire.body p) = false) as E1.
  { by destruct (Wire.body p) as [| | | | | |[|[[]|[]|]|]| |]. }
  assert (is_reason8 (Wire.body p) = true → is_retire (Wire.body p) = false) as E2
    by (by destruct (Wire.body p)).
  unfold control, control_state. apply wp_bind.
  destruct (is_lifecycle_reset (Wire.body p)).
  { destruct (E1 eq_refl) as [-> ->]. cbn [andb].
    case_bool_decide; [apply wp_modify|apply wp_ret];
      repeat first [apply wp_bind|apply wp_get|apply wp_ret|apply Hlast]; left; done. }
  cbn [andb]. apply wp_ret, wp_bind, wp_get, wp_bind.
  destruct (is_reason8 (Wire.body p)).
  { rewrite (E2 eq_refl). destruct (_ || _) eqn:Hg.
    - apply wp_fail. right. split_and!; [|done|by eexists].
      destruct (bool_decide _), (br_locked b), (br_awaiting_reconciliation b); done.
    - bools. apply wp_modify. repeat first [apply wp_bind|apply wp_get|apply wp_ret|apply Hlast].
      left. rewrite bool_decide_true by done.
      by repeat match goal with H : _ b = _ |- _ => rewrite H end. }
  apply wp_ret, wp_bind, wp_get, wp_bind. destruct (is_retire (Wire.body p)).
  2: { apply wp_ret, Hlast. by left. }
  case_bool_decide as Hsz.
  { apply wp_fail. right. rewrite bool_decide_false by lia. eauto. }
  rewrite (bool_decide_true (size _ < _)%nat) by lia. unfold set_insert.
  apply wp_bind, wp_modify. rewrite bool_decide_not. case_bool_decide; cbn [negb].
  - apply wp_fail. right. eauto.
  - apply wp_ret, Hlast. by left.
Qed.

Lemma validate_wp p b :
  wp (W := W) (H := H) (validate p) b (λ b' r l, l = [] ∧
    ((∃ e, r = Err e ∧ b' = b) ∨
     (r = Ok () ∧ b' = advance p b ∧ scope_rejected b p = false))).
Proof.
  unfold validate. apply wp_bind, wp_link. intros [[]|e]; [|naive_solver].
  apply wp_bind, wp_get. destruct (scope_rejected b p) eqn:E.
  - apply wp_fail. naive_solver.
  - apply wp_modify. naive_solver.
Qed.

Lemma process_packet_wp p dl research fd b :
  br_transport b = Some fd →
  wp (W := W) (H := H) (process_packet p dl research) b (packet_log b p research).
Proof.
  intros Hfd. unfold process_packet. apply wp_bind, wp_now_ok. intros n.
  apply wp_bind, wp_get. eapply wp_bind, wp_attempt, wp_mono; [|apply validate_wp].
  intros b' r l (-> & [(err & -> & ->)|(-> & -> & Hv)]); simpl.
  { apply wp_bind. destruct (is_event (Wire.body p)).
    - apply wp_bind, wp_now_ok. intros n1. apply wp_bind, wp_now_ok. intros n2.
      eapply wp_handler; [done|]. apply wp_fail. apply packet_rejected. right. by eexists.
    - apply wp_ret, wp_fail. apply packet_rejected. by left. }
  destruct (is_control (Wire.body p)) eqn:Hc.
  - assert (∀ (x : BM (W := W) (H := Recorded H) unit) y, match Wire.body p with
      | Wire.BodyEvent event => y event
      | Wire.Reset _ | Wire.Retire _ | Wire.Lock _ _ => x
      | _ => binvalid end = x) as -> by (intros; by destruct (Wire.body p)).
    eapply wp_mono; [|apply control_wp].
    intros b' r l [(Hs & -> & ->)|(Hs & -> & err & ->)].
    + by apply packet_control.
    + apply packet_refused; auto.
  - destruct (Wire.body p) as [| |e| | | | | |] eqn:Hb; try done;
      try (by apply wp_fail, packet_refused; auto).
    eapply wp_mono; [|by eapply (bridge_event_wp p e dl research n fd (advance p b))].
    intros b' res l (-> & l0 & t & -> & Hts & Htx & Ht). by eapply packet_event.
Qed.
End packets.

(** ** One step *)

(** What a step leaves: nothing (idle), an accepted packet, or an error that
    closes the connection and reports the disconnection as its last call. *)
Inductive step_log (b : Bridge) (research : bool) : bool → Bridge → list Call → Prop :=
  | step_idle : step_log b research true b []
  | step_packet p b' l :
      packet_log b p research b' (Ok ()) l → step_log b research true b' l
  | step_failed b0 l0 :
      (b0 = b ∧ l0 = [] ∨ ∃ p err, packet_log b p research b0 (Err err) l0) →
      step_log b research false (set_transport None b0) (l0 ++ [CDisconnected]).

Section steps.
Context {W H : Type} `{Link W, EventHandler H}.

Lemma closing_wp {X} (m : BM (W := W) (H := Recorded H) X) b research :
  wp m b (λ b' r l,
    match r with
    | Ok _ => step_log b research true b' l
    | Err _ => b' = b ∧ l = [] ∨ ∃ p err, packet_log b p research b' (Err err) l
    end) →
  wp (closing m) b (λ b' r l, step_log b research (succeeded r) b' l).
Proof.
  intros Hm. unfold closing. apply wp_bind, wp_attempt. eapply wp_mono; [|exact Hm].
  intros b' [x|e] l Hl; simpl.
  - apply wp_ret. by rewrite app_nil_r.
  - apply wp_bind, wp_modify. apply wp_bind, (wp_handler _ CDisconnected); [done|].
    apply wp_fail. by apply step_failed.
Qed.

Lemma transport_wp {X} (f : Z → BM (W := W) (H := Recorded H) X) b
    (Φ : Bridge → Wire.IoResult X → list Call → Prop) :
  (∀ e, Φ b (Err e) []) → (∀ fd, br_transport b = Some fd → wp (f fd) b Φ) →
  wp (transport ≫= f) b Φ.
Proof.
  intros Hn Hs. apply wp_bind. unfold transport. apply wp_bind, wp_get.
  destruct (br_transport b) as [fd|]; [apply wp_ret; by apply Hs|apply wp_fail, Hn].
Qed.

Lemma step_mode_wp dl research b :
  wp (W := W) (H := H) (step_mode dl research) b
    (λ b' r l, step_log b research (succeeded r) b' l).
Proof.
  apply closing_wp. unfold step_inner. apply transport_wp; [by left|]. intros fd Hfd.
  apply wp_bind, wp_link. intros [p|e]; [|by left].
  eapply wp_mono; [|by eapply process_packet_wp]. simpl.
  intros b' [[]|e] l Hl; [by eapply step_packet|eauto].
Qed.

Lemma ready_mode_wp dl research b :
  wp (W := W) (H := H) (ready_mode dl research) b
    (λ b' r l, step_log b research (succeeded r) b' l).
Proof.
  apply closing_wp. apply transport_wp; [by left|]. intros fd Hfd.
  apply wp_bind, wp_link. intros [[p|]|e]; [| |by left].
  - eapply wp_bind, wp_mono; [|by eapply process_packet_wp].
    intros b' [[]|e] l Hl; [|eauto]. apply wp_ret. rewrite app_nil_r.
    by eapply step_packet.
  - apply wp_ret, step_idle.
Qed.
End steps.

(** ** Settlement *)

Definition proposals (l : list Call) : list (Wire.Scope * Wire.Event * Wire.Decision) :=
  omap (λ c, match c with CPropose s e d => Some (s, e, d) | _ => None end) l.
Definition deliveries (l : list Call) :
    list (Wire.Scope * Wire.Event * Wire.Decision * DeliveryReport) :=
  omap (λ c, match c with CDelivery s e d r => Some (s, e, d, r) | _ => None end) l.

(** At most one transaction, and its delivery is the proposal's. *)
Definition settles_once (l : list Call) : Prop :=
  (proposals l = [] ∧ deliveries l = []) ∨
  ∃ s e d r, deliveries l = [(s, e, d, r)] ∧
    (proposals l = [(s, e, d)] ∨ proposals l = [] ∧ d = Wire.Pass) ∧
    ∀ o, r = Acknowledged o → confirms e d o.

Lemma transaction_settles b research s e ok l t :
  transaction b research s e ok l → settles_once (l ++ [CTrace t]).
Proof.
  intros [props faults d rep ok' Hp Hf Hc _]. right. exists s, e, d, rep.
  destruct Hf as [->| ->], Hp as [[-> ->]|[-> _]]; simpl; auto.
Qed.

Lemma packet_settles b p research b' r l :
  packet_log b p research b' r l → settles_once l.
Proof.
  intros [err l0 [->|[t ->]]|e res l0 t _ _ Ht _ _|b1 _ _ _|b1 err _ _].
  - by left.
  - by left.
  - by eapply transaction_settles.
  - destruct (unlocked_lock b p); by left.
  - by left.
Qed.

Lemma settles_disconnected l : settles_once l → settles_once (l ++ [CDisconnected]).
Proof. unfold settles_once, proposals, deliveries. rewrite !omap_app. simpl. by rewrite !app_nil_r. Qed.

Lemma step_settles b research ok b' l : step_log b research ok b' l → settles_once l.
Proof.
  intros [|p b1 l1 Hp|b0 l0 [[_ ->]|(p & err & Hp)]].
  - by left.
  - by eapply packet_settles.
  - by left.
  - by eapply settles_disconnected, packet_settles.
Qed.

Lemma control_state_frame p b b' ok :
  control_state p b = (b', ok) →
  br_transport b' = br_transport b ∧ br_nonce b' = br_nonce b ∧ br_epoch b' = br_epoch b ∧
  br_sequence b' = br_sequence b ∧ br_previous_nonces b' = br_previous_nonces b ∧
  (br_retired b' = br_retired b ∨
   br_retired b' = {[Wire.generation (Wire.scope p)]} ∪ br_retired b ∧
   (size (br_retired b) < MAX_RETIRED_GENERATIONS)%nat) ∧
  (ok = true → is_retire (Wire.body p) = true →
   Wire.generation (Wire.scope p) ∈ br_retired b').
Proof.
  unfold control_state. intros E.
  assert (is_lifecycle_reset (Wire.body p) = true → is_retire (Wire.body p) = false) as E1
    by (by destruct (Wire.body p)).
  assert (is_reason8 (Wire.body p) = true → is_retire (Wire.body p) = false) as E2
    by (by destruct (Wire.body p)).
  destruct (is_lifecycle_reset (Wire.body p)).
  { injection E as <- <-. rewrite (E1 eq_refl). case_bool_decide; simpl; split_and!; first [done|by left]. }
  destruct (is_reason8 (Wire.body p)).
  { rewrite (E2 eq_refl). destruct (_ && _ && _); injection E as <- <-; simpl;
      split_and!; first [done|by left]. }
  destruct (is_retire (Wire.body p)).
  2: { injection E as <- <-. split_and!; first [done|by left]. }
  case_bool_decide; injection E as <- <-; simpl; split_and!;
    first [done|by left|by right|set_solver].
Qed.

Lemma packet_quiet b p research b' r l :
  packet_log b p research b' r l →
  (research = false ∨ br_locked b = true → proposals l = []) ∧ (CDisconnected ∉ l) ∧
  br_transport b' = br_transport b.
Proof.
  intros [err l0 [->|[t ->]]|e res l0 t _ Hb Ht _ _|b1 _ _ Hs|b1 err _ Hs].
  - split_and!; [done|set_solver|done].
  - split_and!; [done|set_solver|done].
  - destruct Ht as [props faults d rep ok Hp Hf _ _]. simpl in Hp. rewrite Hb in Hp.
    destruct Hf as [->| ->], Hp as [[-> ->]|(-> & -> & Hl & _)]; simpl;
      (split_and!; [naive_solver congruence|set_solver|done]).
  - apply control_state_frame in Hs as (-> & _).
    destruct (unlocked_lock b p); (split_and!; [done|set_solver|done]).
  - split_and!; [done|set_solver|].
    destruct Hs as [->|(-> & _)%control_state_frame]; done.
Qed.

(** ** History *)

(** The scopes the handler saw settled or controlled, in order; the flag marks a
    retirement. *)
Definition handled (l : list Call) : list (Wire.Scope * bool) :=
  omap (λ c, match c with
    | CDelivery s _ _ _ | CUnlocked s _ => Some (s, false)
    | CReset s body => Some (s, is_retire body)
    | _ => None
    end) l.

(** [x] before [y]: epochs never go back, a connection's sequence numbers
    increase, and a retired generation does not come back. *)
Definition precedes (x y : Wire.Scope * bool) : Prop :=
  Wire.lock_epoch x.1 ≤ Wire.lock_epoch y.1 ∧
  (Wire.nonce x.1 = Wire.nonce y.1 → Wire.sequence x.1 < Wire.sequence y.1) ∧
  (x.2 = true → Wire.generation x.1 ≠ Wire.generation y.1).

(** What the bridge remembers of a handled scope. *)
Definition remembered (b : Bridge) (x : Wire.Scope * bool) : Prop :=
  Wire.lock_epoch x.1 ≤ br_epoch b ∧
  (Wire.nonce x.1 = br_nonce b → Wire.sequence x.1 ≤ br_sequence b) ∧
  (x.2 = true → Wire.generation x.1 ∈ br_retired b) ∧
  Wire.nonce x.1 ∈ ({[br_nonce b]} ∪ br_previous_nonces b : gset Z).

Record HistInv (b : Bridge) (l : list Call) : Prop := {
  hi_sorted : StronglySorted precedes (handled l);
  hi_remembered : Forall (remembered b) (handled l);
  hi_retired : (size (br_retired b) ≤ MAX_RETIRED_GENERATIONS)%nat;
  hi_previous : (size (br_previous_nonces b) ≤ MAX_CONNECTION_NONCES)%nat;
  hi_nonce : br_nonce b ∉ br_previous_nonces b;
}.

Lemma StronglySorted_snoc {A} (R : A → A → Prop) l x :
  StronglySorted R l → Forall (λ y, R y x) l → StronglySorted R (l ++ [x]).
Proof.
  induction 1 as [|y l Hs IH Hy]; intros Hx; simpl; [repeat constructor|].
  apply Forall_cons in Hx as [? ?]. constructor; [auto|].
  apply Forall_app. split; [done|]. by constructor.
Qed.

Lemma handled_app l1 l2 : handled (l1 ++ l2) = handled l1 ++ handled l2.
Proof. apply omap_app. Qed.

(** A bridge that remembers at least as much. *)
Lemma HistInv_frame b l b' l' :
  HistInv b l → handled l' = [] →
  br_nonce b' = br_nonce b → br_epoch b ≤ br_epoch b' → br_sequence b ≤ br_sequence b' →
  br_retired b ⊆ br_retired b' → (size (br_retired b') ≤ MAX_RETIRED_GENERATIONS)%nat →
  br_previous_nonces b' = br_previous_nonces b → HistInv b' (l ++ l').
Proof.
  intros [Hs Hr Hz Hp Hn] Hl En Ee Eq Er Ez Ep. split; try congruence.
  - by rewrite handled_app, Hl, app_nil_r.
  - rewrite handled_app, Hl, app_nil_r. eapply Forall_impl; [exact Hr|].
    intros x (? & ? & ? & ?). unfold remembered. rewrite En, Ep.
    split_and!; [lia|intros; lia || (etrans; eauto)|eauto|done].
Qed.

(** An accepted packet is later than everything handled. *)
Lemma accepted_precedes b p x fl :
  scope_rejected b p = false → remembered b x → precedes x (Wire.scope p, fl).
Proof.
  intros Ha (He & Hq & Hr & _). unfold scope_rejected in Ha. bools.
  unfold precedes; simpl. split_and!.
  - destruct (is_lock (Wire.body p)); simpl in *; bools; lia.
  - intros En. assert (Wire.nonce x.1 = br_nonce b) as Hq'%Hq by congruence. lia.
  - intros Hx Eg. apply Hr in Hx. congruence.
Qed.

Lemma advance_epoch b p : scope_rejected b p = false →
  br_epoch b ≤ br_epoch (advance p b) ∧ br_sequence b < br_sequence (advance p b) ∧
  Wire.nonce (Wire.scope p) = br_nonce b.
Proof.
  unfold scope_rejected. intros Ha. bools. simpl.
  destruct (is_lock (Wire.body p)); simpl in *; bools; split_and!; done || lia.
Qed.

(** Handling the accepted packet keeps the history. *)
Lemma HistInv_handle b l p b' l' fl :
  HistInv b l → scope_rejected b p = false → handled l' = [(Wire.scope p, fl)] →
  br_nonce b' = br_nonce b → br_epoch b' = br_epoch (advance p b) →
  br_sequence b' = br_sequence (advance p b) →
  br_retired b ⊆ br_retired b' → (size (br_retired b') ≤ MAX_RETIRED_GENERATIONS)%nat →
  br_previous_nonces b' = br_previous_nonces b →
  (fl = true → Wire.generation (Wire.scope p) ∈ br_retired b') → HistInv b' (l ++ l').
Proof.
  intros Hi Ha Hl En Ee Eq Er Ez Ep Hfl. pose proof Hi as [Hs Hr Hz Hp Hn].
  destruct (advance_epoch b p Ha) as (Le & Lq & Enp).
  split; try congruence; rewrite handled_app, Hl.
  - apply StronglySorted_snoc; [done|]. eapply Forall_impl; [exact Hr|].
    intros x Hx. by eapply accepted_precedes.
  - apply Forall_app. split; [|constructor; [|done]].
    + eapply Forall_impl; [exact Hr|]. intros x (H1 & H2 & H3 & H4). unfold remembered.
      rewrite En, Ep, Ee, Eq. split_and!; [lia| |eauto|done].
      intros E%H2. lia.
    + unfold remembered; simpl. rewrite En, Ep, Ee, Eq. simpl.
      split_and!; [done|done|done|]. rewrite Enp. set_solver.
Qed.

Lemma transaction_handled b research s e ok l t :
  transaction b research s e ok l → handled (l ++ [CTrace t]) = [(s, false)].
Proof.
  intros [props faults d rep ok' Hp Hf _ _].
  destruct Hf as [->| ->], Hp as [[-> _]|[-> _]]; done.
Qed.

Lemma size_insert_le (x : Z) (s : gset Z) : (size ({[x]} ∪ s) ≤ S (size s))%nat.
Proof.
  rewrite size_union_alt, size_singleton.
  assert (size (s ∖ {[x]}) ≤ size s)%nat by (apply subseteq_size; set_solver). lia.
Qed.

Lemma control_retired p b b' ok :
  control_state p b = (b', ok) → (size (br_retired b) ≤ MAX_RETIRED_GENERATIONS)%nat →
  br_retired b ⊆ br_retired b' ∧ (size (br_retired b') ≤ MAX_RETIRED_GENERATIONS)%nat.
Proof.
  intros (_ & _ & _ & _ & _ & Hr & _)%control_state_frame Hz.
  destruct Hr as [->|[-> Hlt]]; [done|]. split; [set_solver|].
  etrans; [apply size_insert_le|]. lia.
Qed.

Lemma packet_hist b l p research b' r l' :
  HistInv b l → packet_log b p research b' r l' → HistInv b' (l ++ l').
Proof.
  intros Hi. pose proof (hi_retired _ _ Hi) as Hz.
  intros [err l0 Hl|e res l0 t Ha Hb Ht _ _|b1 Ha Hc Hs|b1 err Ha Hs].
  - eapply HistInv_frame; try done. by destruct Hl as [->|[t ->]].
  - eapply HistInv_handle with (fl := false); try done. by eapply transaction_handled.
  - pose proof (control_state_frame _ _ _ _ Hs) as (_ & En & Ee & Eq & Ep & _ & Hf).
    apply control_retired in Hs as [Hsub Hz']; [|done].
    eapply HistInv_handle with (fl := negb (unlocked_lock b p) && is_retire (Wire.body p));
      try done.
    + by destruct (unlocked_lock b p).
    + intros Hfl. bools. auto.
  - destruct (advance_epoch b p Ha) as (Le & Lq & _).
    destruct Hs as [->|Hs]; [eapply HistInv_frame; try done; lia|].
    pose proof (control_state_frame _ _ _ _ Hs) as (_ & En & Ee & Eq & Ep & _ & _).
    apply control_retired in Hs as [Hsub Hz']; [|done].
    eapply HistInv_frame; try done; [by rewrite Ee|rewrite Eq; lia].
Qed.

Lemma set_transport_hist b l x : HistInv b l → HistInv (set_transport x b) l.
Proof. by intros []. Qed.

Lemma disconnected_hist b l : HistInv b l → HistInv b (l ++ [CDisconnected]).
Proof. intros Hi. eapply HistInv_frame; try done. apply Hi. Qed.

Lemma step_hist b l research ok b' l' :
  HistInv b l → step_log b research ok b' l' → HistInv b' (l ++ l').
Proof.
  intros Hi [|p b1 l1 Hp|b0 l0 Hp].
  - by rewrite app_nil_r.
  - by eapply packet_hist.
  - rewrite app_assoc. apply set_transport_hist, disconnected_hist.
    destruct Hp as [[-> ->]|(p & err & Hp)]; [by rewrite app_nil_r|by eapply packet_hist].
Qed.

(** ** Executions *)

Inductive BOp : Type :=
  | BStep (ready research : bool) (deadline_ns : Z)
  | BRequest
  | BReconnect (fd : Z) (expected : Wire.Identity) (deadline_ns : Z).

Section runs.
Context {W H : Type} `{Link W, EventHandler H}.
Abbreviation RM := (BM (W := W) (H := Recorded H)).
Abbreviation RSt := (BSt (W := W) (H := Recorded H)).

(** The steps of a bridge, waiting or polling, passive or with proposals. *)
Definition run_step (ready research : bool) (dl : Z) : RM unit :=
  if ready then ready_mode dl research ≫= λ _, mret () else step_mode dl research.

Definition bridge_do (op : BOp) : RM unit :=
  match op with
  | BStep ready research dl => run_step ready research dl
  | BRequest => request_reconciliation
  | BReconnect fd expected dl => λ '(b, w, h),
      match reconnect b fd expected dl w with
      | (w, Ok b) => Some ((b, w, h), Ok ())
      | (w, Err e) => Some ((b, w, h), Err e)
      end
  end.

(** Any sequence of operations, whatever each returns. *)
Inductive bridge_run : RSt → list BOp → RSt → Prop :=
  | bridge_run_nil s : bridge_run s [] s
  | bridge_run_cons s op s1 r ops s2 :
      bridge_do op s = Some (s1, r) → bridge_run s1 ops s2 → bridge_run s (op :: ops) s2.

Lemma run_step_wp ready research dl b :
  wp (W := W) (H := H) (run_step ready research dl) b
    (λ b' r l, step_log b research (succeeded r) b' l).
Proof.
  unfold run_step. destruct ready; [|apply step_mode_wp].
  eapply wp_bind, wp_mono; [|apply ready_mode_wp].
  intros b' [x|e] l Hl; [|done]. apply wp_ret. by rewrite app_nil_r.
Qed.

(** C6. The bridge settles every proposal exactly once and fails closed. In one
    step of the bridge, on any state, link and handler: the handler is asked for
    at most one proposal, never by a passive step and never while locked, and a
    proposal is followed by exactly one delivery for the same scope, event and
    decision, acknowledged only by an outcome that confirms it (no delivery
    reports an outcome for another key, state or focus epoch, or a replacement
    that was not decided). A successful step keeps the connection; any error, of
    the link, the protocol, a deadline or the compositor, drops the connection and
    tells the handler so as the very last call. *)
Theorem bridge_settles_once ready research dl b w h log s r :
  run_step ready research dl (b, w, (h, log)) = Some (s, r) →
  ∃ b' w' h' l, s = (b', w', (h', log ++ l)) ∧ settles_once l ∧
    (research = false ∨ br_locked b = true → proposals l = []) ∧
    match r with
    | Ok _ => br_transport b' = br_transport b ∧ (CDisconnected ∉ l)
    | Err _ => br_transport b' = None ∧ ∃ l0, l = l0 ++ [CDisconnected] ∧ (CDisconnected ∉ l0)
    end.
Proof.
  intros (b' & w' & h' & l & -> & Hl)%run_step_wp. exists b', w', h', l. split; [done|].
  split; [by eapply step_settles|].
  inversion Hl as [Hr|p b1 l1 Hp Hr|b0 l0 Hp Hr]; subst.
  - destruct r; [|done]. split_and!; [done|done|set_solver].
  - destruct r; [|done]. apply packet_quiet in Hp. tauto.
  - destruct r; [done|].
    assert ((research = false ∨ br_locked b = true → proposals l0 = []) ∧ (CDisconnected ∉ l0))
      as [Hq Hd].
    { destruct Hp as [[-> ->]|(p & err & Hp%packet_quiet)]; [|tauto].
      split; [done|set_solver]. }
    split_and!; [|done|eauto]. unfold proposals in *. rewrite omap_app. simpl.
    by rewrite app_nil_r.
Qed.

Lemma LM_bind_Ok {X Y} (m : LM (W := W) X) (f : X → LM Y) w w' y :
  (m ≫= f) w = (w', Ok y) → ∃ x w1, m w = (w1, Ok x) ∧ f x w1 = (w', Ok y).
Proof. unfold mbind, LM_bind. destruct (m w) as [w1 [x|e]]; [eauto|done]. Qed.

(** What a handshake establishes. *)
Lemma handshake_packet_Ok fd expected dl passive hello w w' b :
  handshake_packet fd expected dl passive hello w = (w', Ok b) →
  Wire.body hello = Wire.Hello expected ∧ Wire.generation (Wire.scope hello) = 0 ∧
  Wire.nonce (Wire.scope hello) ≠ 0 ∧
  b = mkBridge (Some fd) (Wire.nonce (Wire.scope hello)) (Wire.lock_epoch (Wire.scope hello))
        0 ∅ ∅ true false.
Proof.
  unfold handshake_packet. destruct (Wire.body hello) as [i| | | | | | | |] eqn:Hb; try done.
  intros ([] & w1 & _ & Hd)%LM_bind_Ok.
  destruct (hello_rejected expected i (Wire.scope hello)) eqn:Hr; [done|].
  apply LM_bind_Ok in Hd as ([] & w2 & _ & [= <- <-]).
  unfold hello_rejected in Hr. bools. split_and!; congruence.
Qed.

Lemma reconnect_Ok b fd expected dl w w' b' :
  reconnect b fd expected dl w = (w', Ok b') →
  br_transport b = None ∧ br_transport b' = Some fd ∧
  (size (br_previous_nonces b) < MAX_CONNECTION_NONCES)%nat ∧
  (br_nonce b' ≠ 0 ∧ br_nonce b' ≠ br_nonce b ∧ br_nonce b' ∉ br_previous_nonces b) ∧
  br_previous_nonces b' = {[br_nonce b]} ∪ br_previous_nonces b ∧
  br_epoch b' = br_epoch b ∧ br_sequence b' = 0 ∧ br_retired b' = br_retired b ∧
  br_awaiting_reconciliation b' = true ∧ br_locked b' = br_locked b.
Proof.
  unfold reconnect. destruct (_ || _) eqn:Hg; [done|]. bools.
  intros (hello & w1 & _ & Hd)%LM_bind_Ok. destruct (_ || _) eqn:Hg; [done|]. bools.
  apply LM_bind_Ok in Hd as (fresh & w2 & Hh & [= <- <-]).
  apply handshake_packet_Ok in Hh as (_ & _ & Hn & ->). simpl.
  match goal with H : ¬ is_Some _ |- _ => apply eq_None_not_Some in H end.
  split_and!; try done. lia.
Qed.

Lemma reconnect_hist b l fd expected dl w w' b' :
  HistInv b l → reconnect b fd expected dl w = (w', Ok b') → HistInv b' l.
Proof.
  intros [Hs Hr Hz Hp Hn]
    (_ & _ & Hsz & (_ & Hn1 & Hn2) & Ep & Ee & Eq & Er & _ & _)%reconnect_Ok.
  split; [done| |by rewrite Er| |].
  - eapply Forall_impl; [exact Hr|]. intros x (R1 & R2 & R3 & R4). unfold remembered.
    rewrite Ep, Ee, Er. split_and!; [done| |done|set_solver].
    intros E. exfalso. rewrite E in R4. set_solver.
  - rewrite Ep. etrans; [apply size_insert_le|]. lia.
  - rewrite Ep. set_solver.
Qed.

Lemma bridge_do_hist op b w h l b' w' h' l' r :
  HistInv b l → bridge_do op (b, w, (h, l)) = Some ((b', w', (h', l')), r) → HistInv b' l'.
Proof.
  intros Hi. destruct op as [ready research dl| |fd expected dl]; simpl.
  - intros (b1 & w1 & h1 & l1 & [= -> -> -> ->] & Hl)%run_step_wp. by eapply step_hist.
  - intros [= <- <- <- <- <-]. apply disconnected_hist. by destruct Hi.
  - destruct (reconnect b fd expected dl w) as [w1 [b1|e]] eqn:Hr; intros [= <- <- <- <- <-];
      [by eapply reconnect_hist|done].
Qed.

Lemma bridge_run_hist s ops s' :
  bridge_run s ops s' → HistInv s.1.1 s.2.2 → HistInv s'.1.1 s'.2.2.
Proof.
  induction 1 as [|s op s1 r ops s2 Hd Hr IH]; [done|]. intros Hi. apply IH.
  destruct s as [[b w] [h l]], s1 as [[b1 w1] [h1 l1]]. by eapply bridge_do_hist.
Qed.

(** C13. Nothing is replayed and nothing retired returns, across any number of
    reconnections. From a fresh handshake, after any sequence of steps (successful
    or not), reconciliation requests and reconnection attempts: the scopes the
    handler was told about are strictly ordered (within a connection their
    sequence numbers increase, so no packet is handled twice; lock epochs never go
    back, also across connections; once a generation was retired no later call is
    of that generation); every such scope is of the current connection's nonce or
    of an earlier one, which is never admitted again; and the bridge's memory
    stays within its two bounds. *)
Theorem bridge_never_replays fd expected dl w0 w1 b0 h ops b w h' l :
  passive_handshake fd expected dl w0 = (w1, Ok b0) →
  bridge_run (b0, w1, (h, [])) ops (b, w, (h', l)) →
  StronglySorted precedes (handled l) ∧
  Forall (λ x, Wire.nonce x.1 ∈ ({[br_nonce b]} ∪ br_previous_nonces b : gset Z)) (handled l) ∧
  (br_nonce b ∉ br_previous_nonces b) ∧
  (size (br_retired b) ≤ MAX_RETIRED_GENERATIONS)%nat ∧
  (size (br_previous_nonces b) ≤ MAX_CONNECTION_NONCES)%nat.
Proof.
  intros Hh Hr%bridge_run_hist.
  - destruct Hr as [Hs Hm Hz Hp Hn]. split_and!; try done.
    eapply Forall_impl; [exact Hm|]. by intros x (_ & _ & _ & ?).
  - unfold passive_handshake, handshake_inner in Hh. destruct (negb _); [done|].
    apply LM_bind_Ok in Hh as (hello & w2 & _ & (_ & _ & _ & ->)%handshake_packet_Ok).
    split; cbn [br_retired br_previous_nonces br_nonce fst snd];
      [apply SSorted_nil|apply Forall_nil_2|rewrite size_empty; lia..|set_solver].
Qed.

(** A broken connection stays broken until a fresh one is admitted. On a bridge
    without a connection every step fails without a proposal or a delivery and
    leaves the bridge as it is; a reconnection succeeds only on a bridge without a
    connection, for a nonzero nonce that no connection of this bridge had, and it
    starts a new sequence awaiting the compositor's proof, while the lock state, the
    lock epoch and the retired generations carry over. *)
Theorem reconnect_is_fresh b w h log :
  (br_transport b = None → ∀ ready research dl s r,
     run_step ready research dl (b, w, (h, log)) = Some (s, r) →
     succeeded r = false ∧ s.1.1 = b ∧ s.2.2 = log ++ [CDisconnected]) ∧
  (∀ fd expected dl w' b', reconnect b fd expected dl w = (w', Ok b') →
     br_transport b = None ∧ br_transport b' = Some fd ∧
     br_nonce b' ≠ 0 ∧ br_nonce b' ≠ br_nonce b ∧ (br_nonce b' ∉ br_previous_nonces b) ∧
     br_sequence b' = 0 ∧ br_awaiting_reconciliation b' = true ∧
     br_locked b' = br_locked b ∧ br_epoch b' = br_epoch b ∧ br_retired b' = br_retired b).
Proof.
  split.
  - intros Hn ready research dl s r. destruct b; simpl in Hn; subst.
    by destruct ready; intros [= <- <-].
  - intros fd expected dl w' b' Hr%reconnect_Ok. tauto.
Qed.
End runs.

(** ** A session on concrete input *)

(** A link with a clock, the packets it will receive and those it sent. *)
Record SimLink : Type := mkSimLink {
  sl_clock : Z;
  sl_inbox : list Wire.Packet;
  sl_sent : list Wire.Packet;
}.

#[export] Instance SimLink_link : Link SimLink := {|
  l_monotonic_ns := λ w, (w, Ok (sl_clock w));
  l_receive := λ w _ _,
    match sl_inbox w with
    | p :: ps => (mkSimLink (sl_clock w) ps (sl_sent w), Ok p)
    | [] => (w, Err TimedOut)
    end;
  l_receive_if_ready := λ w _ _,
    match sl_inbox w with
    | p :: ps => (mkSimLink (sl_clock w) ps (sl_sent w), Ok (Some p))
    | [] => (w, Ok None)
    end;
  l_send := λ w _ p _, (mkSimLink (sl_clock w) (sl_inbox w) (sl_sent w ++ [p]), Ok ());
  l_sleep := λ w d, mkSimLink (sl_clock w + d) (sl_inbox w) (sl_sent w);
|}.

(** A handler that swallows every press. *)
#[export] Instance unit_handler : EventHandler unit := {|
  h_modifier_release_actions := λ _, false;
  h_propose := λ h _ _, Some (h, Wire.Swallow);
  h_causal_trace := λ h _, h;
  h_research_fault := λ h _ _, (h, Fault_None);
  h_delivery := λ h _ _ _ _, h;
  h_reset := λ h _ _, h;
  h_unlocked_epoch := λ h _ _, h;
  h_disconnected := λ h, h;
|}.

Definition sim_identity : Wire.Identity := Wire.mkIdentity 0 [x61] [x62].
Definition sim_scope (generation sequence : Z) : Wire.Scope :=
  Wire.mkScope generation 0 sequence 5000000 9.
Definition sim_hello : Wire.Packet :=
  Wire.mkPacket (Wire.mkScope 0 0 0 0 9) (Wire.Hello sim_identity).
Definition sim_event : Wire.Event := Wire.mkEvent 30 1 7 0 2 0 [].
Definition sim_press : Wire.Packet := Wire.mkPacket (sim_scope 4 2) (Wire.BodyEvent sim_event).
Definition sim_ack : Wire.Packet :=
  Wire.mkPacket (sim_scope 4 2)
    (Wire.BodyOutcome (Wire.mkOutcome Wire.SwallowCommitted 0 30 1 2)).
Definition sim_inbox : list Wire.Packet :=
  [sim_hello; Wire.mkPacket (sim_scope 0 1) (Wire.Reset 8); sim_press; sim_ack;
   Wire.mkPacket (sim_scope 4 3) (Wire.Retire 1)].

Definition sim_start : SimLink * Wire.IoResult Bridge :=
  passive_handshake 3 sim_identity 10000000 (mkSimLink 1000 sim_inbox []).

(** The bridge after the handshake and the link with the packets to come. *)
Definition sim_bridge : Bridge := mkBridge (Some 3) 9 0 0 ∅ ∅ true false.

Lemma sim_start_ok : sim_start = (sim_start.1, Ok sim_bridge).
Proof. vm_compute. reflexivity. Defined.

Definition sim_locked_free : Bridge := set_awaiting false sim_bridge.

Lemma bridge_settles_once_witness :
  ∃ b' w' h' l,
    run_step false true 10000000
      (sim_locked_free, mkSimLink 1000 [sim_press; sim_ack] [], ((), [])) =
      Some ((b', w', (h', l)), Ok ()) ∧
    settles_once l ∧ deliveries l ≠ [] ∧ br_transport b' = Some 3.
Proof.
  destruct (run_step false true 10000000
    (sim_locked_free, mkSimLink 1000 [sim_press; sim_ack] [], ((), []))) as [[s r]|] eqn:E;
    [|exfalso; vm_compute in E; discriminate E].
  destruct (bridge_settles_once _ _ _ _ _ _ _ _ _ E) as (b' & w' & h' & l & -> & Hs & _ & Hr).
  destruct r as [[]|e]; [|exfalso; vm_compute in E; discriminate E].
  exists b', w', h', l. split_and!; [done|done| |apply Hr].
  intros Hl. apply (f_equal (option_map (λ x, deliveries x.1.2.2))) in E. simpl in E.
  rewrite Hl in E. vm_compute in E. discriminate E.
Defined.

Definition sim_ops : list BOp := [BStep true false 2000; BStep false true 10000000; BStep true true 9].

Lemma bridge_never_replays_witness :
  ∃ b w h l, bridge_run (sim_bridge, sim_start.1, ((), [])) sim_ops (b, w, (h, l)) ∧
    length (handled l) = 3%nat ∧ StronglySorted precedes (handled l).
Proof.
  destruct (bridge_do (BStep true false 2000) (sim_bridge, sim_start.1, ((), [])))
    as [[s1 r1]|] eqn:E1; [|exfalso; vm_compute in E1; discriminate E1].
  destruct (bridge_do (BStep false true 10000000) s1) as [[s2 r2]|] eqn:E2;
    [|exfalso; vm_compute in E1; injection E1 as <- _; vm_compute in E2; discriminate E2].
  destruct (bridge_do (BStep true true 9) s2) as [[[[b w] [h l]] r3]|] eqn:E3.
  2: { exfalso. vm_compute in E1. injection E1 as <- _. vm_compute in E2. injection E2 as <- _.
       vm_compute in E3. discriminate E3. }
  exists b, w, h, l.
  assert (bridge_run (sim_bridge, sim_start.1, ((), [])) sim_ops (b, w, (h, l))) as Hr.
  { econstructor; [exact E1|]. econstructor; [exact E2|]. econstructor; [exact E3|].
    constructor. }
  split_and!; [exact Hr| |].
  - vm_compute in E1. injection E1 as <- _. vm_compute in E2. injection E2 as <- _.
    vm_compute in E3. injection E3 as _ _ _ <- _. vm_compute. reflexivity.
  - exact (proj1 (bridge_never_replays 3 sim_identity 10000000 (mkSimLink 1000 sim_inbox [])
      sim_start.1 sim_bridge () sim_ops b w h l sim_start_ok Hr)).
Defined.

(** A reconnection of the closed bridge under another nonce. *)
Definition sim_closed : Bridge := set_transport None sim_bridge.
Definition sim_hello2 : Wire.Packet :=
  Wire.mkPacket (Wire.mkScope 0 0 0 0 12) (Wire.Hello sim_identity).

Lemma reconnect_is_fresh_witness :
  (∃ w b, reconnect sim_closed 5 sim_identity 10000000 (mkSimLink 1000 [sim_hello2] []) =
      (w, Ok b) ∧ br_nonce b = 12 ∧ br_awaiting_reconciliation b = true) ∧
  (∃ s r, run_step true true 5 (sim_closed, mkSimLink 1000 [] [], ((), [])) = Some (s, r) ∧
      succeeded r = false).
Proof.
  split.
  - destruct (reconnect sim_closed 5 sim_identity 10000000 (mkSimLink 1000 [sim_hello2] []))
      as [w [b|e]] eqn:E; [|exfalso; vm_compute in E; discriminate E].
    exists w, b. destruct (proj2 (reconnect_is_fresh sim_closed _ () []) _ _ _ _ _ E)
      as (_ & _ & _ & _ & _ & _ & Ha & _).
    split_and!; [done| |exact Ha]. vm_compute in E. by injection E as _ <-.
  - destruct (run_step true true 5 (sim_closed, mkSimLink 1000 [] [], ((), []))) as [[s r]|] eqn:E;
      [|exfalso; vm_compute in E; discriminate E].
    exists s, r. split; [done|].
    exact (proj1 (proj1 (reconnect_is_fresh sim_closed _ () []) eq_refl _ _ _ _ _ E)).
Defined.
