(* ===== verification/Desktop.v ===== *)
(** * Desktop observations and source work

    packages/linux/src/desktop/mod.rs (focus identities, snapshots, source
    catalogues), the caches of desktop/worker.rs, and the bounded queue of
    packages/cli/src/daemon/source_queue.rs. What the providers behind them observed is
    an argument here. *)

From Stdlib Require Import Strings.Byte.
From S2P Require Import Prelude Event Sink Bytes.

(** [FOCUS_TTL], in nanoseconds *)
Definition FOCUS_TTL : Z := from_millis 500.

Inductive FocusCategory : Type := Wayland | X11Class | KwinResourceClass.

#[export] Instance FocusCategory_eq_dec : EqDecision FocusCategory.
Proof. solve_decision. Defined.

Record FocusIdentity : Type := mkFocusIdentity {
  fi_category : FocusCategory;
  fi_value : string;
}.

#[export] Instance FocusIdentity_eq_dec : EqDecision FocusIdentity.
Proof. solve_decision. Defined.

(** [value.chars().any(char::is_control)] on UTF-8 bytes: U+0000 to U+001F,
    U+007F, and U+0080 to U+009F, whose encoding is 0xC2 0x80 to 0xC2 0x9F. *)
Fixpoint has_control (bs : list byte) : bool :=
  match bs with
  | [] => false
  | b :: bs =>
      bool_decide (byte_val b < 32) || bool_decide (byte_val b = 127) ||
      (bool_decide (byte_val b = 194) &&
       match bs with b1 :: _ => bool_decide (byte_val b1 < 160) | [] => false end) ||
      has_control bs
  end.

(** [valid_id] *)
Definition valid_id (value : string) : bool :=
  let bs := String.list_byte_of_string value in
  negb (bool_decide (bs = [])) && bool_decide (length bs ≤ 4096)%nat && negb (has_control bs).

(** [FocusIdentity::new] *)
Definition FocusIdentity_new (category : FocusCategory) (value : string) : option FocusIdentity :=
  if valid_id value then Some (mkFocusIdentity category value) else None.

Inductive LockHint : Type := Locked | Unlocked | LockUnknown.

Record DesktopSnapshot : Type := mkDesktopSnapshot {
  snap_focus : option FocusIdentity;
  snap_observed_at : Z;
  snap_lock_hint : LockHint;
}.

(** [DesktopSnapshot::current_focus] *)
Definition current_focus (self : DesktopSnapshot) (now : Z) : option FocusIdentity :=
  if bool_decide (now - snap_observed_at self ≤ FOCUS_TTL) then snap_focus self else None.

(** [DesktopSnapshot::strict_lock_authority] *)
Definition strict_lock_authority (self : DesktopSnapshot) : bool := false.

(** [FocusCache::current]; [readable] is whether [try_read] succeeded. *)
Definition FocusCache_current (state : option DesktopSnapshot) (readable : bool) (now : Z) :
    option FocusIdentity :=
  if readable then snapshot ← state; current_focus snapshot now else None.

(** ** Source catalogues *)

Record Source : Type := mkSource {
  source_id : string;
  source_label : string;
  source_enabled : bool;
}.

#[export] Instance Source_eq_dec : EqDecision Source.
Proof. solve_decision. Defined.

Record SourceCatalog : Type := mkSourceCatalog {
  cat_provider : string;
  cat_generation : string;
  cat_sources : list Source;
  cat_current : option string;
}.

#[export] Instance SourceCatalog_eq_dec : EqDecision SourceCatalog.
Proof. solve_decision. Defined.

Inductive DesktopError : Type :=
  | Unavailable (message : string)
  | DesktopProtocol (message : string)
  | UnknownSource
  | DisabledSource
  | StaleInventory
  | SelectionFailed
  | DesktopIo (message : string).

(** [catalog.sources.iter().find(|source| source.id == id)] *)
Definition find_source (catalog : SourceCatalog) (id : string) : option Source :=
  List.find (λ source, bool_decide (source_id source = id)) (cat_sources catalog).

(** [SourceCatalog::check] *)
Definition SourceCatalog_check (self fresh : SourceCatalog) (id : string) :
    result DesktopError unit :=
  if negb (bool_decide (cat_provider self = cat_provider fresh)) ||
     negb (bool_decide (cat_generation self = cat_generation fresh)) ||
     negb (bool_decide (cat_sources self = cat_sources fresh))
  then Err StaleInventory
  else
    source ← ok_or (find_source fresh id) UnknownSource;
    if source_enabled source then Ok () else Err DisabledSource.

(** [SourceCache::current] *)
Definition SourceCache_current (state : option (SourceCatalog * Z)) (readable : bool) (now : Z) :
    option SourceCatalog :=
  if readable then
    '(catalog, time) ← state;
    if bool_decide (now - time ≤ FOCUS_TTL) then Some catalog else None
  else None.

(** ** The queue *)

Definition CAPACITY : nat := 16.

Record SourceAction : Type := mkSourceAction {
  act_id : string;
  act_catalog : SourceCatalog;
}.

(** [SourceQueue]: the channel's buffer, whether its receiver is gone, and the stop
    flag. The cache is read through [SourceCache_current]. *)
Record SourceQueue : Type := mkSourceQueue {
  sq_actions : list SourceAction;
  sq_disconnected : bool;
  sq_stopped : bool;
}.

(** [SyncSender::try_send] on a channel of [CAPACITY], with its error as printed. *)
Definition try_send (self : SourceQueue) (a : SourceAction) : result string SourceQueue :=
  if sq_disconnected self then Err "sending on a closed channel"
  else if bool_decide (CAPACITY ≤ length (sq_actions self))%nat
  then Err "sending on a full channel"
  else Ok (mkSourceQueue (sq_actions self ++ [a]) (sq_disconnected self) (sq_stopped self)).

(** [SourceQueue::submit_captured] *)
Definition submit_captured (self : SourceQueue) (id : string) (catalog : SourceCatalog) :
    SourceQueue * result BackendError unit :=
  if sq_stopped self then (self, Err (Inject "source worker stopped"))
  else
    match try_send self (mkSourceAction id catalog) with
    | Ok q => (q, Ok ())
    | Err error => (self, Err (Inject (String.append "source queue admission failed: " error)))
    end.

(** [SourceQueue::submit] on what the cache returns. *)
Definition submit (self : SourceQueue) (current : option SourceCatalog) (id : string) :
    SourceQueue * result BackendError unit :=
  match current with
  | None => (self, Err (Inject "source inventory unavailable or expired"))
  | Some catalog =>
      match find_source catalog id with
      | None => (self, Err (UnknownInputSource id))
      | Some source =>
          if source_enabled source then submit_captured self id catalog
          else (self, Err (Inject "disabled input source"))
      end
  end.

(** One round of the worker's loop: the oldest action is taken and selected with
    the inventory it was queued with. *)
Definition worker_take (self : SourceQueue) : SourceQueue * option SourceAction :=
  if sq_stopped self then (self, None)
  else
    match sq_actions self with
    | [] => (self, None)
    | a :: l => (mkSourceQueue l (sq_disconnected self) (sq_stopped self), Some a)
    end.

(** ** Admission is exact and bounded *)

(** The branches of [submit] that refuse. *)
Ltac refused :=
  split_and!; [done| |done]; split; [done|];
  intros (? & ? & ? & ? & ? & ? & ? & ? & ? & ? & ? & ?); simplify_eq/=; first [lia|congruence].

(** A source action is admitted exactly when it can be honoured as queued: the
    worker runs, the inventory is fresh (observed at most half a second ago) and lists
    the source as enabled, and the queue has room for it; it is then the last of at
    most sixteen actions and carries that very inventory, against which a later
    selection is checked: an inventory that changed since (provider, generation or
    entries) is refused as stale, never reinterpreted. Every refusal leaves the queue
    as it was. *)
Theorem source_admission_exact q cache readable now id :
  (length (sq_actions q) ≤ CAPACITY)%nat →
  let '(q', r) := submit q (SourceCache_current cache readable now) id in
  (length (sq_actions q') ≤ CAPACITY)%nat ∧
  (r = Ok () ↔
     sq_stopped q = false ∧ sq_disconnected q = false ∧
     (length (sq_actions q) < CAPACITY)%nat ∧ readable = true ∧
     ∃ catalog time source, cache = Some (catalog, time) ∧ now - time ≤ FOCUS_TTL ∧
       find_source catalog id = Some source ∧ source_enabled source = true ∧
       sq_actions q' = sq_actions q ++ [mkSourceAction id catalog] ∧
       ∀ fresh, SourceCatalog_check catalog fresh id = Ok () ↔
         cat_provider fresh = cat_provider catalog ∧
         cat_generation fresh = cat_generation catalog ∧
         cat_sources fresh = cat_sources catalog) ∧
  (r ≠ Ok () → q' = q).
Proof.
  intros Hq.
  assert (∀ catalog fresh source, find_source catalog id = Some source →
    source_enabled source = true →
    (SourceCatalog_check catalog fresh id = Ok () ↔
       cat_provider fresh = cat_provider catalog ∧
       cat_generation fresh = cat_generation catalog ∧
       cat_sources fresh = cat_sources catalog)) as Hcheck.
  { intros catalog fresh source Hf He. unfold SourceCatalog_check. split.
    - destruct (_ || _) eqn:Hg; [done|]. by bools.
    - intros (Ep & Eg & Es). rewrite !bool_decide_true by done. simpl.
      unfold find_source in *. rewrite Es, Hf. simpl. by rewrite He. }
  unfold submit, SourceCache_current, submit_captured, try_send.
  destruct readable; [|refused]. destruct cache as [[catalog time]|]; simpl; [|refused].
  case_bool_decide as Ht; [|refused].
  destruct (find_source catalog id) as [source|] eqn:Hf; [|refused].
  destruct (source_enabled source) eqn:He; [|refused].
  destruct (sq_stopped q) eqn:Hs; [refused|].
  destruct (sq_disconnected q) eqn:Hd; simpl; [refused|]. case_bool_decide as Hc; [refused|].
  split_and!; [simpl; rewrite length_app; simpl; lia| |done].
  split; [intros _|done]. split_and!; try done; [lia|].
  exists catalog, time, source. split_and!; try done. intros fresh. by eapply Hcheck.
Qed.

Definition us_catalog : SourceCatalog :=
  mkSourceCatalog "ibus" "1" [mkSource "us" "English" true] None.

Definition empty_queue : SourceQueue := mkSourceQueue [] false false.

Lemma source_admission_exact_witness :
  let '(q', r) := submit empty_queue (SourceCache_current (Some (us_catalog, 5)) true 9) "us" in
  (length (sq_actions q') ≤ CAPACITY)%nat ∧ r = Ok ().
Proof.
  pose proof (source_admission_exact empty_queue (Some (us_catalog, 5)) true 9 "us"
    ltac:(vm_compute; lia)) as H.
  destruct (submit empty_queue _ "us") as [q' r] eqn:E. split; [apply H|].
  apply (f_equal snd) in E. simpl in E. rewrite <- E. vm_compute. reflexivity.
Defined.
