(* ===== verification/Budget.v ===== *)
(** * Operation budgets and the desktop worker (packages/linux/src/desktop:
      operation.rs and worker.rs)

    Every desktop operation runs under a stack of budgets, one per enclosing scope: a
    deadline and a stop flag. The worker thread polls its provider under such a budget
    and publishes what it observed in two caches; source actions are dispatched to the
    provider the same way. The clock, the flags and the provider's mutex are operations
    of the class [Operations], the provider those of [Provider]. *)

From S2P Require Import Prelude Event Sink Bytes Desktop.

(** [IPC_TIMEOUT] and [SLICE], in nanoseconds *)
Definition IPC_TIMEOUT : Z := from_millis 400.
Definition SLICE : Z := from_millis 10.

Inductive LockAttempt : Type := LockTaken | LockPoisoned | LockBusy.

Class Operations (W : Type) : Type := {
  (** [Instant::now] *)
  op_now : W → W * Z;
  (** [AtomicBool::load] of a stop flag, and its [store(true)] *)
  op_stopped : W → nat → W * bool;
  op_stop : W → nat → W;
  (** The provider's mutex: [try_lock], and the drop of its guard *)
  op_try_lock : W → W * LockAttempt;
  op_unlock : W → W;
  (** [thread::sleep] *)
  op_sleep : W → Z → W;
}.

(** [struct Budget]; a flag that is shared with nobody, and so never raised, is [None]. *)
Record Budget : Type := mkBudget { bg_deadline : Z; bg_stopped : option nat }.

Section operations.
Context {W : Type} `{Operations W}.

(** The world and the thread's budgets; [None] is a loop that still runs. *)
Definition OSt : Type := W * list Budget.
Definition OP (X : Type) : Type := OSt → option (OSt * result DesktopError X).
#[global] Instance OP_ret : MRet OP := λ X x s, Some (s, Ok x).
#[global] Instance OP_bind : MBind OP := λ X Y f m s,
  match m s with
  | Some (s, Ok x) => f x s
  | Some (s, Err e) => Some (s, Err e)
  | None => None
  end.
Definition op_fail {X} (e : DesktopError) : OP X := λ s, Some (s, Err e).
Definition op_call {X} (f : W → W * result DesktopError X) : OP X := λ '(w, bs),
  let '(w, r) := f w in Some ((w, bs), r).

(** [budget.stopped.load(..)] *)
Definition load_stopped (w : W) (stopped : option nat) : W * bool :=
  match stopped with Some flag => op_stopped w flag | None => (w, false) end.

(** The loop of [remaining] over the budgets, outermost first. *)
Fixpoint least_left (rest : Z) (bs : list Budget) (w : W) : W * result DesktopError Z :=
  match bs with
  | [] => (w, Ok rest)
  | b :: bs =>
      match load_stopped w (bg_stopped b) with
      | (w, true) => (w, Err (Unavailable "desktop operation cancelled"))
      | (w, false) =>
          let '(w, now) := op_now w in
          least_left (Z.min rest (Z.max 0 (bg_deadline b - now))) bs w
      end
  end.

(** [remaining] *)
Definition remaining_budget : OP Z := λ '(w, bs),
  match least_left IPC_TIMEOUT bs w with
  | (w, Err e) => Some ((w, bs), Err e)
  | (w, Ok rest) =>
      if bool_decide (rest = 0)
      then Some ((w, bs), Err (Unavailable "desktop operation deadline"))
      else Some ((w, bs), Ok rest)
  end.

(** [scope]: the budget is pushed, and popped when the guard is dropped. *)
Definition op_scope {X} (stopped : option nat) (m : OP X) : OP X := λ '(w, bs),
  let '(w, now) := op_now w in
  match m (w, bs ++ [mkBudget (now + IPC_TIMEOUT) stopped]) with
  | Some ((w, bs), r) => Some ((w, removelast bs), r)
  | None => None
  end.

(** [run] *)
Definition op_run {X} (stopped : nat) (operation : OP X) : OP X :=
  op_scope (Some stopped)
    (remaining_budget ≫= λ _,
     operation ≫= λ result,
     remaining_budget ≫= λ _, mret result).

(** [lock], of a mutex with these operations; a guard that is dropped on the way out
    unlocks. *)
Fixpoint lock_with (try_lock : W → W * LockAttempt) (unlock : W → W) (fuel : nat) : OP unit :=
  match fuel with
  | O => λ _, None
  | S fuel =>
      mbind (M := OP) (A := Z) (B := unit) (λ rest '(w, bs),
      match try_lock w with
      | (w, LockTaken) =>
          match remaining_budget (w, bs) with
          | Some ((w, bs), Ok _) => Some ((w, bs), Ok ())
          | Some ((w, bs), Err e) => Some ((unlock w, bs), Err e)
          | None => None
          end
      | (w, LockPoisoned) => Some ((w, bs), Err (Unavailable "poisoned lock: another task failed inside"))
      | (w, LockBusy) => lock_with try_lock unlock fuel (op_sleep w (Z.min rest SLICE), bs)
      end) remaining_budget
  end.
Definition op_lock : nat → OP unit := lock_with op_try_lock op_unlock.

(** A call on the locked provider; the guard is dropped after it. *)
Definition locked {X} (fuel : nat) (m : OP X) : OP X :=
  mbind (M := OP) (A := unit) (B := X) (λ _ s,
    match m s with
    | Some ((w, bs), r) => Some ((op_unlock w, bs), r)
    | None => None
    end) (op_lock fuel).

(** [adapter_scope]: a scope with a flag of its own *)
Definition adapter_scope {X} (m : OP X) : OP X := op_scope None m.
End operations.

(** [trait DesktopProvider] *)
Class Provider (W : Type) : Type := {
  pv_poll : OP (W := W) DesktopSnapshot;
  pv_sources : OP (W := W) SourceCatalog;
  pv_select : SourceCatalog → string → OP (W := W) unit;
}.

(** ** Source dispatch (worker.rs) *)

Section dispatcher.
Context {W : Type} `{Operations W, Provider W}.

(** [SourceDispatcher::catalog], [select] and [select_current] *)
Definition dispatcher_catalog (fuel stopped : nat) : OP (W := W) SourceCatalog :=
  op_run stopped (locked fuel pv_sources).
Definition dispatcher_select (fuel stopped : nat) (catalog : SourceCatalog) (id : string) :
    OP (W := W) unit :=
  op_run stopped (locked fuel (pv_select catalog id)).
Definition dispatcher_select_current (fuel stopped : nat) (id : string) : OP (W := W) unit :=
  op_run stopped (locked fuel (pv_sources ≫= λ catalog, pv_select catalog id)).

(** ** The worker thread *)

(** What the caches hold. *)
Record Caches : Type := mkCaches {
  ca_focus : option DesktopSnapshot;
  ca_sources : option (SourceCatalog * Z);
}.
Definition Caches_empty : Caches := mkCaches None None.

(** [m.ok()] *)
Definition attempt {X} (m : OP (W := W) X) (s : OSt) : option (OSt * option X) :=
  match m s with
  | Some (s, Ok x) => Some (s, Some x)
  | Some (s, Err _) => Some (s, None)
  | None => None
  end.

(** [observed.filter(|_| remaining().is_ok())], which asks only when there is one *)
Definition within_budget {X} (observed : option X) (s : OSt) : option (OSt * option X) :=
  match observed with
  | None => Some (s, None)
  | Some x =>
      '(s, rest) ← attempt remaining_budget s;
      Some (s, match rest with Some _ => Some x | None => None end)
  end.

(** One round of the loop, under its budget: what it writes to the caches. *)
Definition worker_round (fuel : nat) (s : OSt) : option (OSt * Caches) :=
  '(s, observed) ← attempt (locked fuel pv_poll) s;
  '(s, observation) ← within_budget observed s;
  let '(w, started) := op_now s.1 in
  let s := (w, s.2) in
  '(s, catalog) ←
    match observation with
    | Some _ => attempt (locked fuel pv_sources) s
    | None => Some (s, None)
    end;
  '(s, catalog) ← within_budget catalog s;
  Some (s, mkCaches observation ((λ catalog, (catalog, started)) <$> catalog)).

(** [for _ in 0..10 { if stopped { break; } sleep(SLICE); }] *)
Fixpoint worker_pause (slices stopped : nat) (w : W) : W :=
  match slices with
  | O => w
  | S slices =>
      match op_stopped w stopped with
      | (w, true) => w
      | (w, false) => worker_pause slices stopped (op_sleep w SLICE)
      end
  end.

(** The scope of a round: the budget is dropped at its end. *)
Definition worker_scope (fuel stopped : nat) (s : OSt) : option (OSt * Caches) :=
  let '(w, bs) := s in
  let '(w, now) := op_now w in
  '(s, c) ← worker_round fuel (w, bs ++ [mkBudget (now + IPC_TIMEOUT) (Some stopped)]);
  Some ((worker_pause 10 stopped s.1, removelast s.2), c).

(** The thread: it clears both caches when it ends. *)
Fixpoint worker_run (rounds fuel stopped : nat) (s : OSt) : option (OSt * Caches) :=
  match rounds with
  | O => None
  | S rounds =>
      let '(w, bs) := s in
      match op_stopped w stopped with
      | (w, true) => Some ((w, bs), Caches_empty)
      | (w, false) =>
          '(s, _) ← worker_scope fuel stopped (w, bs);
          worker_run rounds fuel stopped s
      end
  end.
End dispatcher.
