(* ===== verification/BudgetThm.v ===== *)
(** * Desktop operations stay within their budgets

    A nested scope never outlives an enclosing one, the wait for the provider ends, and a
    source action reaches the provider at most once; a stopped dispatcher selects nothing.
    The rules [op_wp_*] are a logic of total correctness for desktop operations. *)

From S2P Require Import Prelude Event Sink Bytes Desktop Budget.

(** What is assumed of the clock, the flags and the mutex: time does not run backwards, a
    sleep lasts as long as asked, a raised flag stays raised, and none of them sends
    anything. [E] is what leaves the process, [trace] what has left it. *)
Class OperationsLaws (W E : Type) `{Operations W} : Type := {
  clock : W → Z;
  raised : W → nat → bool;
  trace : W → list E;
  onward : list E → W → W → Prop := λ l w w',
    clock w ≤ clock w' ∧ (∀ f, raised w f = true → raised w' f = true) ∧
    trace w' = trace w ++ l;
  now_later w w' t : op_now w = (w', t) → onward [] w w' ∧ clock w ≤ t ≤ clock w';
  stopped_later w f w' b :
    op_stopped w f = (w', b) → onward [] w w' ∧ (raised w f = true → b = true);
  try_lock_later w : onward [] w (op_try_lock w).1;
  unlock_later w : onward [] w (op_unlock w);
  sleep_later w d : 0 ≤ d → onward [] w (op_sleep w d) ∧ clock w + d ≤ clock (op_sleep w d);
}.
Abbreviation later := (onward []).

(** The flag of a budget. *)
Definition is_raised {W E} `{OperationsLaws W E} (w : W) (stopped : option nat) : bool :=
  match stopped with Some f => raised w f | None => false end.

(** ** A logic of total correctness *)

(** [m] returns from [s], and what it returns satisfies [Q]. *)
Definition op_wp {W X} (m : OP (W := W) X) (Q : OSt → result DesktopError X → Prop) (s : OSt) : Prop :=
  ∃ s' r, m s = Some (s', r) ∧ Q s' r.

Lemma op_wp_mono {W X} (m : OP (W := W) X) (Q Q' : OSt → result DesktopError X → Prop) s :
  op_wp m Q s → (∀ s' r, Q s' r → Q' s' r) → op_wp m Q' s.
Proof. intros (s' & r & Hm & HQ) Himp. exists s', r. auto. Qed.

Lemma op_wp_ret {W X} (x : X) (Q : OSt → result DesktopError X → Prop) (s : OSt (W := W)) :
  Q s (Ok x) → op_wp (mret x) Q s.
Proof. intros HQ. by exists s, (Ok x). Qed.

Lemma op_wp_fail {W X} e (Q : OSt → result DesktopError X → Prop) (s : OSt (W := W)) :
  Q s (Err e) → op_wp (op_fail e) Q s.
Proof. intros HQ. by exists s, (Err e). Qed.

Lemma op_wp_bind {W X Y} (m : OP (W := W) X) (f : X → OP Y) (Q : OSt → result DesktopError Y → Prop) s :
  op_wp m (λ s' r, match r with Ok x => op_wp (f x) Q s' | Err e => Q s' (Err e) end) s →
  op_wp (m ≫= f) Q s.
Proof.
  intros (s' & r & Hm & HQ). unfold op_wp, mbind, OP_bind. rewrite Hm.
  destruct r as [x|e]; [done|by exists s', (Err e)].
Qed.

Section budget.
Context {W E : Type} `{OperationsLaws W E}.
Implicit Types (w : W) (bs : list Budget) (l : list E).

Lemma onward_trans l1 l2 w1 w2 w3 : onward l1 w1 w2 → onward l2 w2 w3 → onward (l1 ++ l2) w1 w3.
Proof.
  intros (Hc & Hr & Hs) (Hc' & Hr' & Hs'). split_and!; [lia|auto|]. by rewrite Hs', Hs, app_assoc.
Qed.
#[export] Instance later_preorder : PreOrder (@onward W E _ _ []).
Proof.
  split; [intros w; split_and!; [lia|auto|by rewrite app_nil_r]|].
  intros w1 w2 w3 Hw1 Hw2. exact (onward_trans [] [] _ _ _ Hw1 Hw2).
Qed.
Lemma onward_later l w1 w2 w3 : onward l w1 w2 → later w2 w3 → onward l w1 w3.
Proof. intros Hw1 Hw2. rewrite <- (app_nil_r l). by eapply onward_trans. Qed.
Lemma later_onward l w1 w2 w3 : later w1 w2 → onward l w2 w3 → onward l w1 w3.
Proof. intros Hw1 Hw2. exact (onward_trans [] l _ _ _ Hw1 Hw2). Qed.

Lemma is_raised_onward l w w' stopped :
  onward l w w' → is_raised w stopped = true → is_raised w' stopped = true.
Proof. intros (_ & Hr & _). destruct stopped; simpl; [auto|done]. Qed.

Lemma load_stopped_later w stopped w' b :
  load_stopped w stopped = (w', b) → later w w' ∧ (is_raised w stopped = true → b = true).
Proof. destruct stopped as [f|]; [apply stopped_later|by intros [= <- <-]]. Qed.

Lemma least_left_spec bs : ∀ limit w,
  match least_left limit bs w with
  | (w', Ok rest) => later w w' ∧ rest ≤ limit ∧ (0 ≤ limit → 0 ≤ rest) ∧
      ∀ b, b ∈ bs → rest ≤ Z.max 0 (bg_deadline b - clock w) ∧ is_raised w (bg_stopped b) = false
  | (w', Err _) => later w w'
  end.
Proof.
  induction bs as [|b bs IH]; intros limit w; simpl; [split_and!; [done|lia|done|set_solver]|].
  destruct (load_stopped w (bg_stopped b)) as [w1 []] eqn:Hs;
    apply load_stopped_later in Hs as [Hl1 Hr]; [done|].
  destruct (op_now w1) as [w2 now] eqn:Hn. apply now_later in Hn as [Hl2 Ht].
  specialize (IH (Z.min limit (Z.max 0 (bg_deadline b - now))) w2).
  destruct (least_left _ bs w2) as [w3 [rest|e]]; [|by transitivity w1; [|transitivity w2]].
  destruct IH as (Hl3 & Hle & Hnn & Hb). assert (later w w2) as Hl by (by transitivity w1).
  pose proof Hl as (Hc & _). pose proof Hl1 as (Hc1 & _).
  split_and!; [by transitivity w2|lia|lia|].
  intros b' [->|Hin]%elem_of_cons.
  - split; [lia|]. destruct (is_raised w (bg_stopped b)); [|done]. by specialize (Hr eq_refl).
  - destruct (Hb b' Hin) as [Hd Hraised]. split; [lia|].
    destruct (is_raised w (bg_stopped b')) eqn:Er; [|done].
    by rewrite (is_raised_onward _ _ _ _ Hl Er) in Hraised.
Qed.

(** [remaining] always answers, and what it answers fits every budget. *)
Lemma remaining_spec w bs :
  ∃ w' r, remaining_budget (w, bs) = Some ((w', bs), r) ∧ later w w' ∧
    match r with
    | Ok rest => 0 < rest ≤ IPC_TIMEOUT ∧
        ∀ b, b ∈ bs → rest ≤ bg_deadline b - clock w ∧ is_raised w (bg_stopped b) = false
    | Err _ => True
    end.
Proof.
  unfold remaining_budget. pose proof (least_left_spec bs IPC_TIMEOUT w) as Hl.
  destruct (least_left IPC_TIMEOUT bs w) as [w1 [rest|e]]; [|by exists w1; eexists].
  destruct Hl as (Hl & Hle & Hnn & Hb). assert (0 ≤ rest) by (apply Hnn; done).
  case_bool_decide as Hz; [by exists w1; eexists|]. eexists w1, (Ok rest). split_and!; [done|done|lia|lia|].
  intros b Hin. destruct (Hb b Hin) as [Hd Hr]. split; [lia|done].
Qed.

(** ** The wait for the provider *)

Section lock.
Context (try_lock : W → W * LockAttempt) (unlock : W → W).
Context (Htry : ∀ w, later w (try_lock w).1) (Hunlock : ∀ w, later w (unlock w)).

Lemma lock_with_spec fuel : ∀ w bs s' r,
  lock_with try_lock unlock fuel (w, bs) = Some (s', r) → s'.2 = bs ∧ later w s'.1 ∧
  (r = Ok () → ∀ b, b ∈ bs → is_raised w (bg_stopped b) = false ∧ clock w < bg_deadline b).
Proof.
  induction fuel as [|fuel IH]; intros w bs s' r; [done|]. cbn [lock_with]. unfold mbind, OP_bind.
  destruct (remaining_spec w bs) as (w1 & r1 & Hrem & Hl1 & Hr1). rewrite Hrem.
  destruct r1 as [rest|e]; [|by intros [= <- <-]]. destruct Hr1 as [Hpos Hb].
  assert (∀ b, b ∈ bs → is_raised w (bg_stopped b) = false ∧ clock w < bg_deadline b) as Hok.
  { intros b Hin. destruct (Hb b Hin). split; [done|lia]. }
  pose proof (Htry w1) as Hl2. destruct (try_lock w1) as [w2 []]; simpl in Hl2.
  - destruct (remaining_spec w2 bs) as (w3 & r3 & Hrem3 & Hl3 & _). rewrite Hrem3.
    assert (later w w3) as Hl by (transitivity w1; [done|by transitivity w2]).
    destruct r3 as [rest3|e]; intros [= <- <-]; [by split_and!|].
    split_and!; [done| |done]. transitivity w3; [done|]. apply Hunlock.
  - intros [= <- <-]. split_and!; [done|by transitivity w1|done].
  - intros Hrec. destruct (IH _ _ _ _ Hrec) as (Hbs & Hl & _). split_and!; [done| |by intros _].
    assert (0 ≤ Z.min rest SLICE) as Hd by (unfold SLICE; change (from_millis 10) with 10000000; lia).
    destruct (sleep_later w2 (Z.min rest SLICE) Hd) as [Hs _].
    transitivity w1; [done|]. transitivity w2; [done|]. by etransitivity.
Qed.

(** The number of rounds that are enough. *)
Lemma lock_with_fuel d : ∀ n w bs, Z.to_nat (d - clock w) = n → (∃ f, mkBudget d f ∈ bs) →
  ∃ s' r, ∀ fuel, (n < fuel)%nat → lock_with try_lock unlock fuel (w, bs) = Some (s', r).
Proof.
  intros n. induction n as [n IH] using lt_wf_ind. intros w bs Hn [f Hin].
  destruct (remaining_spec w bs) as (w1 & r1 & Hrem & Hl1 & Hr1).
  destruct r1 as [rest|e].
  2:{ exists (w1, bs), (Err e). intros [|fuel] Hf; [lia|]. cbn [lock_with]. unfold mbind, OP_bind. by rewrite Hrem. }
  destruct Hr1 as [Hpos Hb]. destruct (Hb _ Hin) as [Hrest _]. simpl in Hrest.
  pose proof (Htry w1) as Hl2. destruct (try_lock w1) as [w2 t] eqn:Ht; simpl in Hl2.
  destruct t.
  - destruct (remaining_spec w2 bs) as (w3 & r3 & Hrem3 & _ & _). destruct r3 as [rest3|e];
      [exists (w3, bs), (Ok ())|exists (unlock w3, bs), (Err e)]; intros [|fuel] Hf; try lia; cbn [lock_with];
      unfold mbind, OP_bind; by rewrite Hrem, Ht, Hrem3.
  - exists (w2, bs), (Err (Unavailable "poisoned lock: another task failed inside")). intros [|fuel] Hf; [lia|]. cbn [lock_with].
    unfold mbind, OP_bind. by rewrite Hrem, Ht.
  - assert (0 < Z.min rest SLICE) as Hd by (unfold SLICE; change (from_millis 10) with 10000000; lia).
    destruct (sleep_later w2 (Z.min rest SLICE)) as [_ Hclock]; [lia|].
    destruct Hl1 as [Hc1 _], Hl2 as [Hc2 _].
    destruct (IH (Z.to_nat (d - clock (op_sleep w2 (Z.min rest SLICE)))) ltac:(lia)
      (op_sleep w2 (Z.min rest SLICE)) bs eq_refl (ex_intro _ f Hin)) as (s' & r & Hs).
    exists s', r. intros [|fuel] Hf; [lia|]. cbn [lock_with]. unfold mbind, OP_bind. rewrite Hrem, Ht.
    apply Hs. lia.
Qed.

(** The lock is taken or refused; under a budget the wait for it ends. *)
Lemma op_wp_lock_with fuel (Q : OSt → result DesktopError unit → Prop) w bs b :
  b ∈ bs → (Z.to_nat (bg_deadline b - clock w) < fuel)%nat →
  (∀ w' r, later w w' →
     (r = Ok () → ∀ b, b ∈ bs → is_raised w (bg_stopped b) = false) → Q (w', bs) r) →
  op_wp (lock_with try_lock unlock fuel) Q (w, bs).
Proof.
  intros Hin Hf HQ. destruct (lock_with_fuel (bg_deadline b) _ w bs eq_refl) as ([w1 bs1] & r & Hl);
    [exists (bg_stopped b); by destruct b|].
  specialize (Hl _ Hf). destruct (lock_with_spec _ w bs (w1, bs1) r Hl) as (Hbs & Hlater & Hok).
  simpl in Hbs, Hlater. subst bs1. exists (w1, bs), r. split; [done|]. apply HQ; [done|].
  intros Hr b' Hb'. by apply (Hok Hr).
Qed.
End lock.

(** ** Scopes and the lock, as rules *)

(** Fuel for every wait under a scope: a round per nanosecond of [IPC_TIMEOUT]. *)
Definition enough (fuel : nat) : Prop := (Z.to_nat IPC_TIMEOUT < fuel)%nat.

Lemma op_wp_remaining (Q : OSt → result DesktopError Z → Prop) w bs :
  (∀ w' r, later w w' →
     (∀ rest, r = Ok rest → 0 < rest ≤ IPC_TIMEOUT ∧
        ∀ b, b ∈ bs → rest ≤ bg_deadline b - clock w ∧ is_raised w (bg_stopped b) = false) →
     Q (w', bs) r) →
  op_wp remaining_budget Q (w, bs).
Proof.
  intros HQ. destruct (remaining_spec w bs) as (w' & r & Hr & Hl & Hs). exists (w', bs), r.
  split; [done|]. apply HQ; [done|]. intros rest ->. exact Hs.
Qed.

(** A scope runs its body under one more budget and gives the others back. *)
Lemma op_wp_scope {X} stopped (m : OP (W := W) X) (Q : OSt → result DesktopError X → Prop) w bs :
  (∀ w1 b, later w w1 → bg_stopped b = stopped → bg_deadline b ≤ clock w1 + IPC_TIMEOUT →
     clock w + IPC_TIMEOUT ≤ bg_deadline b →
     op_wp m (λ s r, s.2 = bs ++ [b] ∧ Q (s.1, bs) r) (w1, bs ++ [b])) →
  op_wp (op_scope stopped m) Q (w, bs).
Proof.
  intros Hm. unfold op_wp, op_scope. destruct (op_now w) as [w1 now] eqn:Hn.
  apply now_later in Hn as [Hl Ht].
  destruct (Hm w1 (mkBudget (now + IPC_TIMEOUT) stopped) Hl eq_refl) as ([w2 bs2] & r & Hr & Hbs & HQ);
    [simpl; lia..|].
  simpl in Hbs. subst bs2. rewrite Hr. exists (w2, bs), r. by rewrite removelast_last.
Qed.

Lemma op_wp_lock fuel (Q : OSt → result DesktopError unit → Prop) w bs b :
  b ∈ bs → (Z.to_nat (bg_deadline b - clock w) < fuel)%nat →
  (∀ w' r, later w w' →
     (r = Ok () → ∀ b, b ∈ bs → is_raised w (bg_stopped b) = false) → Q (w', bs) r) →
  op_wp (op_lock fuel) Q (w, bs).
Proof. apply op_wp_lock_with; [apply try_lock_later|apply unlock_later]. Qed.
End budget.

(** ** What a provider promises *)

(** The contract of [DesktopProvider] for the worker and the dispatcher: each method
    returns, with the caller's budgets; polling and listing select nothing; [select]
    sends at most one selection, of the source it was asked for, and has done so when it
    answers [Ok]. *)
Class ProviderLaws (W E : Type) `{OperationsLaws W E, Provider W} : Type := {
  selection : E → bool;
  selects : SourceCatalog → string → E → Prop;
  poll_returns w bs : op_wp pv_poll (λ s _, s.2 = bs ∧
    ∃ l, onward l w s.1 ∧ List.filter selection l = []) (w, bs);
  sources_returns w bs : op_wp pv_sources (λ s _, s.2 = bs ∧
    ∃ l, onward l w s.1 ∧ List.filter selection l = []) (w, bs);
  select_returns w bs catalog id : op_wp (pv_select catalog id) (λ s r, s.2 = bs ∧
    ∃ l, onward l w s.1 ∧
      (List.filter selection l = [] ∧ r ≠ Ok () ∨
       ∃ e, List.filter selection l = [e] ∧ selects catalog id e)) (w, bs);
}.

Section dispatch.
Context {W E : Type} `{ProviderLaws W E}.
Implicit Types (w : W) (bs : list Budget) (l : list E).

(** An operation under [run]. *)
Lemma op_wp_run {X} (m : OP (W := W) X) (I : W → result DesktopError X → Prop) stopped w bs :
  (∀ w1 bs1, later w w1 → op_wp m (λ s r, s.2 = bs1 ∧ I s.1 r) (w1, bs1)) →
  (∀ w1 w2 r, I w1 r → later w1 w2 → I w2 r) →
  (∀ w1 r e, I w1 r → I w1 (Err e)) → (∀ w1 e, later w w1 → I w1 (Err e)) →
  op_wp (op_run stopped m)
    (λ s r, s.2 = bs ∧ I s.1 r ∧ (raised w stopped = true → later w s.1 ∧ ∃ e, r = Err e)) (w, bs).
Proof.
  intros Hm Hlater Herr Hnone. apply op_wp_scope. intros w1 b Hl1 Hb Hd _.
  apply op_wp_bind, op_wp_remaining. intros w2 r2 Hl2 Hr2. assert (later w w2) as Hlw2 by (by transitivity w1).
  destruct r2 as [rest|e]; [|split_and!; eauto].
  assert (raised w stopped = true → False) as Hlive.
  { intros Hr. destruct (Hr2 rest eq_refl) as [_ Hall]. destruct (Hall b ltac:(set_solver)) as [_ Hno].
    rewrite Hb in Hno. by rewrite (is_raised_onward [] w w1 (Some stopped) Hl1 Hr) in Hno. }
  apply op_wp_bind. eapply op_wp_mono; [by apply Hm|]. intros [w3 bs3] r3 [Hbs HI]. simpl in Hbs, HI. subst bs3.
  destruct r3 as [x|e]; [|split_and!; [done..|by intros ?%Hlive]].
  apply op_wp_bind, op_wp_remaining. intros w4 r4 Hl4 _. assert (I w4 (Ok x)) as HI4 by (by eapply Hlater).
  destruct r4 as [rest'|e]; [apply op_wp_ret|]; (split_and!; [done..| |by intros ?%Hlive]); [done|by eapply Herr].
Qed.

(** A call on the provider under [run]: it was refused and the provider was not touched,
    or the operation was not cancelled and it ran once. *)
Lemma op_wp_run_locked {X} fuel (m : OP (W := W) X) (I : W → result DesktopError X → Prop) stopped w bs :
  enough fuel →
  (∀ w1 bs1, later w w1 → op_wp m (λ s r, s.2 = bs1 ∧ I s.1 r) (w1, bs1)) →
  (∀ w1 w2 r, I w1 r → later w1 w2 → I w2 r) →
  (∀ w1 r e, I w1 r → I w1 (Err e)) → (∀ w1 e, later w w1 → I w1 (Err e)) →
  op_wp (op_run stopped (locked fuel m))
    (λ s r, s.2 = bs ∧ I s.1 r ∧ (raised w stopped = true → later w s.1 ∧ ∃ e, r = Err e)) (w, bs).
Proof.
  intros Hf Hm Hlater Herr Hnone. apply op_wp_scope. intros w1 b Hl1 Hb Hd _.
  assert (b ∈ bs ++ [b]) as Hin by set_solver.
  assert (∀ w' e, later w w' → (w', bs ++ [b]).2 = bs ++ [b] ∧ ((w', bs ++ [b]).1, bs).2 = bs ∧
    I w' (Err e) ∧ (raised w stopped = true → later w w' ∧ ∃ e', Err (A := X) e = Err e')) as Hrefused.
  { intros w' e Hl. split_and!; eauto. }
  apply op_wp_bind, op_wp_remaining. intros w2 r2 Hl2 _.
  assert (later w w2) as Hlw2 by (by transitivity w1).
  destruct r2 as [rest|e]; [|by apply Hrefused].
  apply op_wp_bind. unfold locked. apply op_wp_bind.
  eapply op_wp_lock; [done| |].
  { destruct Hl2 as [Hc _]. unfold enough in Hf. lia. }
  intros w3 r3 Hl3 Hlive. assert (later w w3) as Hlw3 by (by transitivity w2).
  destruct r3 as [[]|e]; [|by apply Hrefused].
  assert (raised w stopped = true → False) as Hraised.
  { intros Hr. assert (is_raised w2 (bg_stopped b) = true) as Hr2.
    { rewrite Hb. by apply (is_raised_onward [] w w2 (Some stopped)). }
    by rewrite (Hlive eq_refl b Hin) in Hr2. }
  destruct (Hm w3 (bs ++ [b]) Hlw3) as ([w4 bs4] & r4 & Hrun & Hbs & HI). simpl in Hbs, HI. subst bs4.
  exists (op_unlock w4, bs ++ [b]), r4. rewrite Hrun. split; [done|].
  assert (I (op_unlock w4) r4) as HI' by (eapply Hlater; [done|apply unlock_later]).
  destruct r4 as [x|e]; [|split_and!; [done..|by intros Hr; destruct (Hraised Hr)]].
  apply op_wp_bind, op_wp_remaining. intros w5 r5 Hl5 _.
  assert (I w5 (Ok x)) as HI5 by (by eapply Hlater).
  destruct r5 as [rest'|e]; [apply op_wp_ret|]; (split_and!; [done..| |by intros Hr; destruct (Hraised Hr)]).
  - exact HI5.
  - exact (Herr _ _ e HI5).
Qed.

Lemma dispatch_once fuel stopped catalog id w bs :
  enough fuel →
  op_wp (dispatcher_select fuel stopped catalog id) (λ s r, s.2 = bs ∧ ∃ l, onward l w s.1 ∧
    (List.filter selection l = [] ∧ r ≠ Ok () ∨
     ∃ e, List.filter selection l = [e] ∧ selects catalog id e) ∧
    (raised w stopped = true → l = [] ∧ ∃ e, r = Err e)) (w, bs).
Proof.
  intros Hf. eapply op_wp_mono.
  { apply (op_wp_run_locked fuel (pv_select catalog id)
      (λ w' r, ∃ l, onward l w w' ∧ (List.filter selection l = [] ∧ r ≠ Ok () ∨
         ∃ e, List.filter selection l = [e] ∧ selects catalog id e)) stopped w bs Hf).
    - intros w1 bs1 Hl. eapply op_wp_mono; [apply select_returns|]. intros s r (Hbs & l & Ho & HI).
      split; [done|]. exists l. split; [by eapply later_onward|done].
    - intros w1 w2 r (l & Ho & HI) Hl. exists l. split; [by eapply onward_later|done].
    - intros w1 r e (l & Ho & HI). exists l. split; [done|]. destruct HI as [[Hl _]|Hsel]; [by left|by right].
    - intros w1 e Hl. exists []. by split; [|left]. }
  intros [w' bs'] r (Hbs & (l & Ho & HI) & Hraised). split; [done|]. exists l. split_and!; [done|done|].
  intros Hs. destruct (Hraised Hs) as [(_ & _ & Hsame) He]. split; [|done].
  destruct Ho as (_ & _ & Ht). cbn [fst snd] in Hsame, Ht. rewrite app_nil_r in Hsame. rewrite Hsame in Ht.
  by apply (app_inv_head (trace w)); rewrite app_nil_r.
Qed.

(** A source action reaches the provider at most once and always returns. With more
    rounds than there are nanoseconds in [IPC_TIMEOUT], [select] comes back with the
    caller's budgets as they were; what it sent holds no selection, or exactly one, of
    the queued source of the queued inventory, and an [Ok] means the latter; once the
    dispatcher is stopped, nothing is sent and the answer is an error. *)
Theorem dispatch_selects_once fuel stopped catalog id w bs :
  enough fuel →
  ∃ w' r l, dispatcher_select fuel stopped catalog id (w, bs) = Some ((w', bs), r) ∧
    trace w' = trace w ++ l ∧
    (List.filter selection l = [] ∧ r ≠ Ok () ∨
     ∃ e, List.filter selection l = [e] ∧ selects catalog id e) ∧
    (raised w stopped = true → l = [] ∧ ∃ e, r = Err e).
Proof.
  intros Hf. destruct (dispatch_once fuel stopped catalog id w bs Hf)
    as ([w' bs'] & r & Hr & Hbs & l & (_ & _ & Ht) & HI & Hraised).
  simpl in Hbs, Ht. subst bs'. by exists w', r, l.
Qed.
End dispatch.

(** A nested scope never renews the time. Under any stack of budgets, [remaining]
    answers at once: with an error, or with a positive time of at most [IPC_TIMEOUT]
    that does not reach beyond any of the enclosing deadlines, and then no enclosing
    operation had been cancelled. *)
Theorem budgets_nest {W E} `{OperationsLaws W E} (w : W) bs :
  ∃ w' r, remaining_budget (w, bs) = Some ((w', bs), r) ∧
    match r with
    | Ok rest => 0 < rest ≤ IPC_TIMEOUT ∧
        ∀ b, b ∈ bs → clock w + rest ≤ bg_deadline b ∧ is_raised w (bg_stopped b) = false
    | Err _ => True
    end.
Proof.
  destruct (remaining_spec w bs) as (w' & r & Hr & _ & Hs). exists w', r. split; [done|].
  destruct r as [rest|e]; [|done]. destruct Hs as [Hp Hb]. split; [done|].
  intros b Hin. destruct (Hb b Hin). split; [lia|done].
Qed.

(** The wait for a provider that another thread holds ends: inside any scope with
    deadline [d], [lock] returns after at most as many rounds as there are nanoseconds
    left, whether it got the lock, was cancelled or ran out of time. *)
Theorem lock_wait_ends {W E} `{OperationsLaws W E} (w : W) bs b :
  b ∈ bs →
  ∃ s' r, ∀ fuel, (Z.to_nat (bg_deadline b - clock w) < fuel)%nat →
    op_lock fuel (w, bs) = Some (s', r).
Proof.
  intros Hb. apply (lock_with_fuel op_try_lock op_unlock try_lock_later (bg_deadline b) _ w bs eq_refl). exists (bg_stopped b). by destruct b. Qed.

(** ** A simulated desktop

    A clock that each call moves on by a microsecond, a provider that another thread
    holds until [dk_busy], a set of raised flags and the selections made so far. *)
Record Bench : Type := mkBench {
  dk_clock : Z; dk_busy : Z; dk_raised : list nat; dk_chosen : list (SourceCatalog * string);
}.
Definition dk_after (w : Bench) (d : Z) : Bench :=
  mkBench (dk_clock w + Z.max 0 d) (dk_busy w) (dk_raised w) (dk_chosen w).

#[export] Instance Bench_operations : Operations Bench := {|
  op_now w := (dk_after w 1000, dk_clock w);
  op_stopped w f := (w, bool_decide (f ∈ dk_raised w));
  op_stop w f := mkBench (dk_clock w) (dk_busy w) (f :: dk_raised w) (dk_chosen w);
  op_try_lock w :=
    (dk_after w 1000, if bool_decide (dk_busy w ≤ dk_clock w) then LockTaken else LockBusy);
  op_unlock w := w;
  op_sleep := dk_after;
|}.

Definition desk_catalog : SourceCatalog :=
  mkSourceCatalog "sim" "1" [mkSource "us" "English" true] (Some "us").

#[export] Instance Bench_provider : Provider Bench := {|
  pv_poll := op_fail (Unavailable "no focus");
  pv_sources := mret desk_catalog;
  pv_select c id := λ '(w, bs),
    Some ((mkBench (dk_clock w + 1000) (dk_busy w) (dk_raised w) (dk_chosen w ++ [(c, id)]), bs), Ok ());
|}.

#[export, refine] Instance Bench_laws : OperationsLaws Bench (SourceCatalog * string) := {|
  clock := dk_clock;
  raised w f := bool_decide (f ∈ dk_raised w);
  trace := dk_chosen;
|}.
Proof.
  all: intros; simplify_eq/=; repeat split; simpl; intros; rewrite ?app_nil_r; try done; try lia.
Defined.

#[export, refine] Instance Bench_provider_laws : ProviderLaws Bench (SourceCatalog * string) := {|
  selection _ := true;
  selects c id e := e = (c, id);
|}.
Proof.
  - intros w bs. apply op_wp_fail. split; [done|]. exists []. by split; [reflexivity|].
  - intros w bs. apply op_wp_ret. split; [done|]. exists []. by split; [reflexivity|].
  - intros w bs c id. eexists _, _. split; [reflexivity|]. split; [done|]. exists [(c, id)].
    split; [split_and!; [simpl; lia|done|done]|]. right. by eexists.
Defined.

Lemma lock_wait_ends_witness :
  let w := mkBench 0 (from_millis 25) [] [] in
  let b := mkBudget (from_millis 400) None in
  (∃ s' r, ∀ fuel, (Z.to_nat (bg_deadline b - clock w) < fuel)%nat →
     op_lock fuel (w, [b]) = Some (s', r)) ∧
  snd <$> op_lock 10 (w, [b]) = Some (Ok ()).
Proof.
  intros w b. split; [|vm_compute; reflexivity].
  apply (lock_wait_ends w [b] b). apply list_elem_of_here.
Defined.

(** The simulated provider, busy for 25 ms: the selection arrives; not once stopped. *)
Example desk_select :
  (λ o, (dk_chosen o.1.1, o.2)) <$>
    dispatcher_select 10 7 desk_catalog "us" (mkBench 0 (from_millis 25) [] [], []) =
  Some ([(desk_catalog, "us")], Ok ()).
Proof. vm_compute. reflexivity. Qed.
Example desk_select_stopped :
  (λ o, (dk_chosen o.1.1, o.2)) <$>
    dispatcher_select 10 7 desk_catalog "us" (mkBench 0 0 [7%nat] [], []) =
  Some ([], Err (Unavailable "desktop operation cancelled")).
Proof. vm_compute. reflexivity. Qed.

Lemma dispatch_selects_once_witness :
  ∃ w' r l, dispatcher_select (S (Z.to_nat IPC_TIMEOUT)) 7 desk_catalog "us"
      (mkBench 0 (from_millis 25) [] [], []) = Some ((w', []), r) ∧
    trace w' = [] ++ l.
Proof.
  destruct (dispatch_selects_once (S (Z.to_nat IPC_TIMEOUT)) 7 desk_catalog "us"
    (mkBench 0 (from_millis 25) [] []) []) as (w' & r & l & Hr & Ht & _).
  - apply Nat.lt_succ_diag_r.
  - exists w', r, l. split; [exact Hr|exact Ht].
Defined.
