(* ===== verification/Json.v ===== *)
(** * JSON documents

    [serde_json::Value], as the desktop clients read it: indexing by key, which yields
    null where there is nothing, and the typed accessors. The printer and the parser of
    serde_json are the class [SerdeJson]. *)

From Stdlib Require Import Strings.Byte.
From S2P Require Import Prelude Bytes.

Local Set Warnings "-register-all".

(** A number that is not an integer is kept as its text. *)
Inductive Value : Type :=
  | VNull
  | VBool (b : bool)
  | VInt (n : Z)
  | VFloat (literal : string)
  | VString (s : string)
  | VArray (items : list Value)
  | VObject (fields : list (string * Value)).

(** [value[key]] *)
Definition field (v : Value) (key : string) : Value :=
  match v with
  | VObject fields =>
      match List.find (λ f, bool_decide (f.1 = key)) fields with
      | Some f => f.2
      | None => VNull
      end
  | _ => VNull
  end.

(** [as_bool], [as_u64], [as_str], [as_array] *)
Definition as_bool (v : Value) : option bool := match v with VBool b => Some b | _ => None end.
Definition as_u64 (v : Value) : option Z :=
  match v with VInt n => if bool_decide (is_u64 n) then Some n else None | _ => None end.
Definition as_str (v : Value) : option string := match v with VString s => Some s | _ => None end.
Definition as_array (v : Value) : option (list Value) :=
  match v with VArray items => Some items | _ => None end.

(** [serde_json::to_string], [from_str] and [from_slice] *)
Class SerdeJson : Type := {
  json_print : Value → string;
  json_parse : string → result string Value;
  json_slice : list byte → result string Value;
}.

(** What the clients rely on: the name of a layout of a device, a string and an index,
    is read back as it was written. *)
Class SerdeJsonLaws `{SerdeJson} : Prop :=
  pair_back d n : is_u64 n →
    json_parse (json_print (VArray [VString d; VInt n])) = Ok (VArray [VString d; VInt n]).

Section pairs.
Context `{SerdeJson}.

(** [serde_json::to_string(&(device, index))] *)
Definition print_pair (device : string) (index : Z) : string :=
  json_print (VArray [VString device; VInt index]).

(** [serde_json::from_str::<(String, usize)>] *)
Definition parse_pair (id : string) : result string (string * Z) :=
  match json_parse id with
  | Err e => Err e
  | Ok (VArray [VString device; VInt index]) =>
      if bool_decide (is_u64 index) then Ok (device, index) else Err "invalid value"
  | Ok _ => Err "invalid type"
  end.
End pairs.

Lemma parse_print_pair `{SerdeJsonLaws} device index :
  is_u64 index → parse_pair (print_pair device index) = Ok (device, index).
Proof. intros Hi. unfold parse_pair, print_pair. rewrite pair_back by done. by rewrite bool_decide_true. Qed.
