(* ===== verification/LocalIpc.v ===== *)
(** * Local sockets of the desktop clients (packages/linux/src/desktop/transport.rs)

    One connection per request, of the same user, with every wait cut into slices and
    bounded by the operation's budgets and a deadline of its own. The socket calls are
    the class [LocalSockets]; a [None] of a loop is one that still runs. *)

From Stdlib Require Import Strings.Byte.
From stdpp Require Import pretty.
From S2P Require Import Prelude Event Sink Bytes Text Desktop Budget Json.
Import Byte(byte).

Definition MAX_MESSAGE : Z := 1024 * 1024.

(** [socket] and [connect] *)
Inductive Opened : Type :=
  | Connected (fd : Z)
  | InProgress (fd : Z)
  | OpenFailed (message : string).

(** [read] and [write] under a timeout; [Again] is [TimedOut] or [WouldBlock]. *)
Inductive Transfer (A : Type) : Type :=
  | Moved (a : A)
  | Again
  | Interrupted
  | TransferFailed (message : string).
#[global] Arguments Moved {A}.
#[global] Arguments Again {A}.
#[global] Arguments Interrupted {A}.
#[global] Arguments TransferFailed {A}.

(** [fs::Metadata], as far as it is read *)
Record SocketFile : Type := mkSocketFile {
  sf_uid : Z; sf_dev : Z; sf_ino : Z; sf_ctime : Z; sf_ctime_nsec : Z;
}.

Class LocalSockets (W : Type) : Type := {
  ls_open : W → string → W * Opened;
  (** [poll(POLLOUT)] for ten milliseconds: whether the socket is ready *)
  ls_writable : W → Z → W * result string bool;
  (** [SO_ERROR]; [Some] is the pending error *)
  ls_socket_error : W → Z → W * result string (option string);
  ls_peer_uid : W → Z → W * result string Z;
  ls_geteuid : W → Z;
  (** [set_nonblocking(false)] *)
  ls_blocking : W → Z → W * result string unit;
  (** [set_read_timeout] and [read] of at most so many bytes; no bytes are the end *)
  ls_read : W → Z → Z → nat → W * Transfer (list byte);
  (** [set_write_timeout] and [write]: how many bytes were taken *)
  ls_write : W → Z → Z → list byte → W * Transfer nat;
  (** [fs::metadata] *)
  ls_metadata : W → string → W * result string SocketFile;
}.

(** [DesktopError]'s [Display], as it is put into an [io::Error] *)
Definition display (e : DesktopError) : string :=
  match e with
  | Unavailable m => String.append "desktop capability unavailable: " m
  | DesktopProtocol m => String.append "desktop protocol error: " m
  | UnknownSource => "unknown input source"
  | DisabledSource => "disabled input source"
  | StaleInventory => "source inventory changed"
  | SelectionFailed => "source selection failed or was not confirmed"
  | DesktopIo m => m
  end.

(** [DeadlineStream] *)
Record DeadlineStream : Type := mkDeadlineStream { ds_socket : Z; ds_deadline : Z }.

(** [format!("{}:{}:{}:{}", ..)] *)
Definition epoch_token (f : SocketFile) : string :=
  String.append (pretty (sf_dev f)) (String.append ":"
    (String.append (pretty (sf_ino f)) (String.append ":"
      (String.append (pretty (sf_ctime f)) (String.append ":" (pretty (sf_ctime_nsec f))))))).

Section ipc.
Context {W : Type} `{Operations W, LocalSockets W, SerdeJson}.

(** A call of the world, and a result as an operation. *)
Definition op_world {X} (f : W → W * X) : OP (W := W) X := λ '(w, bs),
  let '(w, x) := f w in Some ((w, bs), Ok x).
Definition op_lift {X} (r : result DesktopError X) : OP (W := W) X := λ s, Some (s, r).
(** [map_err] of an operation, and [map_err(protocol)] of a result *)
Definition op_map_err {X} (f : DesktopError → DesktopError) (m : OP (W := W) X) : OP X := λ s,
  match m s with
  | Some (s, Err e) => Some (s, Err (f e))
  | r => r
  end.
Definition or_protocol {X} (r : result string X) : result DesktopError X :=
  match r with Ok x => Ok x | Err m => Err (DesktopProtocol m) end.
Definition or_io {X} (r : result string X) : result DesktopError X :=
  match r with Ok x => Ok x | Err m => Err (DesktopIo m) end.

(** What is left for one transfer: [remaining()?.min(deadline - now)], or the error. *)
Definition transfer_left (self : DeadlineStream) : OP (W := W) Z :=
  op_map_err (λ e, DesktopIo (display e)) remaining_budget ≫= λ rest,
  op_world op_now ≫= λ now,
  let rest := Z.min rest (Z.max 0 (ds_deadline self - now)) in
  if bool_decide (rest = 0) then op_fail (DesktopIo "desktop IPC deadline")
  else mret (Z.min rest SLICE).

(** The loop that [Read::read] and [Write::write] share; [None] is [Interrupted]. *)
Fixpoint transfer {X} (fuel : nat) (self : DeadlineStream) (call : Z → W → W * Transfer X) :
    OP (W := W) (option X) :=
  match fuel with
  | O => λ _, None
  | S fuel =>
      transfer_left self ≫= λ slice,
      op_world (call slice) ≫= λ t,
      match t with
      | Again => transfer fuel self call
      | Moved x => mret (Some x)
      | Interrupted => mret None
      | TransferFailed m => op_fail (DesktopIo m)
      end
  end.

(** [<DeadlineStream as Read>::read] and [<DeadlineStream as Write>::write] *)
Definition stream_read (fuel : nat) (self : DeadlineStream) (n : nat) : OP (W := W) (option (list byte)) :=
  transfer fuel self (λ slice w, ls_read w (ds_socket self) slice n).
Definition stream_write (fuel : nat) (self : DeadlineStream) (bytes : list byte) :
    OP (W := W) (option nat) :=
  transfer fuel self (λ slice w, ls_write w (ds_socket self) slice bytes).

(** [Write::write_all] *)
Fixpoint write_all (rounds fuel : nat) (self : DeadlineStream) (bytes : list byte) : OP (W := W) unit :=
  match bytes with
  | [] => mret ()
  | _ =>
      match rounds with
      | O => λ _, None
      | S rounds =>
          stream_write fuel self bytes ≫= λ n,
          match n with
          | None => write_all rounds fuel self bytes
          | Some O => op_fail (DesktopIo "failed to write whole buffer")
          | Some n => write_all rounds fuel self (drop n bytes)
          end
      end
  end.

(** [Read::read_exact] *)
Fixpoint read_exact (rounds fuel : nat) (self : DeadlineStream) (n : nat) : OP (W := W) (list byte) :=
  match n with
  | O => mret []
  | _ =>
      match rounds with
      | O => λ _, None
      | S rounds =>
          stream_read fuel self n ≫= λ bytes,
          match bytes with
          | None => read_exact rounds fuel self n
          | Some [] => op_fail (DesktopIo "failed to fill whole buffer")
          | Some bytes =>
              read_exact rounds fuel self (n - length bytes) ≫= λ rest, mret (bytes ++ rest)
          end
      end
  end.

(** [Read::read_to_end] of what [take] lets through *)
Fixpoint read_to_end (rounds fuel : nat) (self : DeadlineStream) (limit : nat) : OP (W := W) (list byte) :=
  match limit with
  | O => mret []
  | _ =>
      match rounds with
      | O => λ _, None
      | S rounds =>
          stream_read fuel self limit ≫= λ bytes,
          match bytes with
          | None => read_to_end rounds fuel self limit
          | Some [] => mret []
          | Some bytes =>
              read_to_end rounds fuel self (limit - length bytes) ≫= λ rest, mret (bytes ++ rest)
          end
      end
  end.

(** The wait of [connect] for a connection in progress. *)
Fixpoint connect_wait (fuel : nat) (fd deadline : Z) : OP (W := W) unit :=
  match fuel with
  | O => λ _, None
  | S fuel =>
      op_world (λ w, ls_writable w fd) ≫= λ ready,
      op_lift (or_protocol ready) ≫= λ ready,
      if ready : bool then mret ()
      else
        remaining_budget ≫= λ _,
        op_world op_now ≫= λ now,
        if bool_decide (deadline ≤ now) then op_fail (DesktopProtocol "connect deadline")
        else connect_wait fuel fd deadline
  end.

(** The checks of an established connection *)
Definition same_user (fd deadline : Z) : OP (W := W) DeadlineStream :=
  op_world (λ w, ls_peer_uid w fd) ≫= λ peer,
  op_lift (or_protocol peer) ≫= λ uid,
  op_world (λ w, (w, ls_geteuid w)) ≫= λ euid,
  if negb (bool_decide (uid = euid)) then op_fail (Unavailable "desktop socket has different UID")
  else
    op_world (λ w, ls_blocking w fd) ≫= λ r,
    op_lift (or_io r) ≫= λ _,
    mret (mkDeadlineStream fd deadline).

(** [SocketTransport::connect] *)
Definition socket_connect (fuel : nat) (path : string) : OP (W := W) DeadlineStream :=
  remaining_budget ≫= λ _,
  op_world op_now ≫= λ now,
  let deadline := now + IPC_TIMEOUT in
  op_world (λ w, ls_open w path) ≫= λ opened,
  match opened with
  | Connected fd => mret fd
  | InProgress fd =>
      connect_wait fuel fd deadline ≫= λ _,
      op_world (λ w, ls_socket_error w fd) ≫= λ error,
      op_lift (or_protocol error) ≫= λ error,
      match error with
      | Some m => op_fail (DesktopIo m)
      | None => mret fd
      end
  | OpenFailed m => op_fail (DesktopProtocol m)
  end ≫= λ fd,
  same_user fd deadline.

(** [SocketTransport::epoch] *)
Definition socket_epoch (path : string) : OP (W := W) string :=
  op_world (λ w, ls_metadata w path) ≫= λ metadata,
  op_lift (or_io metadata) ≫= λ metadata,
  op_world (λ w, (w, ls_geteuid w)) ≫= λ euid,
  if negb (bool_decide (sf_uid metadata = euid)) then op_fail (Unavailable "desktop socket owner differs")
  else mret (epoch_token metadata).

(** The magic of i3's protocol *)
Definition i3_magic : list byte := String.list_byte_of_string "i3-ipc".

(** The reply: a header of the same magic and kind, and a body of the length it says *)
Definition sway_reply (rounds fuel : nat) (socket : DeadlineStream) (kind : Z) : OP (W := W) Value :=
  read_exact rounds fuel socket 14 ≫= λ header,
  if negb (bool_decide (slice 0 6 header = i3_magic)) ||
     negb (bool_decide (slice 10 14 header = to_le 4 kind))
  then op_fail (DesktopProtocol "invalid IPC header")
  else
    let len := from_le (slice 6 10 header) in
    if bool_decide (MAX_MESSAGE < len) then op_fail (DesktopProtocol "reply too large")
    else
      read_exact rounds fuel socket (Z.to_nat len) ≫= λ body,
      op_lift (or_protocol (json_slice body)).

(** [SocketTransport::sway] *)
Definition sway_request (rounds fuel : nat) (path : string) (kind : Z) (payload : string) :
    OP (W := W) Value :=
  let bytes := String.list_byte_of_string payload in
  if bool_decide (MAX_MESSAGE < Z.of_nat (length bytes)) then op_fail (DesktopProtocol "request too large")
  else
    socket_connect fuel path ≫= λ socket,
    write_all rounds fuel socket i3_magic ≫= λ _,
    write_all rounds fuel socket (to_le 4 (Z.of_nat (length bytes))) ≫= λ _,
    write_all rounds fuel socket (to_le 4 kind) ≫= λ _,
    write_all rounds fuel socket bytes ≫= λ _,
    sway_reply rounds fuel socket kind.

(** [SocketTransport::hypr] and [hypr_json] *)
Definition hypr_request (rounds fuel : nat) (path : string) (request : string) : OP (W := W) string :=
  let bytes := String.list_byte_of_string request in
  socket_connect fuel path ≫= λ socket,
  write_all (rounds + length bytes) fuel socket bytes ≫= λ _,
  read_to_end rounds fuel socket (Z.to_nat (MAX_MESSAGE + 1)) ≫= λ body,
  if bool_decide (MAX_MESSAGE < Z.of_nat (length body)) then op_fail (DesktopProtocol "reply too large")
  else if utf8_valid body then mret (String.string_of_list_byte body)
  else op_fail (DesktopProtocol "invalid utf-8 sequence").
Definition hypr_json (rounds fuel : nat) (path : string) (request : string) : OP (W := W) Value :=
  hypr_request rounds fuel path request ≫= λ reply,
  op_lift (or_protocol (json_parse reply)).
End ipc.
