(* ===== verification/LocalIpcThm.v ===== *)
(** * Requests over local sockets are bounded, whole and to the same user

    Every request of the desktop clients returns. On the one connection it opens it sends
    a prefix of its frame, the whole frame when it succeeds, and nothing unless the peer
    is the same user. *)

From Stdlib Require Import Strings.Byte.
From S2P Require Import Prelude Event Sink Bytes Text Desktop Budget BudgetThm Json LocalIpc.
Import Byte(byte).

(** What is assumed of the sockets. [trace] holds what was sent on each connection, in the
    order they were opened; only the last one opened is written to. A wait that timed out
    took its time, and at most [signals] interruptions are still to come. *)
Class SocketsLaws (W : Type) `{OperationsLaws W (list byte), LocalSockets W} : Type := {
  current : W → option Z;
  signals : nat;
  interrupts : W → nat;
  interrupts_bound w : (interrupts w ≤ signals)%nat;
  same : W → W → Prop := λ w w',
    onward [] w w' ∧ current w' = current w ∧ (interrupts w' ≤ interrupts w)%nat;
  now_same w : same w (op_now w).1;
  stopped_same w f : same w (op_stopped w f).1;
  open_spec w path :
    match (ls_open w path).2 with
    | Connected fd | InProgress fd =>
        onward [[]] w (ls_open w path).1 ∧ current (ls_open w path).1 = Some fd ∧
        (interrupts (ls_open w path).1 ≤ interrupts w)%nat
    | OpenFailed _ => same w (ls_open w path).1
    end;
  writable_spec w fd : same w (ls_writable w fd).1 ∧
    ((ls_writable w fd).2 = Ok false → clock w < clock (ls_writable w fd).1);
  socket_error_same w fd : same w (ls_socket_error w fd).1;
  peer_same w fd : same w (ls_peer_uid w fd).1;
  blocking_same w fd : same w (ls_blocking w fd).1;
  metadata_same w path : same w (ls_metadata w path).1;
  read_spec w fd d n : 0 < d →
    same w (ls_read w fd d n).1 ∧
    match (ls_read w fd d n).2 with
    | Moved bytes => (length bytes ≤ n)%nat
    | Again => clock w < clock (ls_read w fd d n).1
    | Interrupted => (interrupts (ls_read w fd d n).1 < interrupts w)%nat
    | TransferFailed _ => True
    end;
  write_spec w fd d bytes l x : 0 < d → current w = Some fd → trace w = l ++ [x] →
    clock w ≤ clock (ls_write w fd d bytes).1 ∧
    (∀ f, raised w f = true → raised (ls_write w fd d bytes).1 f = true) ∧
    current (ls_write w fd d bytes).1 = Some fd ∧
    (interrupts (ls_write w fd d bytes).1 ≤ interrupts w)%nat ∧
    match (ls_write w fd d bytes).2 with
    | Moved n => (n ≤ length bytes)%nat ∧ trace (ls_write w fd d bytes).1 = l ++ [x ++ take n bytes]
    | Again => trace (ls_write w fd d bytes).1 = l ++ [x] ∧ clock w < clock (ls_write w fd d bytes).1
    | Interrupted => trace (ls_write w fd d bytes).1 = l ++ [x] ∧
        (interrupts (ls_write w fd d bytes).1 < interrupts w)%nat
    | TransferFailed _ => trace (ls_write w fd d bytes).1 = l ++ [x]
    end;
}.

Section ipc.
Context {W : Type} `{SocketsLaws W, SerdeJson}.
Implicit Types (w : W) (bs : list Budget).

#[export] Instance same_preorder : PreOrder (same (W := W)).
Proof.
  split; [intros w; split_and!; [reflexivity|done|lia]|].
  intros w1 w2 w3 (Hl1 & Hc1 & Hi1) (Hl2 & Hc2 & Hi2).
  split_and!; [by transitivity w2|congruence|lia].
Qed.

(** A connection on which [x] was sent since [w0]. *)
Definition sending (fd : Z) (x : list byte) (w0 w : W) : Prop :=
  onward [x] w0 w ∧ current w = Some fd.

Lemma sending_same fd x w0 w w' : sending fd x w0 w → same w w' → sending fd x w0 w'.
Proof. intros [Ho Hc] (Hl & Hc' & _). split; [by eapply onward_later|congruence]. Qed.

(** ** The rules of the calls *)

Lemma op_wp_lift {X} (r : result DesktopError X) (Q : OSt → result DesktopError X → Prop) (s : OSt (W := W)) :
  Q s r → op_wp (op_lift r) Q s.
Proof. intros HQ. by exists s, r. Qed.

Lemma op_wp_world {X} (f : W → W * X) (Q : OSt → result DesktopError X → Prop) w bs :
  Q ((f w).1, bs) (Ok (f w).2) → op_wp (op_world f) Q (w, bs).
Proof. intros HQ. unfold op_wp, op_world. destruct (f w) as [w' x]. by exists (w', bs), (Ok x). Qed.

Lemma remaining_same w bs (Q : OSt → result DesktopError Z → Prop) :
  (∀ w' r, same w w' → (∀ rest, r = Ok rest → 0 < rest) → Q (w', bs) r) →
  op_wp remaining_budget Q (w, bs).
Proof.
  assert (∀ bs limit w, same w (least_left limit bs w).1) as Hsame.
  { clear. induction bs as [|b bs IH]; intros limit w; simpl; [reflexivity|].
    assert (same w (load_stopped w (bg_stopped b)).1) as Hs.
    { destruct (bg_stopped b); [apply stopped_same|reflexivity]. }
    destruct (load_stopped w (bg_stopped b)) as [w1 []]; [done|].
    pose proof (now_same w1) as Hn. destruct (op_now w1) as [w2 now]. simpl in *.
    transitivity w1; [done|]. transitivity w2; [done|]. apply IH. }
  intros HQ. destruct (remaining_spec w bs) as (w' & r & Hr & _ & Hpos). exists (w', bs), r.
  split; [done|]. apply HQ; [|by intros rest ->; destruct Hpos as [[? _] _]].
  specialize (Hsame bs IPC_TIMEOUT w). unfold remaining_budget in Hr.
  destruct (least_left IPC_TIMEOUT bs w) as [w1 [rest|e]]; simpl in Hsame; [|by simplify_eq].
  case_bool_decide; by simplify_eq.
Qed.

(** The slice of one transfer is positive. *)
Lemma transfer_left_wp self w bs (Q : OSt → result DesktopError Z → Prop) :
  (∀ w' r, same w w' → (∀ d, r = Ok d → 0 < d ∧ clock w < ds_deadline self) → Q (w', bs) r) →
  op_wp (transfer_left self) Q (w, bs).
Proof.
  intros HQ. apply op_wp_bind. unfold op_map_err. unfold op_wp.
  destruct (remaining_same w bs (λ s r, ∃ w', s = (w', bs) ∧ same w w' ∧ ∀ rest, r = Ok rest → 0 < rest))
    as (s1 & r1 & Hr1 & w1 & -> & Hs1 & Hpos); [by eauto|].
  rewrite Hr1. destruct r1 as [rest|e].
  2:{ eexists (w1, bs), _. split; [done|]. by apply HQ. }
  specialize (Hpos rest eq_refl). eexists (w1, bs), _. split; [done|].
  apply op_wp_bind, op_wp_world. pose proof (now_same w1) as Hs2.
  destruct (op_now w1) as [w2 now] eqn:Hn. apply now_later in Hn as [_ Hn]. simpl in *.
  assert (same w w2) as Hs by (by transitivity w1).
  destruct Hs1 as ((Hc1 & _) & _). case_bool_decide as Hz.
  - apply op_wp_fail. by apply HQ.
  - apply op_wp_ret. apply HQ; [done|]. intros d [= <-].
    unfold SLICE. change (from_millis 10) with 10000000. lia.
Qed.

(** A transfer ends by the stream's deadline; [P] holds between its rounds. *)
Lemma transfer_wp {X} fuel self (call : Z → W → W * Transfer X) (P : W → Prop)
    (Q : OSt → result DesktopError (option X) → Prop) bs :
  (∀ w w', P w → same w w' → P w') →
  (∀ w e, P w → Q (w, bs) (Err e)) →
  (∀ w d, P w → 0 < d →
     match (call d w).2 with
     | Moved x => Q ((call d w).1, bs) (Ok (Some x))
     | Again => P (call d w).1 ∧ clock w < clock (call d w).1
     | Interrupted => Q ((call d w).1, bs) (Ok None)
     | TransferFailed m => P (call d w).1
     end) →
  ∀ w, P w → (Z.to_nat (ds_deadline self - clock w) < fuel)%nat →
  op_wp (transfer fuel self call) Q (w, bs).
Proof.
  intros Hstable Herr Hcall. induction fuel as [|fuel IH]; intros w HP Hf; [lia|].
  cbn [transfer]. apply op_wp_bind, transfer_left_wp. intros w1 r1 Hs1 Hd.
  assert (P w1) as HP1 by (by eapply Hstable). destruct r1 as [d|e]; [|by apply Herr].
  destruct (Hd d eq_refl) as [Hpos Hlt]. apply op_wp_bind, op_wp_world.
  specialize (Hcall w1 d HP1 Hpos). destruct (call d w1) as [w2 [x| | |m]]; simpl in *.
  - by apply op_wp_ret.
  - destruct Hcall as [HP2 Hc]. apply IH; [done|]. destruct Hs1 as ((Hc1 & _) & _). lia.
  - by apply op_wp_ret.
  - apply op_wp_fail. by apply Herr.
Qed.

(** A stream at work: its deadline is near, and so many interruptions may come. *)
Definition streaming (self : DeadlineStream) (n : nat) (x : list byte) (w0 w : W) : Prop :=
  sending (ds_socket self) x w0 w ∧ ds_deadline self ≤ clock w + IPC_TIMEOUT ∧ (interrupts w ≤ n)%nat.

Lemma streaming_same self n x w0 w w' :
  streaming self n x w0 w → same w w' → streaming self n x w0 w'.
Proof.
  intros (Hs & Hd & Hi) Hsame. split; [by eapply sending_same|].
  destruct Hsame as ((Hc & _) & _ & Hi'). split; lia.
Qed.

Lemma streaming_fuel self n x w0 w fuel :
  enough fuel → streaming self n x w0 w → (Z.to_nat (ds_deadline self - clock w) < fuel)%nat.
Proof. unfold enough. intros Hf (_ & Hd & _). lia. Qed.

Lemma streaming_intro self n x w0 w :
  clock w0 ≤ clock w → (∀ f, raised w0 f = true → raised w f = true) → trace w = trace w0 ++ [x] →
  current w = Some (ds_socket self) → ds_deadline self ≤ clock w + IPC_TIMEOUT →
  (interrupts w ≤ n)%nat → streaming self n x w0 w.
Proof. by repeat split. Qed.

Lemma stream_write_wp fuel self n x w0 w bs bytes :
  enough fuel → streaming self n x w0 w →
  op_wp (stream_write fuel self bytes)
    (λ s r, s.2 = bs ∧
       match r with
       | Ok (Some k) => (k ≤ length bytes)%nat ∧ streaming self n (x ++ take k bytes) w0 s.1
       | Ok None => (0 < n)%nat ∧ streaming self (n - 1) x w0 s.1
       | Err _ => streaming self n x w0 s.1
       end) (w, bs).
Proof.
  intros Hf Hw. apply (transfer_wp fuel self _ (streaming self n x w0)).
  - intros w1 w2. apply streaming_same.
  - by intros w1 e Hw1.
  - intros w1 d (Hs1 & Hd1 & Hi1) Hd. destruct Hs1 as [(Hc & Hr & Ht) Hcur].
    pose proof (write_spec w1 (ds_socket self) d bytes (trace w0) x Hd Hcur Ht)
      as (Hc2 & Hr2 & Hcur2 & Hi2 & Hcase).
    destruct (ls_write w1 (ds_socket self) d bytes) as [w2 [k| | |m]]; simpl in *.
    + destruct Hcase as [Hk Ht2]. split_and!; [done|done|].
      apply streaming_intro; solve [done|auto|lia].
    + destruct Hcase as [Ht2 Hlt]. split; [|done]. apply streaming_intro; solve [done|auto|lia].
    + destruct Hcase as [Ht2 Hlt]. split_and!; [done|lia|].
      apply streaming_intro; solve [done|auto|lia].
    + apply streaming_intro; solve [done|auto|lia].
  - done.
  - by eapply streaming_fuel.
Qed.

Lemma write_all_wp rounds fuel self w0 bs : enough fuel → ∀ bytes n x w,
  streaming self n x w0 w → (length bytes + n ≤ rounds)%nat →
  op_wp (write_all rounds fuel self bytes)
    (λ s r, s.2 = bs ∧ ∃ p, p `prefix_of` bytes ∧ streaming self n (x ++ p) w0 s.1 ∧
       (r = Ok () → p = bytes)) (w, bs).
Proof.
  intros Hf. induction rounds as [|rounds IH]; intros bytes n x w Hw Hr.
  { destruct bytes; [|simpl in Hr; lia]. apply op_wp_ret. split; [done|]. exists [].
    by rewrite app_nil_r. }
  destruct bytes as [|b bytes].
  { apply op_wp_ret. split; [done|]. exists []. by rewrite app_nil_r. }
  cbn [write_all]. apply op_wp_bind. eapply op_wp_mono; [by eapply stream_write_wp|].
  intros [w1 bs1] r1 [Hbs1 Hcase]. simpl in Hbs1. subst bs1.
  destruct r1 as [[[|k]|]|e]; simpl in Hcase.
  - destruct Hcase as [_ Hw1]. apply op_wp_fail. split; [done|]. exists [].
    split_and!; [apply prefix_nil|done|done].
  - destruct Hcase as [Hk Hw1]. set (k1 := S k) in *. eapply op_wp_mono.
    { apply (IH (drop k1 (b :: bytes)) n (x ++ take k1 (b :: bytes)) w1 Hw1).
      rewrite length_drop. simpl in *. lia. }
    intros [w2 bs2] r2 [Hbs2 (p & Hp & Hw2 & Hok)]. split; [done|].
    exists (take k1 (b :: bytes) ++ p). split_and!.
    + rewrite <- (take_drop k1 (b :: bytes)) at 2. by apply prefix_app.
    + by rewrite app_assoc.
    + intros Hr2. rewrite (Hok Hr2). apply take_drop.
  - destruct Hcase as [Hn Hw1]. eapply op_wp_mono; [apply (IH (b :: bytes) (n - 1)%nat x w1 Hw1); simpl in *; lia|].
    intros [w2 bs2] r2 [Hbs2 (p & Hp & (Hs2 & Hd2 & Hi2) & Hok)]. split; [done|]. exists p.
    split_and!; [done|split_and!; [done|done|lia]|done].
  - split; [done|]. exists []. rewrite app_nil_r. split_and!; [apply prefix_nil|done|done].
Qed.

Lemma stream_read_wp fuel self n x w0 w bs len :
  enough fuel → streaming self n x w0 w →
  op_wp (stream_read fuel self len)
    (λ s r, s.2 = bs ∧
       match r with
       | Ok (Some bytes) => (length bytes ≤ len)%nat ∧ streaming self n x w0 s.1
       | Ok None => (0 < n)%nat ∧ streaming self (n - 1) x w0 s.1
       | Err _ => streaming self n x w0 s.1
       end) (w, bs).
Proof.
  intros Hf Hw. apply (transfer_wp fuel self _ (streaming self n x w0)).
  - intros w1 w2. apply streaming_same.
  - by intros w1 e Hw1.
  - intros w1 d Hw1 Hd. pose proof (read_spec w1 (ds_socket self) d len Hd) as [Hsame Hcase].
    destruct (ls_read w1 (ds_socket self) d len) as [w2 [bytes| | |m]]; simpl in *.
    1, 2, 4: by pose proof (streaming_same _ _ _ _ _ _ Hw1 Hsame).
    split; [done|]. pose proof Hw1 as (_ & _ & Hi1). split; [lia|].
    apply (streaming_same _ _ _ _ _ _ Hw1) in Hsame as (Hs2 & Hd2 & _). split_and!; [done|done|lia].
  - done.
  - by eapply streaming_fuel.
Qed.

Lemma streaming_weaken self n n' x w0 w :
  (n ≤ n')%nat → streaming self n x w0 w → streaming self n' x w0 w.
Proof. intros Hn (Hs & Hd & Hi). split_and!; [done|done|lia]. Qed.

(** The two loops that read: what they return fits, and is complete for [read_exact]. *)
Lemma read_exact_wp rounds fuel self w0 bs x : enough fuel → ∀ len n w,
  streaming self n x w0 w → (len + n ≤ rounds)%nat →
  op_wp (read_exact rounds fuel self len)
    (λ s r, s.2 = bs ∧ streaming self n x w0 s.1 ∧ ∀ bytes, r = Ok bytes → length bytes = len) (w, bs).
Proof.
  intros Hf. induction rounds as [|rounds IH]; intros len n w Hw Hr.
  { destruct len; [|lia]. apply op_wp_ret. by split_and!; [|done|intros ? [= <-]]. }
  destruct len as [|len]; [apply op_wp_ret; by split_and!; [|done|intros ? [= <-]]|].
  cbn [read_exact]. apply op_wp_bind. eapply op_wp_mono; [by eapply stream_read_wp|].
  intros [w1 bs1] r1 [Hbs1 Hcase]. simpl in Hbs1. subst bs1.
  destruct r1 as [[[|b bytes]|]|e]; simpl in Hcase.
  - apply op_wp_fail. by split_and!; [|apply Hcase|].
  - destruct Hcase as [Hlen Hw1]. apply op_wp_bind.
    eapply op_wp_mono; [apply (IH (S len - length (b :: bytes))%nat n w1 Hw1); simpl; lia|].
    intros [w2 bs2] r2 (Hbs2 & Hw2 & Hok). simpl in Hbs2. subst bs2. destruct r2 as [rest|e2]; [|done].
    apply op_wp_ret. split_and!; [done|done|]. intros all [= <-].
    rewrite app_comm_cons, length_app, (Hok rest eq_refl). simpl in *. lia.
  - destruct Hcase as [Hn Hw1]. eapply op_wp_mono; [apply (IH (S len) (n - 1)%nat w1 Hw1); lia|].
    intros [w2 bs2] r2 (Hbs2 & Hw2 & Hok). split_and!; [done| |done]. by eapply streaming_weaken, Hw2; lia.
  - by split_and!.
Qed.

Lemma read_to_end_wp rounds fuel self w0 bs x : enough fuel → ∀ limit n w,
  streaming self n x w0 w → (limit + n ≤ rounds)%nat →
  op_wp (read_to_end rounds fuel self limit)
    (λ s r, s.2 = bs ∧ streaming self n x w0 s.1 ∧ ∀ bytes, r = Ok bytes → (length bytes ≤ limit)%nat)
    (w, bs).
Proof.
  intros Hf. induction rounds as [|rounds IH]; intros limit n w Hw Hr.
  { destruct limit; [|lia]. apply op_wp_ret. by split_and!; [|done|intros ? [= <-]; simpl; lia]. }
  destruct limit as [|limit]; [apply op_wp_ret; by split_and!; [|done|intros ? [= <-]; simpl; lia]|].
  cbn [read_to_end]. apply op_wp_bind. eapply op_wp_mono; [by eapply stream_read_wp|].
  intros [w1 bs1] r1 [Hbs1 Hcase]. simpl in Hbs1. subst bs1.
  destruct r1 as [[[|b bytes]|]|e]; simpl in Hcase.
  - apply op_wp_ret. split_and!; [done|apply Hcase|intros ? [= <-]; simpl; lia].
  - destruct Hcase as [Hlen Hw1]. apply op_wp_bind.
    eapply op_wp_mono; [apply (IH (S limit - length (b :: bytes))%nat n w1 Hw1); simpl; lia|].
    intros [w2 bs2] r2 (Hbs2 & Hw2 & Hok). simpl in Hbs2. subst bs2. destruct r2 as [rest|e2]; [|done].
    apply op_wp_ret. split_and!; [done|done|]. intros all [= <-].
    rewrite app_comm_cons, length_app. specialize (Hok rest eq_refl). simpl in *. lia.
  - destruct Hcase as [Hn Hw1]. eapply op_wp_mono; [apply (IH (S limit) (n - 1)%nat w1 Hw1); lia|].
    intros [w2 bs2] r2 (Hbs2 & Hw2 & Hok). split_and!; [done| |done]. by eapply streaming_weaken, Hw2; lia.
  - by split_and!.
Qed.

(** ** Connections *)

Lemma connect_wait_wp fuel fd deadline bs : ∀ w,
  (Z.to_nat (deadline - clock w) < fuel)%nat →
  op_wp (connect_wait fuel fd deadline) (λ s _, s.2 = bs ∧ same w s.1) (w, bs).
Proof.
  induction fuel as [|fuel IH]; intros w Hf; [lia|]. cbn [connect_wait].
  apply op_wp_bind, op_wp_world. destruct (writable_spec w fd) as [Hs1 Hlt].
  destruct (ls_writable w fd) as [w1 [ready|m]]; simpl in *; apply op_wp_bind, op_wp_lift; simpl; [|done].
  destruct ready; [by apply op_wp_ret|]. specialize (Hlt eq_refl).
  apply op_wp_bind, remaining_same. intros w2 r2 Hs2 _. assert (same w w2) as Hs by (by transitivity w1).
  destruct r2 as [rest|e]; [|done]. apply op_wp_bind, op_wp_world. pose proof (now_same w2) as Hs3.
  destruct (op_now w2) as [w3 now] eqn:Hn. apply now_later in Hn as [_ Hn]. simpl in *.
  assert (same w w3) as Hsw by (by transitivity w2).
  case_bool_decide; [by apply op_wp_fail|].
  assert (clock w1 ≤ clock w2) as Hc2 by apply Hs2.
  eapply op_wp_mono; [apply IH; lia|]. intros [w4 bs4] r [Hbs Hs4]. split; [done|by transitivity w3].
Qed.

(** The peer of the connection was this user. *)
Definition trusted (fd : Z) : Prop :=
  ∃ w, (ls_peer_uid w fd).2 = Ok (ls_geteuid (ls_peer_uid w fd).1).

(** What a connection attempt leaves behind: none, or one on which nothing was sent. *)
Definition unsent (w w' : W) : Prop := same w w' ∨ ∃ fd, sending fd [] w w'.
Lemma unsent_same w w1 w2 : unsent w w1 → same w1 w2 → unsent w w2.
Proof.
  intros [Hs|[fd Hs]] Hs2; [left; by transitivity w1|right]. exists fd. by eapply sending_same.
Qed.
Lemma unsent_onward w w' : unsent w w' → ∃ l, onward l w w' ∧ (l = [] ∨ l = [[]]).
Proof. intros [[Ho _]|[fd [Ho _]]]; eauto. Qed.

(** The outcome of connecting: a stream of this user's, or at most an unused connection *)
Definition connected_to (w : W) (bs : list Budget) (s : OSt (W := W)) (r : result DesktopError DeadlineStream) : Prop :=
  s.2 = bs ∧
  match r with
  | Ok self => trusted (ds_socket self) ∧ streaming self signals [] w s.1
  | Err _ => unsent w s.1
  end.

Lemma same_user_wp fd now w w4 bs :
  sending fd [] w w4 → now ≤ clock w4 →
  op_wp (same_user fd (now + IPC_TIMEOUT)) (connected_to w bs) (w4, bs).
Proof.
  intros Hw4 Hclock. apply op_wp_bind, op_wp_world. pose proof (peer_same w4 fd) as Hs5.
  destruct (ls_peer_uid w4 fd) as [w5 peer] eqn:Hpeer. simpl in Hs5 |- *.
  pose proof (sending_same _ _ _ _ _ Hw4 Hs5) as Hw5.
  apply op_wp_bind, op_wp_lift. destruct peer as [uid|m]; simpl; [|by split; [|right; exists fd]].
  apply op_wp_bind, op_wp_world. simpl. case_bool_decide as Hu; simpl.
  2:{ apply op_wp_fail. by split; [|right; exists fd]. }
  apply op_wp_bind, op_wp_world. pose proof (blocking_same w5 fd) as Hs6.
  destruct (ls_blocking w5 fd) as [w6 blocking]. simpl in Hs6 |- *.
  pose proof (sending_same _ _ _ _ _ Hw5 Hs6) as Hw6.
  apply op_wp_bind, op_wp_lift. destruct blocking as [[]|m]; simpl; [|by split; [|right; exists fd]].
  apply op_wp_ret. split; [done|]. split; [exists w4; simpl; by rewrite Hpeer, Hu|].
  unfold streaming. split_and!; [done| |apply interrupts_bound].
  simpl. destruct Hs5 as ((Hc5 & _) & _), Hs6 as ((Hc6 & _) & _). lia.
Qed.

Lemma socket_connect_wp fuel path w bs :
  enough fuel → op_wp (socket_connect fuel path) (connected_to w bs) (w, bs).
Proof.
  intros Hf. unfold socket_connect. apply op_wp_bind, remaining_same. intros w1 r1 Hs1 _.
  destruct r1 as [rest|e]; [|by split; [|left]]. apply op_wp_bind, op_wp_world.
  pose proof (now_same w1) as Hs2. destruct (op_now w1) as [w2 now] eqn:Hn.
  apply now_later in Hn as [_ Hn]. simpl in *. assert (same w w2) as Hsw2 by (by transitivity w1).
  apply op_wp_bind, op_wp_world. pose proof (open_spec w2 path) as Ho.
  destruct (ls_open w2 path) as [w3 opened]; simpl in *.
  destruct opened as [fd|fd|m].
  - destruct Ho as (Ho & Hc & _). apply op_wp_bind, op_wp_ret. apply same_user_wp.
    + split; [|done]. by eapply later_onward; [apply Hsw2|].
    + destruct Ho as [Hc3 _]. lia.
  - destruct Ho as (Ho & Hc & _).
    assert (sending fd [] w w3) as Hw3 by (split; [by eapply later_onward; [apply Hsw2|]|done]).
    assert (now ≤ clock w3) as Hc3 by (destruct Ho as [Hc3 _]; lia).
    apply op_wp_bind, op_wp_bind. eapply op_wp_mono; [apply connect_wait_wp; unfold enough in Hf; lia|].
    intros [w4 bs4] r4 [Hbs4 Hs4]. simpl in Hbs4, Hs4. subst bs4.
    pose proof (sending_same _ _ _ _ _ Hw3 Hs4) as Hw4. destruct r4 as [[]|e]; [|by split; [|right; exists fd]].
    apply op_wp_bind, op_wp_world. pose proof (socket_error_same w4 fd) as Hs5.
    destruct (ls_socket_error w4 fd) as [w5 error]. simpl in Hs5 |- *.
    pose proof (sending_same _ _ _ _ _ Hw4 Hs5) as Hw5.
    apply op_wp_bind, op_wp_lift. destruct error as [[m|]|m]; simpl; [|apply op_wp_ret|by split; [|right; exists fd]].
    + apply op_wp_fail. by split; [|right; exists fd].
    + apply same_user_wp; [done|]. destruct Hs4 as ((Hc4 & _) & _), Hs5 as ((Hc5 & _) & _). lia.
  - apply op_wp_bind, op_wp_fail. split; [done|]. left. by transitivity w2.
Qed.

Lemma socket_epoch_wp path w bs :
  op_wp (socket_epoch path) (λ s _, s.2 = bs ∧ same w s.1) (w, bs).
Proof.
  unfold socket_epoch. apply op_wp_bind, op_wp_world. pose proof (metadata_same w path) as Hs.
  destruct (ls_metadata w path) as [w1 metadata]. simpl in *. apply op_wp_bind, op_wp_lift.
  destruct metadata as [f|m]; simpl; [|done]. apply op_wp_bind, op_wp_world. simpl.
  case_bool_decide; simpl; [by apply op_wp_ret|by apply op_wp_fail].
Qed.

(** ** Requests *)

(** Rounds for every buffer that may be sent or read, and the interruptions. *)
Definition enough_rounds (rounds : nat) : Prop :=
  (Z.to_nat MAX_MESSAGE + 16 + signals ≤ rounds)%nat.

(** A request that was sent in part, to this user. *)
Definition partly (frame : list byte) (w w' : W) : Prop :=
  ∃ fd p, trusted fd ∧ p `prefix_of` frame ∧ sending fd p w w'.

(** What a request with this frame did: no connection, an unused one, or a prefix of the
    frame on one connection to this user; the whole frame when it succeeded. *)
Definition asked {X} (frame : list byte) (w : W) (w' : W) (r : result DesktopError X) : Prop :=
  match r with
  | Ok _ => ∃ fd, trusted fd ∧ sending fd frame w w'
  | Err _ => unsent w w' ∨ partly frame w w'
  end.

Lemma asked_onward {X} frame w w' (r : result DesktopError X) :
  asked frame w w' r →
  ∃ l, onward l w w' ∧ (l = [] ∨ ∃ p, l = [p] ∧ p `prefix_of` frame) ∧ (is_ok r = true → l = [frame]).
Proof.
  destruct r as [x|e]; simpl.
  - intros (fd & _ & Ho & _). exists [frame]. split_and!; [done| |done]. right. by exists frame.
  - intros [Hu|(fd & p & _ & Hp & Ho & _)].
    + apply unsent_onward in Hu as (l & Ho & [->| ->]); eexists; split_and!; eauto; [done| |done].
      right. eexists. split; [done|apply prefix_nil].
    + exists [p]. split_and!; eauto; done.
Qed.

Lemma write_part_wp rounds fuel self bs w0 w x part frame rest :
  enough fuel → (length part + signals ≤ rounds)%nat →
  streaming self signals x w0 w → frame = x ++ part ++ rest → trusted (ds_socket self) →
  op_wp (write_all rounds fuel self part)
    (λ s r, s.2 = bs ∧
       match r with
       | Ok _ => streaming self signals (x ++ part) w0 s.1
       | Err _ => partly frame w0 s.1
       end) (w, bs).
Proof.
  intros Hf Hr Hw -> Ht.
  eapply op_wp_mono; [by eapply write_all_wp|].
  intros [w1 bs1] r [Hbs (p & Hp & Hw1 & Hok)]. split; [done|]. destruct r as [[]|e].
  - by rewrite <- (Hok eq_refl).
  - exists (ds_socket self), (x ++ p). split_and!; [done| |apply Hw1].
    apply prefix_app. by apply prefix_app_r.
Qed.

(** The frame of an i3 request *)
Definition i3_frame (kind : Z) (payload : string) : list byte :=
  i3_magic ++ to_le 4 (Z.of_nat (length (String.list_byte_of_string payload))) ++ to_le 4 kind ++
  String.list_byte_of_string payload.

(** The frame of either protocol is sent whole or in part, to this user, and each request
    returns. *)
Lemma sway_reply_wp rounds fuel self kind frame w w5 bs :
  enough fuel → enough_rounds rounds → trusted (ds_socket self) → streaming self signals frame w w5 →
  op_wp (sway_reply rounds fuel self kind) (λ s r, s.2 = bs ∧ asked frame w s.1 r) (w5, bs).
Proof.
  intros Hf Hr Ht Hw5.
  assert (∀ (s : OSt (W := W)) X (r : result DesktopError X), s.2 = bs ∧ streaming self signals frame w s.1 →
    s.2 = bs ∧ asked frame w s.1 r) as Hdone.
  { intros s X r [Hbs Hs]. split; [done|]. destruct r; simpl.
    - exists (ds_socket self). split; [done|apply Hs].
    - right. exists (ds_socket self), frame. split_and!; [done..|apply Hs]. }
  apply op_wp_bind. eapply op_wp_mono.
  { apply (read_exact_wp rounds fuel self w bs frame Hf 14 signals w5 Hw5).
    unfold enough_rounds in Hr. lia. }
  intros [w6 bs6] r6 (Hbs6 & Hw6 & _). cbn [fst snd] in Hbs6, Hw6. subst bs6.
  destruct r6 as [header|e]; [|by apply Hdone].
  destruct (_ || _); [apply op_wp_fail; by apply Hdone|]. cbv zeta.
  case_bool_decide as Hbody; [apply op_wp_fail; by apply Hdone|].
  apply op_wp_bind. eapply op_wp_mono.
  { apply (read_exact_wp rounds fuel self w bs frame Hf _ signals w6 Hw6).
    unfold enough_rounds in Hr. pose proof (from_le_bound (slice 6 10 header)). lia. }
  intros [w7 bs7] r7 (Hbs7 & Hw7 & _). cbn [fst snd] in Hbs7, Hw7. subst bs7.
  destruct r7 as [body|e]; [|by apply Hdone]. apply op_wp_lift. by apply Hdone.
Qed.

Lemma sway_request_wp rounds fuel path kind payload w bs :
  enough fuel → enough_rounds rounds →
  op_wp (sway_request rounds fuel path kind payload)
    (λ s r, s.2 = bs ∧ asked (i3_frame kind payload) w s.1 r) (w, bs).
Proof.
  intros Hf Hr. assert (∀ n, Z.of_nat n ≤ MAX_MESSAGE → (n + signals ≤ rounds)%nat) as Hn.
  { unfold enough_rounds in Hr. lia. }
  unfold sway_request. set (bytes := String.list_byte_of_string payload).
  case_bool_decide as Hlen; [apply op_wp_fail; split; [done|left; left; reflexivity]|].
  apply op_wp_bind. eapply op_wp_mono; [by apply socket_connect_wp|].
  intros [w1 bs1] r1 [Hbs1 Hcase]. cbn [fst snd] in Hbs1, Hcase. subst bs1.
  destruct r1 as [self|e]; [|by split; [|left]]. destruct Hcase as [Ht Hw1].
  set (frame := i3_frame kind payload).
  apply op_wp_bind. eapply op_wp_mono.
  { apply (write_part_wp _ _ _ bs w w1 [] i3_magic frame _ Hf (Hn 6%nat ltac:(done)) Hw1 eq_refl Ht). }
  intros [w2 bs2] r2 [Hbs2 Hw2]. cbn [fst snd] in Hbs2, Hw2. subst bs2. destruct r2 as [[]|e]; [|by split; [|right]].
  apply op_wp_bind. eapply op_wp_mono.
  { eapply (write_part_wp _ _ _ bs w w2 _ _ frame _ Hf); [|exact Hw2|reflexivity|done].
    rewrite length_to_le. by apply Hn. }
  intros [w3 bs3] r3 [Hbs3 Hw3]. cbn [fst snd] in Hbs3, Hw3. subst bs3. destruct r3 as [[]|e]; [|by split; [|right]].
  apply op_wp_bind. eapply op_wp_mono.
  { eapply (write_part_wp _ _ _ bs w w3 _ _ frame bytes Hf); [|exact Hw3| |done].
    - rewrite length_to_le. by apply Hn.
    - unfold frame, i3_frame. by rewrite <- !app_assoc. }
  intros [w4 bs4] r4 [Hbs4 Hw4]. cbn [fst snd] in Hbs4, Hw4. subst bs4. destruct r4 as [[]|e]; [|by split; [|right]].
  apply op_wp_bind. eapply op_wp_mono.
  { eapply (write_part_wp _ _ _ bs w w4 _ bytes frame [] Hf); [apply Hn; lia|exact Hw4| |done].
    unfold frame, i3_frame. by rewrite <- !app_assoc, app_nil_r. }
  intros [w5 bs5] r5 [Hbs5 Hw5]. cbn [fst snd] in Hbs5, Hw5. subst bs5. destruct r5 as [[]|e]; [|by split; [|right]].
  apply sway_reply_wp; [done..|]. unfold frame, i3_frame. by rewrite <- !app_assoc in Hw5.
Qed.

Lemma hypr_request_wp rounds fuel path request w bs :
  enough fuel → enough_rounds rounds →
  op_wp (hypr_request rounds fuel path request)
    (λ s r, s.2 = bs ∧ asked (String.list_byte_of_string request) w s.1 r ∧
       ∀ reply, r = Ok reply → Z.of_nat (length (String.list_byte_of_string reply)) ≤ MAX_MESSAGE) (w, bs).
Proof.
  intros Hf Hr. unfold hypr_request. set (frame := String.list_byte_of_string request).
  apply op_wp_bind. eapply op_wp_mono; [by apply socket_connect_wp|].
  intros [w1 bs1] r1 [Hbs1 Hcase]. simpl in Hbs1, Hcase. subst bs1.
  destruct r1 as [self|e]; [|by split_and!; [|left|]]. destruct Hcase as [Ht Hw1].
  apply op_wp_bind. eapply op_wp_mono.
  { eapply (write_part_wp _ _ _ bs w w1 [] frame frame [] Hf); [|exact Hw1|by rewrite app_nil_r|done].
    unfold enough_rounds in Hr. lia. }
  intros [w2 bs2] r2 [Hbs2 Hw2]. simpl in Hbs2, Hw2. subst bs2. destruct r2 as [[]|e]; [|by split_and!; [|right|]].
  apply op_wp_bind. eapply op_wp_mono.
  { apply (read_to_end_wp rounds fuel self w bs frame Hf _ signals w2 Hw2).
    unfold enough_rounds in Hr. lia. }
  intros [w3 bs3] r3 (Hbs3 & Hw3 & _). simpl in Hbs3, Hw3. subst bs3.
  assert (∀ e, asked (X := string) frame w w3 (Err e)) as Herr.
  { intros e. right. exists (ds_socket self), frame. split_and!; [done..|apply Hw3]. }
  destruct r3 as [body|e]; [|by split_and!].
  case_bool_decide; [by apply op_wp_fail; split_and!|]. destruct (utf8_valid body); [|by apply op_wp_fail; split_and!].
  apply op_wp_ret. split_and!; [done|exists (ds_socket self); split; [done|apply Hw3]|].
  intros reply [= <-]. rewrite String.list_byte_of_string_of_list_byte. lia.
Qed.

Lemma hypr_json_wp rounds fuel path request w bs :
  enough fuel → enough_rounds rounds →
  op_wp (hypr_json rounds fuel path request)
    (λ s r, s.2 = bs ∧ asked (String.list_byte_of_string request) w s.1 r) (w, bs).
Proof.
  intros Hf Hr. apply op_wp_bind. eapply op_wp_mono; [by apply hypr_request_wp|].
  intros [w1 bs1] r1 (Hbs1 & Ha & _). simpl in Hbs1, Ha. subst bs1. destruct r1 as [reply|e]; [|done].
  apply op_wp_lift. split; [done|]. destruct (json_parse reply) as [v|m]; simpl; [done|].
  right. destruct Ha as (fd & Ht & Hs). by exists fd, (String.list_byte_of_string request).
Qed.

(** A request to the compositor always returns, with the caller's budgets, and on
    one connection at most. What left the process on it is a prefix of the request's
    frame, the whole frame when the request succeeded, and nothing at all unless the peer
    of the connection was the same user. A reply that is accepted fits [MAX_MESSAGE]. *)
Theorem requests_whole rounds fuel path kind payload request w bs :
  enough fuel → enough_rounds rounds →
  (∃ w' r, sway_request rounds fuel path kind payload (w, bs) = Some ((w', bs), r) ∧
     asked (i3_frame kind payload) w w' r) ∧
  (∃ w' r, hypr_request rounds fuel path request (w, bs) = Some ((w', bs), r) ∧
     asked (String.list_byte_of_string request) w w' r ∧
     ∀ reply, r = Ok reply → Z.of_nat (length (String.list_byte_of_string reply)) ≤ MAX_MESSAGE).
Proof.
  intros Hf Hr. split.
  - destruct (sway_request_wp rounds fuel path kind payload w bs Hf Hr) as ([w' bs'] & r & Hrun & Hbs & Ha).
    simpl in Hbs. subst bs'. by exists w', r.
  - destruct (hypr_request_wp rounds fuel path request w bs Hf Hr) as ([w' bs'] & r & Hrun & Hbs & Ha).
    simpl in Hbs. subst bs'. by exists w', r.
Qed.
End ipc.
