(* ===== verification/SourceThread.v ===== *)
(** * The thread that carries out source actions (packages/cli/src/daemon: [SourceWorker] of
      source_queue.rs, and the closure that [run_linux] of linux.rs gives it)

    Queued actions are taken one by one and dispatched to the desktop's provider, under a
    budget that the worker's stop flag cancels. Failures are logged. The channel is the
    class [Channel]. *)

From S2P Require Import Prelude Event Sink Bytes Desktop Budget BudgetThm Json LocalIpc.

(** [recv_timeout] of 50 ms *)
Inductive Received : Type := Got (a : SourceAction) | RecvTimeout | RecvDisconnected.
Class Channel (W : Type) : Type := { ch_recv : W → W * Received }.

(** [BackendError]'s [Display] *)
Definition display_backend (e : BackendError) : string :=
  match e with
  | MissingPermission m => String.append "missing permission: " m
  | TapInstall m => String.append "failed to install event tap: " m
  | Inject m => String.append "failed to inject event: " m
  | UnknownInputSource id => String.append "unknown input source: " id
  | Other m => m
  end.

(** The closure's errors: unknown sources keep their name. *)
Definition select_error (id : string) (e : DesktopError) : BackendError :=
  match e with
  | UnknownSource => UnknownInputSource id
  | other => Inject (display other)
  end.

Section thread.
Context {W : Type} `{Operations W, Provider W, Channel W}.

(** What the worker does for an action: [run] around the closure around the dispatcher *)
Definition carry_out (fuel stopped dispatcher : nat) (a : SourceAction) : OP (W := W) unit :=
  op_run stopped
    (op_map_err (λ e, Unavailable (display_backend (select_error (act_id a) e)))
       (dispatcher_select fuel dispatcher (act_catalog a) (act_id a))).

(** So many rounds of the thread: the log of what it carried out, and whether it ended. *)
Fixpoint source_rounds (rounds fuel stopped dispatcher : nat) (s : OSt (W := W)) :
    option (OSt * list (SourceAction * result DesktopError unit) * bool) :=
  match rounds with
  | O => Some (s, [], false)
  | S rounds =>
      let '(w, bs) := s in
      match op_stopped w stopped with
      | (w, true) => Some ((w, bs), [], true)
      | (w, false) =>
          match ch_recv w with
          | (w, Got a) =>
              match carry_out fuel stopped dispatcher a (w, bs) with
              | Some (s, r) =>
                  '(s, log, ended) ← source_rounds rounds fuel stopped dispatcher s;
                  Some (s, (a, r) :: log, ended)
              | None => None
              end
          | (w, RecvTimeout) => source_rounds rounds fuel stopped dispatcher (w, bs)
          | (w, RecvDisconnected) => Some ((w, bs), [], true)
          end
      end
  end.
End thread.

(** ** Each action at most once, in order *)

(** Receiving sends nothing. *)
Class ChannelLaws (W E : Type) `{OperationsLaws W E, Channel W} : Prop :=
  recv_later w : onward [] w (ch_recv w).1.

Section order.
Context {W E : Type} `{ProviderLaws W E, !Channel W, !ChannelLaws W E}.

(** What each action sent, in the order they were taken *)
Inductive carried : list (SourceAction * result DesktopError unit) → list E → Prop :=
  | carried_nil : carried [] []
  | carried_none a r log l : r ≠ Ok () → carried log l → carried ((a, r) :: log) l
  | carried_once a r log e l :
      selects (act_catalog a) (act_id a) e → carried log l → carried ((a, r) :: log) (e :: l).

(** What one action does *)
Definition once (a : SourceAction) (w : W) (w' : W) (r : result DesktopError unit) : Prop :=
  ∃ l, onward l w w' ∧
    (List.filter selection l = [] ∧ r ≠ Ok () ∨
     ∃ e, List.filter selection l = [e] ∧ selects (act_catalog a) (act_id a) e).

Lemma carry_out_wp fuel stopped dispatcher a w bs :
  enough fuel →
  op_wp (carry_out fuel stopped dispatcher a)
    (λ s r, s.2 = bs ∧ once a w s.1 r ∧ (raised w stopped = true → onward [] w s.1 ∧ ∃ e, r = Err e)) (w, bs).
Proof.
  intros Hf. apply op_wp_run.
  - intros w1 bs1 Hl. unfold op_wp, op_map_err.
    destruct (dispatch_once fuel dispatcher (act_catalog a) (act_id a) w1 bs1 Hf) as ([w2 bs2] & r & Hr & Hbs & l & Ho & HI & _).
    rewrite Hr. destruct r as [[]|e]; eexists _, _; (split; [done|]); (split; [done|]); exists l;
      (split; [by eapply later_onward|]); [exact HI|]. destruct HI as [[Hq _]|Hs]; [by left|by right].
  - intros w1 w2 r (l & Ho & HI) Hl. exists l. split; [by eapply onward_later|done].
  - intros w1 r e (l & Ho & HI). exists l. split; [done|]. destruct HI as [[Hq _]|Hs]; [by left|by right].
  - intros w1 e Hl. exists []. by split; [|left].
Qed.

Lemma source_rounds_carried rounds fuel stopped dispatcher : enough fuel → ∀ w bs,
  ∃ w' log ended l, source_rounds rounds fuel stopped dispatcher (w, bs) = Some ((w', bs), log, ended) ∧
    onward l w w' ∧ carried log (List.filter selection l) ∧
    (raised w stopped = true → log = []).
Proof.
  intros Hf. induction rounds as [|rounds IH]; intros w bs.
  { exists w, [], false, []. split_and!; [done|reflexivity|constructor|done]. }
  cbn [source_rounds]. destruct (op_stopped w stopped) as [w1 st] eqn:Hs.
  apply stopped_later in Hs as [Hl1 Hst]. destruct st.
  { exists w1, [], true, []. split_and!; [done|done|constructor|done]. }
  assert (raised w stopped = true → False) as Hlive by (intros Hr; by specialize (Hst Hr)).
  pose proof (recv_later w1) as Hl2. destruct (ch_recv w1) as [w2 [a| |]]; simpl in Hl2.
  all: assert (onward [] w w2) as Hl by (by transitivity w1).
  - destruct (carry_out_wp fuel stopped dispatcher a w2 bs Hf) as ([w3 bs3] & r & Hr & Hbs & (l3 & Ho3 & Hone) & _).
    simpl in Hbs, Ho3. subst bs3. rewrite Hr.
    destruct (IH w3 bs) as (w4 & log & ended & l4 & Hrun & Ho4 & Hcar & _). rewrite Hrun. simpl.
    exists w4, ((a, r) :: log), ended, (l3 ++ l4). split_and!; [done| | |by intros ?%Hlive].
    + eapply later_onward; [exact Hl|]. by eapply onward_trans.
    + rewrite List.filter_app. destruct Hone as [[-> Hne]|(e & -> & Hsel)]; by constructor.
  - destruct (IH w2 bs) as (w4 & log & ended & l4 & Hrun & Ho4 & Hcar & _). exists w4, log, ended, l4.
    split_and!; [done|by eapply later_onward|done|by intros ?%Hlive].
  - exists w2, [], true, []. split_and!; [done|done|constructor|done].
Qed.

End order.

(** ** In the simulated desktop: two actions, and an empty channel after them *)
Record Errands : Type := mkErrands { er_desk : Bench; er_queue : list SourceAction }.
#[export] Instance Errands_operations : Operations Errands := {|
  op_now w := let '(d, t) := op_now (er_desk w) in (mkErrands d (er_queue w), t);
  op_stopped w f := let '(d, b) := op_stopped (er_desk w) f in (mkErrands d (er_queue w), b);
  op_stop w f := mkErrands (op_stop (er_desk w) f) (er_queue w);
  op_try_lock w := let '(d, t) := op_try_lock (er_desk w) in (mkErrands d (er_queue w), t);
  op_unlock w := w;
  op_sleep w d := mkErrands (op_sleep (er_desk w) d) (er_queue w);
|}.
#[export] Instance Errands_provider : Provider Errands := {|
  pv_poll := op_fail (Unavailable "no focus");
  pv_sources := mret desk_catalog;
  pv_select c id := λ '(w, bs),
    Some ((mkErrands (mkBench (dk_clock (er_desk w) + 1000) (dk_busy (er_desk w)) (dk_raised (er_desk w))
       (dk_chosen (er_desk w) ++ [(c, id)])) (er_queue w), bs), Ok ());
|}.
#[export] Instance Errands_channel : Channel Errands := {|
  ch_recv w := match er_queue w with a :: q => (mkErrands (er_desk w) q, Got a) | [] => (w, RecvTimeout) end;
|}.
#[export, refine] Instance Errands_laws : OperationsLaws Errands (SourceCatalog * string) := {|
  clock w := dk_clock (er_desk w);
  raised w f := bool_decide (f ∈ dk_raised (er_desk w));
  trace w := dk_chosen (er_desk w);
|}.
Proof.
  all: intros; simplify_eq/=; repeat split; simpl; intros; rewrite ?app_nil_r; try done; try lia.
Defined.
#[export, refine] Instance Errands_provider_laws : ProviderLaws Errands (SourceCatalog * string) := {|
  selection _ := true;
  selects c id e := e = (c, id);
|}.
Proof.
  - intros w bs. apply op_wp_fail. split; [done|]. exists []. by split; [reflexivity|].
  - intros w bs. apply op_wp_ret. split; [done|]. exists []. by split; [reflexivity|].
  - intros w bs c id. eexists _, _. split; [reflexivity|]. split; [done|]. exists [(c, id)].
    split; [split_and!; [simpl; lia|done|done]|]. right. by eexists.
Defined.
#[export] Instance Errands_channel_laws : ChannelLaws Errands (SourceCatalog * string).
Proof. intros w. simpl. destruct (er_queue w); split_and!; simpl; rewrite ?app_nil_r; done || lia. Qed.

Definition two_errands : Errands :=
  mkErrands (mkBench 0 0 [] []) [mkSourceAction "us" desk_catalog; mkSourceAction "de" desk_catalog].
Example errands_run :
  (λ o, (snd <$> dk_chosen (er_desk o.1.1.1), length o.1.2, o.2)) <$> source_rounds 5 10 7 8 (two_errands, []) =
  Some (["us"; "de"], 2%nat, false).
Proof. vm_compute. reflexivity. Qed.

