(* ===== verification/Compositors.v ===== *)
(** * Desktop providers for Sway and Hyprland (packages/linux/src/desktop: sway.rs and
      hyprland.rs)

    Both read the focused window and the keyboards' layouts over the compositor's socket
    ([LocalIpc]) and switch a layout on request, after checking that the inventory is
    still the queued one and before confirming what was switched. *)

From Stdlib Require Import Strings.Byte.
From stdpp Require Import pretty.
From S2P Require Import Prelude Event Sink Bytes Text Desktop Budget Json LocalIpc.
Import Byte(byte).

(** ** Strings *)

(** [Iterator::find_map] *)
Fixpoint find_map {A B} (f : A → option B) (l : list A) : option B :=
  match l with
  | [] => None
  | x :: l => match f x with Some y => Some y | None => find_map f l end
  end.

Definition str (s : string) : list byte := String.list_byte_of_string s.
Definition of_bytes (bs : list byte) : string := String.string_of_list_byte bs.
Definition QUOTE : byte := x22.
Definition BACKSLASH : byte := x5c.
Definition COMMA : byte := x2c.
Definition SEMICOLON : byte := x3b.

(** [str::replace] of a character *)
Definition replace (c : byte) (by_ : list byte) (bs : list byte) : list byte :=
  bs ≫= λ b, if bool_decide (b = c) then by_ else [b].

(** [str::split] on a character, with the bytes of the current part *)
Fixpoint split_from (c : byte) (part bs : list byte) : list (list byte) :=
  match bs with
  | [] => [part]
  | b :: bs => if bool_decide (b = c) then part :: split_from c [] bs else split_from c (part ++ [b]) bs
  end.
Definition split (c : byte) (s : string) : list string := of_bytes <$> split_from c [] (str s).

(** [str::trim] on the characters *)
Fixpoint trim_start (l : text) : text :=
  match l with
  | [] => []
  | c :: rest => if is_whitespace c then trim_start rest else l
  end.
Definition trim (l : text) : text := reverse (trim_start (reverse (trim_start l))).

(** [m.ok()] of an operation *)
Definition op_ok {W X} (m : OP (W := W) X) : OP (W := W) (option X) := λ s,
  match m s with
  | Some (s, Ok x) => Some (s, Ok (Some x))
  | Some (s, Err _) => Some (s, Ok None)
  | None => None
  end.

(** [Option::ok_or_else(|| protocol(..))] *)
Definition or_missing {X} (o : option X) (m : string) : result DesktopError X :=
  ok_or o (DesktopProtocol m).

(** ** Sway *)

(** What a focused node names itself, if it does. *)
Definition names (node : Value) : option (option FocusIdentity) :=
  if bool_decide (as_bool (field node "focused") = Some true) then
    match as_str (field node "app_id") with
    | Some id => Some (FocusIdentity_new Wayland id)
    | None => FocusIdentity_new X11Class <$> as_str (field (field node "window_properties") "class")
    end
  else None.

(** The nodes below a node, tiled ones first. *)
Definition children (node : Value) : list Value :=
  default [] (as_array (field node "nodes")) ++ default [] (as_array (field node "floating_nodes")).

(** [focused]; [levels] is [129 - depth]. *)
Fixpoint focused (levels : nat) (node : Value) : option FocusIdentity :=
  match levels with
  | O => None
  | S levels =>
      match names node with
      | Some found => found
      | None => find_map (focused levels) (children node)
      end
  end.

(** What a catalogue is built from: the sources, the inventory and the current one. *)
Record Listing : Type := mkListing {
  ls_sources : list Source; ls_inventory : list Value; ls_current : option string;
}.

Section sway_catalog.
Context `{SerdeJson}.

(** The loop over the layouts of a keyboard. *)
Fixpoint sway_layouts (device : string) (active : option Z) (index : Z) (layouts : list Value)
    (acc : Listing) : result DesktopError Listing :=
  match layouts with
  | [] => Ok acc
  | label :: layouts =>
      let id := print_pair device index in
      let current := if bool_decide (active = Some index) then Some id else ls_current acc in
      label ← or_missing (as_str label) "invalid layout label";
      sway_layouts device active (index + 1) layouts
        (mkListing (ls_sources acc ++ [mkSource id label true]) (ls_inventory acc) current)
  end.

(** The loop over the inputs. *)
Fixpoint sway_inputs (inputs : list Value) (acc : Listing) : result DesktopError Listing :=
  match inputs with
  | [] => Ok acc
  | input :: inputs =>
      if negb (bool_decide (as_str (field input "type") = Some "keyboard")) then sway_inputs inputs acc
      else
        device ← or_missing (as_str (field input "identifier")) "missing keyboard identifier";
        layouts ← or_missing (as_array (field input "xkb_layout_names")) "layout enumeration unavailable";
        acc ← sway_layouts device (as_u64 (field input "xkb_active_layout_index")) 0 layouts
          (mkListing (ls_sources acc) (ls_inventory acc ++ [VArray [VString device; VArray layouts]])
             (ls_current acc));
        sway_inputs inputs acc
  end.

(** [catalog] *)
Definition sway_catalog (inputs : Value) : result DesktopError SourceCatalog :=
  inputs ← or_missing (as_array inputs) "expected input array";
  acc ← sway_inputs inputs (mkListing [] [] None);
  Ok (mkSourceCatalog "sway" (json_print (VArray (ls_inventory acc))) (ls_sources acc) (ls_current acc)).
End sway_catalog.

(** The characters that would end a Sway command. *)
Definition unsafe_identifier (device : string) : bool :=
  has_control (str device) || existsb (λ b, bool_decide (b = SEMICOLON) || bool_decide (b = COMMA)) (str device).

(** [device.replace('\\', "\\\\").replace('"', "\\\"")] *)
Definition escape (device : list byte) : list byte :=
  replace QUOTE [BACKSLASH; QUOTE] (replace BACKSLASH [BACKSLASH; BACKSLASH] device).

(** The command that switches a layout *)
Definition sway_command (device : string) (index : Z) : string :=
  of_bytes (str "input " ++ [QUOTE] ++ escape (str device) ++ [QUOTE] ++ str " xkb_switch_layout " ++
            str (pretty index)).

(** [items.is_empty() || items.iter().any(..)] on the reply to a command, negated *)
Definition all_succeeded (reply : Value) : bool :=
  match as_array reply with
  | Some items =>
      negb (bool_decide (length items = 0%nat)) &&
      forallb (λ item, bool_decide (as_bool (field item "success") = Some true)) items
  | None => false
  end.

(** [items.iter().any(..)]: a device of this name has this layout active. *)
Definition layout_active (name index_key : string) (devices : option (list Value)) (device : string)
    (index : Z) : bool :=
  match devices with
  | Some items =>
      existsb (λ input, bool_decide (as_str (field input name) = Some device) &&
        bool_decide (as_u64 (field input index_key) = Some index)) items
  | None => false
  end.

(** [format!("{epoch}:{}", generation)] *)
Definition with_epoch (epoch : string) (c : SourceCatalog) : SourceCatalog :=
  mkSourceCatalog (cat_provider c) (String.append epoch (String.append ":" (cat_generation c)))
    (cat_sources c) (cat_current c).

Section sway.
Context {W : Type} `{Operations W, LocalSockets W, SerdeJson}.
Context (rounds fuel : nat) (path : string).

(** [<Sway as DesktopProvider>::poll] *)
Definition sway_poll : OP (W := W) DesktopSnapshot :=
  adapter_scope (
    op_world op_now ≫= λ observed_at,
    socket_epoch path ≫= λ epoch,
    sway_request rounds fuel path 4 "" ≫= λ tree,
    socket_epoch path ≫= λ epoch',
    let focus := if bool_decide (epoch' = epoch) then focused 129 tree else None in
    mret (mkDesktopSnapshot focus observed_at LockUnknown)).

(** [<Sway as DesktopProvider>::sources] *)
Definition sway_sources : OP (W := W) SourceCatalog :=
  adapter_scope (
    socket_epoch path ≫= λ epoch,
    sway_request rounds fuel path 100 "" ≫= λ inputs,
    op_lift (sway_catalog inputs) ≫= λ catalog,
    socket_epoch path ≫= λ epoch',
    if negb (bool_decide (epoch' = epoch)) then op_fail StaleInventory
    else mret (with_epoch epoch catalog)).

(** [<Sway as DesktopProvider>::select] *)
Definition sway_select (old : SourceCatalog) (id : string) : OP (W := W) unit :=
  adapter_scope (
    sway_sources ≫= λ fresh,
    op_lift (SourceCatalog_check old fresh id) ≫= λ _,
    op_lift (or_protocol (parse_pair id)) ≫= λ '(device, index),
    if unsafe_identifier device then op_fail (DesktopProtocol "unsafe device identifier")
    else
      sway_request rounds fuel path 0 (sway_command device index) ≫= λ reply,
      if negb (all_succeeded reply) then op_fail SelectionFailed
      else
        sway_request rounds fuel path 100 "" ≫= λ inputs,
        if negb (layout_active "identifier" "xkb_active_layout_index" (as_array inputs) device index)
        then op_fail SelectionFailed
        else mret ()).

Definition Sway_provider : Provider W := {|
  pv_poll := sway_poll; pv_sources := sway_sources; pv_select := sway_select;
|}.
End sway.

(** ** Hyprland *)

Section hyprland_catalog.
Context `{SerdeJson}.

(** The loop over the layouts of a keyboard. *)
Fixpoint hypr_layouts (name : string) (active : option Z) (variants : list string) (index : nat)
    (layouts : list string) (acc : Listing) : Listing :=
  match layouts with
  | [] => acc
  | layout :: layouts =>
      let id := print_pair name (Z.of_nat index) in
      let current := if bool_decide (active = Some (Z.of_nat index)) then Some id else ls_current acc in
      let label := String.append layout (String.append "(" (String.append (default "" (variants !! index)) ")")) in
      hypr_layouts name active variants (S index) layouts
        (mkListing (ls_sources acc ++ [mkSource id label true]) (ls_inventory acc) current)
  end.

(** The loop over the keyboards. *)
Fixpoint hypr_keyboards (keyboards : list Value) (acc : Listing) : result DesktopError Listing :=
  match keyboards with
  | [] => Ok acc
  | keyboard :: keyboards =>
      name ← or_missing (as_str (field keyboard "name")) "missing keyboard name";
      layout ← or_missing (as_str (field keyboard "layout")) "missing layouts";
      let variants := split COMMA (default "" (as_str (field keyboard "variant"))) in
      if bool_decide (layout = "") then Err (DesktopProtocol "custom keymap inventory unavailable")
      else
        let item := VArray [VString name; field keyboard "layout"; field keyboard "variant";
                            field keyboard "options"; field keyboard "rules"; field keyboard "model"] in
        hypr_keyboards keyboards
          (hypr_layouts name (as_u64 (field keyboard "active_layout_index")) variants 0 (split COMMA layout)
             (mkListing (ls_sources acc) (ls_inventory acc ++ [item]) (ls_current acc)))
  end.

(** [catalog] *)
Definition hypr_catalog (devices : Value) : result DesktopError SourceCatalog :=
  keyboards ← or_missing (as_array (field devices "keyboards")) "missing keyboards";
  acc ← hypr_keyboards keyboards (mkListing [] [] None);
  Ok (mkSourceCatalog "hyprland" (json_print (VArray (ls_inventory acc))) (ls_sources acc) (ls_current acc)).
End hyprland_catalog.

#[export] Instance LockHint_eq_dec : EqDecision LockHint.
Proof. solve_decision. Defined.

(** [byte.is_ascii_alphanumeric() || matches!(byte, b'-' | b'_' | b'.')] *)
Definition name_byte (b : byte) : bool :=
  let c := byte_val b in
  bool_decide (48 ≤ c ≤ 57) || bool_decide (65 ≤ c ≤ 90) || bool_decide (97 ≤ c ≤ 122) ||
  bool_decide (c = 45) || bool_decide (c = 95) || bool_decide (c = 46).

(** The command that switches a layout *)
Definition hypr_command (device : string) (index : Z) : string :=
  of_bytes (str "/switchxkblayout " ++ str device ++ str " " ++ str (pretty index)).

Section hyprland.
Context {W : Type} `{Operations W, LocalSockets W, SerdeJson}.
Context (rounds fuel : nat) (path : string).

(** [observation] *)
Definition observation (focus : option FocusIdentity) (observed_at : Z) (lock_hint : LockHint)
    (same_epoch : bool) : OP (W := W) DesktopSnapshot :=
  (if bool_decide (lock_hint = Unlocked) then
     op_world op_now ≫= λ now,
     mret (bool_decide (Z.max 0 (now - observed_at) ≤ FOCUS_TTL) && same_epoch)
   else mret false) ≫= λ keep : bool,
  mret (mkDesktopSnapshot (if keep then focus else None) observed_at lock_hint).

(** The focus that the reply to [j/activewindow] names. *)
Definition window_focus (window : Value) : option FocusIdentity :=
  category ← match as_bool (field window "xwayland") with
             | Some true => Some X11Class
             | Some false => Some Wayland
             | None => None
             end;
  id ← as_str (field window "class");
  FocusIdentity_new category id.

(** The hint that the reply to [j/locked] gives, if there was one. *)
Definition hint_of (locked : option Value) : LockHint :=
  match locked ≫= λ v, as_bool (field v "locked") with
  | Some true => Locked
  | Some false => Unlocked
  | None => LockUnknown
  end.

(** [<Hyprland as DesktopProvider>::poll] *)
Definition hypr_poll : OP (W := W) DesktopSnapshot :=
  adapter_scope (
    socket_epoch path ≫= λ epoch,
    op_world op_now ≫= λ observed_at,
    hypr_json rounds fuel path "j/activewindow" ≫= λ window,
    op_ok (hypr_json rounds fuel path "j/locked") ≫= λ locked,
    socket_epoch path ≫= λ epoch',
    observation (window_focus window) observed_at (hint_of locked) (bool_decide (epoch' = epoch))).

(** [<Hyprland as DesktopProvider>::sources] *)
Definition hypr_sources : OP (W := W) SourceCatalog :=
  adapter_scope (
    socket_epoch path ≫= λ epoch,
    hypr_json rounds fuel path "j/devices" ≫= λ devices,
    op_lift (hypr_catalog devices) ≫= λ catalog,
    socket_epoch path ≫= λ epoch',
    if negb (bool_decide (epoch' = epoch)) then op_fail StaleInventory
    else mret (with_epoch epoch catalog)).

(** [<Hyprland as DesktopProvider>::select] *)
Definition hypr_select (old : SourceCatalog) (id : string) : OP (W := W) unit :=
  adapter_scope (
    hypr_sources ≫= λ fresh,
    op_lift (SourceCatalog_check old fresh id) ≫= λ _,
    op_lift (or_protocol (parse_pair id)) ≫= λ '(device, index),
    if negb (forallb name_byte (str device)) || bool_decide (device = "")
    then op_fail (DesktopProtocol "unsafe keyboard name")
    else
      hypr_request rounds fuel path (hypr_command device index) ≫= λ reply,
      if negb (bool_decide (trim (lit reply) = lit "ok")) then op_fail SelectionFailed
      else
        hypr_json rounds fuel path "j/devices" ≫= λ devices,
        socket_epoch path ≫= λ epoch,
        op_lift (hypr_catalog devices) ≫= λ fresh,
        op_lift (SourceCatalog_check old (with_epoch epoch fresh) id) ≫= λ _,
        if negb (layout_active "name" "active_layout_index" (as_array (field devices "keyboards")) device index)
        then op_fail SelectionFailed
        else mret ()).

Definition Hyprland_provider : Provider W := {|
  pv_poll := hypr_poll; pv_sources := hypr_sources; pv_select := hypr_select;
|}.
End hyprland.
