(* ===== verification/Quoting.v ===== *)
(** * The text of commands

    What the command of a layout switch says: the quoted device reads back as it is, the
    position in decimal too, and nothing in it ends the command early. *)

From Stdlib Require Import Strings.Byte.
From stdpp Require Import pretty.
From S2P Require Import Prelude Event Sink Bytes Text Desktop Budget Json LocalIpc Compositors.
Import Byte(byte).

(** ** Quoted words *)

(** A double-quoted word of a command: a backslash takes the next character as it is,
    and a quote ends the word. *)
Fixpoint unquote (bs : list byte) : option (list byte * list byte) :=
  match bs with
  | [] => None
  | b :: rest =>
      if bool_decide (b = QUOTE) then Some ([], rest)
      else if bool_decide (b = BACKSLASH) then
        match rest with
        | c :: rest => '(word, rest) ← unquote rest; Some (c :: word, rest)
        | [] => None
        end
      else '(word, rest) ← unquote rest; Some (b :: word, rest)
  end.

Lemma replace_app c by_ bs bs' : replace c by_ (bs ++ bs') = replace c by_ bs ++ replace c by_ bs'.
Proof. unfold replace. by rewrite bind_app. Qed.

Lemma unquote_escape device rest : unquote (escape device ++ QUOTE :: rest) = Some (device, rest).
Proof.
  induction device as [|b device IH]; [done|]. unfold escape in *.
  change (b :: device) with ([b] ++ device). rewrite !replace_app, <- app_assoc.
  assert (replace BACKSLASH [BACKSLASH; BACKSLASH] [b] =
    if bool_decide (b = BACKSLASH) then [BACKSLASH; BACKSLASH] else [b]) as ->
    by (unfold replace; simpl; by case_bool_decide).
  case_bool_decide as Hb.
  - simpl. by rewrite IH, Hb.
  - unfold replace at 1. simpl. case_bool_decide as Hq; simpl.
    + by rewrite IH, Hq.
    + rewrite !bool_decide_false by done. by rewrite IH.
Qed.

(** ** Numbers *)

Definition digit_byte (d : Z) : byte := byte_of (d + 48).
Definition digits (ds : list Z) : Prop := ds ≠ [] ∧ Forall (λ d, 0 ≤ d < 10) ds.

Lemma str_cons c s : str (String c s) = Ascii.byte_of_ascii c :: str s.
Proof. reflexivity. Qed.

Lemma pretty_N_char_digit d : (d < 10)%N → Ascii.byte_of_ascii (pretty_N_char d) = digit_byte (Z.of_N d).
Proof.
  intros Hd. assert (d ∈ (N.of_nat <$> seq 0 10)) as Hin.
  { apply list_elem_of_fmap. exists (N.to_nat d). split; [lia|]. apply elem_of_seq. lia. }
  repeat (apply elem_of_cons in Hin as [->|Hin]; [vm_compute; reflexivity|]). by apply not_elem_of_nil in Hin.
Qed.

Lemma pretty_N_go_digits x : ∀ s, ∃ ds, str (pretty_N_go x s) = (digit_byte <$> ds) ++ str s ∧
  Forall (λ d, 0 ≤ d < 10) ds ∧ ((0 < x)%N → ds ≠ []) ∧ digits_value 10 ds = Z.of_N x.
Proof.
  induction x as [x IH] using (well_founded_induction N.lt_wf_0). intros s.
  destruct (decide (0 < x)%N) as [Hx|Hx].
  - rewrite pretty_N_go_step by done.
    destruct (IH (x `div` 10)%N (N.div_lt x 10 Hx ltac:(lia)) (String (pretty_N_char (x `mod` 10)) s))
      as (ds & Hs & Hd & _ & Hv).
    exists (ds ++ [Z.of_N (x `mod` 10)]). split_and!.
    + rewrite Hs, str_cons, fmap_app, <- app_assoc. simpl.
      by rewrite <- pretty_N_char_digit by (apply N.mod_lt; lia).
    + apply Forall_app. split; [done|]. apply Forall_singleton.
      assert (x `mod` 10 < 10)%N by (apply N.mod_lt; lia). generalize dependent (x `mod` 10)%N. intros; lia.
    + intros _ Hnil. by destruct ds.
    + unfold digits_value in *. rewrite fold_left_app, Hv. simpl. pose proof (N.div_mod x 10 ltac:(lia)). lia.
  - exists []. assert (x = 0)%N as -> by lia. by rewrite pretty_N_go_0.
Qed.

(** [index] in decimal, as [format!] writes it *)
Lemma pretty_digits index : 0 ≤ index →
  ∃ ds, digits ds ∧ str (pretty index) = digit_byte <$> ds ∧ digits_value 10 ds = index.
Proof.
  intros Hi. destruct index as [|p|p]; [|..|lia].
  - exists [0]. split_and!; [split; [done|]|done|done]. by apply Forall_singleton.
  - destruct (pretty_N_go_digits (N.pos p) "") as (ds & Hs & Hd & Hne & Hv).
    exists ds. split_and!; [by split; [apply Hne|]| |done]. rewrite app_nil_r in Hs. exact Hs.
Qed.

(** ** Commands *)

Lemma split_from_app c part bs bs' : c ∉ bs →
  split_from c part (bs ++ c :: bs') = (part ++ bs) :: split_from c [] bs'.
Proof.
  revert part. induction bs as [|b bs IH]; intros part Hc; simpl.
  - by rewrite bool_decide_true, app_nil_r.
  - apply not_elem_of_cons in Hc as [Hb Hc]. rewrite bool_decide_false by congruence.
    by rewrite IH, <- app_assoc.
Qed.
Lemma split_from_all c part bs : c ∉ bs → split_from c part bs = [part ++ bs].
Proof.
  revert part. induction bs as [|b bs IH]; intros part Hc; simpl; [by rewrite app_nil_r|].
  apply not_elem_of_cons in Hc as [Hb Hc]. rewrite bool_decide_false by congruence.
  by rewrite IH, <- app_assoc.
Qed.

(** A byte that separates commands or words, or controls a terminal *)
Definition plain_byte (b : byte) : Prop := b ≠ SEMICOLON ∧ b ≠ COMMA ∧ 32 ≤ byte_val b.

Lemma escape_plain device : Forall plain_byte device → Forall plain_byte (escape device).
Proof.
  unfold escape, replace. rewrite !Forall_forall. intros Hd b Hb.
  apply list_elem_of_bind in Hb as (b1 & Hb & Hb1). apply list_elem_of_bind in Hb1 as (b2 & Hb1 & Hb2).
  assert (plain_byte QUOTE ∧ plain_byte BACKSLASH) as [Hq Hs] by (split; by repeat split).
  repeat case_bool_decide; set_solver.
Qed.

Lemma safe_identifier_plain device : unsafe_identifier device = false → Forall plain_byte (str device).
Proof.
  unfold unsafe_identifier. intros [Hc He]%orb_false_iff. induction (str device) as [|b bs IH]; [done|].
  simpl in Hc, He. apply orb_false_iff in He as [[Hs Hm]%orb_false_iff He].
  apply orb_false_iff in Hc as [[[Hlow _]%orb_false_iff _]%orb_false_iff Hc].
  apply bool_decide_eq_false in Hs, Hm, Hlow. constructor; [split_and!; [done|done|lia]|by apply IH].
Qed.

Lemma digits_forall (P : byte → Prop) ds :
  Forall (λ d, 0 ≤ d < 10) ds → (∀ k, (k < 10)%nat → P (digit_byte (Z.of_nat k))) → Forall P (digit_byte <$> ds).
Proof.
  intros Hd HP. apply Forall_fmap. eapply Forall_impl; [exact Hd|]. intros d Hr. simpl in Hr. unfold compose.
  rewrite <- (Z2Nat.id d) by lia. apply HP. lia.
Qed.
Ltac each_digit := let k := fresh in intros k ?; do 10 (destruct k as [|k]; [by vm_compute|]); lia.
Lemma digits_plain ds : Forall (λ d, 0 ≤ d < 10) ds → Forall plain_byte (digit_byte <$> ds).
Proof. intros Hd. apply digits_forall; [done|]. each_digit. Qed.
Lemma digits_not_blank ds : Forall (λ d, 0 ≤ d < 10) ds → Forall (λ b, b ≠ x20) (digit_byte <$> ds).
Proof. intros Hd. apply digits_forall; [done|]. each_digit. Qed.

(** C34. The command of a layout switch says what it should. Sway's quotes a device that
    reads back exactly as it is, then the position in decimal, and holds no separator of
    commands and no control character for a device that passed the check; Hyprland's is
    three words, the device and the position among them. *)
Theorem commands_exact device index :
  0 ≤ index →
  ∃ ds, digits ds ∧ digits_value 10 ds = index ∧
    (∃ rest, str (sway_command device index) = str "input " ++ QUOTE :: rest ∧
       unquote rest = Some (str device, str " xkb_switch_layout " ++ (digit_byte <$> ds))) ∧
    (unsafe_identifier device = false → Forall plain_byte (str (sway_command device index))) ∧
    (forallb name_byte (str device) = true →
       split_from x20 [] (str (hypr_command device index)) =
       [str "/switchxkblayout"; str device; digit_byte <$> ds]).
Proof.
  intros Hi. destruct (pretty_digits index Hi) as (ds & Hds & Hp & Hv). exists ds.
  assert (∀ bs, str (of_bytes bs) = bs) as Hstr by (intros; apply String.list_byte_of_string_of_list_byte).
  assert (Forall plain_byte (digit_byte <$> ds)) as Hplain by (apply digits_plain, Hds).
  assert (Forall (λ b, b ≠ x20) (digit_byte <$> ds)) as Hdigit by (apply digits_not_blank, Hds).
  unfold sway_command, hypr_command. rewrite !Hstr, Hp.
  split_and!; [done|done| | |].
  - eexists. split; [reflexivity|]. apply unquote_escape.
  - intros Hsafe. repeat (apply Forall_app; split); try done; try (by repeat (constructor; [by split_and!|])).
    by apply escape_plain, safe_identifier_plain.
  - intros Hname. change (split_from x20 [] (str "/switchxkblayout" ++ x20 :: (str device ++ x20 :: (digit_byte <$> ds))) =
      [str "/switchxkblayout"; str device; digit_byte <$> ds]).
    rewrite split_from_app, split_from_app, split_from_all; [done|..].
    + rewrite Forall_forall in Hdigit. intros Hin. by apply (Hdigit x20).
    + intros Hin%list_elem_of_In. by apply (proj1 (forallb_forall _ _) Hname x20) in Hin.
    + apply (bool_decide_unpack (x20 ∉ str "/switchxkblayout")). done.
Qed.

Lemma commands_exact_witness :
  let device := of_bytes [x6b; QUOTE; BACKSLASH] in
  ∃ ds, digits ds ∧ digits_value 10 ds = 12 ∧
    ∃ rest, str (sway_command device 12) = str "input " ++ QUOTE :: rest ∧
      unquote rest = Some ([x6b; QUOTE; BACKSLASH], str " xkb_switch_layout " ++ (digit_byte <$> ds)).
Proof.
  intros device. destruct (commands_exact device 12) as (ds & Hds & Hv & Hquoted & _); [lia|].
  exists ds. split_and!; [exact Hds|exact Hv|exact Hquoted].
Defined.
