(* ===== verification/DeskSim.v ===== *)
(** * A simulated compositor

    A JSON printer and parser, and a world in which the sockets of Sway and Hyprland
    answer: one keyboard with two layouts, switched by command. They instantiate
    [SerdeJsonLaws] and [SocketsLaws], on which the theorems about the desktop clients
    rest. *)

From Stdlib Require Import Strings.Byte.
From stdpp Require Import pretty.
From S2P Require Import Prelude Event Sink Bytes Text Desktop Budget BudgetThm Json LocalIpc LocalIpcThm Compositors Quoting.
Import Byte(byte).

(** ** JSON text *)

Definition OPEN_ARRAY : byte := x5b.
Definition CLOSE_ARRAY : byte := x5d.
Definition OPEN_OBJECT : byte := x7b.
Definition CLOSE_OBJECT : byte := x7d.
Definition COLON : byte := x3a.

Definition string_text (s : string) : list byte := QUOTE :: escape (str s) ++ [QUOTE].

Fixpoint commas (parts : list (list byte)) : list byte :=
  match parts with
  | [] => []
  | [part] => part
  | part :: parts => part ++ COMMA :: commas parts
  end.

Fixpoint json_text (v : Value) : list byte :=
  match v with
  | VNull => str "null"
  | VBool b => if b then str "true" else str "false"
  | VInt n => str (pretty n)
  | VFloat literal => str literal
  | VString s => string_text s
  | VArray items => OPEN_ARRAY :: commas (map json_text items) ++ [CLOSE_ARRAY]
  | VObject fields =>
      OPEN_OBJECT :: commas (map (λ '(k, v), string_text k ++ COLON :: json_text v) fields) ++ [CLOSE_OBJECT]
  end.

(** The digits at the front, after [acc] *)
Definition is_digit (b : byte) : bool := bool_decide (48 ≤ byte_val b ≤ 57).
Fixpoint read_number (acc : Z) (bs : list byte) : Z * list byte :=
  match bs with
  | [] => (acc, [])
  | b :: rest => if is_digit b then read_number (acc * 10 + (byte_val b - 48)) rest else (acc, bs)
  end.

Definition strip (prefix bs : list byte) : option (list byte) :=
  if bool_decide (take (length prefix) bs = prefix) then Some (drop (length prefix) bs) else None.

(** A value and what follows it; [fuel] bounds the nesting and the lengths. *)
Fixpoint read_value (fuel : nat) (bs : list byte) : option (Value * list byte) :=
  match fuel with
  | O => None
  | S fuel =>
      match bs with
      | [] => None
      | b :: rest =>
          if bool_decide (b = QUOTE) then
            '(s, rest) ← unquote rest; Some (VString (of_bytes s), rest)
          else if bool_decide (b = OPEN_ARRAY) then
            match strip [CLOSE_ARRAY] rest with
            | Some rest => Some (VArray [], rest)
            | None => '(items, rest) ← read_items fuel rest; Some (VArray items, rest)
            end
          else if bool_decide (b = OPEN_OBJECT) then
            match strip [CLOSE_OBJECT] rest with
            | Some rest => Some (VObject [], rest)
            | None => '(fields, rest) ← read_fields fuel rest; Some (VObject fields, rest)
            end
          else if is_digit b then let '(n, rest) := read_number 0 bs in Some (VInt n, rest)
          else
            match strip (str "null") bs, strip (str "true") bs, strip (str "false") bs with
            | Some rest, _, _ => Some (VNull, rest)
            | _, Some rest, _ => Some (VBool true, rest)
            | _, _, Some rest => Some (VBool false, rest)
            | _, _, _ => None
            end
      end
  end
with read_items (fuel : nat) (bs : list byte) : option (list Value * list byte) :=
  match fuel with
  | O => None
  | S fuel =>
      '(v, rest) ← read_value fuel bs;
      match strip [COMMA] rest with
      | Some rest => '(items, rest) ← read_items fuel rest; Some (v :: items, rest)
      | None => rest ← strip [CLOSE_ARRAY] rest; Some ([v], rest)
      end
  end
with read_fields (fuel : nat) (bs : list byte) : option (list (string * Value) * list byte) :=
  match fuel with
  | O => None
  | S fuel =>
      rest ← strip [QUOTE] bs;
      '(key, rest) ← unquote rest;
      rest ← strip [COLON] rest;
      '(v, rest) ← read_value fuel rest;
      match strip [COMMA] rest with
      | Some rest => '(fields, rest) ← read_fields fuel rest; Some ((of_bytes key, v) :: fields, rest)
      | None => rest ← strip [CLOSE_OBJECT] rest; Some ([(of_bytes key, v)], rest)
      end
  end.

Definition read_json (bs : list byte) : result string Value :=
  match read_value (8 + length bs) bs with
  | Some (v, []) => Ok v
  | _ => Err "invalid JSON"
  end.

#[export] Instance SimJson : SerdeJson := {|
  json_print v := of_bytes (json_text v);
  json_parse s := read_json (str s);
  json_slice := read_json;
|}.

Lemma digit_val d : 0 ≤ d < 10 → byte_val (digit_byte d) = d + 48.
Proof.
  intros Hd. rewrite <- (Z2Nat.id d) by lia. assert (Z.to_nat d < 10)%nat as Hlt by lia.
  generalize dependent (Z.to_nat d). intros k Hlt. do 10 (destruct k as [|k]; [by vm_compute|]). lia.
Qed.

Lemma read_number_digits ds rest : ∀ acc,
  Forall (λ d, 0 ≤ d < 10) ds → (∀ b bs, rest = b :: bs → is_digit b = false) →
  read_number acc ((digit_byte <$> ds) ++ rest) = (fold_left (λ acc d, acc * 10 + d) ds acc, rest).
Proof.
  induction ds as [|d ds IH]; intros acc Hd Hrest; simpl.
  - destruct rest as [|b rest]; [done|]. simpl. by rewrite (Hrest b rest eq_refl).
  - apply Forall_cons in Hd as [Hd0 Hd].
    unfold is_digit. rewrite digit_val, bool_decide_true by lia. replace (d + 48 - 48) with d by lia. by apply IH.
Qed.

Lemma read_value_string fuel s rest :
  read_value (S fuel) (QUOTE :: escape (str s) ++ QUOTE :: rest) = Some (VString s, rest).
Proof.
  cbn [read_value]. rewrite bool_decide_true by done. rewrite unquote_escape. simpl. f_equal. f_equal. f_equal.
  apply String.string_of_list_byte_of_string.
Qed.

Lemma read_value_number fuel ds rest :
  digits ds → (∀ b bs, rest = b :: bs → is_digit b = false) →
  read_value (S fuel) ((digit_byte <$> ds) ++ rest) = Some (VInt (digits_value 10 ds), rest).
Proof.
  intros [Hne Hds] Hrest. destruct ds as [|d ds]; [done|]. pose proof (read_number_digits (d :: ds) rest 0 Hds Hrest) as Hn.
  apply Forall_cons in Hds as [Hd _]. pose proof (digit_val d Hd) as Hv.
  assert (∀ b, byte_val b < 48 ∨ 57 < byte_val b → digit_byte d ≠ b) as Hnot by (intros b Hb <-; lia).
  cbn [fmap list_fmap app] in *. cbn [read_value].
  rewrite !bool_decide_false by (apply Hnot; first [left; done|right; done]).
  unfold is_digit at 1. rewrite bool_decide_true by lia. by rewrite Hn.
Qed.

#[export] Instance SimJson_laws : SerdeJsonLaws.
Proof.
  intros d n [Hn _]. destruct (pretty_digits n Hn) as (ds & Hds & Hp & Hv).
  unfold json_parse, json_print, SimJson. unfold of_bytes at 1. unfold str at 1.
  rewrite String.list_byte_of_string_of_list_byte.
  set (text := json_text _). assert (text = OPEN_ARRAY :: QUOTE :: escape (str d) ++ QUOTE :: COMMA ::
    (digit_byte <$> ds) ++ [CLOSE_ARRAY]) as ->.
  { unfold text. cbn [json_text map commas]. rewrite Hp. unfold string_text. cbn [app]. by rewrite <- !app_assoc. }
  unfold read_json. set (n0 := length _). change (8 + n0)%nat with (S (S (S (S (S (3 + n0)))))).
  set (f := (3 + n0)%nat). cbn [read_value]. rewrite bool_decide_false, bool_decide_true by done.
  change (strip [CLOSE_ARRAY] (QUOTE :: ?l)) with (@None (list byte)).
  cbn [read_items]. rewrite read_value_string. cbn [mbind option_bind].
  assert (strip [COMMA] (COMMA :: (digit_byte <$> ds) ++ [CLOSE_ARRAY]) = Some ((digit_byte <$> ds) ++ [CLOSE_ARRAY]))
    as -> by reflexivity.
  cbn [read_items]. rewrite read_value_number by (done || (intros b bs [= <- _]; reflexivity)).
  cbn [mbind option_bind]. rewrite Hv. reflexivity.
Qed.

(** ** The compositor *)

Definition obj (fields : list (string * Value)) : Value := VObject fields.
Definition keyboard_inputs (layout : Z) : Value :=
  VArray [obj [("type", VString "pointer"); ("identifier", VString "mouse")];
          obj [("type", VString "keyboard"); ("identifier", VString "kbd");
               ("xkb_layout_names", VArray [VString "US"; VString "DE"]);
               ("xkb_active_layout_index", VInt layout)]].
Definition keyboard_devices (layout : Z) : Value :=
  obj [("keyboards", VArray [obj [("name", VString "kbd"); ("layout", VString "us,de");
    ("variant", VString ",nodeadkeys"); ("active_layout_index", VInt layout)]])].
Definition window_tree : Value :=
  obj [("nodes", VArray [obj [("focused", VBool false)]; obj [("focused", VBool true); ("app_id", VString "editor")]])].

(** The index at the end of a command *)
Definition last_digit (request : list byte) : Z :=
  match last request with Some b => byte_val b - 48 | None => 0 end.

(** What it answers once a request is complete, and the layout after it. *)
Definition answer (request : list byte) (layout : Z) : option (list byte * Z) :=
  if bool_decide (slice 0 6 request = i3_magic) then
    if bool_decide (Z.of_nat (length request) = 14 + from_le (slice 6 10 request)) then
      let kind := from_le (slice 10 14 request) in
      let reply v := let body := json_text v in
        i3_magic ++ to_le 4 (Z.of_nat (length body)) ++ to_le 4 kind ++ body in
      if bool_decide (kind = 0) then Some (reply (VArray [obj [("success", VBool true)]]), last_digit request)
      else if bool_decide (kind = 4) then Some (reply window_tree, layout)
      else Some (reply (keyboard_inputs layout), layout)
    else None
  else if bool_decide (request = str "j/devices") then Some (json_text (keyboard_devices layout), layout)
  else if bool_decide (request = str "j/locked") then Some (json_text (obj [("locked", VBool false)]), layout)
  else if bool_decide (request = str "j/activewindow") then
    Some (json_text (obj [("xwayland", VBool false); ("class", VString "editor")]), layout)
  else if bool_decide (take 17 request = str "/switchxkblayout ") then Some (str "ok", last_digit request)
  else None.

(** The clock, the raised flags, what was sent on each connection, the open one and what
    can be read from it, the active layout, and the user of the peer. *)
Record Desk : Type := mkDesk {
  k_clock : Z; k_raised : list nat; k_sent : list (list byte); k_current : option Z;
  k_inbox : list byte; k_layout : Z; k_peer : Z;
}.
Definition Desk_new (peer : Z) : Desk := mkDesk 0 [] [] None [] 0 peer.
Definition tick (w : Desk) (d : Z) : Desk :=
  mkDesk (k_clock w + Z.max 0 d) (k_raised w) (k_sent w) (k_current w) (k_inbox w) (k_layout w) (k_peer w).

#[export] Instance Desk_operations : Operations Desk := {|
  op_now w := (tick w 1000, k_clock w);
  op_stopped w f := (w, bool_decide (f ∈ k_raised w));
  op_stop w f := mkDesk (k_clock w) (f :: k_raised w) (k_sent w) (k_current w) (k_inbox w) (k_layout w) (k_peer w);
  op_try_lock w := (tick w 1000, LockTaken);
  op_unlock w := w;
  op_sleep := tick;
|}.

(** Another request on a new connection; writes extend the last request. *)
Definition desk_open (w : Desk) (path : string) : Desk * Opened :=
  let fd := Z.of_nat (length (k_sent w)) in
  (mkDesk (k_clock w) (k_raised w) (k_sent w ++ [[]]) (Some fd) [] (k_layout w) (k_peer w), Connected fd).
Definition extend (sent : list (list byte)) (bytes : list byte) : list (list byte) :=
  match last sent with
  | Some request => removelast sent ++ [request ++ bytes]
  | None => sent
  end.
Definition desk_write (w : Desk) (fd timeout : Z) (bytes : list byte) : Desk * Transfer nat :=
  let sent := extend (k_sent w) bytes in
  let after :=
    match last sent with
    | Some request => default (k_inbox w, k_layout w) (answer request (k_layout w))
    | None => (k_inbox w, k_layout w)
    end in
  (mkDesk (k_clock w) (k_raised w) sent (k_current w) after.1 after.2 (k_peer w), Moved (length bytes)).
Definition desk_read (w : Desk) (fd timeout : Z) (n : nat) : Desk * Transfer (list byte) :=
  (mkDesk (k_clock w) (k_raised w) (k_sent w) (k_current w) (drop n (k_inbox w)) (k_layout w) (k_peer w),
   Moved (take n (k_inbox w))).

#[export] Instance Desk_sockets : LocalSockets Desk := {|
  ls_open := desk_open;
  ls_writable w fd := (w, Ok true);
  ls_socket_error w fd := (w, Ok None);
  ls_peer_uid w fd := (w, Ok (k_peer w));
  ls_geteuid w := 1000;
  ls_blocking w fd := (w, Ok ());
  ls_read := desk_read;
  ls_write := desk_write;
  ls_metadata w path := (w, Ok (mkSocketFile 1000 3 42 7 8));
|}.

#[export, refine] Instance Desk_laws : OperationsLaws Desk (list byte) := {|
  clock := k_clock;
  raised w f := bool_decide (f ∈ k_raised w);
  trace := k_sent;
|}.
Proof.
  all: intros; simplify_eq/=; repeat split; simpl; intros; rewrite ?app_nil_r; try done; try lia.
Defined.

#[export, refine] Instance Desk_sockets_laws : SocketsLaws Desk := {|
  current := k_current;
  signals := 0;
  interrupts _ := 0%nat;
|}.
Proof.
  all: intros; simplify_eq/=; repeat split; simpl; intros; rewrite ?app_nil_r; try done; try lia.
  - rewrite length_take. lia.
  - unfold extend. match goal with Ht : k_sent _ = _ |- _ => rewrite Ht end.
    by rewrite last_snoc, removelast_last, firstn_all.
Defined.

(** ** The simulation at work *)

Definition some_rounds : nat := 4096.
Definition many_rounds : nat := (Z.to_nat MAX_MESSAGE + 16 + signals (W := Desk))%nat.
Definition much_fuel : nat := S (Z.to_nat IPC_TIMEOUT).
Lemma much_fuel_enough : enough much_fuel.
Proof. apply Nat.lt_succ_diag_r. Qed.
Lemma many_rounds_enough : enough_rounds many_rounds.
Proof. unfold enough_rounds, many_rounds. apply Nat.le_refl. Qed.

(** Sway: a listing, a switch to the second layout, the focus; a foreign peer gets nothing. *)
Definition sim_sources := sway_sources some_rounds 10 "sway.sock" (Desk_new 1000, []).
Example sim_sway_sources :
  (λ o, cat_sources <$> (match o.2 with Ok c => Some c | Err _ => None end)) <$> sim_sources =
  Some (Some [mkSource (print_pair "kbd" 0) "US" true; mkSource (print_pair "kbd" 1) "DE" true]).
Proof. vm_compute. reflexivity. Qed.
Definition sim_catalog : SourceCatalog :=
  match sim_sources with
  | Some (_, Ok c) => c
  | _ => mkSourceCatalog "" "" [] None
  end.
Example sim_sway_select :
  (λ o, (k_layout o.1.1, length (k_sent o.1.1), o.2)) <$>
    sway_select some_rounds 10 "sway.sock" sim_catalog (print_pair "kbd" 1) (Desk_new 1000, []) =
  Some (1, 3%nat, Ok ()).
Proof. vm_compute. reflexivity. Qed.
Example sim_sway_poll :
  (λ o, (λ s, snap_focus s) <$> (match o.2 with Ok c => Some c | Err _ => None end)) <$>
    sway_poll some_rounds 10 "sway.sock" (Desk_new 1000, []) =
  Some (Some (Some (mkFocusIdentity Wayland "editor"))).
Proof. vm_compute. reflexivity. Qed.
Example sim_foreign_peer :
  (λ o, (k_sent o.1.1, o.2)) <$>
    sway_select some_rounds 10 "sway.sock" sim_catalog (print_pair "kbd" 1) (Desk_new 0, []) =
  Some ([[]], Err (Unavailable "desktop socket has different UID")).
Proof. vm_compute. reflexivity. Qed.
(** A queued inventory that is no longer the compositor's *)
Example sim_stale :
  (λ o, (k_layout o.1.1, length (k_sent o.1.1), o.2)) <$>
    sway_select some_rounds 10 "sway.sock" (mkSourceCatalog "sway" "old" (cat_sources sim_catalog) None)
      (print_pair "kbd" 1) (Desk_new 1000, []) =
  Some (0, 1%nat, Err StaleInventory).
Proof. vm_compute. reflexivity. Qed.

(** Hyprland *)
Definition sim_hypr_catalog : SourceCatalog :=
  match hypr_sources some_rounds 10 "hypr.sock" (Desk_new 1000, []) with
  | Some (_, Ok c) => c
  | _ => mkSourceCatalog "" "" [] None
  end.
Example sim_hypr_labels : (source_label <$> cat_sources sim_hypr_catalog) = ["us()"; "de(nodeadkeys)"].
Proof. vm_compute. reflexivity. Qed.
Example sim_hypr_select :
  (λ o, (k_layout o.1.1, k_sent o.1.1, o.2)) <$>
    hypr_select some_rounds 10 "hypr.sock" sim_hypr_catalog (print_pair "kbd" 1) (Desk_new 1000, []) =
  Some (1, [str "j/devices"; str "/switchxkblayout kbd 1"; str "j/devices"], Ok ()).
Proof. vm_compute. reflexivity. Qed.

Lemma requests_whole_witness :
  ∃ w' r, sway_request many_rounds much_fuel "sway.sock" 100 "" (Desk_new 1000, []) = Some ((w', []), r) ∧
    asked (i3_frame 100 "") (Desk_new 1000) w' r.
Proof.
  destruct (requests_whole many_rounds much_fuel "sway.sock" 100 "" "j/devices" (Desk_new 1000) []
    much_fuel_enough many_rounds_enough) as [Hsway _]. exact Hsway.
Defined.
