(* ===== verification/CompositorsThm.v ===== *)
(** * What the Sway and Hyprland providers promise

    The focus is the first one in the tree; the identifiers of a catalogue name exactly
    the layouts it was read from; a selection is quoted, sent once, to this user, and
    confirmed. Both providers keep the contract [ProviderLaws]. *)

From Stdlib Require Import Strings.Byte.
From stdpp Require Import pretty.
From S2P Require Import Prelude Event Sink Bytes Text Desktop Budget BudgetThm Json LocalIpc LocalIpcThm Compositors Quoting DeskSim.
Import Byte(byte).

(** ** The focused window *)

(** The node at a path of child positions; the search looks below a node only when it
    names nothing itself. *)
Fixpoint node_at (node : Value) (path : list nat) : option Value :=
  match path with
  | [] => Some node
  | i :: path =>
      match names node with
      | None => child ← children node !! i; node_at child path
      | Some _ => None
      end
  end.

(** Depth-first order: to the left, at some level. *)
Inductive left_of : list nat → list nat → Prop :=
  | left_here i j p q : (i < j)%nat → left_of (i :: p) (j :: q)
  | left_below i p q : left_of p q → left_of (i :: p) (i :: q).

(** A window that identifies itself at a path of at most so many steps *)
Definition identified (levels : nat) (node : Value) (path : list nat) (id : FocusIdentity) : Prop :=
  (length path < levels)%nat ∧ ∃ n, node_at node path = Some n ∧ names n = Some (Some id).

Lemma identified_cons levels node i path id :
  names node = None →
  identified (S levels) node (i :: path) id ↔
  ∃ child, children node !! i = Some child ∧ identified levels child path id.
Proof.
  intros Hn. unfold identified. simpl. rewrite Hn. split.
  - intros (Hlen & n & Hat & Hid). destruct (children node !! i) as [child|]; [|done].
    exists child. split_and!; [done|lia|by exists n].
  - intros (child & -> & Hlen & n & Hat & Hid). split; [lia|by exists n].
Qed.

Lemma find_map_Some {A B} (f : A → option B) l y :
  find_map f l = Some y ↔
  ∃ i x, l !! i = Some x ∧ f x = Some y ∧ ∀ j x', (j < i)%nat → l !! j = Some x' → f x' = None.
Proof.
  induction l as [|x l IH]; simpl; [split; [done|by intros (i & x & ? & _)]|].
  destruct (f x) as [y'|] eqn:Hf.
  - split.
    + intros [= <-]. exists 0%nat, x. split_and!; [done|done|lia].
    + intros ([|i] & x' & Hl & Hx & Hfirst); [by simplify_eq/=|].
      by rewrite (Hfirst 0%nat x ltac:(lia) eq_refl) in Hf.
  - rewrite IH. split.
    + intros (i & x' & Hl & Hx & Hfirst). exists (S i), x'. split_and!; [done|done|].
      intros [|j] x'' Hj Hl'; [by simplify_eq/=|]. apply (Hfirst j); [lia|done].
    + intros ([|i] & x' & Hl & Hx & Hfirst); [by simplify_eq/=|]. exists i, x'.
      split_and!; [done|done|]. intros j x'' Hj Hl'. apply (Hfirst (S j)); [lia|done].
Qed.

Lemma find_map_None {A B} (f : A → option B) l : find_map f l = None ↔ ∀ i x, l !! i = Some x → f x = None.
Proof.
  induction l as [|x l IH]; simpl; [done|]. destruct (f x) eqn:Hf.
  - split; [done|]. intros Hall. by rewrite (Hall 0%nat x eq_refl) in Hf.
  - rewrite IH. split; [intros Hall [|i] x' Hl|intros Hall i x' Hl; apply (Hall (S i) x' Hl)].
    + by simplify_eq/=.
    + by apply (Hall i).
Qed.

Lemma focused_None levels : ∀ node,
  focused levels node = None ↔ ∀ path id, ¬ identified levels node path id.
Proof.
  induction levels as [|levels IH]; intros node; simpl.
  { split; [|done]. intros _ path id [Hlen _]. lia. }
  destruct (names node) as [[id|]|] eqn:Hn.
  - split; [done|]. intros Hno. exfalso. apply (Hno [] id). split; [simpl; lia|by exists node].
  - split; [|done]. intros _ [|i path] id' [_ (n & Hat & Hid)]; simpl in Hat; [by simplify_eq|].
    by rewrite Hn in Hat.
  - rewrite find_map_None. split.
    + intros Hall [|i path] id Hid; [destruct Hid as [_ (n & Hat & Hid)]; by simplify_eq/=|].
      apply identified_cons in Hid as (child & Hc & Hid); [|done].
      eapply IH, Hid. by eapply Hall.
    + intros Hno i child Hc. apply IH. intros path id Hid. apply (Hno (i :: path) id).
      apply identified_cons; eauto.
Qed.

Lemma focused_identified levels : ∀ node id,
  focused levels node = Some id ↔
  ∃ path, identified levels node path id ∧
    ∀ path' id', left_of path' path → ¬ identified levels node path' id'.
Proof.
  induction levels as [|levels IH]; intros node id; simpl.
  { split; [done|]. intros (path & [Hlen _] & _). lia. }
  destruct (names node) as [named|] eqn:Hn.
  - split.
    + intros ->. exists []. split; [split; [simpl; lia|by exists node]|]. by inversion 1.
    + intros ([|i path] & [_ (n & Hat & Hid)] & _); simpl in Hat; [by simplify_eq|]. by rewrite Hn in Hat.
  - rewrite find_map_Some. split.
    + intros (i & child & Hi & Hf & Hfirst). apply IH in Hf as (path & Hp & Hleft).
      exists (i :: path). split; [apply identified_cons; eauto|].
      intros path' id' Hl Hid'. inversion Hl as [j ? p q Hj|? p q Hlq]; subst; clear Hl;
        (apply identified_cons in Hid' as (child' & Hc & Hid'); [|done]).
      * by eapply (focused_None levels child'); [eapply Hfirst|].
      * simplify_eq. by eapply Hleft.
    + intros ([|i path] & Hid & Hleft); [destruct Hid as [_ (n & Hat & Hid)]; by simplify_eq/=|].
      apply identified_cons in Hid as (child & Hc & Hid); [|done]. exists i, child.
      split_and!; [done| |].
      * apply IH. exists path. split; [done|]. intros path' id' Hl Hid'.
        apply (Hleft (i :: path') id'); [by constructor|]. apply identified_cons; eauto.
      * intros j child' Hj Hc'. apply focused_None. intros path' id' Hid'.
        apply (Hleft (j :: path') id'); [by constructor|]. apply identified_cons; eauto.
Qed.

(** The focus that Sway's tree reports is the first window, depth first and tiled
    before floating, that is focused and identifies itself validly, at most 128 levels
    down; nothing below a window that names itself is considered, and there is a focus
    exactly when there is such a window. *)
Theorem focus_is_first node :
  (∀ id, focused 129 node = Some id ↔
     ∃ path, identified 129 node path id ∧
       ∀ path' id', left_of path' path → ¬ identified 129 node path' id') ∧
  (focused 129 node = None ↔ ∀ path id, ¬ identified 129 node path id).
Proof. split; [intros id; apply focused_identified|apply focused_None]. Qed.

(** ** Catalogues *)

(** What a catalogue says of one keyboard: the layouts in order, under the identifier
    that names the device and the position, and which of them is active. *)
Section listings.
Context `{SerdeJson}.

Definition listed (device : string) (labels : list string) : list Source :=
  imap (λ k label, mkSource (print_pair device (Z.of_nat k)) label true) labels.
Definition active_id (device : string) (active : option Z) (labels : list string) : option string :=
  index ← active;
  if bool_decide (0 ≤ index < Z.of_nat (length labels)) then Some (print_pair device index) else None.

(** A keyboard of Sway's inputs: its identifier, its labels, its active layout. *)
Definition sway_keyboard (input : Value) : option (string * list string * option Z) :=
  device ← as_str (field input "identifier");
  layouts ← as_array (field input "xkb_layout_names");
  labels ← mapM as_str layouts;
  Some (device, labels, as_u64 (field input "xkb_active_layout_index")).
Definition is_keyboard (input : Value) : bool :=
  bool_decide (as_str (field input "type") = Some "keyboard").

(** The catalogue of a list of keyboards: all their layouts, and the last active one. *)
Definition keyboards_sources (ks : list (string * list string * option Z)) : list Source :=
  ks ≫= λ '(device, labels, _), listed device labels.
Definition keyboards_current (ks : list (string * list string * option Z)) : option string :=
  last (omap (λ '(device, labels, active), active_id device active labels) ks).

Lemma sway_layouts_ok device active layouts : ∀ index acc,
  0 ≤ index →
  match mapM as_str layouts with
  | Some labels =>
      sway_layouts device active index layouts acc =
      Ok (mkListing
        (ls_sources acc ++ imap (λ k label, mkSource (print_pair device (index + Z.of_nat k)) label true) labels)
        (ls_inventory acc)
        (match active with
         | Some k => if bool_decide (index ≤ k < index + Z.of_nat (length labels))
                     then Some (print_pair device k) else ls_current acc
         | None => ls_current acc
         end))
  | None => ∃ e, sway_layouts device active index layouts acc = Err e
  end.
Proof.
  induction layouts as [|label layouts IH]; intros index acc Hi.
  { simpl. rewrite app_nil_r. destruct acc as [ss inv cur]; simpl. destruct active as [k|]; [|done].
    by rewrite bool_decide_false by lia. }
  simpl. destruct (as_str label) as [lab|] eqn:Hlab; simpl; [|by eexists].
  specialize (IH (index + 1) (mkListing (ls_sources acc ++ [mkSource (print_pair device index) lab true])
    (ls_inventory acc)
    (if bool_decide (active = Some index) then Some (print_pair device index) else ls_current acc)) ltac:(lia)).
  destruct (mapM as_str layouts) as [labels|] eqn:Hls; simpl; [|done].
  rewrite IH. simpl. f_equal. f_equal.
  - rewrite <- app_assoc. simpl. f_equal. f_equal; [f_equal; f_equal; lia|].
    apply imap_ext. intros k lab' _. simpl. f_equal. f_equal. lia.
  - destruct active as [k|]; [|done]. destruct (decide (k = index)) as [->|Hk].
    + rewrite (bool_decide_true (Some index = Some index)) by done. repeat case_bool_decide; done || lia.
    + rewrite (bool_decide_false (Some k = Some index)) by congruence. repeat case_bool_decide; done || lia.
Qed.

Lemma last_app_r {A} (l : list A) (o : option A) : last (l ++ option_list o) = match o with Some x => Some x | None => last l end.
Proof. destruct o; simpl; [by rewrite last_snoc|by rewrite app_nil_r]. Qed.
Definition sway_acc (items : list Value) (ks : list (string * list string * option Z)) (acc : Listing) : Listing :=
  mkListing (ls_sources acc ++ keyboards_sources ks)
    (ls_inventory acc ++ ((λ k, VArray [VString k.1.1; VArray (VString <$> k.1.2)]) <$> ks))
    (match keyboards_current ks with Some id => Some id | None => ls_current acc end).

Lemma mapM_as_str layouts labels : mapM as_str layouts = Some labels → layouts = VString <$> labels.
Proof.
  revert labels. induction layouts as [|v layouts IH]; intros labels; simpl; [by intros [= <-]|].
  destruct v as [| | | |lab| |]; simpl; try done. destruct (mapM as_str layouts) as [ls|]; simpl; [|done].
  intros [= <-]. simpl. f_equal. by apply IH.
Qed.

Lemma sway_inputs_ok items : ∀ acc,
  match mapM sway_keyboard (List.filter is_keyboard items) with
  | Some ks => sway_inputs items acc = Ok (sway_acc items ks acc)
  | None => ∃ e, sway_inputs items acc = Err e
  end.
Proof.
  induction items as [|input items IH]; intros acc.
  { simpl. unfold sway_acc. simpl. rewrite !app_nil_r. by destruct acc. }
  cbn [sway_inputs List.filter]. unfold is_keyboard at 1. case_bool_decide as Hk; cbn [negb]; [|apply IH].
  cbn [mapM]. destruct (sway_keyboard input) as [k|] eqn:Hin; unfold sway_keyboard in Hin; cbn [mbind option_bind];
    revert Hin.
  all: destruct (as_str (field input "identifier")) as [device|]; simpl; try done; try (intros _; by eexists).
  all: destruct (as_array (field input "xkb_layout_names")) as [layouts|]; simpl; try done; try (intros _; by eexists).
  all: set (active := as_u64 (field input "xkb_active_layout_index")).
  all: pose proof (sway_layouts_ok device active layouts 0
    (mkListing (ls_sources acc) (ls_inventory acc ++ [VArray [VString device; VArray layouts]]) (ls_current acc))
    ltac:(lia)) as Hl.
  all: destruct (mapM as_str layouts) as [labels|] eqn:Hls; simpl; try done; intros Hk'; simplify_eq.
  2:{ destruct Hl as [e ->]. by eexists. }
  rewrite Hl. simpl. clear Hl. match goal with |- context [sway_inputs items ?a] => specialize (IH a) end.
  destruct (mapM sway_keyboard (List.filter is_keyboard items)) as [ks|]; simpl; [|done].
  rewrite IH. f_equal. unfold sway_acc. simpl. f_equal.
  - by rewrite <- app_assoc.
  - rewrite <- app_assoc. simpl. by rewrite <- (mapM_as_str _ _ Hls).
  - unfold keyboards_current. simpl. unfold active_id. destruct active as [k|]; simpl; [|done].
    repeat case_bool_decide; try lia; simpl; [|done]. rewrite last_cons. by destruct (last _).
Qed.

(** A keyboard of Hyprland's devices; its labels pair the layouts with the variants. *)
Definition hypr_label (variants : list string) (k : nat) (layout : string) : string :=
  String.append layout (String.append "(" (String.append (default "" (variants !! k)) ")")).
Definition hypr_keyboard (keyboard : Value) : option (string * list string * option Z) :=
  name ← as_str (field keyboard "name");
  layout ← as_str (field keyboard "layout");
  if bool_decide (layout = "") then None
  else
    Some (name, imap (hypr_label (split COMMA (default "" (as_str (field keyboard "variant"))))) (split COMMA layout),
          as_u64 (field keyboard "active_layout_index")).

Lemma imap_twice {A B C} (f : nat → B → C) (g : nat → A → B) l : imap f (imap g l) = imap (λ k x, f k (g k x)) l.
Proof. apply list_eq. intros k. rewrite !list_lookup_imap. by destruct (l !! k). Qed.

Lemma hypr_layouts_ok name active variants layouts : ∀ index acc,
  hypr_layouts name active variants index layouts acc =
  mkListing
    (ls_sources acc ++
     imap (λ k label, mkSource (print_pair name (Z.of_nat (index + k))) (hypr_label variants (index + k) label) true) layouts)
    (ls_inventory acc)
    (match active with
     | Some k => if bool_decide (Z.of_nat index ≤ k < Z.of_nat (index + length layouts))
                 then Some (print_pair name k) else ls_current acc
     | None => ls_current acc
     end).
Proof.
  induction layouts as [|layout layouts IH]; intros index acc.
  { simpl. rewrite app_nil_r. destruct acc as [ss inv cur]; simpl. destruct active as [k|]; [|done].
    by rewrite bool_decide_false by lia. }
  cbn [hypr_layouts]. rewrite IH. simpl. f_equal.
  - rewrite <- app_assoc. simpl. f_equal. rewrite Nat.add_0_r. f_equal.
    apply imap_ext. intros k lab _. simpl. by rewrite <- Nat.add_succ_comm.
  - destruct active as [k|]; [|done]. destruct (decide (k = Z.of_nat index)) as [->|Hk].
    + rewrite (bool_decide_true (Some _ = Some _)) by done. repeat case_bool_decide; done || lia.
    + rewrite (bool_decide_false (Some k = _)) by congruence. repeat case_bool_decide; done || lia.
Qed.

Definition hypr_item (keyboard : Value) : Value :=
  VArray (field keyboard "name" :: (field keyboard <$> ["layout"; "variant"; "options"; "rules"; "model"])).

Lemma hypr_keyboards_ok items : ∀ acc,
  match mapM hypr_keyboard items with
  | Some ks => hypr_keyboards items acc =
      Ok (mkListing (ls_sources acc ++ keyboards_sources ks) (ls_inventory acc ++ (hypr_item <$> items))
        (match keyboards_current ks with Some id => Some id | None => ls_current acc end))
  | None => ∃ e, hypr_keyboards items acc = Err e
  end.
Proof.
  induction items as [|kb items IH]; intros acc.
  { simpl. rewrite !app_nil_r. by destruct acc. }
  cbn [hypr_keyboards mapM]. unfold hypr_item. cbn [fmap list_fmap].
  destruct (hypr_keyboard kb) as [k|] eqn:Hin; unfold hypr_keyboard in Hin; cbn [mbind option_bind]; revert Hin.
  all: destruct (field kb "name") as [| | | |name| |] eqn:Hname; simpl; try done; try (intros _; by eexists).
  all: destruct (field kb "layout") as [| | | |layout| |] eqn:Hlayout; simpl; try done; try (intros _; by eexists).
  all: case_bool_decide as Hl; try done; try (intros _; by eexists).
  intros [= <-]. rewrite hypr_layouts_ok.
  set (variants := split COMMA _). set (active := as_u64 _). simpl.
  match goal with |- context [hypr_keyboards items ?a] => specialize (IH a) end.
  destruct (mapM hypr_keyboard items) as [ks|]; simpl; [|done].
  rewrite IH. simpl. f_equal. f_equal.
  - rewrite <- app_assoc. f_equal. unfold keyboards_sources. simpl. f_equal. unfold listed.
    by rewrite imap_twice.
  - rewrite <- app_assoc. done.
  - unfold keyboards_current. simpl. unfold active_id. destruct active as [k|]; simpl; [|done].
    rewrite length_imap. repeat case_bool_decide; try lia; simpl; [|done]. rewrite last_cons. by destruct (last _).
Qed.
End listings.

(** The keyboards that a reply lists, if it is well formed. *)
Definition sway_listing (inputs : Value) : option (list (string * list string * option Z)) :=
  items ← as_array inputs; mapM sway_keyboard (List.filter is_keyboard items).
Definition hypr_listing (devices : Value) : option (list (string * list string * option Z)) :=
  items ← as_array (field devices "keyboards"); mapM hypr_keyboard items.

Lemma keyboards_sources_elem `{SerdeJson} ks source :
  source ∈ keyboards_sources ks ↔
  ∃ device labels active k, (device, labels, active) ∈ ks ∧ labels !! k = Some (source_label source) ∧
    source = mkSource (print_pair device (Z.of_nat k)) (source_label source) true.
Proof.
  unfold keyboards_sources. rewrite list_elem_of_bind. split.
  - intros ([[device labels] active] & Hs & Hk). apply list_elem_of_lookup in Hs as [k Hs].
    unfold listed in Hs. rewrite list_lookup_imap in Hs. destruct (labels !! k) as [label|] eqn:Hl; [|done].
    simplify_eq/=. by exists device, labels, active, k.
  - intros (device & labels & active & k & Hk & Hl & ->). exists (device, labels, active). split; [|done].
    apply list_elem_of_lookup. exists k. unfold listed. by rewrite list_lookup_imap, Hl.
Qed.

Lemma position_u64 {A} (l : list A) k x : l !! k = Some x → is_u64 (Z.of_nat (length l)) → is_u64 (Z.of_nat k).
Proof. intros Hl%lookup_lt_Some. unfold is_u64. lia. Qed.

(** C33. A catalogue is exactly what the compositor listed. From a reply whose keyboards
    are well formed, Sway's and Hyprland's catalogues hold the layouts of every keyboard
    in order and the last active one as current; any other reply is refused. The
    identifiers read back as exactly the devices and positions that were listed, each with
    its label, provided the positions fit the machine's integers. *)
Theorem catalogue_is_listing `{SerdeJsonLaws} v :
  (match sway_listing v with
   | Some ks => ∃ c, sway_catalog v = Ok c ∧
       cat_sources c = keyboards_sources ks ∧ cat_current c = keyboards_current ks
   | None => ∃ e, sway_catalog v = Err e
   end) ∧
  (match hypr_listing v with
   | Some ks => ∃ c, hypr_catalog v = Ok c ∧
       cat_sources c = keyboards_sources ks ∧ cat_current c = keyboards_current ks
   | None => ∃ e, hypr_catalog v = Err e
   end) ∧
  ∀ ks, (∀ device labels active, (device, labels, active) ∈ ks → is_u64 (Z.of_nat (length labels))) →
    ∀ device k label,
      (∃ source, source ∈ keyboards_sources ks ∧ source_label source = label ∧
         parse_pair (source_id source) = Ok (device, Z.of_nat k)) ↔
      ∃ labels active, (device, labels, active) ∈ ks ∧ labels !! k = Some label.
Proof.
  split_and!.
  - unfold sway_listing, sway_catalog. destruct (as_array v) as [items|]; simpl; [|by eexists].
    pose proof (sway_inputs_ok items (mkListing [] [] None)) as Hin.
    destruct (mapM sway_keyboard _) as [ks|]; simpl; [|by destruct Hin as [e ->]; eexists].
    rewrite Hin. eexists. split_and!; [reflexivity|done|]. simpl. by destruct (keyboards_current ks).
  - unfold hypr_listing, hypr_catalog. destruct (as_array _) as [items|]; simpl; [|by eexists].
    pose proof (hypr_keyboards_ok items (mkListing [] [] None)) as Hin.
    destruct (mapM hypr_keyboard _) as [ks|]; simpl; [|by destruct Hin as [e ->]; eexists].
    rewrite Hin. eexists. split_and!; [reflexivity|done|]. simpl. by destruct (keyboards_current ks).
  - intros ks Hu device k label. setoid_rewrite keyboards_sources_elem. split.
    + intros (source & (device' & labels & active & k' & Hk & Hl & ->) & <- & Hp). simpl in *.
      rewrite parse_print_pair in Hp by (eapply position_u64; eauto). simplify_eq. by exists labels, active.
    + intros (labels & active & Hk & Hl). exists (mkSource (print_pair device (Z.of_nat k)) label true). split_and!; [by exists device, labels, active, k|done|].
      apply parse_print_pair. eapply position_u64; eauto.
Qed.

(** ** What is sent *)

(** Requests sent in order, each whole before the next; the last one may be cut short. *)
Inductive follows : list (list byte) → list (list byte) → Prop :=
  | follows_nil frames : follows frames []
  | follows_part frame frames p : p `prefix_of` frame → follows (frame :: frames) [p]
  | follows_cons frame frames l : follows frames l → follows (frame :: frames) (frame :: l).

Lemma follows_app frames frames' l : follows frames' l → follows (frames ++ frames') (frames ++ l).
Proof. intros Hl. induction frames; simpl; [done|by constructor]. Qed.
Lemma follows_more frames frames' l : follows frames l → follows (frames ++ frames') l.
Proof. induction 1; by constructor. Qed.
Lemma follows_all frames : follows frames frames.
Proof. induction frames; by constructor. Qed.

Section sent.
Context {W : Type} `{SocketsLaws W, SerdeJson}.
Context (rounds fuel : nat) (path : string) (Hf : enough fuel) (Hr : enough_rounds rounds).
Implicit Types (w : W) (bs : list Budget) (l : list (list byte)).

(** The rules of a method: its scope, and its requests after what was sent already. *)
Lemma op_wp_adapter {X} (m : OP (W := W) X) (I : W → result DesktopError X → Prop) l w w0 bs :
  onward l w0 w →
  (∀ w1 bs1, onward l w0 w1 → op_wp m (λ s r, s.2 = bs1 ∧ I s.1 r) (w1, bs1)) →
  op_wp (adapter_scope m) (λ s r, s.2 = bs ∧ I s.1 r) (w, bs).
Proof.
  intros Ho Hm. apply op_wp_scope. intros w1 b Hl _ _ _.
  eapply op_wp_mono; [apply Hm; by eapply onward_later|]. intros [w2 bs2] r [Hbs HI]. by split_and!.
Qed.

Definition requested {X} (frame : list byte) (l : list (list byte)) (w0 w' : W)
    (r : result DesktopError X) : Prop :=
  ∃ l1, onward (l ++ l1) w0 w' ∧ follows [frame] l1 ∧ ∀ x, r = Ok x → l1 = [frame].

Lemma requested_all {X} frame l w0 w' (r : result DesktopError X) :
  onward (l ++ [frame]) w0 w' → requested frame l w0 w' r.
Proof. intros Ho. exists [frame]. by split_and!; [|apply follows_all|]. Qed.
Lemma requested_none {X} frame l w0 w' e : onward l w0 w' → requested frame l w0 w' (Err (A := X) e).
Proof. intros Ho. exists []. rewrite app_nil_r. split_and!; [done|constructor|done]. Qed.

Lemma asked_requested {X} frame l w0 w w' (r : result DesktopError X) :
  onward l w0 w → asked frame w w' r → requested frame l w0 w' r.
Proof.
  intros Ho (l1 & Ho1 & Hl1 & Hok)%asked_onward. exists l1.
  split_and!; [by eapply onward_trans| |by intros x ->; apply Hok].
  destruct Hl1 as [->|(p & -> & Hp)]; by constructor.
Qed.

Lemma sway_request_sent kind payload l w0 w bs :
  onward l w0 w →
  op_wp (sway_request rounds fuel path kind payload) 
    (λ s r, s.2 = bs ∧ requested (i3_frame kind payload) l w0 s.1 r) (w, bs).
Proof.
  intros Ho. eapply op_wp_mono; [by apply sway_request_wp|]. intros [w' bs'] r [Hbs Ha].
  split; [done|]. by eapply asked_requested.
Qed.
Lemma hypr_request_sent request l w0 w bs :
  onward l w0 w → op_wp (hypr_request rounds fuel path request) 
    (λ s r, s.2 = bs ∧ requested (str request) l w0 s.1 r) (w, bs).
Proof.
  intros Ho. eapply op_wp_mono; [by apply hypr_request_wp|]. intros [w' bs'] r (Hbs & Ha & _).
  split; [done|]. by eapply asked_requested.
Qed.
Lemma hypr_json_sent request l w0 w bs :
  onward l w0 w → op_wp (hypr_json rounds fuel path request) 
    (λ s r, s.2 = bs ∧ requested (str request) l w0 s.1 r) (w, bs).
Proof.
  intros Ho. eapply op_wp_mono; [by apply hypr_json_wp|]. intros [w' bs'] r [Hbs Ha].
  split; [done|]. by eapply asked_requested.
Qed.
Lemma socket_epoch_sent l w0 w bs :
  onward l w0 w → op_wp (socket_epoch path) (λ s _, s.2 = bs ∧ onward l w0 s.1) (w, bs).
Proof.
  intros Ho. eapply op_wp_mono; [by apply socket_epoch_wp|]. intros [w' bs'] r [Hbs [Hs _]].
  split; [done|by eapply onward_later].
Qed.
Lemma now_sent l w0 w (Q : OSt → result DesktopError Z → Prop) bs :
  onward l w0 w → (∀ w' t, onward l w0 w' → Q (w', bs) (Ok t)) → op_wp (op_world op_now) Q (w, bs).
Proof.
  intros Ho HQ. apply op_wp_world. apply HQ. destruct (op_now w) as [w' t] eqn:Hn.
  apply now_later in Hn as [Hl _]. by eapply onward_later.
Qed.
End sent.

(** One step of a method, by the rule of what it sends *)
Ltac op_step lem w1 r1 Hsent :=
  apply op_wp_bind; eapply op_wp_mono; [eapply lem; eassumption|];
  let b := fresh "bs" in let Hb := fresh "Hbs" in
  intros [w1 b] r1 [Hb Hsent]; cbn [fst snd] in Hb, Hsent |- *; subst b.

(** ** Selections of a queued source *)

(** The source was queued as an enabled one of this provider, and names this layout. *)
Definition permitted `{SerdeJson} (provider : string) (old : SourceCatalog) (id device : string) (index : Z) : Prop :=
  cat_provider old = provider ∧
  (∃ source, find_source old id = Some source ∧ source_enabled source = true) ∧
  parse_pair id = Ok (device, index).

Lemma check_permits old fresh id :
  SourceCatalog_check old fresh id = Ok () →
  cat_provider old = cat_provider fresh ∧ cat_generation old = cat_generation fresh ∧
  cat_sources old = cat_sources fresh ∧
  ∃ source, find_source old id = Some source ∧ source_enabled source = true.
Proof.
  unfold SourceCatalog_check. repeat case_bool_decide; simpl; try done.
  unfold find_source. destruct (List.find _ (cat_sources fresh)) as [source|] eqn:Hs; simpl; [|done].
  destruct (source_enabled source) eqn:He; [|done]. intros _. split_and!; [done..|].
  exists source. by replace (cat_sources old) with (cat_sources fresh).
Qed.

Section sway.
Context {W : Type} `{SocketsLaws W, SerdeJson}.
Context (rounds fuel : nat) (path : string) (Hf : enough fuel) (Hr : enough_rounds rounds).
Implicit Types (w : W) (bs : list Budget) (l : list (list byte)).

Definition tree_frame : list byte := i3_frame 4 "".
Definition inputs_frame : list byte := i3_frame 100 "".
Definition switch_frame (device : string) (index : Z) : list byte := i3_frame 0 (sway_command device index).

Lemma sway_sources_sent l w0 w bs :
  onward l w0 w →
  op_wp (sway_sources rounds fuel path)
    (λ s r, s.2 = bs ∧ requested inputs_frame l w0 s.1 r ∧ ∀ c, r = Ok c → cat_provider c = "sway") (w, bs).
Proof.
  intros Ho. apply (op_wp_adapter _ (λ w' r, requested inputs_frame l w0 w' r ∧
    ∀ c, r = Ok c → cat_provider c = "sway") l w w0 bs Ho). clear w Ho. intros w b Ho.
  op_step socket_epoch_sent w1 r1 Ho1. destruct r1 as [epoch|e]; [|by split_and!; [|apply requested_none|]].
  op_step (sway_request_sent rounds fuel path Hf Hr 100) w2 r2 Hs2. destruct Hs2 as (l1 & Ho2 & Hl1 & Hok).
  destruct r2 as [inputs|e]; [|by split_and!; [|exists l1|]]. specialize (Hok inputs eq_refl). subst l1.
  apply op_wp_bind, op_wp_lift.
  destruct (sway_catalog inputs) as [c|e] eqn:Hc; [|by split_and!; [|apply requested_all|]].
  op_step socket_epoch_sent w3 r3 Ho3. destruct r3 as [epoch'|e]; [|by split_and!; [|apply requested_all|]].
  case_bool_decide; simpl; [apply op_wp_ret|apply op_wp_fail]; (split_and!; [done|by apply requested_all|try done]).
  intros ? [= <-]. revert Hc. unfold sway_catalog. destruct (as_array inputs); simpl; [|done].
  destruct (sway_inputs _ _); simpl; [|done]. by intros [= <-].
Qed.

(** What a selection did: it asked for the inputs only, or it sent the switch of the
    queued layout after them; when it succeeded the layout was read as active afterwards. *)
Definition sway_course (old : SourceCatalog) (id : string) (w w' : W) (r : result DesktopError unit) : Prop :=
  ∃ l, onward l w w' ∧
    (follows [inputs_frame] l ∧ r ≠ Ok () ∨
     ∃ device index, permitted "sway" old id device index ∧ unsafe_identifier device = false ∧
       Z.of_nat (length (str (sway_command device index))) ≤ MAX_MESSAGE ∧
       follows [inputs_frame; switch_frame device index; inputs_frame] l ∧
       (r = Ok () → l = [inputs_frame; switch_frame device index; inputs_frame] ∧
          ∃ s1 s2 inputs, sway_request rounds fuel path 100 "" s1 = Some (s2, Ok inputs) ∧
            onward [inputs_frame; switch_frame device index] w s1.1 ∧
            layout_active "identifier" "xkb_active_layout_index" (as_array inputs) device index = true)).

Lemma sway_select_wp old id w w0 bs :
  later w w0 →
  op_wp (sway_select rounds fuel path old id) (λ s r, s.2 = bs ∧ sway_course old id w s.1 r) (w0, bs).
Proof.
  intros Hl0. apply (op_wp_adapter _ (sway_course old id w) [] w0 w bs Hl0). clear w0 Hl0. intros w1 b Ho1.
  op_step sway_sources_sent w2 r2 Hs2. destruct Hs2 as [(l1 & Ho2 & Hl1 & Hok) Hp]. simpl in Ho2.
  destruct r2 as [fresh|e]; [|split; [done|exists l1; split; [done|by left]]].
  specialize (Hok fresh eq_refl). subst l1. specialize (Hp fresh eq_refl).
  assert (∀ e, sway_course old id w w2 (Err e)) as Hrefused.
  { intros e. exists [inputs_frame]. split; [done|]. left. split; [apply follows_all|done]. }
  apply op_wp_bind, op_wp_lift. destruct (SourceCatalog_check old fresh id) as [[]|e] eqn:Hcheck; [|done].
  apply check_permits in Hcheck as (Hprov & _ & _ & Hsource).
  apply op_wp_bind, op_wp_lift. destruct (parse_pair id) as [[device index]|e] eqn:Hpair; simpl; [|done].
  destruct (unsafe_identifier device) eqn:Hsafe; [by apply op_wp_fail|].
  set (cmd := switch_frame device index).
  destruct (decide (MAX_MESSAGE < Z.of_nat (length (str (sway_command device index))))) as [Hlong|Hfits].
  { apply op_wp_bind. unfold sway_request. rewrite bool_decide_true by exact Hlong. by apply op_wp_fail. }
  apply Z.nlt_ge in Hfits.
  assert (permitted "sway" old id device index) as Hperm by (split_and!; [by rewrite Hprov|done|done]).
  assert (∀ l w' e, onward l w w' → follows [inputs_frame; cmd; inputs_frame] l → sway_course old id w w' (Err e)) as Hcut.
  { intros l w' e Ho Hl. exists l. split; [done|]. right. by exists device, index. }
  op_step (sway_request_sent rounds fuel path Hf Hr 0) w3 r3 Hs3. destruct Hs3 as (l2 & Ho3 & Hl2 & Hok3).
  destruct r3 as [reply|e].
  2:{ split; [done|]. eapply Hcut; [exact Ho3|]. apply (follows_app [_]).
      by apply (follows_more [_]). }
  specialize (Hok3 reply eq_refl). subst l2. simpl in Ho3.
  destruct (all_succeeded reply); simpl.
  2:{ apply op_wp_fail. split; [done|]. eapply Hcut; [exact Ho3|]. by repeat constructor. }
  apply op_wp_bind.
  destruct (sway_request_sent rounds fuel path Hf Hr 100 "" _ w w3 b Ho3)
    as ([w4 b4] & r4 & Hread & Hb4 & l4 & Ho4 & Hl4 & Hok4). cbn [fst snd] in Hb4, Ho4. subst b4.
  exists (w4, b), r4. split; [exact Hread|].
  assert (follows [inputs_frame; cmd; inputs_frame] ([inputs_frame; cmd] ++ l4)) as Hl by (by apply (follows_app [_; _])).
  destruct r4 as [inputs|e]; [|split; [done|by eapply Hcut]]. specialize (Hok4 inputs eq_refl). subst l4.
  destruct (layout_active _ _ (as_array inputs) device index) eqn:Hactive; simpl.
  2:{ apply op_wp_fail. split; [done|]. by eapply Hcut. }
  apply op_wp_ret. split; [done|]. eexists. split; [exact Ho4|]. right. exists device, index.
  split_and!; [done..|]. intros _. split; [done|]. by eexists _, _, inputs.
Qed.

Lemma sway_poll_sent w bs :
  op_wp (sway_poll rounds fuel path)
    (λ s _, s.2 = bs ∧ ∃ l, onward l w s.1 ∧ follows [tree_frame] l) (w, bs).
Proof.
  apply (op_wp_adapter _ (λ w' _, ∃ l, onward l w w' ∧ follows [tree_frame] l) [] w w bs); [reflexivity|].
  intros w1 b Ho1. apply op_wp_bind. eapply now_sent; [exact Ho1|]. clear w1 Ho1. intros w1 now Ho1.
  op_step socket_epoch_sent w2 r2 Ho2. destruct r2 as [epoch|e].
  2:{ split; [done|]. exists []. by split; [|constructor]. }
  op_step (sway_request_sent rounds fuel path Hf Hr 4) w3 r3 Hs3. destruct Hs3 as (l3 & Ho3 & Hl3 & Hok3).
  destruct r3 as [tree|e]; [|by split; [|exists l3]].
  op_step socket_epoch_sent w4 r4 Ho4. destruct r4 as [epoch'|e]; [apply op_wp_ret|]; by split; [|exists l3].
Qed.
End sway.

(** A complete frame of one kind *)
Definition i3_complete (kind : Z) (e : list byte) : bool :=
  bool_decide (14 ≤ length e)%nat && bool_decide (slice 10 14 e = to_le 4 kind) &&
  bool_decide (Z.of_nat (length e) = 14 + from_le (slice 6 10 e)).

Lemma i3_prefix_complete kind kind' payload p :
  p `prefix_of` i3_frame kind payload → Z.of_nat (length (str payload)) ≤ MAX_MESSAGE →
  i3_complete kind' p = true → p = i3_frame kind payload ∧ to_le 4 kind = to_le 4 kind'.
Proof.
  intros [rest Hp] Hlen. unfold i3_complete. rewrite !andb_true_iff, !bool_decide_eq_true.
  intros [[H14 Hk] Hl]. set (body := str payload) in *.
  assert (∀ a b, (b ≤ 14)%nat → slice a b p = slice a b (i3_frame kind payload)) as Hs.
  { intros a b Hb. rewrite Hp. symmetry. apply slice_app_l. lia. }
  assert (slice 6 10 (i3_frame kind payload) = to_le 4 (Z.of_nat (length body))) as Hsize by reflexivity.
  assert (slice 10 14 (i3_frame kind payload) = to_le 4 kind) as Hkind by reflexivity.
  rewrite Hs, Hkind in Hk by lia. split; [|done].
  rewrite Hs, Hsize, from_to_le in Hl.
  - assert (length (i3_frame kind payload) = 14 + length body)%nat as Hfull by reflexivity.
    rewrite Hp, length_app in Hfull. destruct rest; [|simpl in Hfull; lia]. by rewrite Hp, app_nil_r.
  - change (8 * Z.of_nat 4) with 32. unfold MAX_MESSAGE in Hlen. lia.
  - lia.
Qed.

Section hyprland.
Context {W : Type} `{SocketsLaws W, SerdeJson}.
Context (rounds fuel : nat) (path : string) (Hf : enough fuel) (Hr : enough_rounds rounds).
Implicit Types (w : W) (bs : list Budget) (l : list (list byte)).

Definition devices_request : list byte := str "j/devices".
Definition switch_request (device : string) (index : Z) : list byte := str (hypr_command device index).

Lemma hypr_catalog_provider devices c : hypr_catalog devices = Ok c → cat_provider c = "hyprland".
Proof.
  unfold hypr_catalog. destruct (as_array _); simpl; [|done].
  destruct (hypr_keyboards _ _); simpl; [|done]. by intros [= <-].
Qed.

Lemma hypr_sources_sent l w0 w bs :
  onward l w0 w →
  op_wp (hypr_sources rounds fuel path)
    (λ s r, s.2 = bs ∧ requested devices_request l w0 s.1 r ∧ ∀ c, r = Ok c → cat_provider c = "hyprland") (w, bs).
Proof.
  intros Ho. apply (op_wp_adapter _ (λ w' r, requested devices_request l w0 w' r ∧
    ∀ c, r = Ok c → cat_provider c = "hyprland") l w w0 bs Ho). clear w Ho. intros w b Ho.
  op_step socket_epoch_sent w1 r1 Ho1. destruct r1 as [epoch|e]; [|by split_and!; [|apply requested_none|]].
  op_step (hypr_json_sent rounds fuel path Hf Hr) w2 r2 Hs2. destruct Hs2 as (l1 & Ho2 & Hl1 & Hok).
  destruct r2 as [devices|e]; [|by split_and!; [|exists l1|]]. specialize (Hok devices eq_refl). subst l1.
  apply op_wp_bind, op_wp_lift.
  destruct (hypr_catalog devices) as [c|e] eqn:Hc; [|by split_and!; [|apply requested_all|]].
  op_step socket_epoch_sent w3 r3 Ho3. destruct r3 as [epoch'|e]; [|by split_and!; [|apply requested_all|]].
  case_bool_decide; simpl; [apply op_wp_ret|apply op_wp_fail]; (split_and!; [done|by apply requested_all|try done]).
  intros ? [= <-]. by apply hypr_catalog_provider in Hc.
Qed.

(** The same for Hyprland, whose confirmation also finds the inventory unchanged. *)
Definition hypr_course (old : SourceCatalog) (id : string) (w w' : W) (r : result DesktopError unit) : Prop :=
  ∃ l, onward l w w' ∧
    (follows [devices_request] l ∧ r ≠ Ok () ∨
     ∃ device index, permitted "hyprland" old id device index ∧ forallb name_byte (str device) = true ∧
       follows [devices_request; switch_request device index; devices_request] l ∧
       (r = Ok () → l = [devices_request; switch_request device index; devices_request] ∧
          ∃ s1 s2 devices epoch c, hypr_json rounds fuel path "j/devices" s1 = Some (s2, Ok devices) ∧
            onward [devices_request; switch_request device index] w s1.1 ∧
            hypr_catalog devices = Ok c ∧ cat_sources c = cat_sources old ∧
            cat_generation (with_epoch epoch c) = cat_generation old ∧
            layout_active "name" "active_layout_index" (as_array (field devices "keyboards")) device index = true)).

Lemma hypr_select_wp old id w w0 bs :
  later w w0 →
  op_wp (hypr_select rounds fuel path old id) (λ s r, s.2 = bs ∧ hypr_course old id w s.1 r) (w0, bs).
Proof.
  intros Hl0. apply (op_wp_adapter _ (hypr_course old id w) [] w0 w bs Hl0). clear w0 Hl0. intros w1 b Ho1.
  op_step hypr_sources_sent w2 r2 Hs2. destruct Hs2 as [(l1 & Ho2 & Hl1 & Hok) Hp]. simpl in Ho2.
  destruct r2 as [fresh|e]; [|split; [done|exists l1; split; [done|by left]]].
  specialize (Hok fresh eq_refl). subst l1. specialize (Hp fresh eq_refl).
  assert (∀ e, hypr_course old id w w2 (Err e)) as Hrefused.
  { intros e. exists [devices_request]. split; [done|]. left. split; [apply follows_all|done]. }
  apply op_wp_bind, op_wp_lift. destruct (SourceCatalog_check old fresh id) as [[]|e] eqn:Hcheck; [|done].
  apply check_permits in Hcheck as (Hprov & _ & _ & Hsource).
  apply op_wp_bind, op_wp_lift. destruct (parse_pair id) as [[device index]|e] eqn:Hpair; simpl; [|done].
  destruct (forallb name_byte (str device)) eqn:Hsafe; simpl; [|by apply op_wp_fail].
  case_bool_decide; [by apply op_wp_fail|].
  set (cmd := switch_request device index).
  assert (permitted "hyprland" old id device index) as Hperm by (split_and!; [by rewrite Hprov|done|done]).
  assert (∀ l w' e, onward l w w' → follows [devices_request; cmd; devices_request] l →
    hypr_course old id w w' (Err e)) as Hcut.
  { intros l w' e Ho Hl. exists l. split; [done|]. right. by exists device, index. }
  op_step (hypr_request_sent rounds fuel path Hf Hr) w3 r3 Hs3. destruct Hs3 as (l2 & Ho3 & Hl2 & Hok3).
  destruct r3 as [reply|e].
  2:{ split; [done|]. eapply Hcut; [exact Ho3|]. apply (follows_app [_]). by apply (follows_more [_]). }
  specialize (Hok3 reply eq_refl). subst l2. simpl in Ho3.
  destruct (bool_decide (trim (lit reply) = lit "ok")); cbn [negb].
  2:{ apply op_wp_fail. split; [done|]. eapply Hcut; [exact Ho3|]. by repeat constructor. }
  apply op_wp_bind.
  destruct (hypr_json_sent rounds fuel path Hf Hr "j/devices" _ w w3 b Ho3)
    as ([w4 b4] & r4 & Hread & Hb4 & l4 & Ho4 & Hl4 & Hok4). cbn [fst snd] in Hb4, Ho4. subst b4.
  exists (w4, b), r4. split; [exact Hread|].
  assert (follows [devices_request; cmd; devices_request] ([devices_request; cmd] ++ l4)) as Hl
    by (by apply (follows_app [_; _])).
  destruct r4 as [devices|e]; [|split; [done|by eapply Hcut]]. specialize (Hok4 devices eq_refl). subst l4.
  op_step socket_epoch_sent w5 r5 Ho5. destruct r5 as [epoch|e]; [|split; [done|by eapply Hcut]].
  assert (∀ e, hypr_course old id w w5 (Err e)) as Herr by (intros e; by eapply Hcut).
  apply op_wp_bind, op_wp_lift. destruct (hypr_catalog devices) as [c|e] eqn:Hc; [|done].
  apply op_wp_bind, op_wp_lift.
  destruct (SourceCatalog_check old (with_epoch epoch c) id) as [[]|e] eqn:Hcheck2; [|done].
  apply check_permits in Hcheck2 as (_ & Hgen & Hsrc & _).
  destruct (layout_active _ _ (as_array (field devices "keyboards")) device index) eqn:Hactive; simpl;
    [|by apply op_wp_fail].
  apply op_wp_ret. split; [done|]. eexists. split; [exact Ho5|]. right. exists device, index.
  split_and!; [done..|]. intros _. split; [done|]. by eexists _, _, devices, epoch, c.
Qed.

Lemma op_wp_ok {X} (m : OP (W := W) X) (Q : OSt → result DesktopError (option X) → Prop) s :
  op_wp m (λ s' r, Q s' (Ok match r with Ok x => Some x | Err _ => None end)) s → op_wp (op_ok m) Q s.
Proof.
  intros (s' & r & Hm & HQ). unfold op_wp, op_ok. rewrite Hm. destruct r; eauto.
Qed.

Lemma hypr_poll_sent w bs :
  op_wp (hypr_poll rounds fuel path)
    (λ s _, s.2 = bs ∧ ∃ l, onward l w s.1 ∧ follows [str "j/activewindow"; str "j/locked"] l) (w, bs).
Proof.
  apply (op_wp_adapter _ (λ w' _, ∃ l, onward l w w' ∧ follows [str "j/activewindow"; str "j/locked"] l)
    [] w w bs); [reflexivity|].
  intros w1 b Ho1. op_step socket_epoch_sent w2 r2 Ho2. destruct r2 as [epoch|e].
  2:{ split; [done|]. exists []. by split; [|constructor]. }
  apply op_wp_bind. eapply now_sent; [exact Ho2|]. clear w2 Ho2. intros w2 now Ho2.
  op_step (hypr_json_sent rounds fuel path Hf Hr) w3 r3 Hs3. destruct Hs3 as (l3 & Ho3 & Hl3 & Hok3).
  destruct r3 as [window|e]; [|split; [done|exists l3; split; [done|by apply (follows_more [_])]]].
  specialize (Hok3 window eq_refl). subst l3. simpl in Ho3.
  apply op_wp_bind, op_wp_ok. eapply op_wp_mono; [by eapply (hypr_json_sent rounds fuel path Hf Hr)|].
  intros [w4 b4] r4 [Hb4 (l4 & Ho4 & Hl4 & _)]. cbn [fst snd] in Hb4, Ho4. subst b4.
  assert (follows [str "j/activewindow"; str "j/locked"] ([str "j/activewindow"] ++ l4)) as Hl
    by (by apply (follows_app [_])).
  op_step socket_epoch_sent w5 r5 Ho5. destruct r5 as [epoch'|e]; [|by split; [|eexists]].
  unfold observation. apply op_wp_bind. case_bool_decide.
  - apply op_wp_bind. eapply now_sent; [exact Ho5|]. intros w6 t Ho6. apply op_wp_ret, op_wp_ret.
    by split; [|eexists].
  - apply op_wp_ret, op_wp_ret. by split; [|eexists].
Qed.
End hyprland.

(** ** The contract of a provider *)

Lemma follows_quiet (sel : list byte → bool) frames l :
  follows frames l → (∀ frame p, frame ∈ frames → p `prefix_of` frame → sel p = false) →
  List.filter sel l = [].
Proof.
  induction 1 as [|frame frames p Hp|frame frames l Hl IH]; intros Hsel; simpl; [done|..].
  - by rewrite (Hsel frame p) by (by left || done).
  - rewrite (Hsel frame frame) by (by left || done). apply IH. intros f p Hf. apply Hsel. by right.
Qed.

(** Of a query, a command and the query again, the command alone may be a selection. *)
Lemma follows_once (sel : list byte → bool) query cmd l :
  follows [query; cmd; query] l → (∀ p, p `prefix_of` query → sel p = false) →
  List.filter sel l = [] ∧ (sel cmd = true → l ≠ [query; cmd; query]) ∨
  ∃ e, List.filter sel l = [e] ∧ e `prefix_of` cmd ∧ sel e = true.
Proof.
  intros Hl Hq. assert (∀ l, follows [query] l → List.filter sel l = []) as Hquiet.
  { intros l' Hl'. eapply follows_quiet; [done|]. by intros f p ->%list_elem_of_singleton; apply Hq. }
  inversion Hl as [|? ? p Hp|? ? l1 Hl1]; subst; simpl.
  - by left.
  - left. rewrite (Hq p) by done. split; [done|]. by intros _ [= _ ?].
  - rewrite (Hq query) by done. inversion Hl1 as [|? ? p Hp|? ? l2 Hl2]; subst; simpl.
    + left. by split.
    + destruct (sel p) eqn:Hsel; [right; by exists p|left; by split].
    + destruct (sel cmd) eqn:Hsel; [right; exists cmd|left]; by rewrite (Hquiet l2).
Qed.

Section contracts.
Context {W : Type} `{SocketsLaws W, SerdeJson}.
Context (rounds fuel : nat) (path : string) (Hf : enough fuel) (Hr : enough_rounds rounds).
Implicit Types (w : W) (bs : list Budget).

Definition sway_selects (old : SourceCatalog) (id : string) (e : list byte) : Prop :=
  ∃ device index, permitted "sway" old id device index ∧ unsafe_identifier device = false ∧
    e = switch_frame device index.

Lemma queries_select_nothing kind payload p :
  kind = 4 ∨ kind = 100 → payload = "" → p `prefix_of` i3_frame kind payload → i3_complete 0 p = false.
Proof.
  intros Hk -> Hp. destruct (i3_complete 0 p) eqn:Hc; [|done]. exfalso.
  apply (i3_prefix_complete _ 0) in Hp as [_ Hk']; [|done|done]. by destruct Hk as [-> | ->].
Qed.

Lemma switch_selects device index :
  Z.of_nat (length (str (sway_command device index))) ≤ MAX_MESSAGE → i3_complete 0 (switch_frame device index) = true.
Proof.
  intros Hlen. unfold i3_complete, switch_frame. rewrite !andb_true_iff, !bool_decide_eq_true.
  set (payload := sway_command device index) in *.
  assert (length (i3_frame 0 payload) = 14 + length (str payload))%nat as -> by reflexivity.
  assert (slice 6 10 (i3_frame 0 payload) = to_le 4 (Z.of_nat (length (str payload)))) as -> by reflexivity.
  rewrite from_to_le; [split_and!; [lia|reflexivity|lia]|].
  change (8 * Z.of_nat 4) with 32. unfold MAX_MESSAGE in Hlen. lia.
Qed.

#[refine] Instance Sway_laws : ProviderLaws (H1 := Sway_provider rounds fuel path) W (list byte) := {|
  selection := i3_complete 0;
  selects := sway_selects;
|}.
Proof.
  - intros w bs. eapply op_wp_mono; [by apply sway_poll_sent|]. intros s r (Hbs & l & Ho & Hl). split; [done|].
    exists l. split; [done|]. eapply follows_quiet; [exact Hl|].
    intros f p ->%list_elem_of_singleton. apply queries_select_nothing; auto.
  - intros w bs. eapply op_wp_mono; [by apply (sway_sources_sent rounds fuel path Hf Hr [] w w bs)|].
    intros s r (Hbs & (l & Ho & Hl & _) & _). split; [done|].
    exists l. split; [done|]. eapply follows_quiet; [exact Hl|].
    intros f p ->%list_elem_of_singleton. apply queries_select_nothing; auto.
  - intros w bs old id. eapply op_wp_mono; [by apply (sway_select_wp rounds fuel path Hf Hr old id w w bs)|].
    intros s r (Hbs & l & Ho & HI). split; [done|]. exists l. split; [done|].
    destruct HI as [[Hl Hne]|(device & index & Hperm & Hsafe & Hfits & Hl & Hok)].
    + left. split; [|done]. eapply follows_quiet; [exact Hl|].
      intros f p ->%list_elem_of_singleton. apply queries_select_nothing; auto.
    + destruct (follows_once (i3_complete 0) _ _ l Hl) as [[Hq Hne]|(e & He & Hpre & Hsel)].
      { intros p. apply queries_select_nothing; auto. }
      * left. split; [done|]. intros Hrok. by apply Hne; [apply switch_selects|apply Hok].
      * right. exists e. split; [done|]. exists device, index. split_and!; [done|done|].
        by apply (i3_prefix_complete _ 0) in Hpre as [-> _].
Defined.

Definition hypr_selects (old : SourceCatalog) (id : string) (e : list byte) : Prop :=
  ∃ device index, permitted "hyprland" old id device index ∧ forallb name_byte (str device) = true ∧
    e `prefix_of` switch_request device index.
Definition hypr_switches (e : list byte) : bool := bool_decide (str "/switchxkblayout " `prefix_of` e).

Lemma hypr_queries_quiet frames l :
  (∀ frame, frame ∈ frames → hypr_switches frame = false) → follows frames l → List.filter hypr_switches l = [].
Proof.
  intros Hq Hl. eapply follows_quiet; [exact Hl|]. intros frame p Hf' Hp. specialize (Hq frame Hf').
  unfold hypr_switches in *. apply bool_decide_eq_false in Hq. apply bool_decide_eq_false.
  intros Hs. apply Hq. by transitivity p.
Qed.

#[refine] Instance Hyprland_laws : ProviderLaws (H1 := Hyprland_provider rounds fuel path) W (list byte) := {|
  selection := hypr_switches;
  selects := hypr_selects;
|}.
Proof.
  - intros w bs. eapply op_wp_mono; [by apply hypr_poll_sent|]. intros s r (Hbs & l & Ho & Hl). split; [done|].
    exists l. split; [done|]. eapply hypr_queries_quiet; [|exact Hl].
    intros f Hin. repeat (apply elem_of_cons in Hin as [->|Hin]; [done|]). by apply not_elem_of_nil in Hin.
  - intros w bs. eapply op_wp_mono; [by apply (hypr_sources_sent rounds fuel path Hf Hr [] w w bs)|].
    intros s r (Hbs & (l & Ho & Hl & _) & _). split; [done|].
    exists l. split; [done|]. eapply hypr_queries_quiet; [|exact Hl]. by intros f ->%list_elem_of_singleton.
  - intros w bs old id. eapply op_wp_mono; [by apply (hypr_select_wp rounds fuel path Hf Hr old id w w bs)|].
    intros s r (Hbs & l & Ho & HI). split; [done|]. exists l. split; [done|].
    destruct HI as [[Hl Hne]|(device & index & Hperm & Hsafe & Hl & Hok)].
    + left. split; [|done]. eapply hypr_queries_quiet; [|exact Hl]. by intros f ->%list_elem_of_singleton.
    + destruct (follows_once hypr_switches _ _ l Hl) as [[Hq Hne]|(e & He & Hpre & Hsel)].
      { intros p Hp. destruct (hypr_switches p) eqn:Hs; [|done]. apply bool_decide_eq_true in Hs.
        assert (str "/switchxkblayout " `prefix_of` devices_request) as Habs by (by transitivity p).
        by destruct Habs as [k Hk]. }
      * left. split; [done|]. intros Hrok. apply Hne; [|by apply Hok]. apply bool_decide_eq_true.
        unfold switch_request, hypr_command, of_bytes, str.
        rewrite String.list_byte_of_string_of_list_byte. by apply prefix_app_r.
      * right. exists e. split; [done|]. by exists device, index.
Defined.
End contracts.

Section dispatch.
Context {W : Type} `{SocketsLaws W, SerdeJson}.
Implicit Types (w : W) (bs : list Budget).

(** C14. A source action on Sway, end to end: the dispatcher returns with the caller's
    budgets, whatever the compositor does. Either the inputs were asked for at most, and
    the action failed; or, after them, the one command that switches the queued device to
    the queued layout was sent, in full or cut off, with nothing but a second reading of
    the inputs after it. It succeeds only when all three were sent and the last reading
    showed the layout active. Once the dispatcher is stopped, nothing is sent. *)
Theorem sway_action_confirmed rounds fuel wait path stopped old id w bs :
  enough fuel → enough_rounds rounds → enough wait →
  ∃ w' r, @dispatcher_select W _ (Sway_provider rounds fuel path) wait stopped old id (w, bs) =
      Some ((w', bs), r) ∧
    sway_course rounds fuel path old id w w' r ∧
    (raised w stopped = true → trace w' = trace w ∧ ∃ e, r = Err e).
Proof.
  intros Hf Hr Hw.
  destruct (op_wp_run_locked wait (sway_select rounds fuel path old id)
    (sway_course rounds fuel path old id w) stopped w bs Hw)
    as ([w' bs'] & r & Hrun & Hbs & HI & Hraised).
  - intros w1 bs1 Hl. by apply sway_select_wp.
  - intros w1 w2 r (l & Ho & HI) Hl. exists l. split; [by eapply onward_later|done].
  - intros w1 r e (l & Ho & HI). exists l. split; [done|].
    destruct HI as [[Hl _]|(d & i & Hp & Hs & Hfits & Hl & _)]; [by left|right]. by exists d, i.
  - intros w1 e Hl. exists []. split; [done|]. left. by split; [constructor|].
  - cbn [fst snd] in Hbs, HI, Hraised. subst bs'. exists w', r. split_and!; [exact Hrun|done|].
    intros Hs. destruct (Hraised Hs) as [(_ & _ & Ht) He]. by rewrite app_nil_r in Ht.
Qed.

(** The same on Hyprland; its success also means that the inventory read afterwards
    is the queued one. *)
Theorem hyprland_action_confirmed rounds fuel wait path stopped old id w bs :
  enough fuel → enough_rounds rounds → enough wait →
  ∃ w' r, @dispatcher_select W _ (Hyprland_provider rounds fuel path) wait stopped old id (w, bs) =
      Some ((w', bs), r) ∧
    hypr_course rounds fuel path old id w w' r ∧
    (raised w stopped = true → trace w' = trace w ∧ ∃ e, r = Err e).
Proof.
  intros Hf Hr Hw.
  destruct (op_wp_run_locked wait (hypr_select rounds fuel path old id)
    (hypr_course rounds fuel path old id w) stopped w bs Hw)
    as ([w' bs'] & r & Hrun & Hbs & HI & Hraised).
  - intros w1 bs1 Hl. by apply hypr_select_wp.
  - intros w1 w2 r (l & Ho & HI) Hl. exists l. split; [by eapply onward_later|done].
  - intros w1 r e (l & Ho & HI). exists l. split; [done|].
    destruct HI as [[Hl _]|(d & i & Hp & Hs & Hl & _)]; [by left|right]. by exists d, i.
  - intros w1 e Hl. exists []. split; [done|]. left. by split; [constructor|].
  - cbn [fst snd] in Hbs, HI, Hraised. subst bs'. exists w', r. split_and!; [exact Hrun|done|].
    intros Hs. destruct (Hraised Hs) as [(_ & _ & Ht) He]. by rewrite app_nil_r in Ht.
Qed.
End dispatch.

(** ** In the simulated desktop *)

Lemma sway_action_confirmed_witness :
  ∃ w' r, @dispatcher_select Desk _ (Sway_provider many_rounds much_fuel "sway.sock") much_fuel 7 sim_catalog
      (print_pair "kbd" 1) (Desk_new 1000, []) = Some ((w', []), r) ∧
    sway_course many_rounds much_fuel "sway.sock" sim_catalog (print_pair "kbd" 1) (Desk_new 1000) w' r.
Proof.
  destruct (sway_action_confirmed many_rounds much_fuel much_fuel "sway.sock" 7 sim_catalog (print_pair "kbd" 1)
    (Desk_new 1000) [] much_fuel_enough many_rounds_enough much_fuel_enough) as (w' & r & Hrun & Hcourse & _).
  exists w', r. split; [exact Hrun|exact Hcourse].
Defined.

Lemma hyprland_action_confirmed_witness :
  ∃ w' r, @dispatcher_select Desk _ (Hyprland_provider many_rounds much_fuel "hypr.sock") much_fuel 7
      sim_hypr_catalog (print_pair "kbd" 1) (Desk_new 1000, []) = Some ((w', []), r) ∧
    hypr_course many_rounds much_fuel "hypr.sock" sim_hypr_catalog (print_pair "kbd" 1) (Desk_new 1000) w' r.
Proof.
  destruct (hyprland_action_confirmed many_rounds much_fuel much_fuel "hypr.sock" 7 sim_hypr_catalog
    (print_pair "kbd" 1) (Desk_new 1000) [] much_fuel_enough many_rounds_enough much_fuel_enough)
    as (w' & r & Hrun & Hcourse & _).
  exists w', r. split; [exact Hrun|exact Hcourse].
Defined.

Lemma catalogue_is_listing_witness :
  sway_listing (keyboard_inputs 1) = Some [("kbd", ["US"; "DE"], Some 1)] ∧
  ∃ c, sway_catalog (keyboard_inputs 1) = Ok c ∧ cat_current c = Some (print_pair "kbd" 1).
Proof.
  split; [vm_compute; reflexivity|].
  destruct (catalogue_is_listing (keyboard_inputs 1)) as [(c & Hc & _ & Hcur) _].
  exists c. split; [exact Hc|exact Hcur].
Defined.
