(* ===== verification/Bus.v ===== *)
(** * Calls over the session bus (packages/linux/src/desktop: bus.rs, and [wait] of
      operation.rs)

    Every call is made to the unique owner that was found when the client connected, and
    is preceded by a check that the name still has that owner. A call that fails or is
    cancelled takes the connection away for good. zbus and zvariant are the classes
    [SessionBus] and [Zvariant]. *)

From S2P Require Import Prelude Event Sink Bytes Desktop Budget Json LocalIpc.

(** The arguments of a call, as far as the clients send any *)
Inductive BusArg : Type := BStr (s : string) | BU32 (n : Z).

(** [Connection::call_method] *)
Record BusCall : Type := mkBusCall {
  bc_destination : string; bc_path : string; bc_interface : string; bc_method : string;
  bc_body : list BusArg;
}.
#[export] Instance BusArg_eq_dec : EqDecision BusArg.
Proof. solve_decision. Defined.
#[export] Instance BusCall_eq_dec : EqDecision BusCall.
Proof. solve_decision. Defined.

(** [Entry] of fcitx5.rs: the identifier, the label and five more fields *)
Record FcitxEntry : Type := mkFcitxEntry {
  en_id : string; en_label : string; en_2 : string; en_3 : string; en_4 : string; en_5 : string;
  en_6 : bool;
}.

(** zvariant: the values of a message, and the types that bodies are read as *)
Class Zvariant : Type := {
  Zv : Type;
  Body : Type;
  (** [Value::Value(inner)], and [try_from] for structures, strings and arrays *)
  zv_inner : Zv → option Zv;
  zv_structure : Zv → result string (list Zv);
  zv_str : Zv → result string string;
  zv_array : Zv → result string (list Zv);
  (** [body().deserialize()] *)
  de_string : Body → result string string;
  de_bool : Body → result string bool;
  de_u32 : Body → result string Z;
  de_strings : Body → result string (list string);
  de_value : Body → result string Zv;
  de_layouts : Body → result string (list (string * string * string));
  de_group : Body → result string (string * list (string * string));
  de_entries : Body → result string (list FcitxEntry);
}.

Section message.
Context `{Zvariant}.
(** [Message]: the length of its data and its body *)
Record BusMessage : Type := mkBusMessage { msg_len : Z; msg_body : Body }.
End message.

Class SessionBus (W : Type) `{Zvariant} : Type := {
  (** [tokio::runtime::Builder::build] *)
  sb_runtime : W → W * result string unit;
  (** [connection::Builder::session]: the future of a connection, and one poll of it *)
  sb_build : W → W * result string Z;
  sb_poll_build : W → Z → Z → W * option (result string Z);
  (** [call_method]: the first poll begins the call; [None] is a slice that passed *)
  sb_begin : W → Z → BusCall → W * Z;
  sb_poll : W → Z → Z → W * option (result string BusMessage);
  (** [connection.close()], for a slice at most *)
  sb_close : W → Z → W;
}.

(** [struct Bus], less its connection *)
Record Bus : Type := mkBus {
  bus_owner : string; bus_name : string; bus_path : string; bus_interface : string;
}.

(** Where a client keeps [connection]. *)
Record Slot (S : Type) : Type := mkSlot { slot_get : S → option Z; slot_take : S → S }.
#[global] Arguments mkSlot {S}.
#[global] Arguments slot_get {S}.
#[global] Arguments slot_take {S}.

(** A client's own state beside the world *)
#[export] Instance beside_operations {W S} `{Operations W} : Operations (W * S) := {|
  op_now p := let '(w, t) := op_now p.1 in ((w, p.2), t);
  op_stopped p f := let '(w, b) := op_stopped p.1 f in ((w, p.2), b);
  op_stop p f := (op_stop p.1 f, p.2);
  op_try_lock p := let '(w, t) := op_try_lock p.1 in ((w, p.2), t);
  op_unlock p := (op_unlock p.1, p.2);
  op_sleep p d := (op_sleep p.1 d, p.2);
|}.

Section wait.
Context {W : Type} `{Operations W}.

(** The rest of [wait], once the future was polled for the first time. *)
Fixpoint wait_from {X} (fuel : nat) (poll : Z → W → W * option X) (left : Z) : OP (W := W) X :=
  match fuel with
  | O => λ _, None
  | S fuel =>
      op_world (poll (Z.min left SLICE)) ≫= λ done,
      match done with
      | Some x => remaining_budget ≫= λ _, mret x
      | None => remaining_budget ≫= λ left, wait_from fuel poll left
      end
  end.

(** [wait]; [begin] is what the future does when it is first polled. *)
Definition op_wait {F X} (fuel : nat) (begin : W → W * F) (poll : F → Z → W → W * option X) :
    OP (W := W) X :=
  remaining_budget ≫= λ left,
  op_world begin ≫= λ future,
  wait_from fuel (poll future) left.
End wait.

(** [map_err(unavailable)] *)
Definition or_unavailable {X} (r : result string X) : result DesktopError X :=
  match r with Ok x => Ok x | Err m => Err (Unavailable m) end.

(** The question for the owner of a name *)
Definition owner_query (name : string) : BusCall :=
  mkBusCall "org.freedesktop.DBus" "/org/freedesktop/DBus" "org.freedesktop.DBus" "GetNameOwner" [BStr name].

Section session.
Context {W : Type} `{Operations W, Zvariant, SessionBus W}.

(** [Bus::session]: the client and its connection *)
Definition bus_session (fuel : nat) (name path interface : string) : OP (W := W) (Bus * Z) :=
  adapter_scope (
    op_world sb_runtime ≫= λ runtime,
    op_lift (or_io runtime) ≫= λ _,
    op_world sb_build ≫= λ builder,
    op_lift (or_unavailable builder) ≫= λ future,
    op_map_err (λ e, Unavailable (display e))
      (op_wait fuel (λ w, (w, ())) (λ _ slice w, sb_poll_build w future slice)) ≫= λ connection,
    op_lift (or_unavailable connection) ≫= λ connection,
    op_map_err (λ e, Unavailable (display e))
      (op_wait fuel (λ w, sb_begin w connection (owner_query name)) (λ call slice w, sb_poll w call slice)) ≫= λ msg,
    op_lift (or_unavailable msg) ≫= λ msg,
    op_lift (or_protocol (de_string (msg_body msg))) ≫= λ owner,
    mret (mkBus owner name path interface, connection)).
End session.

Section calls.
Context {W S : Type} `{Operations W, Zvariant, SessionBus W}.
Context (fuel : nat) (slot : Slot S) (self : Bus).

(** A call of the world, beside the client's state *)
Definition outer {X} (f : W → W * X) (p : W * S) : (W * S) * X :=
  let '(w, x) := f p.1 in ((w, p.2), x).

(** The call on a connection, before what its failure does. *)
Definition exchange (connection : Z) (call : BusCall) : OP (W := W * S) BusMessage :=
  op_wait fuel (outer (λ w, sb_begin w connection call)) (λ future slice, outer (λ w, sb_poll w future slice)) ≫=
    λ r, op_lift (or_unavailable r).

(** [Bus::request] *)
Definition bus_request (call : BusCall) : OP (W := W * S) BusMessage := λ s,
  match slot_get slot s.1.2 with
  | None => Some (s, Err (Unavailable "D-Bus connection invalidated; reconnect required"))
  | Some connection =>
      match exchange connection call s with
      | Some ((w, st, bs), Err e) => Some ((sb_close w connection, slot_take slot st, bs), Err e)
      | r => r
      end
  end.

(** [Bus::check_owner] *)
Definition check_owner : OP (W := W * S) unit :=
  adapter_scope (
    bus_request (owner_query (bus_name self)) ≫= λ message,
    op_lift (or_protocol (de_string (msg_body message))) ≫= λ owner,
    if negb (bool_decide (owner = bus_owner self))
    then op_fail (Unavailable "desktop owner changed; reconnect required")
    else mret ()).

(** [Bus::call] and [Bus::property] *)
Definition method_call (method : string) (body : list BusArg) : BusCall :=
  mkBusCall (bus_owner self) (bus_path self) (bus_interface self) method body.
Definition bus_call (method : string) (body : list BusArg) : OP (W := W * S) BusMessage :=
  adapter_scope (
    check_owner ≫= λ _,
    bus_request (method_call method body) ≫= λ message,
    if bool_decide (MAX_MESSAGE < msg_len message) then op_fail (DesktopProtocol "D-Bus reply oversized")
    else mret message).
Definition property_call (name : string) : BusCall :=
  mkBusCall (bus_owner self) (bus_path self) "org.freedesktop.DBus.Properties" "Get"
    [BStr (bus_interface self); BStr name].
Definition bus_property (name : string) : OP (W := W * S) Zv :=
  adapter_scope (
    check_owner ≫= λ _,
    bus_request (property_call name) ≫= λ message,
    if bool_decide (MAX_MESSAGE < msg_len message) then op_fail (DesktopProtocol "D-Bus property oversized")
    else op_lift (or_protocol (de_value (msg_body message)))).

(** [self.bus.call(..)?.body().deserialize().map_err(protocol)?] *)
Definition bus_ask {X} (method : string) (body : list BusArg) (read : Body → result string X) :
    OP (W := W * S) X :=
  bus_call method body ≫= λ message, op_lift (or_protocol (read (msg_body message))).
End calls.
