(* ===== verification/InputMethods.v ===== *)
(** * Input methods: IBus and Fcitx5 (packages/linux/src/desktop: ibus.rs, fcitx5.rs, and
      [WithInputMethod] of worker.rs)

    Both list the engines and which of them are enabled, and select one over the session
    bus after the queued inventory was found unchanged; a selection counts only when it is
    read back as current. *)

From S2P Require Import Prelude Event Sink Bytes Desktop Budget Json LocalIpc Bus.

(** [iter().map(f).collect::<Result<Vec<_>, _>>()] *)
Fixpoint collect {A B E} (f : A → result E B) (l : list A) : result E (list B) :=
  match l with
  | [] => Ok []
  | x :: l => y ← f x; ys ← collect f l; Ok (y :: ys)
  end.

(** ** IBus *)

Section ibus_values.
Context `{Zvariant, SerdeJson}.

(** [engine] *)
Definition engine (value : Zv) : result DesktopError (string * string) :=
  let value := match zv_inner value with Some inner => inner | None => value end in
  fields ← or_protocol (zv_structure value);
  match fields with
  | f0 :: _ :: f2 :: f3 :: _ =>
      kind ← or_protocol (zv_str f0);
      if negb (bool_decide (kind = "IBusEngineDesc")) then Err (DesktopProtocol "invalid IBusEngineDesc")
      else
        id ← or_protocol (zv_str f2);
        label ← or_protocol (zv_str f3);
        if negb (valid_id id) then Err (DesktopProtocol "invalid engine name") else Ok (id, label)
  | _ => Err (DesktopProtocol "invalid IBusEngineDesc")
  end.

(** [engines] *)
Definition engines (value : Zv) : result DesktopError (list (string * string)) :=
  array ← or_protocol (zv_array value);
  if bool_decide (4096 < length array)%nat then Err (DesktopProtocol "too many engines")
  else collect engine array.

(** The catalogue of the engines *)
Definition pairs_value (l : list (string * string)) : Value :=
  VArray ((λ p, VArray [VString p.1; VString p.2]) <$> l).
Definition ibus_catalog (owner : string) (installed enabled : list (string * string)) (current : string) :
    SourceCatalog :=
  mkSourceCatalog "ibus" (json_print (VArray [VString owner; pairs_value installed; pairs_value enabled]))
    ((λ '(id, label), mkSource id label (existsb (λ entry, bool_decide (entry.1 = id)) enabled)) <$> installed)
    (Some current).
End ibus_values.

(** [self.sources()?.current.as_deref() != Some(id)], negated *)
Definition is_current (c : SourceCatalog) (id : string) : bool := bool_decide (cat_current c = Some id).

Section ibus.
Context {W S : Type} `{Operations W, Zvariant, SessionBus W, SerdeJson}.
Context (fuel : nat) (slot : Slot S) (bus : Bus).

(** [IBus::sources] and [IBus::select] *)
Definition ibus_sources : OP (W := W * S) SourceCatalog :=
  adapter_scope (
    bus_property fuel slot bus "Engines" ≫= λ value,
    op_lift (engines value) ≫= λ installed,
    bus_property fuel slot bus "ActiveEngines" ≫= λ value,
    op_lift (engines value) ≫= λ enabled,
    bus_property fuel slot bus "GlobalEngine" ≫= λ value,
    op_lift (engine value) ≫= λ current,
    mret (ibus_catalog (bus_owner bus) installed enabled current.1)).
Definition ibus_select (old : SourceCatalog) (id : string) : OP (W := W * S) unit :=
  adapter_scope (
    ibus_sources ≫= λ fresh,
    op_lift (SourceCatalog_check old fresh id) ≫= λ _,
    bus_call fuel slot bus "SetGlobalEngine" [BStr id] ≫= λ _,
    ibus_sources ≫= λ after,
    if negb (is_current after id) then op_fail SelectionFailed else mret ()).
End ibus.

(** [IBus::connect] *)
Definition ibus_connect {W} `{Operations W, Zvariant, SessionBus W} (fuel : nat) : OP (W := W) (Bus * Z) :=
  adapter_scope (bus_session fuel "org.freedesktop.IBus" "/org/freedesktop/IBus" "org.freedesktop.IBus").

(** ** Fcitx5 *)

Section fcitx5.
Context {W S : Type} `{Operations W, Zvariant, SessionBus W, SerdeJson}.
Context (fuel : nat) (slot : Slot S) (bus : Bus).

(** What is asked of each group: the names of the enabled methods, and the states. *)
Definition group_info : Type := string * list (string * string).
Fixpoint fcitx_groups (active_group : string) (groups : list string) (enabled : list string)
    (group_state : list (string * group_info)) : OP (W := W * S) (list string * list (string * group_info)) :=
  match groups with
  | [] => mret (enabled, group_state)
  | group :: groups =>
      bus_ask fuel slot bus "InputMethodGroupInfo" [BStr group] de_group ≫= λ info,
      fcitx_groups active_group groups
        (if bool_decide (group = active_group) then enabled ++ (fst <$> info.2) else enabled)
        (group_state ++ [(group, info)])
  end.

Definition entry_value (e : FcitxEntry) : Value :=
  VArray [VString (en_id e); VString (en_label e); VString (en_2 e); VString (en_3 e);
          VString (en_4 e); VString (en_5 e); VBool (en_6 e)].
Definition group_value (g : string * group_info) : Value :=
  VArray [VString g.1; VArray [VString g.2.1; pairs_value g.2.2]].
Definition fcitx_catalog (owner active_group : string) (group_state : list (string * group_info))
    (entries : list FcitxEntry) (enabled : list string) (current : string) : SourceCatalog :=
  mkSourceCatalog "fcitx5"
    (json_print (VArray [VString owner; VString active_group; VArray (group_value <$> group_state);
                         VArray (entry_value <$> entries)]))
    ((λ e, mkSource (en_id e) (en_label e) (bool_decide (en_id e ∈ enabled))) <$> entries)
    (Some current).

(** [Fcitx5::sources] and [Fcitx5::select] *)
Definition fcitx_sources : OP (W := W * S) SourceCatalog :=
  adapter_scope (
    bus_ask fuel slot bus "AvailableInputMethods" [] de_entries ≫= λ entries,
    bus_ask fuel slot bus "InputMethodGroups" [] de_strings ≫= λ groups,
    if bool_decide (4096 < length entries)%nat || bool_decide (64 < length groups)%nat
    then op_fail (DesktopProtocol "input-method inventory too large")
    else
      bus_ask fuel slot bus "CurrentInputMethodGroup" [] de_string ≫= λ active_group,
      fcitx_groups active_group groups [] [] ≫= λ '(enabled, group_state),
      bus_ask fuel slot bus "CurrentInputMethod" [] de_string ≫= λ current,
      mret (fcitx_catalog (bus_owner bus) active_group group_state entries enabled current)).
Definition fcitx_select (old : SourceCatalog) (id : string) : OP (W := W * S) unit :=
  adapter_scope (
    fcitx_sources ≫= λ fresh,
    op_lift (SourceCatalog_check old fresh id) ≫= λ _,
    bus_call fuel slot bus "SetCurrentIM" [BStr id] ≫= λ _,
    fcitx_sources ≫= λ after,
    if negb (is_current after id) then op_fail SelectionFailed else mret ()).
End fcitx5.

(** [Fcitx5::connect] *)
Definition fcitx_connect {W} `{Operations W, Zvariant, SessionBus W} (fuel : nat) : OP (W := W) (Bus * Z) :=
  adapter_scope (bus_session fuel "org.fcitx.Fcitx5" "/controller" "org.fcitx.Fcitx.Controller1").

(** ** Focus from the desktop, sources from an input method *)

Inductive InputMethodProvider : Type := IBus (bus : Bus) | Fcitx5 (bus : Bus).

Section with_input_method.
Context {W S : Type} `{Operations W, Zvariant, SessionBus W, SerdeJson}.
Context (fuel : nat) (slot : Slot S) (desktop : Provider (W * S)) (input_method : InputMethodProvider).

(** [<WithInputMethod as DesktopProvider>] *)
Definition with_sources : OP (W := W * S) SourceCatalog :=
  match input_method with
  | IBus bus => ibus_sources fuel slot bus
  | Fcitx5 bus => fcitx_sources fuel slot bus
  end.
Definition with_select (catalog : SourceCatalog) (id : string) : OP (W := W * S) unit :=
  match input_method with
  | IBus bus => ibus_select fuel slot bus catalog id
  | Fcitx5 bus => fcitx_select fuel slot bus catalog id
  end.
Definition WithInputMethod_provider : Provider (W * S) := {|
  pv_poll := @pv_poll _ desktop; pv_sources := with_sources; pv_select := with_select;
|}.
End with_input_method.
