(* ===== verification/Companion.v ===== *)
(** * Companions: GNOME's and KWin's (packages/linux/src/desktop/companion.rs)

    GNOME's shell extension answers a [Snapshot] call; KWin's script pushes snapshots to a
    receiver that keeps the last one. Snapshots carry an epoch and a sequence number, by
    which one that is out of order is refused. *)

From stdpp Require Import pretty.
From S2P Require Import Prelude Event Sink Bytes Text Desktop Budget Json LocalIpc Bus InputMethods.

(** [WireSnapshot] *)
Record WireSnapshot : Type := mkWireSnapshot {
  ws_version : Z; ws_epoch : string; ws_sequence : Z; ws_focus : option FocusIdentity;
  ws_lock_hint : LockHint; ws_generation : string; ws_sources : list Source; ws_current : option string;
}.

(** [serde_json::from_str::<WireSnapshot>] *)
Class WireFormat : Type := wire_from_str : string → result string WireSnapshot.

Section wire.
Context `{WireFormat}.

(** [parse] *)
Definition wire_valid (wire : WireSnapshot) : bool :=
  bool_decide (ws_version wire = 1) && valid_id (ws_epoch wire) &&
  bool_decide (length (ws_sources wire) ≤ 4096)%nat &&
  match ws_focus wire with Some f => valid_id (fi_value f) | None => true end &&
  forallb (λ s, valid_id (source_id s)) (ws_sources wire).
Definition wire_parse (text : string) : result DesktopError WireSnapshot :=
  if bool_decide (MAX_MESSAGE < Z.of_nat (length (String.list_byte_of_string text)))
  then Err (DesktopProtocol "snapshot oversized")
  else
    wire ← or_protocol (wire_from_str text);
    if negb (wire_valid wire) then Err (DesktopProtocol "invalid companion snapshot/version") else Ok wire.

(** [snapshot] and [catalog] *)
Definition wire_snapshot (wire : WireSnapshot) (observed_at : Z) : DesktopSnapshot :=
  mkDesktopSnapshot (ws_focus wire) observed_at (ws_lock_hint wire).
Definition wire_catalog (provider : string) (wire : WireSnapshot) : SourceCatalog :=
  mkSourceCatalog provider (String.append (ws_epoch wire) (String.append ":" (ws_generation wire)))
    (ws_sources wire) (ws_current wire).
End wire.

(** ** GNOME *)

(** [struct Gnome]: its connection and the last snapshot's order *)
Record Gnome : Type := mkGnome { gn_connection : option Z; gn_last : option (string * Z) }.
Definition gnome_slot : Slot Gnome := mkSlot gn_connection (λ g, mkGnome None (gn_last g)).

(** A later snapshot of the same epoch came before. *)
Definition regressed (last : option (string * Z)) (wire : WireSnapshot) : bool :=
  match last with
  | Some (epoch, sequence) => bool_decide (epoch = ws_epoch wire) && bool_decide (ws_sequence wire < sequence)
  | None => false
  end.

Section gnome.
Context {W : Type} `{Operations W, Zvariant, SessionBus W, WireFormat}.
Context (fuel : nat) (bus : Bus).

(** [Gnome::read] *)
Definition gnome_note (wire : WireSnapshot) : OP (W := W * Gnome) WireSnapshot := λ '(w, g, bs),
  if regressed (gn_last g) wire then Some ((w, g, bs), Err (DesktopProtocol "regressed snapshot"))
  else Some ((w, mkGnome (gn_connection g) (Some (ws_epoch wire, ws_sequence wire)), bs), Ok wire).
Definition gnome_read : OP (W := W * Gnome) WireSnapshot :=
  bus_ask fuel gnome_slot bus "Snapshot" [] de_string ≫= λ text,
  op_lift (wire_parse text) ≫= λ wire,
  gnome_note wire.

(** [<Gnome as DesktopProvider>] *)
Definition gnome_poll : OP (W := W * Gnome) DesktopSnapshot :=
  adapter_scope (
    op_world op_now ≫= λ observed_at,
    gnome_read ≫= λ wire,
    mret (wire_snapshot wire observed_at)).
Definition gnome_sources : OP (W := W * Gnome) SourceCatalog :=
  adapter_scope (gnome_read ≫= λ wire, mret (wire_catalog "gnome" wire)).
Definition gnome_select (old : SourceCatalog) (id : string) : OP (W := W * Gnome) unit :=
  adapter_scope (
    gnome_read ≫= λ wire,
    op_lift (SourceCatalog_check old (wire_catalog "gnome" wire) id) ≫= λ _,
    bus_ask fuel gnome_slot bus "Select" [BStr (ws_epoch wire); BStr (ws_generation wire); BStr id] de_bool ≫= λ selected,
    if negb selected then op_fail SelectionFailed
    else
      gnome_read ≫= λ after,
      if negb (bool_decide (ws_current after = Some id)) then op_fail SelectionFailed else mret ()).

Definition Gnome_provider : Provider (W * Gnome) := {|
  pv_poll := gnome_poll; pv_sources := gnome_sources; pv_select := gnome_select;
|}.
End gnome.

(** [Gnome::connect] *)
Definition gnome_connect {W} `{Operations W, Zvariant, SessionBus W} (fuel : nat) : OP (W := W) (Bus * Gnome) :=
  adapter_scope (
    bus_session fuel "org.sledge.Desktop.Gnome" "/org/sledge/Desktop" "org.sledge.Desktop1" ≫= λ '(bus, connection),
    mret (bus, mkGnome (Some connection) None)).

(** ** KWin *)

(** What the receiver keeps: the last snapshot and when it came *)
Definition Published : Type := option (WireSnapshot * Z).

Section receiver.
Context `{WireFormat}.

(** [Receiver::accept] at the time [now]; [poisoned] is whether its mutex is. *)
Definition receiver_accept (state : Published) (poisoned : bool) (now : Z) (text : string) : Published * bool :=
  match wire_parse text with
  | Err _ => (state, false)
  | Ok wire =>
      if poisoned then (state, false)
      else
        match state with
        | Some (old, _) =>
            if bool_decide (ws_epoch old = ws_epoch wire) && bool_decide (ws_sequence wire ≤ ws_sequence old)
            then (state, false)
            else (Some (wire, now), true)
        | None => (Some (wire, now), true)
        end
  end.

(** [Receiver::publish] *)
Definition receiver_publish (owner : string) (state : Published) (poisoned : bool) (now : Z)
    (sender : option string) (text : string) : Published * bool :=
  if negb (bool_decide (sender = Some owner)) then (state, false)
  else receiver_accept state poisoned now text.
End receiver.

(** The receiver's mutex and what it guards, as seen from the worker's thread *)
Class BridgeState (W : Type) : Type := {
  br_try_lock : W → W * LockAttempt;
  br_unlock : W → W;
  br_state : W → Published;
}.

(** [struct KwinBridge]: the connections of its two clients *)
Record Kwin : Type := mkKwin { kb_layouts : option Z; kb_kwin : option Z }.
Definition layouts_slot : Slot Kwin := mkSlot kb_layouts (λ k, mkKwin None (kb_kwin k)).
Definition kwin_slot : Slot Kwin := mkSlot kb_kwin (λ k, mkKwin (kb_layouts k) None).

(** [str::parse::<u32>] *)
Definition parse_u32 (l : text) : option Z :=
  n ← parse_u64 10 l; if bool_decide (n ≤ u32_max) then Some n else None.

Section kwin.
Context {W : Type} `{Operations W, Zvariant, SessionBus W, WireFormat, SerdeJson, BridgeState W}.
Context (fuel : nat) (layouts kwin : Bus).

(** [<KwinBridge as DesktopProvider>::poll]; the guard is dropped at its end. *)
Definition kwin_state : OP (W := W * Kwin) DesktopSnapshot := λ '(w, k, bs),
  match br_state w with
  | None => Some ((br_unlock w, k, bs), Err (Unavailable "KWin companion has not published"))
  | Some (wire, time) =>
      let '(w, now) := op_now w in
      if bool_decide (FOCUS_TTL < Z.max 0 (now - time))
      then Some ((br_unlock w, k, bs), Err (Unavailable "KWin companion expired"))
      else Some ((br_unlock w, k, bs), Ok (wire_snapshot wire time))
  end.
Definition kwin_poll : OP (W := W * Kwin) DesktopSnapshot :=
  adapter_scope (
    check_owner fuel kwin_slot kwin ≫= λ _,
    lock_with (outer br_try_lock) (λ p, (br_unlock p.1, p.2)) fuel ≫= λ _,
    kwin_state).

(** [<KwinBridge as DesktopProvider>::sources] and [::select] *)
Definition kwin_catalog (owner : string) (names : list (string * string * string)) (current : Z) : SourceCatalog :=
  mkSourceCatalog "kwin"
    (json_print (VArray [VString owner;
       VArray ((λ n, VArray [VString n.1.1; VString n.1.2; VString n.2]) <$> names)]))
    (imap (λ index n, mkSource (pretty (Z.of_nat index)) n.1.2 true) names)
    (Some (pretty current)).
Definition kwin_sources : OP (W := W * Kwin) SourceCatalog :=
  adapter_scope (
    bus_ask fuel layouts_slot layouts "getLayoutsList" [] de_layouts ≫= λ names,
    bus_ask fuel layouts_slot layouts "getLayout" [] de_u32 ≫= λ current,
    mret (kwin_catalog (bus_owner layouts) names current)).
Definition kwin_select (old : SourceCatalog) (id : string) : OP (W := W * Kwin) unit :=
  adapter_scope (
    kwin_sources ≫= λ fresh,
    op_lift (SourceCatalog_check old fresh id) ≫= λ _,
    op_lift (ok_or (parse_u32 (lit id)) (DesktopProtocol "invalid digit found in string")) ≫= λ index,
    bus_ask fuel layouts_slot layouts "setLayout" [BU32 index] de_bool ≫= λ selected,
    if negb selected then op_fail SelectionFailed
    else
      kwin_sources ≫= λ after,
      if negb (is_current after id) then op_fail SelectionFailed else mret ()).

Definition Kwin_provider : Provider (W * Kwin) := {|
  pv_poll := kwin_poll; pv_sources := kwin_sources; pv_select := kwin_select;
|}.
End kwin.
