(* ===== verification/Threads.v ===== *)
(** * Threads that end with their owners (packages/linux/src/desktop: companion.rs
      [KwinBridge::connect] and its drop, worker.rs [DesktopWorker] and its drop)

    The owner and the thread it started take steps in any order. [connect] waits for the
    thread's answer over a channel of one place and may give up first; a drop asks the
    thread to stop and joins it. The thread of the KWin bridge serves the companion's
    pushes on a connection of its own ([receiver_publish] of Companion.v); the thread of
    the desktop worker refreshes two caches. *)

From stdpp Require Import relations.
From S2P Require Import Prelude Event Sink Bytes Text Desktop Budget Json LocalIpc Bus InputMethods Companion Joins.

Module Kwin.

(** Where the owner is: in [connect], in possession of the bridge, or in its drop *)
Inductive OwnerAt : Type :=
  | Sessions                        (* before the thread is started *)
  | Waiting                         (* [result.recv_timeout] *)
  | Stopping (reason : option (result string unit))    (* [stop.send] after a failed start *)
  | Joining (reason : option (result string unit))     (* [worker.join] after it *)
  | Failed (reason : option (result string unit))      (* [connect] returned an error *)
  | Unstarted                       (* [connect] returned before the thread was started *)
  | Owned                           (* [connect] returned the bridge *)
  | DropJoining                     (* [drop] sent the stop and joins *)
  | Dropped.
(** Where the thread is: building its runtime, connecting until the start-up deadline,
    sending its answer, serving with a look at [stopped] every 25 ms, or ended *)
Inductive ThreadAt : Type :=
  | NoThread | Building | Connecting | Answering (answer : result string unit) | Serving | Ended.

Record Bridge : Type := mkBridge {
  kt_owner : OwnerAt;
  kt_thread : ThreadAt;
  (** whether the thread's connection is open, and the two channels *)
  kt_open : bool;
  kt_ready : option (result string unit);
  kt_stop : bool;
  kt_published : Published;
}.
Definition start : Bridge := mkBridge Sessions NoThread false None false None.

Section steps.
Context `{WireFormat} (owner : string).

(** A step of the owner *)
Inductive owner_step : Bridge → Bridge → Prop :=
  | os_session_failed p : owner_step (mkBridge Sessions NoThread false None false p)
      (mkBridge Unstarted NoThread false None false p)
  | os_spawn p : owner_step (mkBridge Sessions NoThread false None false p)
      (mkBridge Waiting Building false None false p)
  | os_ready th o st p : owner_step (mkBridge Waiting th o (Some (Ok ())) st p)
      (mkBridge Owned th o None st p)
  | os_failed th o e st p : owner_step (mkBridge Waiting th o (Some (Err e)) st p)
      (mkBridge (Stopping (Some (Err e))) th o None st p)
  | os_timeout th o st p : owner_step (mkBridge Waiting th o None st p)
      (mkBridge (Stopping None) th o None st p)
  | os_stop r th o q st p : owner_step (mkBridge (Stopping r) th o q st p)
      (mkBridge (Joining r) th o q true p)
  | os_join r o q st p : owner_step (mkBridge (Joining r) Ended o q st p)
      (mkBridge (Failed r) Ended o q st p)
  | os_drop th o q st p : owner_step (mkBridge Owned th o q st p) (mkBridge DropJoining th o q true p)
  | os_drop_join o q st p : owner_step (mkBridge DropJoining Ended o q st p)
      (mkBridge Dropped Ended o q st p).

(** A step of the thread; its answer always fits the channel, and the stop is seen in any
    round after it was sent. *)
Inductive thread_step : Bridge → Bridge → Prop :=
  | ts_runtime ow o q st p : thread_step (mkBridge ow Building o q st p) (mkBridge ow Connecting o q st p)
  | ts_no_runtime ow o q st p e : thread_step (mkBridge ow Building o q st p)
      (mkBridge ow (Answering (Err e)) o q st p)
  | ts_connected ow q st p : thread_step (mkBridge ow Connecting false q st p)
      (mkBridge ow (Answering (Ok ())) true q st p)
  | ts_refused ow o q st p e : thread_step (mkBridge ow Connecting o q st p)
      (mkBridge ow (Answering (Err e)) o q st p)
  | ts_serving ow o q st p : thread_step (mkBridge ow (Answering (Ok ())) o q st p)
      (mkBridge ow Serving o (Some (Ok ())) st p)
  | ts_gave_up ow o q st p e : thread_step (mkBridge ow (Answering (Err e)) o q st p)
      (mkBridge ow Ended o (Some (Err e)) st p)
  | ts_stopped ow o q p : thread_step (mkBridge ow Serving o q true p) (mkBridge ow Ended false q true p).

(** A message of the companion, while the connection is open *)
Inductive publish_step : Bridge → Bridge → Prop :=
  | ps_publish ow th q st p poisoned now sender text :
      publish_step (mkBridge ow th true q st p)
        (mkBridge ow th true q st (receiver_publish owner p poisoned now sender text).1).

Definition step (s s' : Bridge) : Prop := owner_step s s' ∨ thread_step s s' ∨ publish_step s s'.
Definition reachable : Bridge → Prop := rtc step start.

(** What the owner and the thread know of each other *)
Definition agreed (s : Bridge) : Prop :=
  match kt_owner s with
  | Sessions | Unstarted => kt_thread s = NoThread ∧ kt_open s = false ∧ kt_ready s = None
  | Waiting => kt_thread s ≠ NoThread ∧ kt_stop s = false ∧
      match kt_thread s with
      | Ended => ∃ e, kt_ready s = Some (Err e)
      | Serving => kt_ready s = Some (Ok ())
      | _ => kt_ready s = None
      end
  | Owned => kt_thread s = Serving ∧ kt_stop s = false
  | Stopping _ => kt_thread s ≠ NoThread ∧ kt_stop s = false
  | Joining _ => kt_thread s ≠ NoThread ∧ kt_stop s = true
  | DropJoining => (kt_thread s = Serving ∨ kt_thread s = Ended) ∧ kt_stop s = true
  | Failed _ | Dropped => kt_thread s = Ended
  end ∧
  kt_open s = match kt_thread s with Answering (Ok _) | Serving => true | _ => false end.

Lemma agreed_step s s' : agreed s → step s s' → agreed s'.
Proof.
  unfold agreed. intros [Ha Ho] [Hs|[Hs|Hs]]; destruct Hs; simpl in *; try done; destruct_and?;
    subst; try (destruct ow); simpl in *; destruct_and?; split_and?; try done; try naive_solver.
  all: destruct th; try done; try naive_solver; by destruct answer.
Qed.
Lemma reachable_agreed s : reachable s → agreed s.
Proof.
  assert (agreed start) as Hi by (by split_and!). unfold reachable. generalize dependent start.
  intros s0 Hi Hr. induction Hr as [|x y z Hs _ IH]; [done|]. by eapply IH, agreed_step.
Qed.

(** [connect] returned an error, or the drop returned. *)
Definition let_go (s : Bridge) : Prop :=
  match kt_owner s with Failed _ | Unstarted | Dropped => True | _ => False end.
(** The owner is waiting for the thread to end. *)
Definition joins (s : Bridge) : Prop :=
  match kt_owner s with Joining _ | DropJoining => True | _ => False end.
(** The steps the thread and the join can still take *)
Definition steps_left (s : Bridge) : nat :=
  match kt_owner s with Failed _ | Unstarted | Dropped => 0 | _ => 1 end +
  match kt_thread s with
  | NoThread | Ended => 0 | Serving => 1 | Answering _ => 2 | Connecting => 3 | Building => 4
  end.

Lemma let_go_quiet s : agreed s → let_go s → ∀ s', ¬ step s s'.
Proof.
  intros [Ha Ho] Hl s' [Hs|[Hs|Hs]]; destruct Hs; simpl in *; try done; try (destruct ow);
    simpl in *; destruct_and?; subst; try done.
Qed.

Lemma joins_enabled s : agreed s → joins s → ∃ s', owner_step s s' ∨ thread_step s s'.
Proof.
  destruct s as [ow th o q st p]. intros [Ha Ho] Hj. simpl in *.
  destruct ow; try done; destruct_and?; destruct th as [| | |[[]|e]| |]; try (exfalso; naive_solver); subst.
  all: eexists; first [left; constructor|right; constructor].
Qed.

Lemma joins_decreases s s' :
  agreed s → joins s → owner_step s s' ∨ thread_step s s' → (steps_left s' < steps_left s)%nat.
Proof.
  unfold steps_left. intros _ Hj [Hs|Hs]; destruct Hs; simpl in *; try done; try lia.
  all: destruct ow; simpl in *; try done; lia.
Qed.

(** C25. The KWin bridge never leaves its thread behind. In every interleaving of the owner,
    the thread and the companion's pushes: once [connect] has failed or the bridge has been
    dropped, the thread has ended (or was never started), its connection is closed, and
    nothing is published any more; while the owner has the bridge, the thread serves its
    open connection. And the join ends: while the owner waits for the thread, the owner or
    the thread can take a step, each such step leaves fewer of them, at most five, and a
    push in between takes none away. *)
Theorem kwin_bridge_joined s :
  reachable s →
  (let_go s → (kt_thread s = NoThread ∨ kt_thread s = Ended) ∧ kt_open s = false ∧ ∀ s', ¬ step s s') ∧
  (kt_owner s = Owned → kt_thread s = Serving ∧ kt_open s = true) ∧
  (joins s →
     (∃ s', owner_step s s' ∨ thread_step s s') ∧ (steps_left s ≤ 5)%nat ∧
     (∀ s', owner_step s s' ∨ thread_step s s' →
        (steps_left s' < steps_left s)%nat ∧ (steps_left s' = 0%nat → let_go s')) ∧
     (∀ s', publish_step s s' → steps_left s' = steps_left s ∧ joins s')).
Proof.
  intros Hr%reachable_agreed. split_and!.
  - intros Hl. pose proof (let_go_quiet s Hr Hl) as Hq. destruct Hr as [Ha Ho]. unfold let_go in Hl.
    assert (kt_thread s = NoThread ∨ kt_thread s = Ended) as Ht by (destruct (kt_owner s); naive_solver).
    split_and!; [done| |done]. by destruct Ht as [Ht|Ht]; rewrite Ht in Ho.
  - intros Hw. destruct Hr as [Ha Ho]. rewrite Hw in Ha. destruct Ha as [Ht _]. by rewrite Ht in Ho.
  - intros Hj. split_and!.
    + by apply joins_enabled.
    + unfold joins, steps_left in *. destruct (kt_owner s), (kt_thread s); try done; simpl; lia.
    + intros s' Hs. split; [by apply joins_decreases|]. unfold steps_left, let_go.
      by destruct (kt_owner s').
    + intros s' Hs. by destruct Hs.
Qed.
End steps.

(** The owner gives up while the thread is connecting; the thread connects nevertheless,
    answers into the channel, takes one push, sees the stop and closes its connection. *)
#[local] Instance no_format : WireFormat := λ _, Err "not JSON".
Definition gave_up : Bridge := mkBridge (Failed None) Ended false (Some (Ok ())) true None.
Lemma gave_up_reachable : reachable ":1.7" gave_up.
Proof.
  unfold reachable. eapply rtc_l; [left; apply os_spawn|]. eapply rtc_l; [right; left; apply ts_runtime|].
  eapply rtc_l; [left; apply os_timeout|]. eapply rtc_l; [right; left; apply ts_connected|].
  eapply rtc_l; [left; apply os_stop|]. eapply rtc_l; [right; left; apply ts_serving|].
  eapply rtc_l; [right; right; apply (ps_publish _ _ _ _ _ _ false 0 (Some ":1.7") "{}")|].
  eapply rtc_l; [right; left; apply ts_stopped|]. eapply rtc_l; [left; apply os_join|]. apply rtc_refl.
Defined.
Lemma kwin_bridge_joined_witness :
  kt_open gave_up = false ∧ ∀ s', ¬ step ":1.7" gave_up s'.
Proof.
  destruct (kwin_bridge_joined ":1.7" gave_up gave_up_reachable) as [Hg _].
  exact (proj2 (Hg I)).
Defined.
End Kwin.

(** ** The desktop worker *)

Module Desk.
(** The thread looks at the flag, polls the provider and stores the focus, lists the
    sources and stores them, and sleeps before it looks again; it clears both caches when
    it ends. *)
Inductive PollerAt : Type := Looking | Polling | Listing | Ended.
Inductive poller_step : bool → PollerAt * Caches → PollerAt * Caches → Prop :=
  | ts_go c : poller_step false (Looking, c) (Polling, c)
  | ts_end c : poller_step true (Looking, c) (Ended, Caches_empty)
  | ts_polled st c observation :
      poller_step st (Polling, c) (Listing, mkCaches observation (ca_sources c))
  | ts_listed st c catalog :
      poller_step st (Listing, c) (Looking, mkCaches (ca_focus c) catalog).

(** [DesktopWorker]: its drop clears the caches again after the join. *)
Definition desk_thread : Stoppable PollerAt Caches := {|
  st_step := poller_step;
  st_ended := Ended;
  st_final _ := Caches_empty;
  st_left t := match t with Ended => 0 | Looking => 1 | Listing => 2 | Polling => 3 end;
  st_more _ := 0;
  st_done _ := 0;
|}%nat.
#[export] Existing Instance desk_thread.
#[export] Instance desk_laws : StoppableLaws PollerAt Caches.
Proof.
  split; simpl; try done.
  - intros stop d p Hs. inversion Hs.
  - intros [] c; [..|by left]; right; eexists;
      first [apply ts_end|apply (ts_polled _ _ None)|apply (ts_listed _ _ None)].
  - intros t d t' d' Hs. inversion Hs; subst; simpl; lia.
Qed.

(** Dropping the desktop worker ends its thread within four steps, and then no focus and no
    source of it is known any more. *)
Theorem desktop_worker_joined s :
  rtc join_step (spawned Looking Caches_empty) s →
  (jo_owner s = Gone → jo_thread s = Ended ∧ jo_data s = Caches_empty ∧ ∀ s', ¬ join_step s s') ∧
  (jo_owner s = Joining → (steps_left s ≤ 4)%nat ∧ (∃ s', join_step s s') ∧
     ∀ s', join_step s s' → (steps_left s' < steps_left s)%nat).
Proof.
  intros Hr. destruct (thread_joined 3 0 Looking Caches_empty s) as [Hg Hj];
    [by intros []; simpl; lia|done|done|].
  split.
  - intros Ho. destruct (Hg Ho) as (Ht & [d Hd] & Hq). done.
  - intros Ho. by destruct (Hj Ho) as (Hl & He & Hs & _).
Qed.
End Desk.
