(* ===== verification/BusThm.v ===== *)
(** * Conversations over the session bus

    A logic for clients of the bus: what a method begins and has answered on its
    connection, and how its own state changes. Every call is settled before the next, a
    connection with an unsettled call is never used again, and the methods return. *)

From S2P Require Import Prelude Event Sink Bytes Text Desktop Budget BudgetThm Json LocalIpc LocalIpcThm Bus.

(** What happens on a connection: a call was begun on it, or the last one answered. *)
Inductive BusEvent : Type := Begun (connection : Z) (call : BusCall) | Answered.

(** What is assumed of the bus: a call shows in the trace when it is begun and when it is
    answered, and a slice that passed took its time. *)
Class BusLaws (W E : Type) `{OperationsLaws W E, Zvariant, !SessionBus W} : Type := {
  on_bus : BusEvent → E;
  bus_event : E → option BusEvent;
  on_bus_event e : bus_event (on_bus e) = Some e;
  runtime_later w : onward [] w (sb_runtime w).1;
  build_later w : onward [] w (sb_build w).1;
  poll_build_spec w f d : 0 < d → onward [] w (sb_poll_build w f d).1 ∧
    ((sb_poll_build w f d).2 = None → clock w < clock (sb_poll_build w f d).1);
  begin_spec w c call : onward [on_bus (Begun c call)] w (sb_begin w c call).1;
  poll_spec w f d : 0 < d →
    match (sb_poll w f d).2 with
    | None => onward [] w (sb_poll w f d).1 ∧ clock w < clock (sb_poll w f d).1
    | Some (Ok _) => onward [on_bus Answered] w (sb_poll w f d).1
    | Some (Err _) => onward [] w (sb_poll w f d).1
    end;
  close_later w c : onward [] w (sb_close w c);
}.

(** The laws hold beside a client's state. *)
#[export, refine] Instance beside_laws {W S E} `{OperationsLaws W E} : OperationsLaws (W * S) E := {|
  clock p := clock p.1;
  raised p := raised p.1;
  trace p := trace p.1;
|}.
Proof.
  - intros [w s] p t Hn. simpl in Hn. destruct (op_now w) as [w1 t1] eqn:Hw. simplify_eq. by apply now_later.
  - intros [w s] f p b Hs. simpl in Hs. destruct (op_stopped w f) as [w1 b1] eqn:Hw. simplify_eq.
    by apply stopped_later.
  - intros [w s]. simpl. pose proof (try_lock_later w) as Hl. by destruct (op_try_lock w).
  - intros [w s]. apply unlock_later.
  - intros [w s] d. apply sleep_later.
Defined.

Section beside.
Context {W S E : Type} `{OperationsLaws W E}.

Lemma least_left_beside bs : ∀ limit (w : W) (st : S),
  least_left limit bs (w, st) = ((least_left limit bs w).1, st, (least_left limit bs w).2).
Proof.
  induction bs as [|b bs IH]; intros limit w st; simpl; [done|].
  assert (load_stopped (w, st) (bg_stopped b) =
    ((load_stopped w (bg_stopped b)).1, st, (load_stopped w (bg_stopped b)).2)) as ->.
  { destruct (bg_stopped b) as [f|]; simpl; [|done]. by destruct (op_stopped w f). }
  destruct (load_stopped w (bg_stopped b)) as [w1 []]; simpl; [done|].
  destruct (op_now w1) as [w2 now]. apply IH.
Qed.

Lemma remaining_beside (Q : OSt → result DesktopError Z → Prop) (w : W) (st : S) bs :
  (∀ w' r, onward [] w w' →
     (∀ rest, r = Ok rest → 0 < rest ∧ ∀ b, b ∈ bs → rest ≤ bg_deadline b - clock w) → Q (w', st, bs) r) →
  op_wp remaining_budget Q (w, st, bs).
Proof.
  intros HQ. destruct (remaining_spec (w, st) bs) as ([w' st'] & r & Hr & Hl & Hs). exists (w', st', bs), r.
  split; [done|]. assert (st' = st) as ->.
  { unfold remaining_budget in Hr. rewrite least_left_beside in Hr.
    destruct (least_left IPC_TIMEOUT bs w) as [w1 [rest|e]]; simpl in Hr; [|by simplify_eq].
    case_bool_decide; by simplify_eq. }
  apply HQ; [exact Hl|]. intros rest ->. destruct Hs as [[Hp _] Hb]. split; [done|]. intros b Hin. by apply Hb.
Qed.

(** The wait for a future, by what each of its polls does *)
Lemma wait_from_wp {X} (poll : Z → W * S → W * S * option X) (P : W → S → Prop) (P' : W → S → X → Prop)
    (Q : OSt → result DesktopError X → Prop) bs b :
  b ∈ bs →
  (∀ w w' st, P w st → onward [] w w' → P w' st) →
  (∀ w w' st x, P' w st x → onward [] w w' → P' w' st x) →
  (∀ w st e, P w st → Q (w, st, bs) (Err e)) →
  (∀ w st x e, P' w st x → Q (w, st, bs) (Err e)) →
  (∀ w st x, P' w st x → Q (w, st, bs) (Ok x)) →
  (∀ w st d, P w st → 0 < d →
     match (poll d (w, st)).2 with
     | None => P (poll d (w, st)).1.1 (poll d (w, st)).1.2 ∧ clock w < clock (poll d (w, st)).1.1
     | Some x => P' (poll d (w, st)).1.1 (poll d (w, st)).1.2 x
     end) →
  ∀ fuel left w st, P w st → 0 < left → (Z.to_nat (bg_deadline b - clock w) < fuel)%nat →
  op_wp (wait_from fuel poll left) Q (w, st, bs).
Proof.
  intros Hin Hst Hst' Herr Herr' Hok Hpoll fuel.
  induction fuel as [|fuel IH]; intros left w st HP Hleft Hf; [lia|]. cbn [wait_from].
  assert (0 < Z.min left SLICE) as Hd by (unfold SLICE; change (from_millis 10) with 10000000; lia).
  apply op_wp_bind, op_wp_world. specialize (Hpoll w st _ HP Hd).
  destruct (poll (Z.min left SLICE) (w, st)) as [[w1 st1] [x|]]; cbn [fst snd] in Hpoll |- *.
  - apply op_wp_bind, remaining_beside. intros w2 r2 Hl _.
    assert (P' w2 st1 x) as HP2 by (by eapply Hst'). destruct r2; [apply op_wp_ret; auto|eauto].
  - destruct Hpoll as [HP1 Hlt]. apply op_wp_bind, remaining_beside. intros w2 r2 Hl Hr.
    assert (P w2 st1) as HP2 by (by eapply Hst). destruct r2 as [rest|e]; [|auto].
    destruct (Hr rest eq_refl) as [Hpos Hb]. specialize (Hb b Hin).
    apply IH; [done|done|]. destruct Hl as [Hc _]. lia.
Qed.
End beside.

(** ** What a client's method does *)

(** The calls of a conversation, each answered before the next *)
Definition dialogue (c : Z) (calls : list BusCall) : list BusEvent := calls ≫= λ call, [Begun c call; Answered].

(** A connection that is still there had every call settled; one that was given up may
    have its last call open, and nothing happens where there is none. *)
Definition disciplined {S} (slot : Slot S) (st : S) (l : list BusEvent) (st' : S) : Prop :=
  match slot_get slot st, slot_get slot st' with
  | Some c, Some c' => c' = c ∧ ∃ calls, l = dialogue c calls
  | Some c, None => ∃ calls last, l = dialogue c calls ++ last ∧ (last = [] ∨ ∃ call, last = [Begun c call])
  | None, None => l = []
  | None, Some _ => False
  end.

(** The calls that were begun *)
Definition begun (l : list BusEvent) : list BusCall :=
  omap (λ e, match e with Begun _ call => Some call | Answered => None end) l.

Lemma dialogue_app c calls calls' : dialogue c (calls ++ calls') = dialogue c calls ++ dialogue c calls'.
Proof. apply bind_app. Qed.
Lemma begun_app l l' : begun (l ++ l') = begun l ++ begun l'.
Proof. apply omap_app. Qed.
Lemma begun_dialogue c calls : begun (dialogue c calls) = calls.
Proof. induction calls as [|call calls IH]; [done|]. simpl. f_equal. exact IH. Qed.

Lemma disciplined_refl {S} (slot : Slot S) st st' :
  slot_get slot st' = slot_get slot st → disciplined slot st [] st'.
Proof. intros Hst. unfold disciplined. rewrite Hst. destruct (slot_get slot st); [|done]. split; [done|by exists []]. Qed.
Lemma disciplined_trans {S} (slot : Slot S) st1 st2 st3 l1 l2 :
  disciplined slot st1 l1 st2 → disciplined slot st2 l2 st3 → disciplined slot st1 (l1 ++ l2) st3.
Proof.
  unfold disciplined. destruct (slot_get slot st1) as [c1|], (slot_get slot st2) as [c2|],
    (slot_get slot st3) as [c3|]; try done.
  - intros [-> (calls1 & ->)] [-> (calls2 & ->)]. split; [done|]. exists (calls1 ++ calls2). by rewrite dialogue_app.
  - intros [-> (calls1 & ->)] (calls2 & last & -> & Hlast). exists (calls1 ++ calls2), last.
    by rewrite dialogue_app, app_assoc.
  - intros (calls & last & -> & Hlast) ->. rewrite app_nil_r. eauto.
  - by intros -> ->.
Qed.

Section client.
Context {W S E : Type} `{BusLaws W E}.

(** [m] returns, with the caller's budgets, and relates the client's state before, what
    happened on the bus, the result, and the world and state after; [emits_under] needs a
    budget in scope. *)
Definition Course (X : Type) : Type := S → list BusEvent → result DesktopError X → W * S → Prop.
Definition emits_under {X} (R : Course X) (m : OP (W := W * S) X) : Prop :=
  ∀ w st bs b, b ∈ bs → bg_deadline b ≤ clock w + IPC_TIMEOUT →
    op_wp m (λ s r, s.2 = bs ∧ ∃ l, onward (on_bus <$> l) w s.1.1 ∧ R st l r s.1) (w, st, bs).
Definition emits {X} (R : Course X) (m : OP (W := W * S) X) : Prop :=
  ∀ w st bs, op_wp m (λ s r, s.2 = bs ∧ ∃ l, onward (on_bus <$> l) w s.1.1 ∧ R st l r s.1) (w, st, bs).

Lemma emits_weaken {X} (R : Course X) m : emits R m → emits_under R m.
Proof. intros Hm w st bs b _ _. apply Hm. Qed.

Lemma emits_mono {X} (R R' : Course X) m :
  emits R m → (∀ st l r p, R st l r p → R' st l r p) → emits R' m.
Proof.
  intros Hm HR w st bs. eapply op_wp_mono; [apply Hm|]. intros s r (Hbs & l & Ho & Hl). split; [done|].
  exists l. auto.
Qed.

(** The end of a run is what a run of [m] ended with. *)
Definition ended {X} (m : OP (W := W * S) X) (r : result DesktopError X) (p : W * S) : Prop :=
  ∃ s bs, m s = Some ((p, bs), r).
Lemma emits_run {X} (R : Course X) m : emits_under R m → emits_under (λ st l r p, R st l r p ∧ ended m r p) m.
Proof.
  intros Hm w st bs b Hb Hd. destruct (Hm w st bs b Hb Hd) as ([p1 bs1] & r & Hr & Hbs & l & Ho & HR).
  exists (p1, bs1), r. split; [done|]. split; [done|]. exists l. split_and!; [done|done|]. by eexists _, bs1.
Qed.

Lemma emits_scope {X} (R : Course X) m : emits_under R m → emits R (adapter_scope m).
Proof.
  intros Hm w st bs. unfold adapter_scope, op_scope, op_wp. simpl.
  destruct (op_now w) as [w1 now] eqn:Hn. apply now_later in Hn as [Hl Ht].
  destruct (Hm w1 st (bs ++ [mkBudget (now + IPC_TIMEOUT) None]) (mkBudget (now + IPC_TIMEOUT) None))
    as ([[w2 st2] bs2] & r & Hr & Hbs & l & Ho & HR); [set_solver|simpl; lia|].
  simpl in Hbs, Ho, HR. subst bs2. rewrite Hr. eexists _, r. split; [done|]. split; [by rewrite removelast_last|].
  exists l. split; [by eapply later_onward|done].
Qed.

Lemma emits_ret {X} (R : Course X) x : (∀ p, R p.2 [] (Ok x) p) → emits_under R (mret x).
Proof. intros HR w st bs b _ _. apply op_wp_ret. split; [done|]. exists []. split; [reflexivity|apply (HR (w, st))]. Qed.
Lemma emits_fail {X} (R : Course X) e : (∀ p, R p.2 [] (Err e) p) → emits_under R (op_fail e).
Proof. intros HR w st bs b _ _. apply op_wp_fail. split; [done|]. exists []. split; [reflexivity|apply (HR (w, st))]. Qed.
Lemma emits_lift {X} (R : Course X) r : (∀ p, R p.2 [] r p) → emits_under R (op_lift r).
Proof. intros HR w st bs b _ _. apply op_wp_lift. split; [done|]. exists []. split; [reflexivity|apply (HR (w, st))]. Qed.

Lemma emits_bind {X Y} (R1 : Course X) (R2 : X → Course Y) (R : Course Y) m f :
  emits_under R1 m → (∀ x, emits_under (R2 x) (f x)) →
  (∀ st l e p, R1 st l (Err e) p → R st l (Err e) p) →
  (∀ st l1 x p1 l2 r p2, R1 st l1 (Ok x) p1 → R2 x p1.2 l2 r p2 → R st (l1 ++ l2) r p2) →
  emits_under R (m ≫= f).
Proof.
  intros Hm Hf Herr Hok w st bs b Hb Hd. apply op_wp_bind.
  destruct (Hm w st bs b Hb Hd) as ([[w1 st1] bs1] & r & Hr & Hbs & l & Ho & HR).
  simpl in Hbs, Ho, HR. subst bs1. eexists _, r. split; [exact Hr|]. destruct r as [x|e]; simpl; [|by eauto].
  assert (bg_deadline b ≤ clock w1 + IPC_TIMEOUT) as Hd1 by (destruct Ho as [Hc _]; lia).
  eapply op_wp_mono; [apply (Hf x w1 st1 bs b Hb Hd1)|].
  intros s r (Hbs & l2 & Ho2 & HR2). split; [done|]. exists (l ++ l2). rewrite fmap_app.
  split; [by eapply onward_trans|by eapply (Hok st l x (w1, st1))].
Qed.

(** ** Requests *)

Context (fuel : nat) (Hf : enough fuel) (slot : Slot S).
Context (Hslot : ∀ st, slot_get slot (slot_take slot st) = None).

(** Calls made in this order, as far as it got. *)
Definition said {X} (calls : list BusCall) : Course X := λ st l r p,
  disciplined slot st l p.2 ∧ begun l `prefix_of` calls ∧ ∀ x, r = Ok x → begun l = calls.

Lemma outer_eq {X} (f : W → W * X) (p : W * S) : outer f p = ((f p.1).1, p.2, (f p.1).2).
Proof. unfold outer. by destruct (f p.1). Qed.

(** A call on a connection: refused before it began, open, or answered in or out of time. *)
Definition exchanged {X} (c : Z) (call : BusCall) (l : list BusEvent) (r : result DesktopError X) : Prop :=
  match r with
  | Ok _ => l = [Begun c call; Answered]
  | Err _ => l = [] ∨ l = [Begun c call] ∨ l = [Begun c call; Answered]
  end.

Lemma exchange_wp c call w st bs b :
  b ∈ bs → bg_deadline b ≤ clock w + IPC_TIMEOUT →
  op_wp (exchange (W := W) (S := S) fuel c call)
    (λ s r, s.2 = bs ∧ s.1.2 = st ∧ ∃ l, onward (on_bus <$> l) w s.1.1 ∧ exchanged c call l r) (w, st, bs).
Proof.
  intros Hb Hd. unfold exchange, op_wait. apply op_wp_bind, op_wp_bind, remaining_beside. intros w1 r1 Hl1 Hr1.
  destruct r1 as [left|e].
  2:{ split_and!; [done|done|]. exists []. split; [done|by left]. }
  destruct (Hr1 left eq_refl) as [Hleft _]. apply op_wp_bind, op_wp_world. rewrite outer_eq. cbn [fst snd].
  pose proof (begin_spec w1 c call) as Hbegin. destruct (sb_begin w1 c call) as [w2 future]. cbn [fst snd] in *.
  set (heard := λ x : result string BusMessage, match x with Ok _ => [Begun c call; Answered] | Err _ => [Begun c call] end).
  apply (wait_from_wp _ (λ w' st', st' = st ∧ onward (on_bus <$> [Begun c call]) w w')
    (λ w' st' x, st' = st ∧ onward (on_bus <$> heard x) w w') _ bs b Hb).
  - intros w3 w4 st' [Hs Ho] Hl. split; [done|by eapply onward_later].
  - intros w3 w4 st' x [Hs Ho] Hl. split; [done|by eapply onward_later].
  - intros w3 st' e [-> Ho]. split_and!; [done|done|]. eexists. split; [exact Ho|]. simpl. auto.
  - intros w3 st' x e [-> Ho]. split_and!; [done|done|]. eexists. split; [exact Ho|]. destruct x; simpl; auto.
  - intros w3 st' x [-> Ho]. apply op_wp_lift. split_and!; [done|done|]. eexists. split; [exact Ho|].
    destruct x; simpl; auto.
  - intros w3 st' d [-> Ho] Hpos. rewrite outer_eq. cbn [fst snd]. pose proof (poll_spec w3 future d Hpos) as Hpoll.
    destruct (sb_poll w3 future d) as [w4 [[msg|m]|]]; cbn [fst snd] in *.
    + split; [done|]. exact (onward_trans _ _ _ _ _ Ho Hpoll).
    + split; [done|]. by eapply onward_later.
    + destruct Hpoll as [Hl Hlt]. split; [split; [done|by eapply onward_later]|done].
  - split; [done|]. by eapply later_onward.
  - done.
  - destruct Hl1 as [Hc1 _], Hbegin as [Hc2 _]. unfold enough in Hf. lia.
Qed.

Lemma request_emits call : emits_under (said [call]) (bus_request fuel slot call).
Proof.
  intros w st bs b Hb Hd. unfold op_wp, bus_request. cbn [fst snd].
  destruct (slot_get slot st) as [c|] eqn:Hc.
  2:{ eexists (w, st, bs), _. split; [done|]. split; [done|]. exists []. split; [reflexivity|].
      split_and!; [by apply disciplined_refl|apply prefix_nil|done]. }
  destruct (exchange_wp c call w st bs b Hb Hd) as ([[w1 st1] bs1] & r & Hr & Hbs & Hst & l & Ho & Hl).
  simpl in Hbs, Hst, Ho. subst bs1 st1. rewrite Hr. destruct r as [msg|e]; simpl in Hl.
  - subst l. eexists _, _. split; [done|]. split; [done|]. eexists. split; [exact Ho|].
    split_and!; [|done|done]. unfold disciplined. cbn [fst snd]. rewrite Hc. split; [done|]. by exists [call].
  - eexists _, _. split; [done|]. split; [done|]. exists l. cbn [fst snd].
    split; [eapply onward_later; [exact Ho|apply close_later]|]. split_and!; [| |done].
    + unfold disciplined. cbn [fst snd]. rewrite Hc, Hslot. destruct Hl as [-> |[-> | ->]].
      * exists [], []. auto.
      * exists [], [Begun c call]. eauto.
      * exists [call], []. auto.
    + destruct Hl as [-> |[-> | ->]]; [apply prefix_nil|done|done].
Qed.

(** Sequences of calls *)
Lemma said_bind {X Y} calls calls' (m : OP (W := W * S) X) (f : X → OP (W := W * S) Y) :
  emits_under (said calls) m → (∀ x, emits_under (said calls') (f x)) → emits_under (said (calls ++ calls')) (m ≫= f).
Proof.
  intros Hm Hfx. eapply emits_bind; [exact Hm|exact Hfx|..].
  - intros st l e p (Hd & Hp & _). split_and!; [done|by apply prefix_app_r|done].
  - intros st l1 x p1 l2 r p2 (Hd1 & Hp1 & Hok1) (Hd2 & Hp2 & Hok2). rewrite (Hok1 x eq_refl) in Hp1.
    unfold said. rewrite begun_app, (Hok1 x eq_refl). split_and!; [by eapply disciplined_trans|by apply prefix_app|].
    intros y Hy. by rewrite (Hok2 y Hy).
Qed.
Lemma said_pure {X} (r : result DesktopError X) (m : OP (W := W * S) X) :
  (∀ s, m s = Some (s, r)) → emits_under (said []) m.
Proof.
  intros Hm w st bs b _ _. eexists _, _. split; [apply Hm|]. split; [done|]. exists []. split; [reflexivity|].
  split_and!; [by apply disciplined_refl|apply prefix_nil|done].
Qed.
Lemma said_lift {X} (r : result DesktopError X) : emits_under (said []) (op_lift r).
Proof. by apply (said_pure r). Qed.
Lemma said_then_pure {X Y} calls (m : OP (W := W * S) X) (f : X → OP (W := W * S) Y) :
  emits_under (said calls) m → (∀ x, ∃ r, ∀ s, f x s = Some (s, r)) → emits_under (said calls) (m ≫= f).
Proof.
  intros Hm Hfx. rewrite <- (app_nil_r calls). apply said_bind; [done|]. intros x. destruct (Hfx x) as [r Hr].
  by apply (said_pure r).
Qed.

Context (self : Bus).
Lemma check_owner_emits : emits (said [owner_query (bus_name self)]) (check_owner fuel slot self).
Proof.
  apply emits_scope. rewrite <- (app_nil_r [_]). apply said_bind; [apply request_emits|]. intros msg.
  apply said_then_pure; [apply said_lift|]. intros owner. case_bool_decide; by eexists.
Qed.

Definition called (call : BusCall) : list BusCall := [owner_query (bus_name self); call].
Lemma bus_call_emits method body :
  emits (said (called (method_call self method body))) (bus_call fuel slot self method body).
Proof.
  apply emits_scope. apply (said_bind [_] [_]); [apply emits_weaken, check_owner_emits|]. intros _.
  apply said_then_pure; [apply request_emits|]. intros msg. case_bool_decide; by eexists.
Qed.
Lemma bus_property_emits name :
  emits (said (called (property_call self name))) (bus_property fuel slot self name).
Proof.
  apply emits_scope. apply (said_bind [_] [_]); [apply emits_weaken, check_owner_emits|]. intros _.
  apply said_then_pure; [apply request_emits|]. intros msg. case_bool_decide; by eexists.
Qed.
Lemma ask_emits {X} method body (read : Body → result string X) :
  emits_under (said (called (method_call self method body))) (bus_ask fuel slot self method body read).
Proof.
  apply said_then_pure; [apply emits_weaken, bus_call_emits|]. intros msg. by eexists.
Qed.
End client.
