(* ===== verification/ClientsThm.v ===== *)
(** * What the clients of the session bus promise

    IBus, Fcitx5, GNOME and KWin: each selects the queued source at most once, after the
    inventory was found unchanged, and reports success only when the source was read back
    as current; each keeps the discipline of its connection and the contract
    [ProviderLaws]. Companions never go back to an earlier snapshot. *)

From stdpp Require Import pretty.
From S2P Require Import Prelude Event Sink Bytes Text Desktop Budget BudgetThm Json LocalIpc LocalIpcThm Compositors.
From S2P Require Import Quoting DeskSim CompositorsThm Bus InputMethods Companion BusThm.

(** The calls that select a source *)
Definition selecting (call : BusCall) : bool :=
  bool_decide (bc_method call ∈ ["SetGlobalEngine"; "SetCurrentIM"; "Select"; "setLayout"]).
Definition harmless (calls : list BusCall) : Prop := Forall (λ call, selecting call = false) calls.

Section courses.
Context {W S E : Type} `{BusLaws W E}.
Context (fuel : nat) (Hf : enough fuel) (slot : Slot S).
Context (Hslot : ∀ st, slot_get slot (slot_take slot st) = None).

(** Asking selects nothing. *)
Definition asks {X} : Course (W := W) X := λ st l _ p,
  disciplined slot st l p.2 ∧ harmless (begun l).

(** A selection: nothing was selected, or one call of [P] was made among harmless ones,
    and success means [C]. *)
Definition course (P : BusCall → Prop) (C : W * S → Prop) : Course unit := λ st l r p,
  disciplined slot st l p.2 ∧
  (harmless (begun l) ∧ r ≠ Ok () ∨
   ∃ before set after, begun l = before ++ [set] ++ after ∧ P set ∧ selecting set = true ∧
     harmless before ∧ harmless after ∧ (r = Ok () → C p)).
Definition confirms (C : W * S → Prop) : Course unit := λ st l r p,
  disciplined slot st l p.2 ∧ harmless (begun l) ∧ (r = Ok () → C p).

Lemma asks_said {X} calls (m : OP (W := W * S) X) :
  harmless calls → emits_under (said slot calls) m → emits_under asks m.
Proof.
  intros Hc Hm w st bs b Hb Hd. eapply op_wp_mono; [by eapply Hm|].
  intros s r (Hbs & l & Ho & Hdis & Hp & _). split; [done|]. exists l. split; [done|]. split; [done|].
  destruct Hp as [rest Hrest]. unfold harmless in *. rewrite Hrest in Hc. by apply Forall_app in Hc as [Hc _].
Qed.
Lemma asks_pure {X} (r : result DesktopError X) (m : OP (W := W * S) X) :
  (∀ s, m s = Some (s, r)) → emits_under asks m.
Proof. intros Hm. eapply (asks_said []); [constructor|by eapply said_pure]. Qed.
Lemma asks_bind {X Y} (m : OP (W := W * S) X) (f : X → OP (W := W * S) Y) :
  emits_under asks m → (∀ x, emits_under asks (f x)) → emits_under asks (m ≫= f).
Proof.
  intros Hm Hfx. eapply emits_bind; [exact Hm|exact Hfx|done|].
  intros st l1 x p1 l2 r p2 [Hd1 Hh1] [Hd2 Hh2]. split; [by eapply disciplined_trans|].
  rewrite begun_app. by apply Forall_app.
Qed.

Lemma course_after {X} P C (m : OP (W := W * S) X) f :
  emits_under asks m → (∀ x, emits_under (course P C) (f x)) → emits_under (course P C) (m ≫= f).
Proof.
  intros Hm Hfx. eapply emits_bind; [exact Hm|exact Hfx|..].
  - intros st l e p [Hd Hh]. split; [done|]. by left.
  - intros st l1 x p1 l2 r p2 [Hd1 Hh1] [Hd2 Hc]. split; [by eapply disciplined_trans|].
    rewrite begun_app. destruct Hc as [[Hh2 Hr]|(before & set & after & Hl & HP & Hs & Hb & Ha & Hok)].
    + left. split; [by apply Forall_app|done].
    + right. exists (begun l1 ++ before), set, after. rewrite Hl, app_assoc. split_and!; try done. by apply Forall_app.
Qed.
Lemma course_lift {X} P C (r : result DesktopError X) f :
  (∀ x, r = Ok x → emits_under (course P C) (f x)) → emits_under (course P C) (op_lift r ≫= f).
Proof.
  intros Hfx w st bs b Hb Hd. apply op_wp_bind, op_wp_lift. destruct r as [x|e]; [by eapply Hfx|].
  split; [done|]. exists []. split; [reflexivity|]. split; [by apply disciplined_refl|left; split; [constructor|done]].
Qed.
Lemma course_fail P C e : emits_under (course P C) (op_fail e).
Proof. apply emits_fail. intros p. split; [by apply disciplined_refl|left; split; [constructor|done]]. Qed.

(** The call that selects, and then the confirmation *)
Lemma course_select {X} (P : BusCall → Prop) C query set (m : OP (W := W * S) X) f :
  emits_under (said slot [query; set]) m → selecting query = false → selecting set = true → P set →
  (∀ x, emits_under (confirms C) (f x)) → emits_under (course P C) (m ≫= f).
Proof.
  intros Hm Hq Hs HP Hfx. eapply emits_bind; [exact Hm|exact Hfx|..].
  - intros st l e p (Hd & Hp & _). split; [done|].
    destruct Hp as [rest Hrest]. destruct (begun l) as [|c1 [|c2 [|c3 calls]]] eqn:Hl; simplify_eq/=.
    + left. split; [constructor|done].
    + left. split; [by repeat constructor|done].
    + right. exists [c1], c2, []. split_and!; try done; by repeat constructor.
  - intros st l1 x p1 l2 r p2 (Hd1 & _ & Hok1) (Hd2 & Hh2 & Hc). split; [by eapply disciplined_trans|].
    right. exists [query], set, (begun l2). rewrite begun_app, (Hok1 x eq_refl).
    split_and!; try done. by repeat constructor.
Qed.

(** The reading that confirms *)
Lemma confirm_reading {X} (C : W * S → Prop) (m : OP (W := W * S) X) (f : X → OP (W := W * S) unit) :
  emits_under asks m →
  (∀ x, (∃ e, ∀ s, f x s = Some (s, Err e)) ∨
        (∀ s, f x s = Some (s, Ok ())) ∧ ∀ p, ended m (Ok x) p → C p) →
  emits_under (confirms C) (m ≫= f).
Proof.
  intros Hm Hfx w st bs b Hb Hd. apply op_wp_bind.
  destruct (Hm w st bs b Hb Hd) as ([p1 bs1] & r & Hr & Hbs & l & Ho & Hdis & Hh).
  simpl in Hbs, Ho, Hdis. subst bs1. eexists _, r. split; [exact Hr|]. destruct r as [x|e].
  - destruct (Hfx x) as [[e He]|[Hok HC]].
    + eexists _, _. split; [apply He|]. split; [done|]. exists l. split; [done|]. by split_and!.
    + eexists _, _. split; [apply Hok|]. split; [done|]. exists l. split; [done|]. split_and!; [done|done|].
      intros _. apply HC. by eexists _, bs.
  - split; [done|]. exists l. split; [done|]. by split_and!.
Qed.
End courses.

(** The source was queued as an enabled one. *)
Definition queued (old : SourceCatalog) (id : string) : Prop :=
  ∃ source, find_source old id = Some source ∧ source_enabled source = true.
Lemma check_queued old fresh id u : SourceCatalog_check old fresh id = Ok u → queued old id.
Proof. destruct u. by intros (_ & _ & _ & Hq)%check_permits. Qed.

Section input_methods.
Context {W S E : Type} `{BusLaws W E, SerdeJson}.
Context (fuel : nat) (Hf : enough fuel) (slot : Slot S).
Context (Hslot : ∀ st, slot_get slot (slot_take slot st) = None).
Context (bus : Bus).

Lemma property_asks name : emits_under (asks slot) (bus_property fuel slot bus name).
Proof. eapply asks_said; [|by apply emits_weaken, bus_property_emits]. by repeat constructor. Qed.
Lemma ask_asks {X} method body (read : Body → result string X) :
  selecting (method_call bus method body) = false → emits_under (asks slot) (bus_ask fuel slot bus method body read).
Proof. intros Hs. eapply asks_said; [|by apply ask_emits]. by repeat constructor. Qed.
Lemma lift_asks {X} (r : result DesktopError X) : emits_under (W := W) (asks slot) (op_lift r).
Proof. by apply (asks_pure slot r). Qed.
Lemma ret_asks {X} (x : X) : emits_under (W := W) (asks slot) (mret x).
Proof. by apply (asks_pure slot (Ok x)). Qed.
Lemma fail_asks {X} e : emits_under (W := W) (asks (X := X) slot) (op_fail e).
Proof. by apply (asks_pure slot (Err e)). Qed.

Lemma ibus_sources_asks : emits (asks slot) (ibus_sources fuel slot bus).
Proof.
  apply emits_scope. repeat (apply asks_bind; [apply property_asks|intros ?]; apply asks_bind; [apply lift_asks|intros ?]).
  apply ret_asks.
Qed.

(** The confirmation of both: the inventory read last has the source as current. *)
Definition read_back (sources : OP (W := W * S) SourceCatalog) (id : string) (p : W * S) : Prop :=
  ∃ c, ended sources (Ok c) p ∧ cat_current c = Some id.
Lemma confirm_current sources id :
  emits (asks slot) sources →
  emits_under (confirms slot (read_back sources id))
    (sources ≫= λ after, if negb (is_current after id) then op_fail SelectionFailed else mret ()).
Proof.
  intros Hs. apply confirm_reading; [by apply emits_weaken|]. intros after. unfold is_current.
  case_bool_decide as Hc; simpl; [right|left; by eexists]. split; [done|]. intros p Hp. by exists after.
Qed.

Lemma ibus_select_course old id :
  emits (course slot (λ set, set = method_call bus "SetGlobalEngine" [BStr id] ∧ queued old id)
           (read_back (ibus_sources fuel slot bus) id)) (ibus_select fuel slot bus old id).
Proof.
  apply emits_scope. apply course_after; [apply emits_weaken, ibus_sources_asks|]. intros fresh.
  apply course_lift. intros u Hcheck%check_queued.
  eapply (course_select slot _ _ (owner_query (bus_name bus)) (method_call bus "SetGlobalEngine" [BStr id])); [|done|done|done|].
  - by apply emits_weaken, bus_call_emits.
  - intros _. apply confirm_current, ibus_sources_asks.
Qed.

Lemma fcitx_groups_asks active groups : ∀ enabled states,
  emits_under (asks slot) (fcitx_groups fuel slot bus active groups enabled states).
Proof.
  induction groups as [|group groups IH]; intros enabled states; [apply ret_asks|].
  cbn [fcitx_groups]. apply asks_bind; [by apply ask_asks|]. intros info. apply IH.
Qed.
Lemma fcitx_sources_asks : emits (asks slot) (fcitx_sources fuel slot bus).
Proof.
  apply emits_scope. apply asks_bind; [by apply ask_asks|]. intros entries.
  apply asks_bind; [by apply ask_asks|]. intros groups. destruct (_ || _); [apply fail_asks|].
  apply asks_bind; [by apply ask_asks|]. intros active. apply asks_bind; [apply fcitx_groups_asks|].
  intros [enabled states]. apply asks_bind; [by apply ask_asks|]. intros current. apply ret_asks.
Qed.
Lemma fcitx_select_course old id :
  emits (course slot (λ set, set = method_call bus "SetCurrentIM" [BStr id] ∧ queued old id)
           (read_back (fcitx_sources fuel slot bus) id)) (fcitx_select fuel slot bus old id).
Proof.
  apply emits_scope. apply course_after; [apply emits_weaken, fcitx_sources_asks|]. intros fresh.
  apply course_lift. intros u Hcheck%check_queued.
  eapply (course_select slot _ _ (owner_query (bus_name bus)) (method_call bus "SetCurrentIM" [BStr id])); [|done|done|done|].
  - by apply emits_weaken, bus_call_emits.
  - intros _. apply confirm_current, fcitx_sources_asks.
Qed.
End input_methods.

Section gnome.
Context {W E : Type} `{BusLaws W E, WireFormat}.
Context (fuel : nat) (Hf : enough fuel) (bus : Bus).

Lemma gnome_slot_taken st : slot_get gnome_slot (slot_take gnome_slot st) = None.
Proof. done. Qed.

Lemma gnome_note_asks wire : emits_under (W := W) (asks gnome_slot) (gnome_note wire).
Proof.
  intros w st bs b _ _. unfold op_wp, gnome_note. destruct (regressed (gn_last st) wire); eexists _, _;
    (split; [done|]; split; [done|]; exists []; split; [reflexivity|]; split; [by apply disciplined_refl|constructor]).
Qed.
Lemma gnome_read_asks : emits_under (asks gnome_slot) (gnome_read fuel bus).
Proof.
  apply asks_bind; [by apply ask_asks|]. intros text. apply asks_bind; [apply lift_asks|]. intros wire.
  apply gnome_note_asks.
Qed.
Lemma now_asks : emits_under (W := W) (asks gnome_slot) (op_world op_now).
Proof.
  intros w st bs b _ _. unfold op_wp, op_world. simpl. destruct (op_now w) as [w1 t] eqn:Hn.
  apply now_later in Hn as [Hl _]. eexists (w1, st, bs), (Ok t). split; [done|]. split; [done|]. exists [].
  split; [exact Hl|]. split; [by apply disciplined_refl|constructor].
Qed.
Lemma gnome_poll_asks : emits (asks gnome_slot) (gnome_poll fuel bus).
Proof.
  apply emits_scope. apply asks_bind; [apply now_asks|]. intros now.
  apply asks_bind; [apply gnome_read_asks|]. intros wire. apply ret_asks.
Qed.
Lemma gnome_sources_asks : emits (asks gnome_slot) (gnome_sources fuel bus).
Proof. apply emits_scope. apply asks_bind; [apply gnome_read_asks|]. intros wire. apply ret_asks. Qed.

(** The call names the epoch and the generation of the queued inventory. *)
Definition gnome_selects (old : SourceCatalog) (id : string) (set : BusCall) : Prop :=
  queued old id ∧ ∃ epoch generation, cat_generation old = String.append epoch (String.append ":" generation) ∧
    set = method_call bus "Select" [BStr epoch; BStr generation; BStr id].
Definition gnome_read_back (id : string) (p : W * Gnome) : Prop :=
  ∃ wire, ended (gnome_read fuel bus) (Ok wire) p ∧ ws_current wire = Some id.

Lemma fail_confirms {S} (slot : Slot S) C e : emits_under (W := W) (confirms slot C) (op_fail e).
Proof. apply emits_fail. intros p. split_and!; [by apply disciplined_refl|constructor|done]. Qed.

Lemma gnome_select_course old id :
  emits (course gnome_slot (gnome_selects old id) (gnome_read_back id)) (gnome_select fuel bus old id).
Proof.
  apply emits_scope. apply course_after; [apply gnome_read_asks|]. intros wire.
  apply course_lift. intros u Hcheck. pose proof (check_queued _ _ _ _ Hcheck) as Hq. destruct u.
  apply check_permits in Hcheck as (_ & Hgen & _). simpl in Hgen.
  eapply (course_select gnome_slot _ _ (owner_query (bus_name bus))); [by apply ask_emits|done|done|by split; eauto|].
  intros selected. destruct selected; simpl; [|apply fail_confirms].
  apply confirm_reading; [apply gnome_read_asks|]. intros after. case_bool_decide as Hc; simpl; [right|left; by eexists].
  split; [done|]. intros p Hp. by exists after.
Qed.
End gnome.

(** The receiver's mutex sends nothing. *)
Class BridgeLaws (W E : Type) `{OperationsLaws W E, BridgeState W} : Prop := {
  br_try_later w : onward [] w (br_try_lock w).1;
  br_unlock_later w : onward [] w (br_unlock w);
}.

Section kwin.
Context {W E : Type} `{BusLaws W E, WireFormat, SerdeJson, !BridgeState W, !BridgeLaws W E}.
Context (fuel : nat) (Hf : enough fuel) (layouts kwin : Bus).

Lemma kwin_sources_asks : emits (asks layouts_slot) (kwin_sources fuel layouts).
Proof.
  apply emits_scope. apply asks_bind; [by apply ask_asks|]. intros names.
  apply asks_bind; [by apply ask_asks|]. intros current. apply ret_asks.
Qed.

(** The call names the position that the identifier denotes. *)
Definition kwin_selects (old : SourceCatalog) (id : string) (set : BusCall) : Prop :=
  queued old id ∧ ∃ index, parse_u32 (lit id) = Some index ∧ set = method_call layouts "setLayout" [BU32 index].

Lemma kwin_select_course old id :
  emits (course layouts_slot (kwin_selects old id) (read_back (kwin_sources fuel layouts) id))
    (kwin_select fuel layouts old id).
Proof.
  apply emits_scope. apply course_after; [apply emits_weaken, kwin_sources_asks|]. intros fresh.
  apply course_lift. intros u Hcheck%check_queued. apply course_lift. intros index Hindex.
  unfold ok_or in Hindex. destruct (parse_u32 (lit id)) as [index'|] eqn:Hp; [|done]. simplify_eq.
  eapply (course_select layouts_slot _ _ (owner_query (bus_name layouts)));
    [by apply ask_emits|done|done|by split; eauto|].
  intros selected. destruct selected; simpl; [|apply fail_confirms].
  apply confirm_current, kwin_sources_asks.
Qed.

Lemma kwin_poll_harmless : emits (λ _ l _ _, harmless (begun l)) (kwin_poll fuel kwin).
Proof.
  apply emits_scope. eapply (emits_bind _ (λ _ _ l _ _, l = [])).
  - by apply emits_weaken, check_owner_emits.
  - intros _ w st bs b Hb Hd. apply op_wp_bind.
    eapply op_wp_lock_with; [| |exact Hb| |].
    + intros [w1 st1]. rewrite outer_eq. exact (br_try_later w1).
    + intros [w1 st1]. exact (br_unlock_later w1).
    + unfold enough in Hf. simpl. lia.
    + intros [w1 st1] r Hl _. destruct r as [[]|e]; [|split; [done|]; exists []; by split].
      unfold op_wp, kwin_state. destruct (br_state w1) as [[wire time]|].
      * destruct (op_now w1) as [w2 now] eqn:Hn. apply now_later in Hn as [Hl2 _].
        assert (onward [] w (br_unlock w2)) as Hl3.
        { eapply onward_later; [exact Hl|]. by eapply onward_later, br_unlock_later. }
        case_bool_decide; eexists _, _; (split; [done|]; split; [done|]; exists []; by split).
      * eexists _, _. split; [done|]. split; [done|]. exists []. split; [|done].
        eapply onward_later; [exact Hl|]. apply br_unlock_later.
  - intros st l e p (_ & Hp & _). destruct Hp as [rest Hrest].
    assert (harmless [owner_query (bus_name kwin)]) as Hh by (by repeat constructor).
    unfold harmless in *. rewrite Hrest in Hh. by apply Forall_app in Hh as [Hh _].
  - intros st l1 x p1 l2 r p2 (_ & _ & Hok) ->. rewrite app_nil_r, (Hok x eq_refl). by repeat constructor.
Qed.
End kwin.

(** ** The contract of a provider *)

Section contract.
Context {W S E : Type} `{BusLaws W E}.
Context (slot : Slot S).

Definition bus_selection (e : E) : bool :=
  match bus_event e with Some (Begun _ call) => selecting call | _ => false end.

Lemma harmless_quiet l : harmless (begun l) → List.filter bus_selection (on_bus <$> l) = [].
Proof.
  unfold harmless. induction l as [|e l IH]; [done|]. cbn [fmap list_fmap List.filter]. unfold bus_selection at 1.
  rewrite on_bus_event. destruct e as [c call|]; simpl; [|done]. intros [Hc Hl]%Forall_cons. rewrite Hc. auto.
Qed.
Lemma chosen_once l before set after :
  begun l = before ++ [set] ++ after → harmless before → harmless after → selecting set = true →
  ∃ c, List.filter bus_selection (on_bus <$> l) = [on_bus (Begun c set)].
Proof.
  revert before. induction l as [|e l IH]; intros before Hl Hb Ha Hs; [by destruct before|].
  cbn [fmap list_fmap List.filter]. unfold bus_selection at 1. rewrite on_bus_event.
  destruct e as [c call|]; [|by apply (IH before)]. simpl in Hl.
  destruct before as [|call' before]; simplify_eq/=.
  - rewrite Hs. exists c. f_equal. by apply harmless_quiet.
  - apply Forall_cons in Hb as [-> Hb]. by apply (IH before).
Qed.

(** Three methods with these courses are a provider that keeps its contract. *)
Definition bus_selects (P : SourceCatalog → string → BusCall → Prop) (old : SourceCatalog) (id : string) (e : E) : Prop :=
  ∃ c set, e = on_bus (Begun c set) ∧ P old id set.
#[refine] Definition contract_of `{provider : Provider (W * S)} (P : SourceCatalog → string → BusCall → Prop)
    (C : string → W * S → Prop)
    (Hpoll : ∀ w bs, op_wp pv_poll (λ s _, s.2 = bs ∧
       ∃ l, onward l w s.1 ∧ List.filter bus_selection l = []) (w, bs))
    (Hsources : emits (asks slot) pv_sources)
    (Hselect : ∀ old id, emits (course slot (P old id) (C id)) (pv_select old id)) :
    ProviderLaws (W * S) E := {|
  selection := bus_selection;
  selects := bus_selects P;
|}.
Proof.
  - exact Hpoll.
  - intros [w st] bs. eapply op_wp_mono; [apply Hsources|]. intros [[w' st'] bs'] r (Hbs & l & Ho & _ & Hh).
    split; [done|]. exists (on_bus <$> l). split; [exact Ho|by apply harmless_quiet].
  - intros [w st] bs old id. eapply op_wp_mono; [apply Hselect|].
    intros [[w' st'] bs'] r (Hbs & l & Ho & _ & Hc). split; [done|]. exists (on_bus <$> l). split; [exact Ho|].
    destruct Hc as [[Hh Hr]|(before & set & after & Hl & HP & Hs & Hb & Ha & _)].
    + left. split; [by apply harmless_quiet|done].
    + right. destruct (chosen_once l before set after Hl Hb Ha Hs) as [c Hchosen]. rewrite Hchosen.
      eexists. split; [done|]. by exists c, set.
Defined.
End contract.

Section contracts.
Context {W E : Type} `{BusLaws W E, SerdeJson, WireFormat, !BridgeState W, !BridgeLaws W E}.
Context (fuel : nat) (Hf : enough fuel).

Lemma emits_harmless_poll {S X} (R : Course (W := W) X) (m : OP (W := W * S) X) :
  emits R m → (∀ st l r p, R st l r p → harmless (begun l)) →
  ∀ p bs, op_wp m (λ s _, s.2 = bs ∧ ∃ l, onward l p s.1 ∧ List.filter bus_selection l = []) (p, bs).
Proof.
  intros Hm HR [w st] bs. eapply op_wp_mono; [apply Hm|]. intros [[w' st'] bs'] r (Hbs & l & Ho & Hl).
  split; [done|]. exists (on_bus <$> l). split; [exact Ho|]. by eapply harmless_quiet, HR.
Qed.

#[export] Instance Gnome_laws bus : ProviderLaws (H1 := Gnome_provider fuel bus) (W * Gnome) E :=
  contract_of gnome_slot (provider := Gnome_provider fuel bus) (gnome_selects bus) (gnome_read_back fuel bus)
    (emits_harmless_poll _ _ (gnome_poll_asks fuel Hf bus) ltac:(by intros st l r p [_ Hh]))
    (gnome_sources_asks fuel Hf bus) (gnome_select_course fuel Hf bus).
#[export] Instance Kwin_laws layouts kwin :
    ProviderLaws (H1 := Kwin_provider fuel layouts kwin) (W * Kwin) E :=
  contract_of layouts_slot (provider := Kwin_provider fuel layouts kwin) (kwin_selects layouts)
    (read_back (kwin_sources fuel layouts))
    (emits_harmless_poll _ _ (kwin_poll_harmless fuel Hf kwin) ltac:(done))
    (kwin_sources_asks fuel Hf layouts) (kwin_select_course fuel Hf layouts).

(** With the focus of any desktop whose polling selects nothing *)
Definition method_bus (im : InputMethodProvider) : Bus := match im with IBus bus | Fcitx5 bus => bus end.
Definition method_selects (im : InputMethodProvider) (old : SourceCatalog) (id : string) (set : BusCall) : Prop :=
  set = method_call (method_bus im) (match im with IBus _ => "SetGlobalEngine" | Fcitx5 _ => "SetCurrentIM" end)
    [BStr id] ∧ queued old id.

Lemma with_sources_asks {S} (slot : Slot S) im :
  (∀ st, slot_get slot (slot_take slot st) = None) → emits (asks slot) (with_sources (W := W) fuel slot im).
Proof. intros Hs. destruct im; [by apply ibus_sources_asks|by apply fcitx_sources_asks]. Qed.
Lemma with_select_course {S} (slot : Slot S) im old id :
  (∀ st, slot_get slot (slot_take slot st) = None) →
  emits (course slot (method_selects im old id) (read_back (with_sources fuel slot im) id))
    (with_select (W := W) fuel slot im old id).
Proof. intros Hs. destruct im; [by apply ibus_select_course|by apply fcitx_select_course]. Qed.

Definition WithInputMethod_laws {S} (slot : Slot S) (desktop : Provider (W * S)) (im : InputMethodProvider)
    (Hslot : ∀ st, slot_get slot (slot_take slot st) = None)
    (Hdesktop : ∀ p bs, op_wp (@pv_poll _ desktop) (λ s _, s.2 = bs ∧
       ∃ l, onward l p s.1 ∧ List.filter bus_selection l = []) (p, bs)) :
    ProviderLaws (H1 := WithInputMethod_provider fuel slot desktop im) (W * S) E :=
  contract_of slot (provider := WithInputMethod_provider fuel slot desktop im) (method_selects im)
    (read_back (with_sources fuel slot im)) Hdesktop (with_sources_asks slot im Hslot)
    (λ old id, with_select_course slot im old id Hslot).
End contracts.

(** ** Histories *)

(** What a client may do with its bus *)
Inductive BusOp : Type := DoCheck | DoCall (method : string) (body : list BusArg) | DoProperty (name : string).

Section histories.
Context {W S E : Type} `{BusLaws W E}.
Context (fuel : nat) (slot : Slot S) (bus : Bus).

Definition ignore {X} (m : OP (W := W * S) X) : OP (W := W * S) unit := op_ok m ≫= λ _, mret ().
Definition bus_op (op : BusOp) : OP (W := W * S) unit :=
  match op with
  | DoCheck => ignore (check_owner fuel slot bus)
  | DoCall method body => ignore (bus_call fuel slot bus method body)
  | DoProperty name => ignore (bus_property fuel slot bus name)
  end.
(** Any operations, one after the other, whatever each returned. *)
Fixpoint bus_ops (ops : list BusOp) : OP (W := W * S) unit :=
  match ops with
  | [] => mret ()
  | op :: ops => bus_op op ≫= λ _, bus_ops ops
  end.

Lemma ignore_emits {X} calls (m : OP (W := W * S) X) :
  emits (said slot calls) m → emits (λ st l _ p, disciplined slot st l p.2) (ignore m).
Proof.
  intros Hm w st bs. apply op_wp_bind, op_wp_ok. eapply op_wp_mono; [apply Hm|].
  intros s r (Hbs & l & Ho & Hd & _). destruct s as [[w' st'] bs']. apply op_wp_ret. split; [done|]. by exists l.
Qed.

(** C24. A failed call ends a bus connection. Whatever a client asks of its bus, in any
    order and however each call ends, the operations return, and on its connection every
    call is answered before the next is begun: while the connection is kept every call
    was settled; once a call failed, timed out or was cancelled the connection is given
    up, that call being the last one begun, and from then on nothing is sent. *)
Theorem bus_calls_settle ops w st bs :
  enough fuel → (∀ st, slot_get slot (slot_take slot st) = None) →
  ∃ w' st' r l, bus_ops ops (w, st, bs) = Some ((w', st', bs), r) ∧
    trace w' = trace w ++ (on_bus <$> l) ∧ disciplined slot st l st'.
Proof.
  intros Hf Hslot. assert (emits (λ st l _ p, disciplined slot st l p.2) (bus_ops ops)) as Hops.
  { induction ops as [|op ops IH].
    - intros w0 st0 bs0. apply op_wp_ret. split; [done|]. exists []. split; [reflexivity|]. by apply disciplined_refl.
    - intros w0 st0 bs0. apply op_wp_bind. assert (emits (λ st l _ p, disciplined slot st l p.2) (bus_op op)) as Hop.
      { destruct op; simpl; eapply ignore_emits;
          [by apply check_owner_emits|by apply bus_call_emits|by apply bus_property_emits]. }
      eapply op_wp_mono; [apply Hop|]. intros [[w1 st1] bs1] r (Hbs & l & Ho & Hd). simpl in Hbs, Ho, Hd. subst bs1.
      destruct r as [[]|e]; [|by split; [|exists l]].
      eapply op_wp_mono; [apply IH|]. intros [[w2 st2] bs2] r (Hbs2 & l2 & Ho2 & Hd2). split; [done|].
      exists (l ++ l2). rewrite fmap_app. split; [by eapply onward_trans|by eapply disciplined_trans]. }
  destruct (Hops w st bs) as ([[w' st'] bs'] & r & Hr & Hbs & l & (_ & _ & Ht) & Hd). simpl in *. subst bs'.
  by exists w', st', r, l.
Qed.
End histories.

(** C23. A selection over the session bus is made once and confirmed. IBus, Fcitx5, GNOME
    and KWin each return; they make at most one selecting call, for the source that was
    queued as an enabled one and only after the inventory was found unchanged; and when
    one reports success, the last thing it did was to read that source back as current. *)
Theorem bus_actions_confirmed {W S E} `{BusLaws W E, SerdeJson, WireFormat} fuel (slot : Slot S) im bus layouts old id :
  enough fuel → (∀ st, slot_get slot (slot_take slot st) = None) →
  emits (course slot (method_selects im old id) (read_back (with_sources fuel slot im) id))
    (with_select (W := W) fuel slot im old id) ∧
  emits (course gnome_slot (gnome_selects bus old id) (gnome_read_back fuel bus id))
    (gnome_select (W := W) fuel bus old id) ∧
  emits (course layouts_slot (kwin_selects layouts old id) (read_back (kwin_sources fuel layouts) id))
    (kwin_select (W := W) fuel layouts old id).
Proof.
  intros Hf Hslot. split_and!; [by apply with_select_course|by apply gnome_select_course|by apply kwin_select_course].
Qed.

(** ** Pushed snapshots *)

Section receiver.
Context `{WireFormat}.

(** A message: whether the mutex was poisoned, when it came, from whom, and its text *)
Record Push : Type := mkPush { pu_poisoned : bool; pu_now : Z; pu_sender : option string; pu_text : string }.

(** The receiver over a history of messages, with what it accepted on the way. *)
Fixpoint receive_all (owner : string) (state : Published) (pushes : list Push) : Published * list (WireSnapshot * Z) :=
  match pushes with
  | [] => (state, [])
  | p :: pushes =>
      let '(state, accepted) := receiver_publish owner state (pu_poisoned p) (pu_now p) (pu_sender p) (pu_text p) in
      let '(final, all) := receive_all owner state pushes in
      (final, if accepted then option_list state ++ all else all)
  end.

(** Of two snapshots of an epoch the later has the higher sequence. *)
Definition ahead (a b : WireSnapshot * Z) : Prop :=
  ws_epoch a.1 = ws_epoch b.1 → ws_sequence a.1 < ws_sequence b.1.

(** What was published by the owner, as it was sent *)
Definition genuine (owner : string) (pushes : list Push) (x : WireSnapshot * Z) : Prop :=
  ∃ p, p ∈ pushes ∧ pu_sender p = Some owner ∧ wire_parse (pu_text p) = Ok x.1 ∧ x.2 = pu_now p.

Lemma publish_cases owner state p :
  (∃ x, receiver_publish owner state (pu_poisoned p) (pu_now p) (pu_sender p) (pu_text p) = (Some x, true) ∧
     pu_sender p = Some owner ∧ wire_parse (pu_text p) = Ok x.1 ∧ x.2 = pu_now p ∧ ∀ y, state = Some y → ahead y x) ∨
  receiver_publish owner state (pu_poisoned p) (pu_now p) (pu_sender p) (pu_text p) = (state, false).
Proof.
  unfold receiver_publish, receiver_accept. case_bool_decide as Hs; simpl; [|by right].
  destruct (wire_parse (pu_text p)) as [wire|e]; [|by right]. destruct (pu_poisoned p); [by right|].
  destruct state as [[old time]|].
  - destruct (bool_decide_reflect (ws_epoch old = ws_epoch wire)) as [He|He]; simpl.
    + case_bool_decide as Hq; [by right|]. left. exists (wire, pu_now p). split_and!; try done.
      intros y [= <-] _. simpl. lia.
    + left. exists (wire, pu_now p). split_and!; try done. by intros y [= <-] ?.
  - left. exists (wire, pu_now p). by split_and!.
Qed.

Lemma receive_all_ordered owner pushes : ∀ state,
  let '(final, all) := receive_all owner state pushes in
  Sorted ahead (option_list state ++ all) ∧ final = last (option_list state ++ all) ∧
  Forall (genuine owner pushes) all.
Proof.
  induction pushes as [|p pushes IH]; intros state; simpl.
  { rewrite app_nil_r. destruct state; by repeat constructor. }
  assert (∀ all, Forall (genuine owner pushes) all → Forall (genuine owner (p :: pushes)) all) as Hmore.
  { intros all Hall. eapply Forall_impl; [exact Hall|]. intros x (q & Hq & ?). exists q. split; [by right|done]. }
  destruct (publish_cases owner state p) as [(x & -> & Hs & Hp & Ht & Hahead)| ->].
  - specialize (IH (Some x)). destruct (receive_all owner (Some x) pushes) as [final all].
    destruct IH as (Hsort & Hfinal & Hgen). split_and!.
    + destruct state as [y|]; [|exact Hsort]. simpl in *. constructor; [done|]. constructor. by apply Hahead.
    + destruct state as [y|]; [|exact Hfinal]. exact Hfinal.
    + simpl. constructor; [|by apply Hmore]. exists p. split; [by left|done].
  - specialize (IH state). destruct (receive_all owner state pushes) as [final all].
    destruct IH as (Hsort & Hfinal & Hgen). split_and!; [done|done|by apply Hmore].
Qed.

(** The KWin receiver never goes back. Over any history of messages it keeps the last
    one it accepted, untouched by those it refused; every accepted one came from KWin's
    own connection, was valid, and is stamped with its own arrival; and of two accepted
    in a row the second has a higher sequence number or another epoch. *)
Theorem receiver_never_regresses owner pushes final all :
  receive_all owner None pushes = (final, all) →
  Sorted ahead all ∧ final = last all ∧ Forall (genuine owner pushes) all.
Proof. intros Hall. pose proof (receive_all_ordered owner pushes None) as Ho. by rewrite Hall in Ho. Qed.
End receiver.

(** ** A simulated bus

    An IBus daemon with two engines; with [bd_silent] it stops answering. *)
Definition as_string (v : Value) : result string string :=
  match v with VString s => Ok s | _ => Err "incorrect type" end.
Definition as_list (v : Value) : result string (list Value) :=
  match v with VArray l => Ok l | _ => Err "incorrect type" end.
#[export] Instance SimZvariant : Zvariant := {|
  Zv := Value; Body := Value;
  zv_inner _ := None; zv_structure := as_list; zv_str := as_string; zv_array := as_list;
  de_string := as_string;
  de_bool v := match v with VBool b => Ok b | _ => Err "incorrect type" end;
  de_u32 v := match v with VInt n => Ok n | _ => Err "incorrect type" end;
  de_strings v := l ← as_list v; collect as_string l;
  de_value v := Ok v;
  de_layouts _ := Err "incorrect type"; de_group _ := Err "incorrect type"; de_entries _ := Err "incorrect type";
|}.

Record BusDesk : Type := mkBusDesk {
  bd_clock : Z; bd_raised : list nat; bd_events : list BusEvent; bd_engine : string; bd_call : option BusCall;
  bd_silent : bool;
}.
Definition bd_tick (w : BusDesk) (d : Z) : BusDesk :=
  mkBusDesk (bd_clock w + Z.max 0 d) (bd_raised w) (bd_events w) (bd_engine w) (bd_call w) (bd_silent w).

#[export] Instance BusDesk_operations : Operations BusDesk := {|
  op_now w := (bd_tick w 1000, bd_clock w);
  op_stopped w f := (w, bool_decide (f ∈ bd_raised w));
  op_stop w f := mkBusDesk (bd_clock w) (f :: bd_raised w) (bd_events w) (bd_engine w) (bd_call w) (bd_silent w);
  op_try_lock w := (bd_tick w 1000, LockTaken);
  op_unlock w := w;
  op_sleep := bd_tick;
|}.
#[export, refine] Instance BusDesk_laws : OperationsLaws BusDesk BusEvent := {|
  clock := bd_clock;
  raised w f := bool_decide (f ∈ bd_raised w);
  trace := bd_events;
|}.
Proof.
  all: intros; simplify_eq/=; repeat split; simpl; intros; rewrite ?app_nil_r; try done; try lia.
Defined.

Definition desc (id label : string) : Value := VArray [VString "IBusEngineDesc"; VNull; VString id; VString label].
Definition sim_engines : Value := VArray [desc "xkb:us" "English"; desc "xkb:de" "German"].
(** The reply to a call, and the engine after it *)
Definition sim_answer (call : BusCall) (engine : string) : Value * string :=
  match bc_method call, bc_body call with
  | "GetNameOwner", _ => (VString ":1.7", engine)
  | "Get", [_; BStr "GlobalEngine"] => (desc engine "", engine)
  | "Get", _ => (sim_engines, engine)
  | "SetGlobalEngine", [BStr id] => (VNull, id)
  | _, _ => (VNull, engine)
  end.
#[export] Instance BusDesk_bus : SessionBus BusDesk := {|
  sb_runtime w := (w, Ok ());
  sb_build w := (w, Ok 0);
  sb_poll_build w _ _ := (w, Some (Ok 3));
  sb_begin w c call :=
    (mkBusDesk (bd_clock w) (bd_raised w) (bd_events w ++ [Begun c call]) (bd_engine w) (Some call) (bd_silent w), 0);
  sb_poll w _ d :=
    match bd_silent w, bd_call w with
    | false, Some call =>
        (mkBusDesk (bd_clock w) (bd_raised w) (bd_events w ++ [Answered]) (sim_answer call (bd_engine w)).2 None false,
         Some (Ok (mkBusMessage 100 (sim_answer call (bd_engine w)).1)))
    | _, _ => (bd_tick w d, None)
    end;
  sb_close w _ := w;
|}.
#[export, refine] Instance BusDesk_bus_laws : BusLaws BusDesk BusEvent := {|
  on_bus e := e;
  bus_event := Some;
|}.
Proof.
  all: intros; try (repeat split; simpl; intros; rewrite ?app_nil_r; try done; lia).
  simpl. destruct (bd_silent w); [|destruct (bd_call w)]; repeat split; simpl; rewrite ?app_nil_r; try done; lia.
Defined.

Definition sim_slot : Slot (option Z) := mkSlot (λ c, c) (λ _, None).
Definition sim_bus : Bus := mkBus ":1.7" "org.freedesktop.IBus" "/org/freedesktop/IBus" "org.freedesktop.IBus".
Definition sim_world (silent : bool) : BusDesk := mkBusDesk 0 [] [] "xkb:us" None silent.
Definition sim_ibus_catalog : SourceCatalog :=
  match ibus_sources 10 sim_slot sim_bus (sim_world false, Some 3, []) with
  | Some (_, Ok c) => c
  | _ => mkSourceCatalog "" "" [] None
  end.

(** A selection; it makes fourteen calls, each settled. *)
Example sim_ibus_select :
  (λ o, (bd_engine o.1.1.1, o.1.1.2, length (begun (bd_events o.1.1.1)), o.2)) <$>
    ibus_select 10 sim_slot sim_bus sim_ibus_catalog "xkb:de" (sim_world false, Some 3, []) =
  Some ("xkb:de", Some 3, 14%nat, Ok ()).
Proof. vm_compute. reflexivity. Qed.
(** A daemon that does not answer: the first call times out, and the connection is gone. *)
Example sim_silent :
  (λ o, (bd_events o.1.1.1, o.1.1.2, o.2)) <$>
    ibus_select 50 sim_slot sim_bus sim_ibus_catalog "xkb:de" (sim_world true, Some 3, []) =
  Some ([Begun 3 (owner_query "org.freedesktop.IBus")], None, Err (Unavailable "desktop operation deadline")).
Proof. vm_compute. reflexivity. Qed.

Lemma bus_calls_settle_witness :
  ∃ w' st' r l, bus_ops much_fuel sim_slot sim_bus [DoProperty "Engines"; DoCheck] (sim_world false, Some 3, []) =
      Some ((w', st', []), r) ∧
    trace w' = [] ++ (on_bus <$> l) ∧ disciplined sim_slot (Some 3) l st'.
Proof.
  destruct (bus_calls_settle much_fuel sim_slot sim_bus [DoProperty "Engines"; DoCheck] (sim_world false) (Some 3) []
    much_fuel_enough (λ _, eq_refl)) as (w' & st' & r & l & Hr & Ht & Hd).
  exists w', st', r, l. split; [exact Hr|]. split; [exact Ht|exact Hd].
Defined.

(** Snapshots as JSON *)
#[export] Instance SimWire : WireFormat := λ text,
  match json_parse text with
  | Ok v =>
      match as_u64 (field v "version"), as_str (field v "epoch"), as_u64 (field v "sequence") with
      | Some version, Some epoch, Some sequence =>
          Ok (mkWireSnapshot version epoch sequence None LockUnknown "1" [] None)
      | _, _, _ => Err "missing field"
      end
  | Err e => Err e
  end.

Lemma bus_actions_confirmed_witness :
  emits (course sim_slot (method_selects (IBus sim_bus) sim_ibus_catalog "xkb:de")
           (read_back (with_sources much_fuel sim_slot (IBus sim_bus)) "xkb:de"))
    (with_select (W := BusDesk) much_fuel sim_slot (IBus sim_bus) sim_ibus_catalog "xkb:de").
Proof.
  destruct (bus_actions_confirmed (W := BusDesk) much_fuel sim_slot (IBus sim_bus) sim_bus sim_bus sim_ibus_catalog
    "xkb:de" much_fuel_enough (λ _, eq_refl)) as [Hselect _]. exact Hselect.
Defined.

Definition sim_text (sequence : Z) : string :=
  json_print (VObject [("version", VInt 1); ("epoch", VString "e"); ("sequence", VInt sequence)]).
Definition sim_pushes : list Push :=
  [mkPush false 10 (Some ":1.9") (sim_text 1); mkPush false 20 (Some ":1.9") (sim_text 1);
   mkPush false 30 (Some ":1.8") (sim_text 2); mkPush false 40 (Some ":1.9") (sim_text 2)].
Lemma receiver_never_regresses_witness :
  (λ x, (ws_sequence x.1, x.2)) <$> (receive_all ":1.9" None sim_pushes).2 = [(1, 10); (2, 40)] ∧
  Sorted ahead (receive_all ":1.9" None sim_pushes).2.
Proof.
  split; [vm_compute; reflexivity|].
  destruct (receiver_never_regresses ":1.9" sim_pushes (receive_all ":1.9" None sim_pushes).1
    (receive_all ":1.9" None sim_pushes).2) as [Hsorted _]; [by destruct (receive_all ":1.9" None sim_pushes)|].
  exact Hsorted.
Defined.
