(* ===== verification/X11.v ===== *)
(** * X11 (packages/linux/src/desktop/x11.rs)

    The connection runs over a stream whose waits are cut into slices and bounded; an
    interrupted operation invalidates it for good, so that nothing it left in a buffer is
    ever flushed. The socket is the class [XSocket]. x11rb, which decides what to read and
    write for a request, is the class [X11rb]: a strategy that is told what the stream
    answered so far. *)

From Stdlib Require Import Strings.Byte.
From stdpp Require Import pretty.
From S2P Require Import Prelude Event Sink Bytes Text Desktop Budget Json LocalIpc Compositors Bus InputMethods.
Import Byte(byte).

(** ** The stream *)

(** The socket below [DefaultStream] *)
Class XSocket (W : Type) : Type := {
  (** [poll(2)] for so many milliseconds: whether an event came *)
  xs_poll : W → bool → bool → Z → W * result string bool;
  xs_read : W → nat → W * result string (list byte);
  xs_write : W → list byte → W * result string nat;
  (** [shutdown(Both)] *)
  xs_shutdown : W → W;
}.

(** [TimedStream], less its socket *)
Record TimedStream : Type := mkTimedStream { ts_deadline : Z; ts_poisoned : bool }.

(** What the connection asks of its stream, and what it is told *)
Inductive StreamOp : Type :=
  | DoPoll (readable writable : bool)
  | DoRead (n : nat)
  | DoWrite (bytes : list byte).
Inductive StreamAnswer : Type :=
  | Polled (r : result DesktopError unit)
  | GotBytes (r : result DesktopError (list byte))
  | Wrote (r : result DesktopError nat).

(** The requests that are made, with the types of their replies *)
Record Property : Type := mkProperty {
  xp_format : Z; xp_bytes_after : Z; xp_value : list byte; xp_value32 : option (list Z);
}.
Inductive Kind : Type := KWindow | KAtom | KString.
Inductive XCall : Type → Type :=
  | Setup (screen : nat) (auth_name auth_data : list byte) : XCall (list Z)
  | UseExtension : XCall bool
  | InternAtom (name : string) : XCall Z
  | GetProperty (window atom : Z) (kind : Kind) (length : Z) : XCall Property
  | GetNames : XCall (Z * option (list Z))
  | GetMap : XCall (list byte)
  | GetAtomName (atom : Z) : XCall (list byte)
  | GetState : XCall Z
  | LatchLockState (group : Z) : XCall unit.

(** x11rb: the next operation on the stream, or the reply *)
Class X11rb : Type :=
  x_next : ∀ {R}, XCall R → list StreamAnswer → StreamOp + result string R.

(** [u16::try_from(left.as_millis()).unwrap_or(u16::MAX).clamp(1, 10)] *)
Definition slice_millis (left : Z) : Z :=
  let millis := left / 1000000 in
  Z.max 1 (Z.min (if bool_decide (millis ≤ 65535) then millis else 65535) 10).

Section stream.
Context {W : Type} `{Operations W, XSocket W}.
Abbreviation M := (OP (W := W * TimedStream)).

(** [TimedStream::invalidate] *)
Definition invalidate : M unit := λ '(w, st, bs),
  Some ((xs_shutdown w, mkTimedStream (ts_deadline st) true, bs), Ok ()).

(** [io::Error::other] of an operation's error, after [act] *)
Definition io_error {X} (act : M unit) (m : M X) : M X := λ s,
  match m s with
  | Some (s, Err e) =>
      match act s with
      | Some (s, _) => Some (s, Err (DesktopIo (display e)))
      | None => None
      end
  | r => r
  end.

(** [TimedStream::check] and [reset] *)
Definition stream_check : M unit := λ s,
  if ts_poisoned s.1.2 then Some (s, Err (DesktopIo "X11 connection invalidated; reconnect required"))
  else (io_error invalidate remaining_budget ≫= λ _, mret ()) s.
Definition stream_reset : M unit := λ '(w, st, bs),
  let '(w, now) := op_now w in
  Some ((w, mkTimedStream (now + IPC_TIMEOUT) (ts_poisoned st), bs), Ok ()).

(** [<TimedStream as Stream>::poll] *)
Fixpoint poll_loop (fuel : nat) (deadline : Z) (readable writable : bool) : M unit :=
  match fuel with
  | O => λ _, None
  | S fuel =>
      stream_check ≫= λ _,
      op_world op_now ≫= λ now,
      io_error (mret ()) remaining_budget ≫= λ rest,
      let left := Z.min (Z.max 0 (deadline - now)) rest in
      if bool_decide (left = 0) then invalidate ≫= λ _, op_fail (DesktopIo "X11 deadline")
      else
        op_world (outer (λ w, xs_poll w readable writable (slice_millis left))) ≫= λ r,
        op_lift (or_io r) ≫= λ ready,
        if ready : bool then mret () else poll_loop fuel deadline readable writable
  end.
Definition stream_deadline : M Z := λ s, Some (s, Ok (ts_deadline s.1.2)).
Definition x_poll (fuel : nat) (readable writable : bool) : M unit :=
  stream_check ≫= λ _,
  stream_deadline ≫= λ deadline,
  poll_loop fuel deadline readable writable.

(** [read] and [write] *)
Definition x_read (n : nat) : M (list byte) :=
  stream_check ≫= λ _, op_world (outer (λ w, xs_read w n)) ≫= λ r, op_lift (or_io r).
Definition x_write (bytes : list byte) : M nat :=
  stream_check ≫= λ _, op_world (outer (λ w, xs_write w bytes)) ≫= λ r, op_lift (or_io r).

(** One operation of the stream, with its outcome told *)
Definition try_op {X} (m : M X) (f : result DesktopError X → StreamAnswer) : M StreamAnswer := λ s,
  match m s with
  | Some (s, r) => Some (s, Ok (f r))
  | None => None
  end.
Definition stream_op (fuel : nat) (o : StreamOp) : M StreamAnswer :=
  match o with
  | DoPoll readable writable => try_op (x_poll fuel readable writable) Polled
  | DoRead n => try_op (x_read n) GotBytes
  | DoWrite bytes => try_op (x_write bytes) Wrote
  end.

Context `{X11rb}.

(** A request over the stream, as x11rb makes it *)
Fixpoint x_run {R} (steps fuel : nat) (call : XCall R) (told : list StreamAnswer) : M (result string R) :=
  match x_next call told with
  | inr reply => mret reply
  | inl o =>
      match steps with
      | O => λ _, None
      | S steps => stream_op fuel o ≫= λ answer, x_run steps fuel call (told ++ [answer])
      end
  end.

(** [.map_err(protocol)?.reply().map_err(protocol)?] *)
Definition x_call {R} (steps fuel : nat) (call : XCall R) : M R :=
  x_run steps fuel call [] ≫= λ reply, op_lift (or_protocol reply).
End stream.

(** ** Text *)

(** [char::from(byte)], encoded *)
Definition latin1 (bs : list byte) : list byte :=
  bs ≫= λ b,
    if bool_decide (byte_val b < 128) then [b]
    else [byte_of (192 + byte_val b / 64); byte_of (128 + byte_val b mod 64)].

(** [wm_class] *)
Definition wm_class (bytes : list byte) : option FocusIdentity :=
  match split_from x00 [] bytes with
  | _ :: class :: _ => FocusIdentity_new X11Class (of_bytes (latin1 class))
  | _ => None
  end.

(** How many bytes at the front form a character, or how many of them could have begun
    one: [inr] of the bytes to replace. *)
Definition utf8_step (b : byte) (rest : list byte) : nat + nat :=
  let c := byte_val b in
  let cont lo hi b := bool_decide (lo ≤ byte_val b ≤ hi) in
  let tail b := cont 128 191 b in
  if bool_decide (c < 128) then inl 1%nat
  else if bool_decide (194 ≤ c ≤ 223) then
    match rest with b1 :: _ => if tail b1 then inl 2%nat else inr 1%nat | [] => inr 1%nat end
  else if bool_decide (224 ≤ c ≤ 239) then
    let lo := if bool_decide (c = 224) then 160 else 128 in
    let hi := if bool_decide (c = 237) then 159 else 191 in
    match rest with
    | b1 :: rest =>
        if cont lo hi b1 then
          match rest with b2 :: _ => if tail b2 then inl 3%nat else inr 2%nat | [] => inr 2%nat end
        else inr 1%nat
    | [] => inr 1%nat
    end
  else if bool_decide (240 ≤ c ≤ 244) then
    let lo := if bool_decide (c = 240) then 144 else 128 in
    let hi := if bool_decide (c = 244) then 143 else 191 in
    match rest with
    | b1 :: rest =>
        if cont lo hi b1 then
          match rest with
          | b2 :: rest =>
              if tail b2 then
                match rest with b3 :: _ => if tail b3 then inl 4%nat else inr 3%nat | [] => inr 3%nat end
              else inr 2%nat
          | [] => inr 2%nat
          end
        else inr 1%nat
    | [] => inr 1%nat
    end
  else inr 1%nat.

(** [String::from_utf8_lossy], which replaces each ill-formed part by U+FFFD *)
Fixpoint lossy_from (fuel : nat) (bs : list byte) : list byte :=
  match fuel, bs with
  | S fuel, b :: rest =>
      match utf8_step b rest with
      | inl n => take n bs ++ lossy_from fuel (drop n bs)
      | inr n => [xef; xbf; xbd] ++ lossy_from fuel (drop n bs)
      end
  | _, _ => []
  end.
Definition from_utf8_lossy (bs : list byte) : string := of_bytes (lossy_from (length bs) bs).

(** [{map:?}] of a vector of bytes *)
Fixpoint debug_items (l : list byte) : string :=
  match l with
  | [] => ""
  | [b] => pretty (byte_val b)
  | b :: l => String.append (pretty (byte_val b)) (String.append ", " (debug_items l))
  end.
Definition debug_bytes (l : list byte) : string := String.append "[" (String.append (debug_items l) "]").

(** [map[2] = 0; map[3] = 0] where there are as many *)
Definition without_sequence (map : list byte) : list byte :=
  if bool_decide (4 ≤ length map)%nat then <[3%nat := x00]> (<[2%nat := x00]> map) else map.

(** [str::parse::<u8>] *)
Definition parse_u8 (l : text) : option Z :=
  n ← parse_u64 10 l; if bool_decide (n ≤ 255) then Some n else None.

(** ** The provider *)

(** [struct X11], less its connection *)
Record X11 : Type := mkX11 {
  x_root : Z; x_active : Z; x_class : Z; x_wm_check : Z; x_supported : Z; x_epoch : string;
}.

Section x11.
Context {W : Type} `{Operations W, XSocket W, X11rb}.
Abbreviation M := (OP (W := W * TimedStream)).
Context (steps fuel : nat).

Section methods.
Context (self : X11).

(** [X11::property32] and [X11::active] *)
Definition property32 (window atom : Z) (kind : Kind) : M (list Z) :=
  x_call steps fuel (GetProperty window atom kind 4096) ≫= λ reply,
  if negb (bool_decide (xp_bytes_after reply = 0)) then op_fail (DesktopProtocol "property oversized")
  else op_lift (ok_or (xp_value32 reply) (DesktopProtocol "invalid 32-bit property")).
Definition x11_active : M (option Z) :=
  property32 (x_root self) (x_wm_check self) KWindow ≫= λ check,
  op_lift (ok_or (head check) (Unavailable "EWMH unavailable")) ≫= λ wm,
  (if bool_decide (wm = 0) then mret true
   else property32 wm (x_wm_check self) KWindow ≫= λ own, mret (negb (bool_decide (head own = Some wm)))) ≫= λ invalid,
  if invalid : bool then op_fail (Unavailable "EWMH owner invalid")
  else
    property32 (x_root self) (x_supported self) KAtom ≫= λ supported,
    if negb (bool_decide (x_active self ∈ supported)) then op_fail (Unavailable "EWMH focus unsupported")
    else
      property32 (x_root self) (x_active self) KWindow ≫= λ active,
      mret (match head active with
            | Some id => if bool_decide (id ≠ 0) then Some id else None
            | None => None
            end).

(** What each method does around its body: [remaining] after it, and [invalidate] on
    any error. *)
Definition x_guarded {X} (body : M X) : M X :=
  adapter_scope (λ s,
    match (body ≫= λ value, remaining_budget ≫= λ _, mret value) s with
    | Some (s, Err e) =>
        match invalidate s with
        | Some (s, _) => Some (s, Err e)
        | None => None
        end
    | r => r
    end).
Definition protocol_check : M unit := op_map_err (λ e, DesktopProtocol (display e)) stream_check.

(** [<X11 as DesktopProvider>::poll] *)
Definition x11_poll : M DesktopSnapshot :=
  x_guarded (
    protocol_check ≫= λ _,
    op_world op_now ≫= λ observed_at,
    stream_reset ≫= λ _,
    x11_active ≫= λ window,
    match window with
    | None => mret (mkDesktopSnapshot None observed_at LockUnknown)
    | Some window =>
        x_call steps fuel (GetProperty window (x_class self) KString 2048) ≫= λ reply,
        let focus := if bool_decide (xp_format reply = 8) && bool_decide (xp_bytes_after reply = 0)
                     then wm_class (xp_value reply) else None in
        x11_active ≫= λ again,
        let focus := if negb (bool_decide (again = Some window)) then None else focus in
        mret (mkDesktopSnapshot focus observed_at LockUnknown)
    end).

(** The loop over the four groups *)
Fixpoint group_sources (indices : list Z) (mask : Z) (groups : list Z) : M (list Source) :=
  match indices with
  | [] => mret []
  | index :: indices =>
      if negb (Z.testbit mask index) then group_sources indices mask groups
      else
        match groups with
        | [] => op_fail (DesktopProtocol "invalid group names")
        | atom :: groups =>
            x_call steps fuel (GetAtomName atom) ≫= λ label,
            group_sources indices mask groups ≫= λ sources,
            mret (mkSource (pretty index) (from_utf8_lossy label) true :: sources)
        end
  end.

(** [<X11 as DesktopProvider>::sources] and [::select] *)
Definition x11_sources : M SourceCatalog :=
  x_guarded (
    protocol_check ≫= λ _,
    stream_reset ≫= λ _,
    x_call steps fuel GetNames ≫= λ '(mask, groups),
    x_call steps fuel GetMap ≫= λ map,
    group_sources [0; 1; 2; 3] mask (default [] groups) ≫= λ sources,
    x_call steps fuel GetState ≫= λ group,
    mret (mkSourceCatalog "x11"
      (String.append (x_epoch self) (String.append ":" (debug_bytes (without_sequence map))))
      sources (Some (pretty group)))).
Definition x11_select (old : SourceCatalog) (id : string) : M unit :=
  x_guarded (
    protocol_check ≫= λ _,
    x11_sources ≫= λ fresh,
    op_lift (SourceCatalog_check old fresh id) ≫= λ _,
    op_lift (ok_or (parse_u8 (lit id)) (DesktopProtocol "invalid digit found in string")) ≫= λ group,
    x_call steps fuel (LatchLockState group) ≫= λ _,
    x11_sources ≫= λ after,
    if negb (is_current after id) then op_fail SelectionFailed else mret ()).

Definition X11_provider : Provider (W * TimedStream) := {|
  pv_poll := x11_poll; pv_sources := x11_sources; pv_select := x11_select;
|}.
End methods.

(** [X11::connect] on an open socket; [epoch] is the printed instant. *)
Definition x11_connect (screen : nat) (auth_name auth_data : list byte) (epoch : Z → string) : M X11 :=
  adapter_scope (
    x_run steps fuel (Setup screen auth_name auth_data) [] ≫= λ roots,
    op_lift (or_unavailable roots) ≫= λ roots,
    op_lift (ok_or (roots !! screen) (DesktopProtocol "screen missing")) ≫= λ root,
    x_call steps fuel UseExtension ≫= λ supported,
    if negb supported then op_fail (Unavailable "XKB 1.0 unavailable")
    else
      x_call steps fuel (InternAtom "_NET_ACTIVE_WINDOW") ≫= λ active,
      x_call steps fuel (InternAtom "WM_CLASS") ≫= λ class,
      x_call steps fuel (InternAtom "_NET_SUPPORTING_WM_CHECK") ≫= λ wm_check,
      x_call steps fuel (InternAtom "_NET_SUPPORTED") ≫= λ supported,
      op_world op_now ≫= λ now,
      mret (mkX11 root active class wm_check supported (epoch now))).
End x11.
