(* ===== verification/X11Thm.v ===== *)
(** * A failed X11 operation is the last one

    Every method returns, whatever the server does; one that fails invalidates the
    connection, and an invalidated connection never writes another byte. *)

From Stdlib Require Import Strings.Byte.
From S2P Require Import Prelude Event Sink Bytes Text Desktop Budget BudgetThm Json LocalIpc LocalIpcThm Compositors.
From S2P Require Import Quoting DeskSim Bus InputMethods BusThm X11.
Import Byte(byte).

(** What is assumed of the socket: only [write] sends, what it took, and a poll that timed
    out took its time. *)
Class XSocketLaws (W : Type) `{OperationsLaws W (list byte), XSocket W} : Prop := {
  xs_poll_spec w r b ms : 0 < ms → onward [] w (xs_poll w r b ms).1 ∧
    ((xs_poll w r b ms).2 = Ok false → clock w < clock (xs_poll w r b ms).1);
  xs_read_later w n : onward [] w (xs_read w n).1;
  xs_write_spec w bytes :
    ∃ l, onward l w (xs_write w bytes).1 ∧
      match (xs_write w bytes).2 with Ok n => l = [take n bytes] | Err _ => l = [] end;
  xs_shutdown_later w : onward [] w (xs_shutdown w);
}.

(** x11rb is done with a request after so many operations of the stream. *)
Definition x_bounded `{X11rb} (steps : nat) : Prop :=
  ∀ R (call : XCall R) told, (steps ≤ length told)%nat → ∃ reply, x_next call told = inr reply.

Section x11.
Context {W : Type} `{XSocketLaws W, X11rb}.
Context (steps fuel : nat) (Hsteps : x_bounded steps) (Hf : enough fuel).
Abbreviation M := (OP (W := W * TimedStream)).

(** ** The rules *)

Definition Effect (X : Type) : Type :=
  TimedStream → list (list byte) → result DesktopError X → TimedStream → Prop.
(** [m] returns under a budget, and has this effect. *)
Definition runs {X} (R : Effect X) (m : M X) : Prop :=
  ∀ w st bs b, b ∈ bs → bg_deadline b ≤ clock w + IPC_TIMEOUT →
    op_wp m (λ s r, s.2 = bs ∧ ∃ l, onward l w s.1.1 ∧ R st l r s.1.2) (w, st, bs).

(** An invalidated connection stays so, and is not written to. *)
Definition sealed {X} : Effect X := λ st l _ st',
  ts_poisoned st = true → l = [] ∧ ts_poisoned st' = true.
(** The same, and there is no success on one. *)
Definition refused {X} : Effect X := λ st l r st', sealed st l r st' ∧ (ts_poisoned st = true → ∃ e, r = Err e).

Lemma runs_mono {X} (R R' : Effect X) m :
  runs R m → (∀ st l r st', R st l r st' → R' st l r st') → runs R' m.
Proof.
  intros Hm HR w st bs b Hb Hd. eapply op_wp_mono; [by eapply Hm|]. intros s r (Hbs & l & Ho & Hl).
  split; [done|]. exists l. auto.
Qed.
Lemma runs_pure {X} (R : Effect X) r (m : M X) :
  (∀ s, m s = Some (s, r)) → (∀ st, R st [] r st) → runs R m.
Proof.
  intros Hm HR w st bs b _ _. eexists _, _. split; [apply Hm|]. split; [done|]. exists []. split; [reflexivity|apply HR].
Qed.
Lemma runs_bind {X Y} (R1 : Effect X) (R2 : X → Effect Y) (R : Effect Y) m f :
  runs R1 m → (∀ x, runs (R2 x) (f x)) →
  (∀ st l e st', R1 st l (Err e) st' → R st l (Err e) st') →
  (∀ st l1 x st1 l2 r st2, R1 st l1 (Ok x) st1 → R2 x st1 l2 r st2 → R st (l1 ++ l2) r st2) →
  runs R (m ≫= f).
Proof.
  intros Hm Hfx Herr Hok w st bs b Hb Hd. apply op_wp_bind.
  destruct (Hm w st bs b Hb Hd) as ([[w1 st1] bs1] & r & Hr & Hbs & l & Ho & HR).
  simpl in Hbs, Ho, HR. subst bs1. eexists _, r. split; [exact Hr|]. destruct r as [x|e]; simpl; [|by eauto].
  assert (bg_deadline b ≤ clock w1 + IPC_TIMEOUT) as Hd1 by (destruct Ho as [Hc _]; lia).
  eapply op_wp_mono; [apply (Hfx x w1 st1 bs b Hb Hd1)|].
  intros s r (Hbs & l2 & Ho2 & HR2). split; [done|]. exists (l ++ l2). split; [by eapply onward_trans|by eapply Hok].
Qed.

Lemma sealed_bind {X Y} (m : M X) (f : X → M Y) :
  runs sealed m → (∀ x, runs sealed (f x)) → runs sealed (m ≫= f).
Proof.
  intros Hm Hfx. eapply runs_bind; [exact Hm|exact Hfx|done|].
  intros st l1 x st1 l2 r st2 Ha Hb Hp. destruct (Ha Hp) as [-> Hp1]. by apply Hb.
Qed.
Lemma sealed_pure {X} r (m : M X) : (∀ s, m s = Some (s, r)) → runs sealed m.
Proof. intros Hm. by eapply runs_pure. Qed.
(** Nothing follows a refusal. *)
Definition returns {X} : Effect X := λ _ _ _ _, True.
Lemma refused_bind {X Y} (m : M X) (f : X → M Y) :
  runs refused m → (∀ x, runs returns (f x)) → runs refused (m ≫= f).
Proof.
  intros Hm Hfx. eapply runs_bind; [exact Hm|exact Hfx|..].
  - intros st l e st' [Hs Hr]. split; [done|eauto].
  - intros st l1 x st1 l2 r st2 [Hs Hr] _. split.
    + intros Hp. by destruct (Hr Hp).
    + intros Hp. by destruct (Hr Hp).
Qed.
Lemma refused_sealed {X} (m : M X) : runs refused m → runs sealed m.
Proof. intros Hm. eapply runs_mono; [exact Hm|]. by intros st l r st' [Hs _]. Qed.

(** ** The stream *)

Lemma remaining_sealed : runs sealed remaining_budget.
Proof.
  intros w st bs b _ _. apply remaining_beside. intros w' r Hl _. split; [done|]. exists []. by split.
Qed.
Lemma world_sealed {X} (f : W → W * X) : (∀ w, onward [] w (f w).1) → runs sealed (op_world (outer f)).
Proof.
  intros Hl w st bs b _ _. apply op_wp_world. rewrite outer_eq. split; [done|]. exists []. split; [apply Hl|done].
Qed.
Lemma now_sealed : runs sealed (op_world op_now).
Proof.
  intros w st bs b _ _. unfold op_wp, op_world. simpl. destruct (op_now w) as [w1 t] eqn:Hn.
  apply now_later in Hn as [Hl _]. eexists (w1, st, bs), (Ok t). split; [done|]. split; [done|]. exists []. by split.
Qed.
Lemma reset_sealed : runs sealed stream_reset.
Proof.
  intros w st bs b _ _. unfold op_wp, stream_reset. destruct (op_now w) as [w1 t] eqn:Hn.
  apply now_later in Hn as [Hl _]. eexists _, _. split; [done|]. split; [done|]. exists []. by split.
Qed.

Lemma poll_millis_pos left : 0 < slice_millis left.
Proof. unfold slice_millis. lia. Qed.

(** The check and the wait send nothing. *)
Lemma stream_check_wp w st bs :
  op_wp stream_check (λ s r, s.2 = bs ∧ onward [] w s.1.1 ∧ (ts_poisoned st = true → s.1.2 = st ∧ ∃ e, r = Err e))
    (w, st, bs).
Proof.
  unfold op_wp, stream_check. cbn [fst snd]. destruct (ts_poisoned st) eqn:Hp.
  { eexists _, _. split; [done|]. split_and!; [done|reflexivity|eauto]. }
  apply op_wp_bind. unfold op_wp, io_error.
  destruct (remaining_beside (λ s r, ∃ w', s = (w', st, bs) ∧ onward [] w w') w st bs) as (s' & r & Hr & w' & -> & Hl);
    [by eauto|].
  rewrite Hr. destruct r as [rest|e]; simpl.
  - eexists _, _. split; [done|]. apply op_wp_ret. by split_and!.
  - eexists _, _. split; [done|]. split_and!; [done| |done]. eapply onward_later; [exact Hl|apply xs_shutdown_later].
Qed.

Lemma stream_check_refused : runs refused stream_check.
Proof.
  intros w st bs b _ _. eapply op_wp_mono; [apply stream_check_wp|]. intros [[w1 st1] bs1] r (Hbs & Hl & Hp).
  split; [done|]. exists []. split; [exact Hl|]. split; intros Hpo; destruct (Hp Hpo) as [Hst He]; [|done].
  simpl in *. by subst st1.
Qed.

Lemma poll_loop_wp deadline rd wr n : ∀ w st bs b,
  b ∈ bs → (Z.to_nat (bg_deadline b - clock w) < n)%nat →
  op_wp (poll_loop n deadline rd wr)
    (λ s r, s.2 = bs ∧ onward [] w s.1.1 ∧ (ts_poisoned st = true → s.1.2 = st ∧ ∃ e, r = Err e)) (w, st, bs).
Proof.
  induction n as [|n IH]; intros w st bs b Hb Hn; [lia|]. cbn [poll_loop].
  apply op_wp_bind. eapply op_wp_mono; [apply stream_check_wp|].
  intros [[w1 st1] bs1] r1 (Hbs1 & Hl1 & Hp). simpl in Hbs1, Hl1, Hp. subst bs1. destruct r1 as [[]|e]; [|done].
  destruct (ts_poisoned st); [by destruct (Hp eq_refl) as [_ [e ?]]|]. clear Hp.
  apply op_wp_bind. unfold op_wp at 1, op_world at 1. simpl. destruct (op_now w1) as [w2 now] eqn:Hnow.
  apply now_later in Hnow as [Hl2 _]. assert (onward [] w w2) as Hlw2 by (by transitivity w1).
  eexists (w2, st1, bs), (Ok now). split; [done|]. apply op_wp_bind. unfold op_wp at 1, io_error.
  destruct (remaining_beside (λ s r, ∃ w', s = (w', st1, bs) ∧ onward [] w2 w' ∧
    ∀ rest, r = Ok rest → ∀ b, b ∈ bs → rest ≤ bg_deadline b - clock w2 ∧ 0 < rest) w2 st1 bs)
    as (s3 & r3 & Hr3 & w3 & -> & Hl3 & Hrest).
  { intros w' r' Hl' Hr'. exists w'. split_and!; [done|done|]. intros rest -> b' Hb'.
    destruct (Hr' rest eq_refl) as [Hpos Hall]. split; [by apply Hall|done]. }
  rewrite Hr3. assert (onward [] w w3) as Hlw3 by (by transitivity w2).
  destruct r3 as [rest|e]; simpl; [|eexists (w3, st1, bs), _; by split].
  eexists (w3, st1, bs), _. split; [done|]. destruct (Hrest rest eq_refl b Hb) as [Hle Hpos].
  case_bool_decide as Hz.
  { eexists _, _. split; [done|]. split_and!; [done| |done].
    eapply onward_later; [exact Hlw3|apply xs_shutdown_later]. }
  apply op_wp_bind, op_wp_world. rewrite outer_eq. cbn [fst snd].
  destruct (xs_poll_spec w3 rd wr (slice_millis (Z.min (Z.max 0 (deadline - now)) rest)) (poll_millis_pos _))
    as [Hl4 Hlt].
  destruct (xs_poll w3 rd wr _) as [w4 ready]. cbn [fst snd] in *. assert (onward [] w w4) as Hlw4 by (by transitivity w3).
  apply op_wp_bind, op_wp_lift. destruct ready as [[]|m]; simpl; [by apply op_wp_ret| |done].
  specialize (Hlt eq_refl). eapply op_wp_mono.
  { apply (IH w4 st1 bs b Hb). destruct Hlw3 as [Hc3 _], Hlw2 as [Hc2 _], Hl3 as [Hc23 _]. lia. }
  intros [[w5 st5] bs5] r5 (Hbs5 & Hl5 & _). split_and!; [done|by transitivity w4|done].
Qed.

Lemma x_poll_sealed rd wr : runs sealed (x_poll fuel rd wr).
Proof.
  intros w st bs b Hb Hd. unfold x_poll. apply op_wp_bind. eapply op_wp_mono; [apply stream_check_wp|].
  intros [[w1 st1] bs1] r1 (Hbs1 & Hl1 & Hp). simpl in Hbs1, Hl1, Hp. subst bs1. destruct r1 as [[]|e].
  2:{ split; [done|]. exists []. split; [exact Hl1|]. intros Hpo. simpl. by destruct (Hp Hpo) as [-> _]. }
  apply op_wp_bind. unfold op_wp at 1, stream_deadline. eexists _, _. split; [done|].
  eapply op_wp_mono; [eapply poll_loop_wp; [exact Hb|]|].
  { unfold enough in Hf. destruct Hl1 as [Hc _]. lia. }
  intros [[w2 st2] bs2] r2 (Hbs2 & Hl2 & _). split; [done|]. exists [].
  split; [by transitivity w1|]. intros Hpo. by destruct (Hp Hpo) as [_ [e ?]].
Qed.
Lemma x_read_sealed n : runs sealed (x_read n).
Proof.
  apply sealed_bind; [apply refused_sealed, stream_check_refused|]. intros _.
  apply sealed_bind; [apply world_sealed; intros; apply xs_read_later|]. intros r. by eapply sealed_pure.
Qed.
Lemma x_write_sealed bytes : runs sealed (x_write bytes).
Proof.
  apply refused_sealed, refused_bind; [apply stream_check_refused|]. intros _ w st bs b Hb Hd.
  apply op_wp_bind, op_wp_world. rewrite outer_eq. apply op_wp_lift. split; [done|].
  destruct (xs_write_spec w bytes) as (l & Ho & _). by exists l.
Qed.
Lemma stream_op_sealed o : runs sealed (stream_op fuel o).
Proof.
  assert (∀ X (m : M X) f, runs sealed m → runs sealed (try_op m f)) as Htry.
  { intros X m f Hm w st bs b Hb Hd. destruct (Hm w st bs b Hb Hd) as (s & r & Hr & HR).
    unfold op_wp, try_op. rewrite Hr. by eexists _, _. }
  destruct o; apply Htry; [apply x_poll_sealed|apply x_read_sealed|apply x_write_sealed].
Qed.

(** ** Requests *)

Lemma x_run_sealed {R} (call : XCall R) : runs sealed (x_run steps fuel call []).
Proof.
  assert (∀ n told, (n + length told = steps)%nat → runs sealed (x_run n fuel call told)) as Hrun.
  { induction n as [|n IH]; intros told Hlen; cbn [x_run].
    - destruct (Hsteps R call told ltac:(lia)) as [reply ->]. by eapply sealed_pure.
    - destruct (x_next call told) as [o|reply]; [|by eapply sealed_pure].
      apply sealed_bind; [apply stream_op_sealed|]. intros answer. apply IH. rewrite length_app. simpl. lia. }
  apply Hrun. simpl. lia.
Qed.
Lemma x_call_sealed {R} (call : XCall R) : runs sealed (x_call steps fuel call).
Proof. apply sealed_bind; [apply x_run_sealed|]. intros r. by eapply sealed_pure. Qed.

Lemma property32_sealed window atom kind : runs sealed (property32 steps fuel window atom kind).
Proof.
  apply sealed_bind; [apply x_call_sealed|]. intros reply. destruct (negb _); by eapply sealed_pure.
Qed.
Lemma lift_sealed {X} (r : result DesktopError X) : runs sealed (op_lift r).
Proof. by eapply sealed_pure. Qed.
Lemma ret_sealed {X} (x : X) : runs sealed (mret x).
Proof. by eapply sealed_pure. Qed.
Lemma fail_sealed {X} e : runs (sealed (X := X)) (op_fail e).
Proof. by eapply sealed_pure. Qed.
Create HintDb x11.
Hint Resolve x_call_sealed property32_sealed lift_sealed ret_sealed fail_sealed now_sealed reset_sealed
  remaining_sealed : x11.
Ltac sealing :=
  first [ solve [eauto with x11] | apply sealed_bind; [sealing|intros ?; sealing] | case_match; sealing ].

Lemma x11_active_sealed self : runs sealed (x11_active steps fuel self).
Proof. unfold x11_active. sealing. Qed.
Hint Resolve x11_active_sealed : x11.
Lemma group_sources_sealed mask indices : ∀ groups, runs sealed (group_sources steps fuel indices mask groups).
Proof.
  induction indices as [|index indices IH]; intros groups; cbn [group_sources]; [apply ret_sealed|].
  destruct (negb _); [apply IH|]. destruct groups as [|atom groups]; [apply fail_sealed|].
  apply sealed_bind; [apply x_call_sealed|]. intros label. apply sealed_bind; [apply IH|]. intros sources. apply ret_sealed.
Qed.
Hint Resolve group_sources_sealed : x11.

(** ** The methods *)

(** The effect of a method: on an invalidated connection nothing, and a failure
    invalidates. *)
Definition final {X} : Effect X := λ st l r st', refused st l r st' ∧ (∀ e, r = Err e → ts_poisoned st' = true).

Lemma protocol_check_refused : runs refused protocol_check.
Proof.
  intros w st bs b Hb Hd. destruct (stream_check_refused w st bs b Hb Hd) as (s & r & Hr & Hbs & l & Ho & Hs & He).
  unfold op_wp, protocol_check, op_map_err. rewrite Hr. destruct r as [[]|e]; eexists _, _; split; try done;
    (split; [done|]; exists l; split; [done|]; split; [done|]); intros Hp; destruct (He Hp) as [e' He']; by eauto.
Qed.

(** A method brings its own budget. *)
Definition whole {X} (R : Effect X) (m : M X) : Prop := ∀ w st bs,
  op_wp m (λ s r, s.2 = bs ∧ ∃ l, onward l w s.1.1 ∧ R st l r s.1.2) (w, st, bs).
Lemma scope_runs {X} (R : Effect X) (m : M X) : runs R m → whole R (adapter_scope m).
Proof.
  intros Hm w st bs. unfold adapter_scope, op_scope, op_wp. simpl.
  destruct (op_now w) as [w1 now] eqn:Hn. apply now_later in Hn as [Hl Ht].
  destruct (Hm w1 st (bs ++ [mkBudget (now + IPC_TIMEOUT) None]) (mkBudget (now + IPC_TIMEOUT) None))
    as ([[w2 st2] bs2] & r & Hr & Hbs & l & Ho & HR); [set_solver|simpl; lia|].
  simpl in Hbs, Ho, HR. subst bs2. rewrite Hr. eexists _, r. split; [done|]. split; [by rewrite removelast_last|].
  exists l. split; [by eapply later_onward|done].
Qed.

Lemma guarded_final {X} (body : M X) : runs refused body → whole final (x_guarded body).
Proof.
  intros Hbody. apply scope_runs. intros w st bs b Hb Hd.
  assert (runs refused (body ≫= λ value, remaining_budget ≫= λ _, mret value)) as Hall.
  { apply refused_bind; [done|]. intros value. eapply runs_mono; [|done].
    apply sealed_bind; [apply remaining_sealed|]. intros rest. apply ret_sealed. }
  destruct (Hall w st bs b Hb Hd) as ([[w1 st1] bs1] & r & Hr & Hbs & l & Ho & Href).
  unfold op_wp. rewrite Hr. destruct r as [x|e].
  - eexists _, _. split; [done|]. split; [done|]. exists l. by split_and!.
  - eexists _, _. split; [done|]. split; [done|]. exists l. simpl in Ho |- *.
    split; [eapply onward_later; [exact Ho|apply xs_shutdown_later]|]. split; [|done].
    destruct Href as [Hs He]. split; [|done]. intros Hp. by destruct (Hs Hp) as [-> _].
Qed.

(** What the methods of the provider are *)
Inductive XOp : Type := XPoll | XSources | XSelect (old : SourceCatalog) (id : string).
Definition x_op (self : X11) (op : XOp) : M unit :=
  match op with
  | XPoll => x11_poll steps fuel self ≫= λ _, mret ()
  | XSources => x11_sources steps fuel self ≫= λ _, mret ()
  | XSelect old id => x11_select steps fuel self old id
  end.

Lemma returns_sealed {X} (m : M X) : runs sealed m → runs returns m.
Proof. intros Hm. by eapply runs_mono. Qed.
Lemma x11_poll_final self : whole final (x11_poll steps fuel self).
Proof.
  apply guarded_final, refused_bind; [apply protocol_check_refused|]. intros _. apply returns_sealed. sealing.
Qed.
Lemma x11_sources_final self : whole final (x11_sources steps fuel self).
Proof.
  apply guarded_final, refused_bind; [apply protocol_check_refused|]. intros _. apply returns_sealed. sealing.
Qed.
Lemma x11_sources_sealed self : runs sealed (x11_sources steps fuel self).
Proof.
  intros w st bs b _ _. eapply op_wp_mono; [apply x11_sources_final|]. intros s r (Hbs & l & Ho & [Hs _] & _).
  split; [done|]. by exists l.
Qed.
Hint Resolve x11_sources_sealed : x11.
Lemma x11_select_final self old id : whole final (x11_select steps fuel self old id).
Proof.
  apply guarded_final, refused_bind; [apply protocol_check_refused|]. intros _. apply returns_sealed. sealing.
Qed.

Lemma x_op_final self op : whole final (x_op self op).
Proof.
  assert (∀ X (m : M X), whole final m → whole final (m ≫= λ _, mret ())) as Hdrop.
  { intros X m Hm w st bs. apply op_wp_bind. eapply op_wp_mono; [apply Hm|].
    intros [[w1 st1] bs1] r (Hbs & l & Ho & [Hs He] & Hp). destruct r as [x|e].
    - apply op_wp_ret. split; [done|]. exists l. split; [done|]. split; [|done]. split; [done|].
      intros Hpo. by destruct (He Hpo).
    - split; [done|]. exists l. split; [done|]. split; [|by eauto]. split; [done|by eauto]. }
  destruct op; [apply Hdrop, x11_poll_final|apply Hdrop, x11_sources_final|apply x11_select_final].
Qed.

(** Any methods, one after the other: which of them succeeded. *)
Fixpoint x_ops (self : X11) (ops : list XOp) : M (list bool) :=
  match ops with
  | [] => mret []
  | op :: ops =>
      op_ok (x_op self op) ≫= λ r,
      x_ops self ops ≫= λ rs,
      mret (bool_decide (r = Some ()) :: rs)
  end.

Lemma x_ops_poisoned self ops : ∀ w st bs, ts_poisoned st = true →
  op_wp (x_ops self ops) (λ s r, s.2 = bs ∧ onward [] w s.1.1 ∧ r = Ok (replicate (length ops) false)) (w, st, bs).
Proof.
  induction ops as [|op ops IH]; intros w st bs Hp; cbn [x_ops].
  { apply op_wp_ret. split_and!; [done|reflexivity|done]. }
  apply op_wp_bind. destruct (x_op_final self op w st bs) as ([[w1 st1] bs1] & r & Hr & Hbs & l & Ho & [Hs He] & _).
  simpl in Hbs, Ho, Hs. subst bs1. destruct (Hs Hp) as [-> Hp1]. destruct (He Hp) as [e ->].
  unfold op_wp at 1, op_ok. rewrite Hr. eexists _, _. split; [done|]. apply op_wp_bind.
  eapply op_wp_mono; [apply (IH w1 st1 bs Hp1)|]. intros [[w2 st2] bs2] r2 (Hbs2 & Ho2 & ->).
  apply op_wp_ret. split_and!; [done|by transitivity w1|done].
Qed.

End x11.

(** [WM_CLASS] keeps its exact code points. *)
Lemma latin1_exact bs : chars (latin1 bs) = byte_val <$> bs.
Proof.
  induction bs as [|b bs IH]; [done|]. cbn [fmap list_fmap]. rewrite <- IH. unfold latin1 at 1. cbn [mbind list_bind].
  fold (latin1 bs). destruct b; reflexivity.
Qed.
Example wm_class_is_class : wm_class (str "instance" ++ [x00] ++ str "Class" ++ [x00]) = Some (mkFocusIdentity X11Class "Class").
Proof. vm_compute. reflexivity. Qed.
Example wm_class_needs_two : wm_class (str "title") = None.
Proof. vm_compute. reflexivity. Qed.

(** ** A simulated server

    x11rb writes a request, waits and reads; the server has two groups. *)
Record XDesk : Type := mkXDesk { xd_clock : Z; xd_raised : list nat; xd_sent : list (list byte); xd_group : byte }.
Definition xd_tick (w : XDesk) (d : Z) : XDesk :=
  mkXDesk (xd_clock w + Z.max 0 d) (xd_raised w) (xd_sent w) (xd_group w).
#[export] Instance XDesk_operations : Operations XDesk := {|
  op_now w := (xd_tick w 1000, xd_clock w);
  op_stopped w f := (w, bool_decide (f ∈ xd_raised w));
  op_stop w f := mkXDesk (xd_clock w) (f :: xd_raised w) (xd_sent w) (xd_group w);
  op_try_lock w := (xd_tick w 1000, LockTaken);
  op_unlock w := w;
  op_sleep := xd_tick;
|}.
#[export, refine] Instance XDesk_laws : OperationsLaws XDesk (list byte) := {|
  clock := xd_clock;
  raised w f := bool_decide (f ∈ xd_raised w);
  trace := xd_sent;
|}.
Proof.
  all: intros; simplify_eq/=; repeat split; simpl; intros; rewrite ?app_nil_r; try done; try lia.
Defined.
#[export] Instance XDesk_socket : XSocket XDesk := {|
  xs_poll w _ _ _ := (w, Ok true);
  xs_read w _ := (w, Ok [xd_group w]);
  xs_write w bytes :=
    (mkXDesk (xd_clock w) (xd_raised w) (xd_sent w ++ [bytes])
       (match bytes with [_; group] => group | _ => xd_group w end), Ok (length bytes));
  xs_shutdown w := w;
|}.
#[export] Instance XDesk_socket_laws : XSocketLaws XDesk.
Proof.
  split.
  - intros w r b ms _. split; [reflexivity|done].
  - intros w n. reflexivity.
  - intros w bytes. exists [bytes]. split; [split_and!; [simpl; lia|done|done]|]. simpl. by rewrite firstn_all.
  - intros w. reflexivity.
Qed.

Definition sim_reply {R} (call : XCall R) (group : Z) : R :=
  match call with
  | Setup _ _ _ => [1]
  | UseExtension => true
  | InternAtom _ => 7
  | GetProperty _ _ _ _ => mkProperty 32 0 [] (Some [7])
  | GetNames => (3, Some [10; 11])
  | GetMap => [x01; x02; x03; x04; x05]
  | GetAtomName _ => str "us"
  | GetState => group
  | LatchLockState _ => ()
  end.
#[export] Instance SimX11rb : X11rb := λ R call told,
  match told with
  | [] => inl (DoWrite (match call with LatchLockState g => [x01; byte_of g] | _ => [x00] end))
  | [_] => inl (DoPoll true false)
  | [_; _] => inl (DoRead 1)
  | Wrote (Ok _) :: Polled (Ok _) :: GotBytes (Ok [group]) :: _ => inr (Ok (sim_reply call (byte_val group)))
  | _ => inr (Err "connection error")
  end.
Lemma SimX11rb_bounded : x_bounded 3.
Proof.
  intros R call [|a1 [|a2 [|a3 told]]] Hlen; simpl in Hlen; try lia.
  unfold x_next, SimX11rb. repeat case_match; simplify_eq/=; eauto.
Qed.

Definition sim_x11 : X11 := mkX11 1 7 2 7 7 "epoch".
Definition sim_stream (poisoned : bool) : TimedStream := mkTimedStream IPC_TIMEOUT poisoned.
Definition sim_xdesk : XDesk := mkXDesk 0 [] [] x00.
Definition sim_x11_catalog : SourceCatalog :=
  match x11_sources 3 10 sim_x11 (sim_xdesk, sim_stream false, []) with
  | Some (_, Ok c) => c
  | _ => mkSourceCatalog "" "" [] None
  end.
Example sim_x11_sources :
  (source_id <$> cat_sources sim_x11_catalog, cat_generation sim_x11_catalog, cat_current sim_x11_catalog) =
  (["0"; "1"], "epoch:[1, 2, 0, 0, 5]", Some "0").
Proof. vm_compute. reflexivity. Qed.
(** Two sources were listed and one of them selected and read back; a stale inventory
    invalidates the connection, and the next attempt writes nothing. *)
Example sim_x11_select :
  (λ o, (xd_group o.1.1.1, ts_poisoned o.1.1.2, o.2)) <$>
    x11_select 3 10 sim_x11 sim_x11_catalog "1" (sim_xdesk, sim_stream false, []) = Some (x01, false, Ok ()).
Proof. vm_compute. reflexivity. Qed.
Example sim_x11_stale :
  (λ o, (length (xd_sent o.1.1.1), ts_poisoned o.1.1.2, o.2)) <$>
    x_ops 3 10 sim_x11 [XSelect (mkSourceCatalog "x11" "old" [] None) "1"; XPoll] (sim_xdesk, sim_stream false, []) =
  Some (5%nat, true, Ok [false; false]).
Proof. vm_compute. reflexivity. Qed.

