(* ===== verification/Daemon.v ===== *)
(** * The daemon's matching state and its two consumers

    packages/cli/src/daemon.rs ([MatchingState], reload), daemon/linux.rs (the
    engine behind the broker, [MatcherSink]), daemon/hyprland_research.rs (the
    compositor bridge's [Handler]) and daemon/hyprland_installed.rs (the rules an
    installed session admits), with the parts of hyprland/session.rs and
    hyprland/catalogue.rs they use. Clocks, lock contention and the source cache are
    read from [Env], indexed by the number of the call. *)

From Stdlib Require Import Strings.Byte.
From S2P Require Import Prelude Event TapFsm Rule Config Sink Protocol Wire.
From S2P Require Import Transactions Bridge Desktop.

(** ** Admitted features (hyprland/catalogue.rs) *)

Definition FRESH_DOWN_SEND_KEY : Z := 1.
Definition MODIFIER_TAP_RELEASE : Z := 2.
Definition TAP_FEATURES : Z := Z.lor FRESH_DOWN_SEND_KEY MODIFIER_TAP_RELEASE.

(** [valid_capabilities] *)
Definition valid_capabilities (revision features : Z) : bool :=
  (bool_decide (revision = 1) && bool_decide (features = FRESH_DOWN_SEND_KEY)) ||
  (bool_decide (revision = 2) && bool_decide (features = TAP_FEATURES)).

(** ** Session health (hyprland/session.rs) *)

(** [SessionHealth]; the process check is an argument of [operational]. *)
Record SessionHealth : Type := mkSessionHealth {
  sh_connected : bool;
  sh_awaiting_reconciliation : bool;
  sh_locked : bool;
  sh_nonce : Z;
}.

(** [SessionHealth::operational] *)
Definition operational (self : SessionHealth) (matcher_reconciled process_is_current : bool) :
    bool :=
  sh_connected self && negb (sh_awaiting_reconciliation self) && negb (sh_locked self) &&
  matcher_reconciled && process_is_current.

(** [SessionHealth::invalidate] *)
Definition health_invalidate (self : SessionHealth) : SessionHealth :=
  mkSessionHealth false true (sh_locked self) (sh_nonce self).

(** [Session::health] of a bridge *)
Definition session_health (b : Bridge) : SessionHealth :=
  mkSessionHealth (bool_decide (is_Some (br_transport b))) (br_awaiting_reconciliation b)
    (br_locked b) (br_nonce b).

(** ** The matching state (daemon.rs) *)

Record MatchingState : Type := mkMatchingState {
  ms_matcher : Matcher;
  ms_aliases : gmap string AppAlias;
  ms_hyprland : MatcherTransactions;
  ms_hyprland_down_only : bool;
  ms_hyprland_features : Z;
  ms_hyprland_health : option SessionHealth;
}.

(** Assignments to the transaction state and the matcher, and to the health. *)
Definition ms_set_tx (s : TxM) (self : MatchingState) : MatchingState :=
  mkMatchingState s.2 (ms_aliases self) s.1 (ms_hyprland_down_only self)
    (ms_hyprland_features self) (ms_hyprland_health self).
Definition ms_set_health h (self : MatchingState) : MatchingState :=
  mkMatchingState (ms_matcher self) (ms_aliases self) (ms_hyprland self)
    (ms_hyprland_down_only self) (ms_hyprland_features self) h.
Definition ms_tx (self : MatchingState) : TxM := (ms_hyprland self, ms_matcher self).

(** [MatchingState::new] *)
Definition MatchingState_new (config : Config) : MatchingState :=
  mkMatchingState (Matcher_new (cfg_rules config)) (cfg_app_aliases config) Tx_default
    false 1 None.

(** [MatchingState::replace] *)
Definition MatchingState_replace (self : MatchingState) (config : Config) : MatchingState :=
  let '(t, m) := invalidate_speculation (ms_hyprland self) (ms_matcher self) in
  mkMatchingState (swap_rules m (cfg_rules config)) (cfg_app_aliases config) t
    (ms_hyprland_down_only self) (ms_hyprland_features self) (ms_hyprland_health self).

(** [resolve_focused_app] on Linux *)
Definition resolve_focused_app (aliases : gmap string AppAlias) (focused_app : option string)
    (identity : option AppIdentity) : option string :=
  let logical := identity ≫= resolve_app_identity aliases in
  let logical :=
    match logical with
    | Some name => Some name
    | None => focused_app ≫= λ id, resolve_app_identity aliases (IdLinuxLegacy id)
    end in
  match logical with Some name => Some name | None => focused_app end.

(** [validate_rules] of hyprland_installed.rs *)
Definition validate_rules (config : Config) (features : Z) : bool :=
  forallb (λ rule,
    (match rule_trigger rule with Hotkey _ => true | Tap _ => false end ||
     bool_decide (features = TAP_FEATURES)) &&
    match rule_action rule with SendKey _ _ => true | SetInputSource _ => false end)
    (RuleSet_iter (cfg_rules config)).

(** The state change of [reload_callback] on the loaded configuration. *)
Definition reload {E} (self : MatchingState) (cfg : result E Config) :
    MatchingState * result (option E) unit :=
  match cfg with
  | Err e => (self, Err (Some e))
  | Ok cfg =>
      if ms_hyprland_down_only self && negb (validate_rules cfg (ms_hyprland_features self))
      then (self, Err None)
      else (MatchingState_replace self cfg, Ok ())
  end.

(** The start of [run_linux] with admitted metadata, on the loaded configuration. *)
Definition install {E} (self : MatchingState) (config : result E Config) (feature_mask : Z) :
    result (option E) MatchingState :=
  match config with
  | Err e => Err (Some e)
  | Ok config =>
      if negb (validate_rules config feature_mask) then Err None
      else
        let self := MatchingState_replace self config in
        Ok (mkMatchingState (ms_matcher self) (ms_aliases self)
              (set_modifier_tap_release (bool_decide (feature_mask = TAP_FEATURES))
                 (ms_hyprland self))
              true feature_mask (ms_hyprland_health self))
  end.

(** ** What the daemon observes *)

Record Env : Type := mkEnv {
  env_contended : nat → bool;                 (* [matching.try_lock()] fails *)
  env_now : nat → Z;                          (* [Instant::now()] *)
  env_sources : nat → option SourceCatalog;   (* [cache.current()] *)
}.

(** [match focus.category { .. }] *)
Definition focus_identity (focus : FocusIdentity) : AppIdentity :=
  match fi_category focus with
  | Wayland => IdLinuxWayland (fi_value focus)
  | X11Class => IdLinuxX11Class (fi_value focus)
  | KwinResourceClass => IdLinuxLegacy (fi_value focus)
  end.

(** [MatcherAdapter::focus] *)
Definition event_focus (event : Wire.Event) : option FocusIdentity :=
  let value := String.string_of_list_byte (Wire.ev_focus event) in
  match Wire.ev_focus_kind event with
  | 1 => FocusIdentity_new Wayland value
  | 2 => FocusIdentity_new X11Class value
  | _ => None
  end.

(** ** The bridge's handler (hyprland_research.rs) *)

Record Handler : Type := mkHandler {
  hd_env : Env;
  hd_calls : nat;
  hd_matching : MatchingState;
  hd_sources : option SourceQueue;
  hd_observation_gap : bool;
}.

Definition hd_set_matching ms (h : Handler) : Handler :=
  mkHandler (hd_env h) (hd_calls h) ms (hd_sources h) (hd_observation_gap h).

(** The closure [|id| self.sources.as_ref().is_some_and(..)]. *)
Definition admit_source (current : option SourceCatalog) (sources : option SourceQueue)
    (id : string) : option SourceQueue * bool :=
  match sources with
  | None => (None, false)
  | Some queue =>
      let '(queue, r) := submit queue current id in
      (Some queue, match r with Ok _ => true | Err _ => false end)
  end.

(** [Handler::propose]; [None] is a panic of the matcher. *)
Definition Handler_propose (self : Handler) (scope : Wire.Scope) (event : Wire.Event) :
    option (Handler * Wire.Decision) :=
  let n := hd_calls self in
  let env := hd_env self in
  if env_contended env n then
    Some (mkHandler env (S n) (hd_matching self) (hd_sources self) true, Wire.Pass)
  else
    let state := hd_matching self in
    let state :=
      if hd_observation_gap self
      then ms_set_tx (invalidate_speculation (ms_hyprland state) (ms_matcher state)) state
      else state in
    let focus := event_focus event in
    let logical := resolve_focused_app (ms_aliases state) (fi_value <$> focus)
      (focus_identity <$> focus) in
    '(t, m, sources, r) ←
      propose_with_source (admit_source (env_sources env n)) (ms_hyprland state)
        (ms_matcher state) (hd_sources self) scope event logical (env_now env n);
    Some (mkHandler env (S n) (ms_set_tx (t, m) state) sources false,
          match r with Ok d => d | Err _ => Wire.Pass end).

(** [Handler::delivery] *)
Definition Handler_delivery (self : Handler) (scope : Wire.Scope) (event : Wire.Event)
    (report : DeliveryReport) : Handler :=
  let state := hd_matching self in
  let s :=
    if bool_decide (Wire.ev_state event = 1) || tx_modifier_tap_release (ms_hyprland state)
    then (on_delivery (ms_hyprland state) (ms_matcher state) scope report).1
    else (settle_device_event (ms_hyprland state) (ms_matcher state) scope event report).1 in
  hd_set_matching (ms_set_tx s state) self.

(** [Handler::reset] *)
Definition Handler_reset (self : Handler) (scope : Wire.Scope) (body : Wire.Body) : Handler :=
  let state := hd_matching self in
  let state :=
    if is_lifecycle_reset body || is_lock body
    then ms_set_health
           ((λ h, mkSessionHealth (sh_connected h) true (sh_locked h) (sh_nonce h)) <$>
              ms_hyprland_health state) state
    else state in
  let '(t, m) := ms_tx state in
  let '(t, m) :=
    if is_lock body && ms_hyprland_down_only state
    then observe_lock_boundary t m (Wire.nonce scope) else (t, m) in
  let '(t, m) :=
    if is_lifecycle_reset body
    then (await_lifecycle_reconciliation t m scope body).1 else (t, m) in
  let '((t, m), reconciled) := reconciled t m scope body in
  let '(t, m) := if negb reconciled then invalidate_speculation t m else (t, m) in
  let '(t, m) :=
    if is_retire body then retire_device t m (Wire.generation scope) else (t, m) in
  hd_set_matching (ms_set_tx (t, m) state) self.

(** [Handler::unlocked_epoch] *)
Definition Handler_unlocked_epoch (self : Handler) (scope : Wire.Scope) (body : Wire.Body) :
    Handler :=
  let state := hd_matching self in
  if ms_hyprland_down_only state then
    hd_set_matching (ms_set_tx (observe_unlocked_epoch (ms_hyprland state) (ms_matcher state)
      (Wire.nonce scope)) state) self
  else Handler_reset self scope body.

(** [Handler::disconnected] *)
Definition Handler_disconnected (self : Handler) : Handler :=
  let state := hd_matching self in
  let state := ms_set_health (health_invalidate <$> ms_hyprland_health state) state in
  hd_set_matching (ms_set_tx (disconnected (ms_hyprland state) (ms_matcher state)) state) self.

#[export] Instance Handler_handler : EventHandler Handler := {|
  h_modifier_release_actions := λ _, false;
  h_propose := Handler_propose;
  h_causal_trace := λ h _, h;
  h_research_fault := λ h _ _, (h, Fault_None);
  h_delivery := λ h scope event _ report, Handler_delivery h scope event report;
  h_reset := Handler_reset;
  h_unlocked_epoch := Handler_unlocked_epoch;
  h_disconnected := Handler_disconnected;
|}.

(** ** The session's wrapper ([DownOnly] of session.rs) *)

(** A handler and whether tap releases are admitted. *)
Record DownOnly (H : Type) : Type := mkDownOnly {
  do_handler : H;
  do_release_actions : bool;
}.
Arguments mkDownOnly {H}.
Arguments do_handler {H}.
Arguments do_release_actions {H}.

#[export] Instance DownOnly_handler {H} `{EventHandler H} : EventHandler (DownOnly H) := {|
  h_modifier_release_actions := do_release_actions;
  h_propose := λ self scope event,
    '(h, decision) ← h_propose (do_handler self) scope event;
    Some (mkDownOnly h (do_release_actions self),
          if bool_decide (Wire.ev_state event = 0) && bool_decide (decision = Wire.Swallow)
          then Wire.Pass else decision);
  h_causal_trace := λ self t,
    mkDownOnly (h_causal_trace (do_handler self) t) (do_release_actions self);
  h_research_fault := λ self _ _, (self, Fault_None);
  h_delivery := λ self scope event decision report,
    mkDownOnly (h_delivery (do_handler self) scope event decision report)
      (do_release_actions self);
  h_reset := λ self scope body,
    mkDownOnly (h_reset (do_handler self) scope body) (do_release_actions self);
  h_unlocked_epoch := λ self scope body,
    mkDownOnly (h_unlocked_epoch (do_handler self) scope body) (do_release_actions self);
  h_disconnected := λ self,
    mkDownOnly (h_disconnected (do_handler self)) (do_release_actions self);
|}.

(** ** The session (session.rs) *)

Inductive Qualification : Type := Unqualified | Candidate | Supported.

(** [Session]; of the verified metadata only the revision matters here. *)
Record Session : Type := mkSession {
  se_bridge : Bridge;
  se_revision : Z;
  se_matcher_bound : bool;
  se_active : bool;
  se_qualification : Qualification;
}.

Definition se_set_bridge b (self : Session) : Session :=
  mkSession b (se_revision self) (se_matcher_bound self) (se_active self)
    (se_qualification self).
Definition se_set_bound x (self : Session) : Session :=
  mkSession (se_bridge self) (se_revision self) x (se_active self) (se_qualification self).

(** [Session::feature_mask] *)
Definition feature_mask (self : Session) : Z :=
  if se_active self then
    if bool_decide (se_revision self = 2) then TAP_FEATURES else FRESH_DOWN_SEND_KEY
  else 0.

(** [state.hyprland_health = Some(session.health())], after each step of
    [run_session] in hyprland_installed.rs. *)
Definition publish_health (self : Session) (state : MatchingState) : MatchingState :=
  ms_set_health (Some (session_health (se_bridge self))) state.

(** [bind_matcher] of session.rs and hyprland_installed.rs, on the matching state. *)
Definition bind_matcher (self : Session) (state : MatchingState) :
    Session * MatchingState * bool :=
  let '(s, bound) :=
    await_reconciliation (ms_hyprland state) (ms_matcher state) (br_nonce (se_bridge self)) in
  let state := ms_set_tx s state in
  (se_set_bound bound self,
   if bound then publish_health self state else state,
   bound).

Section session.
Context {W H : Type} `{Link W, EventHandler H}.

(** [Session::step_if_ready] *)
Definition step_if_ready (deadline : Z) (self : Session) (w : W) (h : H) :
    option (Session * W * H * Wire.IoResult bool) :=
  if negb (se_matcher_bound self) then Some (self, w, h, Err PermissionDenied)
  else
    let b := se_bridge self in
    if se_active self && negb (br_awaiting_reconciliation b) && negb (br_locked b) then
      '((b, w, d), r) ←
        admitted_step_if_ready deadline
          (b, w, mkDownOnly h (bool_decide (feature_mask self = TAP_FEATURES)));
      Some (se_set_bridge b self, w, do_handler d, r)
    else
      '((b, w, h), r) ← passive_step_if_ready deadline (b, w, h);
      Some (se_set_bridge b self, w, h, r).

(** [Session::request_reconciliation] *)
Definition session_request_reconciliation (self : Session) (w : W) (h : H) :
    option (Session * W * H) :=
  '((b, w, h), _) ← request_reconciliation (se_bridge self, w, h);
  Some (se_set_bridge b (se_set_bound false self), w, h).

(** The end of [Session::reconnect_verified], on an admitted transport. *)
Definition session_reconnect (fd : Z) (expected : Wire.Identity) (deadline : Z) (self : Session)
    (w : W) : Session * W * Wire.IoResult unit :=
  match reconnect (se_bridge self) fd expected deadline w with
  | (w, Ok b) => (se_set_bound false (se_set_bridge b self), w, Ok ())
  | (w, Err e) => (self, w, Err e)
  end.
End session.

(** ** The engine behind the broker (daemon.rs, linux.rs) *)

(** [MatcherSink]; [sk_inject] is the backend's [inject], [sk_focus] the focus cache's
    answer at each call when there is a cache. [sk_panicked] records that the matcher
    panicked, after which the worker is gone. *)
Record MatcherSink : Type := mkMatcherSink {
  sk_state : MatchingState;
  sk_inject : nat → Action → result BackendError unit;
  sk_sources : option SourceQueue;
  sk_focus : option (nat → option FocusIdentity);
  sk_env : Env;
  sk_calls : nat;
  sk_panicked : bool;
}.

Definition sk_set_matcher m (self : MatcherSink) : MatcherSink :=
  mkMatcherSink (ms_set_tx (ms_hyprland (sk_state self), m) (sk_state self)) (sk_inject self)
    (sk_sources self) (sk_focus self) (sk_env self) (sk_calls self) (sk_panicked self).

(** The focused application and its identity at the start of [deliver]. *)
Definition sink_focus (self : MatcherSink) (focused_app : option string) :
    option string * option AppIdentity :=
  match sk_focus self with
  | Some cache =>
      let focus := cache (sk_calls self) in (fi_value <$> focus, focus_identity <$> focus)
  | None => (focused_app, IdLinuxLegacy <$> focused_app)
  end.

(** The effect of a replacement: a queued source or an injected key. *)
Definition perform (self : MatcherSink) (action : Action) :
    option SourceQueue * result BackendError unit :=
  match action with
  | SetInputSource id =>
      match sk_sources self with
      | None => (None, Err (UnknownInputSource id))
      | Some queue =>
          let '(queue, r) := submit queue (env_sources (sk_env self) (sk_calls self)) id in
          (Some queue, r)
      end
  | SendKey _ _ => (sk_sources self, sk_inject self (sk_calls self) action)
  end.

(** [MatcherSink::deliver] of linux.rs; [None] is a panic. *)
Definition deliver (self : MatcherSink) (device : DeviceId) (event : KeyEvent)
    (focused_app : option string) : option (MatcherSink * BackendVerdict) :=
  let '(focused_app, identity) := sink_focus self focused_app in
  let state := sk_state self in
  let logical := resolve_focused_app (ms_aliases state) focused_app identity in
  let next m sources :=
    mkMatcherSink (ms_set_tx (ms_hyprland state, m) state) (sk_inject self) sources
      (sk_focus self) (sk_env self) (S (sk_calls self)) (sk_panicked self) in
  '(m, (verdict, token)) ←
    dispatch_device_with_delivery (ms_matcher state) device event logical
      (env_now (sk_env self) (sk_calls self));
  match verdict with
  | Verdict_Pass => Some (next m (sk_sources self), VerdictPass)
  | Verdict_Swallow => Some (next m (sk_sources self), VerdictSwallow)
  | Verdict_Replace action =>
      let '(sources, result) := perform self action in
      let '(delivery, verdict) :=
        match result with
        | Ok _ => (Delivered, VerdictSwallow)
        | Err _ => (RejectedOriginalForwarded, VerdictPass)
        end in
      token ← token;
      Some (next (report_delivery m token delivery).1 sources, verdict)
  end.

(** [on_event] and [on_device_event]; a panicked worker answers nothing. *)
Definition sink_deliver (self : MatcherSink) (device : DeviceId) (event : KeyEvent)
    (focused_app : option string) : MatcherSink * BackendVerdict :=
  if sk_panicked self then (self, VerdictPass)
  else
    match deliver self device event focused_app with
    | Some r => r
    | None =>
        (mkMatcherSink (sk_state self) (sk_inject self) (sk_sources self) (sk_focus self)
           (sk_env self) (sk_calls self) true, VerdictPass)
    end.

#[export] Instance MatcherSink_sink : EventSink MatcherSink := {
  on_event self e app := sink_deliver self 0 e app;
  on_device_event := sink_deliver;
  on_device_reset self device :=
    sk_set_matcher (reset_device (ms_matcher (sk_state self)) device) self;
  on_stream_reset self := sk_set_matcher (Matcher_reset (ms_matcher (sk_state self))) self;
}.
