(* ===== verification/Transport.v ===== *)
(** * The SHP1 transport (packages/linux/src/hyprland/transport.rs)

    One nonblocking sequenced-packet socket. Every wait is a loop around [poll]
    until one aggregate deadline on the monotonic clock; the loops take fuel, and
    [None] means that they still run when it is used up ([TransportThm] shows how
    much is enough). The system calls are the operations of the class [Socket].
    [Transport] is the descriptor. *)

From Stdlib Require Import Strings.Byte.
From S2P Require Import Prelude Protocol Wire.

(** ** System calls *)

(** [nix::errno::Errno], as far as the code tells errors apart. *)
Inductive Errno : Type := EAGAIN | EINTR | EINPROGRESS | EOther (kind : IoErrorKind).

(** [io::Error::from(errno).kind()]; an interruption and an operation in progress have
    kinds of their own which nothing distinguishes. *)
Definition errno_kind (e : Errno) : IoErrorKind :=
  match e with
  | EAGAIN => WouldBlock
  | EINTR | EINPROGRESS => OtherKind
  | EOther kind => kind
  end.

Class Socket (W : Type) : Type := {
  (** [clock_gettime(CLOCK_MONOTONIC)]: seconds and nanoseconds *)
  sys_clock : W → W * result Errno (Z * Z);
  (** [poll] of one descriptor for some flags and milliseconds: how many descriptors
      are ready, and the events when they are known flags *)
  sys_poll : W → Z → Z → Z → W * result Errno (Z * option Z);
  (** [recv(MSG_DONTWAIT | MSG_TRUNC)]: the datagram, empty at the end *)
  sys_recv : W → Z → W * result Errno (list byte);
  (** [send(MSG_DONTWAIT | MSG_NOSIGNAL)]: how many bytes were taken *)
  sys_send : W → Z → list byte → W * result Errno Z;
  (** [getsockopt(SO_PEERCRED)]: user and process *)
  sys_peer_credentials : W → Z → W * result Errno (Z * Z);
  sys_geteuid : W → Z;
  (** [thread::sleep] *)
  sys_sleep : W → Z → W;
}.

(** [struct Peer] *)
Record Peer : Type := mkPeer { peer_uid : Z; peer_pid : Z }.

#[export] Instance Peer_eq_dec : EqDecision Peer.
Proof. solve_decision. Defined.

Definition POLLIN : Z := 1.
Definition POLLOUT : Z := 4.

(** [deadline_ns.checked_sub(now).filter(|n| *n > 0)] *)
Definition time_left (deadline_ns n : Z) : option Z :=
  rest ← checked_sub_u64 deadline_ns n; if bool_decide (0 < rest) then Some rest else None.

(** [left.div_ceil(1_000_000).min(u16::MAX)] *)
Definition poll_millis (rest : Z) : Z := Z.min ((rest + 999999) / 1000000) 65535.

(** The nanoseconds of a [timespec], when they fit. *)
Definition timespec_ns (tv_sec tv_nsec : Z) : option Z :=
  if bool_decide (0 ≤ tv_sec) && bool_decide (tv_sec * 1000000000 ≤ u64_max) &&
     bool_decide (0 ≤ tv_nsec)
  then checked_add_u64 (tv_sec * 1000000000) tv_nsec else None.

Section transport.
Context {W : Type} `{Socket W}.

(** ** The monad of the loops *)

Definition TM (X : Type) : Type := W → option (W * Wire.IoResult X).
#[global] Instance TM_ret : MRet TM := λ X x w, Some (w, Ok x).
#[global] Instance TM_bind : MBind TM := λ X Y f m w,
  match m w with
  | Some (w, Ok x) => f x w
  | Some (w, Err e) => Some (w, Err e)
  | None => None
  end.
Definition tfail {X} (e : IoErrorKind) : TM X := λ w, Some (w, Err e).
(** A system call that is inspected, and one whose error is propagated. *)
Definition tsys {X} (f : W → W * result Errno X) : TM (result Errno X) := λ w,
  let '(w, r) := f w in Some (w, Ok r).
Definition tlift {X} (f : W → W * Wire.IoResult X) : TM X := λ w, Some (f w).
Definition syscall {X} (f : W → W * result Errno X) : TM X := λ w,
  match f w with
  | (w, Ok x) => Some (w, Ok x)
  | (w, Err e) => Some (w, Err (errno_kind e))
  end.

(** [monotonic_ns] *)
Definition monotonic_ns (w : W) : W * Wire.IoResult Z :=
  match sys_clock w with
  | (w, Err e) => (w, Err (errno_kind e))
  | (w, Ok (tv_sec, tv_nsec)) => (w, ok_or (timespec_ns tv_sec tv_nsec) InvalidData)
  end.

(** The clock is past the deadline: [timeout()]. *)
Definition expired (deadline_ns : Z) : TM unit :=
  tlift monotonic_ns ≫= λ n, if bool_decide (deadline_ns ≤ n) then tfail TimedOut else mret ().

(** [Transport::wait_ready] *)
Fixpoint wait_ready (fuel : nat) (fd flags deadline_ns : Z) : TM Z :=
  match fuel with
  | O => λ _, None
  | S fuel =>
      tlift monotonic_ns ≫= λ n,
      match time_left deadline_ns n with
      | None => tfail TimedOut
      | Some rest =>
          tsys (λ w, sys_poll w fd flags (poll_millis rest)) ≫= λ r,
          match r with
          | Ok (count, revents) =>
              if bool_decide (count = 0) then wait_ready fuel fd flags deadline_ns
              else expired deadline_ns ≫= λ _, mret (default 0 revents)
          | Err EINTR => wait_ready fuel fd flags deadline_ns
          | Err e => tfail (errno_kind e)
          end
      end
  end.

(** [Transport::wait] *)
Definition wait (fuel : nat) (fd flags deadline_ns : Z) : TM unit :=
  wait_ready fuel fd flags deadline_ns ≫= λ readiness,
  if bool_decide (Z.land readiness flags = flags) then mret () else tfail ConnectionReset.

(** [Transport::receive] *)
Fixpoint receive (fuel : nat) (fd deadline_ns : Z) : TM Wire.Packet :=
  match fuel with
  | O => λ _, None
  | S fuel' =>
      wait fuel fd POLLIN deadline_ns ≫= λ _,
      tsys (λ w, sys_recv w fd) ≫= λ r,
      match r with
      | Ok bytes =>
          if bool_decide (bytes = []) then tfail UnexpectedEof
          else if bool_decide (length bytes = Wire.PACKET_SIZE)
          then expired deadline_ns ≫= λ _, tlift (λ w, (w, Wire.decode bytes))
          else tfail InvalidData
      | Err (EAGAIN | EINTR) => receive fuel' fd deadline_ns
      | Err e => tfail (errno_kind e)
      end
  end.

(** [Transport::receive_if_ready] *)
Definition receive_if_ready (fuel : nat) (fd deadline_ns : Z) : TM (option Wire.Packet) := λ w,
  match wait fuel fd POLLIN deadline_ns w with
  | Some (w, Ok _) => (receive fuel fd deadline_ns ≫= λ p, mret (Some p)) w
  | Some (w, Err e) =>
      if bool_decide (e = TimedOut) then Some (w, Ok None) else Some (w, Err e)
  | None => None
  end.

(** The loop of [Transport::send]. *)
Fixpoint send_bytes (fuel : nat) (fd : Z) (bytes : list byte) (deadline_ns : Z) : TM unit :=
  match fuel with
  | O => λ _, None
  | S fuel' =>
      wait fuel fd POLLOUT deadline_ns ≫= λ _,
      tsys (λ w, sys_send w fd bytes) ≫= λ r,
      match r with
      | Ok n =>
          if bool_decide (n = Z.of_nat Wire.PACKET_SIZE) then expired deadline_ns
          else tfail InvalidData
      | Err (EAGAIN | EINTR) => send_bytes fuel' fd bytes deadline_ns
      | Err e => tfail (errno_kind e)
      end
  end.

(** [Transport::send] *)
Definition send (fuel : nat) (fd : Z) (packet : Wire.Packet) (deadline_ns : Z) : TM unit :=
  tlift (λ w, (w, Wire.encode packet)) ≫= λ bytes, send_bytes fuel fd bytes deadline_ns.

(** The test of [Transport::authenticate] on the credentials. *)
Definition wrong_peer (peer : Peer) (euid : Z) (credentials : Z * Z) : bool :=
  negb (bool_decide (peer_uid peer = euid)) ||
  negb (bool_decide (credentials.1 = peer_uid peer)) ||
  negb (bool_decide (credentials.2 = peer_pid peer)) || bool_decide (peer_pid peer ≤ 0).

(** [Transport::authenticate] *)
Definition authenticate (fd : Z) (peer : Peer) : TM unit :=
  syscall (λ w, sys_peer_credentials w fd) ≫= λ credentials,
  tlift (λ w, (w, Ok (sys_geteuid w))) ≫= λ euid,
  if wrong_peer peer euid credentials then tfail PermissionDenied else mret ().

(** [Transport::wait_readable] *)
Definition wait_readable (fuel : nat) (fd deadline_ns : Z) : TM unit :=
  wait fuel fd POLLIN deadline_ns.
End transport.
