(* ===== verification/TransportThm.v ===== *)
(** * The transport's loops end, and it neither loses nor repeats a packet

    What is assumed of the sockets ([SocketLaws]), a small program logic for the
    loops, and the theorems: every operation returns (the deadline and the number
    of spurious wake-ups bound the rounds), a packet is received exactly as one
    datagram carried it and before the deadline, and a packet is written at most
    once. [Transport_link] makes it the link of the bridge. *)

From Stdlib Require Import Strings.Byte.
From S2P Require Import Prelude Bytes Protocol Wire WireThm Transactions Bridge Transport.

(** ** What is assumed of the kernel

    [now w] is the monotonic clock, [received w fd] and [sent w fd] the datagrams
    that were read from and written to a descriptor, oldest first. [spurious w]
    bounds the calls that will be interrupted or find that a reported readiness
    has gone. *)

(** Time does not go back and no datagram moves. *)
Record quiet {W} (now : W → Z) (spurious : W → nat) (received sent : W → Z → list (list byte))
    (w w' : W) : Prop := {
  q_now : now w ≤ now w';
  q_spurious : (spurious w' ≤ spurious w)%nat;
  q_received : ∀ fd, received w' fd = received w fd;
  q_sent : ∀ fd, sent w' fd = sent w fd;
}.

Class SocketLaws (W : Type) `{Socket W} : Type := {
  now : W → Z;
  spurious : W → nat;
  received : W → Z → list (list byte);
  sent : W → Z → list (list byte);
  clock_quiet w : quiet now spurious received sent w (sys_clock w).1;
  clock_reads w w' sec nsec :
    sys_clock w = (w', Ok (sec, nsec)) → sec * 1000000000 + nsec = now w';
  poll_quiet w fd flags ms : quiet now spurious received sent w (sys_poll w fd flags ms).1;
  (** [poll] reports nothing ready only after the timeout. *)
  poll_timeout w fd flags ms w' revents :
    sys_poll w fd flags ms = (w', Ok (0, revents)) → now w + ms * 1000000 ≤ now w';
  poll_interrupted w fd flags ms w' :
    sys_poll w fd flags ms = (w', Err EINTR) → (spurious w' < spurious w)%nat;
  (** [recv] hands over one datagram, or nothing. *)
  recv_datagram w fd w' d :
    sys_recv w fd = (w', Ok d) →
    received w' fd = received w fd ++ [d] ∧ ∀ fd', fd' ≠ fd → received w' fd' = received w fd';
  recv_nothing w fd w' e fd' :
    sys_recv w fd = (w', Err e) → received w' fd' = received w fd';
  recv_frame w fd fd' :
    now w ≤ now (sys_recv w fd).1 ∧ (spurious (sys_recv w fd).1 ≤ spurious w)%nat ∧
    sent (sys_recv w fd).1 fd' = sent w fd';
  recv_spurious w fd w' e :
    sys_recv w fd = (w', Err e) → e = EAGAIN ∨ e = EINTR → (spurious w' < spurious w)%nat;
  (** [send] takes a prefix of the buffer as one datagram, or nothing. *)
  send_datagram w fd bytes w' n :
    sys_send w fd bytes = (w', Ok n) →
    sent w' fd = sent w fd ++ [take (Z.to_nat n) bytes] ∧
    ∀ fd', fd' ≠ fd → sent w' fd' = sent w fd';
  send_nothing w fd bytes w' e fd' :
    sys_send w fd bytes = (w', Err e) → sent w' fd' = sent w fd';
  send_frame w fd bytes fd' :
    now w ≤ now (sys_send w fd bytes).1 ∧
    (spurious (sys_send w fd bytes).1 ≤ spurious w)%nat ∧
    received (sys_send w fd bytes).1 fd' = received w fd';
  send_spurious w fd bytes w' e :
    sys_send w fd bytes = (w', Err e) → e = EAGAIN ∨ e = EINTR →
    (spurious w' < spurious w)%nat;
}.

Section transport.
Context {W : Type} `{SocketLaws W}.

Definition still : W → W → Prop := quiet now spurious received sent.

Lemma still_refl w : still w w.
Proof. by split. Qed.
Lemma still_trans w1 w2 w3 : still w1 w2 → still w2 w3 → still w1 w3.
Proof.
  intros [? ? R1 S1] [? ? R2 S2].
  split; [lia|lia|intros fd; by rewrite R2|intros fd; by rewrite S2].
Qed.

(** How many rounds of a loop are left at most. *)
Definition rounds (w : W) (deadline : Z) : nat := (spurious w + Z.to_nat (deadline - now w))%nat.

Lemma still_rounds w w' deadline : still w w' → (rounds w' deadline ≤ rounds w deadline)%nat.
Proof. intros []. unfold rounds. lia. Qed.

(** ** Rules

    [wp t m w Q]: [m] from [w] ends in [Q] if it ends, and it ends when [t]. *)
Definition wp {X} (t : bool) (m : TM (W := W) X) (w : W)
    (Q : W → Wire.IoResult X → Prop) : Prop :=
  match m w with Some (w', r) => Q w' r | None => t = false end.

Lemma tm_wp_mono {X} t (m : TM X) w (Q R : W → Wire.IoResult X → Prop) :
  wp t m w Q → (∀ w' r, Q w' r → R w' r) → wp t m w R.
Proof. unfold wp. destruct (m w) as [[w' r]|]; auto. Qed.

Lemma tm_wp_bind {X Y} t (m : TM X) (f : X → TM Y) w Q (R : W → Wire.IoResult Y → Prop) :
  wp t m w Q →
  (∀ w' x, Q w' (Ok x) → wp t (f x) w' R) → (∀ w' e, Q w' (Err e) → R w' (Err e)) →
  wp t (m ≫= f) w R.
Proof.
  unfold wp, mbind, TM_bind. intros Hm Hf He.
  destruct (m w) as [[w' [x|e]]|]; [apply (Hf _ _ Hm)|by apply He|done].
Qed.

Lemma wp_tsys {X Y} t (f : W → W * result Errno X) (g : result Errno X → TM Y) w R :
  (∀ w' r, f w = (w', r) → wp t (g r) w' R) → wp t (tsys f ≫= g) w R.
Proof.
  unfold wp, mbind, TM_bind, tsys. destruct (f w) as [w' r] eqn:E. intros Hg. by apply Hg.
Qed.

Lemma wp_now t w :
  wp t (tlift monotonic_ns) w (λ w' r, still w w' ∧ ∀ n, r = Ok n → n = now w').
Proof.
  unfold wp, tlift, monotonic_ns. pose proof (clock_quiet w) as Hq.
  destruct (sys_clock w) as [w' [[sec nsec]|e]] eqn:E; simpl in *; [|by split].
  apply clock_reads in E. split; [done|]. intros n Hn%ok_or_Ok. unfold timespec_ns in Hn.
  destruct (_ && _); [|done]. apply checked_add_u64_Some in Hn as [-> _]. lia.
Qed.

Lemma wp_expired t deadline w :
  wp t (expired deadline) w (λ w' r, still w w' ∧ (r = Ok () → now w' < deadline)).
Proof.
  unfold expired. eapply tm_wp_bind; [apply wp_now| |by intros w' e [? _]].
  intros w' n [Hs Hn]. specialize (Hn _ eq_refl). subst n.
  case_bool_decide; [by split|]. split; [done|]. intros _. lia.
Qed.

Lemma wait_ready_wp t fuel fd flags deadline w :
  (t = true → (rounds w deadline < fuel)%nat) →
  wp t (wait_ready fuel fd flags deadline) w
    (λ w' r, still w w' ∧ (∀ x, r = Ok x → now w' < deadline)).
Proof.
  revert w. induction fuel as [|fuel IH]; intros w Hf.
  { unfold wp. simpl. destruct t; [|done]. specialize (Hf eq_refl). lia. }
  cbn [wait_ready]. eapply tm_wp_bind; [apply wp_now| |by intros w' e [? _]].
  intros w1 n [H1 Hn]. specialize (Hn _ eq_refl). subst n.
  unfold time_left. destruct (checked_sub_u64 deadline (now w1)) as [rest|] eqn:Er; simpl;
    [|by split].
  unfold checked_sub_u64 in Er. case_bool_decide as Hd; [|done]. injection Er as <-.
  case_bool_decide as Hpos; [|by split].
  apply wp_tsys. intros w2 r Ep.
  assert (still w1 w2) as H2 by (pose proof (poll_quiet w1 fd flags
    (poll_millis (deadline - now w1))) as Hq; by rewrite Ep in Hq).
  assert (still w w2) as H3 by by eapply still_trans.
  assert (∀ w3 (x : Wire.IoResult Z), still w2 w3 ∧ (∀ y, x = Ok y → now w3 < deadline) →
    still w w3 ∧ (∀ y, x = Ok y → now w3 < deadline)) as Hcomp.
  { intros w3 x [? ?]. split; [by eapply still_trans|done]. }
  destruct r as [[count revents]|[| | |kind]].
  - case_bool_decide as Hc.
    + subst count. apply poll_timeout in Ep. eapply tm_wp_mono; [apply IH|exact Hcomp].
      intros Ht. specialize (Hf Ht). pose proof (still_rounds _ _ deadline H1).
      assert (1 ≤ poll_millis (deadline - now w1)).
      { unfold poll_millis. apply Z.min_glb; [|lia]. apply Z.div_le_lower_bound; lia. }
      unfold rounds in *. destruct H2. lia.
    + eapply tm_wp_bind; [apply wp_expired| |].
      * intros w3 [] [? Hlt]. split; [by eapply still_trans|]. intros _ _. by apply Hlt.
      * intros w3 e [? _]. split; [by eapply still_trans|done].
  - by split.
  - apply poll_interrupted in Ep. eapply tm_wp_mono; [apply IH|exact Hcomp].
    intros Ht. specialize (Hf Ht). pose proof (still_rounds _ _ deadline H1).
    unfold rounds in *. destruct H2. lia.
  - by split.
  - by split.
Qed.

Lemma wait_wp t fuel fd flags deadline w :
  (t = true → (rounds w deadline < fuel)%nat) →
  wp t (wait fuel fd flags deadline) w
    (λ w' r, still w w' ∧ (r = Ok () → now w' < deadline)).
Proof.
  intros Hf. unfold wait. eapply tm_wp_bind; [by apply wait_ready_wp| |by intros w' e [? _]].
  intros w' x [Hs Hn]. case_bool_decide; split; try done. intros _. by eapply Hn.
Qed.

(** ** Receiving *)

(** At most one datagram was read from [fd], and nothing else happened. *)
Record read_one (fd : Z) (w w' : W) (ds : list (list byte)) : Prop := {
  ro_now : now w ≤ now w';
  ro_once : (length ds ≤ 1)%nat;
  ro_received : received w' fd = received w fd ++ ds;
  ro_other : ∀ fd', fd' ≠ fd → received w' fd' = received w fd';
  ro_sent : ∀ fd', sent w' fd' = sent w fd';
}.

Lemma read_none fd w w' : still w w' → read_one fd w w' [].
Proof. intros []. split; simpl; try done; [lia|by rewrite app_nil_r]. Qed.

Lemma read_one_still fd w1 w2 w3 ds : read_one fd w1 w2 ds → still w2 w3 → read_one fd w1 w3 ds.
Proof.
  intros [] [? ? R S]. split; [lia|done|by rewrite R|intros; rewrite R; auto|intros; rewrite S; auto].
Qed.

Lemma still_read_one fd w1 w2 w3 ds : still w1 w2 → read_one fd w2 w3 ds → read_one fd w1 w3 ds.
Proof.
  intros [? ? R S] [? ? R' O' S'].
  split; [lia|done|by rewrite R', R|intros; by rewrite O', R|intros; by rewrite S', S].
Qed.

(** What a receive read and what it made of it. *)
Definition received_packet (fd deadline : Z) (w w' : W) (r : Wire.IoResult Wire.Packet) : Prop :=
  ∃ ds, read_one fd w w' ds ∧
    ∀ p, r = Ok p → now w' < deadline ∧ ∃ d, ds = [d] ∧ Wire.decode d = Ok p.

Lemma recv_step w fd w' r :
  sys_recv w fd = (w', r) →
  match r with
  | Ok d => read_one fd w w' [d]
  | Err e => still w w' ∧ (e = EAGAIN ∨ e = EINTR → (spurious w' < spurious w)%nat)
  end.
Proof.
  intros E. pose proof (λ fd', recv_frame w fd fd') as Hf. rewrite E in Hf. simpl in Hf.
  destruct r as [d|e].
  - destruct (recv_datagram _ _ _ _ E) as [? ?].
    split; [apply (Hf 0)|simpl; lia|done|done|apply Hf].
  - split; [|by eapply recv_spurious].
    split; [apply (Hf 0)|apply (Hf 0)|intros fd'; by eapply recv_nothing|apply Hf].
Qed.

Lemma receive_wp t fuel fd deadline w :
  (t = true → (rounds w deadline < fuel)%nat) →
  wp t (receive fuel fd deadline) w (received_packet fd deadline w).
Proof.
  revert w. induction fuel as [|fuel IH]; intros w Hf.
  { unfold wp. simpl. destruct t; [|done]. specialize (Hf eq_refl). lia. }
  assert (∀ w' e, still w w' → received_packet fd deadline w w' (Err e)) as Hnone.
  { intros w' e Hs. exists []. split; [by apply read_none|done]. }
  cbn [receive]. eapply tm_wp_bind; [by apply wait_wp| |by intros w' e [? _]; apply Hnone].
  intros w1 [] [H1 _]. apply wp_tsys. intros w2 r Er. pose proof (recv_step _ _ _ _ Er) as Hr.
  assert (∀ e, r = Err e → e = EAGAIN ∨ e = EINTR →
    wp t (receive fuel fd deadline) w2 (received_packet fd deadline w)) as Hloop.
  { intros e -> He. destruct Hr as [H2 Hs]. specialize (Hs He).
    eapply tm_wp_mono; [apply IH|].
    - intros Ht. specialize (Hf Ht). pose proof (still_rounds _ _ deadline H1).
      unfold rounds in *. destruct H2. lia.
    - intros w3 x (ds & Hro & Hp). exists ds. split; [|done].
      eapply still_read_one; [by eapply still_trans|done]. }
  destruct r as [d|[| | |kind]]; [|by eapply Hloop; auto|by eapply Hloop; auto| |].
  2,3: destruct Hr as [H2 _]; apply Hnone; by eapply still_trans.
  assert (∀ w3 e, still w2 w3 → received_packet fd deadline w w3 (Err e)) as Hsome.
  { intros w3 e H3. exists [d]. split; [|done]. eapply still_read_one; [done|].
    by eapply read_one_still. }
  case_bool_decide as He; [apply Hsome, still_refl|].
  case_bool_decide as Hsize; [|apply Hsome, still_refl].
  eapply tm_wp_bind; [apply wp_expired| |by intros w3 e [? _]; apply Hsome].
  intros w3 [] [H3 Hlt]. specialize (Hlt eq_refl). exists [d]. split.
  - eapply still_read_one; [done|]. by eapply read_one_still.
  - intros p Hp. split; [done|]. by exists d.
Qed.

(** ** Sending *)

(** At most one datagram, a prefix of [bytes], was written to [fd]. *)
Record wrote_one (fd : Z) (bytes : list byte) (w w' : W) (ds : list (list byte)) : Prop := {
  wo_now : now w ≤ now w';
  wo_once : (length ds ≤ 1)%nat;
  wo_prefix : ∀ d, d ∈ ds → d `prefix_of` bytes;
  wo_sent : sent w' fd = sent w fd ++ ds;
  wo_other : ∀ fd', fd' ≠ fd → sent w' fd' = sent w fd';
  wo_received : ∀ fd', received w' fd' = received w fd';
}.

Lemma wrote_none fd bytes w w' : still w w' → wrote_one fd bytes w w' [].
Proof. intros []. split; simpl; try done; [lia|set_solver|by rewrite app_nil_r]. Qed.

Lemma wrote_one_still fd bytes w1 w2 w3 ds :
  wrote_one fd bytes w1 w2 ds → still w2 w3 → wrote_one fd bytes w1 w3 ds.
Proof.
  intros [] [? ? R S].
  split; [lia|done|done|by rewrite S|intros; rewrite S; auto|intros; rewrite R; auto].
Qed.

Lemma still_wrote_one fd bytes w1 w2 w3 ds :
  still w1 w2 → wrote_one fd bytes w2 w3 ds → wrote_one fd bytes w1 w3 ds.
Proof.
  intros [? ? R S] [? ? ? S' O' R'].
  split; [lia|done|done|by rewrite S', S|intros; by rewrite O', S|intros; by rewrite R', R].
Qed.

Lemma send_step w fd bytes w' r :
  sys_send w fd bytes = (w', r) →
  match r with
  | Ok n => wrote_one fd bytes w w' [take (Z.to_nat n) bytes]
  | Err e => still w w' ∧ (e = EAGAIN ∨ e = EINTR → (spurious w' < spurious w)%nat)
  end.
Proof.
  intros E. pose proof (λ fd', send_frame w fd bytes fd') as Hf. rewrite E in Hf. simpl in Hf.
  destruct r as [n|e].
  - destruct (send_datagram _ _ _ _ _ E) as [? ?].
    split; [apply (Hf 0)|simpl; lia| |done|done|apply Hf].
    intros d ->%list_elem_of_singleton. apply prefix_take.
  - split; [|by eapply send_spurious].
    split; [apply (Hf 0)|apply (Hf 0)|apply Hf|intros fd'; by eapply send_nothing].
Qed.

(** What a send wrote. *)
Definition sent_packet (fd : Z) (bytes : list byte) (deadline : Z) (w w' : W)
    (r : Wire.IoResult unit) : Prop :=
  ∃ ds, wrote_one fd bytes w w' ds ∧ (r = Ok () → now w' < deadline ∧ ds = [take Wire.PACKET_SIZE bytes]).

Lemma send_bytes_wp t fuel fd bytes deadline w :
  (t = true → (rounds w deadline < fuel)%nat) →
  wp t (send_bytes fuel fd bytes deadline) w (sent_packet fd bytes deadline w).
Proof.
  revert w. induction fuel as [|fuel IH]; intros w Hf.
  { unfold wp. simpl. destruct t; [|done]. specialize (Hf eq_refl). lia. }
  assert (∀ w' e, still w w' → sent_packet fd bytes deadline w w' (Err e)) as Hnone.
  { intros w' e Hs. exists []. split; [by apply wrote_none|done]. }
  cbn [send_bytes]. eapply tm_wp_bind; [by apply wait_wp| |by intros w' e [? _]; apply Hnone].
  intros w1 [] [H1 _]. apply wp_tsys. intros w2 r Er. pose proof (send_step _ _ _ _ _ Er) as Hr.
  assert (∀ e, r = Err e → e = EAGAIN ∨ e = EINTR →
    wp t (send_bytes fuel fd bytes deadline) w2 (sent_packet fd bytes deadline w)) as Hloop.
  { intros e -> He. destruct Hr as [H2 Hs]. specialize (Hs He).
    eapply tm_wp_mono; [apply IH|].
    - intros Ht. specialize (Hf Ht). pose proof (still_rounds _ _ deadline H1).
      unfold rounds in *. destruct H2. lia.
    - intros w3 x (ds & Hro & Hp). exists ds. split; [|done].
      eapply still_wrote_one; [by eapply still_trans|done]. }
  destruct r as [n|[| | |kind]]; [|by eapply Hloop; auto|by eapply Hloop; auto| |].
  2,3: destruct Hr as [H2 _]; apply Hnone; by eapply still_trans.
  case_bool_decide as Hn.
  - eapply tm_wp_mono; [apply wp_expired|]. intros w3 x [H3 Hlt].
    exists [take (Z.to_nat n) bytes]. split.
    + eapply still_wrote_one; [done|]. by eapply wrote_one_still.
    + intros Hx. split; [by apply Hlt|]. by rewrite Hn, Nat2Z.id.
  - exists [take (Z.to_nat n) bytes]. split; [by eapply still_wrote_one|done].
Qed.

(** ** More fuel gives the same answer *)

(** [m'] answers whatever [m] answers. *)
Definition extends {X} (m m' : TM (W := W) X) : Prop := ∀ w x, m w = Some x → m' w = Some x.

Lemma extends_refl {X} (m : TM X) : extends m m.
Proof. by intros w x. Qed.

Lemma extends_bind {X Y} (m m' : TM X) (f f' : X → TM Y) :
  extends m m' → (∀ x, extends (f x) (f' x)) → extends (m ≫= f) (m' ≫= f').
Proof.
  intros Hm Hf w y. unfold mbind, TM_bind. destruct (m w) as [[w1 [x|e]]|] eqn:E; [| |done];
    rewrite (Hm _ _ E); [apply Hf|done].
Qed.

Hint Resolve extends_refl extends_bind : core.

Lemma wait_ready_extends n n' fd flags deadline :
  (n ≤ n')%nat → extends (wait_ready n fd flags deadline) (wait_ready n' fd flags deadline).
Proof.
  revert n'. induction n as [|n IH]; intros n' Hn; [by intros w x|].
  destruct n' as [|n']; [lia|]. specialize (IH n' ltac:(lia)). cbn [wait_ready].
  apply extends_bind; [done|intros x]. destruct (time_left deadline x); [|done].
  apply extends_bind; [done|]. intros [[count revents]|[| | |kind]]; try done.
  destruct (bool_decide _); done.
Qed.

Lemma wait_extends n n' fd flags deadline :
  (n ≤ n')%nat → extends (wait n fd flags deadline) (wait n' fd flags deadline).
Proof. intros. apply extends_bind; auto using wait_ready_extends. Qed.

Lemma receive_extends n n' fd deadline :
  (n ≤ n')%nat → extends (receive n fd deadline) (receive n' fd deadline).
Proof.
  revert n'. induction n as [|n IH]; intros n' Hn; [by intros w x|].
  destruct n' as [|n']; [lia|]. specialize (IH n' ltac:(lia)). cbn [receive].
  apply extends_bind; [by apply wait_extends|intros _]. apply extends_bind; [done|].
  by intros [d|[| | |kind]].
Qed.

Lemma receive_if_ready_extends n n' fd deadline :
  (n ≤ n')%nat → extends (receive_if_ready n fd deadline) (receive_if_ready n' fd deadline).
Proof.
  intros Hn w x. unfold receive_if_ready.
  destruct (wait n fd POLLIN deadline w) as [[w1 [u|e]]|] eqn:E; [| |done];
    rewrite (wait_extends _ _ _ _ _ Hn _ _ E); [|done].
  apply extends_bind; [by apply receive_extends|done].
Qed.

Lemma send_extends n n' fd p deadline :
  (n ≤ n')%nat → extends (send n fd p deadline) (send n' fd p deadline).
Proof.
  intros Hn. apply extends_bind; [done|intros bytes]. revert n' Hn.
  induction n as [|n IH]; intros n' Hn; [by intros w x|].
  destruct n' as [|n']; [lia|]. specialize (IH n' ltac:(lia)). cbn [send_bytes].
  apply extends_bind; [by apply wait_extends|intros _]. apply extends_bind; [done|].
  by intros [d|[| | |kind]].
Qed.

(** A total run from enough fuel on. *)
Lemma settles {X} (m : nat → TM X) (w : W) (n : nat) (Q : W → Wire.IoResult X → Prop) :
  wp true (m (S n)) w Q → (∀ k k', (k ≤ k')%nat → extends (m k) (m k')) →
  ∃ x, ∀ fuel, (n < fuel)%nat → m fuel w = Some x.
Proof.
  unfold wp. intros Hw Hx. destruct (m (S n) w) as [[w' r]|] eqn:E; [|done].
  exists (w', r). intros fuel Hf. eapply Hx; [|exact E]. lia.
Qed.

Lemma receive_if_ready_wp t fuel fd deadline w :
  (t = true → (rounds w deadline < fuel)%nat) →
  wp t (receive_if_ready fuel fd deadline) w (λ w' r, ∃ ds, read_one fd w w' ds ∧
    (r = Ok None → ds = []) ∧
    ∀ p, r = Ok (Some p) → now w' < deadline ∧ ∃ d, ds = [d] ∧ Wire.decode d = Ok p).
Proof.
  intros Hf. pose proof (wait_wp t fuel fd POLLIN deadline w Hf) as Hw.
  unfold wp, receive_if_ready in *.
  destruct (wait fuel fd POLLIN deadline w) as [[w1 [u|e]]|]; [| |done].
  - destruct Hw as [H1 _].
    assert (wp t (receive fuel fd deadline) w1 (received_packet fd deadline w1)) as Hr.
    { apply receive_wp. intros Ht. specialize (Hf Ht).
      pose proof (still_rounds _ _ deadline H1). lia. }
    unfold wp, mbind, TM_bind in *.
    destruct (receive fuel fd deadline w1) as [[w2 [p|e]]|]; [| |done];
      destruct Hr as (ds & Hro & Hp); exists ds; (split; [by eapply still_read_one|]);
      (split; [done|]); [|done]. intros q [= <-]. by apply Hp.
  - destruct Hw as [H1 _]. case_bool_decide; exists []; split_and!; try done;
      by apply read_none.
Qed.


(** A packet moves whole or not at all, and once. A receive that succeeds read one
    datagram and returns what that datagram is the encoding of; a failed one read one
    datagram at most; an idle receive that reports nothing read nothing, so no packet is
    lost between two steps. A send that succeeds wrote exactly the packet's 512 bytes as
    one datagram, and a failed send wrote at most one datagram, a prefix of them: it is
    never retried. Success is only reported before the deadline, and other descriptors
    are left alone. *)
Theorem packets_move_whole fuel fd p deadline (w w' : W) :
  packet_typed p →
  (∀ r, receive fuel fd deadline w = Some (w', r) →
     ∃ ds, read_one fd w w' ds ∧
       ∀ q, r = Ok q → now w' < deadline ∧ ∃ d, ds = [d] ∧ Wire.encode q = Ok d) ∧
  (∀ r, receive_if_ready fuel fd deadline w = Some (w', r) →
     ∃ ds, read_one fd w w' ds ∧ (r = Ok None → ds = []) ∧
       ∀ q, r = Ok (Some q) → now w' < deadline ∧ ∃ d, ds = [d] ∧ Wire.encode q = Ok d) ∧
  (∀ r, send fuel fd p deadline w = Some (w', r) →
     match Wire.encode p with
     | Ok bytes => length bytes = Wire.PACKET_SIZE ∧
         ∃ ds, wrote_one fd bytes w w' ds ∧ (r = Ok () → now w' < deadline ∧ ds = [bytes])
     | Err e => w' = w ∧ r = Err e
     end).
Proof.
  intros Hty. split_and!; intros r E.
  - pose proof (receive_wp false fuel fd deadline w ltac:(done)) as Hr. unfold wp in Hr.
    rewrite E in Hr. destruct Hr as (ds & Hro & Hp). exists ds. split; [done|].
    intros q Hq. destruct (Hp q Hq) as (? & d & -> & Hd). split; [done|]. exists d.
    by apply decode_encode in Hd as [_ ?].
  - pose proof (receive_if_ready_wp false fuel fd deadline w ltac:(done)) as Hr. unfold wp in Hr.
    rewrite E in Hr. destruct Hr as (ds & Hro & Hn & Hp). exists ds. split_and!; [done|done|].
    intros q Hq. destruct (Hp q Hq) as (? & d & -> & Hd). split; [done|]. exists d.
    by apply decode_encode in Hd as [_ ?].
  - unfold send, mbind, TM_bind, tlift in E.
    destruct (Wire.encode p) as [bytes|e] eqn:Ep; [|by simplify_eq].
    apply encode_decode in Ep as [Hl _]; [|done]. split; [done|].
    pose proof (send_bytes_wp false fuel fd bytes deadline w ltac:(done)) as Hw.
    unfold wp in Hw. rewrite E in Hw. destruct Hw as (ds & Hwr & Hp). exists ds.
    split; [done|]. intros Hr. destruct (Hp Hr) as [? ->]. split; [done|].
    by rewrite <- Hl, firstn_all.
Qed.

(** ** The link of the bridge *)

(** The loops run with enough fuel; their answer is the one [transport_returns] gives. *)
Definition enough (w : W) (deadline : Z) : nat := S (rounds w deadline).
Definition run {X} (w : W) (m : TM (W := W) X) : W * Wire.IoResult X :=
  default (w, Err OtherKind) (m w).

#[export] Instance Transport_link : Link W := {|
  l_monotonic_ns := monotonic_ns;
  l_receive := λ w fd deadline, run w (receive (enough w deadline) fd deadline);
  l_receive_if_ready := λ w fd deadline, run w (receive_if_ready (enough w deadline) fd deadline);
  l_send := λ w fd p deadline, run w (send (enough w deadline) fd p deadline);
  l_sleep := sys_sleep;
|}.
End transport.

(** ** A simulated socket *)

(** The clock, the interruptions to come, the datagrams that wait, and the log of the
    datagrams read and written with their descriptors. *)
Record SimSocket : Type := mkSimSocket {
  ss_clock : Z;
  ss_interrupts : nat;
  ss_inbox : list (list byte);
  ss_received : list (Z * list byte);
  ss_sent : list (Z * list byte);
}.

#[export] Instance SimSocket_socket : Socket SimSocket := {|
  sys_clock := λ w, (w, Ok (ss_clock w / 1000000000, ss_clock w mod 1000000000));
  sys_poll := λ w fd flags ms,
    match ss_interrupts w with
    | S n => (mkSimSocket (ss_clock w) n (ss_inbox w) (ss_received w) (ss_sent w), Err EINTR)
    | O =>
        if bool_decide (flags = POLLIN) && bool_decide (ss_inbox w = [])
        then (mkSimSocket (ss_clock w + Z.max 0 ms * 1000000) 0 (ss_inbox w) (ss_received w)
                (ss_sent w), Ok (0, Some 0))
        else (w, Ok (1, Some flags))
    end;
  sys_recv := λ w fd,
    (mkSimSocket (ss_clock w) (ss_interrupts w) (tail (ss_inbox w))
       (ss_received w ++ [(fd, default [] (head (ss_inbox w)))]) (ss_sent w),
     Ok (default [] (head (ss_inbox w))));
  sys_send := λ w fd bytes,
    (mkSimSocket (ss_clock w) (ss_interrupts w) (ss_inbox w) (ss_received w)
       (ss_sent w ++ [(fd, bytes)]), Ok (Z.of_nat (length bytes)));
  sys_peer_credentials := λ w _, (w, Ok (1000, 77));
  sys_geteuid := λ _, 1000;
  sys_sleep := λ w d,
    mkSimSocket (ss_clock w + Z.max 0 d) (ss_interrupts w) (ss_inbox w) (ss_received w) (ss_sent w);
|}.

Definition of_fd (log : list (Z * list byte)) (fd : Z) : list (list byte) :=
  (filter (λ x, x.1 = fd) log).*2.

Lemma of_fd_snoc log fd d fd' :
  of_fd (log ++ [(fd, d)]) fd' = of_fd log fd' ++ if decide (fd = fd') then [d] else [].
Proof.
  unfold of_fd. rewrite filter_app, fmap_app. f_equal.
  destruct (decide (fd = fd')) as [->|Hne].
  - by rewrite filter_cons_True.
  - by rewrite filter_cons_False.
Qed.

#[export] Instance SimSocket_laws : SocketLaws SimSocket.
Proof.
  refine {| now := ss_clock; spurious := ss_interrupts; received := λ w, of_fd (ss_received w);
    sent := λ w, of_fd (ss_sent w) |}.
  - by split.
  - intros w w' sec nsec [= <- <- <-]. simpl. pose proof (Z.div_mod (ss_clock w) 1000000000 ltac:(done)). lia.
  - intros w fd flags ms. simpl.
    destruct (ss_interrupts w) eqn:E; [|split; simpl; try done; rewrite ?E; lia].
    destruct (_ && _); split; simpl; try done; rewrite ?E; lia.
  - intros w fd flags ms w' revents. simpl. destruct (ss_interrupts w); [|done].
    destruct (_ && _); intros [= <- <-]. simpl. lia.
  - intros w fd flags ms w'. simpl. destruct (ss_interrupts w) eqn:E; [|intros [= <-]; simpl; lia].
    by destruct (_ && _).
  - intros w fd w' d [= <- <-]. simpl. split.
    + by rewrite of_fd_snoc, decide_True.
    + intros fd' Hne. by rewrite of_fd_snoc, decide_False, app_nil_r.
  - done.
  - intros w fd fd'. simpl. split_and!; [lia|lia|done].
  - done.
  - intros w fd bytes w' n [= <- <-]. simpl. split.
    + by rewrite of_fd_snoc, decide_True, Nat2Z.id, firstn_all.
    + intros fd' Hne. by rewrite of_fd_snoc, decide_False, app_nil_r.
  - done.
  - intros w fd bytes fd'. simpl. split_and!; [lia|lia|done].
  - done.
Defined.

(** Interrupted twice, the sample packet is received; then the deadline passes. *)
Definition sim_socket : SimSocket := mkSimSocket 1000 2 [sample_bytes] [] [].

Lemma packets_move_whole_witness :
  ∃ w', receive 9 3 2000 sim_socket = Some (w', Ok sample_packet) ∧
    ∃ d, received w' 3 = received sim_socket 3 ++ [d] ∧ Wire.encode sample_packet = Ok d.
Proof.
  assert (packet_typed sample_packet) as Ht by (repeat split; done).
  destruct (receive 9 3 2000 sim_socket) as [[w' r]|] eqn:E.
  2: { apply (f_equal (λ x, bool_decide (is_Some (snd <$> x)))) in E. vm_compute in E.
       discriminate E. }
  assert (r = Ok sample_packet) as ->.
  { apply (f_equal (fmap snd)) in E. vm_compute in E. by injection E as <-. }
  exists w'. split; [done|].
  destruct (proj1 (packets_move_whole 9 3 sample_packet 2000 sim_socket w' Ht) _ E)
    as (ds & Hro & Hp).
  destruct (Hp _ eq_refl) as (_ & d & -> & He). exists d. split; [apply Hro|exact He].
Defined.
