(* ===== verification/Admission.v ===== *)
(** * Admission of an installed compositor plugin

    packages/linux/src/hyprland/session.rs (the installed descriptor, the
    verification of files and of the compositor's process) and catalogue.rs (the
    compiled policy). Files and processes are read through the class [Files]; the
    hash, the JSON parsers, the device numbers and what the build embeds are the
    class [Artifacts]. A canonical path is the list of its components. *)

From Stdlib Require Import Strings.Byte.
From stdpp Require Import pretty.
From S2P Require Import Prelude Bytes Text Protocol Wire Transactions Bridge Transport Desktop Daemon.

(** ** Descriptors (session.rs) *)

Record InstalledDescriptor : Type := mkDescriptor {
  d_wire_version : Z;
  d_qualification_revision : Z;
  d_build_id : string;
  d_compositor_path : string;
  d_compositor_sha256 : string;
  d_sdk_api_hash : string;
  d_plugin_path : string;
  d_plugin_sha256 : string;
  d_capabilities : Z;
}.

(** Constructed by [verify] only. *)
Record VerifiedMetadata : Type := mkVerified {
  vm_descriptor : InstalledDescriptor;
  vm_peer : Peer;
  vm_start_time : Z;
  vm_descriptor_digest : string;
}.

(** [digest_syntax], and [hex] of catalogue.rs *)
Definition digest_syntax (value : string) : bool :=
  let bs := String.list_byte_of_string value in
  bool_decide (length bs = 64%nat) &&
  forallb (λ b, bool_decide (48 ≤ byte_val b ≤ 57) || bool_decide (97 ≤ byte_val b ≤ 102)) bs.

(** [str::strip_prefix] on strings *)
Fixpoint string_strip_prefix (p s : string) : option string :=
  match p, s with
  | EmptyString, _ => Some s
  | String a p, String b s => if bool_decide (a = b) then string_strip_prefix p s else None
  | String _ _, EmptyString => None
  end.

(** [InstalledDescriptor::validate] *)
Definition descriptor_invalid (self : InstalledDescriptor) : bool :=
  negb (bool_decide (d_wire_version self = 1)) ||
  Wire.outside (d_capabilities self) 15 ||
  negb (match string_strip_prefix "sledge-stock-v1:" (d_build_id self) with
        | Some rest => digest_syntax rest | None => false end) ||
  bool_decide (d_sdk_api_hash self = EmptyString) ||
  bool_decide (192 < String.length (d_sdk_api_hash self))%nat ||
  bool_decide (x00 ∈ String.list_byte_of_string (d_sdk_api_hash self)) ||
  negb (digest_syntax (d_compositor_sha256 self)) ||
  negb (digest_syntax (d_plugin_sha256 self)).

(** ** The compiled policy (catalogue.rs) *)

Record Entry : Type := mkEntry {
  e_descriptor_sha256 : string;
  e_build_id : string;
  e_evidence_sha256 : string;
  e_feature_mask : Z;
  e_qualification_revision : Z;
  e_isolated_vm : bool;
  e_machine_id_sha256 : string;
  e_boot_marker_path : string;
  e_boot_marker_sha256 : string;
}.

Record SupportedEntry : Type := mkSupported {
  s_descriptor_sha256 : string;
  s_build_id : string;
  s_evidence_sha256 : string;
  s_qualification_revision : Z;
  s_feature_mask : Z;
  s_approval_revision : Z;
}.

#[export] Instance SupportedEntry_eq_dec : EqDecision SupportedEntry.
Proof. solve_decision. Defined.

Inductive Admission : Type :=
  | AdmitCandidate (e : Entry)
  | AdmitSupported (e : SupportedEntry).

Record Policy : Type := mkPolicy { policy_revision : Z; policy_entries : list Admission }.
Record Acceptance : Type := mkAcceptance {
  acceptance_revision : Z;
  acceptance_entries : list SupportedEntry;
}.

(** [Admission::revision], [identity], [qualification], [feature_mask] *)
Definition admission_revision (a : Admission) : Z :=
  match a with
  | AdmitCandidate e => e_qualification_revision e
  | AdmitSupported e => s_qualification_revision e
  end.
Definition admission_identity (a : Admission) : string * string :=
  match a with
  | AdmitCandidate e => (e_descriptor_sha256 e, e_build_id e)
  | AdmitSupported e => (s_descriptor_sha256 e, s_build_id e)
  end.
Definition admission_qualification (a : Admission) : Qualification :=
  match a with AdmitCandidate _ => Candidate | AdmitSupported _ => Supported end.
Definition admission_feature_mask (a : Admission) : Z :=
  match a with
  | AdmitCandidate e => e_feature_mask e
  | AdmitSupported e => s_feature_mask e
  end.

(** [Path::is_absolute] *)
Definition is_absolute (path : string) : bool :=
  match path with
  | String c _ => bool_decide (c = Ascii.ascii_of_nat 47)
  | EmptyString => false
  end.

(** [AdmittedMetadata] *)
Record AdmittedMetadata : Type := mkAdmitted {
  am_metadata : VerifiedMetadata;
  am_feature_mask : Z;
  am_qualification : Qualification;
}.

#[export] Instance Qualification_eq_dec : EqDecision Qualification.
Proof. solve_decision. Defined.

(** [AdmittedMetadata::require_qualified] *)
Definition require_qualified (self : AdmittedMetadata) : Wire.IoResult unit :=
  if bool_decide (am_qualification self = Supported) then Ok () else Err PermissionDenied.

(** ** What is read and what is embedded *)

Record Metadata : Type := mkMetadata {
  md_is_file : bool;
  md_uid : Z;
  md_mode : Z;
  md_dev : Z;
  md_ino : Z;
  md_len : Z;
}.

(** The components of an absolute path. *)
Definition PathBuf : Type := list string.

Class Files (W : Type) : Type := {
  fs_geteuid : W → Z;
  (** [fs::canonicalize] *)
  fs_canonicalize : W → string → W * Wire.IoResult PathBuf;
  (** [fs::metadata] *)
  fs_metadata : W → PathBuf → W * Wire.IoResult Metadata;
  (** [File::open] and [take(n).read_to_end] *)
  fs_read : W → PathBuf → Z → W * Wire.IoResult (list byte);
  (** [File::open], its length, and the reads it delivers until the end *)
  fs_chunks : W → PathBuf → W * Wire.IoResult (Z * list (Wire.IoResult (list byte)));
  (** [open] without following a link, its metadata, and [take(n).read_to_end] *)
  fs_guarded : W → string → Z → W * Wire.IoResult (Metadata * Wire.IoResult (list byte));
}.

Class Artifacts : Type := {
  (** [format!("{:x}", Sha256::digest(..))] *)
  sha256_hex : list byte → string;
  (** [serde_json::from_slice] *)
  parse_descriptor : list byte → option InstalledDescriptor;
  parse_policy : list byte → option Policy;
  parse_acceptance : list byte → option Acceptance;
  (** [nix::sys::stat::major] and [minor] *)
  dev_major : Z → Z;
  dev_minor : Z → Z;
  (** The embedded policy and acceptance with the digests compiled in *)
  catalogue_bytes : list byte;
  catalogue_pin : string;
  acceptance_bytes : list byte;
  acceptance_pin : string;
}.

(** ** Selecting an entry *)

Section catalogue.
Context `{Artifacts}.

(** Embedded bytes are missing, oversized or not the pinned ones. *)
Definition unpinned (bytes : list byte) (pin : string) : bool :=
  bool_decide (bytes = []) || bool_decide (65536 < Z.of_nat (length bytes)) ||
  negb (digest_syntax pin) || negb (bool_decide (sha256_hex bytes = pin)).

(** The entry is refused in a policy of that revision. *)
Definition entry_refused (revision : Z) (entry : Admission) : bool :=
  match entry with
  | AdmitCandidate e =>
      negb (e_isolated_vm e) ||
      negb (valid_capabilities (e_qualification_revision e) (e_feature_mask e)) ||
      negb (digest_syntax (e_descriptor_sha256 e)) ||
      negb (digest_syntax (e_evidence_sha256 e)) ||
      negb (digest_syntax (e_machine_id_sha256 e)) ||
      negb (digest_syntax (e_boot_marker_sha256 e)) ||
      negb (is_absolute (e_boot_marker_path e))
  | AdmitSupported e =>
      negb (bool_decide (revision = 2)) ||
      negb (valid_capabilities (s_qualification_revision e) (s_feature_mask e)) ||
      bool_decide (s_approval_revision e = 0) ||
      negb (digest_syntax (s_descriptor_sha256 e)) ||
      negb (digest_syntax (s_evidence_sha256 e))
  end.

(** [select] *)
Definition select (bytes : list byte) (pin descriptor build : string) :
    Wire.IoResult Admission :=
  if unpinned bytes pin then Err PermissionDenied
  else
    policy ← ok_or (parse_policy bytes) PermissionDenied;
    if negb (bool_decide (policy_revision policy = 1) ||
             bool_decide (policy_revision policy = 2)) ||
       bool_decide (16 < length (policy_entries policy))%nat
    then Err PermissionDenied
    else
      match filter (λ e, admission_identity e = (descriptor, build)) (policy_entries policy) with
      | [entry] =>
          if entry_refused (policy_revision policy) entry then Err PermissionDenied else Ok entry
      | _ => Err PermissionDenied
      end.

(** [verify_acceptance] *)
Definition verify_acceptance (entry : SupportedEntry) (bytes : list byte) (pin : string) :
    Wire.IoResult unit :=
  if unpinned bytes pin then Err PermissionDenied
  else
    acceptance ← ok_or (parse_acceptance bytes) PermissionDenied;
    if negb (bool_decide (acceptance_revision acceptance = 1)) ||
       bool_decide (16 < length (acceptance_entries acceptance))%nat ||
       negb (bool_decide
         (length (filter (λ e, e = entry) (acceptance_entries acceptance)) = 1%nat))
    then Err PermissionDenied else Ok ().
End catalogue.

(** ** Verification of files and processes *)

Section verify.
Context {W : Type} `{Artifacts, Files W}.

Definition ffail {X} (e : IoErrorKind) : LM (W := W) X := λ w, (w, Err e).
Definition fcall {X} (f : W → W * Wire.IoResult X) : LM (W := W) X := f.
Definition denied {X} : LM (W := W) X := ffail PermissionDenied.

(** [immutable_file] *)
Definition immutable_file (path : string) : LM (W := W) PathBuf :=
  fcall (λ w, fs_canonicalize w path) ≫= λ canonical,
  match canonical with
  | "nix" :: "store" :: relative =>
      if bool_decide (length relative < 2)%nat then denied
      else
        fcall (λ w, fs_metadata w canonical) ≫= λ metadata,
        if negb (md_is_file metadata) || negb (bool_decide (md_uid metadata = 0)) ||
           negb (bool_decide (Z.land (md_mode metadata) 146 = 0))
        then denied else mret canonical
  | _ => denied
  end%string.

(** [bounded_read] *)
Definition bounded_read (path : PathBuf) (max : Z) : LM (W := W) (list byte) :=
  fcall (λ w, fs_read w path (max + 1)) ≫= λ bytes,
  if bool_decide (max < Z.of_nat (length bytes)) then denied else mret bytes.

(** [512 * 1024 * 1024] *)
Definition HASH_BUDGET : Z := 536870912.

(** The loop of [hash_file] over the reads: the hashed bytes. *)
Fixpoint hash_chunks (total : Z) (hashed : list byte) (chunks : list (Wire.IoResult (list byte))) :
    Wire.IoResult (list byte) :=
  match chunks with
  | [] | Ok [] :: _ => Ok hashed
  | Err e :: _ => Err e
  | Ok chunk :: chunks =>
      let total := total + Z.of_nat (length chunk) in
      if bool_decide (HASH_BUDGET < total) then Err PermissionDenied
      else hash_chunks total (hashed ++ chunk) chunks
  end.

(** [hash_file] *)
Definition hash_file (path : PathBuf) : LM (W := W) string :=
  fcall (λ w, fs_chunks w path) ≫= λ '(len, chunks),
  if bool_decide (HASH_BUDGET < len) then denied
  else λ w, (w, sha256_hex <$> hash_chunks 0 [] chunks).

(** [parse_start] *)
Definition parse_start (stat : text) : Wire.IoResult Z :=
  rest ← ok_or (after_last 41 stat) PermissionDenied;
  field ← ok_or (split_whitespace rest !! 19%nat) PermissionDenied;
  ok_or (parse_u64 10 field) PermissionDenied.

(** The process has exited: the state after its name is [Z], [X] or [x]. *)
Definition exited (rest : text) : bool :=
  match split_whitespace rest with
  | [90] :: _ | [88] :: _ | [120] :: _ => true
  | _ => false
  end.

Definition proc_path (pid : Z) (names : list string) : PathBuf :=
  "proc" :: pretty pid :: names.

(** [process_start] *)
Definition process_start (peer : Peer) : LM (W := W) Z :=
  (λ w, (w, Ok (fs_geteuid w))) ≫= λ euid,
  if bool_decide (peer_pid peer ≤ 0) || negb (bool_decide (peer_uid peer = euid)) then denied
  else
    fcall (λ w, fs_metadata w (proc_path (peer_pid peer) [])) ≫= λ metadata,
    if negb (bool_decide (md_uid metadata = peer_uid peer)) then denied
    else
      bounded_read (proc_path (peer_pid peer) ["stat"]) 4096 ≫= λ bytes,
      match from_utf8 bytes with
      | None => denied
      | Some stat =>
          match after_last 41 stat with
          | None => denied
          | Some rest => if exited rest then denied else λ w, (w, parse_start stat)
          end
      end.

(** [parse_mapping_device] *)
Definition parse_mapping_device (device : text) : option (Z * Z) :=
  '(major, minor) ← split_once 58 device;
  major ← parse_u64 16 major;
  minor ← parse_u64 16 minor;
  Some (major, minor).

(** [Path::to_str] of a canonical path *)
Definition to_str (path : PathBuf) : option text :=
  from_utf8 (path ≫= λ name, x2f :: String.list_byte_of_string name).

(** The line of a process's mappings is of the plugin's file. *)
Definition maps_plugin (plugin : text) (metadata : Metadata) (line : text) : bool :=
  let fields := split_whitespace line in
  bool_decide (fields !! 5%nat = Some plugin) &&
  bool_decide ((fields !! 3%nat ≫= parse_mapping_device) =
    Some (dev_major (md_dev metadata), dev_minor (md_dev metadata))) &&
  bool_decide ((fields !! 4%nat ≫= parse_u64 10) = Some (md_ino metadata)).

(** [verify_files_and_process] *)
Definition verify_files_and_process (d : InstalledDescriptor) (peer : Peer) : LM (W := W) unit :=
  immutable_file (d_compositor_path d) ≫= λ compositor,
  immutable_file (d_plugin_path d) ≫= λ plugin,
  hash_file compositor ≫= λ compositor_hash,
  (if bool_decide (compositor_hash = d_compositor_sha256 d)
   then hash_file plugin ≫= λ plugin_hash, mret (bool_decide (plugin_hash = d_plugin_sha256 d))
   else mret false) ≫= λ same,
  if negb same then denied
  else
    fcall (λ w, fs_canonicalize w (String.append "/proc/" (String.append (pretty (peer_pid peer)) "/exe")))
      ≫= λ executable,
    (if bool_decide (executable = compositor)
     then hash_file executable ≫= λ h, mret (bool_decide (h = d_compositor_sha256 d))
     else mret false) ≫= λ same,
    if negb same then denied
    else
      bounded_read (proc_path (peer_pid peer) ["maps"]) 4194304 ≫= λ bytes,
      match from_utf8 bytes with
      | None => denied
      | Some maps =>
          fcall (λ w, fs_metadata w plugin) ≫= λ metadata,
          match to_str plugin with
          | None => denied
          | Some plugin =>
              if existsb (maps_plugin plugin metadata) (lines maps) then mret () else denied
          end
      end.

(** [InstalledDescriptor::verify] *)
Definition descriptor_verify (registration_path : string) (pid : Z) :
    LM (W := W) VerifiedMetadata :=
  immutable_file registration_path ≫= λ path,
  bounded_read path 16384 ≫= λ bytes,
  match parse_descriptor bytes with
  | None => denied
  | Some descriptor =>
      if descriptor_invalid descriptor then denied
      else
        (λ w, (w, Ok (mkPeer (fs_geteuid w) pid))) ≫= λ peer,
        process_start peer ≫= λ before,
        verify_files_and_process descriptor peer ≫= λ _,
        process_start peer ≫= λ after,
        if negb (bool_decide (after = before)) then denied
        else mret (mkVerified descriptor peer before (sha256_hex bytes))
  end.

(** [VerifiedMetadata::revalidate] *)
Definition revalidate (self : VerifiedMetadata) : LM (W := W) unit :=
  process_start (vm_peer self) ≫= λ start,
  if negb (bool_decide (start = vm_start_time self)) then denied
  else
    verify_files_and_process (vm_descriptor self) (vm_peer self) ≫= λ _,
    process_start (vm_peer self) ≫= λ start,
    if negb (bool_decide (start = vm_start_time self)) then denied else mret ().

(** [VerifiedMetadata::passive_identity] *)
Definition passive_identity (self : VerifiedMetadata) : Wire.Identity :=
  Wire.mkIdentity 0 (String.list_byte_of_string (d_sdk_api_hash (vm_descriptor self)))
    (String.list_byte_of_string (d_build_id (vm_descriptor self))).

(** [guarded_bytes] *)
Definition guarded_bytes (path : string) : LM (W := W) (list byte) :=
  fcall (λ w, fs_guarded w path 4097) ≫= λ '(m, read),
  if negb (md_is_file m) || negb (bool_decide (md_uid m = 0)) ||
     negb (bool_decide (Z.land (md_mode m) 146 = 0)) || bool_decide (4096 < md_len m)
  then denied
  else
    (λ w, (w, read)) ≫= λ bytes,
    if bool_decide (4096 < length bytes)%nat then denied else mret bytes.

(** [verify_scope] *)
Definition verify_scope (e : Entry) : LM (W := W) unit :=
  guarded_bytes "/etc/machine-id" ≫= λ machine,
  (if bool_decide (sha256_hex machine = e_machine_id_sha256 e)
   then guarded_bytes (e_boot_marker_path e) ≫= λ marker,
        mret (bool_decide (sha256_hex marker = e_boot_marker_sha256 e))
   else mret false) ≫= λ same,
  if negb same then denied else mret ().

(** [Admission::verify] *)
Definition admission_verify (a : Admission) : LM (W := W) unit :=
  match a with
  | AdmitCandidate e => verify_scope e
  | AdmitSupported e => λ w, (w, verify_acceptance e acceptance_bytes acceptance_pin)
  end.

(** The entry of the embedded policy for this metadata. *)
Definition select_embedded (metadata : VerifiedMetadata) : Wire.IoResult Admission :=
  select catalogue_bytes catalogue_pin (vm_descriptor_digest metadata)
    (d_build_id (vm_descriptor metadata)).

(** [Catalogue::recheck] *)
Definition catalogue_recheck (metadata : VerifiedMetadata) : LM (W := W) unit :=
  (λ w, (w, select_embedded metadata)) ≫= admission_verify.

(** [Catalogue::qualify] *)
Definition catalogue_qualify (metadata : VerifiedMetadata) : LM (W := W) AdmittedMetadata :=
  (λ w, (w, select_embedded metadata)) ≫= λ entry,
  if negb (bool_decide (d_qualification_revision (vm_descriptor metadata) =
             admission_revision entry))
  then denied
  else
    admission_verify entry ≫= λ _,
    mret (mkAdmitted metadata (admission_feature_mask entry) (admission_qualification entry)).
End verify.

(** ** Sessions *)

(** [Listener::accept]: one authenticated connection of the peer before the deadline. *)
Class Acceptor (W : Type) : Type := {
  accept_peer : W → Peer → Z → W * Wire.IoResult Z;
}.

(** The errors after which [retry_hello] admits the next connection. *)
Definition retryable (e : IoErrorKind) : bool :=
  bool_decide (e ∈ [TimedOut; BrokenPipe; UnexpectedEof; ConnectionReset; ConnectionAborted]).

Section session.
Context {W : Type} `{Artifacts, Files W, Link W, Acceptor W}.

(** [retry_hello]; [None] when it still runs after [fuel] attempts. *)
Fixpoint retry_hello {T} (fuel : nat) (deadline : Z) (attempt : LM (W := W) T) (w : W) :
    option (W * Wire.IoResult T) :=
  match fuel with
  | O => None
  | S fuel =>
      match l_monotonic_ns w with
      | (w, Err e) => Some (w, Err e)
      | (w, Ok n) =>
          if bool_decide (deadline ≤ n) then Some (w, Err TimedOut)
          else
            match attempt w with
            | (w, Ok value) => Some (w, Ok value)
            | (w, Err e) =>
                if retryable e then retry_hello fuel deadline attempt w else Some (w, Err e)
            end
      end
  end.

(** [Session::handshake_deadline] *)
Definition handshake_deadline (overall : Z) : LM (W := W) Z :=
  fcall l_monotonic_ns ≫= λ n,
  match checked_add_u64 n 10000000 with
  | Some d => mret (Z.min overall d)
  | None => ffail InvalidData
  end.

(** One attempt: a connection of the verified process, and a Hello on it. *)
Definition attempt_hello (metadata : VerifiedMetadata) (deadline : Z)
    (hello : Z → Wire.Identity → Z → LM (W := W) Bridge) : LM (W := W) Bridge :=
  fcall (λ w, accept_peer w (vm_peer metadata) deadline) ≫= λ fd,
  process_start (vm_peer metadata) ≫= λ start,
  if negb (bool_decide (start = vm_start_time metadata)) then denied
  else
    handshake_deadline deadline ≫= λ limit,
    hello fd (passive_identity metadata) limit.

(** [Session::accept] *)
Definition session_accept (fuel : nat) (metadata : VerifiedMetadata) (deadline : Z) (w : W) :
    option (W * Wire.IoResult Session) :=
  match revalidate metadata w with
  | (w, Err e) => Some (w, Err e)
  | (w, Ok _) =>
      match retry_hello fuel deadline (attempt_hello metadata deadline passive_handshake) w with
      | None => None
      | Some (w, r) =>
          Some (w, (λ b, mkSession b (d_qualification_revision (vm_descriptor metadata)) false
                           false Unqualified) <$> r)
      end
  end.

(** [Session::accept_admitted] *)
Definition accept_admitted (fuel : nat) (admitted : AdmittedMetadata) (deadline : Z) (w : W) :
    option (W * Wire.IoResult Session) :=
  let metadata := am_metadata admitted in
  if negb (valid_capabilities (d_qualification_revision (vm_descriptor metadata))
             (am_feature_mask admitted))
  then Some (w, Err PermissionDenied)
  else
    match catalogue_recheck metadata w with
    | (w, Err e) => Some (w, Err e)
    | (w, Ok _) =>
        match session_accept fuel metadata deadline w with
        | None => None
        | Some (w, r) =>
            Some (w, (λ s, mkSession (se_bridge s) (se_revision s) (se_matcher_bound s) true
                             (am_qualification admitted)) <$> r)
        end
    end.

(** [SessionHealth::process_is_current] *)
Definition process_is_current (metadata : VerifiedMetadata) (w : W) : W * bool :=
  match process_start (vm_peer metadata) w with
  | (w, Ok start) => (w, bool_decide (start = vm_start_time metadata))
  | (w, Err _) => (w, false)
  end.

(** [Session::reverify] *)
Definition reverify (metadata : VerifiedMetadata) (self : Session) : LM (W := W) unit :=
  (if se_active self then catalogue_recheck metadata else mret ()) ≫= λ _, revalidate metadata.

(** [Session::reconnect_verified] *)
Definition reconnect_verified (fuel : nat) (metadata : VerifiedMetadata) (deadline : Z)
    (self : Session) (w : W) : option (Session * W * Wire.IoResult unit) :=
  match retry_hello fuel deadline
    (attempt_hello metadata deadline (reconnect (se_bridge self))) w with
  | None => None
  | Some (w, Ok b) => Some (se_set_bound false (se_set_bridge b self), w, Ok ())
  | Some (w, Err e) => Some (self, w, Err e)
  end.

(** [admission_deadline_after] on a duration in nanoseconds *)
Definition admission_deadline_after (duration : Z) (verify : LM (W := W) unit) : LM (W := W) Z :=
  verify ≫= λ _,
  if negb (bool_decide (is_u64 duration)) || bool_decide (duration = 0) then ffail InvalidData
  else
    fcall l_monotonic_ns ≫= λ n,
    match checked_add_u64 n duration with
    | Some d => mret d
    | None => ffail InvalidData
    end.

(** [Session::reconnect_for], [Session::reconnect] *)
Definition reconnect_for (fuel : nat) (metadata : VerifiedMetadata) (duration : Z)
    (self : Session) (w : W) : option (Session * W * Wire.IoResult unit) :=
  match admission_deadline_after duration (reverify metadata self) w with
  | (w, Err e) => Some (self, w, Err e)
  | (w, Ok deadline) => reconnect_verified fuel metadata deadline self w
  end.
Definition reconnect_until (fuel : nat) (metadata : VerifiedMetadata) (deadline : Z)
    (self : Session) (w : W) : option (Session * W * Wire.IoResult unit) :=
  match reverify metadata self w with
  | (w, Err e) => Some (self, w, Err e)
  | (w, Ok _) => reconnect_verified fuel metadata deadline self w
  end.
End session.
