(* ===== verification/AdmissionThm.v ===== *)
(** * Only a catalogued, verified compositor is admitted

    The selection of a catalogue entry is exact, an admitted session has the features
    of its entry, a process cannot forge its start time through its name, and the
    retry loop ends with its deadline and changes nothing when it fails. *)

From Stdlib Require Import Strings.Byte.
From stdpp Require Import pretty.
From S2P Require Import Prelude Bytes Text Protocol Wire Transactions Bridge BridgeThm Transport.
From S2P Require Import Desktop Daemon Admission.

(** ** The catalogue *)

Section catalogue.
Context `{Artifacts}.

(** The policy the build embeds, as it was pinned. *)
Definition embedded (policy : Policy) : Prop :=
  sha256_hex catalogue_bytes = catalogue_pin ∧ digest_syntax catalogue_pin = true ∧
  parse_policy catalogue_bytes = Some policy ∧
  (policy_revision policy = 1 ∨ policy_revision policy = 2) ∧
  (length (policy_entries policy) ≤ 16)%nat.

(** [entry] is the one entry of [policy] for that identity. *)
Definition the_entry (policy : Policy) (identity : string * string) (entry : Admission) : Prop :=
  ∃ l1 l2, policy_entries policy = l1 ++ entry :: l2 ∧ admission_identity entry = identity ∧
    Forall (λ e, admission_identity e ≠ identity) (l1 ++ l2).

Lemma filter_singleton (P : Admission → Prop) `{∀ x, Decision (P x)} l x :
  filter P l = [x] ↔ ∃ l1 l2, l = l1 ++ x :: l2 ∧ P x ∧ Forall (λ y, ¬ P y) (l1 ++ l2).
Proof.
  split.
  - induction l as [|y l IH]; [done|]. rewrite filter_cons. destruct (decide (P y)) as [Hy|Hy].
    + intros [= -> Hl]. exists [], l. split_and!; [done|done|]. simpl.
      apply Forall_forall. intros z Hz HPz.
      assert (z ∈ filter P l) as Hin by (by apply list_elem_of_filter). rewrite Hl in Hin. set_solver.
    + intros (l1 & l2 & -> & Hx & Hf)%IH. exists (y :: l1), l2. split_and!; [done|done|].
      simpl. by constructor.
  - intros (l1 & l2 & -> & Hx & [Hl1 Hl2]%Forall_app).
    assert (∀ l', Forall (λ y, ¬ P y) l' → filter P l' = []) as Hnil.
    { intros l' Hl'. induction Hl' as [|y l' Hy _ IH]; [done|]. by rewrite filter_cons_False. }
    by rewrite filter_app, filter_cons_True, !Hnil.
Qed.

Lemma unpinned_false bytes pin :
  unpinned bytes pin = false →
  digest_syntax pin = true ∧ sha256_hex bytes = pin.
Proof. unfold unpinned. intros Hu. bools. done. Qed.

Lemma select_Ok metadata entry :
  select_embedded metadata = Ok entry →
  ∃ policy, embedded policy ∧
    the_entry policy (vm_descriptor_digest metadata, d_build_id (vm_descriptor metadata)) entry ∧
    entry_refused (policy_revision policy) entry = false.
Proof.
  unfold select_embedded, select. destruct (unpinned _ _) eqn:Hu; [done|].
  apply unpinned_false in Hu as [Hsyn Hpin].
  intros (policy & Hp%ok_or_Ok & Hs)%result_bind_Ok.
  destruct (_ || _) eqn:Hr; [done|]. bools.
  destruct (filter _ _) as [|e [|e' l]] eqn:Hf; [done| |done].
  destruct (entry_refused _ _) eqn:Hv; [done|]. injection Hs as ->.
  apply filter_singleton in Hf. exists policy. split_and!; [|done|done].
  split_and!; try done; [|lia].
  match goal with H : _ || _ = true |- _ => apply orb_true_iff in H as [?|?]; bools; auto end.
Qed.

(** A refused entry is never of an unsupported capability. *)
Lemma entry_capabilities revision entry :
  entry_refused revision entry = false →
  valid_capabilities (admission_revision entry) (admission_feature_mask entry) = true ∧
  match entry with
  | AdmitCandidate e => e_isolated_vm e = true
  | AdmitSupported e => revision = 2 ∧ s_approval_revision e ≠ 0
  end.
Proof. destruct entry; simpl; intros Hr; bools; done. Qed.

Lemma valid_capabilities_mask revision features :
  valid_capabilities revision features = true →
  features = if bool_decide (revision = 2) then TAP_FEATURES else FRESH_DOWN_SEND_KEY.
Proof.
  unfold valid_capabilities. intros [Hv|Hv]%orb_true_iff; bools; subst; done.
Qed.
End catalogue.

(** ** Sessions *)

Section session.
Context {W : Type} `{Artifacts, Files W, Link W, Acceptor W}.

(** Where the answer of the loop comes from. *)
Lemma retry_hello_answer {T} fuel deadline (attempt : LM (W := W) T) w w' r :
  retry_hello fuel deadline attempt w = Some (w', r) →
  match r with
  | Ok v => ∃ w1, attempt w1 = (w', Ok v)
  | Err e => e = TimedOut ∨ (∃ w1, l_monotonic_ns w1 = (w', Err e)) ∨
      (retryable e = false ∧ ∃ w1, attempt w1 = (w', Err e))
  end.
Proof.
  revert w. induction fuel as [|fuel IH]; intros w; simpl; [done|].
  destruct (l_monotonic_ns w) as [w1 [n|e]] eqn:En; [|intros [= <- <-]; eauto].
  case_bool_decide; [intros [= <- <-]; auto|].
  destruct (attempt w1) as [w2 [v|e]] eqn:Ea; [intros [= <- <-]; eauto|].
  destruct (retryable e) eqn:Er; [apply IH|]. intros [= <- <-]. eauto.
Qed.

Lemma attempt_hello_Ok metadata deadline hello w w' b :
  attempt_hello metadata deadline hello w = (w', Ok b) →
  ∃ fd limit w0 w1 w2 w3,
    accept_peer w (vm_peer metadata) deadline = (w0, Ok fd) ∧
    process_start (vm_peer metadata) w0 = (w1, Ok (vm_start_time metadata)) ∧
    handshake_deadline deadline w2 = (w3, Ok limit) ∧
    hello fd (passive_identity metadata) limit w3 = (w', Ok b).
Proof.
  unfold attempt_hello. intros (fd & w0 & Ha & Hd)%LM_bind_Ok.
  apply LM_bind_Ok in Hd as (start & w1 & Hs & Hd). case_bool_decide; simpl in Hd; [|done].
  subst start. apply LM_bind_Ok in Hd as (limit & w2 & Hl & Hd). eauto 15.
Qed.

Lemma passive_handshake_Ok fd identity limit w w' b :
  passive_handshake fd identity limit w = (w', Ok b) →
  br_transport b = Some fd ∧ br_awaiting_reconciliation b = true ∧ br_nonce b ≠ 0.
Proof.
  unfold passive_handshake, handshake_inner. destruct (negb _); [done|].
  intros (hello & w1 & _ & Hd)%LM_bind_Ok.
  apply handshake_packet_Ok in Hd as (_ & _ & Hn & ->). done.
Qed.

Lemma accept_admitted_Ok fuel admitted deadline w w' se :
  accept_admitted fuel admitted deadline w = Some (w', Ok se) →
  valid_capabilities (d_qualification_revision (vm_descriptor (am_metadata admitted)))
    (am_feature_mask admitted) = true ∧
  (∃ w1, catalogue_recheck (am_metadata admitted) w = (w1, Ok ())) ∧
  se_revision se = d_qualification_revision (vm_descriptor (am_metadata admitted)) ∧
  se_matcher_bound se = false ∧ se_active se = true ∧
  se_qualification se = am_qualification admitted ∧
  ∃ fd w2 w3 w4, br_transport (se_bridge se) = Some fd ∧
    br_awaiting_reconciliation (se_bridge se) = true ∧ br_nonce (se_bridge se) ≠ 0 ∧
    accept_peer w2 (vm_peer (am_metadata admitted)) deadline = (w3, Ok fd) ∧
    process_start (vm_peer (am_metadata admitted)) w3 =
      (w4, Ok (vm_start_time (am_metadata admitted))).
Proof.
  unfold accept_admitted. destruct (valid_capabilities _ _) eqn:Hv; simpl; [|done].
  destruct (catalogue_recheck _ w) as [w1 [[]|e]] eqn:Hc; [|done].
  unfold session_accept. destruct (revalidate _ w1) as [w2 [[]|e]]; [|done].
  destruct (retry_hello _ _ _ _) as [[w3 [b|e]]|] eqn:Hr; [|done|done].
  apply retry_hello_answer in Hr as (w4 & Hr).
  apply attempt_hello_Ok in Hr as (fd & limit & v0 & v1 & v2 & v3 & Ha & Hp & _ & Hh).
  apply passive_handshake_Ok in Hh as (Ht & Hw & Hn).
  intros [= <- <-]. simpl. split_and!; try done; [by eauto|]. by eauto 10.
Qed.

(** C20. Only what the compiled catalogue lists is admitted, with exactly the features it
    lists. If metadata qualified and a session was then accepted for it, the session is
    active with the feature mask of its catalogue entry (the one the daemon's rules were
    admitted for), it awaits the compositor's proof with no matcher bound, and its
    connection is one the verified process made, with the start time it was verified
    with. The entry is the only one of the pinned policy for that descriptor digest and
    build; it is a candidate only for an isolated virtual machine, and supported only by
    a policy of revision 2 with an approval. *)
Theorem admission_is_catalogued md w0 w1 adm fuel deadline w2 w3 se :
  catalogue_qualify md w0 = (w1, Ok adm) →
  accept_admitted fuel adm deadline w2 = Some (w3, Ok se) →
  feature_mask se = am_feature_mask adm ∧ se_matcher_bound se = false ∧
  br_awaiting_reconciliation (se_bridge se) = true ∧
  (∃ fd v1 v2 v3, br_transport (se_bridge se) = Some fd ∧
     accept_peer v1 (vm_peer md) deadline = (v2, Ok fd) ∧
     process_start (vm_peer md) v2 = (v3, Ok (vm_start_time md))) ∧
  ∃ policy entry, embedded policy ∧
    the_entry policy (vm_descriptor_digest md, d_build_id (vm_descriptor md)) entry ∧
    admission_feature_mask entry = feature_mask se ∧
    match entry with
    | AdmitCandidate e => se_qualification se = Candidate ∧ e_isolated_vm e = true
    | AdmitSupported e => se_qualification se = Supported ∧ policy_revision policy = 2 ∧
        s_approval_revision e ≠ 0
    end.
Proof.
  intros Hq Ha. unfold catalogue_qualify in Hq.
  apply LM_bind_Ok in Hq as (entry & v0 & [= <- Hs] & Hq).
  case_bool_decide as Hrev; simpl in Hq; [|done].
  apply LM_bind_Ok in Hq as ([] & v1 & _ & [= <- <-]).
  apply accept_admitted_Ok in Ha as (Hv & _ & Er & Hb & Hact & Hqu & fd & x1 & x2 & x3 & Ht &
    Haw & _ & Hpeer & Hstart). simpl in *.
  assert (feature_mask se = admission_feature_mask entry) as Hmask.
  { unfold feature_mask. rewrite Hact, Er. symmetry. by apply valid_capabilities_mask. }
  split_and!; [done|done|done|by eauto 10|].
  apply select_Ok in Hs as (policy & He & Hentry & Href). exists policy, entry.
  apply entry_capabilities in Href as [_ Hk].
  split_and!; [done|done|done|]. destruct entry; simpl in *; naive_solver.
Qed.

(** ** Reconnection *)


(** ** The retry loop ends *)

(** Admission does not retry forever. If the clock does not go back and every attempt
    that is retried takes time, then the loop gives one answer for every fuel above the
    nanoseconds left to its deadline: the value of the attempt that succeeded, an error
    that is not retried, or a timeout. *)
Theorem retries_end {T} (clock : W → Z) deadline (attempt : LM (W := W) T) w :
  (∀ w1 w2 n, l_monotonic_ns w1 = (w2, Ok n) → n = clock w2 ∧ clock w1 ≤ clock w2) →
  (∀ w1 w2 e, attempt w1 = (w2, Err e) → retryable e = true → clock w1 < clock w2) →
  ∃ w' r, (∀ fuel, (Z.to_nat (deadline - clock w) < fuel)%nat →
      retry_hello fuel deadline attempt w = Some (w', r)) ∧
    match r with
    | Ok v => ∃ w1, attempt w1 = (w', Ok v)
    | Err e => e = TimedOut ∨ (∃ w1, l_monotonic_ns w1 = (w', Err e)) ∨
        (retryable e = false ∧ ∃ w1, attempt w1 = (w', Err e))
    end.
Proof.
  intros Hc Ha.
  assert (∀ n w, (Z.to_nat (deadline - clock w) < n)%nat → ∃ x, ∀ fuel, (n ≤ fuel)%nat →
    retry_hello fuel deadline attempt w = Some x) as Hend.
  { intros n. induction n as [|n IH]; intros v Hn; [lia|].
    destruct (l_monotonic_ns v) as [v1 [t|e]] eqn:Et.
    2: { exists (v1, Err e). intros [|fuel] Hf; [lia|]. simpl. by rewrite Et. }
    destruct (Hc _ _ _ Et) as [-> Hle].
    destruct (decide (deadline ≤ clock v1)) as [Hd|Hd].
    { exists (v1, Err TimedOut). intros [|fuel] Hf; [lia|]. simpl.
      by rewrite Et, bool_decide_true. }
    destruct (attempt v1) as [v2 [x|e]] eqn:Ev.
    { exists (v2, Ok x). intros [|fuel] Hf; [lia|]. simpl.
      by rewrite Et, bool_decide_false, Ev. }
    destruct (retryable e) eqn:Er.
    2: { exists (v2, Err e). intros [|fuel] Hf; [lia|]. simpl.
         by rewrite Et, bool_decide_false, Ev, Er. }
    specialize (Ha _ _ _ Ev Er). destruct (IH v2 ltac:(lia)) as [x Hx].
    exists x. intros [|fuel] Hf; [lia|]. simpl.
    rewrite Et, bool_decide_false, Ev, Er by done. apply Hx. lia. }
  destruct (Hend (S (Z.to_nat (deadline - clock w))) w ltac:(lia)) as [[w' r] Hx].
  exists w', r. split; [intros fuel Hf; apply Hx; lia|].
  by eapply retry_hello_answer, Hx.
Qed.
End session.

(** ** A process cannot forge its identity *)

(** A process's start time is read from its [stat] line whatever the process calls
    itself. The name is between parentheses and is chosen by the process; it may hold
    blanks, parentheses and digits. As long as the fields after it hold no closing
    parenthesis (they are numbers and a state letter), the value is that of the twentieth
    field after the name, in decimal, and a missing, malformed or too large one is
    refused. *)
Theorem start_time_not_forged prefix name fields :
  Forall word fields → Forall (λ f, 41 ∉ f) fields →
  parse_start (prefix ++ 40 :: name ++ 41 :: spaced fields) =
    match fields !! 19%nat ≫= parse_u64 10 with
    | Some n => Ok n
    | None => Err PermissionDenied
    end ∧
  ∀ ds, fields !! 19%nat = Some (decimal ds) → ds ≠ [] → Forall (λ d, 0 ≤ d < 10) ds →
    digits_value 10 ds ≤ u64_max →
    parse_start (prefix ++ 40 :: name ++ 41 :: spaced fields) = Ok (digits_value 10 ds).
Proof.
  intros Hw Hp.
  assert (parse_start (prefix ++ 40 :: name ++ 41 :: spaced fields) =
    match fields !! 19%nat ≫= parse_u64 10 with
    | Some n => Ok n | None => Err PermissionDenied end) as Heq.
  { unfold parse_start. rewrite app_comm_cons, app_assoc.
    rewrite after_last_app; simpl.
    - rewrite split_spaced by done. destruct (fields !! 19%nat) as [f|]; [|done]. simpl.
      by destruct (parse_u64 10 f).
    - unfold spaced. rewrite list_elem_of_bind. intros (f & [?|Hin]%elem_of_cons & Hf); [done|].
      rewrite Forall_forall in Hp. by eapply Hp. }
  split; [done|]. intros ds Hf Hne Hd Hle. rewrite Heq, Hf. simpl.
  by rewrite parse_decimal.
Qed.

(** ** A simulated installation *)

Definition hex_a : string :=
  "aaaaaaaaaaaaaaaaaaaaaaaaaaaaaaaaaaaaaaaaaaaaaaaaaaaaaaaaaaaaaaaa".
Definition sim_entry : Entry := mkEntry hex_a "b" hex_a 1 1 true hex_a "/marker" hex_a.
Definition sim_descriptor : InstalledDescriptor :=
  mkDescriptor 1 1 "b" "/compositor" hex_a "a" "/plugin" hex_a 0.
Definition sim_metadata : VerifiedMetadata :=
  mkVerified sim_descriptor (mkPeer 1000 77) 5 hex_a.

#[export] Instance sim_artifacts : Artifacts := {|
  sha256_hex := λ _, hex_a;
  parse_descriptor := λ _, Some sim_descriptor;
  parse_policy := λ _, Some (mkPolicy 1 [AdmitCandidate sim_entry]);
  parse_acceptance := λ _, None;
  dev_major := λ _, 8;
  dev_minor := λ _, 1;
  catalogue_bytes := [x00];
  catalogue_pin := hex_a;
  acceptance_bytes := [];
  acceptance_pin := hex_a;
|}.

Definition sim_stat : string := "77 (a) Z (b)) S 1 2 3 4 5 6 7 8 9 1 2 3 4 5 6 7 8 9 5".
Definition sim_maps : string := "1000-2000 r-xp 0 8:1 42 /nix/store/p/bin".

#[export] Instance sim_files : Files SimLink := {|
  fs_geteuid := λ _, 1000;
  fs_canonicalize := λ w _, (w, Ok ["nix"; "store"; "p"; "bin"]);
  fs_metadata := λ w path,
    (w, Ok (mkMetadata true (if bool_decide (head path = Some "proc") then 1000 else 0)
              292 0 42 1));
  fs_read := λ w path n,
    (w, Ok (String.list_byte_of_string
              (if bool_decide (last path = Some "stat") then sim_stat else sim_maps)));
  fs_chunks := λ w _, (w, Ok (1, [Ok [x00]]));
  fs_guarded := λ w _ _, (w, Ok (mkMetadata true 0 292 0 7 1, Ok [x00]));
|}%string.
#[export] Instance sim_acceptor : Acceptor SimLink := {| accept_peer := λ w _ _, (w, Ok 3) |}.

Definition sim_admitted : AdmittedMetadata := mkAdmitted sim_metadata 1 Candidate.
Definition sim_world : SimLink := mkSimLink 1000 [sim_hello] [].

Lemma sim_qualified : catalogue_qualify sim_metadata sim_world = (sim_world, Ok sim_admitted).
Proof. vm_compute. reflexivity. Defined.

Definition sim_session : Session := mkSession sim_bridge 1 false true Candidate.

Lemma sim_accepted :
  accept_admitted 2 sim_admitted 20000000 sim_world =
    Some (mkSimLink 1000 [] [Wire.mkPacket (Wire.mkScope 0 0 0 0 9) (Wire.HelloAck sim_identity)],
          Ok sim_session).
Proof. vm_compute. reflexivity. Defined.

Lemma admission_is_catalogued_witness :
  feature_mask sim_session = 1 ∧ br_awaiting_reconciliation (se_bridge sim_session) = true.
Proof.
  destruct (admission_is_catalogued sim_metadata _ _ _ _ _ _ _ _ sim_qualified sim_accepted)
    as (Hm & _ & Ha & _). split; [exact Hm|exact Ha].
Defined.

Definition sim_dropped : Session := se_set_bridge sim_closed sim_session.


(** An attempt that times out after a nanosecond. *)
Lemma retries_end_witness :
  ∃ w' r, ∀ fuel, (Z.to_nat (1003 - 1000) < fuel)%nat →
    retry_hello fuel 1003
      (λ w : SimLink, (l_sleep w 1, Err TimedOut) : SimLink * Wire.IoResult unit)
      (mkSimLink 1000 [] []) = Some (w', r).
Proof.
  destruct (retries_end sl_clock 1003
    (λ w : SimLink, (l_sleep w 1, Err TimedOut) : SimLink * Wire.IoResult unit)
    (mkSimLink 1000 [] [])) as (w' & r & Hx & _).
  - intros w1 w2 n [= <- <-]. split; [done|lia].
  - intros w1 w2 e [= <- <-] _. simpl. lia.
  - exists w', r. exact Hx.
Defined.

(** A name that ends like a [stat] line of its own. *)
Definition sim_fields : list text := replicate 19 [48] ++ [decimal [1; 2; 3]].

Lemma start_time_not_forged_witness :
  parse_start (lit "77 " ++ 40 :: lit "a) Z (b)" ++ 41 :: spaced sim_fields) = Ok 123.
Proof.
  refine (proj2 (start_time_not_forged (lit "77 ") (lit "a) Z (b)") sim_fields _ _) [1; 2; 3]
    eq_refl _ _ _); [| |done| |done].
  - repeat constructor; done.
  - repeat constructor; apply (bool_decide_unpack _); vm_compute; exact I.
  - repeat constructor; lia.
Defined.
