(* ===== verification/Embed.v ===== *)
(** * What the build embeds (linux/build.rs)

    The build script, which copies the catalogue and the acceptance named by its
    environment into the crate, with their digests: the bytes and pins that Admission.v
    takes as given. A failed assertion or [expect] stops the build.

    An artifact is admitted at run time only if the build's environment named a
    catalogue, by absolute path, whose bytes have the digest the environment pinned;
    a build without these variables admits nothing. *)

From Stdlib Require Import Strings.Byte.
From S2P Require Import Prelude Bytes Text Protocol Wire Transactions Bridge BridgeThm Transport Desktop Daemon.
From S2P Require Import Admission.

(** The environment and the files the script reads: [fs::metadata] as [is_file] and
    [len], and [fs::read]. *)
Class BuildHost : Type := {
  bh_var_os : string → option string;
  bh_var : string → option string;
  bh_metadata : string → option (bool * Z);
  bh_read : string → option (list byte);
}.

Section build.
Context `{BuildHost}.

(** [embed]: the embedded bytes and the digest they are compiled with. *)
Definition embed (kind : string) : option (list byte * string) :=
  match bh_var_os ("SLEDGE_HYPRLAND_" +:+ kind +:+ "_PATH"),
        bh_var ("SLEDGE_HYPRLAND_" +:+ kind +:+ "_SHA256") with
  | None, None => Some ([], "")
  | Some path, Some pin =>
      if negb (String.prefix "/" path) then None
      else if negb (digest_syntax pin) then None
      else
        '(is_file, len) ← bh_metadata path;
        if is_file && bool_decide (len ≤ 65536) then bytes ← bh_read path; Some (bytes, pin)
        else None
  | _, _ => None
  end.

(** [main] *)
Definition build_main : option ((list byte * string) * (list byte * string)) :=
  catalogue ← embed "CATALOGUE";
  acceptance ← embed "ACCEPTANCE";
  Some (catalogue, acceptance).

(** The artifacts of the crate that was built: the libraries' functions with what
    [build_main] embedded. *)
Definition built (libraries : Artifacts)
    (embedded : (list byte * string) * (list byte * string)) : Artifacts := {|
  sha256_hex := sha256_hex;
  parse_descriptor := parse_descriptor;
  parse_policy := parse_policy;
  parse_acceptance := parse_acceptance;
  dev_major := dev_major;
  dev_minor := dev_minor;
  catalogue_bytes := embedded.1.1;
  catalogue_pin := embedded.1.2;
  acceptance_bytes := embedded.2.1;
  acceptance_pin := embedded.2.2;
|}.

(** [embedded] came from a file that the environment names and pins. *)
Definition pinned_file (libraries : Artifacts) (kind : string) (embedded : list byte * string) : Prop :=
  ∃ path, bh_var_os ("SLEDGE_HYPRLAND_" +:+ kind +:+ "_PATH") = Some path ∧
    bh_var ("SLEDGE_HYPRLAND_" +:+ kind +:+ "_SHA256") = Some embedded.2 ∧
    String.prefix "/" path = true ∧ bh_read path = Some embedded.1 ∧
    sha256_hex embedded.1 = embedded.2.

Lemma embed_pinned libraries kind embedded :
  embed kind = Some embedded → @unpinned libraries embedded.1 embedded.2 = false →
  pinned_file libraries kind embedded.
Proof.
  unfold embed, pinned_file. destruct (bh_var_os _) as [path|], (bh_var _) as [pin|]; try done.
  2: { by intros [= <-]. }
  destruct (String.prefix "/" path) eqn:Hp; [|done]. destruct (digest_syntax pin); [|done].
  simpl. destruct (bh_metadata path) as [[f len]|]; [|done]. simpl.
  destruct (f && _); [|done]. destruct (bh_read path) as [bytes|] eqn:Hr; [|done].
  intros [= <-]. simpl. unfold unpinned. rewrite !orb_false_iff.
  intros [_ Hd%negb_false_iff%bool_decide_eq_true]. eauto 10.
Qed.
End build.

(** Whatever is admitted at run time was put into the build on purpose: metadata
    qualifies only if the build's environment named a catalogue by absolute path and the
    embedded bytes are that file's, with the digest the environment pinned; and it
    qualifies as supported only if the same holds of the acceptance. *)
Theorem admission_is_built_in {W} `{BuildHost, Files W} libraries embedded (md : VerifiedMetadata)
    (w w' : W) adm :
  build_main = Some embedded →
  @catalogue_qualify W (built libraries embedded) _ md w = (w', Ok adm) →
  pinned_file libraries "CATALOGUE" embedded.1 ∧
  (am_qualification adm = Supported → pinned_file libraries "ACCEPTANCE" embedded.2).
Proof.
  unfold build_main. destruct (embed "CATALOGUE") as [cat|] eqn:Hc; [|done]. simpl.
  destruct (embed "ACCEPTANCE") as [acc|] eqn:Ha; [|done]. simpl. intros [= <-] Hq.
  unfold catalogue_qualify in Hq. apply LM_bind_Ok in Hq as (entry & v0 & [= <- Hs] & Hq).
  case_bool_decide; simpl in Hq; [|done].
  apply LM_bind_Ok in Hq as ([] & v1 & Hv & [= <- <-]). split.
  - eapply embed_pinned; [exact Hc|]. unfold select_embedded, select in Hs. simpl in Hs.
    destruct (unpinned cat.1 cat.2) eqn:Hu; [done|exact Hu].
  - simpl. destruct entry as [e|e]; [done|]. intros _. eapply embed_pinned; [exact Ha|].
    simpl in Hv. injection Hv as _ Hv. unfold verify_acceptance in Hv.
    by destruct (unpinned acc.1 acc.2).
Qed.

(** A build whose environment has none of the variables admits nothing. *)
Theorem plain_build_admits_nothing {W} `{BuildHost, Files W} libraries (md : VerifiedMetadata) (w w' : W) r :
  (∀ name, bh_var_os name = None) → (∀ name, bh_var name = None) →
  ∃ embedded, build_main = Some embedded ∧
    (@catalogue_qualify W (built libraries embedded) _ md w = (w', r) → r = Err PermissionDenied).
Proof.
  intros Ho Hv. exists (([], ""), ([], "")). unfold build_main, embed. rewrite !Ho, !Hv. split; [done|].
  unfold catalogue_qualify, mbind, LM_bind. simpl. by intros [= _ <-].
Qed.
