(* ===== verification/Listener.v ===== *)
(** * Private endpoints

    packages/linux/src/hyprland/listener.rs (the endpoint the compositor connects to),
    [Transport::connect] of transport.rs and the control socket's [SocketGuard] of
    packages/linux/src/ipc.rs. Directories, names and inodes are reached through the
    class [Endpoint]; a directory is named by its descriptor, so lookups cannot be
    redirected. *)

From Stdlib Require Import Strings.Byte.
From S2P Require Import Prelude Protocol Wire Transactions Bridge Transport TransportThm.
From S2P Require Import Desktop Daemon Admission.

(** [struct stat], as far as it is read *)
Record Stat : Type := mkStat { st_uid : Z; st_mode : Z; st_dev : Z; st_ino : Z }.

(** A path: whether it starts at the root, and its components. *)
Record Path : Type := mkPath { p_absolute : bool; p_components : list string }.

(** [Path::parent] and [Path::file_name] *)
Definition parent (p : Path) : option Path :=
  match p_components p with
  | [] => None
  | c => Some (mkPath (p_absolute p) (removelast c))
  end.
Definition file_name (p : Path) : option string :=
  name ← last (p_components p); if bool_decide (name = "..") then None else Some name.

Class Endpoint (W : Type) : Type := {
  (** [open(O_DIRECTORY | O_NOFOLLOW | O_CLOEXEC)] *)
  ep_open : W → Path → W * result Errno Z;
  ep_fstat : W → Z → W * result Errno Stat;
  (** [fstatat(AT_SYMLINK_NOFOLLOW)] and [symlink_metadata] of a name in a directory *)
  ep_fstatat : W → Z → string → W * result Errno Stat;
  (** [socket(AF_UNIX, SOCK_SEQPACKET)], [bind], [connect], [chmod 0600], [listen] *)
  ep_socket : W → W * result Errno Z;
  ep_bind : W → Z → Z → string → W * result Errno unit;
  ep_connect : W → Z → Z → string → W * result Errno unit;
  ep_private : W → Z → string → W * result Errno unit;
  ep_listen : W → Z → W * result Errno unit;
  (** [getsockopt(SO_ERROR)]; an [Err] is the pending error *)
  ep_socket_error : W → Z → W * result Errno unit;
  ep_accept4 : W → Z → W * result Errno Z;
  ep_unlinkat : W → Z → string → W;
}.

(** [mode & 0o077] *)
Definition shared (mode : Z) : bool := negb (bool_decide (Z.land mode 63 = 0)).
(** [SFlag::from_bits_truncate(mode) == S_IFSOCK] *)
Definition is_socket (mode : Z) : bool := bool_decide (Z.land mode 61440 = 49152).

Definition POLLHUP : Z := 16.
Definition POLLNVAL : Z := 32.

(** [Listener], and [SocketGuard] with the bound socket *)
Record Listener : Type := mkListener {
  ln_fd : Z;
  ln_directory : Z;
  ln_name : string;
  ln_device : Z;
  ln_inode : Z;
  ln_uid : Z;
}.

Section listener.
Context {W : Type} `{Socket W, Endpoint W}.

(** The private directory of an endpoint, opened: descriptor, name and user. *)
Definition open_private (path : Path) : TM (W := W) (Z * string * Z) :=
  if negb (p_absolute path) then tfail PermissionDenied
  else
    match parent path, file_name path with
    | Some dir, Some name =>
        syscall (λ w, ep_open w dir) ≫= λ directory,
        syscall (λ w, ep_fstat w directory) ≫= λ stat,
        tlift (λ w, (w, Ok (sys_geteuid w))) ≫= λ uid,
        if negb (bool_decide (st_uid stat = uid)) || shared (st_mode stat)
        then tfail PermissionDenied else mret (directory, name, uid)
    | _, _ => tfail PermissionDenied
    end.

(** [Drop] of [Listener] *)
Definition listener_drop (self : Listener) (w : W) : W :=
  match ep_fstatat w (ln_directory self) (ln_name self) with
  | (w, Ok stat) =>
      if bool_decide (st_dev stat = ln_device self) && bool_decide (st_ino stat = ln_inode self) &&
         bool_decide (st_uid stat = ln_uid self)
      then ep_unlinkat w (ln_directory self) (ln_name self) else w
  | (w, Err _) => w
  end.

(** [Drop] of [SocketGuard] (ipc.rs), which does the same. *)
Definition guard_release (self : Listener) (w : W) : W := listener_drop self w.

(** An error after the endpoint is owned drops it. *)
Definition dropping {X} (self : Listener) (m : TM (W := W) X) : TM (W := W) X := λ w,
  match m w with
  | Some (w, Err e) => Some (listener_drop self w, Err e)
  | r => r
  end.

(** [Listener::bind] *)
Definition listener_bind (path : Path) : TM (W := W) Listener :=
  open_private path ≫= λ '(directory, name, uid),
  syscall ep_socket ≫= λ fd,
  syscall (λ w, ep_bind w fd directory name) ≫= λ _,
  syscall (λ w, ep_fstatat w directory name) ≫= λ stat,
  let listener := mkListener fd directory name (st_dev stat) (st_ino stat) uid in
  dropping listener
    (syscall (λ w, ep_private w directory name) ≫= λ _,
     syscall (λ w, ep_listen w fd) ≫= λ _, mret listener).

(** The endpoint is not the private one that was bound. *)
Definition endpoint_changed (self : Listener) (dir endpoint : Stat) : bool :=
  negb (bool_decide (st_uid dir = ln_uid self)) || shared (st_mode dir) ||
  negb (bool_decide (st_uid endpoint = ln_uid self)) || shared (st_mode endpoint) ||
  negb (bool_decide (st_dev endpoint = ln_device self)) ||
  negb (bool_decide (st_ino endpoint = ln_inode self)).

(** [Listener::verify_endpoint] *)
Definition verify_endpoint (self : Listener) : TM (W := W) unit :=
  syscall (λ w, ep_fstat w (ln_directory self)) ≫= λ dir,
  syscall (λ w, ep_fstatat w (ln_directory self) (ln_name self)) ≫= λ endpoint,
  if endpoint_changed self dir endpoint then tfail PermissionDenied else mret ().

(** [Listener::accept] *)
Definition listener_accept (fuel : nat) (self : Listener) (peer : Peer) (deadline_ns : Z) :
    TM (W := W) Z :=
  verify_endpoint self ≫= λ _,
  wait_readable fuel (ln_fd self) deadline_ns ≫= λ _,
  verify_endpoint self ≫= λ _,
  syscall (λ w, ep_accept4 w (ln_fd self)) ≫= λ fd,
  authenticate fd peer ≫= λ _,
  verify_endpoint self ≫= λ _,
  expired deadline_ns ≫= λ _, mret fd.

(** The end of a connect in progress: what [poll] reported and [SO_ERROR]. *)
Definition finish_connect (fuel : nat) (fd deadline_ns : Z) : TM (W := W) unit :=
  wait_ready fuel fd POLLOUT deadline_ns ≫= λ readiness,
  syscall (λ w, ep_socket_error w fd) ≫= λ _,
  if negb (bool_decide (Z.land readiness POLLOUT = POLLOUT)) ||
     negb (bool_decide (Z.land readiness (Z.lor POLLHUP POLLNVAL) = 0))
  then tfail ConnectionReset else mret ().

(** [Transport::connect] *)
Definition transport_connect (fuel : nat) (path : Path) (peer : Peer) (deadline_ns : Z) :
    TM (W := W) Z :=
  tlift (λ w, (w, Ok (sys_geteuid w))) ≫= λ euid,
  if negb (p_absolute path) || negb (bool_decide (peer_uid peer = euid)) ||
     bool_decide (peer_pid peer ≤ 0)
  then tfail PermissionDenied
  else
    match parent path, file_name path with
    | Some dir, Some name =>
        syscall (λ w, ep_open w dir) ≫= λ directory,
        syscall (λ w, ep_fstat w directory) ≫= λ stat,
        if negb (bool_decide (st_uid stat = peer_uid peer)) || shared (st_mode stat)
        then tfail PermissionDenied
        else
          syscall (λ w, ep_fstatat w directory name) ≫= λ metadata,
          if negb (bool_decide (st_uid metadata = peer_uid peer)) || shared (st_mode metadata) ||
             negb (is_socket (st_mode metadata))
          then tfail PermissionDenied
          else
            syscall ep_socket ≫= λ fd,
            tsys (λ w, ep_connect w fd directory name) ≫= λ r,
            match r with
            | Ok _ => mret ()
            | Err EINPROGRESS => finish_connect fuel fd deadline_ns
            | Err e => tfail (errno_kind e)
            end ≫= λ _,
            authenticate fd peer ≫= λ _,
            expired deadline_ns ≫= λ _, mret fd
    | _, _ => tfail PermissionDenied
    end.

(** [SocketGuard::bind]; [not_found] tells the error of a name that is not there. *)
Definition guard_bind (not_found : Errno → bool) (path : Path) : TM (W := W) Listener :=
  open_private path ≫= λ '(directory, name, uid),
  tsys (λ w, ep_fstatat w directory name) ≫= λ r,
  match r with
  | Ok _ => tfail OtherKind
  | Err e => if not_found e then mret () else tfail (errno_kind e)
  end ≫= λ _,
  syscall ep_socket ≫= λ fd,
  syscall (λ w, ep_bind w fd directory name) ≫= λ _,
  syscall (λ w, ep_listen w fd) ≫= λ _,
  syscall (λ w, ep_fstatat w directory name) ≫= λ stat,
  let guard := mkListener fd directory name (st_dev stat) (st_ino stat) uid in
  dropping guard (syscall (λ w, ep_private w directory name) ≫= λ _, mret guard).

(** [default_socket_path], on the value of XDG_RUNTIME_DIR *)
Definition default_socket_path (runtime : option Path) : TM (W := W) Path :=
  match runtime with
  | None => tfail PermissionDenied
  | Some parent =>
      if negb (p_absolute parent) then tfail PermissionDenied
      else
        syscall (λ w, ep_open w parent) ≫= λ fd,
        syscall (λ w, ep_fstat w fd) ≫= λ metadata,
        tlift (λ w, (w, Ok (sys_geteuid w))) ≫= λ euid,
        if negb (bool_decide (st_uid metadata = euid)) || shared (st_mode metadata)
        then tfail PermissionDenied
        else mret (mkPath true (p_components parent ++ ["sledge.sock"]))
  end.
End listener.

(** ** Only the expected process gets in *)

Section accept.
Context {W : Type} `{SocketLaws W, Endpoint W}.

Lemma TM_bind_Ok {X Y} (m : TM (W := W) X) (f : X → TM Y) w w' y :
  (m ≫= f) w = Some (w', Ok y) → ∃ x w1, m w = Some (w1, Ok x) ∧ f x w1 = Some (w', Ok y).
Proof. unfold mbind, TM_bind. destruct (m w) as [[w1 [x|e]]|]; [eauto|done|done]. Qed.

Lemma syscall_Ok {X} (f : W → W * result Errno X) w w' x :
  syscall f w = Some (w', Ok x) → f w = (w', Ok x).
Proof. unfold syscall. destruct (f w) as [w1 [y|e]]; [by intros [= <- <-]|done]. Qed.

(** The credentials of [fd] were read and are the peer's. *)
Definition authentic (fd : Z) (peer : Peer) : Prop :=
  ∃ w1 w2, sys_peer_credentials w1 fd = (w2, Ok (peer_uid peer, peer_pid peer)) ∧
    0 < peer_pid peer ∧ peer_uid peer = sys_geteuid w2.

Lemma authenticate_Ok fd peer w w' : authenticate fd peer w = Some (w', Ok ()) → authentic fd peer.
Proof.
  unfold authenticate. intros ([uid pid] & w1 & Hc%syscall_Ok & Hd)%TM_bind_Ok.
  apply TM_bind_Ok in Hd as (euid & w2 & [= <- <-] & Hd).
  destruct (wrong_peer peer _ _) eqn:Hw; [done|]. unfold wrong_peer in Hw. simpl in Hw. bools.
  subst. exists w, w1. split_and!; [done|lia|done].
Qed.

(** The endpoint was seen to be the private one that was bound. *)
Definition unchanged (self : Listener) : Prop :=
  ∃ w1 w2 w3 dir endpoint,
    ep_fstat w1 (ln_directory self) = (w2, Ok dir) ∧
    ep_fstatat w2 (ln_directory self) (ln_name self) = (w3, Ok endpoint) ∧
    st_uid dir = ln_uid self ∧ st_uid endpoint = ln_uid self ∧
    st_dev endpoint = ln_device self ∧ st_ino endpoint = ln_inode self ∧
    shared (st_mode dir) = false ∧ shared (st_mode endpoint) = false.

Lemma verify_endpoint_Ok self w w' : verify_endpoint self w = Some (w', Ok ()) → unchanged self.
Proof.
  unfold verify_endpoint. intros (dir & w1 & Hd%syscall_Ok & He)%TM_bind_Ok.
  apply TM_bind_Ok in He as (endpoint & w2 & He%syscall_Ok & Hc).
  destruct (endpoint_changed self dir endpoint) eqn:Hx; [done|].
  unfold endpoint_changed in Hx. bools. by exists w, w1, w2, dir, endpoint.
Qed.

(** A connection is handed out only when it is the expected process's: the kernel's
    credentials of the accepted descriptor are the very user and process that were asked
    for, that user is this one, and after they were read the endpoint was still the private
    file that was bound, in a directory of the same user that nobody else can enter, and
    the deadline had not passed. So no other process can inject decisions, also not by
    racing for the name of the endpoint. *)
Theorem accept_is_authentic fuel self peer deadline (w w' : W) fd :
  listener_accept fuel self peer deadline w = Some (w', Ok fd) →
  authentic fd peer ∧ unchanged self ∧ now w' < deadline.
Proof.
  unfold listener_accept. intros ([] & w1 & _ & Ha)%TM_bind_Ok.
  apply TM_bind_Ok in Ha as ([] & w2 & _ & Ha). apply TM_bind_Ok in Ha as ([] & w3 & _ & Ha).
  apply TM_bind_Ok in Ha as (fd' & w4 & _ & Ha).
  apply TM_bind_Ok in Ha as ([] & w5 & Hp%authenticate_Ok & Ha).
  apply TM_bind_Ok in Ha as ([] & w6 & Hv%verify_endpoint_Ok & Ha).
  apply TM_bind_Ok in Ha as ([] & w7 & He & [= <- <-]).
  pose proof (wp_expired false deadline w6) as Hx. unfold wp in Hx. rewrite He in Hx.
  split_and!; [done|done|by apply Hx].
Qed.
End accept.

(** The listener as the acceptor of an admitted session. *)
Section acceptor.
Context {W : Type} `{SocketLaws W, Endpoint W}.

Definition Listener_acceptor (self : Listener) : Acceptor W := {|
  accept_peer := λ w peer deadline,
    run w (listener_accept (enough w deadline) self peer deadline);
|}.
End acceptor.

(** ** A simulated endpoint *)

(** One private directory with one socket in it; the next connection is descriptor 5. *)
#[export] Instance SimSocket_endpoint : Endpoint SimSocket := {|
  ep_open := λ w _, (w, Ok 4);
  ep_fstat := λ w _, (w, Ok (mkStat 1000 448 1 2));
  ep_fstatat := λ w _ _, (w, Ok (mkStat 1000 49536 1 9));
  ep_socket := λ w, (w, Ok 6);
  ep_bind := λ w _ _ _, (w, Ok ());
  ep_connect := λ w _ _ _, (w, Ok ());
  ep_private := λ w _ _, (w, Ok ());
  ep_listen := λ w _, (w, Ok ());
  ep_socket_error := λ w _, (w, Ok ());
  ep_accept4 := λ w _, (w, Ok 5);
  ep_unlinkat := λ w _ _, w;
|}.

Definition sim_listener : Listener := mkListener 6 4 "shp1" 1 9 1000.

Lemma accept_is_authentic_witness :
  authentic (W := SimSocket) 5 (mkPeer 1000 77) ∧ unchanged (W := SimSocket) sim_listener.
Proof.
  destruct (accept_is_authentic 9 sim_listener (mkPeer 1000 77) 2000
    (mkSimSocket 1000 0 [[]] [] []) (mkSimSocket 1000 0 [[]] [] []) 5) as (H1 & H2 & _).
  - vm_compute. reflexivity.
  - split; [exact H1|exact H2].
Defined.
