(* ===== verification/Logging.v ===== *)
(** * Log files, log levels and default paths (packages/cli/src/logging.rs)

    Paths are the strings the process has; [path_join] is [Path::join] of a plain name. The
    environment and the home directories are the class [Environment]; the tracing
    subscriber, its filters and the log file are the class [Subscriber]. A filter is named
    by the directive it was parsed from. *)

From Stdlib Require Import Ascii.
From S2P Require Import Prelude Event Rule Config.

(** ** Errors with their context *)

(** [anyhow::Error]: the messages, the outermost first *)
Definition AnyError : Type := list string.
Definition context {A} (c : string) (r : result AnyError A) : result AnyError A :=
  match r with Ok x => Ok x | Err e => Err (c :: e) end.
(** [Option::context] and an error of another type *)
Definition some_or {A} (o : option A) (c : string) : result AnyError A := ok_or o [c].
Definition any {A} (r : result string A) : result AnyError A :=
  match r with Ok x => Ok x | Err e => Err [e] end.

(** ** Paths *)

Definition slash : Ascii.ascii := "/"%char.
Fixpoint last_char (s : string) : option Ascii.ascii :=
  match s with
  | EmptyString => None
  | String c EmptyString => Some c
  | String _ s => last_char s
  end.
(** [Path::join] of a relative name *)
Definition path_join (base name : string) : string :=
  match last_char base with
  | None => name
  | Some c => if bool_decide (c = slash) then String.append base name
              else String.append base (String slash name)
  end.

Class Environment (W : Type) : Type := {
  (** [std::env::var] *)
  en_var : W → string → option string;
  (** the crate dirs *)
  en_home_dir : W → option string;
  en_state_dir : W → option string;
  en_data_local_dir : W → option string;
  (** [Path::exists] *)
  en_exists : W → string → bool;
}.

Section paths.
Context {W : Type} `{Environment W}.

Definition config_under (dir : string) : string := path_join (path_join dir "sledge") "config.toml".

(** [default_config_path]: after XDG_CONFIG_HOME, what is in the home directory *)
Definition config_in_home (platform : Platform) (w : W) : option string :=
  home ← en_home_dir w;
  let xdg_path := config_under (path_join home ".config") in
  if en_exists w xdg_path then Some xdg_path
  else if bool_decide (platform = MacOS) then
    let app_support := config_under (path_join (path_join home "Library") "Application Support") in
    if en_exists w app_support then Some app_support else Some xdg_path
  else Some xdg_path.
Definition default_config_path (platform : Platform) (w : W) : option string :=
  match en_var w "XDG_CONFIG_HOME" with
  | Some xdg =>
      if negb (bool_decide (xdg = "")) then Some (config_under xdg) else config_in_home platform w
  | None => config_in_home platform w
  end.

(** [log_dir] *)
Definition log_dir (platform : Platform) (w : W) : result AnyError string :=
  if bool_decide (platform = MacOS) then
    home ← some_or (en_home_dir w) "locating $HOME";
    Ok (path_join (path_join (path_join home "Library") "Logs") "sledge")
  else
    base ← some_or (match en_state_dir w with Some d => Some d | None => en_data_local_dir w end)
      "locating state dir";
    Ok (path_join base "sledge").
End paths.

(** ** The level *)

(** [EnvFilter::try_new]: what is wrong with a directive, if anything *)
Class EnvFilters : Type := directive_error : string → option string.

Inductive LevelError : Type :=
  | ReloadHandle (e : string)
  | InvalidLevel (level e : string).

(** [apply_level] on the filter in force; [handle] is what the reload handle answers. *)
Definition apply_level `{EnvFilters} (handle : result string unit) (filter level : string) :
    string * result LevelError unit :=
  match directive_error level with
  | Some e =>
      match handle with
      | Err re => (filter, Err (ReloadHandle re))
      | Ok _ => ("info", Err (InvalidLevel level e))
      end
  | None =>
      match handle with
      | Err e => (filter, Err (ReloadHandle e))
      | Ok _ => (level, Ok ())
      end
  end.

(** The filter [init] starts with *)
Definition initial_filter `{EnvFilters} (level : string) : string :=
  match directive_error level with Some _ => "info" | None => level end.

(** ** The log file *)

(** [rolling::daily] on a directory and [registry.init], which panic when the file cannot be
    created or a subscriber is already installed, and the drop of the guard *)
Class Subscriber (W : Type) : Type := {
  lg_create_dir_all : W → string → W * result string unit;
  lg_install : W → string → string → bool → option W;
  lg_flush : W → W;
}.

(** [init]; [None] is a panic. *)
Definition logging_init {W} `{Environment W, Subscriber W, EnvFilters} (platform : Platform)
    (level : string) (also_stdout : bool) (w : W) : option (W * result AnyError unit) :=
  match log_dir platform w with
  | Err e => Some (w, Err e)
  | Ok dir =>
      match lg_create_dir_all w dir with
      | (w, Err e) => Some (w, Err [String.append "creating " dir; e])
      | (w, Ok _) => w ← lg_install w dir (initial_filter level) also_stdout; Some (w, Ok ())
      end
  end.

(** ** What they guarantee *)

(** After a change of level the daemon logs at the level it was given, or at info when
    that level is no directive, or as before when there is no subscriber left; it says
    [Ok] in the first case only. *)
Lemma apply_level_spec `{EnvFilters} handle filter level :
  let '(filter', r) := apply_level handle filter level in
  (r = Ok () ↔ directive_error level = None ∧ is_ok handle = true) ∧
  filter' = if is_ok handle then initial_filter level else filter.
Proof.
  unfold apply_level, initial_filter.
  destruct (directive_error level), handle; simpl; (split; [|done]); naive_solver.
Qed.

(** The file is looked for in one place: an explicit XDG_CONFIG_HOME, or the first of the
    home's candidates that exists, or, when none does, the canonical path. *)
Lemma default_config_path_spec {W} `{Environment W} platform (w : W) home :
  en_home_dir w = Some home →
  let canonical := config_under (path_join home ".config") in
  let native := config_under (path_join (path_join home "Library") "Application Support") in
  default_config_path platform w = Some
    (match en_var w "XDG_CONFIG_HOME" with
     | Some (String _ _ as xdg) => config_under xdg
     | _ =>
         if negb (en_exists w canonical) && bool_decide (platform = MacOS) && en_exists w native
         then native else canonical
     end).
Proof.
  intros Hh canonical native. unfold default_config_path, config_in_home. rewrite Hh. simpl.
  destruct (en_var w "XDG_CONFIG_HOME") as [[|a s]|]; simpl; [|done|].
  all: fold canonical native; destruct (en_exists w canonical); simpl; [done|].
  all: destruct (bool_decide (platform = MacOS)); simpl; [|done]; by destruct (en_exists w native).
Qed.
