(* ===== verification/Lifecycle.v ===== *)
(** * The broker service (packages/linux/src/lifecycle.rs, logind.rs and
      bin/sledge-linux-broker.rs)

    Discovery of the keyboards of a seat, the reconciliation of the proxies with
    what is plugged in, the session proofs read from logind, and the loop that
    serves one client after another. The device nodes, the udev database and the
    system bus are operations of the classes [Devices] and [Bus]; the proxies are
    those of Broker.v. *)

From Stdlib Require Import Strings.Byte.
From S2P Require Import Prelude Bytes Text Protocol KeyState Authorization Broker BrokerInv.

(** ** A state and error monad over any state *)

Definition IO (S X : Type) : Type := S → S * result IoErrorKind X.
#[global] Hint Opaque IO : typeclass_instances.
#[global] Instance IO_ret {S} : MRet (IO S) := λ X x s, (s, Ok x).
#[global] Instance IO_bind {S} : MBind (IO S) := λ X Y f m s,
  match m s with
  | (s, Ok x) => f x s
  | (s, Err e) => (s, Err e)
  end.
Definition io_fail {S X} (e : IoErrorKind) : IO S X := λ s, (s, Err e).
Definition io_lift {S X} (r : result IoErrorKind X) : IO S X := λ s, (s, r).
Definition io_guard {S} (refused : bool) : IO S unit :=
  if refused then io_fail PermissionDenied else mret ().
Fixpoint io_each {S X} (f : X → IO S unit) (l : list X) : IO S unit :=
  match l with
  | [] => mret ()
  | x :: l => f x ≫= λ _, io_each f l
  end.

(** ** The file system below the service *)

(** What is read of a file's metadata. *)
Record Node : Type := mkNode {
  nd_is_file : bool;
  nd_is_dir : bool;
  nd_is_char_device : bool;
  nd_uid : Z;
  nd_mode : Z;
  nd_dev : Z;
  nd_ino : Z;
  nd_rdev : Z;
}.

Class Devices (W : Type) : Type := {
  (** [nix::sys::stat::major] and [minor] *)
  dv_major : Z → Z;
  dv_minor : Z → Z;
  (** [fs::read_dir("/dev/input")]: a name that is not UTF-8 is [None]. *)
  dv_read_dir : IO W (list (result IoErrorKind (option string)));
  (** [fs::symlink_metadata] *)
  dv_lstat : string → IO W Node;
  (** The file c<major>:<minor> of /run/udev/data, opened without following a
      link: its metadata and its bytes. *)
  dv_udev : Z → Z → IO W (result IoErrorKind Node * result IoErrorKind (list byte));
  (** [OpenOptions::open] of an input node, [File::metadata], and the close of the
      descriptor. *)
  dv_open : string → IO W Z;
  dv_fstat : Z → IO W Node;
  dv_close : Z → W → W;
  (** [thread::sleep] of 25 ms *)
  dv_sleep : W → W;
}.

(** [struct DeviceIdentity] *)
Record DeviceIdentity : Type := mkDeviceIdentity {
  di_path : string;
  di_device : Z;
  di_inode : Z;
  di_rdev : Z;
  di_seat : string;
}.

#[export] Instance DeviceIdentity_eq_dec : EqDecision DeviceIdentity.
Proof. solve_decision. Defined.

(** [metadata.mode() & 0o022 != 0] *)
Definition group_writable (mode : Z) : bool := negb (bool_decide (Z.land mode 18 = 0)).

(** A character of a seat name; a character above ASCII has a byte that is refused. *)
Definition seat_char (c : Z) : bool :=
  bool_decide (48 ≤ c ≤ 57) || bool_decide (65 ≤ c ≤ 90) || bool_decide (97 ≤ c ≤ 122) ||
  bool_decide (c = 95) || bool_decide (c = 45).

(** An ASCII text as a string. *)
Definition ascii_string (t : text) : string :=
  String.string_of_list_byte ((λ c, default x00 (Byte.of_N (Z.to_N c))) <$> t).

(** The seat a udev record names. *)
Definition record_seat (data : text) : result IoErrorKind string :=
  if negb (existsb (λ line, bool_decide (line = lit "E:ID_INPUT_KEYBOARD=1")) (lines data))
  then Err PermissionDenied
  else
    let seat := default (lit "seat0") (head (omap (strip_prefix (lit "E:ID_SEAT=")) (lines data))) in
    if bool_decide (seat = []) || bool_decide (128 < length seat)%nat || negb (forallb seat_char seat)
    then Err PermissionDenied else Ok (ascii_string seat).

(** [take(65_537).read_to_string] and the bound on what was read. *)
Definition bounded_text (contents : list byte) : result IoErrorKind text :=
  let read := take (Z.to_nat 65537) contents in
  match from_utf8 read with
  | None => Err InvalidData
  | Some data =>
      if bool_decide (65536 < Z.of_nat (length read)) then Err PermissionDenied else Ok data
  end.

Section discovery.
Context {W : Type} `{Devices W}.

(** [seat_for] *)
Definition seat_for (rdev : Z) : IO W string :=
  dv_udev (dv_major (W := W) rdev) (dv_minor (W := W) rdev) ≫= λ '(metadata, contents),
  io_lift metadata ≫= λ metadata,
  io_guard (negb (nd_is_file metadata) || negb (bool_decide (nd_uid metadata = 0)) ||
            group_writable (nd_mode metadata)) ≫= λ _,
  io_lift contents ≫= λ contents,
  io_lift (bounded_text contents) ≫= λ data, io_lift (record_seat data).

(** [name.strip_prefix("event")] followed by one digit at least and digits only *)
Definition event_node (name : string) : bool :=
  match strip_prefix (lit "event") (lit name) with
  | Some number =>
      negb (bool_decide (number = [])) && forallb (λ c, bool_decide (48 ≤ c ≤ 57)) number
  | None => false
  end.

(** [Path::join]: [entry.path()] *)
Definition input_path (name : string) : string := ("/dev/input/" ++ name)%string.

(** [if let Ok(seat) = seat_for(..)]: a node without a trusted seat is omitted. *)
Definition identify (path : string) (metadata : Node) : IO W (option DeviceIdentity) := λ w,
  match seat_for (nd_rdev metadata) w with
  | (w, Ok seat) =>
      (w, Ok (Some (mkDeviceIdentity path (nd_dev metadata) (nd_ino metadata)
                      (nd_rdev metadata) seat)))
  | (w, Err _) => (w, Ok None)
  end.

(** One entry of [discover_keyboards]; [None] when it is skipped by a [continue]. *)
Definition discover_entry (entry : result IoErrorKind (option string)) :
    IO W (option (option DeviceIdentity)) :=
  io_lift entry ≫= λ name : option string,
  match name with
  | Some name =>
      if event_node name then
        dv_lstat (input_path name) ≫= λ metadata,
        if negb (nd_is_char_device metadata) ||
           negb (bool_decide (dv_major (W := W) (nd_rdev metadata) = 13))
        then mret (M := IO W) None
        else identify (input_path name) metadata ≫= λ found, mret (M := IO W) (Some found)
      else mret (M := IO W) None
  | None => mret (M := IO W) None
  end.

(** The loop of [discover_keyboards]. *)
Fixpoint discover_entries (devices : list DeviceIdentity)
    (entries : list (result IoErrorKind (option string))) : IO W (list DeviceIdentity) :=
  match entries with
  | [] => mret devices
  | entry :: entries =>
      discover_entry entry ≫= λ found,
      match found with
      | None => discover_entries devices entries
      | Some found =>
          let devices := devices ++ option_list found in
          io_guard (bool_decide (64 < length devices)%nat) ≫= λ _,
          discover_entries devices entries
      end
  end.

(** [discover_keyboards] *)
Definition discover_keyboards : IO W (list DeviceIdentity) :=
  dv_read_dir ≫= discover_entries [].

(** [verify_broker_directory] *)
Definition verify_broker_directory (path : string) : IO W unit :=
  dv_lstat path ≫= λ metadata,
  io_guard (negb (nd_is_dir metadata) || negb (bool_decide (nd_uid metadata = 0)) ||
            group_writable (nd_mode metadata)).
End discovery.

(** ** The proxies of a client *)

(** [struct ProxyLifecycle]; the map is in the order of its keys. *)
Record ProxyLifecycle : Type := mkProxyLifecycle {
  lc_proxies : list (string * (DeviceIdentity * DeviceProxy));
  lc_generation : Z;
}.

Definition ProxyLifecycle_default : ProxyLifecycle := mkProxyLifecycle [] 0.

(** [BTreeMap::insert] of a key that is absent, [remove] and [contains_key] *)
Fixpoint proxies_insert {V} (k : string) (v : V) (l : list (string * V)) : list (string * V) :=
  match l with
  | [] => [(k, v)]
  | (k', v') :: l => if String.ltb k k' then (k, v) :: (k', v') :: l else (k', v') :: proxies_insert k v l
  end.
Definition proxies_remove {V} (k : string) (l : list (string * V)) : list (string * V) :=
  filter (λ kv, kv.1 ≠ k) l.
Definition proxies_get {V} (k : string) (l : list (string * V)) : option V :=
  snd <$> head (filter (λ kv, kv.1 = k) l).

Section lifecycle.
Context {W A : Type} `{Kernel W, Devices W, SessionAuthority A}.

Definition LSt : Type := ProxyLifecycle * W * A.

(** Kernel calls, and the authority's answers. *)
Definition on_world {X} (m : IO W X) : IO LSt X := λ '(l, w, a),
  let '(w, r) := m w in ((l, w, a), r).
Definition on_authority {X} (m : A → A * result IoErrorKind X) : IO LSt X := λ '(l, w, a),
  let '(a, r) := m a in ((l, w, a), r).
Definition lifecycle : IO LSt ProxyLifecycle := λ s, (s, Ok s.1.1).
Definition set_lifecycle (f : ProxyLifecycle → ProxyLifecycle) : IO LSt unit := λ '(l, w, a),
  ((f l, w, a), Ok ()).
Definition set_proxies ps (l : ProxyLifecycle) : ProxyLifecycle :=
  mkProxyLifecycle ps (lc_generation l).
Definition close_file (fd : Z) : IO LSt unit := λ '(l, w, a), ((l, dv_close fd w, a), Ok ()).

(** [Drop for DeviceProxy], then the close of its descriptors. *)
Definition drop_proxy (d : DeviceProxy) (w : W) (a : A) : W * A :=
  let '(d, w, a) := (bypass (d, w, a)).1 in (dv_close (px_fd d) w, a).

(** [self.proxies.clear()] *)
Definition drop_all (ps : list (string * (DeviceIdentity * DeviceProxy))) (w : W) (a : A) : W * A :=
  fold_left (λ '(w, a) kv, drop_proxy kv.2.2 w a) ps (w, a).
Definition clear : IO LSt unit := λ '(l, w, a),
  let '(w, a) := drop_all (lc_proxies l) w a in ((set_proxies [] l, w, a), Ok ()).

(** [m] on a local proxy, which is dropped at the end of its scope when [m] failed. *)
Definition on_proxy {X} (d : DeviceProxy) (m : M (W := W) (A := A) X) : IO LSt (DeviceProxy * X) :=
  λ '(l, w, a),
  match m (d, w, a) with
  | ((d, w, a), Ok x) => ((l, w, a), Ok (d, x))
  | ((d, w, a), Err e) => let '(w, a) := drop_proxy d w a in ((l, w, a), Err e)
  end.
Definition end_of_scope (d : DeviceProxy) : IO LSt unit := λ '(l, w, a),
  let '(w, a) := drop_proxy d w a in ((l, w, a), Ok ()).

(** A removed proxy: [proxy.bypass(); proxy.retire_client(client)?] *)
Definition retire (path : string) : IO LSt unit :=
  lifecycle ≫= λ l,
  match proxies_get path (lc_proxies l) with
  | Some (_, proxy) =>
      set_lifecycle (set_proxies (proxies_remove path (lc_proxies l))) ≫= λ _,
      on_proxy proxy bypass ≫= λ '(proxy, _),
      on_proxy proxy retire_client ≫= λ '(proxy, _),
      end_of_scope proxy
  | None => mret ()
  end.

(** [DeviceProxy::from_authorized_fd], which closes the file when it fails. *)
Definition new_proxy (fd generation : Z) (peer : PeerIdentity) : IO LSt DeviceProxy :=
  λ '(l, w, a),
  match from_authorized_fd fd generation peer (w, a) with
  | (w, a, Ok d) => ((l, w, a), Ok d)
  | (w, a, Err e) => ((l, dv_close fd w, a), Err e)
  end.

(** [m], after which the file [fd] is closed when it failed. *)
Definition or_close {X} (fd : Z) (m : IO LSt X) : IO LSt X := λ s,
  match m s with
  | (s, Ok x) => (s, Ok x)
  | (s, Err e) => ((close_file fd s).1, Err e)
  end.

(** The node is still the discovered one, and a new generation is issued. *)
Definition issue_generation (identity : DeviceIdentity) (fd : Z) : IO LSt Z :=
  on_world (dv_fstat fd) ≫= λ metadata,
  io_guard (negb (bool_decide (nd_dev metadata = di_device identity)) ||
            negb (bool_decide (nd_ino metadata = di_inode identity)) ||
            negb (bool_decide (nd_rdev metadata = di_rdev identity))) ≫= λ _,
  lifecycle ≫= λ l,
  io_lift (ok_or (checked_add_u64 (lc_generation l) 1) PermissionDenied) ≫= λ generation,
  set_lifecycle (λ l, mkProxyLifecycle (lc_proxies l) generation) ≫= λ _, mret generation.

(** A keyboard that appeared. *)
Definition admit_keyboard (peer : PeerIdentity) (identity : DeviceIdentity) : IO LSt unit :=
  lifecycle ≫= λ l,
  match proxies_get (di_path identity) (lc_proxies l) with
  | Some _ => mret ()
  | None =>
      on_world (dv_open (di_path identity)) ≫= λ fd,
      or_close fd (issue_generation identity fd) ≫= λ generation,
      new_proxy fd generation peer ≫= λ proxy,
      on_proxy proxy (activate peer) ≫= λ '(proxy, _),
      on_proxy proxy reset_client ≫= λ '(proxy, _),
      set_lifecycle (λ l, set_proxies
        (proxies_insert (di_path identity) (identity, proxy) (lc_proxies l)) l)
  end.

(** [ProxyLifecycle::reconcile] *)
Definition reconcile (peer : PeerIdentity) : IO LSt unit :=
  on_authority (λ a, authority_verify a peer) ≫= λ proof,
  if negb (permits proof peer) then clear ≫= λ _, io_fail PermissionDenied
  else
    on_world discover_keyboards ≫= λ candidates,
    lifecycle ≫= λ l,
    let removed := fst <$> filter (λ kv : string * (DeviceIdentity * DeviceProxy),
      kv.2.1 ∉ candidates ∨ di_seat kv.2.1 ≠ seat proof) (lc_proxies l) in
    io_each retire removed ≫= λ _,
    io_each (admit_keyboard peer) (filter (λ i, di_seat i = seat proof) candidates).

(** [for (_, proxy) in self.proxies.values_mut() { proxy.pump(client, authority)?; }],
    with the proxies already pumped. *)
Fixpoint pump_all (pumped ps : list (string * (DeviceIdentity * DeviceProxy))) : IO LSt unit :=
  match ps with
  | [] => mret ()
  | (path, (identity, proxy)) :: ps => λ '(l, w, a),
      let '((proxy, w, a), r) := pump (proxy, w, a) in
      let pumped := pumped ++ [(path, (identity, proxy))] in
      let s := (set_proxies (pumped ++ ps) l, w, a) in
      match r with
      | Ok _ => pump_all pumped ps s
      | Err e => (s, Err e)
      end
  end.

(** The closure of [ProxyLifecycle::step], and the step. *)
Definition step_proxies : IO LSt unit :=
  on_world k_peer_identity ≫= λ peer,
  reconcile peer ≫= λ _,
  lifecycle ≫= λ l, pump_all [] (lc_proxies l).
Definition lifecycle_step : IO LSt unit := λ s,
  match step_proxies s with
  | (s, Ok x) => (s, Ok x)
  | (s, Err e) => ((clear s).1, Err e)
  end.

(** [ProxyLifecycle::bypass] *)
Definition lifecycle_bypass : IO LSt unit := clear.

(** ** The service *)

(** [while lifecycle.step(..).is_ok() { sleep }]; [None] when [fuel] steps all
    succeeded. *)
Fixpoint serve_client (fuel : nat) (s : LSt) : option LSt :=
  match fuel with
  | O => None
  | S fuel =>
      match lifecycle_step s with
      | ((l, w, a), Ok _) => serve_client fuel (l, dv_sleep w, a)
      | (s, Err _) => Some s
      end
  end.

(** One connection of [serve]: the gate, then the steps of a new lifecycle, which is
    bypassed at its end. An accepted connection's error ends the service. *)
Definition serve_connection (fuel : nat) (w : W) (a : A) : option (W * A * result IoErrorKind bool) :=
  match k_peer_identity w with
  | (w, Err e) => Some (w, a, Err e)
  | (w, Ok peer) =>
      match authority_verify a peer with
      | (a, Ok proof) =>
          if permits proof peer then
            s ← serve_client fuel (ProxyLifecycle_default, w, a);
            let '(l, w, a) := (lifecycle_bypass s).1 in
            let '(w, a) := drop_all (lc_proxies l) w a in Some (w, a, Ok true)
          else Some (w, a, Ok false)
      | (a, Err _) => Some (w, a, Ok false)
      end
  end.
End lifecycle.

(** ** Sessions of logind (logind.rs)

    What [inspect] reads on the system bus; each read may fail. *)
Class Bus (B : Type) : Type := {
  bus_session_by_pid : Z → IO B string;
  bus_user : string → IO B Z;
  bus_seat : string → IO B string;
  bus_id : string → IO B string;
  bus_active : string → IO B bool;
  bus_remote : string → IO B bool;
  bus_type : string → IO B string;
  bus_locked_hint : string → IO B bool;
}.

Section logind.
Context {B : Type} `{Bus B}.

(** [LogindAuthority::inspect] *)
Definition inspect (peer : PeerIdentity) : IO B SessionProof :=
  (if bool_decide (pid peer < 0) then io_fail OtherKind else mret ()) ≫= λ _,
  bus_session_by_pid (pid peer) ≫= λ path,
  bus_user path ≫= λ user,
  io_guard (negb (bool_decide (user = uid peer))) ≫= λ _,
  bus_seat path ≫= λ seat,
  bus_id path ≫= λ id,
  bus_active path ≫= λ active,
  bus_remote path ≫= λ remote,
  bus_type path ≫= λ kind,
  bus_locked_hint path ≫= λ locked,
  mret (mkSessionProof peer seat id active (if locked : bool then Some false else None)
    (negb remote && (bool_decide (kind = "wayland") || bool_decide (kind = "x11"))%string)).

(** [struct LogindAuthority] and its [SessionAuthority]: the device questions keep
    the trait's default. *)
Record LogindAuthority : Type := mkLogind { connection : B }.
#[export] Instance LogindAuthority_authority : SessionAuthority LogindAuthority := {
  authority_verify a peer := let '(b, r) := inspect peer (connection a) in (mkLogind b, r);
  verify_output_ready := deny_device;
  verify_device := deny_device;
}.
End logind.
Arguments LogindAuthority : clear implicits.
