(* ===== verification/LifecycleThm.v ===== *)
(** * The broker service captures only what it may, and lets go of everything

    The invariant of [ProxyLifecycle]: one proxy per node, each with its own open
    descriptor and its own generation, each in the invariant of BrokerInv.v, and
    the keyboards the kernel has grabbed for the process are exactly theirs. A
    failed step leaves no proxy, no grab and no open descriptor. The service that
    is shipped, whose authority reads logind, never opens a keyboard at all. *)

From Stdlib Require Import Strings.Byte.
From S2P Require Import Prelude Bytes Text Protocol KeyState Authorization Broker BrokerInv Lifecycle.

(** ** What is assumed of the kernel

    [opened w] are the descriptors of input nodes the process has open, [grabbed w]
    those it has grabbed. *)
Class DeviceLaws (W : Type) `{KernelLaws W, Devices W} : Type := {
  grabbed : W → gset Z;
  opened : W → gset Z;
  unaffected : W → W → Prop := λ w w',
    grabbed w' = grabbed w ∧ opened w' = opened w ∧ ∀ fd, held w' fd = held w fd;
  (** [EVIOCGRAB], which may refuse either way *)
  grab_spec w fd w' r :
    k_grab w fd = (w', r) →
    opened w' = opened w ∧
    grabbed w' = match r with Ok _ => {[fd]} ∪ grabbed w | Err _ => grabbed w end;
  ungrab_spec w fd :
    opened (k_ungrab w fd).1 = opened w ∧
    grabbed (k_ungrab w fd).1 ∖ {[fd]} = grabbed w ∖ {[fd]};
  (** A descriptor that is opened is a new one; closing it ends its grab. *)
  open_spec path w w' r :
    dv_open path w = (w', r) →
    grabbed w' = grabbed w ∧ (∀ fd, held w' fd = held w fd) ∧
    match r with
    | Ok fd => (fd ∉ opened w) ∧ opened w' = {[fd]} ∪ opened w
    | Err _ => opened w' = opened w
    end;
  close_spec fd w :
    opened (dv_close fd w) = opened w ∖ {[fd]} ∧ grabbed (dv_close fd w) = grabbed w ∖ {[fd]} ∧
    ∀ fd', fd' ≠ fd → held (dv_close fd w) fd' = held w fd';
  (** A new output is no other's. *)
  build_output_other w fd keys misc fd' :
    fd' ≠ fd → held (k_build_output w fd keys misc).1 fd' = held w fd';
  (** Nothing else opens, closes or grabs a node, and reading a node reaches no consumer. *)
  peer_identity_grabs w :
    grabbed (k_peer_identity w).1 = grabbed w ∧ opened (k_peer_identity w).1 = opened w;
  poll_peer_grabs w :
    grabbed (k_poll_peer w).1 = grabbed w ∧ opened (k_poll_peer w).1 = opened w;
  poll_input_grabs w fd :
    grabbed (k_poll_input w fd).1 = grabbed w ∧ opened (k_poll_input w fd).1 = opened w;
  fetch_events_grabs w fd :
    grabbed (k_fetch_events w fd).1 = grabbed w ∧ opened (k_fetch_events w fd).1 = opened w;
  get_key_state_grabs w fd :
    grabbed (k_get_key_state w fd).1 = grabbed w ∧ opened (k_get_key_state w fd).1 = opened w;
  set_timeouts_grabs w :
    grabbed (k_set_timeouts w).1 = grabbed w ∧ opened (k_set_timeouts w).1 = opened w;
  write_socket_grabs w m :
    grabbed (k_write_socket w m).1 = grabbed w ∧ opened (k_write_socket w m).1 = opened w;
  read_socket_grabs w :
    grabbed (k_read_socket w).1 = grabbed w ∧ opened (k_read_socket w).1 = opened w;
  emit_grabs w fd p :
    grabbed (k_emit w fd p).1 = grabbed w ∧ opened (k_emit w fd p).1 = opened w;
  nonblocking_grabs w fd :
    grabbed (k_nonblocking w fd).1 = grabbed w ∧ opened (k_nonblocking w fd).1 = opened w;
  raw_device_grabs w fd :
    grabbed (k_raw_device w fd).1 = grabbed w ∧ opened (k_raw_device w fd).1 = opened w;
  build_output_grabs w fd keys misc :
    grabbed (k_build_output w fd keys misc).1 = grabbed w ∧ opened (k_build_output w fd keys misc).1 = opened w;
  read_dir_reads w : unaffected w (dv_read_dir w).1;
  lstat_reads path w : unaffected w (dv_lstat path w).1;
  udev_reads major minor w : unaffected w (dv_udev major minor w).1;
  fstat_reads fd w : unaffected w (dv_fstat fd w).1;
  sleep_reads w : unaffected w (dv_sleep w);
}.

(** ** Operations of one proxy stay with it *)

Section local.
Context {W A : Type} `{DeviceLaws W, SessionAuthority A}.
Implicit Types s : @St W A.

(** The proxy's identity, the other consumers, and the other grabs are kept. *)
Definition local s s' : Prop :=
  px_fd s'.1.1 = px_fd s.1.1 ∧ px_generation s'.1.1 = px_generation s.1.1 ∧
  opened s'.1.2 = opened s.1.2 ∧
  (∀ fd, fd ≠ px_fd s.1.1 → held s'.1.2 fd = held s.1.2 fd) ∧
  grabbed s'.1.2 ∖ {[px_fd s.1.1]} = grabbed s.1.2 ∖ {[px_fd s.1.1]}.

(** The proxy's own grab is kept as well. *)
Definition quiet s s' : Prop :=
  local s s' ∧ grabbed s'.1.2 = grabbed s.1.2 ∧ px_grabbed s'.1.1 = px_grabbed s.1.1.

#[export] Instance local_preorder : PreOrder local.
Proof.
  split; [by intros s|]. intros s1 s2 s3 (Hf & Hg & Ho & Hh & Hgr) (Hf' & Hg' & Ho' & Hh' & Hgr').
  rewrite Hf in *. split_and!; [congruence..| |congruence].
  intros fd Hfd. rewrite Hh', Hh; done.
Qed.
#[export] Instance quiet_preorder : PreOrder quiet.
Proof.
  split; [by intros s|]. intros s1 s2 s3 (Hl & Hg & Hp) (Hl' & Hg' & Hp').
  split; [by transitivity s2|]. split; congruence.
Qed.

Definition Quiet {X} (m : @M W A X) : Prop := ∀ s, quiet s (m s).1.

Lemma quiet_bind {X Y} (m : @M W A X) (f : X → M Y) :
  Quiet m → (∀ x, Quiet (f x)) → Quiet (m ≫= f).
Proof.
  intros Hm Hf s. unfold mbind, M_bind. specialize (Hm s).
  destruct (m s) as [s' [x|e]]; simpl in *; [|done]. transitivity s'; [done|apply Hf].
Qed.

Lemma quiet_ret {X} (x : X) : Quiet (mret x). Proof. intros s. reflexivity. Qed.
Lemma quiet_fail {X} e : Quiet (fail (X := X) e). Proof. intros s. reflexivity. Qed.
Lemma quiet_lift {X} (r : result IoErrorKind X) : Quiet (lift r). Proof. intros s. reflexivity. Qed.
Lemma quiet_get : Quiet get. Proof. intros s. reflexivity. Qed.
Lemma quiet_ask {X} (f : A → A * result IoErrorKind X) : Quiet (ask f).
Proof. intros [[d w] a]. unfold ask. by destruct (f a). Qed.
Lemma quiet_modify f :
  (∀ d, px_fd (f d) = px_fd d ∧ px_generation (f d) = px_generation d ∧
        px_grabbed (f d) = px_grabbed d) → Quiet (modify f).
Proof. intros Hf [[d w] a]. destruct (Hf d) as (? & ? & ?). by split_and!. Qed.
Lemma quiet_each {X} (f : X → M unit) l : (∀ x, Quiet (f x)) → Quiet (for_each f l).
Proof. intros Hf. induction l as [|x l IH]; [apply quiet_ret|]. by apply quiet_bind. Qed.
Lemma quiet_if {X} (b : bool) (m m' : @M W A X) : Quiet m → Quiet m' → Quiet (if b then m else m').
Proof. by destruct b. Qed.

Lemma quiet_kernel {X} (f : W → W * result IoErrorKind X) :
  (∀ w, (grabbed (f w).1 = grabbed w ∧ opened (f w).1 = opened w) ∧
        ∀ fd, held (f w).1 fd = held w fd) → Quiet (kernel f).
Proof.
  intros Hf [[d w] a]. unfold kernel. specialize (Hf w).
  destruct (f w) as [w' r]; simpl in Hf. destruct Hf as [[Hg Ho] Hh].
  unfold quiet, local; simpl. rewrite Hg. by split_and!.
Qed.
Lemma quiet_device {X} (f : W → Z → W * result IoErrorKind X) :
  (∀ w fd, (grabbed (f w fd).1 = grabbed w ∧ opened (f w fd).1 = opened w) ∧
           ∀ fd', fd' ≠ fd → held (f w fd).1 fd' = held w fd') → Quiet (device f).
Proof.
  intros Hf [[d w] a]. unfold device. specialize (Hf w (px_fd d)).
  destruct (f w (px_fd d)) as [w' r]; simpl in Hf. destruct Hf as [[Hg Ho] Hh].
  unfold quiet, local; simpl. rewrite Hg. by split_and!.
Qed.
End local.

Create HintDb quiet.
Create HintDb reads.
#[export] Hint Resolve quiet_ret quiet_fail quiet_lift quiet_get quiet_ask quiet_bind quiet_each
  quiet_if : quiet.

(** Kernel operations, by their frames. *)
Ltac quiet_kernel :=
  first [apply quiet_kernel; intros ? | apply quiet_device; intros ? ?];
  split; [eauto with quiet | intros; eauto with quiet].

Section operations.
Context {W A : Type} `{DeviceLaws W, SessionAuthority A}.
Implicit Types s : @St W A.

Hint Resolve peer_identity_grabs poll_peer_grabs poll_input_grabs fetch_events_grabs
  get_key_state_grabs set_timeouts_grabs write_socket_grabs read_socket_grabs emit_grabs
  nonblocking_grabs raw_device_grabs build_output_grabs : quiet.
Hint Resolve write_held emit_other build_output_other : quiet.
Hint Extern 1 (held (k_peer_identity _).1 _ = _) => apply peer_identity_frame : quiet.
Hint Extern 1 (held (k_poll_peer _).1 _ = _) => apply poll_peer_frame : quiet.
Hint Extern 1 (held (k_poll_input _ _).1 _ = _) => apply poll_input_frame : quiet.
Hint Extern 1 (held (k_fetch_events _ _).1 _ = _) => apply fetch_events_frame : quiet.
Hint Extern 1 (held (k_get_key_state _ _).1 _ = _) => apply get_key_state_frame : quiet.
Hint Extern 1 (held (k_set_timeouts _).1 _ = _) => apply set_timeouts_frame : quiet.
Hint Extern 1 (held (k_read_socket _).1 _ = _) => apply read_socket_frame : quiet.
Hint Extern 1 (held (k_nonblocking _ _).1 _ = _) => apply nonblocking_frame : quiet.
Hint Extern 1 (held (k_raw_device _ _).1 _ = _) => apply raw_device_frame : quiet.
Hint Extern 2 (Quiet (kernel _)) => quiet_kernel : quiet.
Hint Extern 2 (Quiet (device _)) => quiet_kernel : quiet.
Hint Extern 2 (Quiet (modify _)) => apply quiet_modify; by intros [] : quiet.

Ltac quiet_op :=
  repeat first
    [ apply quiet_bind | apply quiet_if | progress intros
    | match goal with |- Quiet (match ?x with _ => _ end) => destruct x end ];
  eauto 4 with quiet.

Lemma quiet_verify p : Quiet (W := W) (A := A) (verify p).
Proof. unfold verify. quiet_op. Qed.
Lemma quiet_check_device p : Quiet (W := W) (A := A) (check_device p).
Proof. unfold check_device. quiet_op. Qed.
Lemma quiet_check_output p : Quiet (W := W) (A := A) (check_output p).
Proof. unfold check_output. quiet_op. Qed.
Lemma quiet_emit es : Quiet (W := W) (A := A) (emit es).
Proof. apply quiet_each. intros e. unfold emit_one. quiet_op. Qed.
Lemma quiet_control op e : Quiet (W := W) (A := A) (control op e).
Proof. unfold control, next_sequence, request. quiet_op. Qed.
Hint Resolve quiet_verify quiet_check_device quiet_check_output quiet_emit quiet_control : quiet.

Lemma quiet_pump_event p raw : Quiet (W := W) (A := A) (pump_event p raw).
Proof.
  unfold pump_event, pump_resync, next_sequence, request, pump_decision, reset_client.
  quiet_op.
Qed.
Hint Resolve quiet_pump_event : quiet.

Lemma quiet_pump_inner : Quiet (W := W) (A := A) pump_inner.
Proof.
  unfold pump_inner. quiet_op.
Qed.

Lemma quiet_check_post_grab : Quiet (W := W) (A := A) check_post_grab.
Proof.
  assert (∀ b, Quiet (W := W) (A := A)
    (keys ← device k_get_key_state; lift (quiescent b (bool_decide (keys = ∅))))) as Hq
    by (intros b; quiet_op).
  intros s. unfold check_post_grab.
  assert (Quiet (W := W) (A := A) (device k_fetch_events)) as Hf by eauto with quiet.
  specialize (Hf s). destruct (device k_fetch_events s) as [s1 [evs|e]]; simpl in Hf.
  - transitivity s1; [done|apply Hq].
  - destruct e; try done. transitivity s1; [done|apply Hq].
Qed.
(** ** The operations that grab, let go and close *)

Lemma quiet_local {X} (m : @M W A X) s : Quiet m → local s (m s).1.
Proof. intros Hm. apply Hm. Qed.

Lemma local_bypass s : local s (bypass s).1.
Proof.
  destruct s as [[d w] a]. unfold bypass.
  destruct (release_all _) as [k releases].
  pose proof (quiet_emit (releases ++ [RawEvent_default])
    (px_set_state k (px_set_pending [] d), w, a)) as [Hl _].
  destruct (emit _ _) as [[[d1 w1] a1] r]; simpl in Hl.
  destruct (px_grabbed d1); [|done].
  destruct (ungrab_spec w1 (px_fd d1)) as [Ho Hg].
  pose proof (λ fd', ungrab_frame w1 (px_fd d1) fd') as Hh.
  destruct (k_ungrab w1 (px_fd d1)) as [w2 u]; simpl in *.
  destruct Hl as (Hf & Hgen & Ho' & Hh' & Hg'); simpl in *. rewrite Hf in *.
  split_and!; simpl; [done..|congruence| |congruence].
  intros fd' Hfd'. rewrite (proj1 (Hh fd')). by apply Hh'.
Qed.

(** A pump keeps the grab when it succeeds. *)
Lemma pump_local s :
  match pump s with (s', Ok _) => quiet s s' | (s', Err _) => local s s' end.
Proof.
  unfold pump, or_bypass. pose proof (quiet_pump_inner s) as Hq.
  destruct (pump_inner s) as [s' [[]|e]]; simpl in *; [done|].
  transitivity s'; [apply Hq|apply local_bypass].
Qed.

(** An activation that succeeds has grabbed the keyboard. *)
Definition captured s (out : @St W A * result IoErrorKind unit) : Prop :=
  match out with
  | (s', Ok _) => local s s' ∧ px_grabbed s'.1.1 = true ∧
                  grabbed s'.1.2 = {[px_fd s.1.1]} ∪ grabbed s.1.2
  | (s', Err _) => local s s'
  end.

Lemma captured_bind {X} s s0 (m : @M W A X) (k : X → M unit) :
  quiet s s0 → Quiet m → (∀ x s1, quiet s s1 → captured s (k x s1)) → captured s ((m ≫= k) s0).
Proof.
  intros Hs0 Hm Hk. unfold mbind, M_bind. specialize (Hm s0).
  destruct (m s0) as [s1 [x|e]]; simpl in *.
  - apply Hk. by transitivity s0.
  - transitivity s0; [apply Hs0|apply Hm].
Qed.

Lemma captured_checked s s0 (m : @M W A unit) :
  Quiet m → local s s0 → px_grabbed s0.1.1 = true →
  grabbed s0.1.2 = {[px_fd s.1.1]} ∪ grabbed s.1.2 → captured s (or_bypass m s0).
Proof.
  intros Hm Hl Hp Hg. unfold or_bypass. specialize (Hm s0).
  destruct (m s0) as [s1 [x|e]]; simpl in *.
  - destruct Hm as (Hm & Hm' & Hm''). split; [by transitivity s0|]. by rewrite Hm', Hm''.
  - transitivity s1; [|apply local_bypass]. transitivity s0; [done|apply Hm].
Qed.

Lemma local_grab (d : DeviceProxy) (w : W) (a : A) :
  local (d, w, a) (d, (k_grab w (px_fd d)).1, a).
Proof.
  pose proof (λ fd', grab_frame w (px_fd d) fd') as Hh.
  destruct (k_grab w (px_fd d)) as [w1 r] eqn:Hgrab. apply grab_spec in Hgrab as [Ho Hgr].
  split_and!; [done..| |]; simpl; [intros; apply Hh|]. rewrite Hgr. destruct r; set_solver.
Qed.

Lemma activate_local p s : captured s (activate p s).
Proof.
  unfold activate. do 4 (apply captured_bind; [done|quiet_op|intros]).
  apply captured_bind; [done|quiet_op|]. intros _ [[d w] a] (Hl & Hg & Hp).
  pose proof (local_grab d w a) as Hl1. unfold mbind, M_bind, device.
  destruct (k_grab w (px_fd d)) as [w1 r] eqn:Hgrab. apply grab_spec in Hgrab as [Ho Hgr].
  destruct r as [u|e]; simpl in *; [|change (local s (d, w1, a)); by transitivity (d, w, a)].
  apply captured_checked; [quiet_op; apply quiet_check_post_grab| |done|].
  - by transitivity (d, w, a).
  - simpl. rewrite Hgr, Hg. by replace (px_fd d) with (px_fd s.1.1) by (symmetry; apply Hl).
Qed.
(** Admission of a proxy concerns its descriptor only. *)
Lemma new_frame fd g p (w : W) (a : A) w' a' r :
  from_authorized_fd fd g p (w, a) = (w', a', r) →
  opened w' = opened w ∧ grabbed w' = grabbed w ∧ ∀ fd', fd' ≠ fd → held w' fd' = held w fd'.
Proof.
  unfold from_authorized_fd. set (self := mkDeviceProxy fd _ g 1 0 false []).
  set (checks := verify p ≫= _).
  assert (Quiet (W := W) (A := A) checks) as Hq by (unfold checks; quiet_op).
  specialize (Hq (self, w, a)). cbn [fst snd].
  destruct (checks (self, w, a)) as [[[d1 w1] a1] r1]; simpl in Hq.
  intros [= <- <- <-]. destruct Hq as ((_ & _ & Ho & Hh & _) & Hg & _). done.
Qed.

Lemma drop_frame d (w : W) (a : A) w' a' :
  drop_proxy d w a = (w', a') →
  opened w' = opened w ∖ {[px_fd d]} ∧ grabbed w' = grabbed w ∖ {[px_fd d]} ∧
  ∀ fd', fd' ≠ px_fd d → held w' fd' = held w fd'.
Proof.
  unfold drop_proxy. pose proof (local_bypass (d, w, a)) as Hl.
  destruct (bypass (d, w, a)).1 as [[d1 w1] a1]. intros [= <- <-].
  destruct Hl as (Hf & _ & Ho & Hh & Hg); simpl in *. rewrite Hf.
  destruct (close_spec (px_fd d) w1) as (Ho' & Hg' & Hh'). rewrite Ho', Hg', Ho, Hg.
  split_and!; [done..|]. intros fd' Hfd'. rewrite Hh' by done. by apply Hh.
Qed.
End operations.

(** ** The invariant of the lifecycle *)

Section invariant.
Context {W A : Type} `{DeviceLaws W, SessionAuthority A}.
Implicit Types (ps : list (string * (DeviceIdentity * DeviceProxy))) (w : W) (a : A).

Definition fds ps : list Z := (λ kv, px_fd kv.2.2) <$> ps.
Definition generations ps : list Z := (λ kv, px_generation kv.2.2) <$> ps.

(** Of one proxy of the map. *)
Definition admitted (g : Z) w (kv : string * (DeviceIdentity * DeviceProxy)) : Prop :=
  di_path kv.2.1 = kv.1 ∧ px_generation kv.2.2 ≤ g ∧ px_grabbed kv.2.2 = true ∧
  frame_inv (px_state kv.2.2) (held w (px_fd kv.2.2)) (px_pending kv.2.2 ++ []).

(** The map. *)
Definition Sound g ps w : Prop :=
  NoDup (fst <$> ps) ∧ NoDup (fds ps) ∧ NoDup (generations ps) ∧ Forall (admitted g w) ps.

(** Between operations. *)
Definition WF g ps w : Prop :=
  Sound g ps w ∧ opened w = list_to_set (fds ps) ∧ grabbed w = list_to_set (fds ps).

(** While the descriptor [fd] belongs to a local. *)
Definition Scope fd g ps w : Prop :=
  Sound g ps w ∧ (fd ∉ fds ps) ∧ opened w = {[fd]} ∪ list_to_set (fds ps) ∧
  grabbed w ∖ {[fd]} = list_to_set (fds ps).

(** What [clear] needs. *)
Definition Weak ps w : Prop :=
  NoDup (fds ps) ∧ opened w = list_to_set (fds ps) ∧ grabbed w ⊆ list_to_set (fds ps).

Lemma WF_weak g ps w : WF g ps w → Weak ps w.
Proof. intros ((_ & Hn & _) & Ho & Hg). split_and!; [done..|]. by rewrite Hg. Qed.

Lemma Sound_held g ps w w' :
  (∀ fd, fd ∈ fds ps → held w' fd = held w fd) → Sound g ps w → Sound g ps w'.
Proof.
  intros Hh (Hp & Hf & Hgen & Ha). split_and!; [done..|].
  apply Forall_forall. intros kv Hkv. pose proof (proj1 (Forall_forall _ _) Ha kv Hkv) as (? & ? & ? & Hi).
  split_and!; [done..|]. rewrite Hh; [done|]. by apply (list_elem_of_fmap_2 (λ kv, px_fd kv.2.2)).
Qed.

Lemma Sound_generation g g' ps w : g ≤ g' → Sound g ps w → Sound g' ps w.
Proof.
  intros Hle (Hp & Hf & Hgen & Ha). split_and!; [done..|].
  eapply Forall_impl; [exact Ha|]. intros kv (? & ? & ? & ?). split_and!; [done|lia|done..].
Qed.

(** Reads of the file system. *)
Lemma WF_reads g ps w w' :
  grabbed w' = grabbed w → opened w' = opened w → (∀ fd, held w' fd = held w fd) →
  WF g ps w → WF g ps w'.
Proof.
  intros Hg Ho Hh (Hs & Ho' & Hg'). unfold WF. rewrite Hg, Ho. split; [|done].
  eapply Sound_held; [|done]. intros; apply Hh.
Qed.

Lemma Scope_reads fd g ps w w' :
  grabbed w' = grabbed w → opened w' = opened w → (∀ fd', fd' ≠ fd → held w' fd' = held w fd') →
  Scope fd g ps w → Scope fd g ps w'.
Proof.
  intros Hg Ho Hh (Hs & Hfd & Ho' & Hg'). unfold Scope. rewrite Hg, Ho. split; [|done].
  eapply Sound_held; [|done]. intros fd' Hin. apply Hh. by intros ->.
Qed.

Lemma Scope_local d w a d' w' a' g ps :
  local (d, w, a) (d', w', a') → Scope (px_fd d) g ps w → Scope (px_fd d) g ps w'.
Proof.
  intros (_ & _ & Ho & Hh & Hg) (Hs & Hfd & Ho' & Hg'); simpl in *. unfold Scope. rewrite Ho, Hg.
  split; [|done]. eapply Sound_held; [|done]. intros fd' Hin. apply Hh. by intros ->.
Qed.

(** Opening and closing a node, and dropping a proxy. *)
Lemma WF_open g ps path w w' fd :
  dv_open path w = (w', Ok fd) → WF g ps w → Scope fd g ps w'.
Proof.
  intros (Hg & Hh & Hn & Ho)%open_spec (Hs & Ho' & Hg'). split_and!.
  - eapply Sound_held; [|done]. intros; apply Hh.
  - intros Hin. apply Hn. rewrite Ho'. by apply elem_of_list_to_set.
  - by rewrite Ho, Ho'.
  - rewrite Hg, Hg'. rewrite Ho' in Hn. set_solver.
Qed.

Lemma Scope_closed fd g ps w w' :
  opened w' = opened w ∖ {[fd]} → grabbed w' = grabbed w ∖ {[fd]} →
  (∀ fd', fd' ≠ fd → held w' fd' = held w fd') → Scope fd g ps w → WF g ps w'.
Proof.
  intros Ho Hg Hh (Hs & Hfd & Ho' & Hg'). split_and!.
  - eapply Sound_held; [|done]. intros fd' Hin. apply Hh. by intros ->.
  - rewrite Ho, Ho'. assert (fd ∉ (list_to_set (fds ps) : gset Z)) by (by rewrite elem_of_list_to_set).
    set_solver.
  - by rewrite Hg.
Qed.

Lemma Scope_close fd g ps w : Scope fd g ps w → WF g ps (dv_close fd w).
Proof. destruct (close_spec fd w) as (? & ? & ?). by apply Scope_closed. Qed.

Lemma Scope_drop d g ps w a w' a' :
  drop_proxy d w a = (w', a') → Scope (px_fd d) g ps w → WF g ps w'.
Proof. intros (? & ? & ?)%drop_frame. by apply Scope_closed. Qed.

(** Taking a proxy out of the map, and putting one in. *)
Lemma WF_take g kv ps w : WF g (kv :: ps) w → Scope (px_fd kv.2.2) g ps w.
Proof.
  intros ((Hp & Hf & Hgen & Ha) & Ho & Hg).
  change (fds (kv :: ps)) with (px_fd kv.2.2 :: fds ps) in *.
  change (generations (kv :: ps)) with (px_generation kv.2.2 :: generations ps) in *.
  rewrite fmap_cons in Hp. rewrite list_to_set_cons in Ho, Hg.
  apply NoDup_cons in Hp as [_ Hp], Hf as [Hn Hf], Hgen as [_ Hgen]. apply Forall_cons in Ha as [_ Ha].
  assert (px_fd kv.2.2 ∉ (list_to_set (fds ps) : gset Z)) by (by rewrite elem_of_list_to_set).
  unfold Scope, Sound. rewrite Ho, Hg. split_and!; [done..|]. set_solver.
Qed.

Lemma Scope_put g path identity d ps w :
  Scope (px_fd d) g ps w → px_fd d ∈ grabbed w → path ∉ (fst <$> ps) →
  px_generation d ∉ generations ps → admitted g w (path, (identity, d)) →
  WF g ((path, (identity, d)) :: ps) w.
Proof.
  intros ((Hp & Hf & Hgen & Ha) & Hn & Ho & Hg) Hin Hpath Hfresh Had.
  unfold WF, Sound. set (kv := (path, (identity, d))).
  change (fds (kv :: ps)) with (px_fd d :: fds ps).
  change (generations (kv :: ps)) with (px_generation d :: generations ps).
  rewrite fmap_cons, list_to_set_cons. split_and!;
    [by apply NoDup_cons..|by apply Forall_cons|done|].
  rewrite <- Hg. apply set_eq. intros x. destruct (decide (x = px_fd d)); set_solver.
Qed.

Lemma WF_permutation g ps ps' w : ps ≡ₚ ps' → WF g ps w → WF g ps' w.
Proof.
  unfold WF, Sound, fds, generations. intros Hp. by rewrite Hp.
Qed.
End invariant.

(** ** The map *)

Lemma proxies_insert_perm {V} k (v : V) l : proxies_insert k v l ≡ₚ (k, v) :: l.
Proof.
  induction l as [|[k' v'] l IH]; [done|]. simpl. destruct (String.ltb k k'); [done|].
  rewrite IH. by constructor.
Qed.

Lemma proxies_get_None {V} k (l : list (string * V)) :
  proxies_get k l = None ↔ k ∉ (fst <$> l).
Proof.
  unfold proxies_get. induction l as [|[k' v'] l IH]; simpl; [split; [by intros _ ?%elem_of_nil|done]|].
  rewrite filter_cons. simpl. case_decide as Hk; simpl.
  - split; [done|]. set_solver.
  - rewrite IH. set_solver.
Qed.

Lemma proxies_remove_absent {V} k (l : list (string * V)) :
  k ∉ (fst <$> l) → proxies_remove k l = l.
Proof.
  unfold proxies_remove. induction l as [|[k' v'] l IH]; [done|]. intros Hk.
  rewrite filter_cons, decide_True by (simpl; set_solver). f_equal. apply IH. set_solver.
Qed.

Lemma proxies_get_Some {V} k (v : V) l :
  NoDup (fst <$> l) → proxies_get k l = Some v → l ≡ₚ (k, v) :: proxies_remove k l.
Proof.
  unfold proxies_get, proxies_remove. induction l as [|[k' v'] l IH]; [done|].
  rewrite fmap_cons. intros [Hn Hnd]%NoDup_cons. rewrite !filter_cons. simpl in *.
  destruct (decide (k' = k)) as [->|Hk]; simpl.
  - intros [= ->]. rewrite decide_False by auto. constructor.
    by setoid_rewrite (proxies_remove_absent k l Hn).
  - rewrite decide_True by auto. intros Hv.
    etrans; [|apply Permutation_swap]. constructor. auto.
Qed.

(** ** One removal, one admission *)

Section steps.
Context {W A : Type} `{DeviceLaws W, SessionAuthority A}.
Implicit Types (l : ProxyLifecycle) (w : W) (a : A).

Definition Inv (s : @LSt W A) : Prop := WF (lc_generation s.1.1) (lc_proxies s.1.1) s.1.2.

(** [m] on a local proxy: it is closed when it fails. *)
Lemma on_proxy_local {X} (m : @M W A X) d l w a g ps :
  Scope (px_fd d) g ps w → local (d, w, a) (m (d, w, a)).1 →
  match on_proxy d m (l, w, a) with
  | ((l', w', a'), Ok (d', x)) =>
      l' = l ∧ m (d, w, a) = ((d', w', a'), Ok x) ∧ px_fd d' = px_fd d ∧ Scope (px_fd d') g ps w'
  | ((l', w', a'), Err _) => l' = l ∧ WF g ps w'
  end.
Proof.
  intros Hs Hl. unfold on_proxy. destruct (m (d, w, a)) as [[[d1 w1] a1] [x|e]]; simpl in Hl.
  - pose proof (proj1 Hl) as Hfd. simpl in Hfd. rewrite Hfd. split_and!; [done..|].
    by eapply Scope_local.
  - pose proof (proj1 Hl) as Hfd. simpl in Hfd.
    destruct (drop_proxy d1 w1 a1) as [w2 a2] eqn:Hd. split; [done|].
    eapply Scope_drop; [done|]. rewrite Hfd. by eapply Scope_local.
Qed.

Lemma retire_spec path l w a :
  Inv (l, w, a) →
  match retire path (l, w, a) with
  | (s', Ok _) => Inv s' ∧ s'.1.1 = set_proxies (proxies_remove path (lc_proxies l)) l
  | (s', Err _) => Inv s' ∧ lc_generation s'.1.1 = lc_generation l
  end.
Proof.
  intros Hi. unfold retire, mbind, IO_bind. cbn [lifecycle fst snd].
  destruct (proxies_get path (lc_proxies l)) as [[identity proxy]|] eqn:Hget;
    cbn [set_lifecycle mret IO_ret fst snd].
  2:{ split; [done|]. apply proxies_get_None in Hget. destruct l as [ps g]. unfold set_proxies.
      by rewrite proxies_remove_absent. }
  set (rest := proxies_remove path (lc_proxies l)) in *. set (l1 := set_proxies rest l).
  assert (Scope (px_fd proxy) (lc_generation l) rest w) as Hs.
  { apply (WF_take _ (path, (identity, proxy))). eapply WF_permutation; [|done].
    apply proxies_get_Some; [|done]. apply Hi. }
  pose proof (on_proxy_local bypass proxy l1 w a _ _ Hs (local_bypass _)) as Hb.
  destruct (on_proxy proxy bypass _) as [[[l2 w2] a2] [[d2 x]|e]]; [|by destruct Hb as [-> Hb]].
  destruct Hb as (-> & _ & _ & Hs2).
  pose proof (on_proxy_local retire_client d2 l1 w2 a2 _ _ Hs2
    (quiet_local _ _ (quiet_control _ _))) as Hr.
  destruct (on_proxy d2 retire_client _) as [[[l3 w3] a3] [[d3 y]|e]]; [|by destruct Hr as [-> Hr]].
  destruct Hr as (-> & _ & _ & Hs3). unfold end_of_scope.
  destruct (drop_proxy d3 w3 a3) as [w4 a4] eqn:Hd. split; [|done].
  by eapply Scope_drop.
Qed.
(** A generation is issued while the node is open; a refusal closes it. *)
Lemma issue_spec identity fd l w a :
  Scope fd (lc_generation l) (lc_proxies l) w →
  match or_close fd (issue_generation identity fd) (l, w, a) with
  | ((l', w', a'), Ok g) =>
      l' = mkProxyLifecycle (lc_proxies l) g ∧ lc_generation l < g ∧
      Scope fd (lc_generation l) (lc_proxies l) w'
  | (s', Err _) => Inv s' ∧ s'.1.1 = l
  end.
Proof.
  intros Hs. unfold or_close, issue_generation, on_world, mbind, IO_bind.
  destruct (fstat_reads fd w) as (Hg & Ho & Hh).
  destruct (dv_fstat fd w) as [w1 [metadata|e]]; cbn [fst snd] in *;
    (assert (Scope fd (lc_generation l) (lc_proxies l) w1) as Hs1
       by (eapply Scope_reads; [..|exact Hs]; auto));
    [|by split; [apply Scope_close|]].
  unfold io_guard. destruct (_ || _); simpl; [by split; [apply Scope_close|]|].
  unfold io_lift, checked_add_u64. case_bool_decide; simpl.
  - split_and!; [done|lia|done].
  - by split; [apply Scope_close|].
Qed.

Lemma new_proxy_spec fd g p l w a ps :
  Scope fd (lc_generation l) ps w →
  match new_proxy fd g p (l, w, a) with
  | ((l', w', a'), Ok d) =>
      l' = l ∧ px_fd d = fd ∧ px_generation d = g ∧ Scope fd (lc_generation l) ps w' ∧
      ProxyInv (d, w', a')
  | ((l', w', a'), Err _) => l' = l ∧ WF (lc_generation l) ps w'
  end.
Proof.
  intros Hs. unfold new_proxy.
  destruct (from_authorized_fd fd g p (w, a)) as [[w1 a1] r] eqn:Hnew.
  pose proof (new_frame _ _ _ _ _ _ _ _ Hnew) as (Ho & Hg & Hh).
  assert (Scope fd (lc_generation l) ps w1) as Hs1 by (eapply Scope_reads; [..|exact Hs]; auto).
  destruct r as [d|e]; [|by split; [|apply Scope_close]].
  apply from_authorized_inv in Hnew as [-> Hi]. done.
Qed.

(** The activation and the reset of a new proxy leave it captured and sound. *)
Lemma activate_spec p d l w a g ps :
  Scope (px_fd d) g ps w → ProxyInv (d, w, a) →
  match on_proxy d (activate p) (l, w, a) with
  | ((l', w', a'), Ok (d', _)) =>
      l' = l ∧ px_fd d' = px_fd d ∧ px_generation d' = px_generation d ∧
      Scope (px_fd d) g ps w' ∧ ProxyInv (d', w', a') ∧ px_grabbed d' = true ∧ px_fd d ∈ grabbed w'
  | ((l', w', a'), Err _) => l' = l ∧ WF g ps w'
  end.
Proof.
  intros Hs Hi. pose proof (activate_local p (d, w, a)) as Hc.
  assert (local (d, w, a) (activate p (d, w, a)).1) as Hl
    by (destruct (activate p (d, w, a)) as [s1 [[]|e]]; apply Hc).
  pose proof (on_proxy_local _ d l w a _ _ Hs Hl) as Ho.
  destruct (on_proxy d (activate p) (l, w, a)) as [[[l1 w1] a1] [[d1 []]|e]]; [|done].
  destruct Ho as (-> & Hact & Hfd & Hs1). rewrite Hact in Hc. rewrite Hfd in Hs1.
  pose proof (triple_Ok _ _ _ _ _ _ _ (triple_activate p) Hi Hact) as Hi1.
  destruct Hc as ((_ & Hgen & _) & Hgr & Hset); simpl in *.
  split_and!; [done..|set_solver].
Qed.

Lemma reset_spec d l w a g ps :
  Scope (px_fd d) g ps w → ProxyInv (d, w, a) →
  match on_proxy d reset_client (l, w, a) with
  | ((l', w', a'), Ok (d', _)) =>
      l' = l ∧ px_fd d' = px_fd d ∧ px_generation d' = px_generation d ∧
      Scope (px_fd d) g ps w' ∧ ProxyInv (d', w', a') ∧ px_grabbed d' = px_grabbed d ∧
      grabbed w' = grabbed w
  | ((l', w', a'), Err _) => l' = l ∧ WF g ps w'
  end.
Proof.
  intros Hs Hi. pose proof (quiet_control DeviceReset RawEvent_default (d, w, a)) as Hq.
  pose proof (on_proxy_local reset_client d l w a _ _ Hs (proj1 Hq)) as Ho.
  destruct (on_proxy d reset_client (l, w, a)) as [[[l1 w1] a1] [[d1 []]|e]]; [|done].
  destruct Ho as (-> & Hact & Hfd & Hs1). unfold reset_client in Hact. rewrite Hact in Hq.
  rewrite Hfd in Hs1. pose proof (triple_Ok _ _ _ _ _ _ _ (triple_control _ _ []) Hi Hact) as Hi1.
  destruct Hq as ((_ & Hgen & _) & Hgr & Hp). done.
Qed.

(** The map after an admission. *)
Definition grown identity l l' : Prop :=
  (di_path identity ∈ (fst <$> lc_proxies l) ∧ l' = l) ∨
  (∃ d, lc_proxies l' = proxies_insert (di_path identity) (identity, d) (lc_proxies l) ∧
        px_generation d = lc_generation l' ∧ lc_generation l < lc_generation l').

Lemma admit_spec peer identity l w a :
  Inv (l, w, a) →
  match admit_keyboard peer identity (l, w, a) with
  | (s', Ok _) => Inv s' ∧ grown identity l s'.1.1
  | (s', Err _) => Inv s' ∧ lc_generation l ≤ lc_generation s'.1.1
  end.
Proof.
  intros Hi. unfold admit_keyboard, mbind, IO_bind. cbn [lifecycle fst snd].
  destruct (proxies_get _ _) as [v|] eqn:Hget; cbn [mret IO_ret].
  { split; [done|]. left. split; [|done]. apply dec_stable. intros Hn%proxies_get_None. congruence. }
  apply proxies_get_None in Hget. unfold on_world at 1.
  destruct (dv_open (di_path identity) w) as [w1 [fd|e]] eqn:Hopen.
  2:{ apply open_spec in Hopen as (Hg & Hh & Ho). split; [|done]. by eapply WF_reads. }
  pose proof (WF_open _ _ _ _ _ _ Hopen Hi) as Hs1.
  pose proof (issue_spec identity fd l w1 a Hs1) as Hiss.
  destruct (or_close fd _ (l, w1, a)) as [[[l2 w2] a2] [g|e]];
    [|destruct Hiss as [Hinv <-]; split; [done|simpl; lia]].
  destruct Hiss as (-> & Hg & Hs2). set (l2 := mkProxyLifecycle (lc_proxies l) g).
  assert (Scope fd g (lc_proxies l) w2) as Hs2'.
  { destruct Hs2 as [Hs2 Hrest]. split; [|done]. eapply Sound_generation; [|done]. lia. }
  pose proof (new_proxy_spec fd g peer l2 w2 a2 (lc_proxies l) Hs2') as Hnew.
  destruct (new_proxy fd g peer _) as [[[l3 w3] a3] [d|e]];
    [|destruct Hnew as [-> Hnew]; split; [done|simpl; lia]].
  destruct Hnew as (-> & Hfd & Hdg & Hs3 & Hi3). subst fd.
  pose proof (activate_spec peer d l2 w3 a3 g _ Hs3 Hi3) as Hact.
  destruct (on_proxy d (activate peer) _) as [[[l4 w4] a4] [[d4 []]|e]];
    [|destruct Hact as [-> Hact]; split; [done|simpl; lia]].
  destruct Hact as (-> & Hfd4 & Hdg4 & Hs4 & Hi4 & Hp4 & Hg4).
  rewrite <- Hfd4 in Hs4, Hg4.
  pose proof (reset_spec d4 l2 w4 a4 g _ Hs4 Hi4) as Hres.
  destruct (on_proxy d4 reset_client _) as [[[l5 w5] a5] [[d5 []]|e]];
    [|destruct Hres as [-> Hres]; split; [done|simpl; lia]].
  destruct Hres as (-> & Hfd5 & Hdg5 & Hs5 & Hi5 & Hp5 & Hg5). cbn [set_lifecycle].
  rewrite <- Hfd5 in Hs5. assert (px_generation d5 = g) as Hd5 by congruence.
  split; [|right; exists d5; simpl; split_and!; [done|done|lia]].
  unfold Inv. simpl. eapply WF_permutation; [symmetry; apply proxies_insert_perm|].
  apply Scope_put; [done|by rewrite Hg5, Hfd5|done| |split_and!; [done|simpl; lia|simpl; congruence|done]].
  rewrite Hd5. intros (kv & Hkv & Hin)%list_elem_of_fmap.
  destruct Hi as ((_ & _ & _ & Ha) & _). pose proof (proj1 (Forall_forall _ _) Ha kv Hin) as (_ & Hle & _).
  simpl in Hle. lia.
Qed.
(** ** The loops of a reconciliation *)

Lemma retire_all paths l w a :
  Inv (l, w, a) →
  match io_each retire paths (l, w, a) with
  | (s', Ok _) => Inv s' ∧ lc_generation s'.1.1 = lc_generation l ∧
      ∀ kv, kv ∈ lc_proxies s'.1.1 ↔ kv ∈ lc_proxies l ∧ kv.1 ∉ paths
  | (s', Err _) => Inv s' ∧ lc_generation s'.1.1 = lc_generation l
  end.
Proof.
  revert l w a. induction paths as [|path paths IH]; intros l w a Hi; simpl.
  { split_and!; [done..|]. set_solver. }
  unfold mbind, IO_bind. pose proof (retire_spec path l w a Hi) as Hr.
  destruct (retire path (l, w, a)) as [[[l1 w1] a1] [[]|e]]; [|done].
  destruct Hr as [Hi1 Hl1]. simpl in Hl1. subst l1.
  specialize (IH _ w1 a1 Hi1). destruct (io_each retire paths _) as [s2 [[]|e]]; [|done].
  destruct IH as (Hi2 & Hg & Hin). split_and!; [done..|]. intros kv. rewrite Hin.
  simpl. unfold proxies_remove. rewrite list_elem_of_filter. set_solver.
Qed.

Lemma grown_elem identity l l' kv :
  grown identity l l' → kv ∈ lc_proxies l' →
  kv ∈ lc_proxies l ∨ (kv.2.1 = identity ∧ lc_generation l < px_generation kv.2.2).
Proof.
  intros [[_ ->]|(d & Hl & Hg & Hlt)] Hin; [by left|]. rewrite Hl in Hin.
  rewrite proxies_insert_perm in Hin. apply elem_of_cons in Hin as [->|Hin]; [right|by left].
  simpl. split; [done|lia].
Qed.

Lemma grown_mono identity l l' :
  grown identity l l' →
  lc_generation l ≤ lc_generation l' ∧ (∀ kv, kv ∈ lc_proxies l → kv ∈ lc_proxies l') ∧
  di_path identity ∈ (fst <$> lc_proxies l').
Proof.
  intros [[Hin ->]|(d & Hl & Hg & Hlt)]; [done|]. rewrite Hl. split; [lia|]. split.
  - intros kv Hin. rewrite proxies_insert_perm. by apply list_elem_of_further.
  - rewrite proxies_insert_perm. by left.
Qed.

Lemma admit_all peer ids l w a :
  Inv (l, w, a) →
  match io_each (admit_keyboard peer) ids (l, w, a) with
  | (s', Ok _) => Inv s' ∧ lc_generation l ≤ lc_generation s'.1.1 ∧
      (∀ kv, kv ∈ lc_proxies l → kv ∈ lc_proxies s'.1.1) ∧
      (∀ i, i ∈ ids → di_path i ∈ (fst <$> lc_proxies s'.1.1)) ∧
      ∀ kv, kv ∈ lc_proxies s'.1.1 →
        kv ∈ lc_proxies l ∨ (kv.2.1 ∈ ids ∧ lc_generation l < px_generation kv.2.2)
  | (s', Err _) => Inv s' ∧ lc_generation l ≤ lc_generation s'.1.1
  end.
Proof.
  revert l w a. induction ids as [|i ids IH]; intros l w a Hi; simpl.
  { split_and!; [done..|set_solver|auto]. }
  unfold mbind, IO_bind. pose proof (admit_spec peer i l w a Hi) as Hr.
  destruct (admit_keyboard peer i (l, w, a)) as [[[l1 w1] a1] [[]|e]]; [|done].
  destruct Hr as [Hi1 Hgr]. simpl in Hgr. destruct (grown_mono _ _ _ Hgr) as (Hle & Hkeep & Hpath).
  specialize (IH _ w1 a1 Hi1). destruct (io_each _ ids _) as [s2 [[]|e]];
    [|destruct IH; split; [done|lia]].
  destruct IH as (Hi2 & Hle2 & Hkeep2 & Hids & Hnew). split_and!; [done|lia|auto| |].
  - intros j [->|Hj]%elem_of_cons; [|auto].
    apply list_elem_of_fmap in Hpath as (kv & -> & Hkv). by apply list_elem_of_fmap_2, Hkeep2.
  - intros kv [Hin|[Hin Hlt]]%Hnew; [|right; split; [by right|lia]].
    destruct (grown_elem _ _ _ _ Hgr Hin) as [?|[<- ?]]; [by left|]. right. split; [by left|done].
Qed.

(** ** Discovery reads only *)

Lemma unaffected_trans (w w1 w2 : W) : unaffected w w1 → unaffected w1 w2 → unaffected w w2.
Proof.
  intros (Hg & Ho & Hh) (Hg' & Ho' & Hh'). split_and!; [congruence..|]. intros fd. by rewrite Hh'.
Qed.

Definition Reads {X} (m : IO W X) : Prop := ∀ w, unaffected w (m w).1.

Lemma reads_ret {X} (x : X) : Reads (mret x). Proof. by intros w. Qed.
Lemma reads_lift {X} (r : result IoErrorKind X) : Reads (io_lift r). Proof. by intros w. Qed.
Lemma reads_guard b : Reads (io_guard b). Proof. by intros w; destruct b. Qed.
Lemma reads_bind {X Y} (m : IO W X) (f : X → IO W Y) :
  Reads m → (∀ x, Reads (f x)) → Reads (m ≫= f).
Proof.
  intros Hm Hf w. unfold mbind, IO_bind. specialize (Hm w).
  destruct (m w) as [w1 [x|e]]; simpl in *; [|done]. eapply unaffected_trans; [done|apply Hf].
Qed.

Hint Resolve reads_ret reads_lift reads_guard : reads.
Ltac reads := repeat (apply reads_bind; [|intros]); auto with reads.

Lemma reads_seat_for rdev : Reads (seat_for (W := W) rdev).
Proof. unfold seat_for. reads; [intros w; apply udev_reads|]. destruct x. reads. Qed.

Lemma reads_identify path metadata : Reads (identify (W := W) path metadata).
Proof.
  intros w. unfold identify. pose proof (reads_seat_for (nd_rdev metadata) w) as Hr.
  by destruct (seat_for (nd_rdev metadata) w) as [w1 []].
Qed.

Lemma reads_discover_entry entry : Reads (discover_entry (W := W) entry).
Proof.
  unfold discover_entry. reads. destruct x as [name|]; [|reads].
  destruct (event_node name); [|reads]. reads; [intros w; apply lstat_reads|].
  destruct (_ || _); reads. apply reads_identify.
Qed.

Lemma reads_discover : Reads (discover_keyboards (W := W)).
Proof.
  unfold discover_keyboards. reads; [intros w; apply read_dir_reads|].
  generalize (@nil DeviceIdentity). induction x as [|entry entries IH]; intros devices; simpl; [reads|].
  apply reads_bind; [apply reads_discover_entry|]. intros [found|]; [|apply IH].
  apply reads_bind; [apply reads_guard|]. intros []. apply IH.
Qed.

(** ** Letting go of everything *)

Lemma drop_all_spec ps w a w' a' :
  drop_all ps w a = (w', a') → Weak ps w → opened w' = ∅ ∧ grabbed w' = ∅.
Proof.
  unfold drop_all. revert w a. induction ps as [|kv ps IH]; intros w a; simpl.
  { intros [= <- <-] (_ & Ho & Hg). split; [done|set_solver]. }
  destruct (drop_proxy kv.2.2 w a) as [w1 a1] eqn:Hd. intros Hall (Hn & Ho & Hg).
  apply drop_frame in Hd as (Ho1 & Hg1 & _).
  change (fds (kv :: ps)) with (px_fd kv.2.2 :: fds ps) in *.
  apply NoDup_cons in Hn as [Hn Hnd]. rewrite list_to_set_cons in Ho, Hg.
  assert (px_fd kv.2.2 ∉ (list_to_set (fds ps) : gset Z)) as Hx by (by rewrite elem_of_list_to_set).
  eapply IH; [done|]. unfold Weak. rewrite Ho1, Ho, Hg1. clear -Hnd Hx Hg.
  split_and!; [done|set_solver..].
Qed.

Lemma clear_spec l w a :
  Weak (lc_proxies l) w →
  ∃ w' a', clear (l, w, a) = ((set_proxies [] l, w', a'), Ok ()) ∧
    opened w' = ∅ ∧ grabbed w' = ∅ ∧ Inv (set_proxies [] l, w', a').
Proof.
  intros Hw. unfold clear. destruct (drop_all _ w a) as [w' a'] eqn:Hd.
  destruct (drop_all_spec _ _ _ _ _ Hd Hw) as [Ho Hg]. exists w', a'. split_and!; [done..|].
  unfold Inv, WF, Sound, generations, fds; simpl. rewrite Ho, Hg.
  split_and!; try done; apply NoDup_nil_2.
Qed.
(** ** Pumping every proxy *)

(** The same proxy after an operation. *)
Definition same_proxy (kv kv' : string * (DeviceIdentity * DeviceProxy)) : Prop :=
  kv'.1 = kv.1 ∧ kv'.2.1 = kv.2.1 ∧ px_generation kv'.2.2 = px_generation kv.2.2.

Lemma WF_update g path identity d d' ps w a w' a' :
  WF g ((path, (identity, d)) :: ps) w → quiet (d, w, a) (d', w', a') → ProxyInv (d', w', a') →
  WF g ((path, (identity, d')) :: ps) w'.
Proof.
  intros Hw (Hl & Hg & Hp) Hi. pose proof Hl as (Hfd & Hgen & _). simpl in *.
  pose proof (WF_take _ _ _ _ Hw) as Hs. simpl in Hs. apply (Scope_local _ _ _ _ _ _ _ _ Hl) in Hs.
  destruct Hw as ((Hnp & _ & Hng & Ha) & _ & Hgr). apply Forall_cons in Ha as [Hd _].
  destruct Hd as (Hpath & Hle & Hgrab & _); simpl in *. rewrite <- Hfd in Hs.
  apply NoDup_cons in Hnp as [Hnp _], Hng as [Hng _]; simpl in *.
  apply Scope_put; [done| |done|by rewrite Hgen|].
  - rewrite Hg, Hgr, Hfd. set_solver.
  - split_and!; simpl; [done|lia|congruence|done].
Qed.

Lemma Weak_update path identity d d' ps w a w' a' :
  Weak ((path, (identity, d)) :: ps) w → local (d, w, a) (d', w', a') →
  Weak ((path, (identity, d')) :: ps) w'.
Proof.
  intros (Hn & Ho & Hg) (Hfd & _ & Ho' & _ & Hg'); simpl in *.
  unfold Weak, fds in *. simpl in *. rewrite Hfd, Ho'. split_and!; [done..|].
  intros x Hx. destruct (decide (x = px_fd d)); set_solver.
Qed.

Lemma Weak_permutation ps ps' w : ps ≡ₚ ps' → Weak ps w → Weak ps' w.
Proof. unfold Weak, fds. intros Hp. by rewrite Hp. Qed.

Lemma pump_all_spec ps pumped l w a :
  lc_proxies l = pumped ++ ps → Inv (l, w, a) →
  match pump_all pumped ps (l, w, a) with
  | (s', Ok _) => Inv s' ∧ lc_generation s'.1.1 = lc_generation l ∧
      ∃ ps', lc_proxies s'.1.1 = pumped ++ ps' ∧ Forall2 same_proxy ps ps'
  | (s', Err _) => Weak (lc_proxies s'.1.1) s'.1.2 ∧ lc_generation s'.1.1 = lc_generation l
  end.
Proof.
  revert pumped l w a. induction ps as [|[path [identity d]] ps IH]; intros pumped l w a Hl Hi; simpl.
  { split_and!; [done..|]. exists []. by rewrite Hl. }
  set (kv := (path, (identity, d))) in *.
  assert (pumped ++ kv :: ps ≡ₚ kv :: pumped ++ ps) as Hperm by (by rewrite Permutation_middle).
  assert (WF (lc_generation l) (kv :: pumped ++ ps) w) as Hw.
  { eapply WF_permutation; [exact Hperm|]. by rewrite <- Hl. }
  pose proof (pump_local (d, w, a)) as Hloc.
  assert (ProxyInv (d, w, a)) as Hpi by (destruct Hw as ((_ & _ & _ & [Hd _]%Forall_cons) & _); apply Hd).
  pose proof (triple_or_bypass _ _ _ triple_pump_inner (d, w, a) Hpi) as Ht. unfold pump in *.
  destruct (or_bypass pump_inner (d, w, a)) as [[[d1 w1] a1] [[]|e]].
  - assert (Inv (set_proxies ((pumped ++ [(path, (identity, d1))]) ++ ps) l, w1, a1)) as Hi1.
    { unfold Inv; simpl. eapply WF_permutation; [|by eapply WF_update].
      rewrite <- app_assoc. simpl. by rewrite <- Permutation_middle. }
    specialize (IH (pumped ++ [(path, (identity, d1))])
      (set_proxies ((pumped ++ [(path, (identity, d1))]) ++ ps) l) w1 a1 eq_refl Hi1).
    destruct (pump_all _ ps _) as [s2 [[]|e]]; [|done].
    destruct IH as (Hi2 & Hg2 & ps' & Hps & Hf). split_and!; [done..|].
    exists ((path, (identity, d1)) :: ps'). rewrite Hps, <- app_assoc. split; [done|].
    constructor; [|done]. destruct Hloc as ((_ & Hgen & _) & _). done.
  - split; [|done]. simpl. eapply Weak_permutation; [|eapply Weak_update; [by apply WF_weak in Hw|done]].
    rewrite <- app_assoc. simpl. by rewrite <- Permutation_middle.
Qed.

(** ** Reconciliation *)

(** Every proxy of [l'] is an old one, or newer than all of [l]. *)
Definition history l l' : Prop :=
  lc_generation l ≤ lc_generation l' ∧
  ∀ kv', kv' ∈ lc_proxies l' → lc_generation l < px_generation kv'.2.2 ∨
    ∃ kv, kv ∈ lc_proxies l ∧ same_proxy kv kv'.

(** The proxies are those of the keyboards of a seat. *)
Definition seated (candidates : list DeviceIdentity) (st : string) l : Prop :=
  (∀ kv, kv ∈ lc_proxies l → kv.2.1 ∈ candidates ∧ di_seat kv.2.1 = st) ∧
  (∀ i, i ∈ candidates → di_seat i = st → di_path i ∈ (fst <$> lc_proxies l)).

Lemma reconcile_proxies_spec peer l w a :
  Inv (l, w, a) →
  match reconcile peer (l, w, a) with
  | (s', Ok _) => Inv s' ∧ history l s'.1.1 ∧
      ∃ proof candidates, (authority_verify a peer).2 = Ok proof ∧ permits proof peer = true ∧
        (discover_keyboards w).2 = Ok candidates ∧ seated candidates (seat proof) s'.1.1
  | (s', Err _) => Inv s' ∧ lc_generation l ≤ lc_generation s'.1.1
  end.
Proof.
  intros Hi. unfold reconcile, on_authority, mbind, IO_bind.
  destruct (authority_verify a peer) as [a1 [proof|e]] eqn:Hv; simpl; [|done].
  destruct (permits proof peer) eqn:Hp; cbn [negb].
  2:{ destruct (clear_spec l w a1) as (w' & a' & Hc & Hi'); [by eapply WF_weak|].
      rewrite Hc. simpl. split; [apply Hi'|lia]. }
  unfold on_world. destruct (reads_discover w) as (Hg & Ho & Hh).
  destruct (discover_keyboards w) as [w1 [candidates|e]] eqn:Hdisc; simpl in *;
    (assert (Inv (l, w1, a1)) as Hi1 by (by eapply WF_reads)); [|done].
  set (removed := fst <$> _).
  pose proof (retire_all removed l w1 a1 Hi1) as Hret.
  destruct (io_each retire removed _) as [[[l2 w2] a2] [[]|e]]; [|simpl in *; split; [apply Hret|lia]].
  destruct Hret as (Hi2 & Hg2 & Hin2). simpl in *.
  pose proof (admit_all peer (filter (λ i, di_seat i = seat proof) candidates) l2 w2 a2 Hi2) as Had.
  destruct (io_each _ _ _) as [s3 [[]|e]]; [|destruct Had; split; [done|lia]].
  destruct Had as (Hi3 & Hg3 & Hkeep & Hids & Hnew). split; [done|].
  split; [split; [lia|]|exists proof, candidates; split_and!; [done..|split]].
  - intros kv [[Hin _]%Hin2|[_ Hlt]]%Hnew; [right|left; lia]. by exists kv.
  - intros kv [[Hin Hn]%Hin2|[Hin _]]%Hnew; [|by apply list_elem_of_filter in Hin as [? ?]].
    unfold removed in Hn.
    assert (¬ (kv.2.1 ∉ candidates ∨ di_seat kv.2.1 ≠ seat proof)) as Hok.
    { intros Hbad. apply Hn. apply list_elem_of_fmap_2, list_elem_of_filter. done. }
    split; apply dec_stable; tauto.
  - intros i Hc Hs. apply Hids, list_elem_of_filter. done.
Qed.
End steps.

(** ** The life of a lifecycle *)

Section reach.
Context {W A : Type} `{DeviceLaws W, SessionAuthority A}.

(** Any steps, failed ones included, bypasses and pauses after the start, where the
    process has no input node open. *)
Inductive lifecycle_reach : @LSt W A → Prop :=
  | lr_new w a : opened w = ∅ → grabbed w = ∅ → lifecycle_reach (ProxyLifecycle_default, w, a)
  | lr_step s s' r : lifecycle_reach s → lifecycle_step s = (s', r) → lifecycle_reach s'
  | lr_bypass s s' : lifecycle_reach s → lifecycle_bypass s = (s', Ok ()) → lifecycle_reach s'
  | lr_sleep l w a : lifecycle_reach (l, w, a) → lifecycle_reach (l, dv_sleep w, a).

Lemma step_proxies_spec (l : ProxyLifecycle) (w : W) (a : A) :
  Inv (l, w, a) →
  match step_proxies (l, w, a) with
  | (s', Ok _) => Inv s' ∧ history l s'.1.1 ∧
      ∃ w1 peer proof candidates, k_peer_identity w = (w1, Ok peer) ∧
        (authority_verify a peer).2 = Ok proof ∧ permits proof peer = true ∧
        (discover_keyboards w1).2 = Ok candidates ∧ seated candidates (seat proof) s'.1.1
  | (s', Err _) => Weak (lc_proxies s'.1.1) s'.1.2 ∧ lc_generation l ≤ lc_generation s'.1.1
  end.
Proof.
  intros Hi. unfold step_proxies, on_world, mbind, IO_bind.
  pose proof (λ fd, peer_identity_frame w fd) as Hh.
  destruct (peer_identity_grabs w) as [Hg Ho].
  destruct (k_peer_identity w) as [w1 [peer|e]] eqn:Hpeer; simpl in *;
    (assert (Inv (l, w1, a)) as Hi1 by (eapply WF_reads; [..|exact Hi]; try done; apply Hh));
    [|by split; [eapply WF_weak|]].
  pose proof (reconcile_proxies_spec peer l w1 a Hi1) as Hr.
  destruct (reconcile peer (l, w1, a)) as [[[l2 w2] a2] [[]|e]];
    [|destruct Hr; split; [by eapply WF_weak|done]].
  destruct Hr as (Hi2 & [Hle Hold] & proof & candidates & Hv & Hp & Hd & Hs1 & Hs2). simpl in *.
  pose proof (pump_all_spec (lc_proxies l2) [] l2 w2 a2 eq_refl Hi2) as Hpump.
  destruct (pump_all [] (lc_proxies l2) _) as [[[l3 w3] a3] [[]|e]];
    [|destruct Hpump; split; [done|simpl in *; lia]].
  destruct Hpump as (Hi3 & Hg3 & ps' & Hps & Hf). simpl in *.
  assert (∀ kv', kv' ∈ lc_proxies l3 → ∃ kv, kv ∈ lc_proxies l2 ∧ same_proxy kv kv') as Hback.
  { rewrite Hps. intros kv' [i Hi']%list_elem_of_lookup.
    destruct (Forall2_lookup_r _ _ _ _ _ Hf Hi') as (kv & Hk & Hsame). exists kv.
    split; [by eapply list_elem_of_lookup_2|done]. }
  split; [done|]. split; [split; [lia|]|exists w1, peer, proof, candidates; split_and!; [done..|split]].
  - intros kv' (kv & Hin & Hsame)%Hback. pose proof Hsame as (Hk & Hid & Hgen).
    destruct (Hold kv Hin) as [Hlt|(kv0 & Hin0 & Hk0 & Hid0 & Hgen0)]; [left; lia|right].
    exists kv0. split; [done|]. split_and!; congruence.
  - intros kv' (kv & Hin & _ & -> & _)%Hback. auto.
  - intros i Hc Hseat. pose proof (Hs2 i Hc Hseat) as Hin. rewrite Hps.
    replace (fst <$> ps') with (fst <$> lc_proxies l2); [done|].
    clear -Hf. induction Hf as [|kv kv' l l' (Hk & _) _ IH]; [done|].
    rewrite !fmap_cons, Hk. by f_equal.
Qed.

Lemma step_failed (l : ProxyLifecycle) (w : W) (a : A) s' e :
  Inv (l, w, a) → lifecycle_step (l, w, a) = (s', Err e) →
  lc_proxies s'.1.1 = [] ∧ lc_generation l ≤ lc_generation s'.1.1 ∧
  grabbed s'.1.2 = ∅ ∧ opened s'.1.2 = ∅ ∧ Inv s'.
Proof.
  intros Hi. unfold lifecycle_step. pose proof (step_proxies_spec l w a Hi) as Hs.
  destruct (step_proxies (l, w, a)) as [[[l1 w1] a1] [[]|e1]]; [done|]. destruct Hs as [Hw Hle].
  destruct (clear_spec l1 w1 a1 Hw) as (w' & a' & Hc & Ho & Hg & Hinv). rewrite Hc.
  intros [= <- <-]. done.
Qed.

Lemma reach_inv s : lifecycle_reach s → Inv s.
Proof.
  induction 1 as [w a Ho Hg|s s' r _ IH Hs|s s' _ IH Hs|l w a _ IH].
  - unfold Inv, WF, Sound, fds, generations; simpl. rewrite Ho, Hg.
    split_and!; try done; apply NoDup_nil_2.
  - destruct s as [[l w] a]. destruct r as [[]|e]; [|by eapply step_failed].
    pose proof (step_proxies_spec l w a IH) as Hok. unfold lifecycle_step in Hs.
    destruct (step_proxies (l, w, a)) as [s1 [[]|e]]; [|done]. injection Hs as <-. apply Hok.
  - destruct s as [[l w] a]. destruct (clear_spec l w a) as (w' & a' & Hc & _ & _ & Hinv);
      [by eapply WF_weak|]. unfold lifecycle_bypass in Hs. rewrite Hc in Hs. by injection Hs as <-.
  - destruct (sleep_reads w) as (Hg & Ho & Hh). by eapply WF_reads.
Qed.
End reach.

(** C19. The service holds exactly the keyboards of its proxies. In every state a
    lifecycle can reach, through failed steps, hot-plugging, bypasses and pauses, the
    input nodes the process has open and those it has grabbed are exactly the
    descriptors of the proxies in the map; no node, descriptor or generation occurs
    twice, every proxy's generation was issued, and what each proxy committed is what
    the reader of its virtual keyboard holds. *)
Theorem service_holds_its_proxies {W A} `{DeviceLaws W, SessionAuthority A}
    (l : ProxyLifecycle) (w : W) (a : A) :
  lifecycle_reach (l, w, a) →
  opened w = list_to_set (fds (lc_proxies l)) ∧ grabbed w = list_to_set (fds (lc_proxies l)) ∧
  NoDup (fst <$> lc_proxies l) ∧ NoDup (fds (lc_proxies l)) ∧ NoDup (generations (lc_proxies l)) ∧
  ∀ path identity d, (path, (identity, d)) ∈ lc_proxies l →
    di_path identity = path ∧ px_generation d ≤ lc_generation l ∧ px_grabbed d = true ∧
    committed_output (px_state d) = held w (px_fd d).
Proof.
  intros ((Hp & Hf & Hg & Ha) & Ho & Hgr)%reach_inv. simpl in *. split_and!; [done..|].
  intros path identity d Hin. destruct (proj1 (Forall_forall _ _) Ha _ Hin) as (? & ? & ? & Hi).
  split_and!; [done..|]. rewrite app_nil_r in Hi. apply Hi.
Qed.

(** C7. A failed step lets go of everything. When any part of a step fails (the
    client is gone, the authority denies, a node changed under the service, one
    keyboard's pump failed), no proxy is left, no keyboard stays grabbed and no input
    node stays open; and the same holds when the lifecycle is bypassed. *)
Theorem failed_step_frees_all {W A} `{DeviceLaws W, SessionAuthority A} (s s' : @LSt W A) e :
  lifecycle_reach s →
  (lifecycle_step s = (s', Err e) ∨ lifecycle_bypass s = (s', Ok ())) →
  lc_proxies s'.1.1 = [] ∧ grabbed s'.1.2 = ∅ ∧ opened s'.1.2 = ∅ ∧
  lc_generation s.1.1 ≤ lc_generation s'.1.1.
Proof.
  destruct s as [[l w] a]. intros Hi%reach_inv [Hs|Hs].
  - destruct (step_failed _ _ _ _ _ Hi Hs) as (? & ? & ? & ? & _). done.
  - destruct (clear_spec l w a) as (w' & a' & Hc & Ho & Hg & _); [by eapply WF_weak|].
    unfold lifecycle_bypass in Hs. rewrite Hc in Hs. injection Hs as <-. done.
Qed.

(** A successful step captures the authorized seat, and only it. The kernel
    identified the peer, the authority's proof permits it, and the proxies after the
    step are exactly the discovered keyboards of the proof's seat; a proxy that was
    not there before carries a generation above every one issued before. *)
Theorem step_captures_the_seat {W A} `{DeviceLaws W, SessionAuthority A}
    (l : ProxyLifecycle) (w : W) (a : A) (s' : @LSt W A) :
  lifecycle_reach (l, w, a) → lifecycle_step (l, w, a) = (s', Ok ()) →
  history l s'.1.1 ∧
  ∃ w1 peer proof candidates, k_peer_identity w = (w1, Ok peer) ∧
    (authority_verify a peer).2 = Ok proof ∧ permits proof peer = true ∧
    (discover_keyboards w1).2 = Ok candidates ∧ seated candidates (seat proof) s'.1.1.
Proof.
  intros Hi%reach_inv. unfold lifecycle_step. pose proof (step_proxies_spec l w a Hi) as Hs.
  destruct (step_proxies (l, w, a)) as [s1 [[]|e]]; [|done]. intros [= <-]. apply Hs.
Qed.

(** ** Discovery *)

(** The file system showed a keyboard node and a trusted udev record for it. *)
Definition trusted {W} `{Devices W} (d : DeviceIdentity) : Prop :=
  ∃ name node w1 w1' record contents data w2 w2',
    event_node name = true ∧ di_path d = input_path name ∧
    dv_lstat (di_path d) w1 = (w1', Ok node) ∧
    nd_is_char_device node = true ∧ dv_major (W := W) (nd_rdev node) = 13 ∧
    di_device d = nd_dev node ∧ di_inode d = nd_ino node ∧ di_rdev d = nd_rdev node ∧
    dv_udev (dv_major (W := W) (di_rdev d)) (dv_minor (W := W) (di_rdev d)) w2 =
      (w2', Ok (Ok record, Ok contents)) ∧
    nd_is_file record = true ∧ nd_uid record = 0 ∧ Z.land (nd_mode record) 18 = 0 ∧
    bounded_text contents = Ok data ∧ record_seat data = Ok (di_seat d).

Lemma io_bind_Ok {S X Y} (m : IO S X) (f : X → IO S Y) s s' y :
  (m ≫= f) s = (s', Ok y) → ∃ x s1, m s = (s1, Ok x) ∧ f x s1 = (s', Ok y).
Proof. unfold mbind, IO_bind. destruct (m s) as [s1 [x|e]]; [eauto|done]. Qed.

Lemma io_guard_Ok {S} b (s s' : S) u : io_guard b s = (s', Ok u) → b = false ∧ s' = s.
Proof. destruct b; [done|]. by intros [= ->]. Qed.

Lemma seat_for_Ok {W} `{Devices W} rdev (w w' : W) st :
  seat_for rdev w = (w', Ok st) →
  ∃ w1 record contents data,
    dv_udev (dv_major (W := W) rdev) (dv_minor (W := W) rdev) w = (w1, Ok (Ok record, Ok contents)) ∧
    nd_is_file record = true ∧ nd_uid record = 0 ∧ Z.land (nd_mode record) 18 = 0 ∧
    bounded_text contents = Ok data ∧ record_seat data = Ok st.
Proof.
  intros ([metadata contents] & w1 & Hu & Hk)%io_bind_Ok.
  apply io_bind_Ok in Hk as (record & w2 & [= <- ->] & Hk).
  apply io_bind_Ok in Hk as (u & w3 & [Hg ->]%io_guard_Ok & Hk).
  apply io_bind_Ok in Hk as (bs & w4 & [= <- ->] & Hk).
  apply io_bind_Ok in Hk as (data & w5 & [= <- Hd] & [= <- Hr]).
  unfold group_writable in Hg. rewrite !orb_false_iff, !negb_false_iff, !bool_decide_eq_true in Hg.
  destruct Hg as [[Hf Hu0] Hm]. by exists w1, record, bs, data.
Qed.

Lemma discover_entry_Ok {W} `{Devices W} entry (w w' : W) d :
  discover_entry entry w = (w', Ok (Some (Some d))) → trusted (W := W) d.
Proof.
  intros ([name|] & w1 & _ & Hk)%io_bind_Ok; [|done].
  destruct (event_node name) eqn:Hn; [|done].
  apply io_bind_Ok in Hk as (node & w2 & Hl & Hk).
  destruct (_ || _) eqn:Hc; [done|]. apply io_bind_Ok in Hk as (found & w3 & Hid & [= -> ->]).
  unfold identify in Hid. destruct (seat_for (nd_rdev node) w2) as [w4 [st|e]] eqn:Hs; [|done].
  injection Hid as <- <-. apply seat_for_Ok in Hs as (w5 & record & bs & data & Hs).
  rewrite !orb_false_iff, !negb_false_iff, bool_decide_eq_true in Hc. destruct Hc as [Hchar Hmaj].
  exists name, node, w1, w2, record, bs, data, w2, w5. simpl. tauto.
Qed.

(** Discovery admits only what the file system vouches for: at most 64 nodes,
    each a character device of the input major named event<n> under /dev/input whose
    udev record is a regular file that root owns and nobody else may write, names it a
    keyboard and gives its seat. *)
Theorem discovery_is_trusted {W} `{Devices W} (w w' : W) devices :
  discover_keyboards w = (w', Ok devices) →
  (length devices ≤ 64)%nat ∧ ∀ d, d ∈ devices → trusted (W := W) d.
Proof.
  intros (entries & w0 & _ & Hk)%io_bind_Ok. revert Hk.
  assert (length (@nil DeviceIdentity) ≤ 64 ∧ ∀ d, d ∈ @nil DeviceIdentity → trusted (W := W) d)%nat as Hnil
    by (split; [simpl; lia|set_solver]). revert Hnil. generalize (@nil DeviceIdentity).
  revert w0. induction entries as [|entry entries IH]; intros w0 acc Hacc; simpl; [by intros [= _ <-]|].
  intros (found & w1 & He & Hk)%io_bind_Ok. destruct found as [found|]; [|by eapply IH].
  apply io_bind_Ok in Hk as (u & w2 & [Hb ->]%io_guard_Ok & Hk).
  eapply IH; [|exact Hk]. apply bool_decide_eq_false in Hb. split; [lia|].
  intros d [Hd|Hd]%elem_of_app; [by apply Hacc|].
  destruct found as [d0|]; simpl in Hd; [|by apply elem_of_nil in Hd].
  apply list_elem_of_singleton in Hd as ->. by eapply discover_entry_Ok.
Qed.

(** ** The shipped service *)

(** logind's lock hint never proves a session unlocked. *)
Lemma logind_never_permits {B} `{Bus B} (a : LogindAuthority B) (p q : PeerIdentity) :
  match authority_verify a p with
  | (_, Ok proof) => permits proof q = false
  | (_, Err _) => True
  end.
Proof.
  simpl. destruct (inspect p (connection a)) as [b r] eqn:Hi. destruct r as [proof|e]; [|done].
  unfold inspect in Hi.
  repeat (apply io_bind_Ok in Hi as (? & ? & _ & Hi)). injection Hi as _ <-.
  unfold permits; simpl. match goal with |- context [if ?b then Some false else None] => destruct b end;
    simpl; rewrite !andb_false_r; done.
Qed.

(** The service as it ships, with logind as its authority, never captures: for
    every connection it asks the kernel who the peer is and logind about its session,
    refuses, and does nothing else; no node is listed, opened or grabbed, whatever
    logind answers. *)
Theorem shipped_service_never_captures {W B} `{Kernel W, Devices W, Bus B} fuel (w : W)
    (a : LogindAuthority B) :
  ∃ a' r, serve_connection fuel w a = Some ((k_peer_identity w).1, a', r) ∧
    match r with Ok served => served = false | Err e => (k_peer_identity w).2 = Err e end.
Proof.
  unfold serve_connection. destruct (k_peer_identity w) as [w1 [p|e]]; simpl; [|by eexists _, _].
  pose proof (logind_never_permits a p p) as Hp. simpl in Hp.
  destruct (inspect p (connection a)) as [b [proof|e]]; [rewrite Hp|]; by eexists _, _.
Qed.

(** A client's service ends clean: when the peer's session was authorized and the
    loop over its steps ended, no keyboard is grabbed and no input node is open,
    whatever authority the service runs with. *)
Theorem served_connection_frees_all {W A} `{DeviceLaws W, SessionAuthority A} fuel (w w' : W)
    (a a' : A) r :
  opened w = ∅ → grabbed w = ∅ → serve_connection fuel w a = Some (w', a', r) →
  opened w' = ∅ ∧ grabbed w' = ∅.
Proof.
  intros Ho Hg. unfold serve_connection. destruct (peer_identity_grabs w) as [Hg1 Ho1].
  destruct (k_peer_identity w) as [w1 [p|e]]; simpl in *; [|intros [= <- <- <-]; by rewrite Ho1, Hg1].
  destruct (authority_verify a p) as [a1 [proof|e]]; [|intros [= <- <- <-]; by rewrite Ho1, Hg1].
  destruct (permits proof p); [|intros [= <- <- <-]; by rewrite Ho1, Hg1].
  assert (∀ s s', lifecycle_reach s → serve_client fuel s = Some s' → lifecycle_reach s') as Hloop.
  { induction fuel as [|fuel IH]; [done|]. intros s s' Hs. simpl.
    destruct (lifecycle_step s) as [[[l2 w2] a2] [[]|e]] eqn:Hstep.
    - apply IH. apply lr_sleep. by eapply lr_step.
    - intros [= <-]. by eapply lr_step. }
  destruct (serve_client fuel _) as [[[l2 w2] a2]|] eqn:Hs; [|done].
  apply Hloop in Hs; [|apply lr_new; congruence].
  destruct (clear_spec l2 w2 a2) as (w3 & a3 & Hc & Ho3 & Hg3 & _); [by apply reach_inv, WF_weak in Hs|].
  unfold lifecycle_bypass. cbn [mbind option_bind]. rewrite Hc. simpl. by intros [= <- <- <-].
Qed.

(** ** Witnesses

    The simulated kernel of BrokerInv.v with the nodes of /dev/input, of which the
    service has some open and some grabbed; every node is a keyboard of seat0. *)

Record Desk : Type := mkDesk {
  dk_sim : Sim;
  dk_nodes : list string;
  dk_opened : gset Z;
  dk_grabbed : gset Z;
}.

Definition dk_call {X} (f : Sim → Sim * X) (w : Desk) : Desk * X :=
  let '(s, r) := f (dk_sim w) in (mkDesk s (dk_nodes w) (dk_opened w) (dk_grabbed w), r).
Definition dk_set_grabbed (g : gset Z) (w : Desk) : Desk :=
  mkDesk (dk_sim w) (dk_nodes w) (dk_opened w) g.
Definition dk_set_opened (o : gset Z) (w : Desk) : Desk :=
  mkDesk (dk_sim w) (dk_nodes w) o (dk_grabbed w).

#[export] Instance Desk_kernel : Kernel Desk := {
  k_peer_identity := dk_call k_peer_identity;
  k_poll_peer := dk_call k_poll_peer;
  k_poll_input w fd := dk_call (λ s, k_poll_input s fd) w;
  k_fetch_events w fd := dk_call (λ s, k_fetch_events s fd) w;
  k_get_key_state w fd := dk_call (λ s, k_get_key_state s fd) w;
  k_set_timeouts := dk_call k_set_timeouts;
  k_write_socket w m := dk_call (λ s, k_write_socket s m) w;
  k_read_socket := dk_call k_read_socket;
  k_grab w fd := (dk_set_grabbed ({[fd]} ∪ dk_grabbed w) w, Ok ());
  k_ungrab w fd := (dk_set_grabbed (dk_grabbed w ∖ {[fd]}) w, Ok ());
  k_emit w fd p := dk_call (λ s, k_emit s fd p) w;
  k_nonblocking w fd := dk_call (λ s, k_nonblocking s fd) w;
  k_raw_device w fd := dk_call (λ s, k_raw_device s fd) w;
  k_build_output w fd keys misc := dk_call (λ s, k_build_output s fd keys misc) w;
}.

#[export] Instance Desk_laws : KernelLaws Desk.
Proof.
  refine {| held w := sim_view (dk_sim w); sent w := sim_sent (dk_sim w) |}; try done.
  - intros w fd p w' u [= <-]. unfold sim_view; simpl. by rewrite lookup_insert_eq.
  - intros w fd p fd' Hfd. unfold sim_view; simpl. by rewrite lookup_insert_ne.
  - by intros w m w' r [= <- <-].
  - intros w fd w' keys [= <- <-]. set_solver.
  - intros w fd keys misc w' u [= <-]. unfold sim_view; simpl. by rewrite lookup_insert_eq.
Defined.

Definition dk_node : Node := mkNode false false true 0 432 5 77 3333 .
Definition dk_record : Node := mkNode true false false 0 420 6 78 0.

#[export] Instance Desk_devices : Devices Desk := {
  dv_major _ := 13;
  dv_minor _ := 64;
  dv_read_dir w := (w, Ok ((λ name, Ok (Some name)) <$> dk_nodes w));
  dv_lstat _ w := (w, Ok dk_node);
  dv_udev _ _ w :=
    (w, Ok (Ok dk_record, Ok (String.list_byte_of_string "E:ID_INPUT_KEYBOARD=1")));
  dv_open _ w :=
    let fd := if bool_decide (5 ∈ dk_opened w) then fresh (dk_opened w) else 5 in
    (dk_set_opened ({[fd]} ∪ dk_opened w) w, Ok fd);
  dv_fstat _ w := (w, Ok dk_node);
  dv_close fd w := dk_set_grabbed (dk_grabbed w ∖ {[fd]}) (dk_set_opened (dk_opened w ∖ {[fd]}) w);
  dv_sleep w := w;
}.

#[export] Instance Desk_device_laws : DeviceLaws Desk.
Proof.
  refine {| grabbed := dk_grabbed; opened := dk_opened |}; try done.
  - by intros w fd w' r [= <- <-].
  - intros w fd. simpl. set_solver.
  - intros path w w' r [= <- <-]. simpl. split_and!; [done..| |done].
    case_bool_decide; [apply is_fresh|done].
  - intros w fd keys misc fd' Hfd. unfold held; simpl. unfold sim_view; simpl.
    by rewrite lookup_insert_ne.
Defined.

(** One keyboard among other nodes, and a client that hangs up after one batch. *)
Definition desk_start : Desk := mkDesk sim_start ["mouse0"; "event3"]%string ∅ ∅.
Definition desk_new : @LSt Desk DeskAuthority :=
  (ProxyLifecycle_default, desk_start, mkDeskAuthority).
Definition desk_served : @LSt Desk DeskAuthority := (lifecycle_step desk_new).1.

Lemma desk_new_reach : lifecycle_reach desk_new.
Proof. by apply lr_new. Qed.

Lemma desk_step_Ok : lifecycle_step desk_new = (desk_served, Ok ()).
Proof.
  assert ((lifecycle_step desk_new).2 = Ok ()) as Hr by (vm_compute; reflexivity).
  exact (pair_eta _ _ Hr).
Qed.

Lemma desk_served_reach : lifecycle_reach desk_served.
Proof. eapply lr_step; [apply desk_new_reach|apply desk_step_Ok]. Qed.

Lemma reach_eta {W A} `{DeviceLaws W, SessionAuthority A} (s : @LSt W A) :
  lifecycle_reach s → lifecycle_reach (s.1.1, s.1.2, s.2).
Proof. by destruct s as [[]]. Qed.

(** The step captured the one keyboard, and only it. *)
Lemma service_holds_its_proxies_witness :
  (length (lc_proxies desk_served.1.1) = 1)%nat ∧
  grabbed desk_served.1.2 = list_to_set (fds (lc_proxies desk_served.1.1)).
Proof.
  split; [vm_compute; reflexivity|].
  exact (proj1 (proj2 (service_holds_its_proxies desk_served.1.1 desk_served.1.2 desk_served.2
    (reach_eta _ desk_served_reach)))).
Defined.

Lemma step_captures_the_seat_witness :
  ∃ w1 peer proof candidates, k_peer_identity desk_start = (w1, Ok peer) ∧
    (authority_verify mkDeskAuthority peer).2 = Ok proof ∧ permits proof peer = true ∧
    (discover_keyboards w1).2 = Ok candidates ∧ seated candidates (seat proof) desk_served.1.1.
Proof.
  exact (proj2 (step_captures_the_seat ProxyLifecycle_default desk_start mkDeskAuthority
    desk_served desk_new_reach desk_step_Ok)).
Defined.

(** The client hangs up, and the second step fails. *)
Definition desk_failed : @LSt Desk DeskAuthority := (lifecycle_step desk_served).1.

Lemma desk_step_Err : lifecycle_step desk_served = (desk_failed, Err BrokenPipe).
Proof.
  assert ((lifecycle_step desk_served).2 = Err BrokenPipe) as Hr by (vm_compute; reflexivity).
  exact (pair_eta _ _ Hr).
Qed.

Lemma failed_step_frees_all_witness :
  lc_proxies desk_failed.1.1 = [] ∧ grabbed desk_failed.1.2 = ∅ ∧ opened desk_failed.1.2 = ∅ ∧
  lc_generation desk_served.1.1 ≤ lc_generation desk_failed.1.1.
Proof.
  exact (failed_step_frees_all desk_served desk_failed BrokenPipe desk_served_reach
    (or_introl desk_step_Err)).
Defined.

Lemma discovery_is_trusted_witness :
  ∃ d, (discover_keyboards desk_start).2 = Ok [d] ∧ trusted (W := Desk) d.
Proof.
  exists (mkDeviceIdentity "/dev/input/event3" 5 77 3333 "seat0"). split; [vm_compute; reflexivity|].
  apply (discovery_is_trusted desk_start desk_start
    [mkDeviceIdentity "/dev/input/event3" 5 77 3333 "seat0"]); [vm_compute; reflexivity|].
  by apply list_elem_of_singleton.
Defined.

Definition desk_after : Desk * DeskAuthority * result IoErrorKind bool :=
  default (desk_start, mkDeskAuthority, Err OtherKind) (serve_connection 2 desk_start mkDeskAuthority).

Lemma served_connection_frees_all_witness :
  desk_after.2 = Ok true ∧ opened desk_after.1.1 = ∅ ∧ grabbed desk_after.1.1 = ∅.
Proof.
  split; [vm_compute; reflexivity|].
  apply (served_connection_frees_all 2 desk_start desk_after.1.1 mkDeskAuthority desk_after.1.2
    desk_after.2); [reflexivity|reflexivity|].
  assert (is_Some (serve_connection 2 desk_start mkDeskAuthority)) as [x Hx]
    by (vm_compute; eauto).
  unfold desk_after. rewrite Hx. simpl. by destruct x as [[]].
Defined.
