(* ===== verification/BrokerMain.v ===== *)
(** * The broker executable (linux/src/bin/sledge-linux-broker.rs)

    [serve] and [main] around the service of Lifecycle.v: the checks of the user and
    of the arguments, the listener that the launcher hands over, and one connection
    after the other. The process, its descriptors and the connection to the authority
    are the class [Launcher]; an error that the executable makes up carries its text.

    Whatever the authority and however the executable ends, it holds no keyboard
    afterwards, and it cannot end well: [main] always reports a failure. With logind
    as its authority, as it ships, it never opens a keyboard at all. *)

From S2P Require Import Prelude Bytes Text Protocol KeyState Authorization Broker BrokerInv Lifecycle LifecycleThm.

Class Launcher (W A : Type) : Type := {
  (** [nix::unistd::geteuid] *)
  la_geteuid : W → Z;
  (** [LogindAuthority::connect] *)
  la_connect : IO W A;
  (** [fcntl(fd, F_DUPFD_CLOEXEC(3))], and the close of a descriptor that is dropped *)
  la_dupfd : Z → IO W Z;
  la_close : Z → W → W;
  (** [getsockopt(AcceptConn)] and [UnixListener::local_addr] *)
  la_accept_conn : Z → IO W bool;
  la_local_addr : Z → IO W unit;
  (** The next of [listener.incoming()], which becomes the client of the kernel's
      socket operations; and the drop of the client *)
  la_accept : Z → IO W unit;
  la_hangup : W → W;
}.

(** An [io::Error] of the executable's own, or one of a call *)
Inductive ServeError : Type :=
  | Refused (kind : IoErrorKind) (message : string)
  | Failed (kind : IoErrorKind).

Section executable.
Context {W A : Type} `{Kernel W, Devices W, SessionAuthority A, !Launcher W A}.

(** [for client in listener.incoming()]: [None] when [fuel] clients came and went, or
    one of them was still served after [steps] steps. *)
Fixpoint serve_clients (steps fuel : nat) (listener : Z) (w : W) (a : A) :
    option (W * IoErrorKind) :=
  match fuel with
  | O => None
  | S fuel =>
      match la_accept (A := A) listener w with
      | (w, Err e) => Some (w, e)
      | (w, Ok _) =>
          '(w, a, r) ← serve_connection steps w a;
          let w := la_hangup (A := A) w in
          match r with
          | Err e => Some (w, e)
          | Ok _ => serve_clients steps fuel listener w a
          end
      end
  end.

(** From the duplicated descriptor on: it is closed at every return. *)
Definition serve_listener (steps fuel : nat) (owned : Z) (w : W) : option (W * result ServeError unit) :=
  let closing w e := Some (la_close (A := A) owned w, Err e) in
  match la_accept_conn (A := A) owned w with
  | (w, Err e) => closing w (Failed e)
  | (w, Ok false) => closing w (Refused OtherKind "fd is not a listening socket")
  | (w, Ok true) =>
      match la_local_addr (A := A) owned w with
      | (w, Err e) => closing w (Failed e)
      | (w, Ok _) =>
          match la_connect w with
          | (w, Err e) => closing w (Failed e)
          | (w, Ok authority) =>
              '(w, e) ← serve_clients steps fuel owned w authority;
              closing w (Failed e)
          end
      end
  end.

(** [serve]. The loop over [incoming] has no end of its own, so its [Ok(())] is never reached. *)
Definition serve (steps fuel : nat) (arguments : list string) (w : W) : option (W * result ServeError unit) :=
  if negb (bool_decide (la_geteuid (A := A) w = 0))
  then Some (w, Err (Refused PermissionDenied "broker requires narrowly privileged launcher"))
  else if bool_decide (arguments = ["--check"])
  then
    match la_connect (A := A) w with
    | (w, Err e) => Some (w, Err (Failed e))
    | (w, Ok _) => Some (w, Err (Refused PermissionDenied
        "system bus reachable; strict lock/device ownership authority unqualified; no devices opened"))
    end
  else
    match arguments with
    | [flag; number] =>
        if negb (bool_decide (flag = "--listen-fd")) then
          Some (w, Err (Refused OtherKind
            "usage: sledge-linux-broker --listen-fd FD (trusted pre-bound Unix listener; strict lock authority still required)"))
        else
          match parse_i32 number with
          | None => Some (w, Err (Failed OtherKind))
          | Some fd =>
              if bool_decide (fd < 3)
              then Some (w, Err (Refused OtherKind "listener must not be a standard stream"))
              else
                match la_dupfd (A := A) fd w with
                | (w, Err e) => Some (w, Err (Failed e))
                | (w, Ok owned) => serve_listener steps fuel owned w
                end
          end
    | _ => Some (w, Err (Refused OtherKind
        "usage: sledge-linux-broker --listen-fd FD (trusted pre-bound Unix listener; strict lock authority still required)"))
    end.
End executable.

(** [main]: what is written to the standard error stream and whether the exit code is
    [SUCCESS]; [None] is the build for another system. *)
Definition broker_main (display : ServeError → string) (served : option (result ServeError unit)) :
    list string * bool :=
  match served with
  | None => (["sledge-linux-broker is only available on Linux"], false)
  | Some (Ok _) => ([], true)
  | Some (Err e) => (["sledge-linux-broker: " +:+ display e], false)
  end.

(** ** What is assumed of the launcher: none of its calls concerns an input node. *)
Class LauncherLaws (W A : Type) `{DeviceLaws W, !Launcher W A} : Type := {
  connect_nodes w : opened (la_connect (A := A) w).1 = opened w ∧ grabbed (la_connect (A := A) w).1 = grabbed w;
  dupfd_nodes fd w : opened (la_dupfd (A := A) fd w).1 = opened w ∧ grabbed (la_dupfd (A := A) fd w).1 = grabbed w;
  la_close_nodes fd w : opened (la_close (A := A) fd w) = opened w ∧ grabbed (la_close (A := A) fd w) = grabbed w;
  accept_conn_nodes fd w :
    opened (la_accept_conn (A := A) fd w).1 = opened w ∧ grabbed (la_accept_conn (A := A) fd w).1 = grabbed w;
  local_addr_nodes fd w :
    opened (la_local_addr (A := A) fd w).1 = opened w ∧ grabbed (la_local_addr (A := A) fd w).1 = grabbed w;
  accept_nodes fd w : opened (la_accept (A := A) fd w).1 = opened w ∧ grabbed (la_accept (A := A) fd w).1 = grabbed w;
  hangup_nodes w : opened (la_hangup (A := A) w) = opened w ∧ grabbed (la_hangup (A := A) w) = grabbed w;
}.

Section nodes.
Context {W A : Type} `{LauncherLaws W A, !SessionAuthority A}.
(** A property of the nodes the process has open and grabbed *)
Variable P : gset Z → gset Z → Prop.
Abbreviation holds w := (P (opened w) (grabbed w)).
(** every connection preserves it *)
Hypothesis connection_keeps : ∀ steps (w w' : W) (a a' : A) r,
  holds w → serve_connection steps w a = Some (w', a', r) → holds w'.

Lemma serve_clients_nodes steps fuel listener : ∀ (w w' : W) (a : A) e,
  holds w → serve_clients steps fuel listener w a = Some (w', e) → holds w'.
Proof.
  induction fuel as [|fuel IH]; [done|]. intros w w' a e Hw. cbn [serve_clients].
  destruct (accept_nodes (A := A) listener w) as [Ho Hg].
  destruct (la_accept listener w) as [w1 [[]|e1]]; simpl in *; [|intros [= <- _]; congruence].
  destruct (serve_connection steps w1 a) as [[[w2 a2] r]|] eqn:Hs; simpl; [|done].
  assert (holds w2) as Hw2 by (eapply connection_keeps; [|exact Hs]; congruence).
  destruct (hangup_nodes (A := A) w2) as [Ho2 Hg2].
  destruct r; [apply IH|intros [= <- _]]; congruence.
Qed.

Lemma serve_listener_nodes steps fuel owned (w w' : W) e :
  holds w → serve_listener (A := A) steps fuel owned w = Some (w', e) → holds w'.
Proof.
  assert (∀ (w w' : W) (e e' : result ServeError unit), holds w →
    Some (la_close (A := A) owned w, e) = Some (w', e') → holds w') as Hclose.
  { intros w0 w0' e0 e0' Hw [= <- _]. by destruct (la_close_nodes (A := A) owned w0) as [-> ->]. }
  unfold serve_listener. intros Hw. destruct (accept_conn_nodes (A := A) owned w) as [Ho Hg].
  destruct (la_accept_conn owned w) as [w1 [[]|e1]]; simpl in *; try (apply Hclose; congruence).
  destruct (local_addr_nodes (A := A) owned w1) as [Ho1 Hg1].
  destruct (la_local_addr owned w1) as [w2 [[]|e2]]; simpl in *; [|apply Hclose; congruence].
  destruct (connect_nodes (A := A) w2) as [Ho2 Hg2].
  destruct (la_connect w2) as [w3 [a|e3]]; simpl in *; [|apply Hclose; congruence].
  destruct (serve_clients steps fuel owned w3 a) as [[w4 e4]|] eqn:Hs; simpl; [|done].
  apply Hclose. eapply serve_clients_nodes; [|exact Hs]. congruence.
Qed.

Lemma serve_nodes steps fuel arguments (w w' : W) e :
  holds w → serve (A := A) steps fuel arguments w = Some (w', e) → holds w'.
Proof.
  unfold serve. intros Hw. destruct (negb _); [by intros [= <- _]|].
  case_bool_decide.
  - destruct (connect_nodes (A := A) w) as [Ho Hg].
    destruct (la_connect w) as [w1 [a|e1]]; simpl in *; intros [= <- _]; congruence.
  - destruct arguments as [|flag [|number [|]]]; try (by intros [= <- _]).
    destruct (negb _); [by intros [= <- _]|].
    destruct (parse_i32 number) as [fd|]; [|by intros [= <- _]].
    case_bool_decide; [by intros [= <- _]|].
    destruct (dupfd_nodes (A := A) fd w) as [Ho Hg].
    destruct (la_dupfd fd w) as [w1 [owned|e1]]; simpl in *; [|intros [= <- _]; congruence].
    apply serve_listener_nodes. congruence.
Qed.
End nodes.

(** However the broker executable ends, whatever authority it was given, it has no
    input node open and no keyboard grabbed. *)
Theorem broker_ends_clean {W A} `{LauncherLaws W A, !SessionAuthority A} steps fuel arguments (w w' : W) e :
  opened w = ∅ → grabbed w = ∅ → serve (A := A) steps fuel arguments w = Some (w', e) →
  opened w' = ∅ ∧ grabbed w' = ∅.
Proof.
  intros Ho Hg Hs. refine (serve_nodes (λ o g, o = ∅ ∧ g = ∅) _ _ _ _ _ _ _ _ Hs); [|done].
  intros ? ? ? ? ? ? [] ?. by eapply served_connection_frees_all.
Qed.

(** The executable as it ships neither opens nor grabs an input node. *)
Theorem shipped_broker_opens_nothing {W B} `{Bus B, LauncherLaws W (LogindAuthority B)}
    steps fuel arguments (w w' : W) e :
  serve (A := LogindAuthority B) steps fuel arguments w = Some (w', e) →
  opened w' = opened w ∧ grabbed w' = grabbed w.
Proof.
  intros Hs. refine (serve_nodes (λ o g, o = opened w ∧ g = grabbed w) _ _ _ _ _ _ _ _ Hs); [|done].
  intros steps' w0 w0' a a' r [] Hc.
  destruct (shipped_service_never_captures steps' w0 a) as (a1 & r1 & Hs1 & _).
  rewrite Hs1 in Hc. injection Hc as <- _ _. destruct (peer_identity_grabs w0). split; congruence.
Qed.
