(* ===== verification/MacTap.v ===== *)
(** * The macOS backend (packages/macos: tap.rs, inject.rs, input_source_worker.rs,
      tis.rs; packages/cli: the sink of daemon.rs on other platforms)

    The event tap's callback and its translation of events, the injection of keys,
    the queue of input-source switches, the selection of an input source, and the
    life of the tap. Core Graphics, the Text Input Sources services and the run loop
    are operations of the classes [CoreGraphics], [InputSources] and [TapHost]. *)

From S2P Require Import Prelude Event TapFsm Rule Config Keymap Sink.

(** ** Events of Core Graphics *)

(** The fields of a [CGEvent] that the backend reads and writes. *)
Record CGEvent : Type := mkCGEvent {
  ev_keycode : Z;
  ev_flags : Z;
  ev_user_data : Z;
}.

(** [CGEventFlags], with the values of the kCGEventFlagMask constants. *)
Definition FlagShift : Z := 131072.
Definition FlagControl : Z := 262144.
Definition FlagAlternate : Z := 524288.
Definition FlagCommand : Z := 1048576.
Definition FlagSecondaryFn : Z := 8388608.

(** [SLEDGE_EVENT_SOURCE_TAG] *)
Definition SLEDGE_EVENT_SOURCE_TAG : Z := 21992235009.

(** ** Modifiers of an event (tap.rs) *)

Definition NX_L_CTRL : Z := 1.
Definition NX_L_SHIFT : Z := 2.
Definition NX_R_SHIFT : Z := 4.
Definition NX_L_CMD : Z := 8.
Definition NX_R_CMD : Z := 16.
Definition NX_L_ALT : Z := 32.
Definition NX_R_ALT : Z := 64.
Definition NX_R_CTRL : Z := 8192.

(** [flags.contains(flag)], and [raw & mask != 0] *)
Definition flags_contains (flags flag : Z) : bool := bool_decide (Z.land flags flag = flag).
Definition raw_has (raw mask : Z) : bool := negb (bool_decide (Z.land raw mask = 0)).

Definition set_if (b : bool) (bit m : Modifiers) : Modifiers := if b then (m ∪ bit)%mods else m.

(** [flags_to_mods] *)
Definition flags_to_mods (flags : Z) : Modifiers :=
  let m := mods_empty in
  let m := set_if (flags_contains flags FlagControl) CTRL m in
  let m := set_if (flags_contains flags FlagShift) SHIFT m in
  let m := set_if (flags_contains flags FlagAlternate) ALT m in
  let m := set_if (flags_contains flags FlagCommand) CMD m in
  let m := set_if (flags_contains flags FlagSecondaryFn) FN m in
  let m := set_if (raw_has flags NX_L_CTRL) LEFT_CTRL m in
  let m := set_if (raw_has flags NX_R_CTRL) RIGHT_CTRL m in
  let m := set_if (raw_has flags NX_L_SHIFT) LEFT_SHIFT m in
  let m := set_if (raw_has flags NX_R_SHIFT) RIGHT_SHIFT m in
  let m := set_if (raw_has flags NX_L_ALT) LEFT_ALT m in
  let m := set_if (raw_has flags NX_R_ALT) RIGHT_ALT m in
  let m := set_if (raw_has flags NX_L_CMD) LEFT_CMD m in
  set_if (raw_has flags NX_R_CMD) RIGHT_CMD m.

(** [mods_to_cg_flags] (inject.rs) *)
Definition mods_to_cg_flags (mods : Modifiers) : Z :=
  let flag b f acc := if b : bool then Z.lor acc f else acc in
  let f := 0 in
  let f := flag (mods_contains mods CTRL) FlagControl f in
  let f := flag (mods_contains mods SHIFT) FlagShift f in
  let f := flag (mods_contains mods ALT) FlagAlternate f in
  let f := flag (mods_contains mods CMD) FlagCommand f in
  flag (mods_contains mods FN) FlagSecondaryFn f.

(** ** Injection (inject.rs) *)

Class CoreGraphics (W : Type) : Type := {
  (** [CGEventSource::new] with a private state *)
  cg_source : W → W * bool;
  (** [CGEvent::new_keyboard_event] *)
  cg_keyboard_event : W → Z → bool → W * option CGEvent;
  (** [CGEvent::post] at the HID level *)
  cg_post : W → CGEvent → W;
  (** [Instant::now] *)
  cg_now : W → W * Z;
}.

Definition set_flags (flags : Z) (e : CGEvent) : CGEvent :=
  mkCGEvent (ev_keycode e) flags (ev_user_data e).
(** [stamp_userdata] *)
Definition stamp_userdata (e : CGEvent) : CGEvent :=
  mkCGEvent (ev_keycode e) (ev_flags e) SLEDGE_EVENT_SOURCE_TAG.

Section inject.
Context {W : Type} `{CoreGraphics W}.

(** One half of the keystroke of [send_key]. *)
Definition post_key (cg_key flags : Z) (down : bool) (w : W) : W * bool :=
  match cg_keyboard_event w cg_key down with
  | (w, None) => (w, false)
  | (w, Some e) => (cg_post w (stamp_userdata (set_flags flags e)), true)
  end.

(** [send_key] *)
Definition send_key (key : KeyCode) (mods : Modifiers) (w : W) : W * result BackendError unit :=
  match cg_source w with
  | (w, false) => (w, Err (Inject "CGEventSourceCreate failed"))
  | (w, true) =>
      match Keymap.MacOS.mapped_cg_keycode key with
      | None => (w, Err (Inject "no CGKeyCode mapping"))
      | Some cg_key =>
          let flags := mods_to_cg_flags mods in
          match post_key cg_key flags true w with
          | (w, false) => (w, Err (Inject "CGEventCreateKeyboardEvent (down) failed"))
          | (w, true) =>
              match post_key cg_key flags false w with
              | (w, false) => (w, Err (Inject "CGEventCreateKeyboardEvent (up) failed"))
              | (w, true) => (w, Ok ())
              end
          end
      end
  end.
End inject.

(** ** The queue of input sources (input_source_worker.rs) *)

Definition QUEUE_CAPACITY : nat := 32.

(** The bounded channel, and whether its receiver is alive. *)
Record SourceChannel : Type := mkSourceChannel { ch_items : list string; ch_receiver : bool }.

(** [struct InputSourceWorker], and [new]; [spawned] tells whether the thread started. *)
Record InputSourceWorker : Type := mkInputSourceWorker { iw_sender : option SourceChannel }.
Definition InputSourceWorker_new (spawned : bool) : InputSourceWorker :=
  mkInputSourceWorker (if spawned then Some (mkSourceChannel [] true) else None).

(** [InputSourceWorker::enqueue] *)
Definition enqueue (self : InputSourceWorker) (id : string) :
    InputSourceWorker * result BackendError unit :=
  match iw_sender self with
  | None => (self, Err (Inject "input-source worker unavailable"))
  | Some ch =>
      if negb (ch_receiver ch) then (self, Err (Inject "input-source worker stopped"))
      else if bool_decide (QUEUE_CAPACITY ≤ length (ch_items ch))%nat
      then (self, Err (Inject "input-source queue full"))
      else (mkInputSourceWorker (Some (mkSourceChannel (ch_items ch ++ [id]) true)), Ok ())
  end.

(** ** The selection of a source (tis.rs) *)

Class InputSources (W : Type) : Type := {
  (** [TISCreateInputSourceList] for an identifier; [None] is NULL *)
  tis_create_list : W → string → W * option Z;
  (** [CFArrayGetCount] and the first element *)
  tis_count : W → Z → W * Z;
  tis_first : W → Z → W * option Z;
  (** The enabled property, when there is one *)
  tis_enabled : W → Z → W * option bool;
  (** [TISSelectInputSource]: its OSStatus *)
  tis_select : W → Z → W * Z;
  (** [CFRelease] *)
  cf_release : W → Z → W;
}.

Section tis.
Context {W : Type} `{InputSources W}.

(** [set_input_source] *)
Definition set_input_source (id : string) (w : W) : W * result BackendError unit :=
  match tis_create_list w id with
  | (w, None) => (w, Err (UnknownInputSource id))
  | (w, Some list_ref) =>
      let '(w, count) := tis_count w list_ref in
      if bool_decide (count ≤ 0) then (cf_release w list_ref, Err (UnknownInputSource id))
      else
        match tis_first w list_ref with
        | (w, None) => (cf_release w list_ref, Err (UnknownInputSource id))
        | (w, Some first) =>
            let '(w, enabled_ref) := tis_enabled w first in
            let enabled := default true enabled_ref in
            if negb enabled
            then (cf_release w list_ref, Err (Inject "input source is installed but not enabled"))
            else
              let '(w, rc) := tis_select w first in
              let w := cf_release w list_ref in
              if bool_decide (rc = 0) then (w, Ok ())
              else (w, Err (Inject "TISSelectInputSource failed"))
        end
  end.

(** One round of the worker's loop: a failure is logged. *)
Definition source_round (self : InputSourceWorker) (w : W) : InputSourceWorker * W :=
  match iw_sender self with
  | Some (mkSourceChannel (id :: items) true) =>
      (mkInputSourceWorker (Some (mkSourceChannel items true)), (set_input_source id w).1)
  | _ => (self, w)
  end.
End tis.

(** ** The engine's sink on other platforms (daemon.rs) *)

(** [MatcherSink] with the matching state and the backend of macOS, and whether a
    dispatch panicked. *)
Record MacSink (W : Type) : Type := mkMacSink {
  mk_matcher : Matcher;
  mk_aliases : gmap string AppAlias;
  mk_worker : InputSourceWorker;
  mk_world : W;
  mk_panicked : bool;
}.
Arguments mkMacSink {W}.
Arguments mk_matcher {W}.
Arguments mk_aliases {W}.
Arguments mk_worker {W}.
Arguments mk_world {W}.
Arguments mk_panicked {W}.

(** [resolve_focused_app] where there is no legacy category, and [app_identity] on
    macOS *)
Definition mac_focused_app (aliases : gmap string AppAlias) (focused_app : option string) :
    option string :=
  match focused_app ≫= λ id, resolve_app_identity aliases (IdMacOS id) with
  | Some name => Some name
  | None => focused_app
  end.

Section sink.
Context {W : Type} `{CoreGraphics W}.

(** [MacOsBackend::inject] *)
Definition mac_inject (self : MacSink W) (action : Action) : MacSink W * result BackendError unit :=
  match action with
  | SendKey key mods =>
      let '(w, r) := send_key key mods (mk_world self) in
      (mkMacSink (mk_matcher self) (mk_aliases self) (mk_worker self) w (mk_panicked self), r)
  | SetInputSource id =>
      let '(worker, r) := enqueue (mk_worker self) id in
      (mkMacSink (mk_matcher self) (mk_aliases self) worker (mk_world self) (mk_panicked self), r)
  end.

(** [MatcherSink::apply]: a failed injection is logged. *)
Definition mac_apply (self : MacSink W) (verdict : Verdict) : MacSink W * BackendVerdict :=
  match verdict with
  | Verdict_Pass => (self, VerdictPass)
  | Verdict_Swallow => (self, VerdictSwallow)
  | Verdict_Replace action => ((mac_inject self action).1, VerdictSwallow)
  end.

(** [MatcherSink::deliver], through [MatchingState::dispatch_device] *)
Definition mac_deliver (self : MacSink W) (device : DeviceId) (event : KeyEvent)
    (focused_app : option string) : MacSink W * BackendVerdict :=
  if mk_panicked self then (self, VerdictPass)
  else
    let logical := mac_focused_app (mk_aliases self) focused_app in
    let '(w, now) := cg_now (mk_world self) in
    match dispatch_device (mk_matcher self) device event logical now with
    | Some (m, verdict) =>
        mac_apply (mkMacSink m (mk_aliases self) (mk_worker self) w false) verdict
    | None => (mkMacSink (mk_matcher self) (mk_aliases self) (mk_worker self) w true, VerdictPass)
    end.

Definition mk_set_matcher m (self : MacSink W) : MacSink W :=
  mkMacSink m (mk_aliases self) (mk_worker self) (mk_world self) (mk_panicked self).

#[export] Instance MacSink_sink : EventSink (MacSink W) := {
  on_event self e app := mac_deliver self 0 e app;
  on_device_event := mac_deliver;
  on_device_reset self device := mk_set_matcher (reset_device (mk_matcher self) device) self;
  on_stream_reset self := mk_set_matcher (Matcher_reset (mk_matcher self)) self;
}.

(** [MatchingState::replace] where there are no transactions: a reload. *)
Definition mac_reload (self : MacSink W) (config : Config) : MacSink W :=
  mkMacSink (swap_rules (mk_matcher self) (cfg_rules config)) (cfg_app_aliases config)
    (mk_worker self) (mk_world self) (mk_panicked self).
End sink.

(** ** The tap's callback (tap.rs) *)

Inductive CGEventType : Type := CGKeyDown | CGKeyUp | CGFlagsChanged.
Inductive TapVerdict : Type := TapPass | TapSwallow.

(** [translate]: the key code is the low sixteen bits of the field. *)
Definition translate (etype : CGEventType) (event : CGEvent) : option KeyEvent :=
  code ← Keymap.MacOS.from_cg_keycode (Z.land (ev_keycode event) 65535);
  let kind :=
    match etype with
    | CGKeyDown => KeyDown
    | CGKeyUp => KeyUp
    | CGFlagsChanged => ModifiersChanged
    end in
  Some (mkKeyEvent code kind (flags_to_mods (ev_flags event))).

Section callback.
Context {S : Type} `{EventSink S}.

(** [handle_event] *)
Definition handle_event (etype : CGEventType) (event : CGEvent) (focused : option string)
    (sink : option S) : option S * TapVerdict :=
  if bool_decide (ev_user_data event = SLEDGE_EVENT_SOURCE_TAG) then (sink, TapPass)
  else
    match translate etype event with
    | None => (sink, TapPass)
    | Some kevent =>
        match sink with
        | None => (None, TapPass)
        | Some s =>
            let '(s, verdict) := on_event s kevent focused in
            (Some s, match verdict with VerdictPass => TapPass | VerdictSwallow => TapSwallow end)
        end
    end.

Definition TAP_DISABLED_BY_TIMEOUT : Z := 4294967294.
Definition TAP_DISABLED_BY_USER_INPUT : Z := 4294967295.

(** The raw event type, when it is one the callback handles. *)
Definition event_type_of (etype : Z) : option CGEventType :=
  if bool_decide (etype = TAP_DISABLED_BY_TIMEOUT) then None
  else if bool_decide (etype = TAP_DISABLED_BY_USER_INPUT) then None
  else if bool_decide (etype = 10) then Some CGKeyDown
  else if bool_decide (etype = 11) then Some CGKeyUp
  else if bool_decide (etype = 12) then Some CGFlagsChanged
  else None.

(** [tap_trampoline]: the event that is passed on, or [None] when it is swallowed. *)
Definition tap_trampoline (etype : Z) (event : CGEvent) (focused : option string)
    (sink : option S) : option S * option CGEvent :=
  match event_type_of etype with
  | None => (sink, Some event)
  | Some typed =>
      match handle_event typed event focused sink with
      | (sink, TapPass) => (sink, Some event)
      | (sink, TapSwallow) => (sink, None)
      end
  end.
End callback.

(** ** The life of the tap (tap.rs, [MacOsBackend::run]) *)

Class TapHost (W : Type) : Type := {
  (** [self.shutdown.load] *)
  th_shutdown : W → W * bool;
  (** [check_permissions]: accessibility and input monitoring *)
  th_permissions : W → W * (bool * bool);
  (** [accessibility_trusted(true)] and [input_monitoring_request] *)
  th_prompt_accessibility : W → W;
  th_prompt_input_monitoring : W → W;
  (** [thread::sleep] *)
  th_sleep : W → W;
  (** The sink is stored and the focus poller started. *)
  th_start_poller : W → W;
  (** [Box::into_raw] of the context, and [drop(Box::from_raw)] *)
  th_box : W → W * Z;
  th_unbox : W → Z → W;
  (** [CGEventTapCreate]; [None] is NULL *)
  th_tap_create : W → Z → W * option Z;
  (** [CFMachPortCreateRunLoopSource]; [None] is NULL *)
  th_source_create : W → Z → W * option Z;
  (** [CFRunLoopAddSource] and the release of our reference to the source *)
  th_add_source : W → Z → W;
  (** [CGEventTapEnable(port, true)] and [CGEventTapIsEnabled] *)
  th_tap_enable : W → Z → W;
  th_tap_is_enabled : W → Z → W * bool;
  (** [CFMachPortInvalidate] and [CFRelease] of the port *)
  th_invalidate : W → Z → W;
  th_release_port : W → Z → W;
  (** The watchdog thread: started, and told to stop and joined *)
  th_spawn_watchdog : W → Z → W * bool;
  th_join_watchdog : W → W;
  (** [CFRunLoop::run_in_mode] for 100 ms: whether it finished or was stopped *)
  th_run_in_mode : W → W * bool;
}.

Section run.
Context {W : Type} `{TapHost W}.

(** [destroy_tap] *)
Definition destroy_tap (port context : Z) (w : W) : W :=
  th_unbox (th_release_port (th_invalidate w port) port) context.

(** One round of [watchdog]. *)
Definition watchdog_round (port : Z) (w : W) : W :=
  let '(w, enabled) := th_tap_is_enabled (th_sleep w) port in
  if enabled then w else th_tap_enable w port.

(** The loop that waits for the grants: [false] when a shutdown ended it. *)
Fixpoint await_permissions (fuel : nat) (w : W) : option (W * bool) :=
  match fuel with
  | O => None
  | S fuel =>
      match th_shutdown w with
      | (w, true) => Some (w, false)
      | (w, false) =>
          let '(w, (accessibility, input_monitoring)) := th_permissions (th_sleep w) in
          if accessibility && input_monitoring then Some (w, true) else await_permissions fuel w
      end
  end.

(** The run loop on the calling thread. *)
Fixpoint run_loop (fuel : nat) (w : W) : option W :=
  match fuel with
  | O => None
  | S fuel =>
      match th_shutdown w with
      | (w, true) => Some w
      | (w, false) =>
          match th_run_in_mode w with
          | (w, true) => Some w
          | (w, false) => run_loop fuel w
          end
      end
  end.

(** From the installation of the tap to the end of [run]. *)
Definition run_tap (fuel : nat) (w : W) : option (W * result BackendError unit) :=
  let '(w, ctx) := th_box (th_start_poller w) in
  match th_tap_create w ctx with
  | (w, None) => Some (th_unbox w ctx, Err (TapInstall "CGEventTapCreate failed"))
  | (w, Some port) =>
      match th_source_create w port with
      | (w, None) =>
          Some (th_unbox (th_release_port w port) ctx,
                Err (TapInstall "CFMachPortCreateRunLoopSource failed"))
      | (w, Some source) =>
          let w := th_tap_enable (th_add_source w source) port in
          match th_spawn_watchdog w port with
          | (w, false) => Some (destroy_tap port ctx w, Err (Other "watchdog spawn failed"))
          | (w, true) =>
              w ← run_loop fuel w;
              Some (destroy_tap port ctx (th_join_watchdog w), Ok ())
          end
      end
  end.

(** The prompts, each when its permission is missing, and the wait. *)
Definition request_permissions (fuel : nat) (w : W) : option (W * bool) :=
  let '(w, (accessibility, input_monitoring)) := th_permissions w in
  if accessibility && input_monitoring then Some (w, true)
  else
    let w := if accessibility then w else th_prompt_accessibility w in
    let w := if input_monitoring then w else th_prompt_input_monitoring w in
    await_permissions fuel w.

(** [MacOsBackend::run] *)
Definition mac_run (fuel : nat) (w : W) : option (W * result BackendError unit) :=
  match th_shutdown w with
  | (w, true) => Some (w, Ok ())
  | (w, false) =>
      '(w, granted) ← request_permissions fuel w;
      if granted : bool then
        match th_shutdown w with
        | (w, true) => Some (w, Ok ())
        | (w, false) => run_tap fuel w
        end
      else Some (w, Ok ())
  end.
End run.
