(* ===== verification/MacTapThm.v ===== *)
(** * The macOS backend keeps its promises

    The tap never reads what the daemon injected, answers a release as it answered
    the press, translates modifiers bit by bit, releases what it creates, and stops
    when it is asked to. *)

From S2P Require Import Prelude Event TapFsm Rule MatcherInv Ownership Config Keymap Sink MacTap.

(** ** Injected events come back unseen *)

(** What is assumed of Core Graphics: events are posted whole and in order, and a
    keyboard event is for the key it was made for. *)
Class CoreGraphicsLaws (W : Type) `{CoreGraphics W} : Type := {
  posted : W → list CGEvent;
  source_posted w : posted (cg_source w).1 = posted w;
  event_posted w key down : posted (cg_keyboard_event w key down).1 = posted w;
  event_key w key down w' e :
    cg_keyboard_event w key down = (w', Some e) → ev_keycode e = key;
  post_posted w e : posted (cg_post w e) = posted w ++ [e];
}.

Section inject.
Context {W : Type} `{CoreGraphicsLaws W}.

Lemma post_key_spec cg_key flags down (w w' : W) ok :
  post_key cg_key flags down w = (w', ok) →
  posted w' = posted w ++
    (if ok : bool then [mkCGEvent cg_key flags SLEDGE_EVENT_SOURCE_TAG] else []).
Proof.
  unfold post_key. pose proof (event_posted w cg_key down) as Hp.
  destruct (cg_keyboard_event w cg_key down) as [w1 [e|]] eqn:He; intros [= <- <-]; simpl in *.
  - rewrite post_posted, Hp. apply event_key in He. unfold stamp_userdata, set_flags. simpl. by rewrite He.
  - by rewrite Hp, app_nil_r.
Qed.
End inject.

(** The daemon never reads its own keys. Whatever [send_key] posted, whether it
    succeeded or not, is stamped: when an event of it comes back through the tap, of
    whatever type, it is passed on and the engine is not asked. A keystroke that
    succeeded is a press and a release of the mapped key with the same flags; one that
    failed posted at most the press. *)
Theorem own_events_pass {W} `{CoreGraphicsLaws W} key mods (w w' : W) r :
  send_key key mods w = (w', r) →
  ∃ es, posted w' = posted w ++ es ∧
    (∀ e, e ∈ es → ∀ S (HS : EventSink S) etype focused (sink : option S),
       tap_trampoline etype e focused sink = (sink, Some e)) ∧
    match r with
    | Ok _ => ∃ e, es = [e; e] ∧ Keymap.MacOS.mapped_cg_keycode key = Some (ev_keycode e) ∧
                   ev_flags e = mods_to_cg_flags mods
    | Err _ => (length es ≤ 1)%nat
    end.
Proof.
  unfold send_key. pose proof (source_posted w) as Hs. destruct (cg_source w) as [w1 []]; simpl in Hs.
  2:{ intros [= <- <-]. exists []. rewrite Hs, app_nil_r. split_and!; [done|set_solver|simpl; lia]. }
  destruct (Keymap.MacOS.mapped_cg_keycode key) as [k|] eqn:Hk.
  2:{ intros [= <- <-]. exists []. rewrite Hs, app_nil_r. split_and!; [done|set_solver|simpl; lia]. }
  set (flags := mods_to_cg_flags mods). set (own := mkCGEvent k flags SLEDGE_EVENT_SOURCE_TAG).
  assert (∀ e, e ∈ [own; own] → ∀ S (HS : EventSink S) etype focused (sink : option S),
    tap_trampoline etype e focused sink = (sink, Some e)) as Hown.
  { intros e He S HS etype focused sink. assert (e = own) as -> by set_solver.
    unfold tap_trampoline. by destruct (event_type_of etype). }
  destruct (post_key k flags true w1) as [w2 []] eqn:Hd; apply post_key_spec in Hd; rewrite Hs in Hd.
  2:{ intros [= <- <-]. exists []. split_and!; [done|set_solver|simpl; lia]. }
  destruct (post_key k flags false w2) as [w3 []] eqn:Hu; apply post_key_spec in Hu;
    rewrite Hd, <- app_assoc in Hu; intros [= <- <-].
  - exists [own; own]. split_and!; [done|exact Hown|by exists own].
  - exists [own]. split_and!; [done| |simpl; lia]. intros e He. apply Hown. set_solver.
Qed.

(** ** Modifier flags *)

(** The flag bit of each modifier. *)
Definition flag_bit (k : Z) : option Z :=
  match k with
  | 0 => Some 18 | 1 => Some 17 | 2 => Some 19 | 3 => Some 20 | 4 => Some 23
  | 8 => Some 0 | 9 => Some 13 | 10 => Some 1 | 11 => Some 2 | 12 => Some 5
  | 13 => Some 6 | 14 => Some 3 | 15 => Some 4
  | _ => None
  end.

Lemma set_if_bit b n m k :
  0 ≤ n → Z.testbit (bits (set_if b (mkModifiers (Z.shiftl 1 n)) m)) k =
    Z.testbit (bits m) k || (b && Z.eqb k n).
Proof.
  intros Hn. destruct b; simpl; [|by rewrite orb_false_r].
  rewrite Z.lor_spec, Z.shiftl_1_l. f_equal. rewrite Z.pow2_bits_eqb by done. apply Z.eqb_sym.
Qed.

Lemma flags_contains_bit flags n :
  0 ≤ n → flags_contains flags (Z.shiftl 1 n) = Z.testbit flags n.
Proof. apply (mods_contains_bit (mkModifiers flags)). Qed.

Lemma raw_has_bit raw n : 0 ≤ n → raw_has raw (Z.shiftl 1 n) = Z.testbit raw n.
Proof.
  intros Hn. rewrite <- (flags_contains_bit raw n Hn). unfold raw_has, flags_contains.
  rewrite Z.shiftl_1_l.
  assert (Z.land raw (2 ^ n) = 0 ∨ Z.land raw (2 ^ n) = 2 ^ n) as Hcase.
  { destruct (Z.testbit raw n) eqn:Hb; [right|left]; apply Z.bits_inj'; intros k Hk;
      rewrite Z.land_spec, ?Z.bits_0, Z.pow2_bits_eqb by done;
      (destruct (Z.eqb_spec n k) as [->|]; [rewrite Hb|rewrite andb_false_r]; done). }
  assert (2 ^ n ≠ 0) by (pose proof (Z.pow_pos_nonneg 2 n ltac:(lia) Hn); lia).
  destruct Hcase as [->| ->]; repeat case_bool_decide; done || congruence.
Qed.

Lemma flags_to_mods_bit flags k :
  Z.testbit (bits (flags_to_mods flags)) k =
  match flag_bit k with Some n => Z.testbit flags n | None => false end.
Proof.
  unfold flags_to_mods.
  change FlagControl with (Z.shiftl 1 18). change FlagShift with (Z.shiftl 1 17).
  change FlagAlternate with (Z.shiftl 1 19). change FlagCommand with (Z.shiftl 1 20).
  change FlagSecondaryFn with (Z.shiftl 1 23).
  change NX_L_CTRL with (Z.shiftl 1 0). change NX_R_CTRL with (Z.shiftl 1 13).
  change NX_L_SHIFT with (Z.shiftl 1 1). change NX_R_SHIFT with (Z.shiftl 1 2).
  change NX_L_ALT with (Z.shiftl 1 5). change NX_R_ALT with (Z.shiftl 1 6).
  change NX_L_CMD with (Z.shiftl 1 3). change NX_R_CMD with (Z.shiftl 1 4).
  rewrite !flags_contains_bit, !raw_has_bit by done.
  unfold CTRL, SHIFT, ALT, CMD, FN, LEFT_CTRL, RIGHT_CTRL, LEFT_SHIFT, RIGHT_SHIFT, LEFT_ALT,
    RIGHT_ALT, LEFT_CMD, RIGHT_CMD. rewrite !set_if_bit by done.
  change (bits mods_empty) with 0. rewrite Z.bits_0.
  destruct (decide (0 ≤ k < 16)) as [Hk|Hk].
  - assert (k = 0 ∨ k = 1 ∨ k = 2 ∨ k = 3 ∨ k = 4 ∨ k = 5 ∨ k = 6 ∨ k = 7 ∨ k = 8 ∨ k = 9 ∨ k = 10 ∨
      k = 11 ∨ k = 12 ∨ k = 13 ∨ k = 14 ∨ k = 15) as Hcases by lia.
    repeat destruct Hcases as [->|Hcases]; [..|subst k]; cbn [Z.eqb Pos.eqb flag_bit];
      rewrite ?andb_false_r, ?andb_true_r, ?orb_false_r, ?orb_false_l; done.
  - rewrite !(proj2 (Z.eqb_neq _ _)) by lia. rewrite !andb_false_r. simpl.
    unfold flag_bit. destruct k as [|p|p]; [lia| |done].
    repeat (destruct p as [p|p|]; try lia; try done).
Qed.

Lemma cg_flags_bit m n :
  Z.testbit (mods_to_cg_flags m) n =
  match n with
  | 18 => Z.testbit (bits m) 0 | 17 => Z.testbit (bits m) 1 | 19 => Z.testbit (bits m) 2
  | 20 => Z.testbit (bits m) 3 | 23 => Z.testbit (bits m) 4 | _ => false
  end.
Proof.
  unfold mods_to_cg_flags.
  change FlagControl with (2 ^ 18). change FlagShift with (2 ^ 17).
  change FlagAlternate with (2 ^ 19). change FlagCommand with (2 ^ 20).
  change FlagSecondaryFn with (2 ^ 23).
  unfold CTRL, SHIFT, ALT, CMD, FN. rewrite !mods_contains_bit by done.
  assert (∀ (b : bool) j acc, 0 ≤ j → Z.testbit (if b then Z.lor acc (2 ^ j) else acc) n =
    Z.testbit acc n || (b && Z.eqb n j)) as Hif.
  { intros b j acc Hj. destruct b; simpl; [|by rewrite orb_false_r].
    rewrite Z.lor_spec, Z.pow2_bits_eqb by done. by rewrite Z.eqb_sym. }
  cbv zeta. rewrite !Hif by done. rewrite Z.bits_0. clear Hif.
  destruct (decide (17 ≤ n < 24)) as [Hn|Hn].
  - assert (n = 17 ∨ n = 18 ∨ n = 19 ∨ n = 20 ∨ n = 21 ∨ n = 22 ∨ n = 23) as Hcases by lia.
    repeat destruct Hcases as [->|Hcases]; [..|subst n]; cbn [Z.eqb Pos.eqb];
      rewrite ?andb_false_r, ?andb_true_r, ?orb_false_r, ?orb_false_l; done.
  - rewrite !(proj2 (Z.eqb_neq _ _)) by lia. rewrite !andb_false_r. simpl.
    destruct n as [|p|p]; [done| |done]. repeat (destruct p as [p|p|]; try lia; try done).
Qed.

(** Modifiers cross the tap bit by bit: each of the thirteen modifier bits of a
    translated event is the event flag of its own, no other bit is ever set, and the
    generic modifiers of an injected key are the ones the tap would read back. *)
Theorem modifier_flags_exact flags m :
  (∀ k, Z.testbit (bits (flags_to_mods flags)) k =
     match flag_bit k with Some n => Z.testbit flags n | None => false end) ∧
  flags_to_mods (mods_to_cg_flags m) = mkModifiers (Z.land (bits m) 31).
Proof.
  split; [apply flags_to_mods_bit|].
  destruct (flags_to_mods (mods_to_cg_flags m)) as [b] eqn:Hb. f_equal.
  replace b with (bits (flags_to_mods (mods_to_cg_flags m))) by (by rewrite Hb).
  apply Z.bits_inj'. intros k Hk. rewrite flags_to_mods_bit, Z.land_spec.
  change 31 with (Z.ones 5). rewrite Z.testbit_ones_nonneg by lia.
  destruct (decide (k < 16)) as [Hlt|Hge].
  - assert (k = 0 ∨ k = 1 ∨ k = 2 ∨ k = 3 ∨ k = 4 ∨ k = 5 ∨ k = 6 ∨ k = 7 ∨ k = 8 ∨ k = 9 ∨ k = 10 ∨
      k = 11 ∨ k = 12 ∨ k = 13 ∨ k = 14 ∨ k = 15) as Hcases by lia.
    repeat destruct Hcases as [->|Hcases]; [..|subst k]; cbn [flag_bit]; rewrite ?cg_flags_bit;
      change (_ <? 5) with true || change (_ <? 5) with false; rewrite ?andb_true_r, ?andb_false_r; done.
  - rewrite (proj2 (Z.ltb_ge _ _)), andb_false_r by lia.
    destruct k as [|p|p]; [lia| |lia]. repeat (destruct p as [p|p|]; try lia; try done).
Qed.

(** ** Presses and releases *)

Section sink.
Context {W : Type} `{CoreGraphics W}.

(** The engine as the callback sees it. *)
Record MacInv (self : MacSink W) : Prop := {
  mi_matcher : MatcherInv (mk_matcher self);
  mi_running : mk_panicked self = false;
}.

Lemma mac_apply_matcher self v :
  mk_matcher (mac_apply self v).1 = mk_matcher self ∧
  mk_panicked (mac_apply self v).1 = mk_panicked self.
Proof.
  destruct v as [| |[key mods|id]]; simpl; try done.
  - unfold mac_inject. by destruct (send_key _ _ _).
  - unfold mac_inject. by destruct (enqueue _ _).
Qed.

(** One event: the invariant, its press, and nobody else's. *)
Lemma mac_deliver_spec self e app :
  MacInv self →
  let '(self', v) := mac_deliver self 0 e app in
  MacInv self' ∧
  (∃ verdict, own_step (is_modifier (code e)) (owner (mk_matcher self) (0, code e)) (kind e) verdict
     (owner (mk_matcher self') (0, code e)) ∧
     v = match verdict with Verdict_Pass => VerdictPass | _ => VerdictSwallow end) ∧
  ∀ q, q ≠ (0, code e) → owner (mk_matcher self') q = owner (mk_matcher self) q.
Proof.
  intros [Hm Hr]. unfold mac_deliver. rewrite Hr. destruct (cg_now (mk_world self)) as [w now].
  destruct (dispatch_device_total (mk_matcher self) 0 e
    (mac_focused_app (mk_aliases self) app) now Hm) as [[m v] Hd]. rewrite Hd.
  set (s1 := mkMacSink m _ _ w false). pose proof (mac_apply_matcher s1 v) as [Hm1 Hr1].
  destruct (dispatch_owner _ _ _ _ _ _ _ Hm Hd) as [Ho Hq].
  destruct (mac_apply s1 v) as [self' bv] eqn:Ha. simpl in Hm1, Hr1. rewrite Hm1.
  split; [split; [rewrite Hm1; by eapply dispatch_device_inv|done]|]. split; [|done].
  exists v. split; [done|]. apply (f_equal snd) in Ha. by destruct v.
Qed.

(** A sequence of callbacks and reloads. *)
Inductive TapOp : Type :=
  | TapCallback (etype : Z) (event : CGEvent) (focused : option string)
  | TapReload (cfg : Config).

Definition tap_do (sink : option (MacSink W)) (op : TapOp) : option (MacSink W) :=
  match op with
  | TapCallback etype event focused => (tap_trampoline etype event focused sink).1
  | TapReload cfg => (λ s, mac_reload s cfg) <$> sink
  end.
Definition tap_run (sink : option (MacSink W)) (ops : list TapOp) : option (MacSink W) :=
  fold_left tap_do ops sink.

Definition loaded_config (cfg : Config) : Prop := ∃ rules, cfg_rules cfg = RuleSet_new rules.
Definition tap_op_ok (op : TapOp) : Prop := ∀ cfg, op = TapReload cfg → loaded_config cfg.

(** The event of a callback is one the daemon injected, or is of another key. *)
Definition tap_spares (k : KeyCode) (op : TapOp) : Prop :=
  match op with
  | TapCallback _ event _ =>
      ev_user_data event = SLEDGE_EVENT_SOURCE_TAG ∨
      Keymap.MacOS.from_cg_keycode (Z.land (ev_keycode event) 65535) ≠ Some k
  | TapReload _ => True
  end.

Lemma handle_event_spec typed event focused self :
  MacInv self →
  ∃ self', (handle_event typed event focused (Some self)).1 = Some self' ∧ MacInv self' ∧
    (∀ k, tap_spares k (TapCallback 0 event focused) →
       owner (mk_matcher self') (0, k) = owner (mk_matcher self) (0, k)) ∧
    ∀ e, ev_user_data event ≠ SLEDGE_EVENT_SOURCE_TAG → translate typed event = Some e →
      ∃ verdict, own_step (is_modifier (code e)) (owner (mk_matcher self) (0, code e)) (kind e) verdict
         (owner (mk_matcher self') (0, code e)) ∧
        (handle_event typed event focused (Some self)).2 =
          match verdict with Verdict_Pass => TapPass | _ => TapSwallow end.
Proof.
  intros Hi. unfold handle_event. case_bool_decide as Hu; [by exists self|].
  destruct (translate typed event) as [e|] eqn:Ht; [|by exists self].
  pose proof (mac_deliver_spec self e focused Hi) as Hd. simpl.
  destruct (mac_deliver self 0 e focused) as [self' v]. destruct Hd as (Hi' & (verdict & Ho & ->) & Hq).
  exists self'. split_and!; [done..| |].
  - intros k [?|Hk]; [done|]. apply Hq. intros [= ->].
    unfold translate in Ht. apply bind_Some in Ht as (c & Hc & [= <-]). by apply Hk.
  - intros e' _ [= <-]. exists verdict. split; [done|]. by destruct verdict.
Qed.

Lemma tap_do_spec self op :
  MacInv self → tap_op_ok op →
  ∃ self', tap_do (Some self) op = Some self' ∧ MacInv self' ∧
    ∀ k, tap_spares k op → owner (mk_matcher self') (0, k) = owner (mk_matcher self) (0, k).
Proof.
  intros Hi Hok. destruct op as [etype event focused|cfg].
  - simpl. unfold tap_trampoline. destruct (event_type_of etype) as [typed|]; [|by exists self].
    destruct (handle_event_spec typed event focused self Hi) as (self' & Hs & Hi' & Ho & _).
    exists self'. destruct (handle_event typed event focused (Some self)) as [s []]; by simpl in *.
  - destruct (Hok cfg eq_refl) as [rules Hr]. eexists. split; [done|]. split; [|intros k _; by apply owner_eq].
    destruct Hi as [Hm Hrun]. split; [|done]. simpl. rewrite Hr.
    apply swap_rules_inv; [done|apply RuleSet_new_inv].
Qed.

Lemma tap_run_spec ops self :
  MacInv self → Forall tap_op_ok ops →
  ∃ self', tap_run (Some self) ops = Some self' ∧ MacInv self' ∧
    ∀ k, Forall (tap_spares k) ops → owner (mk_matcher self') (0, k) = owner (mk_matcher self) (0, k).
Proof.
  revert self. induction ops as [|op ops IH]; intros self Hi Hok; [by exists self|].
  apply Forall_cons in Hok as [H1 H2]. destruct (tap_do_spec self op Hi H1) as (s1 & Hs1 & Hi1 & Ho1).
  destruct (IH s1 Hi1 H2) as (s2 & Hs2 & Hi2 & Ho2). exists s2.
  unfold tap_run in *. cbn [fold_left]. rewrite Hs1. split_and!; [done..|].
  intros k [Hk Hks]%Forall_cons. by rewrite Ho2, Ho1.
Qed.
End sink.

(** C8. Through the tap a press and its release meet the same fate. Run the callback
    from a loaded configuration over any events and reloads; then the release of an
    ordinary key is passed or swallowed exactly as its last press was, whatever the
    injections did, whatever was focused, and whatever happened in between on other
    keys, to the daemon's own events or to the configuration. The sink never panics. *)
Theorem tap_release_matches_press {W} `{CoreGraphics W} cfg worker (w : W) ops1 down app ops2 up app'
    k mods mods' :
  loaded_config cfg → Forall tap_op_ok (ops1 ++ ops2) →
  ev_user_data down ≠ SLEDGE_EVENT_SOURCE_TAG → ev_user_data up ≠ SLEDGE_EVENT_SOURCE_TAG →
  translate CGKeyDown down = Some (mkKeyEvent k KeyDown mods) →
  translate CGKeyUp up = Some (mkKeyEvent k KeyUp mods') →
  is_modifier k = false → Forall (tap_spares k) ops2 →
  let s0 := Some (mkMacSink (Matcher_new (cfg_rules cfg)) (cfg_app_aliases cfg) worker w false) in
  let '(s2, r1) := tap_trampoline 10 down app (tap_run s0 ops1) in
  let '(s4, r2) := tap_trampoline 11 up app' (tap_run s2 ops2) in
  (r1 = Some down ↔ r2 = Some up) ∧ (r1 = None ↔ r2 = None) ∧
  ∃ s, s4 = Some s ∧ mk_panicked s = false.
Proof.
  intros [rules Er] [Hok1 Hok2]%Forall_app Hd Hu Htd Htu Hmod Hsp. cbv zeta.
  set (s0 := mkMacSink _ _ _ _ _).
  assert (MacInv s0) as Hi0.
  { split; [|done]. simpl. rewrite Er. apply MatcherInv_new, RuleSet_new_inv. }
  destruct (tap_run_spec ops1 s0 Hi0 Hok1) as (s1 & -> & Hi1 & _).
  destruct (handle_event_spec CGKeyDown down app s1 Hi1) as (s2 & Hs2 & Hi2 & _ & Hown1).
  destruct (Hown1 _ Hd Htd) as (v1 & Ho1 & Hv1). simpl in Ho1. rewrite Hmod in Ho1.
  unfold tap_trampoline at 1. change (event_type_of 10) with (Some CGKeyDown).
  cbv beta iota.
  destruct (handle_event CGKeyDown down app (Some s1)) as [s2' r1]; cbn [fst snd] in *. subst s2'.
  destruct (tap_run_spec ops2 s2 Hi2 Hok2) as (s3 & Hs3 & Hi3 & Hkeep).
  destruct (handle_event_spec CGKeyUp up app' s3 Hi3) as (s4 & Hs4 & Hi4 & _ & Hown2).
  destruct (Hown2 _ Hu Htu) as (v2 & Ho2 & Hv2). simpl in Ho2. rewrite Hmod, (Hkeep k Hsp) in Ho2.
  assert (v1 = Verdict_Pass ↔ v2 = Verdict_Pass) as Hiff.
  { inversion Ho1; subst; match goal with
      | Hs : _ = owner (mk_matcher s2) _ |- _ => rewrite <- Hs in Ho2 end; by inversion Ho2. }
  assert (tap_trampoline 11 up app' (tap_run (Some s2) ops2) =
    (Some s4, if bool_decide (v2 = Verdict_Pass) then Some up else None)) as Hup.
  { rewrite Hs3. unfold tap_trampoline. change (event_type_of 11) with (Some CGKeyUp).
    cbv beta iota.
    destruct (handle_event CGKeyUp up app' (Some s3)) as [s4' r2]; cbn [fst snd] in *. subst s4' r2.
    by destruct v2; case_bool_decide. }
  subst r1. assert (∃ s, Some s4 = Some s ∧ mk_panicked s = false) as Hlast
    by (exists s4; split; [done|apply Hi4]).
  destruct v1; rewrite Hup; (split_and!; [..|exact Hlast]); case_bool_decide; naive_solver.
Qed.

(** ** The life of the tap *)

(** What a host owns and has done: live ports and contexts, the watchdog, how often
    each prompt was shown, the permissions as last read, what they were when a tap was
    created, and how many more polls of the shutdown flag may find it unset. *)
Record TapView : Type := mkTapView {
  tv_ports : gset Z;
  tv_boxes : gset Z;
  tv_watched : bool;
  tv_prompts : nat * nat;
  tv_granted : bool;
  tv_created : list bool;
  tv_patience : nat;
}.

Definition tv_set_ports x v := mkTapView x (tv_boxes v) (tv_watched v) (tv_prompts v) (tv_granted v) (tv_created v) (tv_patience v).
Definition tv_set_boxes x v := mkTapView (tv_ports v) x (tv_watched v) (tv_prompts v) (tv_granted v) (tv_created v) (tv_patience v).
Definition tv_set_watched x v := mkTapView (tv_ports v) (tv_boxes v) x (tv_prompts v) (tv_granted v) (tv_created v) (tv_patience v).
Definition tv_set_prompts x v := mkTapView (tv_ports v) (tv_boxes v) (tv_watched v) x (tv_granted v) (tv_created v) (tv_patience v).
Definition tv_set_granted x v := mkTapView (tv_ports v) (tv_boxes v) (tv_watched v) (tv_prompts v) x (tv_created v) (tv_patience v).
Definition tv_set_created x v := mkTapView (tv_ports v) (tv_boxes v) (tv_watched v) (tv_prompts v) (tv_granted v) x (tv_patience v).
Definition tv_set_patience x v := mkTapView (tv_ports v) (tv_boxes v) (tv_watched v) (tv_prompts v) (tv_granted v) (tv_created v) x.

Class TapHostLaws (W : Type) `{TapHost W} : Type := {
  tap_view : W → TapView;
  shutdown_view w w' b :
    th_shutdown w = (w', b) →
    tap_view w' = tv_set_patience (pred (tv_patience (tap_view w))) (tap_view w) ∧
    (tv_patience (tap_view w) = 0%nat → b = true);
  permissions_view w w' p :
    th_permissions w = (w', p) → tap_view w' = tv_set_granted (p.1 && p.2) (tap_view w);
  prompt_accessibility_view w : tap_view (th_prompt_accessibility w) =
    tv_set_prompts (S (tv_prompts (tap_view w)).1, (tv_prompts (tap_view w)).2) (tap_view w);
  prompt_input_view w : tap_view (th_prompt_input_monitoring w) =
    tv_set_prompts ((tv_prompts (tap_view w)).1, S (tv_prompts (tap_view w)).2) (tap_view w);
  sleep_view w : tap_view (th_sleep w) = tap_view w;
  poller_view w : tap_view (th_start_poller w) = tap_view w;
  box_view w w' c :
    th_box w = (w', c) → (c ∉ tv_boxes (tap_view w)) ∧
    tap_view w' = tv_set_boxes ({[c]} ∪ tv_boxes (tap_view w)) (tap_view w);
  unbox_view w c :
    tap_view (th_unbox w c) = tv_set_boxes (tv_boxes (tap_view w) ∖ {[c]}) (tap_view w);
  create_view w c w' r :
    th_tap_create w c = (w', r) →
    let v := tv_set_created (tv_created (tap_view w) ++ [tv_granted (tap_view w)]) (tap_view w) in
    match r with
    | Some port => (port ∉ tv_ports (tap_view w)) ∧
                   tap_view w' = tv_set_ports ({[port]} ∪ tv_ports (tap_view w)) v
    | None => tap_view w' = v
    end;
  source_view w port : tap_view (th_source_create w port).1 = tap_view w;
  add_source_view w source : tap_view (th_add_source w source) = tap_view w;
  enable_view w port : tap_view (th_tap_enable w port) = tap_view w;
  invalidate_view w port : tap_view (th_invalidate w port) = tap_view w;
  release_view w port :
    tap_view (th_release_port w port) = tv_set_ports (tv_ports (tap_view w) ∖ {[port]}) (tap_view w);
  spawn_view w port w' ok :
    th_spawn_watchdog w port = (w', ok) →
    tap_view w' = if ok : bool then tv_set_watched true (tap_view w) else tap_view w;
  join_view w : tap_view (th_join_watchdog w) = tv_set_watched false (tap_view w);
  run_in_mode_view w : tap_view (th_run_in_mode w).1 = tap_view w;
}.

Section life.
Context {W : Type} `{TapHostLaws W}.
Implicit Types w : W.

(** The loops only read the host, and let time pass. *)
Definition waited w w' : Prop :=
  ∃ g n, tap_view w' = tv_set_patience n (tv_set_granted g (tap_view w)) ∧
    (n ≤ tv_patience (tap_view w))%nat.

Lemma waited_poll w w' b : th_shutdown w = (w', b) → waited w w'.
Proof.
  intros [Hv _]%shutdown_view. exists (tv_granted (tap_view w)), (pred (tv_patience (tap_view w))).
  rewrite Hv. split; [by destruct (tap_view w)|lia].
Qed.

Lemma waited_trans w w1 w2 : waited w w1 → waited w1 w2 → waited w w2.
Proof.
  intros (g & n & Hv & Hn) (g' & n' & Hv' & Hn'). exists g', n'. rewrite Hv in *. simpl in *.
  split; [done|lia].
Qed.

Lemma waited_permissions w w' p :
  th_permissions w = (w', p) →
  waited w w' ∧ tv_granted (tap_view w') = p.1 && p.2 ∧
  tv_patience (tap_view w') = tv_patience (tap_view w).
Proof.
  intros Hv%permissions_view. rewrite Hv. split; [|done].
  exists (p.1 && p.2), (tv_patience (tap_view w)). split; [by rewrite Hv|done].
Qed.

Lemma await_permissions_spec fuel w w' granted :
  await_permissions fuel w = Some (w', granted) →
  waited w w' ∧ (granted = true → tv_granted (tap_view w') = true).
Proof.
  revert w. induction fuel as [|fuel IH]; intros w; [done|]. simpl.
  destruct (th_shutdown w) as [w1 []] eqn:Hs; apply waited_poll in Hs.
  { intros [= <- <-]. split; [done|done]. }
  destruct (th_permissions (th_sleep w1)) as [w2 [a i]] eqn:Hp.
  apply waited_permissions in Hp as (Hw & Hg & _).
  assert (waited w w2) as Hw2.
  { eapply waited_trans; [exact Hs|]. destruct Hw as (g & n & Hv & Hn).
    rewrite sleep_view in Hv, Hn. by exists g, n. }
  simpl in Hg. destruct (a && i) eqn:Hai.
  - intros [= <- <-]. done.
  - intros Hrec. destruct (IH _ Hrec) as [Hr Hg']. split; [by eapply waited_trans|done].
Qed.

Lemma await_permissions_total fuel w :
  (tv_patience (tap_view w) < fuel)%nat → is_Some (await_permissions fuel w).
Proof.
  revert w. induction fuel as [|fuel IH]; intros w Hf; [lia|]. simpl.
  destruct (th_shutdown w) as [w1 b] eqn:Hs. apply shutdown_view in Hs as [Hv Hb].
  destruct b; [by eexists|].
  destruct (th_permissions (th_sleep w1)) as [w2 [a i]] eqn:Hp.
  apply waited_permissions in Hp as (_ & _ & Hpat). rewrite sleep_view, Hv in Hpat. simpl in Hpat.
  destruct (a && i); [by eexists|]. apply IH. rewrite Hpat.
  destruct (tv_patience (tap_view w)) eqn:Hz; [by specialize (Hb eq_refl)|simpl; lia].
Qed.

Lemma run_loop_spec fuel w w' : run_loop fuel w = Some w' → waited w w'.
Proof.
  revert w. induction fuel as [|fuel IH]; intros w; [done|]. simpl.
  destruct (th_shutdown w) as [w1 []] eqn:Hs; apply waited_poll in Hs; [by intros [= <-]|].
  pose proof (run_in_mode_view w1) as Hv. destruct (th_run_in_mode w1) as [w2 b]; simpl in Hv.
  assert (waited w w2) as Hw by (destruct Hs as (g & n & Hv1 & Hn); exists g, n; by rewrite Hv).
  destruct b; [by intros [= <-]|]. intros Hrec%IH. by eapply waited_trans.
Qed.

Lemma run_loop_total fuel w : (tv_patience (tap_view w) < fuel)%nat → is_Some (run_loop fuel w).
Proof.
  revert w. induction fuel as [|fuel IH]; intros w Hf; [lia|]. simpl.
  destruct (th_shutdown w) as [w1 b] eqn:Hs. apply shutdown_view in Hs as [Hv Hb].
  destruct b; [by eexists|]. pose proof (run_in_mode_view w1) as Hv2.
  destruct (th_run_in_mode w1) as [w2 []]; [by eexists|]. simpl in Hv2. apply IH.
  rewrite Hv2, Hv. simpl. destruct (tv_patience (tap_view w)); [by specialize (Hb eq_refl)|simpl; lia].
Qed.

(** Everything the tap created is gone; it was created once, with both permissions. *)
Definition tidy w w' : Prop :=
  tv_ports (tap_view w') = tv_ports (tap_view w) ∧ tv_boxes (tap_view w') = tv_boxes (tap_view w) ∧
  tv_watched (tap_view w') = false.

Lemma run_tap_spec fuel w w' r :
  run_tap fuel w = Some (w', r) → tv_watched (tap_view w) = false →
  tidy w w' ∧ tv_prompts (tap_view w') = tv_prompts (tap_view w) ∧
  tv_created (tap_view w') = tv_created (tap_view w) ++ [tv_granted (tap_view w)].
Proof.
  intros Hr Hwatch. revert Hr. unfold run_tap, destroy_tap, tidy.
  destruct (th_box (th_start_poller w)) as [w1 ctx] eqn:Hb. apply box_view in Hb as [Hc Hv1].
  rewrite poller_view in Hc, Hv1.
  destruct (th_tap_create w1 ctx) as [w2 [port|]] eqn:Hcr; apply create_view in Hcr; rewrite Hv1 in Hcr;
    simpl in Hcr.
  2:{ intros [= <- <-]. rewrite unbox_view, Hcr. simpl. split_and!; [done|set_solver|done..]. }
  destruct Hcr as [Hp Hv2]. pose proof (source_view w2 port) as Hv3.
  destruct (th_source_create w2 port) as [w3 [source|]]; simpl in Hv3.
  2:{ intros [= <- <-]. rewrite unbox_view, release_view, Hv3, Hv2. simpl.
      split_and!; [set_solver|set_solver|done..]. }
  destruct (th_spawn_watchdog _ port) as [w4 []] eqn:Hsp; apply spawn_view in Hsp;
    rewrite enable_view, add_source_view, Hv3, Hv2 in Hsp.
  2:{ intros [= <- <-]. rewrite unbox_view, release_view, invalidate_view, Hsp. simpl.
      split_and!; [set_solver|set_solver|done..]. }
  destruct (run_loop fuel w4) as [w5|] eqn:Hl; [|done]. intros [= <- <-].
  destruct (run_loop_spec _ _ _ Hl) as (g & n & Hv5 & _).
  rewrite unbox_view, release_view, invalidate_view, join_view, Hv5, Hsp. simpl.
  split_and!; [set_solver|set_solver|done..].
Qed.

(** The prompts, each shown once at most, and what they leave. *)
Definition prompted w w' : Prop :=
  ∃ a i g n, tap_view w' = tv_set_patience n (tv_set_granted g (tv_set_prompts
      ((tv_prompts (tap_view w)).1 + a, (tv_prompts (tap_view w)).2 + i)%nat (tap_view w))) ∧
    (a ≤ 1 ∧ i ≤ 1 ∧ n ≤ tv_patience (tap_view w))%nat.

Lemma prompted_waited w w1 w2 : prompted w w1 → waited w1 w2 → prompted w w2.
Proof.
  intros (a & i & g & n & Hv & Ha & Hi & Hn) (g' & n' & Hv' & Hn'). exists a, i, g', n'.
  rewrite Hv', Hv in *. simpl in *. split_and!; [done|lia..].
Qed.

(** The host after the first reading and the prompts. *)
Lemma prompted_once w w1 (a i : bool) :
  tap_view w1 = tv_set_granted (a && i) (tap_view w) →
  let w2 := if a then w1 else th_prompt_accessibility w1 in
  prompted w (if i then w2 else th_prompt_input_monitoring w2).
Proof.
  intros Hv. exists (if a then 0 else 1)%nat, (if i then 0 else 1)%nat, (a && i), (tv_patience (tap_view w)).
  destruct a, i; simpl; rewrite ?prompt_input_view, ?prompt_accessibility_view, ?prompt_input_view, Hv; simpl;
    (split_and!; [|lia..]); unfold tv_set_prompts, tv_set_patience, tv_set_granted; simpl;
    rewrite ?Nat.add_0_r, ?Nat.add_1_r; by destruct (tap_view w) as [? ? ? []].
Qed.

Lemma request_permissions_spec fuel w w' ok :
  request_permissions fuel w = Some (w', ok) →
  prompted w w' ∧ (ok = true → tv_granted (tap_view w') = true).
Proof.
  unfold request_permissions. destruct (th_permissions w) as [w1 [a i]] eqn:Hp.
  apply permissions_view in Hp. simpl in Hp. pose proof (prompted_once w w1 a i Hp) as Hq.
  destruct (a && i) eqn:Hai.
  - intros [= <- <-]. apply andb_true_iff in Hai as [-> ->]. split; [exact Hq|by rewrite Hp].
  - intros [Hw Hg]%await_permissions_spec. split; [by eapply prompted_waited|done].
Qed.

Lemma request_permissions_total fuel w :
  (tv_patience (tap_view w) < fuel)%nat → is_Some (request_permissions fuel w).
Proof.
  intros Hf. unfold request_permissions. destruct (th_permissions w) as [w1 [a i]] eqn:Hp.
  apply permissions_view in Hp. simpl in Hp. destruct (prompted_once w w1 a i Hp) as (? & ? & ? & n & Hv & _ & _ & Hn).
  destruct (a && i); [by eexists|]. apply await_permissions_total. rewrite Hv. simpl. lia.
Qed.

Lemma run_tap_total fuel w : (tv_patience (tap_view w) < fuel)%nat → is_Some (run_tap fuel w).
Proof.
  intros Hf. unfold run_tap.
  destruct (th_box (th_start_poller w)) as [w1 ctx] eqn:Hb. apply box_view in Hb as [_ Hv1].
  rewrite poller_view in Hv1.
  destruct (th_tap_create w1 ctx) as [w2 [port|]] eqn:Hcr; [|by eexists].
  apply create_view in Hcr as [_ Hv2]. pose proof (source_view w2 port) as Hv3.
  destruct (th_source_create w2 port) as [w3 [source|]]; simpl in Hv3; [|by eexists].
  destruct (th_spawn_watchdog _ port) as [w4 []] eqn:Hsp; [|by eexists]. apply spawn_view in Hsp.
  rewrite enable_view, add_source_view, Hv3, Hv2, Hv1 in Hsp.
  destruct (run_loop_total fuel w4) as [w5 ->]; [by rewrite Hsp|by eexists].
Qed.
End life.

(** The tap leaves nothing behind. However [run] ends, through a shutdown before,
    during or after the wait for permissions, through a failure of any installation
    step, or after a run, every mach port and callback context it created is released
    once, the watchdog is joined, each permission prompt was shown at most once, and
    the tap was created at most once and only when both permissions had been granted. *)
Theorem tap_leaves_nothing {W} `{TapHostLaws W} fuel (w w' : W) r :
  mac_run fuel w = Some (w', r) → tv_watched (tap_view w) = false →
  tidy w w' ∧
  ((tv_prompts (tap_view w')).1 ≤ S (tv_prompts (tap_view w)).1)%nat ∧
  ((tv_prompts (tap_view w')).2 ≤ S (tv_prompts (tap_view w)).2)%nat ∧
  (tv_created (tap_view w') = tv_created (tap_view w) ∨
   tv_created (tap_view w') = tv_created (tap_view w) ++ [true]).
Proof.
  intros Hr Hw. revert Hr. unfold mac_run.
  destruct (th_shutdown w) as [w1 b] eqn:Hs. apply shutdown_view in Hs as [Hv1 _].
  assert (∀ w2, tap_view w2 = tap_view w1 → tidy w w2) as Htidy
    by (intros w2 Hv; unfold tidy; rewrite Hv, Hv1; by destruct (tap_view w)).
  destruct b; [intros [= <- <-]; split; [by apply Htidy|]; rewrite Hv1; simpl; split_and!; [lia|lia|by left]|].
  destruct (request_permissions fuel w1) as [[w2 ok]|] eqn:Hreq; [|done]. simpl.
  apply request_permissions_spec in Hreq as [(a & i & g & n & Hv2 & Ha & Hi & _) Hg].
  rewrite Hv1 in Hv2. simpl in Hv2.
  assert (tidy w w2) as Ht by (unfold tidy; by rewrite Hv2).
  destruct ok; [|intros [= <- <-]; split; [done|]; rewrite Hv2; simpl; split_and!; [lia|lia|by left]].
  specialize (Hg eq_refl).
  destruct (th_shutdown w2) as [w3 b] eqn:Hs. apply shutdown_view in Hs as [Hv3 _].
  assert (tidy w w3) as Ht3 by (unfold tidy; by rewrite Hv3, Hv2).
  destruct b; [intros [= <- <-]; split; [done|]; rewrite Hv3, Hv2; simpl; split_and!; [lia|lia|by left]|].
  intros (Htap & Hpr & Hcr)%run_tap_spec; [|by rewrite Hv3, Hv2]. split.
  - destruct Htap as (Hp & Hb & Hwt), Ht3 as (Hp3 & Hb3 & _). unfold tidy. by rewrite Hp, Hb, Hp3, Hb3.
  - rewrite Hpr, Hcr, Hv3. simpl. rewrite Hg, Hv2. simpl. split_and!; [lia|lia|by right].
Qed.

(** C39. [run] ends when it is told to. Wherever it is, waiting for permissions or
    running its loop, it polls the shutdown flag in every round: if the flag is seen
    after at most [patience] polls, [patience + 1] rounds are enough for [run] to
    return, whatever the permissions, the run loop and the installation do. *)
Theorem tap_run_stops {W} `{TapHostLaws W} fuel (w : W) :
  (tv_patience (tap_view w) < fuel)%nat → is_Some (mac_run fuel w).
Proof.
  intros Hf. unfold mac_run. destruct (th_shutdown w) as [w1 b] eqn:Hs.
  apply shutdown_view in Hs as [Hv1 _]. destruct b; [by eexists|].
  assert (tv_patience (tap_view w1) < fuel)%nat as Hf1 by (rewrite Hv1; simpl; lia).
  destruct (request_permissions_total fuel w1 Hf1) as [[w2 ok] Hreq]. rewrite Hreq. simpl.
  destruct ok; [|by eexists]. apply request_permissions_spec in Hreq as [(a & i & g & n & Hv2 & _ & _ & Hn) _].
  destruct (th_shutdown w2) as [w3 b] eqn:Hs. apply shutdown_view in Hs as [Hv3 _].
  destruct b; [by eexists|]. apply run_tap_total. rewrite Hv3, Hv2. simpl. lia.
Qed.

(** ** Input sources *)

(** Core Foundation objects are released by who creates them. *)
Class InputSourcesLaws (W : Type) `{InputSources W} : Type := {
  tis_live : W → gset Z;
  tis_selected : W → list Z;
  create_list_live w id w' r :
    tis_create_list w id = (w', r) → tis_selected w' = tis_selected w ∧
    match r with
    | Some x => (x ∉ tis_live w) ∧ tis_live w' = {[x]} ∪ tis_live w
    | None => tis_live w' = tis_live w
    end;
  count_keeps w x : tis_live (tis_count w x).1 = tis_live w ∧ tis_selected (tis_count w x).1 = tis_selected w;
  first_keeps w x : tis_live (tis_first w x).1 = tis_live w ∧ tis_selected (tis_first w x).1 = tis_selected w;
  enabled_keeps w x :
    tis_live (tis_enabled w x).1 = tis_live w ∧ tis_selected (tis_enabled w x).1 = tis_selected w;
  select_keeps w x :
    tis_live (tis_select w x).1 = tis_live w ∧ tis_selected (tis_select w x).1 = tis_selected w ++ [x];
  release_live w x :
    tis_live (cf_release w x) = tis_live w ∖ {[x]} ∧ tis_selected (cf_release w x) = tis_selected w;
}.

(** The list of sources is released on every path; a source is selected at most once,
    and whenever the call succeeds. *)
Lemma set_input_source_clean {W} `{InputSourcesLaws W} id (w w' : W) r :
  set_input_source id w = (w', r) →
  tis_live w' = tis_live w ∧
  (tis_selected w' = tis_selected w ∨ ∃ x, tis_selected w' = tis_selected w ++ [x]) ∧
  (r = Ok () → ∃ x, tis_selected w' = tis_selected w ++ [x]).
Proof.
  unfold set_input_source. destruct (tis_create_list w id) as [w1 [x|]] eqn:Hc;
    apply create_list_live in Hc as [Hs1 Hl1].
  2:{ intros [= <- <-]. rewrite Hs1. split_and!; [done|by left|done]. }
  destruct Hl1 as [Hx Hl1]. destruct (count_keeps w1 x) as [Hl2 Hs2].
  destruct (tis_count w1 x) as [w2 count]; simpl in *.
  assert (∀ w3, tis_live w3 = tis_live w1 → tis_live (cf_release w3 x) = tis_live w) as Hrel.
  { intros w3 Hl. rewrite (proj1 (release_live w3 x)), Hl, Hl1. clear -Hx. set_solver. }
  assert (∀ w3, tis_selected (cf_release w3 x) = tis_selected w3) as Hsel
    by (intros w3; apply release_live).
  case_bool_decide; [intros [= <- <-]; rewrite Hsel, Hs2, Hs1; split_and!; [by apply Hrel|by left|done]|].
  destruct (first_keeps w2 x) as [Hl3 Hs3]. destruct (tis_first w2 x) as [w3 [first|]]; simpl in *.
  2:{ intros [= <- <-]; rewrite Hsel, Hs3, Hs2, Hs1; split_and!; [apply Hrel; congruence|by left|done]. }
  destruct (enabled_keeps w3 first) as [Hl4 Hs4]. destruct (tis_enabled w3 first) as [w4 enabled]; simpl in *.
  destruct (negb _);
    [intros [= <- <-]; rewrite Hsel, Hs4, Hs3, Hs2, Hs1; split_and!; [apply Hrel; congruence|by left|done]|].
  destruct (select_keeps w4 first) as [Hl5 Hs5]. destruct (tis_select w4 first) as [w5 rc]; simpl in *.
  intros Heq. assert (w' = cf_release w5 x) as -> by (case_bool_decide; by injection Heq as <- <-).
  rewrite Hsel, Hs5, Hs4, Hs3, Hs2, Hs1. split_and!; [apply Hrel; congruence|right; by exists first|by exists first].
Qed.

(** The queue never exceeds its capacity, keeps its order, and a refusal changes
    nothing. *)
Lemma enqueue_bounded self id self' r :
  enqueue self id = (self', r) →
  match r with
  | Ok _ => ∃ ch ch', iw_sender self = Some ch ∧ iw_sender self' = Some ch' ∧
      ch_items ch' = ch_items ch ++ [id] ∧ (length (ch_items ch') ≤ QUEUE_CAPACITY)%nat
  | Err _ => self' = self
  end.
Proof.
  unfold enqueue. destruct (iw_sender self) as [ch|] eqn:Hs; [|by intros [= <- <-]].
  destruct (negb _); [by intros [= <- <-]|]. case_bool_decide; [by intros [= <- <-]|].
  intros [= <- <-]. eexists _, _. split_and!; [done..|]. simpl. rewrite length_app. simpl. lia.
Qed.

(** ** Witnesses *)

(** Core Graphics that never fails. *)
#[export] Instance SimCG : CoreGraphics (list CGEvent) := {
  cg_source w := (w, true);
  cg_keyboard_event w key down := (w, Some (mkCGEvent key 0 0));
  cg_post w e := w ++ [e];
  cg_now w := (w, Z.of_nat (length w));
}.
#[export] Instance SimCG_laws : CoreGraphicsLaws (list CGEvent).
Proof.
  refine {| posted w := w |}; try done. by intros w key down w' e [= <- <-].
Defined.

Definition own_key : CGEvent := mkCGEvent 0 FlagCommand SLEDGE_EVENT_SOURCE_TAG.

Lemma own_events_pass_witness :
  send_key KeyA CMD ([] : list CGEvent) = ([own_key; own_key], Ok ()) ∧
  ∃ es, [own_key; own_key] = [] ++ es ∧
    tap_trampoline 10 own_key None (Some ([] : list KeyEvent)) = (Some [], Some own_key).
Proof.
  assert (send_key KeyA CMD ([] : list CGEvent) = ([own_key; own_key], Ok ())) as Hs by reflexivity.
  split; [exact Hs|].
  destruct (own_events_pass KeyA CMD [] [own_key; own_key] (Ok ()) Hs) as (es & Hp & Hpass & _).
  exists es. simpl in Hp. split; [exact Hp|]. subst es.
  exact (Hpass own_key (list_elem_of_here _ _) (list KeyEvent) recording_sink 10 None (Some [])).
Defined.

(** A rule that swaps two keys; while its key is held the configuration is reloaded and
    the injected event comes back. *)
Definition swap_rule : Rule :=
  mkRule (Hotkey (mkHotkeyTrigger KeyA mods_empty)) (SendKey KeyB mods_empty) None.
Definition swap_config : Config := mkConfig DaemonSection_default ∅ ∅ (RuleSet_new [swap_rule]).
Definition swap_ops : list TapOp :=
  [TapReload swap_config; TapCallback 10 own_key None; TapCallback 10 (mkCGEvent 8 0 0) None].

Lemma swap_ops_spare : Forall (tap_spares KeyA) swap_ops.
Proof.
  apply Forall_cons; split; [done|]. apply Forall_cons; split; [by left|].
  apply Forall_cons; split; [right; vm_compute; discriminate|by apply Forall_nil].
Qed.

Lemma tap_release_matches_press_witness :
  let s0 := Some (mkMacSink (Matcher_new (cfg_rules swap_config)) ∅ (InputSourceWorker_new true)
                    ([] : list CGEvent) false) in
  let '(s2, r1) := tap_trampoline 10 (mkCGEvent 0 0 0) None s0 in
  let '(s4, r2) := tap_trampoline 11 (mkCGEvent 0 0 0) None (tap_run s2 swap_ops) in
  r1 = None ∧ r2 = None.
Proof.
  pose proof (tap_release_matches_press swap_config (InputSourceWorker_new true) ([] : list CGEvent) []
    (mkCGEvent 0 0 0) None swap_ops (mkCGEvent 0 0 0) None KeyA mods_empty mods_empty
    ltac:(by eexists) ltac:(repeat constructor; intros cfg [=]; subst; by eexists)
    ltac:(done) ltac:(done) eq_refl eq_refl eq_refl swap_ops_spare) as Hp.
  cbv zeta in *. cbn [tap_run fold_left] in Hp.
  destruct (tap_trampoline 10 _ None _) as [s2 r1] eqn:E1.
  destruct (tap_trampoline 11 _ None _) as [s4 r2].
  destruct Hp as (_ & Hn & _). apply (f_equal snd) in E1. simpl in E1.
  assert (r1 = None) as -> by (rewrite <- E1; vm_compute; reflexivity).
  split; [reflexivity|]. by apply Hn.
Defined.

(** A host that is its own view: the permissions are granted at the first check after
    the prompts, and the flag is set after a number of polls. *)
#[export] Instance SimTap : TapHost TapView := {
  th_shutdown w := (tv_set_patience (pred (tv_patience w)) w, bool_decide (tv_patience w = 0%nat));
  th_permissions w :=
    let p := bool_decide (tv_prompts w ≠ (0, 0)%nat) in (tv_set_granted (p && p) w, (p, p));
  th_prompt_accessibility w := tv_set_prompts (S (tv_prompts w).1, (tv_prompts w).2) w;
  th_prompt_input_monitoring w := tv_set_prompts ((tv_prompts w).1, S (tv_prompts w).2) w;
  th_sleep w := w;
  th_start_poller w := w;
  th_box w := let c := fresh (tv_boxes w) in (tv_set_boxes ({[c]} ∪ tv_boxes w) w, c);
  th_unbox w c := tv_set_boxes (tv_boxes w ∖ {[c]}) w;
  th_tap_create w _ :=
    let port := fresh (tv_ports w) in
    (tv_set_ports ({[port]} ∪ tv_ports w) (tv_set_created (tv_created w ++ [tv_granted w]) w), Some port);
  th_source_create w port := (w, Some port);
  th_add_source w _ := w;
  th_tap_enable w _ := w;
  th_tap_is_enabled w _ := (w, true);
  th_invalidate w _ := w;
  th_release_port w port := tv_set_ports (tv_ports w ∖ {[port]}) w;
  th_spawn_watchdog w _ := (tv_set_watched true w, true);
  th_join_watchdog w := tv_set_watched false w;
  th_run_in_mode w := (w, false);
}.
#[export] Instance SimTap_laws : TapHostLaws TapView.
Proof.
  refine {| tap_view w := w |}; try done.
  - intros w w' b [= <- <-]. split; [done|]. intros ->. done.
  - by intros w w' p [= <- <-].
  - intros w w' c [= <- <-]. split; [apply is_fresh|done].
  - intros w c w' r [= <- <-]. split; [apply is_fresh|done].
  - by intros w port w' ok [= <- <-].
Defined.

Definition tap_start : TapView := mkTapView ∅ ∅ false (0, 0)%nat false [] 5.
Definition tap_end : TapView := mkTapView ∅ ∅ false (1, 1)%nat true [true] 0.

Lemma tap_leaves_nothing_witness :
  mac_run 6 tap_start = Some (tap_end, Ok ()) ∧ tidy tap_start tap_end.
Proof.
  assert (mac_run 6 tap_start = Some (tap_end, Ok ())) as Hr by (vm_compute; reflexivity).
  split; [exact Hr|]. exact (proj1 (tap_leaves_nothing 6 tap_start tap_end (Ok ()) Hr eq_refl)).
Defined.

Lemma tap_run_stops_witness : is_Some (mac_run 6 tap_start).
Proof. apply (tap_run_stops 6 tap_start). simpl. lia. Defined.
