(* ===== verification/MacFocus.v ===== *)
(** * The focus poller, the permissions and the backends' ends (macos/src/focus.rs,
    macos/src/permission.rs, windows/src/lib.rs)

    The tracker of the focused application with the thread that keeps it, as an
    instance of the threads of Joins.v; the two permission checks over
    the services that answer them (class [Privacy]), and the event tap's host built on
    them; and the Windows backend, which only refuses.

    Dropping the poller's handle ends the thread within four steps, and the tracker
    then keeps the last answer. Checking permissions never shows a dialog, and waiting
    for them asks for each dialog at most once, however long the wait. *)

From stdpp Require Import relations.
From S2P Require Import Prelude Event TapFsm Rule Config Keymap Sink MacTap Joins.

(** ** The tracker *)

(** [FocusTracker] *)
Record FocusTracker : Type := mkFocusTracker { ft_inner : option string }.
Definition FocusTracker_new : FocusTracker := mkFocusTracker None.
Definition tracker_current (self : FocusTracker) : option string := ft_inner self.
Definition tracker_set (id : option string) (self : FocusTracker) : FocusTracker := mkFocusTracker id.

(** [current_frontmost_bundle]: the frontmost application, if there is one, and its
    bundle identifier, if it has one *)
Definition current_frontmost_bundle (app : option (option string)) : option string :=
  bid ← app; bid.

(** ** The poller's thread *)

Module Poller.
(** The thread looks at the flag, has asked for the frontmost application, and sleeps. *)
Inductive ThreadAt : Type := Looking | Asked (id : option string) | Sleeping | Ended.
(** The tracker, and what was stored in it, latest last *)
Definition Data : Type := FocusTracker * list (option string).
(** The loop of the thread *)
Inductive thread_step : bool → ThreadAt * Data → ThreadAt * Data → Prop :=
  | po_ask d app : thread_step false (Looking, d) (Asked (current_frontmost_bundle app), d)
  | po_end d : thread_step true (Looking, d) (Ended, d)
  | po_set st t l id : thread_step st (Asked id, (t, l)) (Sleeping, (tracker_set id t, l ++ [id]))
  | po_sleep st d : thread_step st (Sleeping, d) (Looking, d).

(** [PollerHandle] *)
Definition poller_thread : Stoppable ThreadAt Data := {|
  st_step := thread_step;
  st_ended := Ended;
  st_final d := d;
  st_left t := match t with Ended => 0 | Looking => 1 | Sleeping => 2 | Asked _ => 3 end;
  st_more t := match t with Asked _ => 1 | _ => 0 end;
  st_done d := length d.2;
|}%nat.
#[export] Existing Instance poller_thread.
#[export] Instance poller_laws : StoppableLaws ThreadAt Data.
Proof.
  split; simpl; try done.
  - intros stop d p Hs. inversion Hs.
  - intros [] [t l]; [..|by left]; right; eexists; constructor.
  - intros t d t' d' Hs. inversion Hs; subst; simpl; rewrite ?length_app; simpl; lia.
Qed.

(** [spawn_poller] *)
Definition spawn_poller (tracker : FocusTracker) : Joined ThreadAt Data := spawned Looking (tracker, []).

(** While the poller runs, the tracker's value is the last answer the thread stored, or
    what it was before the first; once the handle is being dropped, the thread ends
    within four steps, whatever the interleaving, and stores at most one more answer; and
    when the drop has returned, the tracker no longer changes. *)
Theorem focus_poller_joined tracker s :
  rtc join_step (spawn_poller tracker) s →
  (jo_owner s ≠ Gone →
   tracker_current (jo_data s).1 = default (tracker_current tracker) (last (jo_data s).2)) ∧
  (jo_owner s = Gone → jo_thread s = Ended ∧ ∀ s', ¬ join_step s s') ∧
  (jo_owner s = Joining → (steps_left s ≤ 4)%nat ∧ (∃ s', join_step s s') ∧
     (∀ s', join_step s s' → (steps_left s' < steps_left s)%nat) ∧
     ∀ s', rtc join_step s s' → (length (jo_data s').2 ≤ S (length (jo_data s).2))%nat).
Proof.
  intros Hr. destruct (thread_joined 3 1 Looking (tracker, []) s) as [Hg Hj];
    [by intros []; simpl; lia..|done|].
  split_and!; [|by intros Ho; destruct (Hg Ho) as (Ht & _ & Hq)|done].
  intros Ho. apply (thread_invariant
      (λ p, tracker_current p.2.1 = default (tracker_current tracker) (last p.2.2)) Looking (tracker, []));
      [done| |done|done].
  intros b p p' Hp Hs. destruct Hs; simpl in *; rewrite ?last_snoc; done.
Qed.
End Poller.

(** ** Permissions *)

(** [AXIsProcessTrustedWithOptions] with the prompt option, [IOHIDCheckAccess] and
    [IOHIDRequestAccess] *)
Class Privacy (W : Type) : Type := {
  pv_trusted : bool → W → W * bool;
  pv_check_access : Z → W → W * Z;
  pv_request_access : Z → W → W * bool;
}.

(** [PermissionStatus] *)
Record PermissionStatus : Type := mkPermissionStatus {
  pm_accessibility : bool;
  pm_input_monitoring : bool;
}.
Definition permissions_ok (self : PermissionStatus) : bool :=
  pm_accessibility self && pm_input_monitoring self.

Definition LISTEN_EVENT : Z := 1.
Definition GRANTED : Z := 0.

Section permission.
Context {W : Type} `{Privacy W}.

Definition accessibility_trusted (prompt : bool) (w : W) : W * bool := pv_trusted prompt w.
Definition input_monitoring_granted (w : W) : W * bool :=
  let '(w, access) := pv_check_access LISTEN_EVENT w in (w, bool_decide (access = GRANTED)).
Definition input_monitoring_request (w : W) : W * bool := pv_request_access LISTEN_EVENT w.
Definition check_permissions (w : W) : W * PermissionStatus :=
  let '(w, accessibility) := accessibility_trusted false w in
  let '(w, input_monitoring) := input_monitoring_granted w in
  (w, mkPermissionStatus accessibility input_monitoring).

(** What [MacOsBackend::run] is given: the host of the tap with these permissions *)
Definition permission_host (host : TapHost W) : TapHost W := {|
  th_shutdown := th_shutdown;
  th_permissions w :=
    let '(w, p) := check_permissions w in (w, (pm_accessibility p, pm_input_monitoring p));
  th_prompt_accessibility w := (accessibility_trusted true w).1;
  th_prompt_input_monitoring w := (input_monitoring_request w).1;
  th_sleep := th_sleep;
  th_start_poller := th_start_poller;
  th_box := th_box;
  th_unbox := th_unbox;
  th_tap_create := th_tap_create;
  th_source_create := th_source_create;
  th_add_source := th_add_source;
  th_tap_enable := th_tap_enable;
  th_tap_is_enabled := th_tap_is_enabled;
  th_invalidate := th_invalidate;
  th_release_port := th_release_port;
  th_spawn_watchdog := th_spawn_watchdog;
  th_join_watchdog := th_join_watchdog;
  th_run_in_mode := th_run_in_mode;
|}.
End permission.

(** What is assumed of the services: [dialogs] counts the calls that asked for each of the
    two dialogs, and only a call with the prompt option or a request asks for one. *)
Class PrivacyLaws (W : Type) `{Privacy W} (host : TapHost W) : Type := {
  dialogs : W → nat * nat;
  trusted_dialogs prompt w :
    dialogs (pv_trusted prompt w).1 =
      (if prompt then (S (dialogs w).1, (dialogs w).2) else dialogs w);
  check_dialogs request w : dialogs (pv_check_access request w).1 = dialogs w;
  request_dialogs request w :
    dialogs (pv_request_access request w).1 = ((dialogs w).1, S (dialogs w).2);
  shutdown_dialogs w : dialogs (th_shutdown w).1 = dialogs w;
  sleep_dialogs w : dialogs (th_sleep w) = dialogs w;
}.

Section dialogs.
Context {W : Type} {host : TapHost W} `{!Privacy W, !PrivacyLaws W host}.

Lemma check_permissions_dialogs (w : W) : dialogs (check_permissions w).1 = dialogs w.
Proof.
  unfold check_permissions, accessibility_trusted, input_monitoring_granted.
  pose proof (trusted_dialogs false w) as Ht. destruct (pv_trusted false w) as [w1 a]. simpl in Ht.
  pose proof (check_dialogs LISTEN_EVENT w1) as Hc.
  destruct (pv_check_access LISTEN_EVENT w1) as [w2 i]. simpl in *. congruence.
Qed.

Lemma host_permissions_dialogs (w : W) :
  dialogs (@th_permissions W (permission_host host) w).1 = dialogs w.
Proof.
  pose proof (check_permissions_dialogs w) as Hc. simpl. by destruct (check_permissions w).
Qed.

Lemma await_dialogs fuel : ∀ (w w' : W) granted,
  @await_permissions W (permission_host host) fuel w = Some (w', granted) → dialogs w' = dialogs w.
Proof.
  induction fuel as [|fuel IH]; [done|]. intros w w' granted. cbn [await_permissions].
  pose proof (shutdown_dialogs w) as Hs. cbn [th_shutdown permission_host] in *.
  destruct (th_shutdown w) as [w1 []]; simpl in Hs; [by intros [= <- _]|].
  pose proof (host_permissions_dialogs (th_sleep w1)) as Hp.
  cbn [th_sleep permission_host] in *.
  destruct (@th_permissions W (permission_host host) (th_sleep w1)) as [w2 [a i]]. simpl in Hp.
  rewrite sleep_dialogs in Hp. destruct (a && i); [intros [= <- _]|intros Hr%IH]; congruence.
Qed.

(** Checking for permissions asks for no dialog, and the whole wait for them asks for the
    dialog of each permission that was missing exactly once, and for no other: there is no
    storm of prompts, however long the wait. *)
Theorem dialogs_shown_once fuel (w w' : W) granted :
  @request_permissions W (permission_host host) fuel w = Some (w', granted) →
  let p := (check_permissions w).2 in
  dialogs w' = ((if pm_accessibility p then 0 else 1) + (dialogs w).1,
                (if pm_input_monitoring p then 0 else 1) + (dialogs w).2)%nat.
Proof.
  unfold request_permissions. pose proof (host_permissions_dialogs w) as Hp.
  cbn [th_permissions permission_host] in *. destruct (check_permissions w) as [w1 [a i]]. simpl in *.
  destruct (dialogs w) as [n m] eqn:Hw. destruct a, i; simpl.
  - intros [= <- _]. done.
  - intros Hr%await_dialogs. unfold input_monitoring_request in Hr. rewrite request_dialogs, Hp in Hr. done.
  - intros Hr%await_dialogs. unfold accessibility_trusted in Hr. rewrite trusted_dialogs, Hp in Hr. done.
  - intros Hr%await_dialogs. unfold input_monitoring_request, accessibility_trusted in Hr.
    rewrite request_dialogs, trusted_dialogs, Hp in Hr. done.
Qed.
End dialogs.

(** ** Windows *)

(** [WindowsBackend::run] and [WindowsBackend::inject] *)
Definition windows_run : result BackendError unit :=
  Err (Other "sledge_windows backend is not yet implemented").
Definition windows_inject (action : Action) : result BackendError unit :=
  Err (Other "sledge_windows backend is not yet implemented").
