(* ===== verification/Control.v ===== *)
(** * The control socket and the configuration watcher (packages/cli/src: ipc.rs,
      config_watcher.rs and [reload_callback] of daemon.rs)

    `sledge status` and `sledge reload` send one line of JSON over a Unix socket and
    read one line back; the file watcher and SIGHUP reload through the same callback.
    The byte streams and their peers are operations of the class [Stream], the JSON
    codec (serde_json) of [Json], the notification channel, its clock and the stop flag
    of [Watch]. A [None] of a loop is one that still runs. *)

From Stdlib Require Import Strings.Byte.
From S2P Require Import Prelude Event Rule Config Bytes Protocol Authorization Daemon Listener Logging.
Import Byte(byte).

(** ** Frames *)

(** [MAX_FRAME_BYTES], in bytes and with the newline *)
Definition MAX_FRAME_BYTES : Z := 64 * 1024.
Definition newline : byte := x0a.

(** [serde_json::to_writer], as the pieces it writes, and [serde_json::from_slice] *)
Class Json (A : Type) : Type := {
  to_writer : A → list (list byte);
  from_slice : list byte → result string A;
}.

(** [FrameWriter::write] *)
Definition FrameWriter_write (self bytes : list byte) : result string (list byte) :=
  if bool_decide (MAX_FRAME_BYTES - Z.of_nat (length self) < Z.of_nat (length bytes))
  then Err "IPC frame too large"
  else Ok (self ++ bytes).

(** [write_all] of each piece in turn *)
Fixpoint write_pieces (self : list byte) (pieces : list (list byte)) : result string (list byte) :=
  match pieces with
  | [] => Ok self
  | piece :: pieces => self ← FrameWriter_write self piece; write_pieces self pieces
  end.

(** [encode_frame] *)
Definition encode_frame `{Json A} (value : A) : result string (list byte) :=
  writer ← write_pieces [] (to_writer value);
  FrameWriter_write writer [newline].

(** A connected stream: its peer's credentials, [read_until] on the stream cut off by
    [take], [write_all] and the end of writing. *)
Class Stream (W : Type) : Type := {
  st_peer : W → result IoErrorKind PeerIdentity;
  st_read_until : W → Z → byte → W * result string (list byte);
  st_write_all : W → list byte → W * result string unit;
  st_flush : W → W * result string unit;
  st_shutdown : W → W * result string unit;
}.

(** [read_frame] *)
Definition read_frame `{Stream W} (w : W) : W * result string (list byte) :=
  match st_read_until w (MAX_FRAME_BYTES + 1) newline with
  | (w, Err e) => (w, Err e)
  | (w, Ok frame) =>
      if bool_decide (MAX_FRAME_BYTES < Z.of_nat (length frame)) then (w, Err "IPC frame too large")
      else if bool_decide (last frame = Some newline) then (w, Ok frame)
      else (w, Err "incomplete IPC frame")
  end.

(** ** Requests and responses *)

Inductive Request : Type := ReqStatus | ReqReload.

Record StatusPermissions : Type := mkStatusPermissions {
  sp_accessibility : bool; sp_input_monitoring : bool;
}.

(** [J] is [serde_json::Value]. *)
Record StatusPayload (J : Type) : Type := mkStatusPayload {
  pl_protocol_version : Z;
  pl_platform : option string;
  pl_capabilities : option J;
  pl_version : string;
  pl_rules_loaded : nat;
  pl_uptime_secs : Z;
  pl_focused_app : option string;
  pl_permissions : option StatusPermissions;
  pl_last_reload_secs_ago : option Z;
}.
#[global] Arguments mkStatusPayload {J}.
#[global] Arguments pl_rules_loaded {J}.
#[global] Arguments pl_last_reload_secs_ago {J}.
#[global] Arguments pl_protocol_version {J}.
#[global] Arguments pl_version {J}.
#[global] Arguments pl_uptime_secs {J}.
#[global] Arguments pl_focused_app {J}.
#[global] Arguments pl_permissions {J}.
#[global] Arguments pl_platform {J}.
#[global] Arguments pl_capabilities {J}.

Inductive Response (J : Type) : Type :=
  | RespStatus (payload : StatusPayload J)
  | RespReloaded
  | RespError (message : string).
#[global] Arguments RespStatus {J}.
#[global] Arguments RespReloaded {J}.
#[global] Arguments RespError {J}.

(** [ServerState]: the shared counters and the closures, over the daemon's state [D]. *)
Record ServerState (D J : Type) : Type := mkServerState {
  ss_started_at : Z;
  ss_rules_loaded : D → nat;
  ss_focused_app : D → option string;
  ss_reload : D → D * result string unit;
  ss_check_permissions : D → option StatusPermissions;
  ss_capabilities : D → option J;
  ss_last_reload_at : D → option Z;
  (** [Instant::now] *)
  ss_now : D → D * Z;
  (** [std::env::consts::OS] and [CARGO_PKG_VERSION] *)
  ss_os : string;
  ss_version : string;
}.
#[global] Arguments ss_started_at {D J}.
#[global] Arguments ss_rules_loaded {D J}.
#[global] Arguments ss_focused_app {D J}.
#[global] Arguments ss_reload {D J}.
#[global] Arguments ss_check_permissions {D J}.
#[global] Arguments ss_capabilities {D J}.
#[global] Arguments ss_last_reload_at {D J}.
#[global] Arguments ss_now {D J}.
#[global] Arguments ss_os {D J}.
#[global] Arguments ss_version {D J}.

(** [t.elapsed().as_secs()] *)
Definition elapsed_secs (now t : Z) : Z := Z.max 0 (now - t) / 1000000000.

(** [response] *)
Definition response {D J} (req : Request) (state : ServerState D J) (d : D) : D * Response J :=
  match req with
  | ReqStatus =>
      let perms := ss_check_permissions state d in
      let rules := ss_rules_loaded state d in
      let focused := ss_focused_app state d in
      let '(d, now) := ss_now state d in
      let uptime := elapsed_secs now (ss_started_at state) in
      let '(d, last_reload_secs_ago) :=
        match ss_last_reload_at state d with
        | None => (d, None)
        | Some t => let '(d, now) := ss_now state d in (d, Some (elapsed_secs now t))
        end in
      (d, RespStatus (mkStatusPayload 2 (Some (ss_os state)) (ss_capabilities state d)
            (ss_version state) rules uptime focused perms last_reload_secs_ago))
  | ReqReload =>
      match ss_reload state d with
      | (d, Ok _) => (d, RespReloaded)
      | (d, Err m) => (d, RespError m)
      end
  end.

(** [handle], on the server's end of the connection, when it is not cut off *)
Definition handle {D J W} `{Stream W, Json Request, Json (Response J)}
    (state : ServerState D J) (w : W) (d : D) : W * D * result string unit :=
  match read_frame w with
  | (w, Err e) => (w, d, Err e)
  | (w, Ok line) =>
      match from_slice line with
      | Err e => (w, d, Err e)
      | Ok req =>
          let '(d, resp) := response req state d in
          match encode_frame resp with
          | Err e => (w, d, Err e)
          | Ok buf =>
              match st_write_all w buf with
              | (w, Err e) => (w, d, Err e)
              | (w, Ok _) => let '(w, r) := st_flush w in (w, d, r)
              end
          end
      end
  end.

(** The check of the server's identity, with our user where it is made: on Linux *)
Definition peer_refused (euid : option Z) (peer : result IoErrorKind PeerIdentity) : bool :=
  match euid with
  | Some euid => negb (is_ok (authorize_socket_peer peer euid))
  | None => false
  end.
(** [exchange] up to the reply, and after it; between the two the server runs. *)
Definition exchange_send {W} `{Stream W, Json Request} (euid : option Z) (req : Request) (w : W) :
    W * result string unit :=
  if peer_refused euid (st_peer w) then (w, Err "IPC server identity rejected")
  else
    match encode_frame req with
    | Err e => (w, Err e)
    | Ok line =>
        match st_write_all w line with
        | (w, Err e) => (w, Err e)
        | (w, Ok _) => st_shutdown w
        end
    end.
Definition exchange_receive {J W} `{Stream W, Json (Response J)} (w : W) :
    W * result string (Response J) :=
  match read_frame w with
  | (w, Err e) => (w, Err e)
  | (w, Ok frame) => (w, from_slice frame)
  end.

(** ** Reloading (daemon.rs) *)

(** What the callback shares: the matching state, the count of its rules, the time of the
    last reload and the log filter in force. *)
Record Shared : Type := mkShared {
  sd_matching : MatchingState;
  sd_rules_loaded : nat;
  sd_last_reload_at : option Z;
  sd_filter : string;
}.

(** The start of [run] *)
Definition Shared_new `{EnvFilters} (initial : Config) : Shared :=
  mkShared (MatchingState_new initial) (RuleSet_len (cfg_rules initial)) None
    (initial_filter (log_level (cfg_daemon initial))).

(** [reload_callback] on what [load_from_file] returned; [refused] is the message of
    [validate_rules], which only an installed session asks for, [handle] the answer of the
    log filter's handle, whose failure is only logged. *)
Definition reload_callback `{EnvFilters} (self : Shared) (cfg : result string Config)
    (refused : string) (now : Z) (handle : result string unit) : Shared * result string unit :=
  match cfg with
  | Err e => (self, Err e)
  | Ok c =>
      match reload (sd_matching self) (Ok (E := string) c) with
      | (_, Err _) => (self, Err refused)
      | (state, Ok _) =>
          (mkShared state (RuleSet_len (cfg_rules c)) (Some now)
             (apply_level handle (sd_filter self) (log_level (cfg_daemon c))).1, Ok ())
      end
  end.

(** ** Serving (ipc.rs) *)

Definition MAX_CONNECTIONS : nat := 32.

(** Where the permit of an admitted connection is: with the future that reads the
    request, with the blocking worker, with the future that writes the response, or with
    a worker whose request timed out. *)
Inductive Phase : Type :=
  | Reading
  | Working (req : Request)
  | Writing
  | Abandoned (req : Request).

(** The semaphore and the connections that hold a permit. *)
Record Server : Type := mkServer { sv_capacity : nat; sv_tasks : list Phase }.
Definition Server_new : Server := mkServer MAX_CONNECTIONS [].

(** What can happen next: [accept] returns a stream; for the i-th connection, the
    request was read and decoded, or failed; the worker finished; the response was
    written, or failed; the timeout expired. *)
Inductive ServeEvent : Type :=
  | SvAccept (peer : result IoErrorKind PeerIdentity)
  | SvRead (i : nat) (req : result string Request)
  | SvWorked (i : nat)
  | SvWritten (i : nat)
  | SvTimeout (i : nat).

(** The permit goes back and the connection is gone. *)
Definition sv_end (i : nat) (self : Server) : Server :=
  mkServer (S (sv_capacity self)) (delete i (sv_tasks self)).
Definition sv_set (i : nat) (p : Phase) (self : Server) : Server :=
  mkServer (sv_capacity self) (<[i := p]> (sv_tasks self)).

(** [serve] on Linux, with the daemon's state; an event that does not apply is ignored.
    When [accept] fails the loop ends: no [SvAccept] follows, the admitted connections
    go on. *)
Definition serve_step {D J} (state : ServerState D J) (euid : Z) (ev : ServeEvent)
    (s : Server * D) : Server * D :=
  let '(self, d) := s in
  match ev with
  | SvAccept peer =>
      match authorize_socket_peer peer euid with
      | Err _ => s
      | Ok _ =>
          match sv_capacity self with
          | O => s
          | S capacity => (mkServer capacity (sv_tasks self ++ [Reading]), d)
          end
      end
  | SvRead i req =>
      match sv_tasks self !! i with
      | Some Reading =>
          match req with
          | Ok req => (sv_set i (Working req) self, d)
          | Err _ => (sv_end i self, d)
          end
      | _ => s
      end
  | SvWorked i =>
      match sv_tasks self !! i with
      | Some (Working req) => let '(d, _) := response req state d in (sv_set i Writing self, d)
      | Some (Abandoned req) => let '(d, _) := response req state d in (sv_end i self, d)
      | _ => s
      end
  | SvWritten i =>
      match sv_tasks self !! i with
      | Some Writing => (sv_end i self, d)
      | _ => s
      end
  | SvTimeout i =>
      match sv_tasks self !! i with
      | Some Reading | Some Writing => (sv_end i self, d)
      | Some (Working req) => (sv_set i (Abandoned req) self, d)
      | _ => s
      end
  end.

(** ** The configuration watcher (config_watcher.rs) *)

(** [notify::Event]: its kind as far as it is matched, and its paths *)
Inductive NotifyKind : Type :=
  | EvAny | EvAccess | EvCreate | EvModify | EvRemove | EvOther.
Record NotifyEvent : Type := mkNotifyEvent { ev_kind : NotifyKind; ev_paths : list Path }.

Inductive Received : Type :=
  | RcEvent (e : NotifyEvent)
  | RcError
  | RcTimeout
  | RcDisconnected.

Class Watch (W : Type) : Type := {
  (** The stop flag and [Instant::now] *)
  wt_stopped : W → W * bool;
  wt_now : W → W * Z;
  (** [recommended_watcher] and [watcher.watch] on the directory *)
  wt_watch : W → Path → W * result string unit;
  (** [rx.recv_timeout] *)
  wt_recv : W → Z → W * Received;
  (** [reload_fn] *)
  wt_reload : W → W * result string unit;
}.

Definition DEBOUNCE : Z := from_millis 250.

(** [event_matches] *)
Definition event_matches (evt : NotifyEvent) (target : string) : bool :=
  match ev_kind evt with
  | EvCreate | EvModify | EvRemove =>
      existsb (λ p, bool_decide (file_name p = Some target)) (ev_paths evt)
  | _ => false
  end.

Section watcher.
Context {W : Type} `{Watch W}.

(** The drain of the debounce window. *)
Fixpoint drain (fuel : nat) (deadline : Z) (w : W) : option W :=
  match fuel with
  | O => None
  | S fuel =>
      let '(w, now) := wt_now w in
      let remaining := Z.max 0 (deadline - now) in
      if bool_decide (remaining = 0) then Some w
      else
        match wt_recv w remaining with
        | (w, RcEvent _) | (w, RcError) => drain fuel deadline w
        | (w, RcTimeout) | (w, RcDisconnected) => Some w
        end
  end.

(** One round of the loop; the flag says whether to go on. *)
Definition watch_round (fuel : nat) (target : string) (w : W) : option (W * bool) :=
  match wt_recv w (from_millis 500) with
  | (w, RcEvent evt) =>
      if negb (event_matches evt target) then Some (w, true)
      else
        let '(w, now) := wt_now w in
        w ← drain fuel (now + DEBOUNCE) w;
        Some ((wt_reload w).1, true)
  | (w, RcError) | (w, RcTimeout) => Some (w, true)
  | (w, RcDisconnected) => Some (w, false)
  end.

(** The thread of [spawn], once its watcher runs. *)
Fixpoint watch_loop (rounds fuel : nat) (target : string) (w : W) : option W :=
  match rounds with
  | O => None
  | S rounds =>
      match wt_stopped w with
      | (w, true) => Some w
      | (w, false) =>
          match watch_round fuel target w with
          | None => None
          | Some (w, more) => if more then watch_loop rounds fuel target w else Some w
          end
      end
  end.

(** [spawn] and the thread it starts: without a parent directory or a file name there
    is nothing to watch. *)
Definition watcher_spawn (rounds fuel : nat) (config_path : Path) (w : W) : option W :=
  match parent config_path, file_name config_path with
  | Some directory, Some target =>
      match wt_watch w directory with
      | (w, Err _) => Some w
      | (w, Ok _) => watch_loop rounds fuel target w
      end
  | _, _ => Some w
  end.
End watcher.
