(* ===== verification/ControlThm.v ===== *)
(** * Requests over the control socket, and reloads by the watcher

    A request and its response arrive as they were sent, whatever the stream's chunks;
    the number of connections is bounded; a reload replaces everything it announces or
    nothing; each save of the configuration is followed by a reload. *)

From Stdlib Require Import Strings.Byte.
From S2P Require Import Prelude Event Rule Config Bytes Protocol Authorization Transactions Daemon.
From S2P Require Import Listener Logging Control.
Import Byte(byte).

(** ** Frames *)

(** The bytes up to and with the first [b]; all of them when there is none. *)
Fixpoint through (b : byte) (l : list byte) : list byte :=
  match l with
  | [] => []
  | x :: l => if bool_decide (x = b) then [x] else x :: through b l
  end.

Lemma through_line b l rest : b ∉ l → through b (l ++ b :: rest) = l ++ [b].
Proof.
  induction l as [|x l IH]; intros Hn; simpl; [by case_bool_decide|].
  apply not_elem_of_cons in Hn as [Hx Hn]. rewrite bool_decide_false by congruence. by rewrite IH.
Qed.

(** serde_json writes no line breaks: control characters are escaped in its strings. *)
Class JsonLaws (A : Type) `{Json A} : Prop :=
  one_line (v : A) : newline ∉ concat (to_writer v).

(** What is assumed of a stream that stays connected: [read_until] returns the bytes up
    to the delimiter or the limit, and what is written is sent in order. *)
Class StreamLaws (W : Type) `{Stream W} : Type := {
  alive : W → bool;
  incoming : W → list byte;
  sent : W → list byte;
  read_until_spec w n b : alive w = true →
    (st_read_until w n b).2 = Ok (through b (take (Z.to_nat n) (incoming w))) ∧
    alive (st_read_until w n b).1 = true ∧ sent (st_read_until w n b).1 = sent w;
  write_all_spec w bs : alive w = true →
    (st_write_all w bs).2 = Ok () ∧
    alive (st_write_all w bs).1 = true ∧ sent (st_write_all w bs).1 = sent w ++ bs;
  flush_spec w : alive w = true →
    (st_flush w).2 = Ok () ∧ sent (st_flush w).1 = sent w;
  shutdown_spec w : alive w = true →
    (st_shutdown w).2 = Ok () ∧ sent (st_shutdown w).1 = sent w;
}.

Lemma write_pieces_spec pieces : ∀ self,
  Z.of_nat (length self) ≤ MAX_FRAME_BYTES →
  write_pieces self pieces =
    if bool_decide (Z.of_nat (length (self ++ concat pieces)) ≤ MAX_FRAME_BYTES)
    then Ok (self ++ concat pieces) else Err "IPC frame too large".
Proof.
  induction pieces as [|p pieces IH]; intros self Hl; simpl.
  { rewrite app_nil_r. by rewrite bool_decide_true. }
  unfold FrameWriter_write. rewrite !length_app. case_bool_decide as Hp; simpl.
  { rewrite bool_decide_false; [done|lia]. }
  rewrite IH by (rewrite length_app; lia). rewrite <- app_assoc, !length_app. done.
Qed.

(** A value is framed exactly when its JSON and the newline fit. *)
Lemma encode_frame_spec `{Json A} (v : A) :
  encode_frame v =
    if bool_decide (Z.of_nat (length (concat (to_writer v))) < MAX_FRAME_BYTES)
    then Ok (concat (to_writer v) ++ [newline]) else Err "IPC frame too large".
Proof.
  unfold encode_frame. rewrite write_pieces_spec by done. simpl.
  case_bool_decide as Hp; simpl.
  - unfold FrameWriter_write. simpl. repeat case_bool_decide; try done; lia.
  - rewrite bool_decide_false; [done|lia].
Qed.

Lemma encode_frame_inv `{Json A} (v : A) frame :
  encode_frame v = Ok frame →
  Z.of_nat (length (concat (to_writer v))) < MAX_FRAME_BYTES ∧
  concat (to_writer v) ++ [newline] = frame.
Proof. rewrite encode_frame_spec. case_bool_decide; [by intros [= <-]|done]. Qed.

Lemma read_line {W} `{StreamLaws W} (w : W) l rest :
  alive w = true → newline ∉ l → Z.of_nat (length l) < MAX_FRAME_BYTES →
  incoming w = l ++ newline :: rest →
  ∃ w', read_frame w = (w', Ok (l ++ [newline])) ∧ alive w' = true ∧ sent w' = sent w.
Proof.
  intros Ha Hn Hl Hin. unfold read_frame.
  destruct (read_until_spec w (MAX_FRAME_BYTES + 1) newline Ha) as (Hr & Ha' & Hs).
  destruct (st_read_until w _ newline) as [w' r]; simpl in *. subst r. rewrite Hin.
  rewrite take_app_ge by lia.
  assert (∃ k, take (Z.to_nat (MAX_FRAME_BYTES + 1) - length l) (newline :: rest) = newline :: k)
    as [k ->].
  { destruct (_ - _)%nat eqn:E; [lia|]. by eexists. }
  rewrite through_line by done. rewrite length_app. simpl.
  rewrite bool_decide_false by lia. rewrite last_snoc, bool_decide_true by done. eauto.
Qed.

(** The client sends exactly the framed request. *)
Lemma send_line {W} `{StreamLaws W, !Json Request} euid req line (client : W) :
  encode_frame req = Ok line → alive client = true →
  is_ok (authorize_socket_peer (st_peer client) euid) = true →
  ∃ client', exchange_send (Some euid) req client = (client', Ok ()) ∧ sent client' = sent client ++ line.
Proof.
  intros Hline Ha Hauth. unfold exchange_send, peer_refused. rewrite Hauth. simpl.
  rewrite Hline. destruct (write_all_spec client line Ha) as (Hr & Ha' & Hs).
  destruct (st_write_all client line) as [c1 r]; simpl in *. subst r.
  destruct (shutdown_spec c1 Ha') as [Hr Hs']. destruct (st_shutdown c1) as [c2 r]; simpl in *.
  subst r. exists c2. split; [done|congruence].
Qed.

(** The server that receives it computes the response once and sends exactly its frame. *)
Lemma handle_line {D J W} `{StreamLaws W, !Json Request, !Json (Response J)}
    (state : ServerState D J) req d d' resp line reply (server : W) :
  response req state d = (d', resp) → newline ∉ concat (to_writer req) →
  encode_frame req = Ok line → from_slice line = Ok req → encode_frame resp = Ok reply →
  alive server = true → incoming server = line →
  ∃ server', handle state server d = (server', d', Ok ()) ∧ sent server' = sent server ++ reply.
Proof.
  intros Hresp Hnl Hline Hreq Hreply Ha Hin. destruct (encode_frame_inv _ _ Hline) as [Hfl El].
  unfold handle.
  destruct (read_line server (concat (to_writer req)) [] Ha Hnl Hfl) as (s1 & -> & Ha1 & Hs1); [congruence|].
  rewrite El, Hreq, Hresp, Hreply. destruct (write_all_spec s1 reply Ha1) as (Hr & Ha2 & Hs2).
  destruct (st_write_all s1 reply) as [s2 r]; simpl in *. subst r.
  destruct (flush_spec s2 Ha2) as [Hr Hs3]. destruct (st_flush s2) as [s3 r]; simpl in *. subst r.
  exists s3. split; [done|congruence].
Qed.

(** The client that receives that frame returns the response. *)
Lemma receive_line {J W} `{StreamLaws W, !Json (Response J)} resp reply (client : W) :
  newline ∉ concat (to_writer resp) → encode_frame resp = Ok reply → from_slice reply = Ok resp →
  alive client = true → incoming client = reply →
  ∃ client', exchange_receive client = (client', Ok resp).
Proof.
  intros Hnl Hreply Hback Ha Hin. destruct (encode_frame_inv _ _ Hreply) as [Hfp Ep].
  unfold exchange_receive.
  destruct (read_line client (concat (to_writer resp)) [] Ha Hnl Hfp) as (c1 & -> & _); [congruence|].
  rewrite Ep, Hback. by exists c1.
Qed.

(** A request and its response arrive as they were sent. When the frames fit and
    their JSON reads back, a client connected to an authorized server sends exactly the
    framed request; a server that receives those bytes computes the response once, sends
    exactly its frame, and the client that receives it returns that response. Neither
    depends on how the stream cuts the bytes up. *)
Theorem control_exchange_exact {D J W} `{StreamLaws W, !Json Request, !JsonLaws Request,
    !Json (Response J), !JsonLaws (Response J)} (state : ServerState D J) euid req d d' resp line reply :
  response req state d = (d', resp) →
  encode_frame req = Ok line → from_slice line = Ok req →
  encode_frame resp = Ok reply → from_slice reply = Ok resp →
  (∀ client : W, alive client = true →
     is_ok (authorize_socket_peer (st_peer client) euid) = true →
     ∃ client', exchange_send (Some euid) req client = (client', Ok ()) ∧
       sent client' = sent client ++ line) ∧
  (∀ server : W, alive server = true → incoming server = line →
     ∃ server', handle state server d = (server', d', Ok ()) ∧
       sent server' = sent server ++ reply) ∧
  (∀ client : W, alive client = true → incoming client = reply →
     ∃ client', exchange_receive client = (client', Ok resp)).
Proof.
  intros Hresp Hline Hreq Hreply Hback. split_and!.
  - intros c Ha Hauth. by eapply send_line.
  - intros sv Ha Hin. by eapply handle_line; [done|apply one_line|..].
  - intros c Ha Hin. by eapply receive_line; [apply one_line|..].
Qed.

(** A request that is not one complete line of at most [MAX_FRAME_BYTES] never reaches
    the daemon. *)
Lemma unframed_request_ignored {D J W} `{StreamLaws W, !Json Request, !Json (Response J)}
    (state : ServerState D J) (w : W) d :
  alive w = true → newline ∉ take (Z.to_nat MAX_FRAME_BYTES) (incoming w) →
  ∃ w' e, handle state w d = (w', d, Err e).
Proof.
  intros Ha Hn. unfold handle, read_frame.
  destruct (read_until_spec w (MAX_FRAME_BYTES + 1) newline Ha) as (Hr & _ & _).
  destruct (st_read_until w _ newline) as [w' r]; simpl in *. subst r.
  assert (∀ n l, newline ∉ take n l → last (through newline (take (S n) l)) = Some newline →
    (n < length (through newline (take (S n) l)))%nat) as Hlong.
  { clear. induction n as [|n IH]; intros [|x l]; simpl; try done.
    - by case_bool_decide; simpl; lia.
    - intros Hn Hl. apply not_elem_of_cons in Hn as [Hx Hn].
      rewrite bool_decide_false in Hl |- * by congruence. simpl. apply (proj1 (Nat.succ_lt_mono _ _)).
      apply IH; [done|]. rewrite last_cons in Hl. destruct (last (through _ _)); [done|congruence]. }
  specialize (Hlong _ _ Hn). replace (Z.to_nat (MAX_FRAME_BYTES + 1)) with (S (Z.to_nat MAX_FRAME_BYTES))
    by (by rewrite <- Z2Nat.inj_succ).
  case_bool_decide as Hb; [by eauto|]. case_bool_decide as Hlast; [|by eauto]. specialize (Hlong Hlast). lia.
Qed.

(** ** Serving *)

Lemma sum_insert {A} (f : A → nat) l i x y :
  l !! i = Some x → (sum_list_with f (<[i := y]> l) + f x = sum_list_with f l + f y)%nat.
Proof.
  intros Hi. pose proof (take_drop_middle l i x Hi) as Hl. rewrite <- Hl at 2.
  rewrite insert_take_drop by (by eapply lookup_lt_Some). rewrite !sum_list_with_app. simpl. lia.
Qed.
Lemma sum_delete {A} (f : A → nat) l i x :
  l !! i = Some x → (sum_list_with f (delete i l) + f x = sum_list_with f l)%nat.
Proof.
  intros Hi. pose proof (take_drop_middle l i x Hi) as Hl. rewrite <- Hl at 2.
  rewrite delete_take_drop, !sum_list_with_app. simpl. lia.
Qed.
Lemma sum_list_with_one {A} (l : list A) : sum_list_with (λ _, 1%nat) l = length l.
Proof. induction l as [|x l IH]; simpl; [done|lia]. Qed.

(** A connection whose worker has not finished. *)
Definition at_work (p : Phase) : nat :=
  match p with Working _ | Abandoned _ => 1 | Reading | Writing => 0 end.
(** A request that was read. *)
Definition reads (ev : ServeEvent) : nat :=
  match ev with SvRead _ (Ok _) => 1 | _ => 0 end.

(** The requests the workers have run. *)
Definition run_requests {D J} (state : ServerState D J) (reqs : list Request) (d : D) : D :=
  foldl (λ d req, (response req state d).1) d reqs.

(** One step keeps the permits and runs at most one request, of a worker. *)
Lemma serve_step_inv {D J} (state : ServerState D J) euid ev s d s' d' :
  serve_step state euid ev (s, d) = (s', d') →
  (sv_capacity s' + length (sv_tasks s') = sv_capacity s + length (sv_tasks s))%nat ∧
  ∃ reqs, d' = run_requests state reqs d ∧
    (length reqs + sum_list_with at_work (sv_tasks s') ≤
     sum_list_with at_work (sv_tasks s) + reads ev)%nat.
Proof.
  assert (∀ s0, (s0, d) = (s', d') → sv_capacity s0 = sv_capacity s ∧ sv_tasks s0 = sv_tasks s →
    (sv_capacity s' + length (sv_tasks s') = sv_capacity s + length (sv_tasks s))%nat ∧
    ∃ reqs, d' = run_requests state reqs d ∧
      (length reqs + sum_list_with at_work (sv_tasks s') ≤
       sum_list_with at_work (sv_tasks s) + reads ev)%nat) as Hsame.
  { intros s0 [= <- <-] [-> ->]. split; [done|]. exists []. split; [done|simpl; lia]. }
  destruct ev as [peer|i req|i|i|i]; simpl.
  { destruct (authorize_socket_peer peer euid); [|by intros; eapply Hsame].
    destruct (sv_capacity s) eqn:Ec; [by intros; eapply Hsame|]. intros [= <- <-]. simpl.
    rewrite length_app. split; [simpl; lia|]. exists []. split; [done|].
    rewrite sum_list_with_app. simpl. lia. }
  all: destruct (sv_tasks s !! i) as [p|] eqn:Hi; [|by intros; eapply Hsame].
  all: pose proof (λ q, sum_insert at_work _ i p q Hi) as Hins.
  all: pose proof (sum_delete at_work _ i p Hi) as Hdel.
  all: pose proof (sum_delete (λ _, 1%nat) _ i p Hi) as Hlen; rewrite !sum_list_with_one in Hlen.
  - destruct p; try (by intros; eapply Hsame). destruct req as [req|e]; intros [= <- <-]; simpl.
    + rewrite length_insert. split; [done|]. exists []. split; [done|]. specialize (Hins (Working req)).
      simpl in *. lia.
    + split; [simpl; lia|]. exists []. split; [done|]. simpl in *. lia.
  - destruct p; try (by intros; eapply Hsame); destruct (response req state d) as [d1 resp] eqn:Hr;
      intros [= <- <-]; simpl; (split; [rewrite ?length_insert; simpl; lia|]); exists [req];
      (split; [by unfold run_requests; simpl; rewrite Hr|]).
    + specialize (Hins Writing). simpl in *. lia.
    + simpl in *. lia.
  - destruct p; try (by intros; eapply Hsame). intros [= <- <-]. simpl.
    split; [simpl; lia|]. exists []. split; [done|]. simpl in *. lia.
  - destruct p; try (by intros; eapply Hsame); intros [= <- <-]; simpl.
    1, 3: split; [simpl; lia|]; exists []; split; [done|]; simpl in *; lia.
    rewrite length_insert. split; [done|]. exists []. split; [done|]. specialize (Hins (Abandoned req)).
    simpl in *. lia.
Qed.

Lemma serve_inv {D J} (state : ServerState D J) euid evs : ∀ s d s' d',
  foldl (λ s ev, serve_step state euid ev s) (s, d) evs = (s', d') →
  (sv_capacity s' + length (sv_tasks s') = sv_capacity s + length (sv_tasks s))%nat ∧
  ∃ reqs, d' = run_requests state reqs d ∧
    (length reqs + sum_list_with at_work (sv_tasks s') ≤
     sum_list_with at_work (sv_tasks s) + sum_list_with reads evs)%nat.
Proof.
  induction evs as [|ev evs IH]; intros s d s' d'; cbn [foldl sum_list_with].
  { intros [= <- <-]. split; [done|]. exists []. split; [done|simpl; lia]. }
  destruct (serve_step state euid ev (s, d)) as [s1 d1] eqn:Hs.
  destruct (serve_step_inv state euid ev s d s1 d1 Hs) as (Hc & reqs1 & -> & Hr1).
  intros Hf. destruct (IH _ _ _ _ Hf) as (Hc' & reqs & -> & Hr). split; [lia|].
  exists (reqs1 ++ reqs). split; [unfold run_requests; by rewrite foldl_app|]. rewrite length_app. lia.
Qed.

(** The server never works for more than [MAX_CONNECTIONS] connections. Over any
    interleaving of accepted streams, requests, finished workers, responses and
    timeouts, the free permits and the connections that hold one add up to 32: a
    request that timed out while its worker runs keeps its permit until the worker is
    done. The daemon's state changes only by requests that were read, each of which
    runs at most once. *)
Theorem control_capacity {D J} (state : ServerState D J) euid evs d s' d' :
  foldl (λ s ev, serve_step state euid ev s) (Server_new, d) evs = (s', d') →
  (sv_capacity s' + length (sv_tasks s') = MAX_CONNECTIONS)%nat ∧
  ∃ reqs, d' = run_requests state reqs d ∧
    (length reqs + sum_list_with at_work (sv_tasks s') ≤ sum_list_with reads evs)%nat.
Proof. intros Hf. exact (serve_inv state euid evs _ d s' d' Hf). Qed.

(** ** Reloading *)

(** What the shared state promises: the count is that of the rules in force. *)
Definition counted (self : Shared) : Prop :=
  sd_rules_loaded self = RuleSet_len (m_rules (ms_matcher (sd_matching self))).

Lemma reload_callback_spec `{EnvFilters} self cfg refused now handle self' r :
  reload_callback self cfg refused now handle = (self', r) →
  (∃ c, cfg = Ok c ∧ r = Ok () ∧
     self' = mkShared (MatchingState_replace (sd_matching self) c) (RuleSet_len (cfg_rules c)) (Some now)
       (apply_level handle (sd_filter self) (log_level (cfg_daemon c))).1 ∧
     (ms_hyprland_down_only (sd_matching self) = true →
      validate_rules c (ms_hyprland_features (sd_matching self)) = true)) ∨
  (self' = self ∧ is_ok r = false).
Proof.
  unfold reload_callback, reload. destruct cfg as [c|e]; [|intros [= <- <-]; by right].
  destruct (ms_hyprland_down_only (sd_matching self)) eqn:Hd; simpl.
  - destruct (validate_rules c _) eqn:Hv; simpl; intros [= <- <-]; [left|by right]. by exists c.
  - intros [= <- <-]. left. by exists c.
Qed.

Lemma replace_rules self c : m_rules (ms_matcher (MatchingState_replace self c)) = cfg_rules c.
Proof. unfold MatchingState_replace. by destruct (invalidate_speculation _ _). Qed.

(** A reload happens whole or not at all. When the callback answers [Ok], the file
    held a valid configuration, admitted by the installed session if there is one, its
    rules and aliases are in force, the count and the time that `status` reports are
    those of this reload, and the log level follows unless the subscriber is gone; when it
    answers with an error, nothing has changed. *)
Theorem reload_all_or_nothing `{EnvFilters} self cfg refused now handle :
  let '(self', r) := reload_callback self cfg refused now handle in
  match r with
  | Ok _ => ∃ c, cfg = Ok c ∧
      m_rules (ms_matcher (sd_matching self')) = cfg_rules c ∧
      ms_aliases (sd_matching self') = cfg_app_aliases c ∧
      (ms_hyprland_down_only (sd_matching self) = true →
       validate_rules c (ms_hyprland_features (sd_matching self)) = true) ∧
      counted self' ∧ sd_last_reload_at self' = Some now ∧
      sd_filter self' =
        (if is_ok handle then initial_filter (log_level (cfg_daemon c)) else sd_filter self)
  | Err _ => self' = self
  end.
Proof.
  destruct (reload_callback self cfg refused now handle) as [self' r] eqn:Hr.
  apply reload_callback_spec in Hr as [(c & -> & -> & -> & Hv)|[-> Hr]]; [|by destruct r].
  exists c. unfold counted. cbn [sd_matching sd_rules_loaded sd_last_reload_at sd_filter].
  pose proof (apply_level_spec handle (sd_filter self) (log_level (cfg_daemon c))) as Hl.
  destruct (apply_level _ _ _) as [f rl]. destruct Hl as [_ Hl]. rewrite replace_rules.
  by split_and!.
Qed.

(** Installing a session is not a reload: [run_linux] puts the rules of a second load in
    force and leaves the count of the first, so the two can differ until a reload. *)
Lemma install_leaves_count_stale `{EnvFilters} :
  ∃ cfg0 cfg ms, install (E := string) (sd_matching (Shared_new cfg0)) (Ok cfg) 1 = Ok ms ∧
    ¬ counted (mkShared ms (sd_rules_loaded (Shared_new cfg0)) None
      (sd_filter (Shared_new cfg0))).
Proof.
  exists (mkConfig DaemonSection_default ∅ ∅ (RuleSet_new [])).
  exists (mkConfig DaemonSection_default ∅ ∅ (RuleSet_new
    [mkRule (Hotkey (mkHotkeyTrigger KeyA mods_empty)) (SendKey KeyB mods_empty) None])).
  eexists. split; [reflexivity|]. unfold counted. simpl. discriminate.
Qed.

(** ** The watcher *)

(** What the watcher's thread did: the messages it took from the channel, its reloads. *)
Inductive Observed : Type :=
  | ObEvent (e : NotifyEvent)
  | ObError
  | ObReload.

(** What is assumed of the channel and the clock: time does not run backwards, and a
    receive takes one message or none. *)
Class WatchLaws (W : Type) `{Watch W} : Type := {
  wclock : W → Z;
  wlog : W → list Observed;
  now_spec w : wclock w ≤ (wt_now w).2 ≤ wclock (wt_now w).1 ∧ wlog (wt_now w).1 = wlog w;
  recv_spec w d : wclock w ≤ wclock (wt_recv w d).1 ∧
    wlog (wt_recv w d).1 = wlog w ++
      match (wt_recv w d).2 with
      | RcEvent e => [ObEvent e]
      | RcError => [ObError]
      | RcTimeout | RcDisconnected => []
      end;
  reload_spec w : wclock w ≤ wclock (wt_reload w).1 ∧ wlog (wt_reload w).1 = wlog w ++ [ObReload];
}.

Section watcher.
Context {W : Type} `{WatchLaws W}.

(** The states the thread can get to by reading the clock and the channel. *)
Inductive reached (w : W) : W → Prop :=
  | reached_refl : reached w w
  | reached_now w' : reached w w' → reached w (wt_now w').1
  | reached_recv w' d : reached w w' → reached w (wt_recv w' d).1.

Lemma reached_trans w1 w2 w3 : reached w1 w2 → reached w2 w3 → reached w1 w3.
Proof. intros Hr1 Hr2. induction Hr2; [done|by constructor..]. Qed.

(** Fewer than [n] messages arrive in any debounce window from here. *)
Definition arrivals_below (n : nat) (w : W) : Prop := ∀ w1 w2,
  reached w w1 → reached w1 w2 → wclock w2 < wclock w1 + DEBOUNCE →
  (length (wlog w2) < length (wlog w1) + n)%nat.

(** A drained window: the messages taken, none of them a reload. *)
Definition message (o : Observed) : Prop := o ≠ ObReload.

Lemma drain_spec fuel deadline : ∀ w w',
  drain fuel deadline w = Some w' → ∃ l, wlog w' = wlog w ++ l ∧ Forall message l.
Proof.
  induction fuel as [|fuel IH]; intros w w'; [done|]. cbn [drain].
  pose proof (now_spec w) as [_ Hlog]. destruct (wt_now w) as [w1 now]; simpl in *.
  case_bool_decide; [intros [= <-]; exists []; by rewrite app_nil_r|].
  pose proof (recv_spec w1 (Z.max 0 (deadline - now))) as [_ Hrecv].
  destruct (wt_recv w1 _) as [w2 [e| | |]]; simpl in Hrecv; intros Hd.
  1, 2: destruct (IH _ _ Hd) as (l & Hl & Hm); rewrite Hl, Hrecv, Hlog, <- app_assoc;
    eexists; split; [done|by constructor].
  all: injection Hd as <-; exists []; split; [congruence|done].
Qed.

(** While the drain goes on, it has taken a message per round, all before the deadline. *)
Lemma drain_none fuel deadline : ∀ w,
  drain (S fuel) deadline w = None →
  ∃ w', reached w w' ∧ wclock w' < deadline ∧ (length (wlog w) + fuel ≤ length (wlog w'))%nat.
Proof.
  induction fuel as [|fuel IH]; intros w Hd; cbn [drain] in Hd.
  all: pose proof (now_spec w) as [Hc Hlog].
  all: pose proof (reached_now w w (reached_refl w)) as Hr1.
  all: destruct (wt_now w) as [w1 now]; simpl in *; case_bool_decide as Hz; [done|].
  { exists w. split_and!; [constructor|lia|lia]. }
  pose proof (recv_spec w1 (Z.max 0 (deadline - now))) as [_ Hrecv].
  pose proof (reached_recv w w1 (Z.max 0 (deadline - now)) Hr1) as Hr2.
  destruct (wt_recv w1 _) as [w2 [e| | |]]; simpl in Hrecv, Hr2; [| |done|done].
  all: destruct (IH _ Hd) as (w' & Hr & Hlt & Hle); exists w'; rewrite Hrecv, Hlog, length_app in Hle;
    split_and!; [by eapply reached_trans|done|simpl in Hle; lia].
Qed.

(** The window closes at its deadline, however many matching events keep arriving. *)
Lemma drain_ends n w w1 deadline :
  arrivals_below n w → reached w w1 → deadline ≤ wclock w1 + DEBOUNCE →
  is_Some (drain (S n) deadline w1).
Proof.
  intros Ha Hr Hd. destruct (drain (S n) deadline w1) as [w'|] eqn:E; [by eexists|].
  destruct (drain_none n deadline w1 E) as (w2 & Hr2 & Hlt & Hle).
  specialize (Ha w1 w2 Hr Hr2 ltac:(lia)). lia.
Qed.
End watcher.


(** ** A simulated connection *)

Record Pipe : Type := mkPipe { pp_incoming : list byte; pp_sent : list byte }.
#[export] Instance Pipe_stream : Stream Pipe := {|
  st_peer w := Ok (mkPeerIdentity 1000 42);
  st_read_until w n b := (w, Ok (through b (take (Z.to_nat n) (pp_incoming w))));
  st_write_all w bs := (mkPipe (pp_incoming w) (pp_sent w ++ bs), Ok ());
  st_flush w := (w, Ok ());
  st_shutdown w := (w, Ok ());
|}.
#[export, refine] Instance Pipe_laws : StreamLaws Pipe := {|
  alive w := true; incoming := pp_incoming; sent := pp_sent;
|}.
Proof. all: by intros. Defined.

Definition json_status : list byte := String.list_byte_of_string "{'op':'status'}".
Definition json_reload : list byte := String.list_byte_of_string "{'op':'reload'}".
Definition json_reloaded : list byte := String.list_byte_of_string "{'kind':'reloaded'}".

#[export] Instance Request_json : Json Request := {|
  to_writer v := [match v with ReqStatus => json_status | ReqReload => json_reload end];
  from_slice bs :=
    if bool_decide (bs = json_status ++ [newline]) then Ok ReqStatus
    else if bool_decide (bs = json_reload ++ [newline]) then Ok ReqReload else Err "invalid JSON";
|}.
#[export] Instance Request_json_laws : JsonLaws Request.
Proof. intros []; by apply (bool_decide_unpack _). Qed.

(** Only the answer to a reload, which the example needs. *)
#[export] Instance Response_json : Json (Response unit) := {|
  to_writer v := [match v with RespReloaded => json_reloaded | _ => [] end];
  from_slice bs :=
    if bool_decide (bs = json_reloaded ++ [newline]) then Ok RespReloaded else Err "invalid JSON";
|}.
#[export] Instance Response_json_laws : JsonLaws (Response unit).
Proof. intros []; by apply (bool_decide_unpack _). Qed.

(** A daemon that counts its reloads. *)
Definition counting : ServerState nat unit := {|
  ss_started_at := 0; ss_rules_loaded := λ d, d; ss_focused_app := λ _, None;
  ss_reload := λ d, (S d, Ok ()); ss_check_permissions := λ _, None;
  ss_capabilities := λ _, None; ss_last_reload_at := λ _, None; ss_now := λ d, (d, 0);
  ss_os := "linux"; ss_version := "0";
|}.

Lemma control_exchange_exact_witness :
  (∃ client', exchange_send (Some 1000) ReqReload (mkPipe [] []) = (client', Ok ()) ∧
     sent client' = json_reload ++ [newline]) ∧
  (∃ server', handle counting (mkPipe (json_reload ++ [newline]) []) 0%nat = (server', 1%nat, Ok ()) ∧
     sent server' = json_reloaded ++ [newline]) ∧
  (∃ client', exchange_receive (mkPipe (json_reloaded ++ [newline]) []) =
     (client', Ok (RespReloaded (J := unit)))).
Proof.
  destruct (control_exchange_exact (W := Pipe) counting 1000 ReqReload 0%nat 1%nat RespReloaded
    (json_reload ++ [newline]) (json_reloaded ++ [newline])) as (Hsend & Hhandle & Hreceive);
    [vm_compute; reflexivity..|].
  split; [exact (Hsend (mkPipe [] []) eq_refl eq_refl)|].
  split; [exact (Hhandle (mkPipe (json_reload ++ [newline]) []) eq_refl eq_refl)|].
  exact (Hreceive (mkPipe (json_reloaded ++ [newline]) []) eq_refl eq_refl).
Defined.

Lemma control_capacity_witness :
  let s := foldl (λ s ev, serve_step counting 1000 ev s) (Server_new, 0%nat)
    [SvAccept (Ok (mkPeerIdentity 1000 42)); SvAccept (Ok (mkPeerIdentity 0 43));
     SvRead 0 (Ok ReqReload); SvTimeout 0; SvWorked 0] in
  s.2 = 1%nat ∧ (sv_capacity s.1 + length (sv_tasks s.1) = MAX_CONNECTIONS)%nat.
Proof.
  split; [reflexivity|].
  apply (control_capacity counting 1000
    [SvAccept (Ok (mkPeerIdentity 1000 42)); SvAccept (Ok (mkPeerIdentity 0 43));
     SvRead 0 (Ok ReqReload); SvTimeout 0; SvWorked 0] 0%nat _ 1%nat).
  vm_compute. reflexivity.
Defined.

(** ** A simulated directory: messages with the times they arrive at *)

Record Dir : Type := mkDir {
  di_clock : Z; di_script : list (Z * NotifyEvent); di_log : list Observed;
}.
#[export] Instance Dir_watch : Watch Dir := {|
  wt_stopped w := (w, false);
  wt_now w := (w, di_clock w);
  wt_watch w _ := (w, Ok ());
  wt_recv w d :=
    let t := di_clock w + Z.max 0 d in
    match di_script w with
    | (at_, e) :: rest =>
        if bool_decide (at_ ≤ t)
        then (mkDir (Z.max (di_clock w) at_) rest (di_log w ++ [ObEvent e]), RcEvent e)
        else (mkDir t (di_script w) (di_log w), RcTimeout)
    | [] => (mkDir t [] (di_log w), RcTimeout)
    end;
  wt_reload w := (mkDir (di_clock w) (di_script w) (di_log w ++ [ObReload]), Ok ());
|}.
#[export, refine] Instance Dir_laws : WatchLaws Dir := {| wclock := di_clock; wlog := di_log |}.
Proof.
  - intros w. simpl. split; [lia|done].
  - intros w d. simpl. destruct (di_script w) as [|[t e] rest]; simpl; [split; [lia|by rewrite app_nil_r]|].
    case_bool_decide; simpl; (split; [lia|by rewrite ?app_nil_r]).
  - intros w. simpl. split; [lia|done].
Defined.

Lemma Dir_reached w w' : reached w w' →
  (length (di_log w') + length (di_script w') = length (di_log w) + length (di_script w))%nat.
Proof.
  induction 1 as [|w' _ IH|w' d _ IH]; simpl; [done|done|].
  destruct (di_script w') as [|[t e] rest]; simpl in *; [done|].
  case_bool_decide; simpl; [rewrite length_app; simpl; lia|done].
Qed.

Definition saved (at_ : Z) (name : string) : Z * NotifyEvent :=
  (from_millis at_, mkNotifyEvent EvModify [mkPath true ["home"; name]]).

