(* ===== verification/Workers.v ===== *)
(** * The source worker and the configuration watcher as threads
      (cli/src/daemon/source_queue.rs and cli/src/config_watcher.rs)

    The two threads of the command-line daemon that look at a stop flag, as instances of
    the threads of Joins.v: [SourceWorker], whose rounds are SourceThread.v's, and
    [ConfigWatcher], whose rounds are Control.v's. Dropping either ends its thread, with
    at most one more action taken or one more reload, whatever arrives. The rounds of the
    other files are runs of these threads. *)

From stdpp Require Import relations.
From S2P Require Import Prelude Event Sink Bytes Protocol Desktop Budget BudgetThm Json LocalIpc SourceThread.
From S2P Require Import Transport Listener Control Joins.

(** A run of a thread, whatever it reads of the flag *)
Definition moves {T D} `{Stoppable T D} : T * D → T * D → Prop := rtc (λ p p', ∃ b, st_step b p p').

Lemma moves_step {T D} `{Stoppable T D} b p p' p'' : st_step b p p' → moves p' p'' → moves p p''.
Proof. intros. eapply rtc_l; eauto. Qed.

(** ** The source worker *)

Module Source.
(** The thread looks at the flag, receives, or carries an action out. *)
Inductive ThreadAt : Type := Looking | Receiving | Carrying (a : SourceAction) | Ended.
(** The actions it took, in order *)
Definition Data : Type := list SourceAction.
Inductive thread_step : bool → ThreadAt * Data → ThreadAt * Data → Prop :=
  | sw_go d : thread_step false (Looking, d) (Receiving, d)
  | sw_end d : thread_step true (Looking, d) (Ended, d)
  | sw_got st d a : thread_step st (Receiving, d) (Carrying a, d ++ [a])
  | sw_timeout st d : thread_step st (Receiving, d) (Looking, d)
  | sw_disconnected st d : thread_step st (Receiving, d) (Ended, d)
  | sw_carried st d a : thread_step st (Carrying a, d) (Looking, d).

(** [SourceWorker] and its drop *)
Definition SourceWorker : Stoppable ThreadAt Data := {|
  st_step := thread_step;
  st_ended := Ended;
  st_final d := d;
  st_left t := match t with Ended => 0 | Looking => 1 | Carrying _ => 2 | Receiving => 3 end;
  st_more t := match t with Receiving => 1 | _ => 0 end;
  st_done d := length d;
|}%nat.
#[export] Existing Instance SourceWorker.
#[export] Instance source_laws : StoppableLaws ThreadAt Data.
Proof.
  split; simpl; try done.
  - intros stop d p Hs. inversion Hs.
  - intros [] d; [..|by left]; right; eexists;
      first [apply sw_end|apply sw_timeout|apply sw_carried].
  - intros t d t' d' Hs. inversion Hs; subst; simpl; rewrite ?length_app; simpl; lia.
Qed.

(** The rounds of SourceThread.v are a run of this thread, which took the actions of their
    log. *)
Lemma rounds_are_moves {W} `{Operations W, Provider W, Channel W} rounds fuel stopped dispatcher :
  ∀ (s s' : OSt (W := W)) log ended d,
  source_rounds rounds fuel stopped dispatcher s = Some (s', log, ended) →
  moves (Looking, d) (if ended : bool then Ended else Looking, d ++ log.*1).
Proof.
  induction rounds as [|rounds IH]; intros [w bs] s' log ended d.
  { intros [= _ <- <-]. simpl. rewrite app_nil_r. apply rtc_refl. }
  cbn [source_rounds]. destruct (op_stopped w stopped) as [w1 []].
  { intros [= _ <- <-]. simpl. rewrite app_nil_r. eapply moves_step; [apply sw_end|apply rtc_refl]. }
  destruct (ch_recv w1) as [w2 [a| |]].
  - destruct (carry_out fuel stopped dispatcher a (w2, bs)) as [[s1 r]|]; [|done].
    destruct (source_rounds rounds fuel stopped dispatcher s1) as [[[s2 log2] e2]|] eqn:E; [|done].
    intros [= _ <- <-]. apply (IH _ _ _ _ (d ++ [a])) in E. rewrite <-app_assoc in E. simpl in *.
    eapply moves_step; [apply sw_go|]. eapply moves_step; [apply (sw_got false _ a)|].
    eapply moves_step; [apply (sw_carried false)|]. exact E.
  - intros E. apply (IH _ _ _ _ d) in E. eapply moves_step; [apply sw_go|].
    eapply moves_step; [apply (sw_timeout false)|]. exact E.
  - intros [= _ <- <-]. simpl. rewrite app_nil_r. eapply moves_step; [apply sw_go|].
    eapply moves_step; [apply (sw_disconnected false)|apply rtc_refl].
Qed.

(** Dropping the source worker ends its thread within four steps, in which it takes at most
    one more action. *)
Theorem source_worker_joined s :
  rtc join_step (spawned Looking []) s →
  (jo_owner s = Gone → jo_thread s = Ended ∧ ∀ s', ¬ join_step s s') ∧
  (jo_owner s = Joining → (steps_left s ≤ 4)%nat ∧ (∃ s', join_step s s') ∧
     (∀ s', join_step s s' → (steps_left s' < steps_left s)%nat) ∧
     ∀ s', rtc join_step s s' → (length (jo_data s') ≤ S (length (jo_data s)))%nat).
Proof.
  intros Hr. destruct (thread_joined 3 1 Looking [] s) as [Hg Hj]; [by intros []; simpl; lia..|done|].
  split; [|done]. intros Ho. destruct (Hg Ho) as (Ht & _ & Hq). done.
Qed.
End Source.

(** ** The configuration watcher *)

Module Watcher.
(** The thread starts its watcher, looks at the flag, waits for an event, drains the
    window, or reloads. *)
Inductive ThreadAt : Type := Starting | Looking | Receiving | Draining | Reloading | Ended.
(** The thread, with the number of its reloads *)
Inductive thread_step : bool → ThreadAt * nat → ThreadAt * nat → Prop :=
  | wa_started st n : thread_step st (Starting, n) (Looking, n)
  | wa_refused st n : thread_step st (Starting, n) (Ended, n)
  | wa_go n : thread_step false (Looking, n) (Receiving, n)
  | wa_end n : thread_step true (Looking, n) (Ended, n)
  | wa_other st n : thread_step st (Receiving, n) (Looking, n)
  | wa_matched st n : thread_step st (Receiving, n) (Draining, n)
  | wa_disconnected st n : thread_step st (Receiving, n) (Ended, n)
  | wa_drained st n : thread_step st (Draining, n) (Reloading, n)
  | wa_reloaded st n : thread_step st (Reloading, n) (Looking, S n).

(** [ConfigWatcher] and its drop *)
Definition ConfigWatcher : Stoppable ThreadAt nat := {|
  st_step := thread_step;
  st_ended := Ended;
  st_final n := n;
  st_left t :=
    match t with
    | Ended => 0 | Looking => 1 | Starting | Reloading => 2 | Draining => 3 | Receiving => 4
    end;
  st_more t := match t with Receiving | Draining | Reloading => 1 | _ => 0 end;
  st_done n := n;
|}%nat.
#[export] Existing Instance ConfigWatcher.
#[export] Instance watcher_laws : StoppableLaws ThreadAt nat.
Proof.
  split; simpl; try done.
  - intros stop d p Hs. inversion Hs.
  - intros [] d; [..|by left]; right; eexists; constructor.
  - intros t d t' d' Hs. inversion Hs; subst; simpl; lia.
Qed.

Section rounds.
Context {W : Type} `{Watch W}.
(** The reloads that were made, as far as the world tells *)
Context (reloads : W → nat).
Hypothesis stopped_reloads : ∀ w, reloads (wt_stopped w).1 = reloads w.
Hypothesis now_reloads : ∀ w, reloads (wt_now w).1 = reloads w.
Hypothesis recv_reloads : ∀ w t, reloads (wt_recv w t).1 = reloads w.
Hypothesis watch_reloads : ∀ w p, reloads (wt_watch w p).1 = reloads w.
Hypothesis reload_reloads : ∀ w, reloads (wt_reload w).1 = S (reloads w).

Lemma drain_reloads fuel deadline : ∀ w w', drain fuel deadline w = Some w' → reloads w' = reloads w.
Proof.
  induction fuel as [|fuel IH]; [done|]. intros w w'. cbn [drain].
  pose proof (now_reloads w) as Hn. destruct (wt_now w) as [w1 now]. simpl in Hn.
  case_bool_decide; [by intros [= <-]|].
  pose proof (recv_reloads w1 (Z.max 0 (deadline - now))) as Hr.
  destruct (wt_recv w1 _) as [w2 []]; simpl in Hr; [intros E%IH|intros E%IH|intros [= <-]..]; congruence.
Qed.

(** The loop of Control.v is a run of this thread to its end. *)
Lemma loop_is_moves rounds fuel target : ∀ w w',
  watch_loop rounds fuel target w = Some w' → moves (Looking, reloads w) (Ended, reloads w').
Proof.
  induction rounds as [|rounds IH]; [done|]. intros w w'. cbn [watch_loop].
  pose proof (stopped_reloads w) as Hs. destruct (wt_stopped w) as [w1 []]; simpl in Hs; rewrite <-Hs.
  { intros [= <-]. eapply moves_step; [apply wa_end|apply rtc_refl]. }
  unfold watch_round. pose proof (recv_reloads w1 (from_millis 500)) as Hr.
  destruct (wt_recv w1 (from_millis 500)) as [w2 rc]; simpl in Hr. rewrite <-Hr.
  intros E. eapply moves_step; [apply wa_go|]. revert E. destruct rc as [evt| | |].
  - destruct (negb (event_matches evt target)).
    { intros E%IH. eapply moves_step; [apply (wa_other false)|exact E]. }
    pose proof (now_reloads w2) as Hn. destruct (wt_now w2) as [w3 now]; simpl in Hn.
    destruct (drain fuel (now + DEBOUNCE) w3) as [w4|] eqn:Hd; [|done]. apply drain_reloads in Hd. simpl.
    intros E%IH. rewrite reload_reloads, Hd, Hn in E. eapply moves_step; [apply (wa_matched false)|].
    eapply moves_step; [apply (wa_drained false)|]. eapply moves_step; [apply (wa_reloaded false)|exact E].
  - intros E%IH. eapply moves_step; [apply (wa_other false)|exact E].
  - intros E%IH. eapply moves_step; [apply (wa_other false)|exact E].
  - intros [= <-]. eapply moves_step; [apply (wa_disconnected false)|apply rtc_refl].
Qed.

Lemma spawn_is_moves rounds fuel config_path w w' :
  is_Some (parent config_path) → is_Some (file_name config_path) →
  watcher_spawn rounds fuel config_path w = Some w' → moves (Starting, reloads w) (Ended, reloads w').
Proof.
  intros [directory Hd] [target Ht]. unfold watcher_spawn. rewrite Hd, Ht.
  pose proof (watch_reloads w directory) as Hw. destruct (wt_watch w directory) as [w1 [[]|e]]; simpl in Hw.
  - intros E%loop_is_moves. rewrite Hw in E. eapply moves_step; [apply (wa_started false)|exact E].
  - intros [= <-]. rewrite Hw. eapply moves_step; [apply (wa_refused false)|apply rtc_refl].
Qed.
End rounds.

(** Dropping the watcher ends its thread within five steps, and at most one more reload
    happens, the one whose event had already arrived. *)
Theorem config_watcher_joined s :
  rtc join_step (spawned Starting 0%nat) s →
  (jo_owner s = Gone → jo_thread s = Ended ∧ ∀ s', ¬ join_step s s') ∧
  (jo_owner s = Joining → (steps_left s ≤ 5)%nat ∧ (∃ s', join_step s s') ∧
     (∀ s', join_step s s' → (steps_left s' < steps_left s)%nat) ∧
     ∀ s', rtc join_step s s' → (jo_data s' ≤ S (jo_data s))%nat).
Proof.
  intros Hr. destruct (thread_joined 4 1 Starting 0%nat s) as [Hg Hj]; [by intros []; simpl; lia..|done|].
  split; [|done]. intros Ho. destruct (Hg Ho) as (Ht & _ & Hq). done.
Qed.
End Watcher.
