(* ===== verification/Installed.v ===== *)
(** * The installed session's worker (packages/cli/src/daemon/hyprland_installed.rs)

    From the verification of the registration to the loop over the session: admission,
    binding of the matcher, steps, recovery after uncertainty, reconnection, and the
    disconnection at the end. The stop flag and the reloads of the configuration
    watcher, which share the matching state, are operations of the class [Worker]. *)

From S2P Require Import Prelude Event Rule Config Protocol Wire Transactions Bridge Desktop Daemon.
From S2P Require Import Transport Admission.

(** What other threads did since the last look: the stop flag, and the configurations
    that were loaded in the meantime. *)
Class Worker (W : Type) : Type := {
  wk_stopped : W → W * bool;
  wk_reloads : W → W * list (result string Config);
}.

(** [handler.matching], the state the handler shares. *)
Class Matching (H : Type) : Type := {
  matching : H → MatchingState;
  set_matching : MatchingState → H → H;
}.

#[export] Instance Handler_matching : Matching Handler := {|
  matching := hd_matching;
  set_matching := hd_set_matching;
|}.

(** The errors of the worker: of the system, a rejected binding, and missing
    arguments. *)
Inductive Failure : Type := FIo (e : IoErrorKind) | FBinding | FArgument.

(** The result of a loop that may still run, and of a panic. *)
Section worker.
Context {W H : Type} `{Artifacts, Files W, Link W, Acceptor W, Worker W}.
Context `{EventHandler H, Matching H}.

Definition Run : Type := option (Session * W * H * result Failure unit).

(** [prepare] *)
Definition prepare (registration : option string) (pid : option Z) (w : W) :
    W * result Failure (option AdmittedMetadata) :=
  match registration with
  | None => (w, Ok None)
  | Some path =>
      match pid with
      | None => (w, Err FArgument)
      | Some pid =>
          match descriptor_verify path pid w with
          | (w, Err e) => (w, Err (FIo e))
          | (w, Ok metadata) =>
              match catalogue_qualify metadata w with
              | (w, Err e) => (w, Err (FIo e))
              | (w, Ok admitted) => (w, Ok (Some admitted))
              end
          end
      end
  end.

(** The reloads of other threads, each under the lock. *)
Definition catch_up (w : W) (h : H) : W * H :=
  let '(w, cfgs) := wk_reloads w in
  (w, fold_left (λ h cfg, set_matching (reload (matching h) cfg).1 h) cfgs h).

(** [bind_matcher] *)
Definition bind_session (session : Session) (w : W) (h : H) : Run :=
  let '(session, state, bound) := bind_matcher session (matching h) in
  Some (session, w, set_matching state h, if bound then Ok () else Err FBinding).

(** [reconnect]; [None] when it still runs after [rounds]. *)
Fixpoint reconnect_session (rounds fuel : nat) (metadata : VerifiedMetadata) (session : Session)
    (w : W) (h : H) : Run :=
  match rounds with
  | O => None
  | S rounds =>
      let '(w, stopped) := wk_stopped w in
      if stopped then Some (session, w, h, Ok ())
      else
        let '(w, h) := catch_up w h in
        match reconnect_for fuel metadata 100000000 session w with
        | None => None
        | Some (session, w, Ok _) => bind_session session w h
        | Some (session, w, Err e) =>
            if bool_decide (e = TimedOut)
            then reconnect_session rounds fuel metadata session w h
            else Some (session, w, h, Err (FIo e))
        end
  end.

(** [run_session]; the sum of the clock and the budget overflows as a panic. *)
Fixpoint run_session (rounds fuel : nat) (metadata : VerifiedMetadata) (session : Session)
    (w : W) (h : H) : Run :=
  match rounds with
  | O => None
  | S rounds =>
      let '(w, stopped) := wk_stopped w in
      if stopped then Some (session, w, h, Ok ())
      else
        let '(w, h) := catch_up w h in
        match l_monotonic_ns w with
        | (w, Err e) => Some (session, w, h, Err (FIo e))
        | (w, Ok n) =>
            deadline ← checked_add_u64 n 100000000;
            '(session, w, h, step) ← step_if_ready deadline session w h;
            let h := set_matching (publish_health session (matching h)) h in
            if match step with Ok _ => false | Err _ => true end ||
               needs_reconciliation (ms_hyprland (matching h))
            then
              '(session, w, h) ← session_request_reconciliation session w h;
              '(session, w, h, r) ← reconnect_session rounds fuel metadata session w h;
              match r with
              | Ok _ => run_session rounds fuel metadata session w h
              | Err f => Some (session, w, h, Err f)
              end
            else run_session rounds fuel metadata session w h
        end
  end.

(** [InstalledListener::run] *)
Definition installed_run (rounds fuel : nat) (admitted : AdmittedMetadata) (w : W) (h : H) :
    option (W * H * result Failure unit) :=
  match (if bool_decide (am_qualification admitted = Supported) then require_qualified admitted
         else Ok ()) with
  | Err e => Some (w, h, Err (FIo e))
  | Ok _ =>
      match l_monotonic_ns w with
      | (w, Err e) => Some (w, h, Err (FIo e))
      | (w, Ok n) =>
          deadline ← checked_add_u64 n 60000000000;
          '(w, accepted) ← accept_admitted fuel admitted deadline w;
          match accepted with
          | Err e => Some (w, h, Err (FIo e))
          | Ok session =>
              '(session, w, h, bound) ← bind_session session w h;
              match bound with
              | Err f => Some (w, h, Err f)
              | Ok _ =>
                  '(session, w, h, r) ←
                    run_session rounds fuel (am_metadata admitted) session w h;
                  Some (w, h_disconnected h, r)
              end
          end
      end
  end.
End worker.
