(* ===== verification/DaemonThm.v ===== *)
(** * The daemon's handler under the bridge and the session

    Invariants of a handler survive every step of the bridge; the audit of the calls to
    the handler survives every operation of a session. *)

From S2P Require Import Prelude Event TapFsm Rule MatcherInv Ownership Dispatch Config Keymap Sink.
From S2P Require Import Protocol Wire Transactions TransactionsThm Bridge BridgeThm Desktop Daemon.

(** ** Invariants of a handler survive the bridge *)

(** Every callback of the handler keeps [I]. *)
Record keeps {H} `{EventHandler H} (I : H → Prop) : Prop := {
  kp_propose : ∀ h s e h' d, I h → h_propose h s e = Some (h', d) → I h';
  kp_trace : ∀ h t, I h → I (h_causal_trace h t);
  kp_fault : ∀ h s e, I h → I (h_research_fault h s e).1;
  kp_delivery : ∀ h s e d r, I h → I (h_delivery h s e d r);
  kp_reset : ∀ h s b, I h → I (h_reset h s b);
  kp_unlocked : ∀ h s b, is_lock b = true → I h → I (h_unlocked_epoch h s b);
  kp_disconnected : ∀ h, I h → I (h_disconnected h);
}.

Create HintDb safe.

Section keeps.
Context {W H : Type} `{Link W, EventHandler H} (I : H → Prop) (HI : keeps I).

(** [m] keeps the invariant of the handler. *)
Definition safe {X} (m : BM (W := W) (H := H) X) : Prop :=
  ∀ s s' r, I s.2 → m s = Some (s', r) → I s'.2.

Lemma safe_bind {X Y} (m : BM (W := W) (H := H) X) (f : X → BM Y) :
  safe m → (∀ x, safe (f x)) → safe (m ≫= f).
Proof.
  intros Hm Hf s s' r Hs. unfold mbind, BM_bind.
  destruct (m s) as [[s1 [x|e]]|] eqn:E; [| |done].
  - intros H'. eapply Hf; [|exact H']. by eapply Hm.
  - intros [= <- <-]. by eapply Hm.
Qed.

Lemma safe_ret {X} (x : X) : safe (mret x).
Proof. by intros s s' r Hs [= <- <-]. Qed.
Lemma safe_fail {X} e : safe (X := X) (bfail e).
Proof. by intros s s' r Hs [= <- <-]. Qed.
Lemma safe_lift {X} (x : Wire.IoResult X) : safe (blift x).
Proof. by intros s s' r Hs [= <- <-]. Qed.
Lemma safe_get : safe bget.
Proof. by intros s s' r Hs [= <- <-]. Qed.
Lemma safe_hget : safe hget.
Proof. by intros s s' r Hs [= <- <-]. Qed.
Lemma safe_modify f : safe (bmodify f).
Proof. by intros [[b w] h] s' r Hs [= <- <-]. Qed.
Lemma safe_link {X} (f : LM (W := W) X) : safe (link f).
Proof.
  intros [[b w] h] s' r Hs. unfold link. destruct (f w). by intros [= <- <-].
Qed.
Lemma safe_handler f : (∀ h, I h → I (f h)) → safe (handler f).
Proof. intros Hf [[b w] h] s' r Hs [= <- <-]. by apply Hf. Qed.
Lemma safe_attempt {X} (m : BM (W := W) (H := H) X) : safe m → safe (attempt m).
Proof.
  intros Hm s s' r Hs. unfold attempt. destruct (m s) as [[s1 r1]|] eqn:E; [|done].
  intros [= <- <-]. by eapply Hm.
Qed.
Lemma safe_propose s e : safe (ask_handler (λ h, h_propose h s e)).
Proof.
  intros [[b w] h] s' r Hs. unfold ask_handler.
  destruct (h_propose h s e) as [[h' d]|] eqn:E; [|done]. intros [= <- <-].
  by eapply (kp_propose I HI).
Qed.
Lemma safe_fault s e : safe (ask_handler (λ h, Some (h_research_fault h s e))).
Proof.
  intros [[b w] h] s' r Hs. unfold ask_handler. pose proof (kp_fault I HI h s e Hs).
  destruct (h_research_fault h s e). by intros [= <- <-].
Qed.

Hint Resolve safe_ret safe_fail safe_lift safe_get safe_hget safe_modify safe_link safe_propose
  safe_fault : safe.

(** Walks through a method of the bridge. *)
Ltac walk :=
  repeat first
    [ apply safe_bind; [|intros ?] | apply safe_attempt | solve [auto with safe]
    | apply safe_handler; solve [intros; by apply HI]
    | progress unfold now_ok, now, uncertain, transport, binvalid
    | case_match ].

Lemma safe_control p u :
  (u = true → is_lock (Wire.body p) = true) → safe (control p u).
Proof.
  intros Hu. unfold control.
  do 5 (apply safe_bind; [solve [walk]|intros ?]).
  destruct u; apply safe_handler; intros; apply HI; auto.
Qed.

Lemma safe_event p e dl research rn : safe (bridge_event p e dl research rn).
Proof.
  assert (∀ d fd dl t, safe (await_outcome p e d fd dl t)) as Ho
    by (intros; unfold await_outcome; walk).
  assert (∀ t, safe (event_traced p e dl research t)) as Ht.
  { intros. unfold event_traced. walk; apply Ho. }
  unfold bridge_event. walk; apply Ht.
Qed.

Lemma safe_process p dl research : safe (process_packet p dl research).
Proof.
  unfold process_packet, validate. apply safe_bind; [walk|intros rn].
  apply safe_bind; [apply safe_get|intros b]. apply safe_bind; [walk|intros [|]]; [|walk].
  destruct (Wire.body p) eqn:Hb; try apply safe_fail; try apply safe_event;
    apply safe_control; rewrite Hb; intros Hu; bools; done.
Qed.

Lemma safe_closing {X} (m : BM (W := W) (H := H) X) : safe m → safe (closing m).
Proof. intros Hm. unfold closing. walk. Qed.

Lemma safe_ready dl research : safe (ready_mode dl research).
Proof.
  apply safe_closing, safe_bind; [walk|intros fd]. apply safe_bind; [walk|intros [p|]]; [|walk].
  apply safe_bind; [apply safe_process|walk].
 Qed.

Lemma safe_step dl research : safe (step_mode dl research).
Proof.
  apply safe_closing, safe_bind; [walk|intros fd].
  apply safe_bind; [walk|intros p]. apply safe_process.
 Qed.

Lemma safe_request : safe request_reconciliation.
Proof. unfold request_reconciliation. walk. Qed.
End keeps.

(** A wrapped handler keeps what the handler keeps. *)
Lemma DownOnly_keeps {H} `{EventHandler H} (I : H → Prop) :
  keeps I → keeps (λ d : DownOnly H, I (do_handler d)).
Proof.
  intros HI. split; intros; simpl in *; try by apply HI.
  - match goal with H : _ ≫= _ = Some _ |- _ => apply bind_Some in H as ([h1 d1] & Hp & [= <- _]) end.
    simpl. by eapply (kp_propose I HI).
  - done.
Qed.

(** ** The compositor path: nothing is replaced without a proof *)

(** Whether the calls so far leave the recovery gate open: the compositor's global
    reset with reason 8 opens it, a disconnection closes it. *)
Definition next_open (open : bool) (c : Call) : bool :=
  match c with
  | CDisconnected => false
  | CReset s b => (is_reason8 b && bool_decide (Wire.generation s = 0)) || open
  | _ => open
  end.
Definition opened (l : list Call) : bool := fold_left next_open l false.

Lemma opened_app l c : opened (l ++ [c]) = next_open (opened l) c.
Proof. unfold opened. by rewrite fold_left_app. Qed.

(** An open log ends with a proof and no disconnection after it. *)
Lemma opened_spec l :
  opened l = true ↔
  ∃ l1 s b l2, l = l1 ++ CReset s b :: l2 ∧ is_reason8 b = true ∧ Wire.generation s = 0 ∧
    (CDisconnected ∉ l2).
Proof.
  induction l as [|c l IH] using rev_ind.
  { split; [done|]. by intros ([] & ? & ? & ? & ? & _). }
  rewrite opened_app. split.
  - assert (opened l = true → c ≠ CDisconnected → ∃ l1 s b l2, l ++ [c] = l1 ++ CReset s b :: l2 ∧
      is_reason8 b = true ∧ Wire.generation s = 0 ∧ (CDisconnected ∉ l2)) as Hold.
    { intros (l1 & s & b & l2 & -> & H1 & H2 & H3)%IH Hc. exists l1, s, b, (l2 ++ [c]).
      split_and!; [by rewrite <- app_assoc|done|done|].
      rewrite elem_of_app, list_elem_of_singleton. naive_solver. }
    destruct c as [| | |s b| | |]; simpl; intros Ho; try by apply Hold. 
    apply orb_true_iff in Ho as [Ho|Ho]; [|by apply Hold]. bools.
    exists l, s, b, []. split_and!; try done. set_solver.
  - intros (l1 & s & b & l2 & E & H1 & H2 & H3).
    destruct l2 as [|c2 l2 _] using rev_ind.
    + apply app_inj_tail in E as [-> ->]. simpl. by rewrite H1, bool_decide_true.
    + rewrite app_comm_cons, app_assoc in E. apply app_inj_tail in E as [-> ->].
      assert (opened (l1 ++ CReset s b :: l2) = true) as Ho.
      { apply IH. exists l1, s, b, l2. split_and!; try done. set_solver. }
      rewrite Ho. destruct c2; simpl; try done; [by rewrite orb_true_r|set_solver].
Qed.

Definition is_open (g : Gate) : bool := match g with Open _ => true | Closed _ => false end.

Lemma is_open_close g : is_open (close g) = true → is_open g = true.
Proof. by destruct g. Qed.

(** The gate of the handler's transaction state. *)
Definition handler_gate (h : Handler) : Gate := gate (ms_hyprland (hd_matching h)).

Definition HandlerInv (h : Handler) : Prop := TxInv (ms_tx (hd_matching h)).

(** A step that may keep or close the gate, keeping the invariant. *)
Definition tx_narrows (s s' : TxM) : Prop :=
  TxInv s' ∧ (is_open (gate s'.1) = true → is_open (gate s.1) = true).

Lemma keep_or_close s s' :
  TxInv s' → gate s'.1 = gate s.1 ∨ gate s'.1 = close (gate s.1) → tx_narrows s s'.
Proof. intros Hi [E|E]; split; rewrite ?E; auto using is_open_close. Qed.

Lemma tx_narrows_trans s1 s2 s3 : tx_narrows s1 s2 → tx_narrows s2 s3 → tx_narrows s1 s3.
Proof. intros [? H1] [? H2]. split; auto. Qed.

Lemma invalidate_narrows t m : TxInv (t, m) → tx_narrows (t, m) (invalidate_speculation t m).
Proof. intros Hi. apply keep_or_close; auto using invalidate_inv, gate_invalidate. Qed.

Lemma lifecycle_narrows t m scope body :
  TxInv (t, m) → tx_narrows (t, m) (await_lifecycle_reconciliation t m scope body).1.
Proof.
  intros Hi. pose proof (tx_step_gate (t, m) (TxAwaitLifecycle scope body)) as Hg.
  split; [by apply await_lifecycle_inv|].
  simpl in Hg. destruct (await_lifecycle_reconciliation t m scope body) as [s []].
  - specialize (Hg _ _ Hi eq_refl). simpl in *. destruct Hg as (_ & _ & _ & ->). done.
  - specialize (Hg _ _ Hi eq_refl). simpl in *. by rewrite Hg.
Qed.

Lemma lock_boundary_narrows t m n : TxInv (t, m) → tx_narrows (t, m) (observe_lock_boundary t m n).
Proof.
  intros Hi. split; [by apply lock_boundary_inv|].
  destruct (gate_lock_boundary t m n) as [->|[-> _]]; done.
Qed.

Lemma unlocked_epoch_narrows t m n :
  TxInv (t, m) → tx_narrows (t, m) (observe_unlocked_epoch t m n).
Proof.
  intros Hi. split; [by apply unlocked_epoch_inv|].
  destruct (gate_unlocked_epoch t m n) as [->|[-> _]]; done.
Qed.

Lemma retire_narrows t m g : TxInv (t, m) → tx_narrows (t, m) (retire_device t m g).
Proof. intros Hi. apply keep_or_close; auto using retire_inv, gate_retire. Qed.

(** A proposal that is not a pass needs an open gate, and opens none. *)
Lemma propose_narrows {S} (admits : S → string → S * bool) t m q scope e app now t' m' q' r :
  TxInv (t, m) → propose_with_source admits t m q scope e app now = Some (t', m', q', r) →
  tx_narrows (t, m) (t', m') ∧
  ((match r with Ok d => d | Err _ => Wire.Pass end) ≠ Wire.Pass → is_open (gate t) = true).
Proof.
  intros Hi Hp. pose proof (propose_inv _ _ _ _ _ _ _ _ _ _ _ _ Hi Hp) as Hi'.
  apply propose_cases in Hp. unfold tx_narrows. simpl.
  inversion Hp as [Hb|t1 m1 Hn Hd (ds & o & ->) Hpd Hrl Ho Hm|
    t1 m1 m2 m3 code v token s1 d1 Hn Hd Hst (ds & o & ->) Hm1 Hm2 Hc Hdi Hv]; subst; try done.
  assert (is_open (gate t) = true) as Hopen by (unfold gate; by rewrite Hd). auto.
Qed.

Lemma Handler_propose_spec h s e h' d :
  HandlerInv h → Handler_propose h s e = Some (h', d) →
  HandlerInv h' ∧ (is_open (handler_gate h') = true → is_open (handler_gate h) = true) ∧
  (d ≠ Wire.Pass → is_open (handler_gate h) = true).
Proof.
  unfold HandlerInv, handler_gate, Handler_propose, ms_tx. intros Hi.
  destruct (env_contended _ _); [by intros [= <- <-]|].
  set (state := if hd_observation_gap h then _ else _).
  assert (tx_narrows (ms_tx (hd_matching h)) (ms_tx state)) as [Hi1 Hn1].
  { unfold state. destruct (hd_observation_gap h); [by apply invalidate_narrows|by split]. }
  intros ([[[t m] q] r] & Hp & [= <- <-])%bind_Some. simpl.
  apply propose_narrows in Hp as [[H1 H2] H3]; [|done]. unfold ms_tx in *. simpl in *. auto.
Qed.

Lemma Handler_delivery_spec h s e r :
  HandlerInv h →
  HandlerInv (Handler_delivery h s e r) ∧
  (is_open (handler_gate (Handler_delivery h s e r)) = true → is_open (handler_gate h) = true).
Proof.
  unfold HandlerInv, handler_gate, Handler_delivery, ms_tx. intros Hi.
  destruct (_ || _); simpl.
  - destruct (keep_or_close (ms_tx (hd_matching h)) (on_delivery (ms_hyprland (hd_matching h))
      (ms_matcher (hd_matching h)) s r).1) as [H1 H2];
      [by apply on_delivery_inv|by apply gate_on_delivery|].
    rewrite <- surjective_pairing. auto.
  - destruct (keep_or_close (ms_tx (hd_matching h)) (settle_device_event
      (ms_hyprland (hd_matching h)) (ms_matcher (hd_matching h)) s e r).1) as [H1 H2];
      [by apply settle_inv|by apply gate_settle|].
    rewrite <- surjective_pairing. auto.
Qed.

Lemma reconciled_cases t m scope body :
  TxInv (t, m) →
  let '(s, ok) := reconciled t m scope body in
  TxInv s ∧ (ok = true → is_reason8 body = true ∧ Wire.generation scope = 0) ∧
  (ok = false → s = (t, m)).
Proof.
  intros Hi. pose proof (reconciled_inv t m scope body Hi) as Hr. unfold reconciled in *.
  destruct (_ || _) eqn:Hg; [by split_and!|]. split_and!; [done| |done]. intros _. by bools.
Qed.

Lemma Handler_reset_spec h s b :
  HandlerInv h →
  HandlerInv (Handler_reset h s b) ∧
  (is_open (handler_gate (Handler_reset h s b)) = true →
   is_open (handler_gate h) = true ∨ is_reason8 b = true ∧ Wire.generation s = 0).
Proof.
  unfold HandlerInv, handler_gate, Handler_reset. intros Hi.
  set (state := if is_lifecycle_reset b || is_lock b then _ else _).
  assert (ms_tx state = ms_tx (hd_matching h)) as Est by (unfold state; by case_match).
  rewrite Est. unfold ms_tx in Hi |- *.
  set (t0 := ms_hyprland (hd_matching h)) in *. set (m0 := ms_matcher (hd_matching h)) in *.
  set (s1 := if is_lock b && _ then observe_lock_boundary _ _ _ else _).
  assert (tx_narrows (t0, m0) s1) as N1.
  { unfold s1. case_match; [by apply lock_boundary_narrows|by split]. }
  destruct s1 as [t1 m1].
  set (s2 := if is_lifecycle_reset b then _ else _).
  assert (tx_narrows (t1, m1) s2) as N2.
  { unfold s2. case_match; [apply lifecycle_narrows, N1|split; [apply N1|done]]. }
  destruct s2 as [t2 m2].
  pose proof (reconciled_cases t2 m2 s b (proj1 N2)) as Hc.
  destruct (reconciled t2 m2 s b) as [[t3 m3] ok]. destruct Hc as (Hi3 & Hok & Hno).
  set (s4 := if negb ok then _ else _).
  assert (tx_narrows (t3, m3) s4) as N4.
  { unfold s4. case_match; [by apply invalidate_narrows|by split]. }
  destruct s4 as [t4 m4].
  set (s5 := if is_retire b then _ else _).
  assert (tx_narrows (t4, m4) s5) as N5.
  { unfold s5. case_match; [apply retire_narrows, N4|split; [apply N4|done]]. }
  destruct s5 as [t5 m5]. simpl.
  split; [apply N5|]. intros Ho.
  apply (tx_narrows_trans _ _ _ N4 N5) in Ho. destruct ok; [auto|].
  left. injection (Hno eq_refl) as -> ->. by apply (tx_narrows_trans _ _ _ N1 N2) in Ho.
Qed.

(** ** The audit *)

(** The gate of a recorded handler, whose transactions are [tx], is open only after a
    proof, and so was every proposal that did not pass. *)
Record Audited {H : Type} (tx : H → TxM) (h : Recorded H) : Prop := {
  au_tx : TxInv (tx h.1);
  au_gate : is_open (gate (tx h.1).1) = true → opened h.2 = true;
  au_log : ∀ l1 s e d l2, h.2 = l1 ++ CPropose s e d :: l2 → d ≠ Wire.Pass → opened l1 = true;
}.

Arguments au_tx {H tx} h _.
Arguments au_gate {H tx} h _.
Arguments au_log {H tx} h _.

(** One more call. *)
Lemma audit_extend {H} (tx : H → TxM) h l h' c :
  Audited tx (h, l) → TxInv (tx h') →
  (is_open (gate (tx h').1) = true → is_open (gate (tx h).1) = true ∨ next_open false c = true) →
  (c = CDisconnected → is_open (gate (tx h').1) = false) →
  (∀ s e d, c = CPropose s e d → d ≠ Wire.Pass → is_open (gate (tx h).1) = true) →
  Audited tx (h', l ++ [c]).
Proof.
  intros [Ht Hg Hl] Hi Ho Hdis Hp. split; simpl in *; [done| |].
  - intros Hopen. rewrite opened_app.
    destruct (Ho Hopen) as [Hh|Hc].
    + apply Hg in Hh. rewrite Hh. destruct c; simpl; try done; [by rewrite orb_true_r|].
      by rewrite Hdis in Hopen.
    + destruct c; simpl in *; try done. rewrite orb_false_r in Hc. by rewrite Hc.
  - intros l1 s e d l2 E Hd. destruct l2 as [|c2 l2 _] using rev_ind.
    + apply app_inj_tail in E as [-> ->]. by eapply Hg, Hp.
    + rewrite app_comm_cons, app_assoc in E. apply app_inj_tail in E as [-> ->]. by eapply Hl.
Qed.

(** The audit of the daemon's handler *)
Definition handler_tx (h : Handler) : TxM := ms_tx (hd_matching h).
Abbreviation AuditInv := (Audited handler_tx).

Lemma AuditInv_keeps : keeps AuditInv.
Proof.
  split.
  - intros [h l] s e [h' l'] d Hi. simpl. intros ([h1 d1] & Hp & [= <- <- <-])%bind_Some.
    destruct (Handler_propose_spec h s e h1 d1 (au_tx _ Hi) Hp) as (H1 & H2 & H3).
    eapply audit_extend; [done|done|auto|done|]. by intros s' e' d' [= <- <- <-].
  - intros [h l] t Hi. eapply audit_extend; [done|apply Hi|auto|done|done].
  - intros [h l] s e Hi. eapply audit_extend; [done|apply Hi|auto|done|done].
  - intros [h l] s e d r Hi. destruct (Handler_delivery_spec h s e r (au_tx _ Hi)) as [H1 H2].
    eapply audit_extend; [done|done|auto|done|done].
  - intros [h l] s b Hi. destruct (Handler_reset_spec h s b (au_tx _ Hi)) as [H1 H2].
    eapply audit_extend; [done|done| |done|done]. intros [?|[Hr Hg]]%H2; [auto|]. right. simpl.
    by rewrite Hr, bool_decide_true.
  - intros [h l] s b Hb Hi. simpl. unfold Handler_unlocked_epoch.
    destruct (ms_hyprland_down_only (hd_matching h)).
    + destruct (unlocked_epoch_narrows _ _ (Wire.nonce s) (au_tx _ Hi)) as [H1 H2].
      eapply audit_extend; [done| |by left; apply H2|done|done].
      unfold handler_tx, ms_tx. simpl. by rewrite <- surjective_pairing.
    + destruct (Handler_reset_spec h s b (au_tx _ Hi)) as [H1 H2].
      eapply audit_extend; [done|done| |done|done].
      intros [?|[Hr _]]%H2; [auto|]. by destruct b.
  - intros [h l] Hi. eapply audit_extend; [done| |done|done|done].
    apply (disconnected_inv (ms_hyprland (hd_matching h)) (ms_matcher (hd_matching h))), Hi.
Qed.

(** ** An installed session *)

Inductive SOp : Type :=
  | SStep (deadline : Z)
  | SRequest
  | SReconnect (fd : Z) (expected : Wire.Identity) (deadline : Z)
  | SHealth
  | SBind
  | SReload (cfg : result string Config)
  | SEnd.

(** A configuration as the loader builds it. *)
Definition loaded (cfg : Config) : Prop := ∃ rules, cfg_rules cfg = RuleSet_new rules.

Section sessions.
Context {W : Type} `{Link W}.

Abbreviation SSt := (Session * W * Recorded Handler)%type.

Definition session_do (op : SOp) (s : SSt) : option SSt :=
  let '(se, w, (h, l)) := s in
  match op with
  | SStep deadline =>
      '(se, w, h, _) ← step_if_ready deadline se w (h, l); Some (se, w, h)
  | SRequest => session_request_reconciliation se w (h, l)
  | SReconnect fd expected deadline =>
      let '(se, w, _) := session_reconnect fd expected deadline se w in Some (se, w, (h, l))
  | SHealth => Some (se, w, (hd_set_matching (publish_health se (hd_matching h)) h, l))
  | SBind =>
      let '(se, ms, _) := bind_matcher se (hd_matching h) in
      Some (se, w, (hd_set_matching ms h, l))
  | SReload cfg => Some (se, w, (hd_set_matching (reload (hd_matching h) cfg).1 h, l))
  | SEnd => Some (se, w, h_disconnected (h, l))
  end.

Inductive session_run : SSt → list SOp → SSt → Prop :=
  | session_run_nil s : session_run s [] s
  | session_run_cons s op s1 ops s2 :
      (∀ cfg, op = SReload (Ok cfg) → loaded cfg) →
      session_do op s = Some s1 → session_run s1 ops s2 → session_run s (op :: ops) s2
  (** Between operations the world moves on. *)
  | session_run_world se w w' h ops s2 :
      session_run (se, w', h) ops s2 → session_run (se, w, h) ops s2.

(** The same log, the gate kept or closed. *)
Lemma audited_narrows {A} (tx : A → TxM) h h' l :
  Audited tx (h, l) → tx_narrows (tx h) (tx h') → Audited tx (h', l).
Proof. intros [Ht Hg Hl] [Hi Hn]. split; simpl in *; auto. Qed.
Lemma audit_narrows h l ms :
  AuditInv (h, l) → tx_narrows (ms_tx (hd_matching h)) (ms_tx ms) →
  AuditInv (hd_set_matching ms h, l).
Proof. exact (audited_narrows handler_tx h (hd_set_matching ms h) l). Qed.

Lemma await_narrows t m n :
  TxInv (t, m) → tx_narrows (t, m) (await_reconciliation t m n).1.
Proof.
  intros Hi. pose proof (await_inv _ _ n Hi) as Hi'.
  pose proof (tx_step_gate (t, m) (TxAwait n)) as Hg. simpl in Hg.
  destruct (await_reconciliation t m n) as [s ok]. specialize (Hg _ _ Hi eq_refl).
  split; [done|]. simpl in *. destruct ok; [destruct Hg as [_ Hg]|]; by rewrite Hg.
Qed.

Lemma bind_narrows se ms :
  TxInv (ms_tx ms) → tx_narrows (ms_tx ms) (ms_tx (bind_matcher se ms).1.2).
Proof.
  intros Hi. unfold bind_matcher. pose proof (await_narrows _ _ (br_nonce (se_bridge se)) Hi) as Hn.
  unfold ms_tx in *. destruct (await_reconciliation _ _ _) as [[t m] []]; exact Hn.
Qed.

Lemma reload_narrows ms cfg :
  (∀ c, cfg = Ok c → loaded c) → TxInv (ms_tx ms) →
  tx_narrows (ms_tx ms) (ms_tx (reload (E := string) ms cfg).1).
Proof.
  intros Hc Hi. unfold reload. destruct cfg as [c|e]; [|by split].
  destruct (_ && _); [by split|]. destruct (Hc c eq_refl) as [rules Er].
  unfold MatchingState_replace. rewrite Er.
  pose proof (reload_inv _ _ rules Hi) as Hr. destruct (invalidate_narrows _ _ Hi) as [_ Hn].
  destruct (invalidate_speculation _ _) as [t m]. by split.
Qed.

Lemma session_do_audit op se w h se' w' h' :
  (∀ cfg, op = SReload (Ok cfg) → loaded cfg) →
  AuditInv h → session_do op (se, w, h) = Some (se', w', h') → AuditInv h'.
Proof.
  intros Hc Hi. destruct h as [h l].
  destruct op as [deadline| |fd expected deadline| | |cfg|]; simpl.
  - intros ([[[se1 w1] h1] r] & Hs & [= <- <- <-])%bind_Some. unfold step_if_ready in Hs.
    destruct (negb _); [by simplify_eq|]. destruct (_ && _ && _).
    + apply bind_Some in Hs as ([[[b w2] d] r2] & Hs & [= <- <- <- <-]).
      by eapply (safe_ready _ (DownOnly_keeps _ AuditInv_keeps)) in Hs.
    + apply bind_Some in Hs as ([[[b w2] d] r2] & Hs & [= <- <- <- <-]).
      by eapply (safe_ready _ AuditInv_keeps) in Hs.
  - unfold session_request_reconciliation.
    intros ([[[b w2] d] r2] & Hs & [= <- <- <-])%bind_Some.
    by eapply (safe_request _ AuditInv_keeps) in Hs.
  - unfold session_reconnect. destruct (reconnect _ _ _ _ _) as [w1 [b|e]]; intros [= <- <- <-]; done.
  - intros [= <- <- <-]. apply audit_narrows; [done|by split; [apply Hi|]].
  - pose proof (bind_narrows se _ (au_tx _ Hi)) as Hn.
    destruct (bind_matcher _ _) as [[se1 ms] b]. intros [= <- <- <-]. by apply audit_narrows.
  - intros [= <- <- <-]. apply audit_narrows; [done|]. apply reload_narrows; [|apply Hi].
    intros c ->. by apply Hc.
  - intros [= <- <- <-]. by apply (kp_disconnected _ AuditInv_keeps (h, l)).
Qed.

Lemma session_run_audit s ops s' : session_run s ops s' → AuditInv s.2 → AuditInv s'.2.
Proof.
  induction 1 as [|[[se w] h] op [[se1 w1] h1] ops s2 Hc Hd Hr IH|]; [done| |done].
  intros Hi. apply IH. by eapply session_do_audit.
Qed.

(** The state after the installation of a loaded configuration. *)
Lemma installed_inv cfg0 cfg mask ms :
  loaded cfg0 → loaded cfg →
  install (E := string) (MatchingState_new cfg0) (Ok cfg) mask = Ok ms → TxInv (ms_tx ms).
Proof.
  intros [rules0 Er0] [rules Er]. unfold install. destruct (negb _); [done|]. intros [= <-].
  unfold MatchingState_replace, MatchingState_new. rewrite Er, Er0.
  assert (TxInv (Tx_default, Matcher_new (RuleSet_new rules0))) as H0.
  { split; simpl; try done. apply MatcherInv_new, RuleSet_new_inv. }
  by destruct (reload_inv _ _ rules H0).
Qed.

(** A bound matcher waits for the proof. *)
Lemma bound_audit se ms se' ms' env n queue gap :
  TxInv (ms_tx ms) → bind_matcher se ms = (se', ms', true) →
  AuditInv (mkHandler env n ms' queue gap, []).
Proof.
  intros Hi Hb. pose proof (bind_narrows se ms Hi) as Hn. revert Hb. unfold bind_matcher in *.
  pose proof (tx_step_gate (ms_tx ms) (TxAwait (br_nonce (se_bridge se)))) as Hg.
  unfold ms_tx in Hg, Hi. simpl in Hg.
  destruct (await_reconciliation _ _ _) as [s0 ok]. specialize (Hg _ _ Hi eq_refl).
  intros [= <- <- ->]. simpl in Hg. destruct Hg as [_ Hg].
  split; simpl; [apply Hn| |by intros []]. unfold handler_gate. simpl. by rewrite Hg.
Qed.

(** What the audit says of a proposal that was not a pass. *)
Lemma audit_proved {A} (tx : A → TxM) (h : A) (l l1 l2 : list Call) scope e d :
  Audited tx (h, l) → l = l1 ++ CPropose scope e d :: l2 → d ≠ Wire.Pass →
  ∃ k1 s b k2, l1 = k1 ++ CReset s b :: k2 ∧ b = Wire.Reset 8 ∧ Wire.generation s = 0 ∧
    (CDisconnected ∉ k2).
Proof.
  intros Hr -> Hd. destruct (proj1 (opened_spec l1)) as (k1 & s & b & k2 & -> & H1 & H2 & H3).
  { by eapply (au_log _ Hr). }
  exists k1, s, b, k2. split_and!; try done.
  by destruct b as [| | | | | |[|[|[|[|[]|]|]|]|]| |].
Qed.

End sessions.

(** *** A concrete configuration *)

Definition a_to_b_config : Config :=
  mkConfig DaemonSection_default ∅ ∅ (RuleSet_new [a_to_b]).
Definition quiet_env : Env := mkEnv (λ _, false) (λ n, Z.of_nat n) (λ _, None).
Definition installed_state : MatchingState :=
  match install (E := string) (MatchingState_new a_to_b_config) (Ok a_to_b_config)
    FRESH_DOWN_SEND_KEY with
  | Ok ms => ms
  | Err _ => MatchingState_new a_to_b_config
  end.
