(* ===== verification/Discovery.v ===== *)
(** * Finding the session (packages/linux/src/ipc/discovery.rs), and what the status says
      of it (packages/cli/src/status/readiness.rs, daemon/linux.rs)

    A client asks the daemon of its own session only: the path it was told, the session
    whose marker it inherited, or the default of a desktop without sessions. The marker
    and the socket are reached through private directories, without links. The file system
    is the class [SessionFiles]; the schema of the marker is [MarkerFormat]. *)

From Stdlib Require Import Strings.Byte.
From S2P Require Import Prelude Event Rule Sink Bytes Text Wire Bridge Transactions Desktop Daemon Json.
Import Byte(byte).

(** [std::path::Component], as [Path::components] yields them; paths are equal when their
    components are. *)
Inductive Component : Type := RootDir | CurDir | ParentDir | Normal (name : string).
#[export] Instance Component_eq_dec : EqDecision Component.
Proof. solve_decision. Defined.
Definition PathBuf : Type := list Component.

(** [is_absolute], [join] of a name, [file_name] and [parent] *)
Definition is_absolute (p : PathBuf) : bool :=
  match p with RootDir :: _ => true | _ => false end.
Definition join (p : PathBuf) (name : string) : PathBuf := p ++ [Normal name].
Definition path_name (p : PathBuf) : option string :=
  match last p with Some (Normal name) => Some name | _ => None end.
Definition path_parent (p : PathBuf) : option PathBuf :=
  match last p with None | Some RootDir => None | _ => Some (removelast p) end.

(** [Metadata] and [FileStat], as far as they are read *)
Record FileStat : Type := mkFileStat { fs_uid : Z; fs_mode : Z; fs_len : Z }.

Class SessionFiles (W : Type) : Type := {
  sf_geteuid : W → Z;
  (** [open] of the root and [openat] of a directory below one, which follows no link *)
  sf_root : W → W * result string Z;
  sf_directory : W → Z → string → W * result string Z;
  sf_fstat : W → Z → W * result string FileStat;
  (** [openat] of a file, which follows no link, and what can be read of it *)
  sf_file : W → Z → string → W * result string Z;
  sf_contents : W → Z → nat → W * result string (list byte);
  (** [fstatat] of an entry itself *)
  sf_fstatat : W → Z → string → W * result string FileStat;
  (** [fs::metadata] of a process's directory *)
  sf_process : W → Z → W * result string FileStat;
}.

(** [struct Session] *)
Record SessionMarker : Type := mkSessionMarker {
  sm_version : Z; sm_backend : string; sm_ipc_socket : PathBuf; sm_compositor_pid : Z; sm_instance : string;
}.
(** [serde_json::from_slice::<Session>] *)
Class MarkerFormat : Type := marker_from_slice : list byte → option SessionMarker.

(** The type bits of a mode, and its permissions *)
Definition S_IFMT : Z := 61440.
Definition S_IFSOCK : Z := 49152.
Definition S_IFREG : Z := 32768.
Definition S_IFDIR : Z := 16384.
Definition has_type (kind : Z) (f : FileStat) : bool := bool_decide (Z.land (fs_mode f) S_IFMT = kind).
(** [mode & 0o077 != 0] *)
Definition open_to_others (f : FileStat) : bool := negb (bool_decide (Z.land (fs_mode f) 63 = 0)).

Section discovery.
Context {W : Type} `{SessionFiles W, MarkerFormat}.

(** Calls that may fail; [denied] is an error of kind [PermissionDenied]. *)
Definition SF (X : Type) : Type := W → W * result string X.
#[global] Instance SF_ret : MRet SF := λ X x w, (w, Ok x).
#[global] Instance SF_bind : MBind SF := λ X Y f m w,
  match m w with
  | (w, Ok x) => f x w
  | (w, Err e) => (w, Err e)
  end.
Definition denied {X} (m : string) : SF X := λ w, (w, Err m).
Definition euid : SF Z := λ w, (w, Ok (sf_geteuid w)).

(** [private_directory]: the walk from the root, and the check of where it ended *)
Fixpoint walk (fd : Z) (p : PathBuf) : SF Z :=
  match p with
  | [] => mret fd
  | RootDir :: p => walk fd p
  | Normal name :: p => (λ w, sf_directory w fd name) ≫= λ fd, walk fd p
  | _ :: _ => denied "invalid Sledge runtime path component"
  end.
Definition private_directory (path : PathBuf) : SF Z :=
  if negb (is_absolute path) then denied "Sledge runtime path must be absolute"
  else
    sf_root ≫= λ root,
    walk root path ≫= λ fd,
    (λ w, sf_fstat w fd) ≫= λ metadata,
    euid ≫= λ uid,
    if negb (bool_decide (fs_uid metadata = uid)) || open_to_others metadata
    then denied "Sledge runtime directory must be private and same-user"
    else mret fd.

(** [health_socket] *)
Definition health_socket (runtime : PathBuf) : SF PathBuf :=
  private_directory runtime ≫= λ fd,
  (λ w, sf_fstatat w fd "health.sock") ≫= λ metadata,
  euid ≫= λ uid,
  if negb (has_type S_IFSOCK metadata) || negb (bool_decide (fs_uid metadata = uid)) || open_to_others metadata
  then denied "Sledge session health endpoint is not a private same-user socket"
  else mret (join runtime "health.sock").

(** The checks of the marker's file and of what it says *)
Definition unsafe_marker (metadata : FileStat) (uid : Z) : bool :=
  negb (has_type S_IFREG metadata) || negb (bool_decide (fs_uid metadata = uid)) ||
  negb (bool_decide (Z.land (fs_mode metadata) 511 = 384)) || bool_decide (4096 < fs_len metadata).
Definition unsupported (session : SessionMarker) : bool :=
  negb (bool_decide (sm_version session = 1)) || negb (bool_decide (sm_backend session = "hyprland")) ||
  bool_decide (sm_compositor_pid session = 0) || bool_decide (2 ^ 31 - 1 < sm_compositor_pid session) ||
  bool_decide (sm_instance session = "") ||
  bool_decide (1024 < length (String.list_byte_of_string (sm_instance session)))%nat ||
  has_control (String.list_byte_of_string (sm_instance session)).

(** [read_session] *)
Definition read_session (marker : PathBuf) : SF SessionMarker :=
  if negb (bool_decide (path_name marker = Some "session.json"))
  then denied "Sledge session marker must be named session.json"
  else
    match path_parent marker with
    | None => denied "session marker requires private directory"
    | Some runtime =>
        private_directory runtime ≫= λ directory,
        (λ w, sf_file w directory "session.json") ≫= λ file,
        (λ w, sf_fstat w file) ≫= λ metadata,
        euid ≫= λ uid,
        if unsafe_marker metadata uid then denied "unsafe Sledge session marker"
        else
          (λ w, sf_contents w file 4097) ≫= λ bytes,
          if bool_decide (4096 < length bytes)%nat then denied "Sledge session marker exceeds size limit"
          else
            match marker_from_slice bytes with
            | None => denied "invalid Sledge session marker schema"
            | Some session =>
                if unsupported session then denied "unsupported Sledge session marker"
                else if negb (bool_decide (sm_ipc_socket session = join runtime "health.sock"))
                then denied "Sledge session socket must be colocated health.sock"
                else
                  (λ w, sf_process w (sm_compositor_pid session)) ≫= λ process,
                  euid ≫= λ uid,
                  if negb (has_type S_IFDIR process) || negb (bool_decide (fs_uid process = uid))
                  then denied "Sledge session compositor is not a live same-user process"
                  else
                    health_socket runtime ≫= λ _,
                    mret session
            end
    end.

(** [resolve] *)
Definition resolve (marker runtime xdg : option PathBuf) (signature : option string) : SF PathBuf :=
  let inherited := (λ path, join path "session.json") <$> runtime in
  if match marker, inherited with
     | Some marker, Some inherited => negb (bool_decide (marker = inherited))
     | _, _ => false
     end
  then denied "conflicting Sledge session marker and runtime"
  else
    match (match marker with Some marker => Some marker | None => inherited end) with
    | Some marker =>
        read_session marker ≫= λ session,
        if match signature with
           | Some signature => negb (bool_decide (signature = sm_instance session))
           | None => false
           end
        then denied "Sledge session instance mismatch; use --socket for explicit selection"
        else mret (sm_ipc_socket session)
    | None =>
        match signature with
        | Some _ => denied "Sledge session is not selected; launch a Sledge login or set SLEDGE_SESSION_FILE, or use --socket"
        | None =>
            match xdg with
            | None => denied "XDG_RUNTIME_DIR unavailable; use --socket"
            | Some xdg => private_directory xdg ≫= λ _, mret (join xdg "sledge.sock")
            end
        end
    end.

(** [client_socket_path]; [env] is the environment's four variables. *)
Definition client_socket_path (explicit : option PathBuf)
    (env : option PathBuf * option PathBuf * option PathBuf * option string) : SF PathBuf :=
  match explicit with
  | Some path => mret path
  | None => let '(marker, runtime, xdg, signature) := env in resolve marker runtime xdg signature
  end.
End discovery.

(** ** What discovery guarantees *)

Section guarantees.
Context {W : Type} `{SessionFiles W, MarkerFormat}.

Lemma SF_bind_Ok {X Y} (m : SF (W := W) X) (f : X → SF Y) w w' y :
  (m ≫= f) w = (w', Ok y) → ∃ w1 x, m w = (w1, Ok x) ∧ f x w1 = (w', Ok y).
Proof. unfold mbind, SF_bind. destruct (m w) as [w1 [x|e]]; [by eauto|done]. Qed.

(** A path from the root, by names only *)
Definition plain (p : PathBuf) : Prop :=
  is_absolute p = true ∧ Forall (λ c, c = RootDir ∨ ∃ name, c = Normal name) p.
(** A directory that was reached by names, without links, and was this user's alone. *)
Definition kept_private (p : PathBuf) : Prop :=
  plain p ∧ ∃ w root w1 fd w2 f, walk root p w = (w1, Ok fd) ∧ sf_fstat w1 fd = (w2, Ok f) ∧
    fs_uid f = sf_geteuid w2 ∧ open_to_others f = false.

Lemma walk_plain p : ∀ fd w w' fd', walk fd p w = (w', Ok fd') → Forall (λ c, c = RootDir ∨ ∃ name, c = Normal name) p.
Proof.
  induction p as [|c p IH]; intros fd w w' fd'; [constructor|].
  destruct c as [| | |name]; cbn [walk]; try done.
  - intros Hw. constructor; [by left|by eapply IH].
  - intros (w1 & fd1 & _ & Hw)%SF_bind_Ok. constructor; [right; by eexists|by eapply IH].
Qed.

Lemma private_directory_Ok p w w' fd : private_directory p w = (w', Ok fd) → kept_private p.
Proof.
  unfold private_directory. destruct (is_absolute p) eqn:Ha; simpl; [|done].
  intros (w1 & root & _ & (w2 & fd2 & Hwalk & (w3 & f & Hf & (w4 & uid & Hu & Hend)%SF_bind_Ok)%SF_bind_Ok)%SF_bind_Ok)%SF_bind_Ok.
  unfold euid in Hu. simplify_eq. case_bool_decide as Hown; simpl in Hend; [|done].
  destruct (open_to_others f) eqn:Ho; [done|]. unfold mret, SF_ret in Hend. simplify_eq.
  split; [split; [done|by eapply walk_plain]|]. by eexists w1, root, w2, fd, _, f.
Qed.

(** The marker and the endpoint beside it were sound when they were looked at. *)
Definition sound_session (runtime : PathBuf) (session : SessionMarker) : Prop :=
  kept_private runtime ∧ unsupported session = false ∧ sm_ipc_socket session = join runtime "health.sock" ∧
  (∃ w w' file f, sf_fstat w file = (w', Ok f) ∧ unsafe_marker f (sf_geteuid w') = false) ∧
  (∃ w file w' bytes, sf_contents w file 4097 = (w', Ok bytes) ∧ (length bytes ≤ 4096)%nat ∧
     marker_from_slice bytes = Some session) ∧
  (∃ w w' f, sf_process w (sm_compositor_pid session) = (w', Ok f) ∧ has_type S_IFDIR f = true ∧
     fs_uid f = sf_geteuid w') ∧
  (∃ w fd w' f, sf_fstatat w fd "health.sock" = (w', Ok f) ∧ has_type S_IFSOCK f = true ∧
     fs_uid f = sf_geteuid w' ∧ open_to_others f = false).

Lemma read_session_Ok marker w w' session :
  read_session marker w = (w', Ok session) →
  ∃ runtime, path_parent marker = Some runtime ∧ path_name marker = Some "session.json" ∧ sound_session runtime session.
Proof.
  unfold read_session. case_bool_decide as Hname; simpl; [|done].
  destruct (path_parent marker) as [runtime|]; [|done].
  intros (w1 & dir & Hdir & (w2 & file & _ & (w3 & f & Hf & (w4 & uid & Hu & Hrest)%SF_bind_Ok)%SF_bind_Ok)%SF_bind_Ok)%SF_bind_Ok.
  unfold euid in Hu. simplify_eq. destruct (unsafe_marker f _) eqn:Hm; [done|].
  apply SF_bind_Ok in Hrest as (w5 & bytes & Hb & Hrest). case_bool_decide as Hlen; [done|].
  destruct (marker_from_slice bytes) as [s|] eqn:Hs; [|done]. destruct (unsupported s) eqn:Hu; [done|].
  case_bool_decide as Hsock; simpl in Hrest; [|done].
  apply SF_bind_Ok in Hrest as (w6 & pr & Hp & (w7 & uid & Hu' & Hrest)%SF_bind_Ok).
  unfold euid in Hu'. simplify_eq. destruct (has_type S_IFDIR pr) eqn:Hd; simpl in Hrest; [|done].
  case_bool_decide as Hown; simpl in Hrest; [|done].
  apply SF_bind_Ok in Hrest as (w8 & p & Hh & Hret). unfold mret, SF_ret in Hret. simplify_eq.
  apply SF_bind_Ok in Hh as (w9 & fd & _ & (w10 & hf & Hhf & (w11 & uid & Hu'' & Hend)%SF_bind_Ok)%SF_bind_Ok).
  unfold euid in Hu''. simplify_eq. destruct (has_type S_IFSOCK hf) eqn:Hk; simpl in Hend; [|done].
  case_bool_decide as Hown'; simpl in Hend; [|done]. destruct (open_to_others hf) eqn:Ho; [done|].
  exists runtime. split_and!; [done|done|]. unfold sound_session. split_and!; [by eapply private_directory_Ok|done|done|..].
  - by eexists w2, _, file, f.
  - eexists _, file, _, bytes. split_and!; [done|lia|done].
  - by eexists w5, _, pr.
  - by eexists w9, fd, _, hf.
Qed.

End guarantees.

(** A file system with the session of user 1000 in /run/s, and one whose directory is
    open to others *)
#[export] Instance SimFiles : SessionFiles Z := {|
  sf_geteuid _ := 1000;
  sf_root mode := (mode, Ok 3);
  sf_directory mode fd name := (mode, Ok (fd + 1));
  sf_fstat mode fd := (mode, Ok (mkFileStat 1000 (if bool_decide (fd = 9) then S_IFREG + 384 else mode) 100));
  sf_file mode fd name := (mode, Ok 9);
  sf_contents mode fd n := (mode, Ok [x7b; x7d]);
  sf_fstatat mode fd name := (mode, Ok (mkFileStat 1000 (S_IFSOCK + 384) 0));
  sf_process mode pid := (mode, Ok (mkFileStat 1000 S_IFDIR 0));
|}.
Definition sim_runtime : PathBuf := [RootDir; Normal "run"; Normal "s"].
#[export] Instance SimMarker : MarkerFormat := λ _,
  Some (mkSessionMarker 1 "hyprland" (join sim_runtime "health.sock") 42 "abc").
Example sim_resolve :
  (client_socket_path None (None, Some sim_runtime, None, Some "abc") (S_IFDIR + 448)).2 =
  Ok (join sim_runtime "health.sock").
Proof. vm_compute. reflexivity. Qed.
Example sim_resolve_shared :
  (client_socket_path None (None, Some sim_runtime, None, Some "abc") (S_IFDIR + 493)).2 =
  Err "Sledge runtime directory must be private and same-user".
Proof. vm_compute. reflexivity. Qed.
Example sim_resolve_other :
  (client_socket_path None (None, Some sim_runtime, Some [RootDir], Some "other") (S_IFDIR + 448)).2 =
  Err "Sledge session instance mismatch; use --socket for explicit selection".
Proof. vm_compute. reflexivity. Qed.


(** ** The status of the session *)

(** [Capabilities] of backend.rs, [LinuxBackend::capabilities] and [check_permissions]: a
    connection alone verifies nothing. *)
Record Capabilities : Type := mkCapabilities {
  broker_connected : bool; verified_session : bool; source_switching : bool; reason : option string;
}.
Definition backend_capabilities (connected has_source : bool) : Capabilities :=
  mkCapabilities connected false has_source
    (Some "broker activation requires qualified session/seat/lock authority").
Definition check_permissions : result BackendError Capabilities :=
  Err (MissingPermission "verified Linux broker session/seat/lock authority is not available").

(** The closure [capabilities] of [run_linux]; the configuration is which of the three
    listeners was set up, and whether there is a source worker. *)
Record Configured : Type := mkConfigured {
  cf_research : bool; cf_candidate : bool; cf_supported : bool; cf_sources : bool;
}.
Definition health_is (f : SessionHealth → bool) (h : option SessionHealth) : bool :=
  match h with Some h => f h | None => false end.
Definition capabilities (caps : Capabilities) (cf : Configured) (health : option SessionHealth)
    (reconciled current : bool) : Value :=
  VObject [("broker_connected", VBool (broker_connected caps));
           ("verified_session", VBool (verified_session caps));
           ("source_switching", VBool (cf_sources cf));
           ("native_send_key", VBool false);
           ("strict_lock_authority", VBool false);
           ("hyprland_research_configured", VBool (cf_research cf));
           ("hyprland_capture_qualified", VBool (cf_supported cf));
           ("hyprland_candidate_configured", VBool (cf_candidate cf));
           ("hyprland_supported_configured", VBool (cf_supported cf));
           ("hyprland_operational", VBool (health_is (λ h, operational h reconciled current) health));
           ("hyprland_authenticated", VBool (health_is (λ h, sh_connected h && current) health));
           ("hyprland_awaiting_reconciliation", VBool (health_is sh_awaiting_reconciliation health));
           ("hyprland_locked", VBool (health_is sh_locked health));
           ("hyprland_connection_nonce", match health with Some h => VInt (sh_nonce h) | None => VNull end);
           ("reason", match reason caps with Some r => VString r | None => VNull end)].

(** [describe] *)
Definition yes (caps : Value) (key : string) : bool := bool_decide (as_bool (field caps key) = Some true).
Definition describe (caps : Value) : option string :=
  if negb (yes caps "hyprland_supported_configured") && negb (yes caps "hyprland_candidate_configured") &&
     negb (yes caps "hyprland_research_configured")
  then None
  else if negb (yes caps "hyprland_supported_configured")
  then Some "unqualified — candidate/research build; not supported desktop capture"
  else if negb (yes caps "hyprland_authenticated")
  then Some "waiting for compositor connection — no authenticated current session"
  else if yes caps "hyprland_locked" then Some "paused — compositor locked; remapping excluded"
  else if yes caps "hyprland_awaiting_reconciliation" || negb (yes caps "hyprland_operational")
  then Some "waiting for safe reconciliation — remapping not operational"
  else Some "ready — accepted build and operational compositor session".

Lemma yes_field b caps key : field caps key = VBool b → yes caps key = b.
Proof. unfold yes. intros ->. by destruct b. Qed.

(** The status says ready only of an operational session. For any configuration and
    health, [describe] of the reported capabilities says ready exactly when a supported
    session is configured and operational: connected, of the current process, unlocked
    and reconciled. *)
Theorem ready_means_operational caps cf health reconciled current :
  describe (capabilities caps cf health reconciled current) =
    Some "ready — accepted build and operational compositor session" ↔
  cf_supported cf = true ∧ ∃ h, health = Some h ∧ operational h reconciled current = true.
Proof.
  unfold describe. set (json := capabilities caps cf health reconciled current).
  rewrite (yes_field _ json "hyprland_supported_configured" eq_refl),
    (yes_field _ json "hyprland_candidate_configured" eq_refl),
    (yes_field _ json "hyprland_research_configured" eq_refl),
    (yes_field _ json "hyprland_authenticated" eq_refl),
    (yes_field _ json "hyprland_locked" eq_refl),
    (yes_field _ json "hyprland_awaiting_reconciliation" eq_refl),
    (yes_field _ json "hyprland_operational" eq_refl).
  clear json. destruct (cf_supported cf); cbn [negb andb].
  2:{ destruct (_ && _); (split; [discriminate|by intros [? _]]). }
  destruct health as [h|]; cbn [health_is negb].
  2:{ split; [discriminate|by intros [_ (? & ? & _)]]. }
  assert ((∃ h', Some h = Some h' ∧ operational h' reconciled current = true) ↔ operational h reconciled current = true)
    as -> by naive_solver.
  unfold operational. destruct h as [[] [] [] nonce], current, reconciled; simpl;
    (split; [intros Heq; try discriminate Heq; done|intros [_ Ho]; try discriminate Ho; reflexivity]).
Qed.
