(* ===== verification/SocketGuard.v ===== *)
(** * Ownership of the control socket (packages/cli/src/ipc/macos.rs)

    A daemon that starts on macOS takes a lock, removes the socket that a crashed daemon
    left behind, and binds its own; it removes that one when it ends. Daemons are programs
    of system calls ([Prog]), which run interleaved, call by call, with any number of
    other daemons and with legacy daemons that know nothing of the lock; any of them may
    crash at any call. *)

From S2P Require Import Prelude Bytes Discovery.

(** ** Programs of system calls *)

(** [Metadata], as far as it is read *)
Record FileMeta : Type := mkFileMeta { fm_is_file : bool; fm_uid : Z; fm_mode : Z; fm_nlink : Z }.
(** What a name can stand for, with its device and inode as one number *)
Inductive Named : Type := Sock (uid : Z) (ino : nat) | Plain (uid : Z) (ino : nat).
#[export] Instance Named_eq_dec : EqDecision Named.
Proof. solve_decision. Defined.
Definition entry_uid (e : Named) : Z := match e with Sock u _ | Plain u _ => u end.
Definition entry_ino (e : Named) : nat := match e with Sock _ i | Plain _ i => i end.
Definition is_socket (e : Named) : bool := match e with Sock _ _ => true | _ => false end.

(** [symlink_metadata]'s and [connect_timeout]'s may_answer *)
Inductive Looked : Type := Found (e : Named) | NotFound | LookFailed (message : string).
Inductive Probed : Type := Connected | Refused | ProbeFailed (message : string).

(** [SocketGuard]; the lock it holds is the process's. *)
Record SocketGuard : Type := mkSocketGuard { sg_path : PathBuf; sg_identity : nat }.

(** The calls: the directory, the lock file, [flock] and its end by closing, the endpoint's
    name, the listening socket, and the daemon's work while it is up. *)
Inductive Syscall : Type → Type :=
  | CParent (dir : PathBuf) : Syscall (result string (PathBuf * FileMeta))
  | CLockOpen (lock : PathBuf) : Syscall (result string FileMeta)
  | CFlock : Syscall (result string unit)
  | CUnlock : Syscall unit
  | CStat : Syscall Looked
  | CProbe : Syscall Probed
  | CRemove : Syscall (result string unit)
  | CBind : Syscall (result string unit)
  | CListen : Syscall (result string unit)
  | CClose : Syscall unit
  | CChmod : Syscall (result string unit)
  | CServe (g : SocketGuard) : Syscall unit.

Inductive Prog (X : Type) : Type :=
  | Done (x : X)
  | Call {A : Type} (c : Syscall A) (k : A → Prog X).
Arguments Done {X} x.
Arguments Call {X A} c k.

#[export] Instance Prog_ret : MRet Prog := λ X, Done.
#[export] Instance Prog_bind : MBind Prog := λ X Y f,
  fix bind m := match m with Done x => f x | Call c k => Call c (λ a, bind (k a)) end.
Definition call {A} (c : Syscall A) : Prog A := Call c Done.

(** Programs that fail, as functions that return [io::Result] *)
Notation Fallible X := (Prog (result string X)) (only parsing).
Definition try {X Y} (m : Fallible X) (f : X → Fallible Y) : Fallible Y :=
  m ≫= λ r, match r with Ok x => f x | Err e => Done (Err e) end.
Definition fail {X} (m : string) : Fallible X := Done (Err m).

(** ** The code *)

Section code.
Variable uid : Z.

(** The checks of the directory and of the lock file *)
Definition parent_private (m : FileMeta) : bool :=
  bool_decide (fm_uid m = uid) && bool_decide (Z.land (fm_mode m) 18 = 0).
Definition sticky_root (m : FileMeta) : bool :=
  bool_decide (fm_uid m = 0) && negb (bool_decide (Z.land (fm_mode m) 512 = 0)).
Definition lock_unsafe (m : FileMeta) : bool :=
  negb (fm_is_file m) || negb (bool_decide (fm_uid m = uid)) ||
  negb (bool_decide (Z.land (fm_mode m) 63 = 0)) || negb (bool_decide (fm_nlink m = 1)).

(** [recover] *)
Definition recover : Fallible unit :=
  call CStat ≫= λ r,
  match r with
  | NotFound => Done (Ok ())
  | LookFailed e => fail e
  | Found metadata =>
      if negb (is_socket metadata) || negb (bool_decide (entry_uid metadata = uid))
      then fail "refusing to replace an IPC path that is not a same-user socket"
      else
        call CProbe ≫= λ r,
        match r with
        | ProbeFailed e => fail e
        | Connected => fail "IPC listener is already running"
        | Refused =>
            call CStat ≫= λ r,
            match r with
            | NotFound => fail "No such file or directory"
            | LookFailed e => fail e
            | Found current =>
                if negb (bool_decide (entry_ino current = entry_ino metadata))
                then fail "IPC socket changed during recovery"
                else call CRemove
            end
        end
  end.

(** [Drop]: the endpoint is removed when it is still the guard's, then the lock is closed. *)
Definition guard_drop (g : SocketGuard) : Prog unit :=
  call CStat ≫= λ r,
  match r with
  | Found metadata =>
      if is_socket metadata && bool_decide (entry_ino metadata = sg_identity g)
      then call CRemove ≫= λ _, Done ()
      else Done ()
  | _ => Done ()
  end ≫= λ _, call CUnlock.

(** [UnixListener::bind] *)
Definition unix_bind : Fallible unit :=
  try (call CBind) (λ _,
  call CListen ≫= λ r,
  match r with Ok _ => Done (Ok ()) | Err e => call CClose ≫= λ _, fail e end).

(** An error closes the lock on the way out. *)
Definition unlocking {X} (m : Fallible X) : Fallible X :=
  m ≫= λ r, match r with Ok x => Done (Ok x) | Err e => call CUnlock ≫= λ _, fail e end.

(** What [bind] does with the lock: on an error its locals are dropped, the latest first;
    the guard has the lock from its construction on. *)
Definition bind_locked (path : PathBuf) : Fallible SocketGuard :=
  try (unlocking recover) (λ _,
  try (unlocking unix_bind) (λ _,
  call CStat ≫= λ r,
  match r with
  | Found metadata =>
      let guard := mkSocketGuard path (entry_ino metadata) in
      call CChmod ≫= λ r,
      match r with
      | Ok _ => Done (Ok guard)
      | Err e => guard_drop guard ≫= λ _, call CClose ≫= λ _, fail e
      end
  | NotFound => call CClose ≫= λ _, unlocking (fail "No such file or directory")
  | LookFailed e => call CClose ≫= λ _, unlocking (fail e)
  end)).

(** The parent that is canonicalized: of a bare name, the working directory *)
Definition parent_or_here (path : PathBuf) : PathBuf :=
  match path_parent path with Some (c :: p) => c :: p | _ => [CurDir] end.

(** [SocketGuard::bind] *)
Definition mac_guard_bind (path : PathBuf) : Fallible SocketGuard :=
  try (call (CParent (parent_or_here path))) (λ '(parent, metadata),
  if negb (parent_private metadata) && negb (sticky_root metadata)
  then fail "IPC directory must be same-user and non-writable by others, or root-owned and sticky"
  else
    match path_name path with
    | None => fail "socket name missing"
    | Some name =>
        try (call (CLockOpen (join parent (name ++ ".lock")))) (λ metadata,
        if lock_unsafe metadata then fail "IPC lock must be a private same-user regular file"
        else
          try (call CFlock) (λ _, bind_locked (join parent name)))
    end).

(** A daemon from its start to its end; [early] when it fails after binding, so that the
    guard goes before the server. *)
Definition daemon_life (early : bool) (path : PathBuf) : Prog unit :=
  mac_guard_bind path ≫= λ r,
  match r with
  | Err _ => Done ()
  | Ok guard =>
      call (CServe guard) ≫= λ _,
      if early then guard_drop guard ≫= λ _, call CClose
      else call CClose ≫= λ _, guard_drop guard
  end.
End code.

(** ** The system they share *)

(** The endpoint's name, the holder of the lock, the sockets someone listens on (a daemon,
    or [None] for a legacy one), the sockets the daemons bound, and the next inode. *)
Record System : Type := mkSystem {
  sy_name : option Named;
  sy_lock : option nat;
  sy_live : gmap nat (option nat);
  sy_bound : gmap nat nat;
  sy_next : nat;
}.
Definition sy_set_name n s := mkSystem n (sy_lock s) (sy_live s) (sy_bound s) (sy_next s).
Definition sy_set_lock l s := mkSystem (sy_name s) l (sy_live s) (sy_bound s) (sy_next s).
Definition sy_set_live l s := mkSystem (sy_name s) (sy_lock s) l (sy_bound s) (sy_next s).

(** Closing the lock file and closing the socket *)
Definition unlock (p : nat) (s : System) : System :=
  if bool_decide (sy_lock s = Some p) then sy_set_lock None s else s.
Definition close (p : nat) (s : System) : System :=
  mkSystem (sy_name s) (sy_lock s) (filter (λ iq, iq.2 ≠ Some p) (sy_live s)) (delete p (sy_bound s)) (sy_next s).

Section system.
Variables (uid : Z) (overflows : bool).

(** What a call may answer and do; any call may fail. A connection is refused where nobody
    listens and, if queues overflow, also where somebody does. *)
Definition may_answer (s : System) (p : nat) {A} (c : Syscall A) : A → System → Prop :=
  match c in Syscall A return A → System → Prop with
  | CParent _ | CLockOpen _ | CChmod | CServe _ => λ _ s', s' = s
  | CFlock => λ a s',
      match a with
      | Ok _ => (sy_lock s = None ∨ sy_lock s = Some p) ∧ s' = sy_set_lock (Some p) s
      | Err _ => s' = s
      end
  | CUnlock => λ _ s', s' = unlock p s
  | CStat => λ a s', s' = s ∧
      match a with
      | Found e => sy_name s = Some e
      | NotFound => sy_name s = None
      | LookFailed _ => True
      end
  | CProbe => λ a s', s' = s ∧
      match a with
      | Connected => ∃ u i q, sy_name s = Some (Sock u i) ∧ sy_live s !! i = Some q
      | Refused => ∃ u i, sy_name s = Some (Sock u i) ∧ (overflows = true ∨ sy_live s !! i = None)
      | ProbeFailed _ => True
      end
  | CRemove => λ a s',
      match a with
      | Ok _ => s' = sy_set_name None s
      | Err _ => s' = s
      end
  | CBind => λ a s',
      match a with
      | Ok _ => sy_name s = None ∧
          s' = mkSystem (Some (Sock uid (sy_next s))) (sy_lock s) (sy_live s)
                 (<[p := sy_next s]> (sy_bound s)) (S (sy_next s))
      | Err _ => s' = s
      end
  | CListen => λ a s',
      match a with
      | Ok _ => ∃ i, sy_bound s !! p = Some i ∧ s' = sy_set_live (<[i := Some p]> (sy_live s)) s
      | Err _ => s' = s
      end
  | CClose => λ _ s', s' = close p s
  end.

(** Legacy daemons and other programs keep to their own: they bind, and listen at once,
    where there is no file; remove a socket only while they listen on it; or crash. *)
Inductive legacy : System → System → Prop :=
  | legacy_bind u s : sy_name s = None →
      legacy s (mkSystem (Some (Sock u (sy_next s))) (sy_lock s) (<[sy_next s := None]> (sy_live s))
                  (sy_bound s) (S (sy_next s)))
  | legacy_file u s : sy_name s = None →
      legacy s (mkSystem (Some (Plain u (sy_next s))) (sy_lock s) (sy_live s) (sy_bound s) (S (sy_next s)))
  | legacy_remove_file u i s : sy_name s = Some (Plain u i) → legacy s (sy_set_name None s)
  | legacy_remove u i s : sy_name s = Some (Sock u i) → sy_live s !! i = Some None →
      legacy s (sy_set_name None s)
  | legacy_crash i s : sy_live s !! i = Some None → legacy s (sy_set_live (delete i (sy_live s)) s).

(** The system and the daemons that run in it *)
Record Machine : Type := mkMachine { mc_sys : System; mc_procs : gmap nat (Prog unit) }.
Inductive mstep : Machine → option nat → Machine → Prop :=
  | ms_start p early path s procs : procs !! p = None →
      mstep (mkMachine s procs) (Some p) (mkMachine s (<[p := daemon_life uid early path]> procs))
  | ms_call p {A} (c : Syscall A) k a s s' procs :
      procs !! p = Some (Call c k) → may_answer s p c a s' →
      mstep (mkMachine s procs) (Some p) (mkMachine s' (<[p := k a]> procs))
  | ms_exit p prog s procs : procs !! p = Some prog →
      mstep (mkMachine s procs) (Some p) (mkMachine (close p (unlock p s)) (delete p procs))
  | ms_legacy s s' procs : legacy s s' → mstep (mkMachine s procs) None (mkMachine s' procs).

Definition boot : Machine := mkMachine (mkSystem None None ∅ ∅ 0) ∅.
Inductive running : Machine → Prop :=
  | running_boot : running boot
  | running_step m who m' : running m → mstep m who m' → running m'.

(** ** What each daemon relies on while it holds the lock *)

(** Holding: nothing more. Stale: the name is of a socket nobody listens on. Owning and
    Up: the name is of the daemon's own socket, and in Up it listens there. *)
Inductive Phase : Type := Holding | Stale (i : nat) | Owning (i : nat) | Up (i : nat).

Definition owns (s : System) (p i : nat) : Prop :=
  sy_name s = Some (Sock uid i) ∧ (∀ j, sy_bound s !! p = Some j → j = i) ∧
  ∀ q, sy_live s !! i = Some q → q = Some p.
Definition relies (s : System) (p : nat) (φ : Phase) : Prop :=
  match φ with
  | Holding => True
  | Stale i => ∃ u, sy_name s = Some (Sock u i) ∧ sy_live s !! i = None
  | Owning i => owns s p i
  | Up i => owns s p i ∧ sy_live s !! i = Some (Some p)
  end.
Record SysInv (s : System) (h : option (nat * Phase)) : Prop := {
  si_lock : sy_lock s = fst <$> h;
  si_relies : ∀ p φ, h = Some (p, φ) → relies s p φ;
  si_name : ∀ e, sy_name s = Some e → (entry_ino e < sy_next s)%nat;
  si_live : ∀ i q, sy_live s !! i = Some q → (i < sy_next s)%nat;
}.

(** Where a daemon is, and where it is after a call *)
Definition phase_of (p : nat) (h : option (nat * Phase)) : option Phase :=
  match h with Some (q, φ) => if bool_decide (q = p) then Some φ else None | None => None end.
Definition moved (p : nat) (φ : option Phase) (h : option (nat * Phase)) : option (nat * Phase) :=
  match φ with
  | Some φ => Some (p, φ)
  | None => match h with Some (q, φ) => if bool_decide (q = p) then None else Some (q, φ) | None => None end
  end.

(** Nobody takes the name from a socket that somebody else listens on. *)
Definition spares (who : option nat) (s s' : System) : Prop :=
  ∀ u i q, sy_name s = Some (Sock u i) → sy_live s !! i = Some q →
    sy_name s' = sy_name s ∨ q = who ∨ overflows = true.

(** The daemon whose program serves with a guard *)
Definition serving {X} (m : Prog X) : option SocketGuard :=
  match m with
  | Call c _ => match c with CServe g => Some g | _ => None end
  | Done _ => None
  end.

(** [m] keeps to the discipline from phase [φ] on, and ends in a phase and with a value
    that satisfy [Q]. *)
Fixpoint conforms {X} (p : nat) (φ : option Phase) (m : Prog X) (Q : option Phase → X → Prop) : Prop :=
  match m with
  | Done x => Q φ x
  | Call c k =>
      (∀ g, serving m = Some g → φ = Some (Up (sg_identity g))) ∧
      ∀ s h a s', SysInv s h → phase_of p h = φ → may_answer s p c a s' →
        spares (Some p) s s' ∧ ∃ φ', SysInv s' (moved p φ' h) ∧ conforms p φ' (k a) Q
  end.

Lemma conforms_mono {X} p φ (m : Prog X) Q Q' :
  (∀ φ x, Q φ x → Q' φ x) → conforms p φ m Q → conforms p φ m Q'.
Proof.
  intros HQ. revert φ. induction m as [x|A c k IH]; intros φ; simpl; [apply HQ|].
  intros [Hs Hc]. split; [done|]. intros s h a s' Hi Hp Ha.
  destruct (Hc s h a s' Hi Hp Ha) as (Hsp & φ' & Hi' & Hk). eauto.
Qed.

Lemma conforms_bind {X Y} p φ (m : Prog X) (f : X → Prog Y) Q :
  conforms p φ m (λ φ x, conforms p φ (f x) Q) → conforms p φ (m ≫= f) Q.
Proof.
  revert φ. induction m as [x|A c k IH]; intros φ; simpl; [done|].
  intros [Hs Hc]. split; [exact Hs|]. intros s h a s' Hi Hp Ha.
  destruct (Hc s h a s' Hi Hp Ha) as (Hsp & φ' & Hi' & Hk). split; [done|]. exists φ'. split; [done|]. by apply IH.
Qed.

Lemma moved_same p φ h : phase_of p h = φ → moved p φ h = h.
Proof. unfold phase_of, moved. destruct h as [[q ψ]|]; [|by intros <-]. case_bool_decide; intros <-; by subst. Qed.

(** A call that leaves the system as it is *)
Lemma conforms_neutral {A} p φ (c : Syscall A) (Q : option Phase → A → Prop) :
  (∀ s a s', may_answer s p c a s' → s' = s) →
  (∀ g, serving (call c) = Some g → φ = Some (Up (sg_identity g))) →
  (∀ s h a, SysInv s h → phase_of p h = φ → may_answer s p c a s → ∃ φ', SysInv s (moved p φ' h) ∧ Q φ' a) →
  conforms p φ (call c) Q.
Proof.
  intros Hn Hs HQ. split; [exact Hs|]. intros s h a s' Hi Hp Ha. pose proof (Hn _ _ _ Ha) as ->.
  split; [by intros ?; left|]. by apply HQ.
Qed.
Lemma conforms_quiet {A} p φ (c : Syscall A) (Q : option Phase → A → Prop) :
  (∀ s a s', may_answer s p c a s' → s' = s) → (∀ g, serving (call c) ≠ Some g) →
  (∀ a, Q φ a) → conforms p φ (call c) Q.
Proof.
  intros Hn Hs HQ. apply conforms_neutral; [done|by intros g ?%Hs|]. intros s h a Hi Hp _. exists φ. by rewrite moved_same.
Qed.

Lemma SysInv_phase s h p φ : SysInv s h → phase_of p h = Some φ → h = Some (p, φ) ∧ relies s p φ.
Proof.
  intros Hi. unfold phase_of. destruct h as [[q ψ]|]; [|done]. case_bool_decide; [|done]. intros [= ->]. subst q.
  split; [done|by eapply si_relies].
Qed.

(** Looking at the name: what is owned, or known to be stale, is what is seen. *)
Lemma conforms_stat p φ (Q : option Phase → Looked → Prop) :
  (∀ a, (∀ e, a = Found e → ∀ i, φ = Some (Stale i) → entry_ino e = i) →
        (∀ i, φ = Some (Owning i) ∨ φ = Some (Up i) → a ≠ NotFound ∧ ∀ e, a = Found e → e = Sock uid i) → Q φ a) →
  conforms p φ (call CStat) Q.
Proof.
  intros HQ. apply conforms_neutral; [by intros s a s' [-> _]|done|]. intros s h a Hi Hp [_ Ha].
  exists φ. split; [by rewrite moved_same|]. apply HQ.
  - intros e -> i ->. apply (SysInv_phase _ _ _ _ Hi) in Hp as [_ (u & Hn & _)]. rewrite Hn in Ha. by simplify_eq.
  - intros i Hφ. assert (owns s p i) as (Hn & _) by
      (destruct Hφ as [-> | ->]; apply (SysInv_phase _ _ _ _ Hi) in Hp as [_ Hr]; [done|by destruct Hr]).
    split; [intros ->; congruence|intros e ->; congruence].
Qed.

(** The probe: a refusal means a stale socket, unless queues overflow. *)
Lemma conforms_probe p (Q : option Phase → Probed → Prop) :
  (∀ a, a ≠ Refused → Q (Some Holding) a) → (overflows = true → Q (Some Holding) Refused) →
  (∀ i, Q (Some (Stale i)) Refused) →
  conforms p (Some Holding) (call CProbe) Q.
Proof.
  intros HQ Ho Hs. apply conforms_neutral; [by intros s a s' [-> _]|done|]. intros s h a Hi Hp [_ Ha].
  destruct (SysInv_phase _ _ _ _ Hi Hp) as [-> _]. destruct a as [| |e].
  - exists (Some Holding). split; [done|by apply HQ].
  - destruct Ha as (u & i & Hn & [Hov|Hd]); [exists (Some Holding); split; [done|by apply Ho]|].
    exists (Some (Stale i)). split; [|apply Hs]. destruct Hi as [Hl Hr Hna Hli]. split; try done.
    intros p' φ' [= <- <-]. by exists u.
  - exists (Some Holding). split; [done|by apply HQ].
Qed.

(** Taking and giving up the lock *)
Lemma conforms_flock p (Q : option Phase → result string unit → Prop) :
  Q (Some Holding) (Ok ()) → (∀ e, Q None (Err e)) → conforms p None (call CFlock) Q.
Proof.
  intros Hok Herr. split; [done|]. intros s h a s' Hi Hp Ha.
  destruct a as [[]|e]; simpl in Ha.
  - destruct Ha as [Hfree ->]. split; [by intros ?; left|]. exists (Some Holding). split; [|done].
    destruct Hi as [Hl Hr Hna Hli]. split; try done. by intros ? ? [= <- <-].
  - subst s'. split; [by intros ?; left|]. exists None. rewrite moved_same by done. split; [done|apply Herr].
Qed.
Lemma conforms_unlock p φ (Q : option Phase → unit → Prop) : Q None () → conforms p φ (call CUnlock) Q.
Proof.
  intros HQ. split; [done|]. intros s h [] s' Hi Hp Ha. simpl in Ha. subst s'. split.
  { intros u i q Hn _. left. unfold unlock. by case_bool_decide. }
  exists None. split; [|done]. destruct Hi as [Hl Hr Hna Hli]. unfold unlock. rewrite Hl.
  unfold phase_of in Hp. unfold moved. destruct h as [[q ψ]|]; simpl.
  - destruct (decide (q = p)) as [->|Hne].
    + rewrite !bool_decide_true by done. by split.
    + rewrite !bool_decide_false by congruence. by split.
  - by split.
Qed.

(** Removing the name: of a stale socket, of the daemon's own, or of anything when a full
    queue was taken for a stale socket. *)
Definition may_remove (φ : Phase) : Prop :=
  match φ with Holding => overflows = true | _ => True end.
Lemma conforms_remove p φ (Q : option Phase → result string unit → Prop) :
  may_remove φ → Q (Some Holding) (Ok ()) → (∀ e, Q (Some φ) (Err e)) →
  conforms p (Some φ) (call CRemove) Q.
Proof.
  intros Hm Hok Herr. split; [done|]. intros s h a s' Hi Hp Ha.
  destruct (SysInv_phase _ _ _ _ Hi Hp) as [-> Hr]. destruct a as [[]|e]; simpl in Ha; subst s'.
  2:{ split; [by intros ?; left|]. exists (Some φ). split; [done|apply Herr]. }
  split.
  - intros u i q Hn Hq. right. destruct φ as [|j|j|j]; simpl in Hm, Hr.
    + by right.
    + destruct Hr as (u' & Hn' & Hd). rewrite Hn' in Hn. simplify_eq.
    + destruct Hr as (Hn' & _ & Hl). rewrite Hn' in Hn. simplify_eq. left. by apply Hl.
    + destruct Hr as ((Hn' & _ & Hl) & _). rewrite Hn' in Hn. simplify_eq. left. by apply Hl.
  - exists (Some Holding). split; [|done]. destruct Hi as [Hl _ Hna Hli]. split; try done. by intros ? ? [= <- <-].
Qed.

(** Binding makes the name the daemon's; listening makes the daemon reachable. *)
Lemma conforms_bind_call p (Q : option Phase → result string unit → Prop) :
  (∀ i, Q (Some (Owning i)) (Ok ())) → (∀ e, Q (Some Holding) (Err e)) →
  conforms p (Some Holding) (call CBind) Q.
Proof.
  intros Hok Herr. split; [done|]. intros s h a s' Hi Hp Ha.
  destruct (SysInv_phase _ _ _ _ Hi Hp) as [-> _]. destruct a as [[]|e]; simpl in Ha.
  2:{ subst s'. split; [by intros ?; left|]. exists (Some Holding). split; [done|apply Herr]. }
  destruct Ha as [Hn ->]. split; [intros u i q Hn'; congruence|].
  exists (Some (Owning (sy_next s))). split; [|apply Hok]. destruct Hi as [Hl _ Hna Hli]. split; try done; simpl.
  - intros ? ? [= <- <-]. split; [done|]. split; [intros j; simpl; rewrite lookup_insert_eq; by intros [= <-]|].
    intros q Hq%Hli. lia.
  - intros e [= <-]. simpl. lia.
  - intros i q Hq%Hli. lia.
Qed.
Lemma conforms_listen p i (Q : option Phase → result string unit → Prop) :
  Q (Some (Up i)) (Ok ()) → (∀ e, Q (Some (Owning i)) (Err e)) →
  conforms p (Some (Owning i)) (call CListen) Q.
Proof.
  intros Hok Herr. split; [done|]. intros s h a s' Hi Hp Ha.
  destruct (SysInv_phase _ _ _ _ Hi Hp) as [-> (Hn & Hb & Hl)]. destruct a as [[]|e]; simpl in Ha.
  2:{ subst s'. split; [by intros ?; left|]. exists (Some (Owning i)). split; [done|apply Herr]. }
  destruct Ha as (j & Hj & ->). pose proof (Hb j Hj) as ->. split; [by intros ?; left|].
  exists (Some (Up i)). split; [|done]. destruct Hi as [Hlo _ Hna Hli]. split; try done; simpl.
  - intros ? ? [= <- <-]. simpl. rewrite lookup_insert_eq. split; [|done]. split; [done|]. split; [done|].
    simpl. rewrite lookup_insert_eq. by intros q [= <-].
  - intros k q Hq. destruct (decide (k = i)) as [->|]; [by eapply (Hna (Sock uid i))|].
    rewrite lookup_insert_ne in Hq by done. by eapply Hli.
Qed.

(** Closing and giving up: what the others rely on stays true. *)
Lemma close_live p s i q : sy_live (close p s) !! i = Some q ↔ sy_live s !! i = Some q ∧ q ≠ Some p.
Proof. unfold close. simpl. by rewrite map_lookup_filter_Some. Qed.
Lemma close_relies p s q φ : q ≠ p → relies s q φ → relies (close p s) q φ.
Proof.
  intros Hne. assert (∀ i, owns s q i → owns (close p s) q i) as Hown.
  { intros i (Hn & Hb & Hl). split; [done|]. split; [|by intros r [Hr _]%close_live; apply Hl].
    intros j. simpl. rewrite lookup_delete_ne by done. apply Hb. }
  destruct φ as [|i|i|i]; simpl; [done| |apply Hown|].
  - intros (u & Hn & Hd). exists u. split; [done|]. apply eq_None_not_Some. intros [r Hr].
    apply map_lookup_filter_Some in Hr as [Hr _]. congruence.
  - intros [Ho Hl]. split; [by apply Hown|]. apply map_lookup_filter_Some. split; [done|]. simpl. congruence.
Qed.
Definition closed (φ : Phase) : Phase := match φ with Up i => Owning i | φ => φ end.
Lemma close_relies_own p s φ : relies s p φ → relies (close p s) p (closed φ).
Proof.
  assert (∀ i, owns s p i → owns (close p s) p i) as Hown.
  { intros i (Hn & _ & Hl). split; [done|]. split; [intros j; simpl; by rewrite lookup_delete_eq|].
    by intros r [Hr _]%close_live; apply Hl. }
  destruct φ as [|i|i|i]; simpl; [done| |apply Hown|by intros [? _]; apply Hown].
  intros (u & Hn & Hd). exists u. split; [done|]. apply eq_None_not_Some. intros [r Hr].
  apply map_lookup_filter_Some in Hr as [Hr _]. congruence.
Qed.
Lemma conforms_close p φ (Q : option Phase → unit → Prop) :
  Q (closed <$> φ) () → conforms p φ (call CClose) Q.
Proof.
  intros HQ. split; [done|]. intros s h [] s' Hi Hp Ha. simpl in Ha. subst s'. split; [by intros ?; left|].
  exists (closed <$> φ). split; [|done]. destruct Hi as [Hl Hr Hna Hli].
  assert (∀ i q, sy_live (close p s) !! i = Some q → (i < sy_next (close p s))%nat) as Hli'
    by (intros i q [Hq _]%close_live; by eapply Hli).
  unfold phase_of in Hp. destruct h as [[q ψ]|]; [|subst φ; by split].
  destruct (decide (q = p)) as [->|Hne].
  - rewrite bool_decide_true in Hp by done. subst φ. simpl. split; try done. intros ? ? [= <- <-].
    by apply close_relies_own, Hr.
  - rewrite bool_decide_false in Hp by done. subst φ. simpl. rewrite bool_decide_false by done. split; try done.
    intros ? ? [= <- <-]. apply close_relies; [done|by apply Hr].
Qed.
Lemma conforms_serve p g (Q : option Phase → unit → Prop) :
  Q (Some (Up (sg_identity g))) () → conforms p (Some (Up (sg_identity g))) (call (CServe g)) Q.
Proof.
  intros HQ. apply conforms_neutral; [by intros s a s' ->|by intros g' [= <-]|]. intros s h [] Hi Hp _.
  eexists. split; [by rewrite moved_same|done].
Qed.

(** ** The code keeps to the discipline *)

Lemma conforms_try {X Y} p φ (m : Fallible X) (f : X → Fallible Y) (Q : option Phase → result string Y → Prop) :
  conforms p φ m (λ φ r, match r with Ok x => conforms p φ (f x) Q | Err e => Q φ (Err e) end) →
  conforms p φ (try m f) Q.
Proof. intros Hm. apply conforms_bind. eapply conforms_mono; [|exact Hm]. by intros φ' [x|e]. Qed.
Lemma conforms_unlocking {X} p φ (m : Fallible X) (Q : option Phase → result string X → Prop) :
  conforms p φ m (λ φ r, match r with Ok x => Q φ (Ok x) | Err e => Q None (Err e) end) →
  conforms p φ (unlocking m) Q.
Proof.
  intros Hm. apply conforms_bind. eapply conforms_mono; [|exact Hm]. intros φ' [x|e] HQ; [exact HQ|].
  by apply conforms_bind, conforms_unlock.
Qed.

(** Outcomes of the parts: on success a phase, on failure no matter which *)
Definition ends {X} (P : option Phase → X → Prop) (φ : option Phase) (r : result string X) : Prop :=
  match r with Ok x => P φ x | Err _ => True end.

Lemma recover_conforms p : conforms p (Some Holding) (recover uid) (ends (λ φ _, φ = Some Holding)).
Proof.
  apply conforms_bind, conforms_stat. intros [metadata| |e] _ _; [|done|done].
  destruct (_ || _); [done|]. apply conforms_bind.
  assert (∀ φ, may_remove φ → conforms p (Some φ)
    (call CStat ≫= λ r, match r with
       | NotFound => fail "No such file or directory"
       | LookFailed e => fail e
       | Found current =>
           if negb (bool_decide (entry_ino current = entry_ino metadata))
           then fail "IPC socket changed during recovery" else call CRemove
       end) (ends (λ φ _, φ = Some Holding))) as Hend.
  { intros φ Hm. apply conforms_bind, conforms_stat. intros [current| |e] _ _; [|done|done].
    destruct (negb _); [done|]. by apply conforms_remove. }
  apply conforms_probe.
  - by intros [| |e] Hne.
  - intros Ho. by apply Hend.
  - intros i. by apply Hend.
Qed.

Lemma guard_drop_conforms p g φ (Q : option Phase → unit → Prop) :
  φ = Owning (sg_identity g) ∨ φ = Up (sg_identity g) → Q None () → conforms p (Some φ) (guard_drop g) Q.
Proof.
  intros Hφ HQ. apply conforms_bind, conforms_stat. intros a _ _.
  assert (∀ ψ, conforms p ψ (Done ()) (λ φ' _, conforms p φ' (call CUnlock) Q)) as Hun
    by (intros ψ; by apply conforms_unlock).
  apply conforms_bind. destruct a as [e| |m]; [|apply Hun|apply Hun]. destruct (_ && _); [|apply Hun].
  apply conforms_bind. apply conforms_remove; [by destruct Hφ as [-> | ->]|apply Hun|intros ?; apply Hun].
Qed.

Lemma unix_bind_conforms p :
  conforms p (Some Holding) unix_bind (ends (λ φ _, ∃ i, φ = Some (Up i))).
Proof.
  apply conforms_try, conforms_bind_call; [|done]. intros i. apply conforms_bind, conforms_listen; [by exists i|].
  intros e. by apply conforms_bind, conforms_close.
Qed.

Lemma bind_locked_conforms p path :
  conforms p (Some Holding) (bind_locked uid path)
    (λ φ r, match r with Ok g => φ = Some (Up (sg_identity g)) | Err _ => φ = None end).
Proof.
  apply conforms_try, conforms_unlocking. eapply conforms_mono; [|apply recover_conforms].
  intros φ [[]|e] Hφ; [|done]. simpl in Hφ. subst φ.
  apply conforms_try, conforms_unlocking. eapply conforms_mono; [|apply unix_bind_conforms].
  intros φ [[]|e] Hφ; [|done]. destruct Hφ as [i ->].
  apply conforms_bind, conforms_stat. intros a _ Hown. destruct (Hown i (or_intror eq_refl)) as [_ Hfound].
  destruct a as [metadata| |e].
  - pose proof (Hfound _ eq_refl) as ->. apply conforms_bind, conforms_quiet; [by intros s a s'|done|].
    intros [[]|e]; [done|]. apply conforms_bind, guard_drop_conforms; [by right|]. by apply conforms_bind, conforms_close.
  - apply conforms_bind, conforms_close. by apply conforms_unlocking.
  - apply conforms_bind, conforms_close. by apply conforms_unlocking.
Qed.

Lemma mac_guard_bind_conforms p path :
  conforms p None (mac_guard_bind uid path)
    (λ φ r, match r with Ok g => φ = Some (Up (sg_identity g)) | Err _ => φ = None end).
Proof.
  apply conforms_try, conforms_quiet; [by intros s a s'|done|]. intros [[parent metadata]|e]; [|done].
  destruct (negb _ && _); [done|]. destruct (path_name path) as [name|]; [|done].
  apply conforms_try, conforms_quiet; [by intros s a s'|done|]. intros [lock|e]; [|done].
  destruct (lock_unsafe uid lock); [done|]. apply conforms_try, conforms_flock; [apply bind_locked_conforms|done].
Qed.

Lemma daemon_life_conforms p early path : conforms p None (daemon_life uid early path) (λ φ _, φ = None).
Proof.
  apply conforms_bind. eapply conforms_mono; [|apply mac_guard_bind_conforms]. intros φ [g|e] ->; [|done].
  apply conforms_bind, conforms_serve. destruct early.
  - apply conforms_bind, guard_drop_conforms; [by right|]. by apply conforms_close.
  - apply conforms_bind, conforms_close, guard_drop_conforms; [by left|done].
Qed.

(** ** All daemons together *)

Lemma may_answer_lock s p q {A} (c : Syscall A) a s' :
  sy_lock s = Some q → q ≠ p → may_answer s p c a s' → sy_lock s' = Some q.
Proof.
  intros Hq Hne. destruct c; simpl; try (by intros ->); try (by intros [-> _]);
    try (destruct a as [[]|e]; [|by intros ->]).
  - intros [[?|?] _]; congruence.
  - intros ->. unfold unlock. by rewrite bool_decide_false by congruence.
  - by intros ->.
  - by intros [_ ->].
  - by intros (i & _ & ->).
Qed.
Lemma phase_of_moved p φ h : phase_of p (moved p φ h) = φ.
Proof.
  unfold phase_of, moved. destruct φ; [by rewrite bool_decide_true|]. destruct h as [[q ψ]|]; [|done].
  case_bool_decide; [done|]. by rewrite bool_decide_false.
Qed.
Lemma phase_of_other p q φ s s' h :
  q ≠ p → SysInv s h → SysInv s' (moved p φ h) → (∀ r, sy_lock s = Some r → r ≠ p → sy_lock s' = Some r) →
  phase_of q (moved p φ h) = phase_of q h.
Proof.
  intros Hne Hi Hi' Hl. pose proof (si_lock _ _ Hi) as Hs. pose proof (si_lock _ _ Hi') as Hs'.
  unfold phase_of, moved in *. destruct h as [[r ψ]|]; simpl in *.
  - destruct (decide (r = p)) as [->|Hr].
    + rewrite (bool_decide_false (p = q)) by done. destruct φ; [by rewrite bool_decide_false|by rewrite bool_decide_true].
    + destruct φ as [φ|]; [|by rewrite (bool_decide_false (r = p))].
      specialize (Hl r Hs Hr). simpl in Hs'. congruence.
  - destruct φ; [by rewrite bool_decide_false|done].
Qed.

(** A daemon that relies on the name relies on a socket no legacy daemon listens on. *)
Lemma relies_name s p φ :
  relies s p φ → φ = Holding ∨ ∃ u i, sy_name s = Some (Sock u i) ∧ sy_live s !! i ≠ Some None.
Proof.
  destruct φ as [|j|j|j]; simpl; [by left|..]; intros Hr; right.
  - destruct Hr as (u & Hn & Hd). exists u, j. split; [done|congruence].
  - destruct Hr as (Hn & _ & Hq). exists uid, j. split; [done|]. by intros ?%Hq.
  - destruct Hr as ((Hn & _ & Hq) & _). exists uid, j. split; [done|]. by intros ?%Hq.
Qed.
Lemma legacy_keeps s s' h : legacy s s' → SysInv s h → SysInv s' h ∧ spares None s s'.
Proof.
  intros Hs [Hl Hr Hna Hli].
  assert (∀ p φ, h = Some (p, φ) → (∀ u i, sy_name s = Some (Sock u i) → sy_live s !! i = Some None) → φ = Holding) as Hfree.
  { intros p φ Hh Hno. destruct (relies_name s p φ (Hr p φ Hh)) as [|(u & i & Hn & Hd)]; [done|]. by destruct Hd; eapply Hno. }
  destruct Hs as [u s Hn|u s Hn|u i s Hn|u i s Hn Hli0|i s Hli0].
  - split; [|intros ? ? ? ?; congruence]. split; [done| | |]; simpl.
    + intros p φ Hh. rewrite (Hfree p φ Hh); [done|congruence].
    + intros e [= <-]. simpl. lia.
    + intros j q. destruct (decide (j = sy_next s)) as [->|]; [lia|]. rewrite lookup_insert_ne by done.
      intros ?%Hli. lia.
  - split; [|intros ? ? ? ?; congruence]. split; [done| | |]; simpl.
    + intros p φ Hh. rewrite (Hfree p φ Hh); [done|congruence].
    + intros e [= <-]. simpl. lia.
    + intros j q ?%Hli. lia.
  - split; [|intros ? ? ? ?; congruence]. split; [done| |done|done].
    intros p φ Hh. rewrite (Hfree p φ Hh); [done|congruence].
  - split; [|intros u' i' q Hn' Hq; right; left; congruence]. split; [done| |done|done].
    intros p φ Hh. rewrite (Hfree p φ Hh); [done|congruence].
  - split; [|by intros ?; left].
    assert (∀ j q, delete i (sy_live s) !! j = Some q → sy_live s !! j = Some q) as Hsub
      by (intros j q [_ ?]%lookup_delete_Some; done).
    split; [done| |done|by intros j q ?%Hsub%Hli].
    intros p φ Hh. specialize (Hr p φ Hh). destruct φ as [|j|j|j]; simpl in *; [done|..].
    + destruct Hr as (u & Hn & Hd). exists u. split; [done|]. by rewrite lookup_delete_None; right.
    + destruct Hr as (Hn & Hb & Hq). split; [done|]. split; [done|]. by intros q ?%Hsub%Hq.
    + destruct Hr as ((Hn & Hb & Hq) & Hu). split; [split; [done|]; split; [done|]; by intros q ?%Hsub%Hq|].
      rewrite lookup_delete_ne; [done|]. intros ->. congruence.
Qed.

(** A daemon that ends, or crashes, lets go of its lock and its socket. *)
Lemma leave_keeps s h p : SysInv s h → SysInv (close p (unlock p s)) (moved p None h).
Proof.
  intros Hi.
  destruct (conforms_unlock p (phase_of p h) (λ φ _, φ = None) eq_refl) as [_ Hu].
  destruct (Hu s h () _ Hi eq_refl eq_refl) as (_ & φ & Hi1 & Hφ). simpl in Hφ. subst φ.
  destruct (conforms_close p None (λ φ _, φ = None) eq_refl) as [_ Hc].
  destruct (Hc _ _ () _ Hi1 (phase_of_moved p None h) eq_refl) as (_ & φ & Hi2 & Hφ). simpl in Hφ. subst φ.
  by rewrite moved_same in Hi2 by apply phase_of_moved.
Qed.

Record MachineInv (m : Machine) (h : option (nat * Phase)) : Prop := {
  mi_sys : SysInv (mc_sys m) h;
  mi_procs : ∀ p prog, mc_procs m !! p = Some prog → conforms p (phase_of p h) prog (λ φ _, φ = None);
  mi_holder : ∀ p φ, h = Some (p, φ) → is_Some (mc_procs m !! p);
}.

Lemma mstep_keeps m who m' h : MachineInv m h → mstep m who m' → (∃ h', MachineInv m' h') ∧ spares who (mc_sys m) (mc_sys m').
Proof.
  intros [Hi Hp Hh] Hs. destruct Hs as [p early path s procs Hfree|p A c k a s s' procs Hc Ha|p prog s procs Hc|s s' procs Hl];
    simpl in *.
  - split; [|by intros ?; left]. exists h. split; [done| |]; simpl.
    + intros q prog [[<- <-]|[Hne Hq]]%lookup_insert_Some; [|by apply Hp].
      assert (phase_of p h = None) as ->; [|apply daemon_life_conforms].
      unfold phase_of. destruct h as [[q φ]|]; [|done]. case_bool_decide; [|done]. subst q.
      destruct (Hh p φ eq_refl). congruence.
    + intros q φ Hq. destruct (decide (p = q)) as [->|]; [rewrite lookup_insert_eq; by eexists|].
      rewrite lookup_insert_ne by done. by eapply Hh.
  - destruct (Hp p _ Hc) as [_ Hk]. destruct (Hk s h a s' Hi eq_refl Ha) as (Hsp & φ & Hi' & Hka).
    split; [|done]. exists (moved p φ h). split; [done| |]; simpl.
    + intros q prog [[<- <-]|[Hne Hq]]%lookup_insert_Some; [by rewrite phase_of_moved|].
      rewrite (phase_of_other p q φ s s' h); [by apply Hp|done|done|done|]. intros r Hr Hrp. by eapply may_answer_lock.
    + intros q ψ Hq. destruct (decide (p = q)) as [->|Hne]; [rewrite lookup_insert_eq; by eexists|].
      rewrite lookup_insert_ne by done. unfold moved in Hq. destruct φ; [congruence|].
      destruct h as [[r χ]|]; [|done]. case_bool_decide; [done|]. simplify_eq. by eapply Hh.
  - split.
    + exists (moved p None h). split; [by apply leave_keeps| |]; cbn [mc_procs].
      * intros q prog' [Hne Hq]%lookup_delete_Some.
        rewrite (phase_of_other p q None s (close p (unlock p s)) h);
          [by apply Hp|done|done|by apply leave_keeps|]. intros r Hr Hrp. unfold unlock.
        by rewrite bool_decide_false by congruence.
      * intros q ψ Hq. unfold moved in Hq. destruct h as [[r χ]|]; [|done]. case_bool_decide; [done|].
        simplify_eq. rewrite lookup_delete_ne by done. by eapply Hh.
    + intros u i q _ _. left. unfold close, unlock. simpl. by case_bool_decide.
  - destruct (legacy_keeps s s' h Hl Hi) as [Hi' Hsp]. split; [|done]. by exists h.
Qed.

Lemma running_inv m : running m → ∃ h, MachineInv m h.
Proof.
  induction 1 as [|m who m' _ [h Hi] Hs].
  - exists None. split; [split|..]; done.
  - by destruct (mstep_keeps m who m' h Hi Hs) as [Hi' _].
Qed.

(** C15. The control socket of a running daemon is its own. Whatever daemons are started,
    fail, stop or crash at any of their system calls, and whatever legacy daemons do with
    sockets of their own: while a daemon serves, the endpoint's name is the very socket it
    bound and it listens there, so that clients reach it and no one else; at most one
    daemon serves; and no step takes the name away from a socket on which somebody else
    listens, unless full queues make a live listener look abandoned. *)
Theorem endpoint_is_exclusive m :
  running m →
  (∀ p prog g, mc_procs m !! p = Some prog → serving prog = Some g →
     sy_lock (mc_sys m) = Some p ∧ sy_name (mc_sys m) = Some (Sock uid (sg_identity g)) ∧
     sy_live (mc_sys m) !! sg_identity g = Some (Some p)) ∧
  (∀ p q prog prog', mc_procs m !! p = Some prog → mc_procs m !! q = Some prog' →
     is_Some (serving prog) → is_Some (serving prog') → p = q) ∧
  ∀ who m', overflows = false → mstep m who m' →
    ∀ u i q, sy_name (mc_sys m) = Some (Sock u i) → sy_live (mc_sys m) !! i = Some q → q ≠ who →
      sy_name (mc_sys m') = Some (Sock u i).
Proof.
  intros [h Hi]%running_inv.
  assert (∀ p prog g, mc_procs m !! p = Some prog → serving prog = Some g →
     sy_lock (mc_sys m) = Some p ∧ sy_name (mc_sys m) = Some (Sock uid (sg_identity g)) ∧
     sy_live (mc_sys m) !! sg_identity g = Some (Some p)) as Hserve.
  { intros p prog g Hp Hs. pose proof (mi_procs _ _ Hi p prog Hp) as Hc. destruct prog as [|A c k]; [done|].
    destruct Hc as [Hup _]. destruct (SysInv_phase _ _ _ _ (mi_sys _ _ Hi) (Hup g Hs)) as [-> ((Hn & _) & Hl)].
    split; [exact (si_lock _ _ (mi_sys _ _ Hi))|done]. }
  split; [exact Hserve|]. split.
  - intros p q prog prog' Hp Hq [g Hg] [g' Hg']. destruct (Hserve p prog g Hp Hg) as [Hlp _], (Hserve q prog' g' Hq Hg') as [Hlq _]. congruence.
  - intros who m' Ho Hs u i q Hn Hl Hne. destruct (mstep_keeps m who m' h Hi Hs) as [_ Hsp].
    destruct (Hsp u i q Hn Hl) as [->|[|]]; [done|done|congruence].
Qed.
End system.

(** ** When no call fails *)

Section obliging.
Variable uid : Z.

(** The may_answer of a system that obliges, in a private directory *)
Definition oblige (s : System) (p : nat) {A} (c : Syscall A) : A * System :=
  match c in Syscall A return A * System with
  | CParent dir => (Ok (dir, mkFileMeta false uid 448 2), s)
  | CLockOpen _ => (Ok (mkFileMeta true uid 384 1), s)
  | CFlock =>
      if bool_decide (sy_lock s = None ∨ sy_lock s = Some p) then (Ok (), sy_set_lock (Some p) s)
      else (Err "Resource temporarily unavailable", s)
  | CUnlock => ((), unlock p s)
  | CStat => (match sy_name s with Some e => Found e | None => NotFound end, s)
  | CProbe =>
      (match sy_name s with
       | Some (Sock _ i) => match sy_live s !! i with Some _ => Connected | None => Refused end
       | _ => ProbeFailed "Socket operation on non-socket"
       end, s)
  | CRemove => (Ok (), sy_set_name None s)
  | CBind =>
      match sy_name s with
      | None => (Ok (), mkSystem (Some (Sock uid (sy_next s))) (sy_lock s) (sy_live s)
                          (<[p := sy_next s]> (sy_bound s)) (S (sy_next s)))
      | Some _ => (Err "Address already in use", s)
      end
  | CListen =>
      match sy_bound s !! p with
      | Some i => (Ok (), sy_set_live (<[i := Some p]> (sy_live s)) s)
      | None => (Err "Invalid argument", s)
      end
  | CClose => ((), close p s)
  | CChmod => (Ok (), s)
  | CServe _ => ((), s)
  end.
Lemma oblige_may overflows s p {A} (c : Syscall A) :
  may_answer uid overflows s p c (oblige s p c).1 (oblige s p c).2.
Proof.
  destruct c; simpl; try done.
  - by case_bool_decide.
  - by destruct (sy_name s).
  - split; [done|]. destruct (sy_name s) as [[u i|u i]|]; [|done|done]. destruct (sy_live s !! i) as [q|] eqn:Hl.
    + by exists u, i, q.
    + exists u, i. split; [done|by right].
  - by destruct (sy_name s).
  - destruct (sy_bound s !! p) as [i|]; [by exists i|done].
Qed.

(** A program alone, to its end: the system and its value *)
Fixpoint obliged {X} (p : nat) (m : Prog X) (s : System) : System * X :=
  match m with
  | Done x => (s, x)
  | Call c k => let '(a, s) := oblige s p c in obliged p (k a) s
  end.
Lemma obliged_bind {X Y} p (m : Prog X) (f : X → Prog Y) s :
  obliged p (m ≫= f) s = let '(s, x) := obliged p m s in obliged p (f x) s.
Proof. revert s. induction m as [x|A c k IH]; intros s; simpl; [done|]. destruct (oblige s p c) as [a s1]. apply IH. Qed.
Lemma obliged_try {X Y} p (m : Fallible X) (f : X → Fallible Y) s :
  obliged p (try m f) s =
  let '(s, r) := obliged p m s in match r with Ok x => obliged p (f x) s | Err e => (s, Err e) end.
Proof. unfold try. rewrite obliged_bind. by destruct (obliged p m s) as [s1 [x|e]]. Qed.

(** It is a run of the machine. *)
Lemma obliged_runs overflows p {X} (m : Prog X) (f : X → Prog unit) : ∀ s procs,
  running uid overflows (mkMachine s (<[p := m ≫= f]> procs)) →
  running uid overflows (mkMachine (obliged p m s).1 (<[p := f (obliged p m s).2]> procs)).
Proof.
  induction m as [x|A c k IH]; intros s procs Hr; [done|]. simpl.
  pose proof (oblige_may overflows s p c) as Ha. destruct (oblige s p c) as [a s1].
  apply IH. rewrite <- (insert_insert_eq procs p (k a ≫= f) (Call c k ≫= f)). eapply running_step; [exact Hr|].
  by apply (ms_call uid overflows p c (λ a, k a ≫= f)); [apply lookup_insert_eq|].
Qed.

(** What a crash leaves: the lock is free, and the name is free or of a socket of this
    user on which nobody listens. *)
Definition abandoned (s : System) : Prop :=
  sy_lock s = None ∧
  match sy_name s with
  | None => True
  | Some e => is_socket e = true ∧ entry_uid e = uid ∧ sy_live s !! entry_ino e = None
  end.

Lemma recover_abandoned p s :
  match sy_name s with
  | None => True
  | Some e => is_socket e = true ∧ entry_uid e = uid ∧ sy_live s !! entry_ino e = None
  end →
  obliged p (recover uid) s = (sy_set_name None s, Ok ()).
Proof.
  destruct s as [[[u i|u i]|] lock live bound next]; simpl; [|by intros (? & _)|done].
  intros (_ & -> & Hd). rewrite bool_decide_true by done. simpl. rewrite Hd. simpl. by rewrite bool_decide_true.
Qed.
Lemma recover_live p s i q :
  sy_name s = Some (Sock uid i) → sy_live s !! i = Some q →
  obliged p (recover uid) s = (s, Err "IPC listener is already running").
Proof.
  destruct s as [nm lock live bound next]; simpl. intros -> Hq. simpl. rewrite bool_decide_true by done. simpl.
  by rewrite Hq.
Qed.
Lemma unix_bind_free p s : sy_name s = None →
  obliged p unix_bind s =
  (mkSystem (Some (Sock uid (sy_next s))) (sy_lock s) (<[sy_next s := Some p]> (sy_live s))
     (<[p := sy_next s]> (sy_bound s)) (S (sy_next s)), Ok ()).
Proof. destruct s as [nm lock live bound next]; simpl. intros ->. simpl. by rewrite lookup_insert_eq. Qed.


(** Up to the lock, in a private directory *)
Lemma bind_gets_lock p path name s :
  path_name path = Some name → sy_lock s = None →
  obliged p (mac_guard_bind uid path) s =
  obliged p (bind_locked uid (join (parent_or_here path) name)) (sy_set_lock (Some p) s).
Proof.
  intros Hname Hl. unfold mac_guard_bind. generalize (bind_locked uid). intros rest.
  rewrite Hname, obliged_try. cbn [obliged oblige call]. unfold parent_private. rewrite bool_decide_true by done.
  cbn [negb andb]. change (bool_decide _) with true. cbn [negb andb]. rewrite obliged_try. cbn [obliged oblige call].
  unfold lock_unsafe. rewrite bool_decide_true by done. change (_ || _) with false. cbn iota.
  rewrite obliged_try. cbn [obliged oblige call]. by rewrite bool_decide_true by (by left).
Qed.

(** A daemon can be restarted after a crash. Where calls do not fail, the lock is free
    and the endpoint is free or a socket that a crashed daemon of this user left, [bind]
    gives a guard of a fresh socket, which is the endpoint now and on which the daemon
    listens; and where somebody still listens, it refuses and leaves the system as it was. *)
Theorem restart_recovers p path name s :
  path_name path = Some name → sy_lock s = None →
  (abandoned s → ∃ g s', obliged p (mac_guard_bind uid path) s = (s', Ok g) ∧
     sg_identity g = sy_next s ∧ sy_name s' = Some (Sock uid (sy_next s)) ∧
     sy_lock s' = Some p ∧ sy_live s' = <[sy_next s := Some p]> (sy_live s)) ∧
  (∀ i q, sy_name s = Some (Sock uid i) → sy_live s !! i = Some q →
     obliged p (mac_guard_bind uid path) s = (s, Err "IPC listener is already running")).
Proof.
  intros Hname Hl. rewrite (bind_gets_lock p path name s Hname Hl). unfold bind_locked, unlocking.
  rewrite obliged_try, obliged_bind. split.
  - intros [_ Hab]. rewrite recover_abandoned by (by destruct s). cbn [obliged].
    rewrite obliged_try, obliged_bind, unix_bind_free by done. eexists _, _. split; [reflexivity|]. by destruct s.
  - intros i q Hn Hq. rewrite (recover_live p (sy_set_lock (Some p) s) i q) by done. simpl. unfold unlock. simpl.
    rewrite bool_decide_true by done. destruct s. simpl in Hl. by subst.
Qed.
End obliging.

(** One daemon serves, a second one is refused, and the next one after a crash serves. *)
Definition endpoint_path : PathBuf := [RootDir; Normal "run"; Normal "sledge.sock"].
Definition first_bind := obliged 501 1 (mac_guard_bind 501 endpoint_path) (mc_sys boot).
Definition second_bind := obliged 501 2 (mac_guard_bind 501 endpoint_path) first_bind.1.
Definition third_bind := obliged 501 3 (mac_guard_bind 501 endpoint_path) (close 1 (unlock 1 first_bind.1)).
Example binds :
  (first_bind.2, second_bind.2, third_bind.2, sy_name third_bind.1) =
  (Ok (mkSocketGuard endpoint_path 0), Err "Resource temporarily unavailable",
   Ok (mkSocketGuard endpoint_path 1), Some (Sock 501 1)).
Proof. vm_compute. reflexivity. Qed.

Lemma restart_recovers_witness :
  (∃ g s', obliged 501 3 (mac_guard_bind 501 endpoint_path) (close 1 (unlock 1 first_bind.1)) = (s', Ok g) ∧
     sy_name s' = Some (Sock 501 1)).
Proof.
  destruct (restart_recovers 501 3 endpoint_path "sledge.sock" (close 1 (unlock 1 first_bind.1))) as [Hok _];
    [reflexivity|vm_compute; reflexivity|].
  destruct Hok as (g & s' & Hr & _ & Hn & _); [vm_compute; repeat split; reflexivity|].
  exists g, s'. split; [exact Hr|exact Hn].
Defined.

Lemma endpoint_is_exclusive_witness :
  sy_name first_bind.1 = Some (Sock 501 0) ∧ sy_live first_bind.1 !! 0%nat = Some (Some 1%nat).
Proof.
  assert (running 501 false (mkMachine (mc_sys boot) {[1%nat := daemon_life 501 false endpoint_path]})) as Hr
    by (eapply running_step; [apply running_boot|by apply ms_start]).
  apply obliged_runs in Hr. destruct (endpoint_is_exclusive 501 false _ Hr) as [Hserve _].
  destruct (Hserve 1%nat _ (mkSocketGuard endpoint_path 0) (lookup_insert_eq _ _ _) eq_refl) as (_ & Hn & Hl).
  split; [exact Hn|exact Hl].
Defined.
