(* ===== verification/InstalledThm.v ===== *)
(** * The installed session's worker replaces keys only on proof

    Every execution of the worker's loops is an execution of the operations of
    DaemonThm.v, with the world moving on between them; so the audit of the calls to
    the handler holds of the worker from the admission to its end. *)

From S2P Require Import Prelude Event Rule MatcherInv Config Protocol Wire Transactions TransactionsThm.
From S2P Require Import Bridge BridgeThm Desktop Daemon Transport Admission AdmissionThm Installed DaemonThm.

#[export] Instance Recorded_matching : Matching (Recorded Handler) := {|
  matching := λ h, hd_matching h.1;
  set_matching := λ ms h, (hd_set_matching ms h.1, h.2);
|}.

(** The watcher hands over what the loader built. *)
Class WorkerLaws (W : Type) `{Worker W} : Prop := {
  reloads_loaded w : Forall (λ cfg, ∀ c, cfg = Ok c → loaded c) (wk_reloads w).2;
}.

Section refinement.
Context {W : Type} `{Artifacts, Files W, Link W, Acceptor W, WorkerLaws W}.
Implicit Types (se : Session) (w : W) (h : Recorded Handler).

(** Some operations lead from one state to the other. *)
Definition reaches (s s' : Session * W * Recorded Handler) : Prop := ∃ ops, session_run s ops s'.

Lemma reaches_refl s : reaches s s.
Proof. exists []. constructor. Qed.

Lemma session_run_app s ops1 s1 ops2 s2 :
  session_run s ops1 s1 → session_run s1 ops2 s2 → session_run s (ops1 ++ ops2) s2.
Proof. induction 1 as [| |]; intros Hr; simpl; [done|econstructor; eauto..]. Qed.

Lemma reaches_trans s s1 s2 : reaches s s1 → reaches s1 s2 → reaches s s2.
Proof. intros [ops1 Hr1] [ops2 Hr2]. exists (ops1 ++ ops2). by eapply session_run_app. Qed.

Lemma reaches_do op s s' :
  (∀ cfg, op = SReload (Ok cfg) → loaded cfg) → session_do op s = Some s' → reaches s s'.
Proof. intros Hc Hd. exists [op]. econstructor; [done|done|constructor]. Qed.

Lemma reaches_world se w w' h : reaches (se, w, h) (se, w', h).
Proof. exists []. eapply session_run_world. constructor. Qed.

Hint Resolve reaches_refl reaches_world : core.

(** ** Each call of the loops *)

Lemma catch_up_reaches se w h w' h' : catch_up w h = (w', h') → reaches (se, w, h) (se, w', h').
Proof.
  unfold catch_up. pose proof (reloads_loaded w) as Hl. destruct (wk_reloads w) as [w1 cfgs].
  simpl in Hl. intros [= <- <-]. eapply reaches_trans; [apply (reaches_world se w w1)|].
  revert h. induction Hl as [|cfg cfgs Hc Hl IH]; intros [h l]; [done|]. simpl.
  eapply reaches_trans; [|apply IH]. apply (reaches_do (SReload cfg)); [|done].
  intros c [= ->]. by apply Hc.
Qed.

Lemma bind_reaches se w h se' w' h' r :
  bind_session se w h = Some (se', w', h', r) → reaches (se, w, h) (se', w', h').
Proof.
  intros Hb. apply (reaches_do SBind); [done|]. revert Hb. destruct h as [h l]. unfold bind_session.
  simpl. destruct (bind_matcher se (hd_matching h)) as [[se1 ms] b]. by intros [= <- <- <- <-].
Qed.

Lemma reconnect_for_reaches fuel md duration se w h se' w' r :
  reconnect_for fuel md duration se w = Some (se', w', r) → reaches (se, w, h) (se', w', h).
Proof.
  unfold reconnect_for. destruct (admission_deadline_after _ _ w) as [w1 [deadline|e]];
    [|by intros [= <- <- <-]].
  unfold reconnect_verified.
  destruct (retry_hello _ _ _ w1) as [[w2 [b|e]]|] eqn:Hr; [|by intros [= <- <- <-]|done].
  intros [= <- <- <-]. apply retry_hello_answer in Hr as (w3 & Ha).
  apply attempt_hello_Ok in Ha as (fd & limit & w4 & w5 & w6 & w7 & _ & _ & _ & Hh).
  eapply reaches_trans; [apply (reaches_world se w w7)|].
  apply (reaches_do (SReconnect fd (passive_identity md) limit)); [done|].
  destruct h as [h l]. simpl. unfold session_reconnect. by rewrite Hh.
Qed.

Lemma reconnect_reaches rounds fuel md se w h se' w' h' r :
  reconnect_session rounds fuel md se w h = Some (se', w', h', r) →
  reaches (se, w, h) (se', w', h').
Proof.
  revert se w h. induction rounds as [|rounds IH]; intros se w h; [done|]. simpl.
  destruct (wk_stopped w) as [w1 stopped]. destruct stopped; [by intros [= <- <- <- <-]|].
  destruct (catch_up w1 h) as [w2 h2] eqn:Hc. apply (catch_up_reaches se) in Hc.
  destruct (reconnect_for fuel md 100000000 se w2) as [[[se3 w3] r3]|] eqn:Hr; [|done].
  apply (reconnect_for_reaches _ _ _ _ _ h2) in Hr.
  assert (reaches (se, w, h) (se3, w3, h2)) as Hr3.
  { eapply reaches_trans; [apply (reaches_world se w w1)|]. by eapply reaches_trans. }
  destruct r3 as [[]|e].
  - intros Hb%bind_reaches. by eapply reaches_trans.
  - case_bool_decide; [|by intros [= <- <- <- <-]]. intros Hl%IH. by eapply reaches_trans.
Qed.

Lemma run_session_reaches rounds fuel md se w h se' w' h' r :
  run_session rounds fuel md se w h = Some (se', w', h', r) → reaches (se, w, h) (se', w', h').
Proof.
  revert se w h. induction rounds as [|rounds IH]; intros se w h; [done|]. cbn [run_session].
  destruct (wk_stopped w) as [w1 stopped]. destruct stopped; [by intros [= <- <- <- <-]|].
  destruct (catch_up w1 h) as [w2 h2] eqn:Hc. apply (catch_up_reaches se) in Hc.
  assert (reaches (se, w, h) (se, w2, h2)) as Hr2
    by (eapply reaches_trans; [apply (reaches_world se w w1)|done]).
  destruct (l_monotonic_ns w2) as [w3 [n|e]].
  2:{ intros [= <- <- <- <-]. eapply reaches_trans; [exact Hr2|apply reaches_world]. }
  intros (deadline & _ & ([[[se4 w4] h4] step] & Hs & Hk)%bind_Some)%bind_Some.
  assert (reaches (se, w, h) (se4, w4, h4)) as Hr4.
  { eapply reaches_trans; [exact Hr2|]. eapply reaches_trans; [apply (reaches_world se w2 w3)|].
    apply (reaches_do (SStep deadline)); [done|]. destruct h2 as [h2 l2]. cbn [session_do].
    change (Handler * list Call)%type with (Recorded Handler). by rewrite Hs. }
  set (h5 := set_matching (publish_health se4 (matching h4)) h4) in Hk.
  assert (reaches (se, w, h) (se4, w4, h5)) as Hr5.
  { eapply reaches_trans; [exact Hr4|]. apply (reaches_do SHealth); [done|]. by destruct h4 as [h4 l4]. }
  destruct (_ || _); [|apply IH in Hk; by eapply reaches_trans].
  apply bind_Some in Hk as ([[se6 w6] h6] & Hq & ([[[se7 w7] h7] r7] & Hr & Hk)%bind_Some).
  assert (reaches (se, w, h) (se6, w6, h6)) as Hr6.
  { eapply reaches_trans; [exact Hr5|]. apply (reaches_do SRequest); [done|]. by destruct h5 as [hh ll]. }
  apply reconnect_reaches in Hr.
  assert (reaches (se, w, h) (se7, w7, h7)) as Hr7 by (by eapply reaches_trans).
  destruct r7 as [[]|f]; [apply IH in Hk; by eapply reaches_trans|by injection Hk as <- <- <- <-].
Qed.

(** What the worker's calls to the handler are like when it ends. *)
Definition proved_calls (l : list Call) : Prop :=
  ∀ l1 scope e d l2, l = l1 ++ CPropose scope e d :: l2 → d ≠ Wire.Pass →
    ∃ k1 s b k2, l1 = k1 ++ CReset s b :: k2 ∧ b = Wire.Reset 8 ∧ Wire.generation s = 0 ∧
      (CDisconnected ∉ k2).

Lemma installed_run_audited cfg0 cfg mask env queue ms rounds fuel admitted w w'
    (h' : Handler) (l : list Call) r :
  loaded cfg0 → loaded cfg →
  install (E := string) (MatchingState_new cfg0) (Ok cfg) mask = Ok ms →
  installed_run (H := Recorded Handler) rounds fuel admitted w (mkHandler env 0 ms queue false, []) =
    Some (w', (h', l), r) →
  proved_calls l ∧
  (l = [] ∨ ∃ l', l = l' ++ [CDisconnected] ∧ tx_replacement_disabled (ms_hyprland (hd_matching h')) = true).
Proof.
  intros Hc0 Hc Hms. pose proof (installed_inv _ _ _ _ Hc0 Hc Hms) as Hi.
  unfold installed_run. set (h0 := (mkHandler env 0 ms queue false, []) : Recorded Handler).
  assert (proved_calls []) as Hnil by (by intros [] ? ? ? ?).
  destruct (if bool_decide _ then _ else _) as [[]|e]; [|intros [= <- <- <- <-]; by split; [|left]].
  destruct (l_monotonic_ns w) as [w1 [n|e]]; [|intros [= <- <- <- <-]; by split; [|left]].
  intros (deadline & _ & ([w2 accepted] & _ & Hk)%bind_Some)%bind_Some.
  destruct accepted as [se|e]; [|injection Hk as <- <- <- <-; by split; [|left]].
  apply bind_Some in Hk as ([[[se3 w3] h3] bound] & Hb & Hk).
  unfold bind_session in Hb. simpl in Hb.
  destruct (bind_matcher se ms) as [[se4 ms4] ok] eqn:Hbind. injection Hb as <- <- <- <-.
  destruct ok; [|injection Hk as <- <- <- <-; by split; [|left]].
  apply bind_Some in Hk as ([[[se5 w5] [h5 l5]] r5] & Hrun & [= <- <- <- <-]).
  apply run_session_reaches in Hrun as [ops Hrun].
  assert (AuditInv (Handler_disconnected h5, l5 ++ [CDisconnected])) as Ha.
  { apply (kp_disconnected _ AuditInv_keeps (h5, l5)).
    apply (session_run_audit _ _ _ Hrun). by eapply (bound_audit se ms se4 ms4 env 0 queue false). }
  split; [intros l1 scope e d l2 Hl Hd; by eapply audit_proved|]. right. exists l5.
  split; [done|]. simpl. unfold disconnected. by repeat case_match.
Qed.

(** C2. End to end, the compositor is told to replace or swallow a key only on proof.
    Run the worker of an installed session, with any loaded configurations at start-up
    and at installation, any packets, errors, reconnections, stops and reloads by the
    watcher in between. When it ends, whatever the result, every proposal of the
    daemon's handler that was not a pass came after the compositor's global
    [Reset(8)], with no disconnection since; so after any transport error, protocol
    violation or uncertain delivery the keyboard passes through until the compositor
    attests a clean state again. Once the handler was used, its last call is the
    disconnection, which disables matching. *)
Theorem worker_replaces_only_proved cfg0 cfg mask env queue ms rounds fuel admitted w w'
    (h' : Handler) (l : list Call) r :
  loaded cfg0 → loaded cfg →
  install (E := string) (MatchingState_new cfg0) (Ok cfg) mask = Ok ms →
  installed_run (H := Recorded Handler) rounds fuel admitted w (mkHandler env 0 ms queue false, []) =
    Some (w', (h', l), r) →
  (∀ l1 scope e d l2, l = l1 ++ CPropose scope e d :: l2 → d ≠ Wire.Pass →
     ∃ k1 s b k2, l1 = k1 ++ CReset s b :: k2 ∧ b = Wire.Reset 8 ∧ Wire.generation s = 0 ∧
       (CDisconnected ∉ k2)) ∧
  (l = [] ∨ ∃ l', l = l' ++ [CDisconnected] ∧ tx_replacement_disabled (ms_hyprland (hd_matching h')) = true).
Proof. intros Hc0 Hc Hms Hrun. by eapply installed_run_audited. Qed.
End refinement.

(** ** A worker on concrete input

    The compositor connects, proves a clean state and reports a press of KeyA; the
    worker is stopped when the inbox is empty. *)

#[export] Instance sim_worker : Worker SimLink := {|
  wk_stopped := λ w, (w, bool_decide (length (sl_inbox w) = 0%nat));
  wk_reloads := λ w, (w, [Ok a_to_b_config; Err "unreadable"]);
|}.
#[export] Instance sim_worker_laws : WorkerLaws SimLink.
Proof. split. intros w. repeat constructor; intros c [=]; subst; by eexists. Qed.

Definition replaced_ack : Wire.Packet :=
  Wire.mkPacket (sim_scope 4 2) (Wire.BodyOutcome (Wire.mkOutcome Wire.Replaced 0 30 1 2)).
Definition worker_world : SimLink :=
  mkSimLink 1000 [sim_hello; Wire.mkPacket (sim_scope 0 1) (Wire.Reset 8); sim_press; replaced_ack] [].
Definition worker_handler : Recorded Handler := (mkHandler quiet_env 0 installed_state None false, []).
Definition worker_end : SimLink * Recorded Handler * result Failure unit :=
  default (worker_world, worker_handler, Err FArgument)
    (installed_run 10 2 sim_admitted worker_world worker_handler).

Lemma worker_ends :
  installed_run 10 2 sim_admitted worker_world worker_handler =
    Some (worker_end.1.1, (worker_end.1.2.1, worker_end.1.2.2), worker_end.2).
Proof.
  unfold worker_end. destruct (installed_run 10 2 _ _ _) as [[[w [h l]] r]|] eqn:E; [done|].
  exfalso. apply (f_equal (λ x, bool_decide (is_Some (snd <$> x)))) in E. vm_compute in E. discriminate E.
Defined.

Lemma worker_log :
  worker_end.1.2.2 =
    [CReset (sim_scope 0 1) (Wire.Reset 8)] ++
    CPropose (sim_scope 4 2) sim_event (Wire.Replace 48 0) :: drop 2 worker_end.1.2.2.
Proof. vm_compute. reflexivity. Defined.

(** The press of KeyA is replaced by KeyB, after the proof. *)
Lemma worker_replaces_only_proved_witness :
  ∃ l1 l2, worker_end.1.2.2 =
    l1 ++ CPropose (sim_scope 4 2) sim_event (Wire.Replace 48 0) :: l2 ∧
  ∃ k1 s bd k2, l1 = k1 ++ CReset s bd :: k2 ∧ bd = Wire.Reset 8 ∧ Wire.generation s = 0 ∧
    (CDisconnected ∉ k2).
Proof.
  eexists _, _. split; [exact worker_log|].
  refine (proj1 (worker_replaces_only_proved a_to_b_config a_to_b_config FRESH_DOWN_SEND_KEY quiet_env
    None installed_state 10 2 sim_admitted worker_world worker_end.1.1 worker_end.1.2.1
    worker_end.1.2.2 worker_end.2 _ _ _ worker_ends) _ _ _ _ _ worker_log _).
  - by eexists.
  - by eexists.
  - reflexivity.
  - done.
Defined.
