(* ===== verification/Research.v ===== *)
(** * The research listener (packages/cli/src/daemon/hyprland_research.rs)

    The isolated listener of the compositor research: it admits one process, keeps the
    same bridge and handler over reconnections, and steps it until it is told to stop.
    Other threads act through the class [Worker], as for the installed session. *)

From Stdlib Require Import Strings.Byte.
From S2P Require Import Prelude Event Rule MatcherInv Config Bytes Protocol Wire Transactions TransactionsThm.
From S2P Require Import Bridge BridgeThm Desktop Daemon Transport Admission AdmissionThm Installed.
From S2P Require Import DaemonThm InstalledThm.
Import Byte(byte).

(** [HyprlandResearchArgs] *)
Record ResearchArgs : Type := mkResearchArgs {
  ra_socket : option string;
  ra_pid : option Z;
  ra_api_hash : option (list byte);
  ra_artifact : option (list byte);
}.

(** The checks of [ResearchListener::bind] on its arguments. *)
Definition research_text (v : list byte) : bool :=
  negb (bool_decide (v = [])) && bool_decide (length v ≤ 192)%nat && negb (bool_decide (x00 ∈ v)).
Definition research_identity (args : ResearchArgs) (euid : Z) :
    result Failure (option (Peer * Wire.Identity)) :=
  match ra_socket args with
  | None => Ok None
  | Some _ =>
      match ra_pid args, ra_api_hash args, ra_artifact args with
      | Some pid, Some api_hash, Some artifact =>
          if bool_decide (0 < pid) && research_text api_hash && research_text artifact
          then Ok (Some (mkPeer euid pid, Wire.mkIdentity 0 api_hash artifact))
          else Err FArgument
      | _, _, _ => Err FArgument
      end
  end.

Section research.
Context {W H : Type} `{Link W, Acceptor W, Worker W, EventHandler H, Matching H}.

(** [monotonic_ns()? + n] *)
Definition clock_plus (n : Z) (w : W) : option (W * Wire.IoResult Z) :=
  match l_monotonic_ns w with
  | (w, Err e) => Some (w, Err e)
  | (w, Ok t) => sum ← checked_add_u64 t n; Some (w, Ok sum)
  end.

(** The admission loop of [run]; [Ok None] when it was stopped. *)
Fixpoint research_admit (rounds : nat) (peer : Peer) (admission_deadline : Z) (w : W) :
    option (W * result Failure (option Z)) :=
  match rounds with
  | O => None
  | S rounds =>
      let '(w, stopped) := wk_stopped w in
      if stopped then Some (w, Ok None)
      else
        match clock_plus 100000000 w with
        | None => None
        | Some (w, Err e) => Some (w, Err (FIo e))
        | Some (w, Ok slice) =>
            match accept_peer w peer (Z.min admission_deadline slice) with
            | (w, Ok fd) => Some (w, Ok (Some fd))
            | (w, Err e) =>
                if bool_decide (e = TimedOut) then
                  match l_monotonic_ns w with
                  | (w, Err e') => Some (w, Err (FIo e'))
                  | (w, Ok now) =>
                      if bool_decide (now < admission_deadline)
                      then research_admit rounds peer admission_deadline w
                      else Some (w, Err (FIo e))
                  end
                else Some (w, Err (FIo e))
            end
        end
  end.

(** [hyprland.await_reconciliation(matcher, nonce)], whose answer is not used *)
Definition await_nonce (nonce : Z) (h : H) : H :=
  set_matching (ms_set_tx
    (await_reconciliation (ms_hyprland (matching h)) (ms_matcher (matching h)) nonce).1
    (matching h)) h.

(** The inner loop of [run] after a lost transport; the flag says whether to go on. *)
Fixpoint research_reconnect (rounds : nat) (peer : Peer) (identity : Wire.Identity)
    (b : Bridge) (w : W) (h : H) : option (Bridge * W * H * result Failure bool) :=
  match rounds with
  | O => None
  | S rounds =>
      let '(w, stopped) := wk_stopped w in
      if stopped then Some (b, w, h, Ok false)
      else
        let '(w, h) := catch_up w h in
        match clock_plus 100000000 w with
        | None => None
        | Some (w, Err e) => Some (b, w, h, Err (FIo e))
        | Some (w, Ok deadline) =>
            match accept_peer w peer deadline with
            | (w, Err e) =>
                if bool_decide (e = TimedOut) then research_reconnect rounds peer identity b w h
                else Some (b, w, h, Err (FIo e))
            | (w, Ok fd) =>
                match clock_plus 10000000 w with
                | None => None
                | Some (w, Err e) => Some (b, w, h, Err (FIo e))
                | Some (w, Ok deadline) =>
                    match reconnect b fd identity deadline w with
                    | (w, Err e) => Some (b, w, h, Err (FIo e))
                    | (w, Ok b) => Some (b, w, await_nonce (br_nonce b) h, Ok true)
                    end
                end
            end
        end
  end.

(** The main loop of [run], and the disconnection at its end. *)
Fixpoint research_loop (rounds : nat) (peer : Peer) (identity : Wire.Identity)
    (b : Bridge) (w : W) (h : H) : option (W * H * result Failure unit) :=
  match rounds with
  | O => None
  | S rounds =>
      let '(w, stopped) := wk_stopped w in
      if stopped then Some (w, h_disconnected h, Ok ())
      else
        let '(w, h) := catch_up w h in
        match clock_plus 100000000 w with
        | None => None
        | Some (w, Err e) => Some (w, h, Err (FIo e))
        | Some (w, Ok deadline) =>
            match research_step_if_ready deadline (b, w, h) with
            | None => None
            | Some ((b, w, h), Ok _) => research_loop rounds peer identity b w h
            | Some ((b, w, h), Err _) =>
                match research_reconnect rounds peer identity b w h with
                | None => None
                | Some (b, w, h, Err f) => Some (w, h, Err f)
                | Some (b, w, h, Ok false) => Some (w, h, Ok ())
                | Some (b, w, h, Ok true) => research_loop rounds peer identity b w h
                end
            end
        end
  end.

(** [ResearchListener::run] *)
Definition research_run (rounds : nat) (peer : Peer) (identity : Wire.Identity) (w : W) (h : H) :
    option (W * H * result Failure unit) :=
  match clock_plus 60000000000 w with
  | None => None
  | Some (w, Err e) => Some (w, h, Err (FIo e))
  | Some (w, Ok admission_deadline) =>
      match research_admit rounds peer admission_deadline w with
      | None => None
      | Some (w, Err f) => Some (w, h, Err f)
      | Some (w, Ok None) => Some (w, h, Ok ())
      | Some (w, Ok (Some fd)) =>
          match clock_plus 10000000 w with
          | None => None
          | Some (w, Err e) => Some (w, h, Err (FIo e))
          | Some (w, Ok deadline) =>
              match passive_handshake fd identity deadline w with
              | (w, Err e) => Some (w, h, Err (FIo e))
              | (w, Ok b) =>
                  let '(w, h) := catch_up w h in
                  research_loop rounds peer identity b w (await_nonce (br_nonce b) h)
              end
          end
      end
  end.
End research.

(** ** Replacements only on proof *)

Section audit.
Context {W : Type} `{Link W, Acceptor W, WorkerLaws W}.
Implicit Types (w : W) (h : Recorded Handler).

Lemma catch_up_audit w h w' h' : catch_up w h = (w', h') → AuditInv h → AuditInv h'.
Proof.
  unfold catch_up. pose proof (reloads_loaded w) as Hl. destruct (wk_reloads w) as [w1 cfgs].
  simpl in Hl. intros [= <- <-]. revert h.
  induction Hl as [|cfg cfgs Hc Hl IH]; intros [h l] Ha; [done|]. simpl. apply IH.
  apply audit_narrows; [done|]. apply reload_narrows; [done|apply Ha].
Qed.

Lemma await_audit n h : AuditInv h → AuditInv (await_nonce n h).
Proof.
  destruct h as [h l]. intros Ha. apply audit_narrows; [done|].
  pose proof (await_narrows _ _ n (au_tx _ Ha)) as Hn.
  unfold ms_tx in *. simpl in *. by destruct (await_reconciliation _ _ n) as [[t m] ok].
Qed.

Lemma research_reconnect_audit rounds peer identity : ∀ b w h b' w' h' r,
  research_reconnect rounds peer identity b w h = Some (b', w', h', r) → AuditInv h → AuditInv h'.
Proof.
  induction rounds as [|rounds IH]; intros b w h b' w' h' r; [done|]. cbn [research_reconnect].
  destruct (wk_stopped w) as [w1 []]; [by intros [= <- <- <- <-]|].
  destruct (catch_up w1 h) as [w2 h2] eqn:Hc. intros Hr Ha. apply (catch_up_audit _ _ _ _ Hc) in Ha.
  revert Hr. destruct (clock_plus _ w2) as [[w3 [d|e]]|]; [|by intros [= <- <- <- <-]|done].
  destruct (accept_peer w3 peer d) as [w4 [fd|e]].
  2:{ case_bool_decide; [intros Hr; by eapply IH|by intros [= <- <- <- <-]]. }
  destruct (clock_plus _ w4) as [[w5 [d5|e]]|]; [|by intros [= <- <- <- <-]|done].
  destruct (reconnect b fd identity d5 w5) as [w6 [b6|e]]; intros [= <- <- <- <-]; [|done].
  by apply await_audit.
Qed.

Lemma research_loop_audit rounds peer identity : ∀ b w h w' h' r,
  research_loop rounds peer identity b w h = Some (w', h', r) → AuditInv h → AuditInv h'.
Proof.
  induction rounds as [|rounds IH]; intros b w h w' h' r; [done|]. cbn [research_loop].
  destruct (wk_stopped w) as [w1 []].
  { intros [= <- <- <-]. apply (kp_disconnected _ AuditInv_keeps). }
  destruct (catch_up w1 h) as [w2 h2] eqn:Hc. intros Hr Ha. apply (catch_up_audit _ _ _ _ Hc) in Ha.
  revert Hr. destruct (clock_plus _ w2) as [[w3 [d|e]]|]; [|by intros [= <- <- <-]|done].
  destruct (research_step_if_ready d (b, w3, h2)) as [[[[b4 w4] h4] r4]|] eqn:Hs; [|done].
  eapply (safe_ready _ AuditInv_keeps) in Hs; [|done]. simpl in Hs.
  destruct r4 as [x|e]; [by intros Hr; eapply IH|].
  destruct (research_reconnect _ _ _ b4 w4 h4) as [[[[b5 w5] h5] r5]|] eqn:Hr5; [|done].
  apply research_reconnect_audit in Hr5; [|done].
  destruct r5 as [[]|f]; [by intros Hr; eapply IH|by intros [= <- <- <-]..].
Qed.

(** Nothing was asked of the compositor yet. *)
Definition unproved (ms : MatchingState) : Prop :=
  TxInv (ms_tx ms) ∧ tx_recovery_nonce (ms_hyprland ms) = None ∧
  tx_previous_recovery_nonce (ms_hyprland ms) = None.

Lemma reload_unproved ms cfg :
  (∀ c, cfg = Ok c → loaded c) → unproved ms → unproved (reload (E := string) ms cfg).1.
Proof.
  intros Hc (Hi & Hn & Hp). split; [by apply reload_narrows|]. unfold reload.
  destruct cfg as [c|e]; [|done]. destruct (_ && _); [done|].
  unfold MatchingState_replace, invalidate_speculation. simpl. by case_bool_decide.
Qed.

Lemma catch_up_unproved w (h : Handler) w' h' :
  catch_up w (h, []) = (w', h') → unproved (hd_matching h) →
  h'.2 = [] ∧ unproved (hd_matching h'.1).
Proof.
  unfold catch_up. pose proof (reloads_loaded w) as Hl. destruct (wk_reloads w) as [w1 cfgs].
  simpl in Hl. intros [= <- <-]. revert h.
  induction Hl as [|cfg cfgs Hc Hl IH]; intros h Hu; [done|]. apply IH. by apply reload_unproved.
Qed.

(** The first proof is asked for before anything is proposed. *)
Lemma first_await_closes t m n :
  TxInv (t, m) → n ≠ 0 → tx_recovery_nonce t = None → tx_previous_recovery_nonce t = None →
  TxInv (await_reconciliation t m n).1 ∧ is_open (gate (await_reconciliation t m n).1.1) = false.
Proof.
  intros Hi Hn0 Hn Hp. split; [by apply await_inv|].
  pose proof (tx_step_gate (t, m) (TxAwait n)) as Hg. simpl in Hg.
  destruct (await_reconciliation t m n) as [[t' m'] ok] eqn:Ha. specialize (Hg _ _ Hi eq_refl).
  assert (ok = true) as ->.
  { revert Ha. unfold await_reconciliation. rewrite Hn, Hp. repeat rewrite bool_decide_false by done.
    simpl. by intros [= _ _ <-]. }
  simpl in *. destruct Hg as [_ ->]. done.
Qed.
Lemma await_unproved n (h : Handler) :
  n ≠ 0 → unproved (hd_matching h) → AuditInv (await_nonce n (h, [])).
Proof.
  intros Hn0 (Hi & Hn & Hp). destruct (first_await_closes _ _ n Hi Hn0 Hn Hp) as [Hi1 Hg1].
  unfold await_nonce. simpl. destruct (await_reconciliation _ _ n) as [[t m] ok].
  split; [done| |by intros []]. unfold handler_tx, ms_tx. simpl in *. by rewrite Hg1.
Qed.

(** Over the whole life of the research listener, from its admission over any number of
    lost connections to its end, every proposal that was not a pass came after the
    compositor's global [Reset(8)] with no disconnection since. *)
Theorem research_replaces_only_proved cfg env queue rounds peer identity w w' (h' : Handler) l r :
  loaded cfg →
  research_run (H := Recorded Handler) rounds peer identity w
    (mkHandler env 0 (MatchingState_new cfg) queue false, []) = Some (w', (h', l), r) →
  ∀ l1 scope e d l2, l = l1 ++ CPropose scope e d :: l2 → d ≠ Wire.Pass →
    ∃ k1 s b k2, l1 = k1 ++ CReset s b :: k2 ∧ b = Wire.Reset 8 ∧ Wire.generation s = 0 ∧
      (CDisconnected ∉ k2).
Proof.
  intros Hc Hrun l1 scope e d l2 Hl Hd. cut (l = [] ∨ AuditInv (h', l)).
  { intros [->|Ha]; [by destruct l1|by eapply audit_proved]. }
  clear Hl Hd. revert Hrun. set (h0 := mkHandler env 0 (MatchingState_new cfg) queue false).
  assert (unproved (hd_matching h0)) as Hu.
  { destruct Hc as [rules Er]. split; [|done]. unfold ms_tx. simpl. rewrite Er.
    split; simpl; try done. apply MatcherInv_new, RuleSet_new_inv. }
  unfold research_run.
  destruct (clock_plus _ w) as [[w1 [d1|e1]]|]; [|intros [= <- <- <- <-]; by left|done].
  destruct (research_admit _ _ d1 w1) as [[w2 [[fd|]|f]]|]; [|intros [= <- <- <- <-]; by left..|done].
  destruct (clock_plus _ w2) as [[w3 [d3|e3]]|]; [|intros [= <- <- <- <-]; by left|done].
  destruct (passive_handshake fd identity d3 w3) as [w4 [b|e4]] eqn:Hh;
    [|intros [= <- <- <- <-]; by left].
  apply passive_handshake_Ok in Hh as (_ & _ & Hn).
  destruct (catch_up (H := Recorded Handler) w4 (h0, [])) as [w5 [h5 l5]] eqn:Hcu.
  apply catch_up_unproved in Hcu as [Hl5 Hu5]; [|done]. simpl in Hl5, Hu5. subst l5.
  intros Hr. right. eapply research_loop_audit in Hr; [done|]. by apply await_unproved.
Qed.
End audit.

(** On concrete input: the compositor proves a clean state and reports a press of KeyA,
    which is replaced by KeyB; the listener is stopped when the inbox is empty. *)
Example research_replaces :
  (λ o, take 2 o.1.2.2) <$> research_run 10 (mkPeer 1000 42) (passive_identity (am_metadata sim_admitted))
    worker_world (mkHandler quiet_env 0 (MatchingState_new a_to_b_config) None false, [] : list Call) =
  Some (take 2 worker_end.1.2.2).
Proof. vm_compute. reflexivity. Qed.
