(* ===== verification/Fixture.v ===== *)
(** * The research fixture (packages/linux/examples/hyprland_research_peer.rs) and the
      matcher adapter it uses ([MatcherAdapter] of packages/linux/src/hyprland/matcher.rs)

    The bounded peer of an isolated compositor: one rule, at most one injected fault, a
    limit on packets and on reconnections. Its lines of evidence are values. Time is read
    from a clock indexed by the proposals. *)

From Stdlib Require Import Strings.Byte.
From S2P Require Import Prelude Event Rule MatcherInv Config Bytes Text Protocol Wire Transactions TransactionsThm.
From S2P Require Import Bridge BridgeThm Desktop Daemon Transport Admission AdmissionThm Installed.
From S2P Require Import DaemonThm InstalledThm Research.
Import Byte(byte).

(** ** [MatcherAdapter] *)

Record MatcherAdapter : Type := mkAdapter { ad_matcher : Matcher; ad_transactions : MatcherTransactions }.
Definition ad_tx (self : MatcherAdapter) : TxM := (ad_transactions self, ad_matcher self).
Definition ad_of (s : TxM) : MatcherAdapter := mkAdapter s.2 s.1.
(** [new] *)
Definition MatcherAdapter_new (matcher : Matcher) : MatcherAdapter := mkAdapter matcher Tx_default.
(** [focus] *)
Definition adapter_focus (event : Wire.Event) : option FocusIdentity := event_focus event.
(** [propose] and [propose_with_source] *)
Definition adapter_propose (self : MatcherAdapter) (scope : Wire.Scope) (event : Wire.Event)
    (focused_app : option string) (now : Z) : option (MatcherAdapter * Wire.IoResult Wire.Decision) :=
  '(t, m, _, r) ← propose (ad_transactions self) (ad_matcher self) scope event focused_app now;
  Some (mkAdapter m t, r).
Definition adapter_propose_with_source {S} (submit_source : S → string → S * bool) (self : MatcherAdapter) (s : S)
    (scope : Wire.Scope) (event : Wire.Event) (focused_app : option string) (now : Z) :
    option (MatcherAdapter * S * Wire.IoResult Wire.Decision) :=
  '(t, m, s, r) ←
    propose_with_source submit_source (ad_transactions self) (ad_matcher self) s scope event focused_app now;
  Some (mkAdapter m t, s, r).
(** [settle_device_event], [on_delivery], [invalidate_speculation] *)
Definition adapter_settle (self : MatcherAdapter) (scope : Wire.Scope) (event : Wire.Event)
    (report : DeliveryReport) : MatcherAdapter * bool :=
  let '(s, ok) := settle_device_event (ad_transactions self) (ad_matcher self) scope event report in
  (ad_of s, ok).
Definition adapter_on_delivery (self : MatcherAdapter) (scope : Wire.Scope) (report : DeliveryReport) :
    MatcherAdapter * bool :=
  let '(s, ok) := on_delivery (ad_transactions self) (ad_matcher self) scope report in (ad_of s, ok).
Definition adapter_invalidate (self : MatcherAdapter) : MatcherAdapter :=
  ad_of (invalidate_speculation (ad_transactions self) (ad_matcher self)).
(** [await_reconciliation], [reconciled], [await_lifecycle_reconciliation] *)
Definition adapter_await (self : MatcherAdapter) (nonce : Z) : MatcherAdapter * bool :=
  let '(s, ok) := await_reconciliation (ad_transactions self) (ad_matcher self) nonce in (ad_of s, ok).
Definition adapter_reconciled (self : MatcherAdapter) (scope : Wire.Scope) (body : Wire.Body) :
    MatcherAdapter * bool :=
  let '(s, ok) := reconciled (ad_transactions self) (ad_matcher self) scope body in (ad_of s, ok).
Definition adapter_await_lifecycle (self : MatcherAdapter) (scope : Wire.Scope) (body : Wire.Body) :
    MatcherAdapter * bool :=
  let '(s, ok) := await_lifecycle_reconciliation (ad_transactions self) (ad_matcher self) scope body in
  (ad_of s, ok).
(** [retire_device], [disconnected] *)
Definition adapter_retire (self : MatcherAdapter) (generation : Z) : MatcherAdapter :=
  ad_of (retire_device (ad_transactions self) (ad_matcher self) generation).
Definition adapter_disconnected (self : MatcherAdapter) : MatcherAdapter :=
  ad_of (disconnected (ad_transactions self) (ad_matcher self)).

(** ** Options *)

Record Options : Type := mkOptions {
  op_endpoint : string;
  op_pid : Z;
  op_identity : Wire.Identity;
  op_packets : Z;
  op_reconnects : Z;
  op_ms : Z;
  op_fault : ResearchFault;
  op_index : Z;
  op_category : option FocusCategory;
  op_app : option string;
  op_mods : Modifiers;
}.

(** [fixture_app] *)
Definition fixture_app (category : option FocusCategory) (argument : option string) :
    option (option string) :=
  let app := a ← argument; if bool_decide (a = "") then None else Some a in
  if bool_decide (is_Some category) && bool_decide (app = None) then None else Some app.

(** The words of the positional arguments *)
Definition fault_of (name : string) (delay : Z) : option ResearchFault :=
  if bool_decide (name = "normal") then Some Fault_None
  else if bool_decide (name = "delay-decision") then Some (DelayDecision (from_millis delay))
  else if bool_decide (name = "drop-decision") then Some DropDecision
  else if bool_decide (name = "disconnect-before-decision") then Some DisconnectBeforeDecision
  else if bool_decide (name = "disconnect-after-decision") then Some DisconnectAfterDecision
  else None.
Definition category_of (name : string) : option (option FocusCategory) :=
  if bool_decide (name = "any") then Some None
  else if bool_decide (name = "wayland") then Some (Some Wayland)
  else if bool_decide (name = "x11") then Some (Some X11Class)
  else None.
Definition mods_of (name : string) : option Modifiers :=
  if bool_decide (name = "none") then Some mods_empty
  else if bool_decide (name = "shift") then Some SHIFT
  else None.
(** [args.get(i).map_or(Ok(d), parse)] *)
Definition optional {A} (args : list string) (i : nat) (d : A) (parse : string → option A) : option A :=
  match args !! i with Some s => parse s | None => Some d end.

(** [options]; every failure is the same error. *)
Definition options (args : list string) : option Options :=
  if negb (bool_decide (6 ≤ length args ≤ 13)%nat) then None
  else
    pid ← args !! 1%nat ≫= parse_i32;
    packets ← args !! 4%nat ≫= parse_below u32_max;
    ms ← args !! 5%nat ≫= parse_below u64_max;
    index ← optional args 7 1 (parse_below u64_max);
    delay ← optional args 8 20 (parse_below u64_max);
    if bool_decide (pid ≤ 0) || negb (bool_decide (1 ≤ packets ≤ 65536)) ||
       negb (bool_decide (1 ≤ ms ≤ 60000)) || bool_decide (index = 0) || bool_decide (1000 < delay)
    then None
    else
      fault ← fault_of (default "normal" (args !! 6%nat)) delay;
      category ← category_of (default "any" (args !! 9%nat));
      app ← fixture_app category (args !! 10%nat);
      reconnects ← optional args 12 0 (parse_below u32_max);
      if bool_decide (4 < reconnects) then None
      else
        mods ← mods_of (default "none" (args !! 11%nat));
        endpoint ← args !! 0%nat;
        api_hash ← args !! 2%nat;
        artifact ← args !! 3%nat;
        Some (mkOptions endpoint pid
          (Wire.mkIdentity 0 (String.list_byte_of_string api_hash) (String.list_byte_of_string artifact))
          packets reconnects ms fault index category app mods).

(** ** The handler *)

(** The lines of evidence, with the index of the connection *)
Inductive Evidence : Type :=
  | EvConnection (connection nonce : Z)
  | EvFault (connection : Z) (scope : Wire.Scope) (selected : ResearchFault)
  | EvOutcome (connection : Z) (scope : Wire.Scope) (event : Wire.Event) (decision : Wire.Decision)
      (report : DeliveryReport)
  | EvReconciliation (connection : Z) (scope : Wire.Scope) (accepted : bool)
  | EvLifecycle (connection : Z) (scope : Wire.Scope) (armed : bool)
  | EvControl (connection : Z) (scope : Wire.Scope) (body : Wire.Body)
  | EvDisconnect (connection nonce : Z) (error : IoErrorKind).

Record Fixture : Type := mkFixture {
  fx_adapter : MatcherAdapter;
  fx_proposals : Z;
  fx_connection : Z;
  fx_fault_used : bool;
  fx_fault : ResearchFault;
  fx_index : Z;
  fx_category : option FocusCategory;
  fx_app : option string;
  fx_evidence : list Evidence;
  (** [Instant::now] at each proposal *)
  fx_now : Z → Z;
}.
Definition fx_set_adapter a (f : Fixture) : Fixture :=
  mkFixture a (fx_proposals f) (fx_connection f) (fx_fault_used f) (fx_fault f) (fx_index f)
    (fx_category f) (fx_app f) (fx_evidence f) (fx_now f).
Definition fx_push e (f : Fixture) : Fixture :=
  mkFixture (fx_adapter f) (fx_proposals f) (fx_connection f) (fx_fault_used f) (fx_fault f) (fx_index f)
    (fx_category f) (fx_app f) (fx_evidence f ++ [e]) (fx_now f).
Definition fx_connected c (f : Fixture) : Fixture :=
  mkFixture (fx_adapter f) (fx_proposals f) c (fx_fault_used f) (fx_fault f) (fx_index f)
    (fx_category f) (fx_app f) (fx_evidence f) (fx_now f).

(** [Handler::propose] *)
Definition fixture_propose (self : Fixture) (scope : Wire.Scope) (event : Wire.Event) :
    option (Fixture * Wire.Decision) :=
  let n := fx_proposals self + 1 in
  let wanted (f : FocusIdentity) :=
    match fx_category self with Some c => bool_decide (c = fi_category f) | None => true end &&
    match fx_app self with Some a => bool_decide (a = fi_value f) | None => true end in
  let app := f ← adapter_focus event; if wanted f then Some (fi_value f) else None in
  '(adapter, r) ← adapter_propose (fx_adapter self) scope event app (fx_now self n);
  Some (mkFixture adapter n (fx_connection self) (fx_fault_used self) (fx_fault self) (fx_index self)
          (fx_category self) (fx_app self) (fx_evidence self) (fx_now self),
        match r with Ok d => d | Err _ => Wire.Pass end).

(** [Handler::research_fault] *)
Definition fixture_fault (self : Fixture) (scope : Wire.Scope) : Fixture * ResearchFault :=
  if fx_fault_used self || negb (bool_decide (fx_proposals self = fx_index self))
  then (self, Fault_None)
  else
    (mkFixture (fx_adapter self) (fx_proposals self) (fx_connection self) true (fx_fault self) (fx_index self)
       (fx_category self) (fx_app self)
       (fx_evidence self ++ [EvFault (fx_connection self) scope (fx_fault self)]) (fx_now self),
     fx_fault self).

(** [Handler::delivery] *)
Definition fixture_delivery (self : Fixture) (scope : Wire.Scope) (event : Wire.Event)
    (decision : Wire.Decision) (report : DeliveryReport) : Fixture :=
  let adapter :=
    if negb (bool_decide (Wire.ev_state event = 1))
    then (adapter_settle (fx_adapter self) scope event report).1
    else (adapter_on_delivery (fx_adapter self) scope report).1 in
  fx_push (EvOutcome (fx_connection self) scope event decision report) (fx_set_adapter adapter self).

(** [Handler::reset] *)
Definition is_reset3 (body : Wire.Body) : bool := match body with Wire.Reset 3 => true | _ => false end.
Definition fixture_reset (self : Fixture) (scope : Wire.Scope) (body : Wire.Body) : Fixture :=
  let c := fx_connection self in
  let self :=
    if is_reason8 body then
      let '(a, accepted) := adapter_reconciled (fx_adapter self) scope body in
      fx_push (EvReconciliation c scope accepted) (fx_set_adapter a self)
    else if is_reset3 body && bool_decide (Wire.generation scope = 0) then
      let '(a, armed) := adapter_await_lifecycle (fx_adapter self) scope body in
      let a := if negb armed then adapter_invalidate a else a in
      fx_push (EvLifecycle c scope armed) (fx_set_adapter a self)
    else if is_retire body then
      fx_set_adapter (adapter_retire (fx_adapter self) (Wire.generation scope)) self
    else fx_set_adapter (adapter_invalidate (fx_adapter self)) self in
  fx_push (EvControl c scope body) self.

(** [impl EventHandler for Handler], with the trait's defaults *)
#[export] Instance Fixture_handler : EventHandler Fixture := {|
  h_modifier_release_actions := λ _, false;
  h_propose := fixture_propose;
  h_causal_trace := λ f _, f;
  h_research_fault := λ f scope _, fixture_fault f scope;
  h_delivery := fixture_delivery;
  h_reset := fixture_reset;
  h_unlocked_epoch := fixture_reset;
  h_disconnected := λ f, fx_set_adapter (adapter_disconnected (fx_adapter f)) f;
|}.

(** [handler]: the rule that turns A into B *)
Definition fixture_rule (o : Options) : Rule :=
  mkRule (Hotkey (mkHotkeyTrigger KeyA (op_mods o))) (SendKey KeyB mods_empty) ((λ a, [a]) <$> op_app o).
Definition fixture_handler (o : Options) (now : Z → Z) : Fixture :=
  mkFixture (MatcherAdapter_new (Matcher_new (RuleSet_new [fixture_rule o]))) 0 0 false (op_fault o)
    (op_index o) (op_category o) (op_app o) [] now.

(** ** [run] *)

(** [Listener::bind] *)
Class Binder (W : Type) : Type := bind_endpoint : W → string → W * Wire.IoResult unit.

Section run.
Context {W : Type} `{Link W, Acceptor W, Binder W} (euid : Z).

(** The closure [admission] after a lost connection *)
Definition readmit (o : Options) (deadline : Z) (b : Bridge) (w : W) (h : Recorded Fixture) :
    option (Bridge * W * Recorded Fixture * Wire.IoResult unit) :=
  match accept_peer w (mkPeer euid (op_pid o)) deadline with
  | (w, Err e) => Some (b, w, h, Err e)
  | (w, Ok fd) =>
      match clock_plus 10000000 w with
      | None => None
      | Some (w, Err e) => Some (b, w, h, Err e)
      | Some (w, Ok limit) =>
          match reconnect b fd (op_identity o) (Z.min deadline limit) w with
          | (w, Err e) => Some (b, w, h, Err e)
          | (w, Ok b) =>
              let '(f, l) := h in
              let '(a, bound) := adapter_await (fx_adapter f) (br_nonce b) in
              let f := fx_set_adapter a f in
              if negb bound then Some (b, w, (f, l), Err InvalidData)
              else
                let f := fx_connected (fx_connection f + 1) f in
                Some (b, w, (fx_push (EvConnection (fx_connection f) (br_nonce b)) f, l), Ok ())
          end
      end
  end.

(** [for _ in 0..options.packets] *)
Fixpoint fixture_loop (packets : nat) (o : Options) (deadline : Z) (b : Bridge) (w : W)
    (h : Recorded Fixture) : option (W * Recorded Fixture * Wire.IoResult unit) :=
  match packets with
  | O => Some (w, h, Ok ())
  | S packets =>
      match research_step deadline (b, w, h) with
      | None => None
      | Some ((b, w, h), Ok _) => fixture_loop packets o deadline b w h
      | Some ((b, w, (f, l)), Err e) =>
          let f := fx_push (EvDisconnect (fx_connection f) (br_nonce b) e) f in
          if bool_decide (op_reconnects o ≤ fx_connection f) then Some (w, (f, l), Err e)
          else
            match readmit o deadline b w (f, l) with
            | None => None
            | Some (b, w, h, Ok _) => fixture_loop packets o deadline b w h
            | Some (b, w, h, Err e) => Some (w, h, Err e)
            end
      end
  end.

(** [run] on parsed options; without a handler when it ends before there is one *)
Definition fixture_run (o : Options) (now : Z → Z) (w : W) :
    option (W * option (Recorded Fixture) * Wire.IoResult unit) :=
  match bind_endpoint w (op_endpoint o) with
  | (w, Err e) => Some (w, None, Err e)
  | (w, Ok _) =>
      match clock_plus (op_ms o * 1000000) w with
      | None => None
      | Some (w, Err e) => Some (w, None, Err e)
      | Some (w, Ok deadline) =>
          match accept_peer w (mkPeer euid (op_pid o)) deadline with
          | (w, Err e) => Some (w, None, Err e)
          | (w, Ok fd) =>
              match clock_plus 10000000 w with
              | None => None
              | Some (w, Err e) => Some (w, None, Err e)
              | Some (w, Ok limit) =>
                  match passive_handshake fd (op_identity o) (Z.min deadline limit) w with
                  | (w, Err e) => Some (w, None, Err e)
                  | (w, Ok b) =>
                      let f := fixture_handler o now in
                      let f := fx_set_adapter (adapter_await (fx_adapter f) (br_nonce b)).1 f in
                      let f := fx_push (EvConnection 0 (br_nonce b)) f in
                      '(w, h, r) ← fixture_loop (Z.to_nat (op_packets o)) o deadline b w (f, []);
                      Some (w, Some h, r)
                  end
              end
          end
      end
  end.
End run.

(** ** The fixture is bounded and replaces only on proof *)

Definition fx_tx (f : Fixture) : TxM := ad_tx (fx_adapter f).
Lemma ad_of_tx s : ad_tx (ad_of s) = s.
Proof. by destruct s. Qed.
(** The transactions of an adapter after an operation of the transactions *)
Lemma adapter_tx (r : TxM * bool) : ad_tx (let '(s, ok) := r in (ad_of s, ok)).1 = r.1.
Proof. by destruct r as [[t m] ok]. Qed.

Definition opening (f f' : Fixture) (proved : Prop) : Prop :=
  TxInv (fx_tx f') ∧
  (is_open (gate (fx_tx f').1) = true → is_open (gate (fx_tx f).1) = true ∨ proved).

Lemma narrows_opening f f' (P : Prop) : tx_narrows (fx_tx f) (fx_tx f') → opening f f' P.
Proof. intros [Hi Hn]. split; auto. Qed.

Lemma fixture_propose_spec f s e f' d :
  TxInv (fx_tx f) → fixture_propose f s e = Some (f', d) →
  opening f f' False ∧ (d ≠ Wire.Pass → is_open (gate (fx_tx f).1) = true).
Proof.
  intros Hi. unfold fixture_propose, adapter_propose, propose.
  intros ([a r] & ([[[t m] q] r1] & Hp & [= <- <-])%bind_Some & [= <- <-])%bind_Some.
  apply propose_narrows in Hp as [Hn Hd]; [|done]. split; [by apply narrows_opening|done].
Qed.

Lemma fixture_delivery_spec f s e d r :
  TxInv (fx_tx f) → opening f (fixture_delivery f s e d r) False.
Proof.
  intros Hi. apply narrows_opening. unfold fixture_delivery. destruct (negb _).
  - change (tx_narrows (fx_tx f) (ad_tx (adapter_settle (fx_adapter f) s e r).1)).
    unfold adapter_settle. rewrite adapter_tx.
    apply keep_or_close; [by apply settle_inv|by apply gate_settle].
  - change (tx_narrows (fx_tx f) (ad_tx (adapter_on_delivery (fx_adapter f) s r).1)).
    unfold adapter_on_delivery. rewrite adapter_tx.
    apply keep_or_close; [by apply on_delivery_inv|by apply gate_on_delivery].
Qed.

Lemma fixture_reset_spec f s b :
  TxInv (fx_tx f) →
  opening f (fixture_reset f s b) (is_reason8 b = true ∧ Wire.generation s = 0).
Proof.
  intros Hi. unfold fixture_reset. destruct (is_reason8 b) eqn:H8.
  - unfold adapter_reconciled.
    pose proof (reconciled_cases (ad_transactions (fx_adapter f)) (ad_matcher (fx_adapter f)) s b Hi) as Hc.
    destruct (reconciled _ _ s b) as [s1 ok]. destruct Hc as (Hi1 & Hok & Hno).
    unfold opening, fx_tx. cbn [fx_adapter fx_push fx_set_adapter]. rewrite ad_of_tx. split; [done|].
    intros Ho. destruct ok; [right; by destruct (Hok eq_refl)|]. left. by rewrite (Hno eq_refl) in Ho.
  - apply narrows_opening. destruct (_ && _).
    + unfold adapter_await_lifecycle.
      pose proof (lifecycle_narrows (ad_transactions (fx_adapter f)) (ad_matcher (fx_adapter f)) s b Hi) as Hn.
      destruct (await_lifecycle_reconciliation _ _ s b) as [[t m] armed]. unfold fx_tx.
      cbn [fx_adapter fx_push fx_set_adapter]. destruct armed; [exact Hn|].
      eapply tx_narrows_trans; [exact Hn|]. unfold adapter_invalidate. cbn [negb]. rewrite ad_of_tx.
      apply invalidate_narrows, Hn.
    + destruct (is_retire b); unfold fx_tx; cbn [fx_adapter fx_push fx_set_adapter];
        unfold adapter_retire, adapter_invalidate; rewrite ad_of_tx;
        [by apply retire_narrows|by apply invalidate_narrows].
Qed.

(** The faults on record, and the invariant of the handler: at most one fault, none before
    one is due, and the connection it belongs to *)
Definition is_fault (e : Evidence) : nat := match e with EvFault _ _ _ => 1 | _ => 0 end.
Definition faults (f : Fixture) : nat := sum_list_with is_fault (fx_evidence f).
Definition one_shot (connection : Z) (f : Fixture) : Prop :=
  faults f = (if fx_fault_used f then 1 else 0)%nat ∧ fx_connection f = connection.

Lemma one_shot_push c f e : is_fault e = 0%nat → one_shot c f → one_shot c (fx_push e f).
Proof.
  unfold one_shot, faults. intros He [Hf Hc]. simpl. rewrite sum_list_with_app. simpl.
  split; [lia|done].
Qed.
Lemma one_shot_reset c f s b : one_shot c f → one_shot c (fixture_reset f s b).
Proof.
  intros Hf. unfold fixture_reset. apply one_shot_push; [done|].
  repeat case_match; try exact Hf; by apply one_shot_push.
Qed.

(** A recorded fixture on its [c]-th connection *)
Definition FixtureInv (c : Z) (h : Recorded Fixture) : Prop := Audited fx_tx h ∧ one_shot c h.1.

Lemma FixtureInv_keeps c : keeps (FixtureInv c).
Proof.
  split.
  - intros [f l] s e [f' l'] d [Ha Hf]. simpl. intros ([f1 d1] & Hp & [= <- <- <-])%bind_Some.
    destruct (fixture_propose_spec f s e f1 d1 (au_tx _ Ha) Hp) as [[H1 H2] H3]. split.
    + eapply audit_extend; [done|done|naive_solver|done|]. by intros s' e' d' [= <- <- <-].
    + unfold fixture_propose in Hp. apply bind_Some in Hp as ([a r] & _ & [= <- <-]). exact Hf.
  - intros [f l] t [Ha Hf]. split; [|done]. eapply audit_extend; [done|apply Ha|auto|done|done].
  - intros [f l] s e [Ha Hf]. cbn. unfold fixture_fault. destruct (fx_fault_used f) eqn:Hu.
    { split; [|done]. eapply audit_extend; [done|apply Ha|auto|done|done]. }
    destruct (negb _); cbn.
    { split; [|done]. eapply audit_extend; [done|apply Ha|auto|done|done]. }
    split; [eapply audit_extend; [done|apply Ha|auto|done|done]|].
    destruct Hf as [Hf Hc]. simpl in Hf. rewrite Hu in Hf. split; [|done]. unfold faults in *. simpl.
    rewrite sum_list_with_app, Hf. done.
  - intros [f l] s e d r [Ha Hf]. destruct (fixture_delivery_spec f s e d r (au_tx _ Ha)) as [H1 H2]. split.
    + eapply audit_extend; [done|done|naive_solver|done|done].
    + by apply one_shot_push.
  - intros [f l] s b [Ha Hf]. destruct (fixture_reset_spec f s b (au_tx _ Ha)) as [H1 H2].
    split; [|by apply one_shot_reset].
    eapply audit_extend; [done|done| |done|done]. intros [?|[Hr Hg]]%H2; [auto|]. right. simpl.
    by rewrite Hr, bool_decide_true.
  - intros [f l] s b Hb [Ha Hf]. destruct (fixture_reset_spec f s b (au_tx _ Ha)) as [H1 H2].
    split; [|by apply one_shot_reset].
    eapply audit_extend; [done|done| |done|done]. intros [?|[Hr _]]%H2; [auto|]. by destruct b.
  - intros [f l] [Ha Hf]. split; [|done]. eapply audit_extend; [done| |done|done|done].
    apply (disconnected_inv (ad_transactions (fx_adapter f)) (ad_matcher (fx_adapter f))), Ha.
Qed.

Section bounded.
Context {W : Type} `{Link W, Acceptor W, Binder W} (euid : Z).

Lemma readmit_inv o deadline b (w : W) h b' w' h' r c :
  readmit euid o deadline b w h = Some (b', w', h', r) → FixtureInv c h →
  FixtureInv (if is_ok r then c + 1 else c) h'.
Proof.
  unfold readmit. destruct (accept_peer w _ deadline) as [w1 [fd|e]]; [|by intros [= <- <- <- <-]].
  destruct (clock_plus 10000000 w1) as [[w2 [limit|e]]|]; [|by intros [= <- <- <- <-]|done].
  destruct (reconnect b fd _ _ w2) as [w3 [b3|e]]; [|by intros [= <- <- <- <-]].
  destruct h as [f l]. intros Hr [Ha [Hf Hc]].
  pose proof (await_narrows _ _ (br_nonce b3) (au_tx _ Ha)) as Hn.
  unfold adapter_await in Hr. simpl in Hn. destruct (await_reconciliation _ _ (br_nonce b3)) as [[t m] bound].
  destruct bound; simpl in Hr; injection Hr as <- <- <- <-; (split; [by eapply audited_narrows|]).
  - split; [|cbn; simpl in Hc; lia]. unfold faults in *. simpl in *. rewrite sum_list_with_app. simpl. lia.
  - by split.
Qed.

Lemma fixture_loop_inv packets o deadline : ∀ b (w : W) h w' h' r c,
  fixture_loop euid packets o deadline b w h = Some (w', h', r) →
  FixtureInv c h → 0 ≤ c ≤ op_reconnects o → ∃ c', FixtureInv c' h' ∧ 0 ≤ c' ≤ op_reconnects o.
Proof.
  induction packets as [|packets IH]; intros b w h w' h' r c; cbn [fixture_loop].
  { intros [= <- <- <-]. by eauto. }
  destruct (research_step deadline (b, w, h)) as [[[[b1 w1] h1] r1]|] eqn:Hs; [|done]. intros Hl Hi Hc.
  pose proof (safe_step _ (FixtureInv_keeps c) _ _ (b, w, h) _ _ Hi Hs) as Hi1. cbn [snd] in Hi1.
  destruct h1 as [f l]. destruct r1 as [[]|e]; [by eapply IH|].
  set (f1 := fx_push _ f) in Hl.
  assert (FixtureInv c (f1, l)) as Hi2.
  { destruct Hi1 as [Ha Hf]. split; [|by apply one_shot_push]. eapply audited_narrows; [exact Ha|].
    split; [apply Ha|done]. }
  assert (fx_connection f1 = c) as Hcon by apply Hi2. rewrite Hcon in Hl.
  destruct (bool_decide (op_reconnects o ≤ c)) eqn:Hb; [injection Hl as <- <- <-; by eauto|]. bools.
  destruct (readmit _ _ _ b1 w1 (f1, l)) as [[[[b2 w2] h2] r2]|] eqn:Hr; [|done].
  apply readmit_inv with (c := c) in Hr; [|done].
  destruct r2 as [[]|e2]; simpl in Hr; [|injection Hl as <- <- <-; by eauto].
  eapply IH; [exact Hl|exact Hr|lia].
Qed.

Lemma options_bounds args o :
  options args = Some o →
  0 < op_pid o ∧ 1 ≤ op_packets o ≤ 65536 ∧ 1 ≤ op_ms o ≤ 60000 ∧ 0 ≤ op_reconnects o ≤ 4 ∧
  op_index o ≠ 0 ∧ Wire.capabilities (op_identity o) = 0 ∧
  (is_Some (op_category o) → is_Some (op_app o)).
Proof.
  unfold options. destruct (negb _); [done|].
  intros (pid & _ & (packets & _ & (ms & _ & (index & _ & (delay & _ & Hk)%bind_Some)%bind_Some)%bind_Some)%bind_Some)%bind_Some.
  destruct (_ || _) eqn:Hb; [done|]. bools.
  apply bind_Some in Hk as (fault & _ & (category & _ & (app & Happ & (rec & Hrec & Hk)%bind_Some)%bind_Some)%bind_Some).
  destruct (bool_decide (4 < rec)) eqn:Hr4; [done|]. bools.
  apply bind_Some in Hk as (mods & _ & (ep & _ & (hash & _ & (art & _ & [= <-])%bind_Some)%bind_Some)%bind_Some).
  assert (0 ≤ rec) as Hr0.
  { unfold optional in Hrec. destruct (args !! 12%nat); [|by simplify_eq].
    apply bind_Some in Hrec as (n & Hn%parse_u64_nonneg & Hrec); [|done]. by case_bool_decide; simplify_eq. }
  simpl. split_and!; try done; try lia. intros [cat ->]. revert Happ. unfold fixture_app.
  destruct (args !! 10%nat ≫= _) as [a|]; [by intros [= <-]; eexists|].
  rewrite !bool_decide_true; [done|done|by eexists].
Qed.

End bounded.

(** ** A run that drops its first decision

    The compositor proves a clean state and reports a press of KeyA; the fixture proposes
    KeyB and drops the decision, and its one reconnection finds nobody. *)

#[local] Instance sim_binder : Binder SimLink := λ w _, (w, Ok ()).
Definition drop_args : list string :=
  ["/run/r.sock"; "42"; d_sdk_api_hash (vm_descriptor sim_metadata); d_build_id (vm_descriptor sim_metadata);
   "20"; "1000"; "drop-decision"; "1"; "20"; "any"; ""; "none"; "1"].
Definition drop_options : Options := default
  (mkOptions "" 0 sim_identity 0 0 0 Fault_None 0 None None mods_empty) (options drop_args).
Definition drop_run : option (SimLink * option (Recorded Fixture) * Wire.IoResult unit) :=
  fixture_run 1000 drop_options (λ n, n) worker_world.

