(* ===== verification/Startup.v ===== *)
(** * The daemon's life on Linux (packages/cli/src: [run_linux] and [SignalThread] of
      daemon/linux.rs, daemon/desktop.rs, the listeners' [bind]; packages/linux/src:
      the set-up of [LinuxBackend])

    [run_linux] verifies the registration, starts the parts of the daemon one after the
    other, runs one loop until it ends, and stops the parts again. A part is a local
    variable whose drop stops it: the model keeps the list of live locals, from which
    early returns and the end of the function drop the latest first. The parts' own work
    is modelled elsewhere; here the class [Host] starts and stops them, and [Loops] runs
    the loop: [None] while it still runs, and else with a log [L] of what it did. *)

From Stdlib Require Import Strings.Byte.
From stdpp Require Import pretty.
From S2P Require Import Prelude Event Rule Config Bytes Protocol Wire Authorization Sink Client Transactions Desktop Daemon.
From S2P Require Import Transport Admission AdmissionThm BridgeThm Installed Research Control.
Import Byte(byte).

(** ** Arguments (cli.rs) *)

Inductive LinuxDesktop : Type := Gnome | Kwin | Sway | Hyprland | X11.
Inductive LinuxInputMethod : Type := Ibus | Fcitx5.
(** [RunArgs] *)
Record RunArgs : Type := mkRunArgs {
  stdout_logs : bool;
  linux_broker_socket : option string;
  linux_desktop : option LinuxDesktop;
  linux_desktop_socket : option string;
  linux_x11_screen : Z;
  linux_x11_cookie : option string;
  linux_hyprland_research : ResearchArgs;
  linux_hyprland_registration : option string;
  linux_hyprland_socket : option string;
  linux_hyprland_pid : option Z;
  linux_input_method : option LinuxInputMethod;
}.

(** ** What the daemon starts *)

(** The adapters, with what they connect to *)
Inductive Adapter : Type :=
  | AdaptGnome | AdaptKwin | AdaptSway (socket : string) | AdaptHyprland (socket : string)
  | AdaptX11 (stream : Z) (screen : Z) (cookie : list byte).

(** The locals of [run_linux] whose drop stops something *)
Inductive Part : Type :=
  | DesktopPart | SourcePart | ResearchPart | InstalledPart | RuntimePart | SocketPart | SignalPart | WatcherPart.
#[export] Instance Part_eq_dec : EqDecision Part.
Proof. solve_decision. Defined.

(** Which loop runs, and with what *)
Inductive Loop : Type := InstalledLoop | ResearchLoop | BrokerLoop | TapLoop.
#[export] Instance Loop_eq_dec : EqDecision Loop.
Proof. solve_decision. Defined.
Inductive Engine : Type :=
  | RunInstalled (metadata : AdmittedMetadata)
  | RunResearch (peer : Peer) (identity : Wire.Identity)
  | RunBroker (connection : option Z).
Definition loop_of (e : Engine) : Loop :=
  match e with
  | RunInstalled _ => InstalledLoop | RunResearch _ _ => ResearchLoop
  | RunBroker _ => BrokerLoop
  end.

Inductive StartError : Type := SInstalled (f : Failure) | SBackend (e : BackendError) | SMessage (m : string).

(** [load_from_file] on the file system, with the error's message *)
Class Loader (W : Type) : Type := load_config : W → string → W * result string Config.

Class Host (W : Type) : Type := {
  ho_read : W → string → W * result string (list byte);
  ho_connect : W → string → W * result string Z;
  ho_geteuid : W → Z;
  ho_peer : W → Z → W * result string PeerIdentity;
  ho_timeouts : W → Z → W * result string unit;
  (** connecting an adapter or an input method, and dropping an adapter *)
  ho_adapter : W → Adapter → W * result string unit;
  ho_method : W → LinuxInputMethod → W * result string unit;
  ho_drop_adapter : W → Adapter → W;
  ho_desktop : W → Adapter → option LinuxInputMethod → W;
  (** the source worker's thread, the two listeners, the runtime and the control socket *)
  ho_sources : W → W * result string unit;
  ho_listener : W → string → W * result string unit;
  ho_runtime : W → W * result string unit;
  ho_default_socket : W → W * result string string;
  ho_guard : W → string → W * result string unit;
  ho_nonblocking : W → W * result string unit;
  ho_from_std : W → W * result string unit;
  ho_serve : W → W;
  ho_signals : W → W * result string unit;
  ho_watcher : W → W * bool;
  (** the drop of a part *)
  ho_release : W → Part → W;
}.

(** The loops, on the matching state and whether there is a source queue; the tap of macOS *)
Class Loops (W L : Type) : Type :=
  run_loop : Engine → MatchingState → bool → W → option (W * L * result StartError unit).
Class Taps (W L : Type) : Type :=
  run_tap : MatchingState → W → option (W * L * result StartError unit).

(** What happened to the parts, in order *)
Inductive Act : Type := Opened (p : Part) | Released (p : Part) | Ran (l : Loop).
#[export] Instance Act_eq_dec : EqDecision Act.
Proof. solve_decision. Defined.

Section startup.
Context {W L : Type} `{Loader W, Host W, Artifacts, Files W, !Loops W L, !Taps W L}.

(** The world, the live locals (the latest first) and the history *)
Record Frame : Type := mkFrame { fr_world : W; fr_live : list Part; fr_acts : list Act }.
Definition SU (X : Type) : Type := Frame → Frame * result StartError X.
#[global] Instance SU_ret : MRet SU := λ X x s, (s, Ok x).
#[global] Instance SU_bind : MBind SU := λ X Y f m s,
  match m s with
  | (s, Ok x) => f x s
  | (s, Err e) => (s, Err e)
  end.
Definition su_fail {X} (e : StartError) : SU X := λ s, (s, Err e).

(** A call that starts nothing, a call that starts a part, and the drop of a live part *)
Definition use {E X} (wrap : E → StartError) (m : W → W * result E X) : SU X := λ s,
  let '(w, r) := m (fr_world s) in
  (mkFrame w (fr_live s) (fr_acts s), match r with Ok x => Ok x | Err e => Err (wrap e) end).
Definition opens (p : Part) (m : W → W * result string unit) : SU unit := λ s,
  match m (fr_world s) with
  | (w, Ok x) => (mkFrame w (p :: fr_live s) (fr_acts s ++ [Opened p]), Ok x)
  | (w, Err e) => (mkFrame w (fr_live s) (fr_acts s), Err (SMessage e))
  end.
Definition drop_part (p : Part) (s : Frame) : Frame :=
  if bool_decide (p ∈ fr_live s)
  then mkFrame (ho_release (fr_world s) p) (filter (λ q, q ≠ p) (fr_live s)) (fr_acts s ++ [Released p])
  else s.
(** The end of the function drops the live locals, the latest first. *)
Definition unwind (s : Frame) : W * list Act :=
  let s := fold_left (λ s p, drop_part p s) (fr_live s) s in (fr_world s, fr_acts s).

(** ** The desktop adapter (daemon/desktop.rs) *)

Definition desktop_socket (args : RunArgs) : result string string :=
  match linux_desktop_socket args with
  | Some path => Ok path
  | None => Err "selected desktop requires --linux-desktop-socket"
  end.

(** The adapter that was asked for; X11's cookie and connection come first. *)
Definition choose_adapter (args : RunArgs) (selected : LinuxDesktop) (w : W) : W * result string Adapter :=
  match selected with
  | Gnome => (w, Ok AdaptGnome)
  | Kwin => (w, Ok AdaptKwin)
  | Sway => (w, socket ← desktop_socket args; Ok (AdaptSway socket))
  | Hyprland => (w, socket ← desktop_socket args; Ok (AdaptHyprland socket))
  | X11 =>
      match linux_x11_cookie args with
      | None => (w, Err "X11 requires --linux-x11-cookie with raw MIT-MAGIC-COOKIE-1 bytes")
      | Some cookie_path =>
          match ho_read w cookie_path with
          | (w, Err e) => (w, Err e)
          | (w, Ok cookie) =>
              if negb (bool_decide (length cookie = 16%nat))
              then (w, Err "MIT-MAGIC-COOKIE-1 must contain exactly 16 raw bytes")
              else
                match desktop_socket args with
                | Err e => (w, Err e)
                | Ok socket =>
                    match ho_connect w socket with
                    | (w, Err e) => (w, Err e)
                    | (w, Ok stream) => (w, Ok (AdaptX11 stream (linux_x11_screen args) cookie))
                    end
                end
          end
      end
  end.

(** [desktop::start] *)
Definition desktop_start (args : RunArgs) (w : W) : W * result string (option (Adapter * option LinuxInputMethod)) :=
  match linux_desktop args with
  | None => (w, Ok None)
  | Some selected =>
      match choose_adapter args selected w with
      | (w, Err e) => (w, Err e)
      | (w, Ok provider) =>
          match ho_adapter w provider with
          | (w, Err e) => (w, Err e)
          | (w, Ok _) =>
              match linux_input_method args with
              | None => (ho_desktop w provider None, Ok (Some (provider, None)))
              | Some method =>
                  match ho_method w method with
                  | (w, Err e) => (ho_drop_adapter w provider, Err e)
                  | (w, Ok _) => (ho_desktop w provider (Some method), Ok (Some (provider, Some method)))
                  end
              end
          end
      end
  end.

(** ** The broker's client (backend.rs) *)

Definition backend_io (e : string) : BackendError := Other (String.append "Linux broker: " e).
(** [LinuxBackend::connect_broker]: the connection it keeps *)
Definition connect_broker (path : string) (w : W) : W * result BackendError Z :=
  if bool_decide (ho_geteuid w = 0)
  then (w, Err (MissingPermission "Linux daemon must run as the desktop user, not root"))
  else
    match ho_connect w path with
    | (w, Err e) => (w, Err (backend_io e))
    | (w, Ok socket) =>
        match ho_peer w socket with
        | (w, Err e) => (w, Err (backend_io e))
        | (w, Ok peer) =>
            if negb (bool_decide (Authorization.uid peer = 0)) || bool_decide (Authorization.pid peer ≤ 0)
            then (w, Err (MissingPermission "broker peer is not privileged"))
            else
              match ho_timeouts w socket with
              | (w, Err e) => (w, Err (backend_io e))
              | (w, Ok _) => (w, Ok socket)
              end
        end
    end.

(** ** [run_linux] *)

(** The check and replacement of the rules for an installed session *)
Definition admit_rules (config_path : string) (initial : MatchingState)
    (metadata : option AdmittedMetadata) : SU MatchingState :=
  match metadata with
  | None => mret initial
  | Some metadata => λ s,
      let '(w, config) := load_config (fr_world s) config_path in
      let s := mkFrame w (fr_live s) (fr_acts s) in
      match install initial config (am_feature_mask metadata) with
      | Ok state => (s, Ok state)
      | Err (Some e) => (s, Err (SMessage e))
      | Err None => (s, Err (SMessage "Hyprland admission requires send_key actions; taps require revision2/mask3"))
      end
  end.

(** [desktop::start] as a part; whether there is one *)
Definition open_desktop (args : RunArgs) : SU bool := λ s,
  match desktop_start args (fr_world s) with
  | (w, Err e) => (mkFrame w (fr_live s) (fr_acts s), Err (SMessage e))
  | (w, Ok None) => (mkFrame w (fr_live s) (fr_acts s), Ok false)
  | (w, Ok (Some _)) => (mkFrame w (DesktopPart :: fr_live s) (fr_acts s ++ [Opened DesktopPart]), Ok true)
  end.

(** [ResearchListener::bind] and [InstalledListener::bind] *)
Definition open_research (args : ResearchArgs) : SU (option (Peer * Wire.Identity)) := λ s,
  match research_identity args (ho_geteuid (fr_world s)), ra_socket args with
  | Err e, _ => (s, Err (SInstalled e))
  | Ok (Some listener), Some path =>
      (opens ResearchPart (λ w, ho_listener w path) ≫= λ _, mret (Some listener)) s
  | _, _ => (s, Ok None)
  end.
Definition open_installed (args : RunArgs) (metadata : option AdmittedMetadata) : SU unit :=
  match metadata with
  | None => mret ()
  | Some _ =>
      match linux_hyprland_socket args with
      | None => su_fail (SMessage "installed Hyprland endpoint required")
      | Some path => opens InstalledPart (λ w, ho_listener w path)
      end
  end.

(** The watcher's absence is no error. *)
Definition open_watcher : SU unit := λ s,
  match ho_watcher (fr_world s) with
  | (w, true) => (mkFrame w (WatcherPart :: fr_live s) (fr_acts s ++ [Opened WatcherPart]), Ok ())
  | (w, false) => (mkFrame w (fr_live s) (fr_acts s), Ok ())
  end.

(** The [match] that runs one loop; the listeners end with it. *)
Definition which_engine (installed : option AdmittedMetadata)
    (research : option (Peer * Wire.Identity)) (broker : option Z) : Engine :=
  match installed, research with
  | Some metadata, _ => RunInstalled metadata
  | None, Some (peer, identity) => RunResearch peer identity
  | None, None => RunBroker broker
  end.
Definition run_one (e : Engine) (state : MatchingState) (sources : bool) (s : Frame) :
    option (Frame * L * result StartError unit) :=
  '(w, log, r) ← run_loop e state sources (fr_world s);
  let s := mkFrame w (fr_live s) (fr_acts s ++ [Ran (loop_of e)]) in
  Some (drop_part ResearchPart (drop_part InstalledPart s), log, r).

(** Up to the loop: the matching state, whether there is a source queue, and the loop *)
Definition start_parts (socket : option string) (args : RunArgs) (config_path : string)
    (initial : MatchingState) : SU (MatchingState * bool * Engine) :=
  metadata ← use SInstalled (prepare (linux_hyprland_registration args) (linux_hyprland_pid args));
  state ← admit_rules config_path initial metadata;
  desktop ← open_desktop args;
  broker ← match linux_broker_socket args with
           | Some path => fd ← use SBackend (connect_broker path); mret (Some fd)
           | None => mret None
           end;
  (if desktop : bool then opens SourcePart ho_sources else mret ());;
  research ← open_research (linux_hyprland_research args);
  open_installed args metadata;;
  opens RuntimePart ho_runtime;;
  path ← match socket with Some path => mret path | None => use SMessage ho_default_socket end;
  opens SocketPart (λ w, ho_guard w path);;
  use SMessage ho_nonblocking;;
  use SMessage ho_from_std;;
  use SMessage (λ w, (ho_serve w, Ok ()));;
  opens SignalPart ho_signals;;
  open_watcher;;
  mret (state, desktop, which_engine metadata research broker).

(** The whole: after the loop the runtime, the source worker and the desktop are stopped. *)
Definition run_linux (socket : option string) (args : RunArgs) (config_path : string)
    (initial : MatchingState) (w : W) : option (W * list Act * option L * result StartError unit) :=
  match start_parts socket args config_path initial (mkFrame w [] []) with
  | (s, Err e) => let '(w, acts) := unwind s in Some (w, acts, None, Err e)
  | (s, Ok (state, sources, engine)) =>
      '(s, log, result) ← run_one engine state sources s;
      let s := drop_part RuntimePart s in
      let s := drop_part SourcePart s in
      let s := drop_part DesktopPart s in
      let '(w, acts) := unwind s in
      Some (w, acts, Some log, result)
  end.

(** ** [run_macos] (daemon.rs) *)

(** [logging::default_socket_path], on XDG_RUNTIME_DIR *)
Definition mac_default_socket (xdg : option string) (uid : Z) : string :=
  match xdg with
  | Some run => String.append run "/sledge.sock"
  | None => String.append "/tmp/sledge-" (String.append (pretty uid) ".sock")
  end.

(** Up to the tap; the signal thread is not kept, so it is not a part. *)
Definition start_macos (socket xdg : option string) : SU unit :=
  opens RuntimePart ho_runtime;;
  path ← (λ s, (s, Ok (match socket with Some path => path | None => mac_default_socket xdg (ho_geteuid (fr_world s)) end)));
  opens SocketPart (λ w, ho_guard w path);;
  use SMessage ho_nonblocking;;
  use SMessage ho_from_std;;
  use SMessage (λ w, (ho_serve w, Ok ()));;
  use SMessage ho_signals;;
  open_watcher.
Definition run_macos (socket xdg : option string) (initial : MatchingState) (w : W) :
    option (W * list Act * option L * result StartError unit) :=
  match start_macos socket xdg (mkFrame w [] []) with
  | (s, Err e) => let '(w, acts) := unwind s in Some (w, acts, None, Err e)
  | (s, Ok _) =>
      '(w, log, result) ← run_tap initial (fr_world s);
      let s := mkFrame w (fr_live s) (fr_acts s ++ [Ran TapLoop]) in
      let s := drop_part RuntimePart s in
      let s := drop_part SocketPart s in
      let '(w, acts) := unwind s in
      Some (w, acts, Some log, result)
  end.
End startup.

(** ** Everything that was started is stopped *)

(** The order of declaration *)
Definition rank (p : Part) : nat :=
  match p with
  | DesktopPart => 0 | SourcePart => 1 | ResearchPart => 2 | InstalledPart => 3
  | RuntimePart => 4 | SocketPart => 5 | SignalPart => 6 | WatcherPart => 7
  end.
Definition latest_first : list Part → Prop := StronglySorted (λ a b, rank b < rank a)%nat.
#[export] Instance rank_inj : Inj (=) (=) rank.
Proof. by intros [] []. Qed.

Lemma latest_first_NoDup l : latest_first l → NoDup l.
Proof.
  induction 1 as [|a l _ IH Ha]; constructor; [|done]. intros Hin.
  rewrite Forall_forall in Ha. specialize (Ha a Hin). lia.
Qed.

(** [a] does not come after [b]. *)
Definition precedes (a b : Part) (l : list Part) : Prop := ∀ l1 l2, l = l1 ++ b :: l2 → a ∉ l2.
Lemma sorted_precedes (R : Part → Part → Prop) a b l : StronglySorted R l → ¬ R b a → precedes a b l.
Proof.
  intros Hs Hr l1 l2 -> Hin. induction l1 as [|c l1 IH]; simpl in Hs; inversion_clear Hs as [|? ? Hs' Hf]; [|by apply IH].
  rewrite Forall_forall in Hf. by apply Hr, Hf.
Qed.

Lemma filter_ext_in {A} (P Q : A → Prop) `{∀ x, Decision (P x), ∀ x, Decision (Q x)} (l : list A) :
  (∀ x, x ∈ l → P x ↔ Q x) → filter P l = filter Q l.
Proof.
  induction l as [|x l IH]; intros Hl; [done|]. assert (filter P l = filter Q l) as Heq by set_solver.
  destruct (decide (P x)) as [Hx|Hx].
  - rewrite !filter_cons_True; [by f_equal|by apply Hl; [left|]|done].
  - rewrite !filter_cons_False; [done|by rewrite <- Hl by left|done].
Qed.

(** The order in which a run that got to its loop stops its parts *)
Definition explicit : list Part := [InstalledPart; ResearchPart; RuntimePart; SourcePart; DesktopPart].
Lemma explicit_NoDup : NoDup explicit.
Proof. compute_done. Qed.
Definition stop_order (explicit live : list Part) : list Part :=
  filter (λ p, p ∈ live) explicit ++ filter (λ p, p ∉ explicit) live.
Lemma stop_order_Permutation explicit live : NoDup explicit → NoDup live → stop_order explicit live ≡ₚ live.
Proof.
  intros He Hn. apply NoDup_Permutation; [|done|].
  - apply NoDup_app. split_and!; [by apply NoDup_filter| |by apply NoDup_filter].
    intros p. rewrite !list_elem_of_filter. tauto.
  - intros p. unfold stop_order. rewrite elem_of_app, !list_elem_of_filter. destruct (decide (p ∈ explicit)); tauto.
Qed.
Definition position (p : Part) : nat :=
  match p with
  | InstalledPart => 0 | ResearchPart => 1 | RuntimePart => 2 | SourcePart => 3 | DesktopPart => 4 | _ => 5
  end.
Lemma sorted_filter {A} (R : A → A → Prop) (P : A → Prop) `{∀ x, Decision (P x)} l :
  StronglySorted R l → StronglySorted R (filter P l).
Proof.
  induction 1 as [|x l _ IH Hx]; [constructor|]. destruct (decide (P x)).
  - rewrite filter_cons_True by done. constructor; [done|]. rewrite Forall_forall in *.
    intros y [_ Hy]%list_elem_of_filter. by apply Hx.
  - by rewrite filter_cons_False.
Qed.
Lemma last_sorted l : (∀ p, p ∈ l → position p = 5%nat) → StronglySorted (λ a b, position a ≤ position b)%nat l.
Proof.
  induction l as [|p l IH]; intros Hl; constructor; [apply IH; set_solver|]. apply Forall_forall. intros q Hq.
  rewrite (Hl p), (Hl q); [lia|by right|by left].
Qed.
Lemma stop_order_sorted live : StronglySorted (λ a b, position a ≤ position b)%nat (stop_order explicit live).
Proof.
  assert (∀ p, p ∈ filter (λ p, p ∉ explicit) live → position p = 5%nat) as Hrest.
  { intros p [Hp _]%list_elem_of_filter. destruct p; try done; exfalso; apply Hp; unfold explicit; set_solver. }
  apply StronglySorted_app_2; [|apply sorted_filter; by repeat constructor; simpl; lia|by apply last_sorted].
  intros p q _ Hq. rewrite (Hrest q Hq). destruct p; simpl; lia.
Qed.

Section letting_go.
Context {W L : Type} `{Loader W, Host W, Artifacts, Files W, !Loops W L, !Taps W L}.

(** Only opening: the history is the live locals, which are below [n] in the order. *)
Record tidy (n : nat) (s : Frame (W := W)) : Prop := {
  td_acts : fr_acts s = Opened <$> reverse (fr_live s);
  td_order : latest_first (fr_live s);
  td_bound : Forall (λ p, rank p < n)%nat (fr_live s);
}.
Definition opening {X} (n n' : nat) (m : SU (W := W) X) (P : X → Prop) : Prop :=
  ∀ s, tidy n s → tidy n' (m s).1 ∧ ∀ x, (m s).2 = Ok x → P x.

Lemma tidy_weaken n n' s : (n ≤ n')%nat → tidy n s → tidy n' s.
Proof. intros Hn [Ha Ho Hb]. split; [done|done|]. eapply Forall_impl; [exact Hb|]. intros p ?. simpl in *. lia. Qed.
Lemma opening_bind {X Y} n n1 n2 (m : SU X) (f : X → SU Y) P Q :
  opening n n1 m P → (n1 ≤ n2)%nat → (∀ x, P x → opening n1 n2 (f x) Q) → opening n n2 (m ≫= f) Q.
Proof.
  intros Hm Hn Hf s Hs. destruct (Hm s Hs) as [Ht HP]. unfold mbind, SU_bind.
  destruct (m s) as [s1 [x|e]]; simpl in *; [by apply Hf; [apply HP|]|]. split; [by eapply tidy_weaken|done].
Qed.
Lemma opening_ret {X} n n' (x : X) (P : X → Prop) : (n ≤ n')%nat → P x → opening n n' (mret x) P.
Proof. intros Hn HP s Hs. split; [by eapply tidy_weaken|]. by intros y [= <-]. Qed.
Lemma opening_fail {X} n n' e (P : X → Prop) : (n ≤ n')%nat → opening n n' (su_fail e) P.
Proof. intros Hn s Hs. split; [by eapply tidy_weaken|done]. Qed.
Lemma opening_use {E X} n (wrap : E → StartError) (m : W → W * result E X) (P : X → Prop) :
  (∀ w w' x, m w = (w', Ok x) → P x) → opening n n (use wrap m) P.
Proof.
  intros HP s Hs. unfold use. destruct (m (fr_world s)) as [w r] eqn:Hm. destruct Hs as [Ha Ho Hb]. split; [by split|].
  simpl. destruct r as [x|e]; [|done]. intros y [= <-]. by eapply HP.
Qed.
Lemma tidy_push p w s : tidy (rank p) s → tidy (S (rank p)) (mkFrame w (p :: fr_live s) (fr_acts s ++ [Opened p])).
Proof.
  intros [Ha Ho Hb]. split; simpl.
  - by rewrite Ha, reverse_cons, fmap_app.
  - by constructor.
  - constructor; [lia|]. eapply Forall_impl; [exact Hb|]. intros q ?. simpl in *. lia.
Qed.
Lemma opening_opens p m (P : unit → Prop) : P () → opening (rank p) (S (rank p)) (opens (W := W) p m) P.
Proof.
  intros HP s Hs. unfold opens. destruct (m (fr_world s)) as [w [[]|e]]; simpl.
  - split; [by apply tidy_push|by intros []].
  - split; [|done]. apply (tidy_weaken (rank p)); [lia|]. by destruct Hs.
Qed.

(** The state the loop starts with: the initial one, or the rules of a second load for an
    installed session. *)
Definition admitted_state (path : string) (initial : MatchingState)
    (metadata : option AdmittedMetadata) (state : MatchingState) : Prop :=
  match metadata with
  | None => state = initial
  | Some md => ∃ (w w' : W) cfg, load_config w path = (w', Ok cfg) ∧
      install (E := string) initial (Ok cfg) (am_feature_mask md) = Ok state
  end.
Lemma opening_admit n path initial metadata :
  opening n n (admit_rules (W := W) path initial metadata) (admitted_state path initial metadata).
Proof.
  destruct metadata as [md|]; [|by apply opening_ret]. intros s Hs. unfold admit_rules.
  destruct (load_config (fr_world s) path) as [w config] eqn:Hload.
  assert (∀ st, install initial config (am_feature_mask md) = Ok st → ∃ cfg, config = Ok cfg) as Hcfg.
  { unfold install. destruct config; [by eauto|done]. }
  destruct (install initial config _) as [st|[e|]] eqn:Hin; (split; [by destruct Hs; split|]); [|done..].
  intros st' [= <-]. destruct (Hcfg _ eq_refl) as [cfg ->]. by exists (fr_world s), w, cfg.
Qed.
Lemma opening_desktop args : opening 0 1 (open_desktop (W := W) args) (λ _, True).
Proof.
  intros s Hs. unfold open_desktop. destruct (desktop_start args (fr_world s)) as [w [[d|]|e]]; (split; [|done]);
    [by apply (tidy_push DesktopPart)|..]; (apply (tidy_weaken 0); [lia|]); by destruct Hs; split.
Qed.
Lemma opening_broker n path : opening n n
  (match path with
   | Some path => fd ← use SBackend (connect_broker (W := W) path); mret (Some fd)
   | None => mret None
   end) (λ _, True).
Proof.
  destruct path as [path|]; [|by apply opening_ret].
  eapply opening_bind; [by apply (opening_use _ _ _ (λ _, True))|done|]. intros fd _. by apply opening_ret.
Qed.
Lemma opening_research args :
  opening 2 3 (open_research (W := W) args) (λ o, is_Some o ↔ is_Some (ra_socket args)).
Proof.
  intros s Hs. unfold open_research, research_identity. destruct (ra_socket args) as [path|].
  2:{ split; [by eapply (tidy_weaken 2); [lia|]|]. by intros b [= <-]. }
  assert (∀ e, tidy 3 ((s, Err (SInstalled e)) : _ * result StartError (option (Peer * Wire.Identity))).1) as Hs'
    by (intros e; by eapply (tidy_weaken 2); [lia|]).
  destruct (ra_pid args), (ra_api_hash args), (ra_artifact args); try (by split).
  destruct (_ && _); [|by split]. refine (opening_bind 2 3 3 _ _ (λ _, True) _ _ _ _ s Hs); [by apply (opening_opens ResearchPart)|done|].
  intros _ _. by apply opening_ret.
Qed.
Lemma opening_installed args (metadata : option AdmittedMetadata) :
  opening 3 4 (open_installed (W := W) args metadata) (λ _, True).
Proof.
  destruct metadata as [md|]; [|by apply opening_ret; [lia|]]. unfold open_installed.
  destruct (linux_hyprland_socket args); [|apply opening_fail; lia].
  by apply (opening_opens InstalledPart).
Qed.
Lemma opening_watcher : opening 7 8 (open_watcher (W := W)) (λ _, True).
Proof.
  intros s Hs. unfold open_watcher. destruct (ho_watcher (fr_world s)) as [w []]; (split; [|done]);
    [by apply (tidy_push WatcherPart)|]. apply (tidy_weaken 7); [lia|]. by destruct Hs; split.
Qed.
Lemma prepare_given registration pid (w w' : W) metadata :
  prepare registration pid w = (w', Ok metadata) → is_Some metadata ↔ is_Some registration.
Proof.
  unfold prepare. destruct registration as [path|]; [|by intros [= <- <-]]. destruct pid as [pid|]; [|done].
  destruct (descriptor_verify path pid w) as [w1 [md|e]]; [|done].
  destruct (catalogue_qualify md w1) as [w2 [ad|e]]; [|done]. by intros [= <- <-].
Qed.

(** Which loop the arguments ask for *)
Definition asked_loop (args : RunArgs) : Loop :=
  match linux_hyprland_registration args, ra_socket (linux_hyprland_research args) with
  | Some _, _ => InstalledLoop
  | None, Some _ => ResearchLoop
  | None, None => BrokerLoop
  end.
Lemma which_engine_asked args metadata research broker :
  (is_Some metadata ↔ is_Some (linux_hyprland_registration args)) →
  (is_Some research ↔ is_Some (ra_socket (linux_hyprland_research args))) →
  loop_of (which_engine metadata research broker) = asked_loop args.
Proof.
  unfold which_engine, asked_loop. intros Hm Hr.
  assert (∀ {A}, ¬ is_Some (@None A)) as Hno by (by intros A []).
  destruct metadata, (linux_hyprland_registration args); try (exfalso; naive_solver); [done|].
  destruct research as [[peer identity]|], (ra_socket (linux_hyprland_research args));
    try (exfalso; naive_solver); done.
Qed.
(** What the loop gets *)
Definition started_with (args : RunArgs) (path : string) (initial : MatchingState)
    (r : MatchingState * bool * Engine) : Prop :=
  loop_of r.2 = asked_loop args ∧
  admitted_state path initial
    (match r.2 with RunInstalled metadata => Some metadata | _ => None end) r.1.1.
Lemma start_parts_opening socket args path initial :
  opening 0 8 (start_parts (W := W) socket args path initial) (started_with args path initial).
Proof.
  unfold start_parts.
  eapply (opening_bind 0 0); [eapply opening_use; intros w w' md; apply prepare_given|lia|]. intros metadata Hmd.
  eapply (opening_bind 0 0); [apply opening_admit|lia|]. intros state Hst.
  eapply (opening_bind 0 1); [apply opening_desktop|lia|]. intros desktop _.
  eapply (opening_bind 1 1); [apply opening_broker|lia|]. intros broker _.
  eapply (opening_bind 1 2 8 _ _ (λ _, True)); [|lia|].
  { destruct desktop; [by apply (opening_opens SourcePart)|by apply opening_ret; [lia|]]. }
  intros _ _. eapply (opening_bind 2 3); [apply opening_research|lia|]. intros research Hre.
  eapply (opening_bind 3 4); [apply opening_installed|lia|]. intros _ _.
  eapply (opening_bind 4 5 8 _ _ (λ _, True)); [by apply (opening_opens RuntimePart)|lia|]. intros _ _.
  eapply (opening_bind 5 5 8 _ _ (λ _, True)); [|lia|].
  { destruct socket; [by apply opening_ret|by apply opening_use]. }
  intros endpoint _. eapply (opening_bind 5 6 8 _ _ (λ _, True)); [by apply (opening_opens SocketPart)|lia|]. intros _ _.
  do 3 (eapply (opening_bind 6 6 8 _ _ (λ _, True)); [by apply opening_use|lia|]; intros _ _).
  eapply (opening_bind 6 7 8 _ _ (λ _, True)); [by apply (opening_opens SignalPart)|lia|]. intros _ _.
  eapply (opening_bind 7 8); [apply opening_watcher|lia|]. intros _ _.
  apply opening_ret; [done|]. split; [by apply which_engine_asked|]. simpl.
  by destruct metadata, research as [[peer identity]|].
Qed.

(** Dropping several locals *)
Lemma drop_parts ps : NoDup ps → ∀ s : Frame (W := W),
  let s' := fold_left (λ s p, drop_part p s) ps s in
  fr_acts s' = fr_acts s ++ (Released <$> filter (λ p, p ∈ fr_live s) ps) ∧
  fr_live s' = filter (λ p, p ∉ ps) (fr_live s).
Proof.
  induction 1 as [|p ps Hp _ IH]; intros s; simpl.
  { rewrite app_nil_r. split; [done|]. induction (fr_live s) as [|q l IHl]; [done|].
    rewrite filter_cons_True by set_solver. by f_equal. }
  destruct (IH (drop_part p s)) as [Ha Hl]. rewrite Ha, Hl. unfold drop_part. case_bool_decide as Hin; simpl.
  - rewrite filter_cons_True by done. rewrite <- app_assoc. split.
    + simpl. do 3 f_equal. apply filter_ext_in. intros q Hq. rewrite list_elem_of_filter.
      by split; [intros [_ ?]|intros ?; split; [intros ->|]].
    + rewrite list_filter_filter. apply list_filter_iff. set_solver.
  - rewrite filter_cons_False by done. split; [done|]. apply filter_ext_in. set_solver.
Qed.
Lemma drop_all (s : Frame (W := W)) :
  NoDup (fr_live s) →
  fr_acts (fold_left (λ s p, drop_part p s) (fr_live s) s) = fr_acts s ++ (Released <$> fr_live s).
Proof.
  intros Hn. destruct (drop_parts _ Hn s) as [-> _]. do 2 f_equal.
  rewrite (filter_ext_in _ (λ _, True)) by done. induction (fr_live s) as [|q l IHl]; [done|].
  rewrite filter_cons_True by done. f_equal. apply IHl. by inversion Hn.
Qed.


(** Started, run and stopped *)
Lemma unwind_stops (s s1 : Frame (W := W)) explicit ran :
  tidy 8 s → NoDup explicit → fr_live s1 = fr_live s → fr_acts s1 = fr_acts s ++ [Ran ran] →
  (unwind (fold_left (λ s p, drop_part p s) explicit s1)).2 =
    (Opened <$> reverse (fr_live s)) ++ [Ran ran] ++ (Released <$> stop_order explicit (fr_live s)) ∧
  stop_order explicit (fr_live s) ≡ₚ reverse (fr_live s).
Proof.
  intros [Ha Ho _] He El Ea. pose proof (latest_first_NoDup _ Ho) as Hn.
  destruct (drop_parts explicit He s1) as [Ha' Hl']. set (s2 := fold_left _ explicit s1) in *. split.
  - unfold unwind. cbn [snd]. rewrite drop_all by (rewrite Hl', El; by apply NoDup_filter).
    rewrite Ha', Hl', El, Ea, Ha. unfold stop_order. by rewrite fmap_app, <- !app_assoc.
  - rewrite stop_order_Permutation by done. by rewrite reverse_Permutation.
Qed.
Lemma unwind_aborts (s : Frame (W := W)) :
  tidy 8 s → (unwind s).2 = (Opened <$> reverse (fr_live s)) ++ (Released <$> fr_live s).
Proof. intros [Ha Ho _]. unfold unwind. cbn [snd]. by rewrite drop_all, Ha by (by apply latest_first_NoDup). Qed.
Lemma reverse_NoDup (l : list Part) : latest_first l → NoDup (reverse l).
Proof. intros Hn%latest_first_NoDup. by rewrite reverse_Permutation. Qed.

(** C27. The daemon stops everything it started. However [run_linux] goes, with any
    arguments and any failures, either its loop, the one the arguments ask for, still
    runs, or its history is parts being started, then at most one loop, then the same
    parts being stopped, each once; the runtime that serves clients stops before the
    source worker, and the source worker before the desktop it works on. Without a loop
    the result is an error and the parts are stopped latest first; otherwise the loop is
    the one the arguments ask for, and its result the daemon's. *)
Theorem daemon_stops_its_parts socket args path initial (w : W) :
  match run_linux (L := L) socket args path initial w with
  | None => ∃ e state sources w1, loop_of e = asked_loop args ∧
      run_loop (L := L) e state sources w1 = None
  | Some (w', acts, log, r) => ∃ started ran stopped,
      acts = (Opened <$> started) ++ (Ran <$> ran) ++ (Released <$> stopped) ∧
      NoDup started ∧ stopped ≡ₚ started ∧
      precedes RuntimePart SourcePart stopped ∧ precedes SourcePart DesktopPart stopped ∧
      (ran = [] ∧ log = None ∧ stopped = reverse started ∧ (∃ e, r = Err e) ∨
       ran = [asked_loop args] ∧ ∃ e state sources w1 w2 l, loop_of e = asked_loop args ∧
         log = Some l ∧ run_loop e state sources w1 = Some (w2, l, r))
  end.
Proof.
  unfold run_linux. destruct (start_parts_opening socket args path initial (mkFrame w [] [])) as [Ht Hl];
    [by split; constructor|].
  destruct (start_parts socket args path initial (mkFrame w [] [])) as [s [[[state sources] e]|e]]; simpl in Ht, Hl.
  - destruct (Hl _ eq_refl) as [Hl' _]. clear Hl. rename Hl' into Hl. simpl in Hl. unfold run_one.
    destruct (run_loop e state sources (fr_world s)) as [[[w2 l] r]|] eqn:Hloop; cbn [mbind option_bind]; [|by eauto 10].
    set (s1 := mkFrame w2 (fr_live s) (fr_acts s ++ [Ran (loop_of e)])).
    change (drop_part DesktopPart _) with (fold_left (λ s p, drop_part p s) explicit s1).
    destruct (unwind_stops s s1 explicit (loop_of e) Ht explicit_NoDup eq_refl eq_refl) as [Hacts Hp].
    destruct (unwind _) as [w' acts]. cbn [snd] in Hacts. rewrite Hl in Hacts.
    exists (reverse (fr_live s)), [asked_loop args], (stop_order explicit (fr_live s)).
    split_and!; [done|apply reverse_NoDup, Ht|done|..].
    + eapply sorted_precedes; [apply stop_order_sorted|simpl; lia].
    + eapply sorted_precedes; [apply stop_order_sorted|simpl; lia].
    + right. split; [done|]. by eexists e, state, sources, _, w2, l.
  - pose proof (unwind_aborts s Ht) as Hacts. destruct (unwind s) as [w' acts]. simpl in Hacts.
    exists (reverse (fr_live s)), [], (fr_live s).
    split_and!; [done|apply reverse_NoDup, Ht|by rewrite reverse_Permutation|..].
    + eapply sorted_precedes; [apply Ht|simpl; lia].
    + eapply sorted_precedes; [apply Ht|simpl; lia].
    + left. split_and!; [done|done|by rewrite reverse_involutive|by eexists].
Qed.

(** On macOS. The runtime and the socket's guard are declared in this order, so that an
    early return releases the endpoint while the runtime still serves it. *)
Lemma start_macos_opening socket xdg : opening 4 8 (start_macos (W := W) socket xdg) (λ _, True).
Proof.
  unfold start_macos.
  eapply (opening_bind 4 5 8 _ _ (λ _, True)); [by apply (opening_opens RuntimePart)|lia|]. intros _ _.
  eapply (opening_bind 5 5 8 _ _ (λ _, True)); [by intros s Hs|lia|]. intros path _.
  eapply (opening_bind 5 6 8 _ _ (λ _, True)); [by apply (opening_opens SocketPart)|lia|]. intros _ _.
  do 3 (eapply (opening_bind 6 6 8 _ _ (λ _, True)); [by apply opening_use|lia|]; intros _ _).
  eapply (opening_bind 6 7 8 _ _ (λ _, True)); [|lia|intros _ _; apply opening_watcher].
  intros s Hs. destruct (opening_use 6 SMessage ho_signals (λ _, True) (λ _ _ _ _, I) s Hs) as [Ht _].
  split; [by eapply (tidy_weaken 6); [lia|]|done].
Qed.
Definition mac_explicit : list Part := [RuntimePart; SocketPart].

(** The macOS daemon stops everything it started, and after its tap ran it stops serving
    before it gives up the endpoint. *)
Theorem mac_daemon_stops_its_parts socket xdg initial (w : W) :
  match run_macos (L := L) socket xdg initial w with
  | None => ∃ w1, run_tap (L := L) initial w1 = None
  | Some (w', acts, log, r) => ∃ started ran stopped,
      acts = (Opened <$> started) ++ (Ran <$> ran) ++ (Released <$> stopped) ∧
      NoDup started ∧ stopped ≡ₚ started ∧
      (ran = [] ∧ stopped = reverse started ∧ (∃ e, r = Err e) ∨
       ran = [TapLoop] ∧ (∃ rest, stopped = stop_order mac_explicit rest) ∧
       ∃ w1 w2 l, log = Some l ∧ run_tap initial w1 = Some (w2, l, r))
  end.
Proof.
  assert (NoDup mac_explicit) as Hm by compute_done. unfold run_macos.
  destruct (start_macos_opening socket xdg (mkFrame w [] [])) as [Ht _]; [by split; constructor|].
  destruct (start_macos socket xdg (mkFrame w [] [])) as [s [[]|e]]; simpl in Ht.
  - destruct (run_tap initial (fr_world s)) as [[[w2 l] r]|] eqn:Hloop; cbn [mbind option_bind]; [|by eauto].
    set (s1 := mkFrame w2 (fr_live s) (fr_acts s ++ [Ran TapLoop])).
    change (drop_part SocketPart _) with (fold_left (λ s p, drop_part p s) mac_explicit s1).
    destruct (unwind_stops s s1 mac_explicit TapLoop Ht Hm eq_refl eq_refl) as [Hacts Hp].
    destruct (unwind _) as [w' acts]. cbn [snd] in Hacts.
    exists (reverse (fr_live s)), [TapLoop], (stop_order mac_explicit (fr_live s)).
    split_and!; [done|apply reverse_NoDup, Ht|done|].
    right. split_and!; [done|by eexists|]. by eexists _, w2, l.
  - pose proof (unwind_aborts s Ht) as Hacts. destruct (unwind s) as [w' acts]. simpl in Hacts.
    exists (reverse (fr_live s)), [], (fr_live s).
    split_and!; [done|apply reverse_NoDup, Ht|by rewrite reverse_Permutation|].
    left. split_and!; [done|by rewrite reverse_involutive|by eexists].
Qed.

(** When the signal thread cannot be started, the endpoint goes before the runtime. *)
Theorem mac_signal_failure_releases_early socket xdg initial (w : W) :
  (∀ w, ∃ w', ho_runtime w = (w', Ok ())) → (∀ w path, ∃ w', ho_guard w path = (w', Ok ())) →
  (∀ w, ∃ w', ho_nonblocking w = (w', Ok ())) → (∀ w, ∃ w', ho_from_std w = (w', Ok ())) →
  (∀ w, ∃ w' e, ho_signals w = (w', Err e)) →
  (λ o, o.1.1.2) <$> run_macos (L := L) socket xdg initial w =
    Some [Opened RuntimePart; Opened SocketPart; Released SocketPart; Released RuntimePart].
Proof.
  intros Hr Hg Hn Hf Hs. unfold run_macos, start_macos, mbind, SU_bind, opens, use. simpl.
  destruct (Hr w) as [w1 ->]. simpl. destruct (Hg w1 (match socket with Some path => path | None => mac_default_socket xdg (ho_geteuid w1) end)) as [w2 ->].
  simpl. destruct (Hn w2) as [w3 ->]. simpl. destruct (Hf w3) as [w4 ->]. simpl.
  destruct (Hs (ho_serve w4)) as (w5 & e & ->). done.
Qed.
End letting_go.

(** ** Signals *)

Definition SIGHUP : Z := 1.
Definition SIGTERM : Z := 15.
Section signals.
Context {S : Type} (reload : S → S * result string unit) (shutdown : S → S).

(** The thread of [SignalThread::spawn_with], on the signals that arrive: SIGHUP reloads,
    and the first other one that is registered (SIGINT, SIGTERM) shuts down. *)
Fixpoint signal_thread (signals : list Z) (s : S) : S * bool :=
  match signals with
  | [] => (s, false)
  | signal :: signals =>
      if bool_decide (signal = SIGHUP) then signal_thread signals (reload s).1
      else (shutdown s, true)
  end.
(** The thread of [install_signal_handler] *)
Fixpoint mac_signal_thread (signals : list Z) (s : S) : S * bool :=
  match signals with
  | [] => (s, false)
  | signal :: signals =>
      if bool_decide (signal = SIGHUP) then mac_signal_thread signals (reload s).1
      else if bool_decide (signal = SIGTERM) then (shutdown s, true)
      else mac_signal_thread signals s
  end.

(** Each SIGHUP before the first other signal reloads once, and that one ends the thread. *)
Lemma signal_thread_spec hups rest s :
  Forall (λ n, n = SIGHUP) hups → (∀ n l, rest = n :: l → n ≠ SIGHUP) →
  signal_thread (hups ++ rest) s =
    (let s' := Nat.iter (length hups) (λ s, (reload s).1) s in
     match rest with [] => (s', false) | _ :: _ => (shutdown s', true) end).
Proof.
  intros Hh Hr. revert s. induction Hh as [|n hups -> _ IH]; intros s.
  - destruct rest as [|n rest]; [done|]. simpl. by rewrite bool_decide_false by (by eapply Hr).
  - cbn [length app signal_thread]. rewrite Nat.iter_succ_r, bool_decide_true by done. apply IH.
Qed.
End signals.

(** ** The backend that the broker loop runs (backend.rs) *)

(** [LinuxBackend], whose clones share these; the source dispatcher is an argument of
    [inject]. *)
Record LinuxBackend : Type := mkLinuxBackend {
  lb_connection : option Z; lb_stopped : bool; lb_running : bool;
}.
Definition LinuxBackend_new : LinuxBackend := mkLinuxBackend None false false.
(** [ShutdownHandle::shutdown]; the connection stays, shut down in both directions. *)
Definition backend_shutdown (self : LinuxBackend) : LinuxBackend :=
  mkLinuxBackend (lb_connection self) true (lb_running self).

(** [LinuxBackend::run] on the requests that arrive until it ends; [cloned] is the outcome
    of [try_clone], [requested] whether another clone shut it down in the meantime. *)
Definition backend_run {S} `{EventSink S} (self : LinuxBackend) (sink : S) (cloned : result string unit)
    (requests : list (Message * option string)) (requested : bool) :
    LinuxBackend * S * list Message * result BackendError unit :=
  if lb_running self then (self, sink, [], Err (Other "Linux backend already running"))
  else
    let '(sink, replies, r) :=
      match lb_connection self, cloned with
      | None, _ => (sink, [], Err (MissingPermission "Linux broker is not connected"))
      | Some _, Err e => (sink, [], Err (backend_io e))
      | Some _, Ok _ => let '(_, sink, replies, r) := serve ClientState_default sink requests in (sink, replies, r)
      end in
    let requested := lb_stopped self || requested in
    let self := backend_shutdown self in
    (mkLinuxBackend (lb_connection self) (lb_stopped self) false, on_stream_reset sink, replies,
     if requested then Ok () else r).

(** A connected backend serves as [run_backend] says; every run leaves it shut down and not
    running, with the engine's stream reset, and without a broker nothing is answered. *)
Lemma backend_run_ends {S} `{EventSink S} self (sink : S) cloned requests requested :
  lb_running self = false →
  let '(self', sink', replies, r) := backend_run self sink cloned requests requested in
  lb_running self' = false ∧ lb_stopped self' = true ∧ lb_connection self' = lb_connection self ∧
  (lb_connection self = None → sink' = on_stream_reset sink ∧ replies = []) ∧
  (is_Some (lb_connection self) → cloned = Ok () →
     (sink', replies, r) = run_backend sink requests (lb_stopped self || requested)).
Proof.
  destruct self as [connection st ru]. simpl. intros ->. unfold backend_run, run_backend. simpl.
  destruct connection as [fd|]; [|split_and!; try done; by intros [? ?]].
  destruct cloned as [[]|e]; [|by split_and!]. destruct (serve ClientState_default sink requests) as [[[c sink'] replies] r].
  by split_and!.
Qed.

(** ** A simulated host, on which one endpoint is taken *)
#[export] Instance sim_loader : Loader SimLink := λ w _,
  (w, Ok (mkConfig DaemonSection_default ∅ ∅ (RuleSet_new []))).
#[export] Instance sim_host : Host SimLink := {|
  ho_read w _ := (w, Err "no cookie");
  ho_connect w _ := (w, Ok 5);
  ho_geteuid _ := 1000;
  ho_peer w _ := (w, Ok (mkPeerIdentity 0 1));
  ho_timeouts w _ := (w, Ok ());
  ho_adapter w _ := (w, Ok ());
  ho_method w _ := (w, Ok ());
  ho_drop_adapter w _ := w;
  ho_desktop w _ _ := w;
  ho_sources w := (w, Ok ());
  ho_listener w path := (w, if bool_decide (path = "/taken") then Err "Address already in use" else Ok ());
  ho_runtime w := (w, Ok ());
  ho_default_socket w := (w, Ok "/run/user/1000/sledge.sock");
  ho_guard w _ := (w, Ok ());
  ho_nonblocking w := (w, Ok ());
  ho_from_std w := (w, Ok ());
  ho_serve w := w;
  ho_signals w := (w, Ok ());
  ho_watcher w := (w, true);
  ho_release w _ := w;
|}%string.
(** Every loop ends at once. *)
#[export] Instance sim_loops : Loops SimLink unit := λ _ _ _ w, Some (w, (), Ok ()).
#[export] Instance sim_taps : Taps SimLink unit := λ _ w, Some (w, (), Ok ()).
Definition sway_args (research : option string) : RunArgs :=
  mkRunArgs false None (Some Sway) (Some "/run/sway.sock") 0 None
    (mkResearchArgs research (Some 77) (Some [x61]) (Some [x61])) None None None (Some Ibus).
Definition sim_state : MatchingState :=
  MatchingState_new (mkConfig DaemonSection_default ∅ ∅ (RuleSet_new [])).
Example sim_run :
  (λ o, o.1.1.2) <$> run_linux (L := unit) None (sway_args None) "/etc/sledge.toml" sim_state sim_world = Some
  [Opened DesktopPart; Opened SourcePart; Opened RuntimePart; Opened SocketPart; Opened SignalPart; Opened WatcherPart;
   Ran BrokerLoop;
   Released RuntimePart; Released SourcePart; Released DesktopPart;
   Released WatcherPart; Released SignalPart; Released SocketPart].
Proof. vm_compute. reflexivity. Qed.
Example sim_run_taken :
  (λ o, o.1.1.2) <$> run_linux (L := unit) None (sway_args (Some "/taken")) "/etc/sledge.toml" sim_state sim_world = Some
  [Opened DesktopPart; Opened SourcePart; Released SourcePart; Released DesktopPart].
Proof. vm_compute. reflexivity. Qed.
