(* ===== verification/Commands.v ===== *)
(** * The commands (packages/cli/src: main.rs, lib.rs, cli.rs, status.rs and [run] of
      daemon.rs)

    What `sledge` prints and how it exits: each command is a function of its world to the
    lines of its output and its result. `status` and `reload` ask the daemon over the
    control socket (Control.v), `run` finds and loads the configuration and runs the daemon
    (Startup.v). [None] is a daemon that still runs, or a panic of the log's set-up. *)

From Stdlib Require Import Strings.Byte Ascii.
From stdpp Require Import pretty.
From S2P Require Import Prelude Event Rule Config Bytes Protocol Authorization Sink Daemon Json Discovery.
From S2P Require Import Transport Admission Installed SourceThread Research Logging Control Startup.
Import Byte(byte).

(** ** Arguments (cli.rs) *)

Inductive Command : Type :=
  | CmdRun (args : RunArgs)
  | CmdStatus
  | CmdReload
  | CmdValidate (path : string)
  | CmdCheckPermissions.
Record Cli : Type := mkCli {
  cli_config : option string; cli_socket : option string; cli_command : option Command;
}.
(** [RunArgs::default()] *)
Definition RunArgs_default : RunArgs :=
  mkRunArgs false None None None 0 None (mkResearchArgs None None None None) None None None None.

(** The constraints between arguments that clap enforces ([requires], [requires_all],
    [conflicts_with] and the ranges of the two process ids) *)
Definition given {A} (o : option A) : bool := match o with Some _ => true | None => false end.
Definition positive_pid (o : option Z) : bool :=
  match o with Some pid => bool_decide (1 ≤ pid) | None => true end.
Definition clap_accepts (a : RunArgs) : bool :=
  let r := linux_hyprland_research a in
  implb (given (linux_desktop_socket a)) (given (linux_desktop a)) &&
  implb (given (linux_x11_cookie a)) (given (linux_desktop a)) &&
  implb (given (linux_input_method a)) (given (linux_desktop a)) &&
  implb (given (linux_hyprland_registration a))
    (given (linux_hyprland_pid a) && given (linux_hyprland_socket a) &&
     negb (given (linux_broker_socket a)) && negb (given (ra_socket r))) &&
  implb (given (linux_hyprland_socket a)) (given (linux_hyprland_registration a)) &&
  implb (given (linux_hyprland_pid a)) (given (linux_hyprland_registration a)) &&
  positive_pid (linux_hyprland_pid a) &&
  implb (given (ra_socket r))
    (given (ra_pid r) && given (ra_api_hash r) && given (ra_artifact r) &&
     negb (given (linux_broker_socket a))) &&
  implb (given (ra_pid r)) (given (ra_socket r)) && positive_pid (ra_pid r) &&
  implb (given (ra_api_hash r)) (given (ra_socket r)) &&
  implb (given (ra_artifact r)) (given (ra_socket r)).

(** Accepted arguments ask for at most one source of events, and with everything it needs. *)
Lemma accepted_args_consistent a :
  clap_accepts a = true →
  (linux_hyprland_registration a = None ∨ ra_socket (linux_hyprland_research a) = None) ∧
  (linux_hyprland_registration a = None ∨ linux_broker_socket a = None) ∧
  (ra_socket (linux_hyprland_research a) = None ∨ linux_broker_socket a = None) ∧
  (is_Some (linux_hyprland_registration a) →
     is_Some (linux_hyprland_socket a) ∧ ∃ pid, linux_hyprland_pid a = Some pid ∧ 0 < pid) ∧
  (is_Some (ra_socket (linux_hyprland_research a)) →
     ∃ pid hash artifact, linux_hyprland_research a =
       mkResearchArgs (ra_socket (linux_hyprland_research a)) (Some pid) (Some hash) (Some artifact) ∧
       0 < pid).
Proof.
  destruct a as [? broker ? ? ? ? [rs rp rh ra] reg sock pid ?]. unfold clap_accepts. simpl.
  rewrite !andb_true_iff. intros H. destruct_and!.
  destruct reg, rs, broker; simpl in *; rewrite ?andb_false_r in *; try discriminate;
    split_and!; try (by auto); try (by intros []); intros _.
  all: repeat match goal with
    | x : option _ |- _ => destruct x; simpl in *; try discriminate
    end.
  all: try (split; [done|]); repeat eexists; try done; by bools; lia.
Qed.

(** ** Output *)

Infix "+++" := String.append (at level 60, right associativity).
(** The lines printed, and the result *)
Definition Outcome : Type := list string * result AnyError unit.
(** [yn] *)
Definition yn (b : bool) : string := if b then "yes" else "NO".

Section printing.
(** [Display] of [serde_json::Value] *)
Context (show_value : Value → string).

(** The lines of [print_status] *)
Definition status_lines (platform : Platform) (s : StatusPayload Value) : list string :=
  ["sledge " +++ pl_version s;
   "  uptime         : " +++ pretty (pl_uptime_secs s) +++ "s";
   "  rules loaded   : " +++ pretty (pl_rules_loaded s);
   "  focused app    : " +++ default "<unknown>" (pl_focused_app s)] ++
  match pl_permissions s with
  | Some p => ["  accessibility  : " +++ yn (sp_accessibility p);
               "  input monitor  : " +++ yn (sp_input_monitoring p)]
  | None => []
  end ++
  match pl_platform s with
  | Some p => ["  platform       : " +++ p +++ " (status v" +++ pretty (pl_protocol_version s) +++ ")"]
  | None => []
  end ++
  match pl_capabilities s with
  | Some c =>
      (if bool_decide (platform = Linux)
       then match describe c with Some readiness => ["  backend        : " +++ readiness] | None => [] end
       else []) ++
      ["  capabilities   : " +++ show_value c]
  | None => []
  end ++
  [match pl_last_reload_secs_ago s with
   | Some secs => "  last reload    : " +++ pretty secs +++ "s ago"
   | None => "  last reload    : never"
   end].

(** [print_status] and [send_reload] on the daemon's answer *)
Definition status_outcome (platform : Platform) (resp : Response Value) : Outcome :=
  match resp with
  | RespStatus s => (status_lines platform s, Ok ())
  | RespError message => ([], Err ["daemon error: " +++ message])
  | RespReloaded => ([], Err ["unexpected response"])
  end.
Definition reload_outcome (resp : Response Value) : Outcome :=
  match resp with
  | RespReloaded => (["reloaded"], Ok ())
  | RespError message => ([], Err ["reload failed: " +++ message])
  | RespStatus _ => ([], Err ["unexpected response"])
  end.
End printing.

(** ** Asking the daemon (ipc.rs and status.rs) *)

(** The runtime, [UnixStream::connect], and whether the time of a request ran out before
    the exchange was over *)
Class Dial (W S : Type) : Type := {
  dl_runtime : W → W * result string unit;
  dl_connect : W → string → W * result string S;
  dl_timed_out : W → S → W * bool;
}.

(** [Path::components] of the path as it is written *)
Fixpoint pieces (s acc : string) : list string :=
  match s with
  | EmptyString => [acc]
  | String c s => if bool_decide (c = slash) then acc :: pieces s "" else pieces s (acc +++ String c "")
  end.
Definition component (first : bool) (piece : string) : list Component :=
  if bool_decide (piece = "") then []
  else if bool_decide (piece = ".") then (if first then [CurDir] else [])
  else if bool_decide (piece = "..") then [ParentDir]
  else [Normal piece].
Definition path_components (s : string) : Discovery.PathBuf :=
  match pieces s "" with
  | [] => []
  | piece :: rest =>
      (if bool_decide (piece = "") && negb (bool_decide (s = "")) then [RootDir]
       else component true piece) ++ flat_map (component false) rest
  end.
Fixpoint path_text (p : Discovery.PathBuf) : string :=
  match p with
  | [] => ""
  | [RootDir] => "/"
  | [CurDir] => "."
  | [ParentDir] => ".."
  | [Normal name] => name
  | RootDir :: rest => "/" +++ path_text rest
  | CurDir :: rest => "./" +++ path_text rest
  | ParentDir :: rest => "../" +++ path_text rest
  | Normal name :: rest => name +++ "/" +++ path_text rest
  end.

Section asking.
Context {W S : Type} `{Environment W, SessionFiles W, MarkerFormat, Dial W S, Stream S}.
Context `{Json Request, Json (Response Value)} (show_value : Value → string).

(** [socket_path]; elsewhere than on Linux the default is [logging::default_socket_path]. *)
Definition socket_path (platform : Platform) (socket : option string) (w : W) :
    W * result AnyError string :=
  match socket with
  | Some path => (w, Ok path)
  | None =>
      if bool_decide (platform = Linux) then
        let var name := path_components <$> en_var w name in
        let '(w, r) := client_socket_path None
          (var "SLEDGE_SESSION_FILE", var "SLEDGE_HYPRLAND_RUNTIME", var "XDG_RUNTIME_DIR",
           en_var w "HYPRLAND_INSTANCE_SIGNATURE") w in
        (w, context "selecting Sledge session; use --socket for an explicit endpoint"
              (path ← any r; Ok (path_text path)))
      else (w, Ok (mac_default_socket (en_var w "XDG_RUNTIME_DIR") (sf_geteuid w)))
  end.

(** [exchange] on the connection; of an error only the first message is kept. *)
Definition exchange (euid : option Z) (req : Request) (s : S) : S * result AnyError (Response Value) :=
  match exchange_send euid req s with
  | (s, Err e) => (s, Err [e])
  | (s, Ok _) => let '(s, r) := exchange_receive s in (s, any r)
  end.

(** [send_request_blocking] *)
Definition send_request (platform : Platform) (path : string) (req : Request) (w : W) :
    W * result AnyError (Response Value) :=
  match dl_runtime w with
  | (w, Err e) => (w, Err [e])
  | (w, Ok _) =>
      match dl_connect w path with
      | (w, Err e) => (w, Err ["connecting to " +++ path; e])
      | (w, Ok s) =>
          let '(s, r) := exchange (if bool_decide (platform = Linux) then Some (sf_geteuid w) else None) req s in
          let '(w, late) := dl_timed_out w s in
          (w, if late : bool then Err ["IPC request timed out"; "deadline has elapsed"] else r)
      end
  end.

(** [print_status] and [send_reload] *)
Definition ask (platform : Platform) (socket : option string) (req : Request)
    (outcome : Response Value → Outcome) (w : W) : W * Outcome :=
  match socket_path platform socket w with
  | (w, Err e) => (w, ([], Err e))
  | (w, Ok path) =>
      match send_request platform path req w with
      | (w, Err e) => (w, ([], Err e))
      | (w, Ok resp) => (w, outcome resp)
      end
  end.
Definition print_status (platform : Platform) (socket : option string) (w : W) : W * Outcome :=
  ask platform socket ReqStatus (status_outcome show_value platform) w.
Definition send_reload (platform : Platform) (socket : option string) (w : W) : W * Outcome :=
  ask platform socket ReqReload reload_outcome w.

(** [validate_config] *)
Definition validate_config `{Loader W} (path : string) (w : W) : W * Outcome :=
  match load_config w path with
  | (w, Err e) => (w, ([], Err ["validating config file: " +++ path; e]))
  | (w, Ok cfg) =>
      (w, (["OK: " +++ pretty (RuleSet_len (cfg_rules cfg)) +++ " rule(s), " +++
            pretty (size (cfg_app_aliases cfg)) +++ " alias(es), log_level=" +++
            log_level (cfg_daemon cfg)], Ok ()))
  end.

(** [print_permissions]; [granted] is what [sledge_macos::check_permissions] says. *)
Definition print_permissions (platform : Platform) (granted : StatusPermissions) : Outcome :=
  match platform with
  | MacOS =>
      (["accessibility  : " +++ yn (sp_accessibility granted);
        "input monitor  : " +++ yn (sp_input_monitoring granted)],
       if sp_accessibility granted && sp_input_monitoring granted then Ok ()
       else Err ["one or more permissions missing"])
  | Linux =>
      let caps := backend_capabilities false false in
      (["broker connected : " +++ yn (broker_connected caps);
        "verified session : " +++ yn (verified_session caps);
        "source switching : " +++ yn (source_switching caps)] ++
       match reason caps with Some r => ["reason           : " +++ r] | None => [] end,
       match check_permissions with
       | Ok _ => Ok ()
       | Err e => Err ["Linux authorization is not granted"; display_backend e]
       end)
  | Windows => ([], Err ["permission checks are unsupported on this platform"])
  end.

(** ** The daemon ([run] of daemon.rs) *)

(** [resolve_config_path] *)
Definition resolve_config_path (platform : Platform) (config : option string) (w : W) :
    result AnyError string :=
  match config with
  | Some p => Ok p
  | None =>
      match en_var w "SLEDGE_CONFIG" with
      | Some env => Ok env
      | None => some_or (default_config_path platform w) "no default config path available"
      end
  end.

Context {L : Type} `{Loader W, Host W, Artifacts, Files W, !Loops W L, !Taps W L, Subscriber W, EnvFilters}.
(** The messages of an error of the parts, with their sources *)
Context (start_chain : StartError → AnyError).

(** [daemon::run], with the history of its parts and the log of its loop *)
Definition daemon_run (platform : Platform) (config socket : option string) (args : RunArgs) (w : W) :
    option (W * list Act * option L * result AnyError unit) :=
  match resolve_config_path platform config w with
  | Err e => Some (w, [], None, Err e)
  | Ok config_path =>
      match load_config w config_path with
      | (w, Err e) => Some (w, [], None, Err ["loading " +++ config_path; e])
      | (w, Ok initial) =>
          '(w, logging) ← logging_init platform (log_level (cfg_daemon initial)) (stdout_logs args) w;
          match logging with
          | Err e => Some (w, [], None, Err ("tracing init" :: e))
          | Ok _ =>
              let matcher := MatchingState_new initial in
              '(w, acts, log, r) ←
                match platform with
                | MacOS => run_macos socket (en_var w "XDG_RUNTIME_DIR") matcher w
                | Linux => run_linux socket args config_path matcher w
                | Windows => Some (w, [], None, Err (SMessage "only the macOS backend is implemented"))
                end;
              Some (lg_flush w, acts, log, match r with Ok _ => Ok () | Err e => Err (start_chain e) end)
          end
      end
  end.

(** ** [run] and [main] *)

Definition run (platform : Platform) (granted : W → StatusPermissions) (cli : Cli) (w : W) :
    option (W * Outcome) :=
  match default (CmdRun RunArgs_default) (cli_command cli) with
  | CmdRun args =>
      '(w, _, _, r) ← daemon_run platform (cli_config cli) (cli_socket cli) args w; Some (w, ([], r))
  | CmdStatus => Some (print_status platform (cli_socket cli) w)
  | CmdReload => Some (send_reload platform (cli_socket cli) w)
  | CmdValidate path => Some (validate_config path w)
  | CmdCheckPermissions => Some (w, print_permissions platform (granted w))
  end.

(** The exit code, and the lines on standard error *)
Definition main_exit (r : result AnyError unit) : Z * list string :=
  match r with
  | Ok _ => (0, [])
  | Err e =>
      (1, match e with
          | [] => []
          | message :: sources => ("error: " +++ message) :: map (String.append "  caused by: ") sources
          end)
  end.
End asking.
