(* ===== verification/CommandsThm.v ===== *)
(** * The commands tell the truth

    `sledge reload` and `sledge status` against the daemon itself: the stream a command
    speaks over is connected to [handle] of Control.v, over the state that the daemon's
    loops and its reload callback share. Then the start of the daemon: it runs on what was
    loaded from the one path it resolved, or starts nothing. *)

From Stdlib Require Import Strings.Byte Ascii.
From stdpp Require Import pretty.
From S2P Require Import Prelude Event Rule Config Bytes Protocol Wire Authorization Sink Transactions Bridge Desktop.
From S2P Require Import Daemon Json Discovery Transport Admission AdmissionThm Installed SourceThread Research.
From S2P Require Import Logging Control ControlThm Startup Commands.
Import Byte(byte).

(** ** The daemon behind the socket *)

(** What the closures of [run_linux] read and change: the shared state, and from outside
    the configuration file, the message of a refused admission, the clock, the log's handle,
    the focus and the session's capabilities *)
Record DaemonData : Type := mkDaemonData {
  dd_shared : Shared;
  dd_file : result string Config;
  dd_refused : string;
  dd_now : Z;
  dd_handle : result string unit;
  dd_focused : option string;
  dd_connected : bool;
  dd_configured : Configured;
  dd_current : bool;
}.
Definition dd_set_shared (sh : Shared) (d : DaemonData) : DaemonData :=
  mkDaemonData sh (dd_file d) (dd_refused d) (dd_now d) (dd_handle d) (dd_focused d)
    (dd_connected d) (dd_configured d) (dd_current d).

(** The closure [capabilities] of [run_linux] on the shared matching state *)
Definition dd_capabilities (d : DaemonData) : Value :=
  let matching := sd_matching (dd_shared d) in
  let health := ms_hyprland_health matching in
  capabilities (backend_capabilities (dd_connected d) false) (dd_configured d) health
    (health_is (λ h, is_reconciled (ms_hyprland matching) (sh_nonce h)) health) (dd_current d).

(** The [ServerState] of [run_linux] *)
Definition linux_server `{EnvFilters} (started_at : Z) (version : string) :
    ServerState DaemonData Value := {|
  ss_started_at := started_at;
  ss_rules_loaded d := sd_rules_loaded (dd_shared d);
  ss_focused_app := dd_focused;
  ss_reload d :=
    let '(sh, r) := reload_callback (dd_shared d) (dd_file d) (dd_refused d) (dd_now d) (dd_handle d) in
    (dd_set_shared sh d, r);
  ss_check_permissions _ := None;
  ss_capabilities d := Some (dd_capabilities d);
  ss_last_reload_at d := sd_last_reload_at (dd_shared d);
  ss_now d := (d, dd_now d);
  ss_os := "linux";
  ss_version := version;
|}.

(** A stream whose other end is the server: when the client has sent its request, the
    server handles what arrived, and its bytes are the client's to read. *)
Record Wired (D : Type) : Type := mkWired {
  wi_peer : PeerIdentity; wi_sent : list byte; wi_incoming : list byte; wi_daemon : D;
}.
#[global] Arguments mkWired {D}.
#[global] Arguments wi_peer {D}.
#[global] Arguments wi_sent {D}.
#[global] Arguments wi_incoming {D}.
#[global] Arguments wi_daemon {D}.

Section wired.
Context {D J : Type} `{!Json Request, !Json (Response J)} (state : ServerState D J).

Definition wired_shutdown (w : Wired D) : Wired D * result string unit :=
  let '(pipe, d, _) := handle state (mkPipe (wi_sent w) []) (wi_daemon w) in
  (mkWired (wi_peer w) (wi_sent w) (pp_sent pipe) d, Ok ()).
#[local] Instance wired_stream : Stream (Wired D) := {|
  st_peer w := Ok (wi_peer w);
  st_read_until w n b := (w, Ok (through b (take (Z.to_nat n) (wi_incoming w))));
  st_write_all w bs := (mkWired (wi_peer w) (wi_sent w ++ bs) (wi_incoming w) (wi_daemon w), Ok ());
  st_flush w := (w, Ok ());
  st_shutdown := wired_shutdown;
|}.

(** The value is one line of JSON that fits a frame and reads back. *)
Definition carried {A} `{Json A} (v : A) : Prop :=
  (newline ∉ concat (to_writer v)) ∧
  Z.of_nat (length (concat (to_writer v))) < MAX_FRAME_BYTES ∧
  from_slice (concat (to_writer v) ++ [newline]) = Ok v.

Lemma carried_frame {A} `{Json A} (v : A) :
  carried v → encode_frame v = Ok (concat (to_writer v) ++ [newline]).
Proof. intros (_ & Hf & _). by rewrite encode_frame_spec, bool_decide_true. Qed.

(** An exchange with the daemon is one computation of its response. *)
Lemma wired_exchange euid pid req d d' resp :
  response req state d = (d', resp) → carried req → carried resp → 0 < pid →
  ∃ s', exchange_send (Some euid) req (mkWired (mkPeerIdentity euid pid) [] [] d) = (s', Ok ()) ∧
    wi_daemon s' = d' ∧ exchange_receive s' = (s', Ok resp).
Proof.
  intros Hresp Hreq Hres Hpid. pose proof (carried_frame _ Hreq) as Eq. pose proof (carried_frame _ Hres) as Er.
  unfold exchange_send, peer_refused. cbn [st_peer wired_stream wi_peer]. unfold authorize_socket_peer. simpl.
  rewrite bool_decide_true by done. rewrite (bool_decide_false (pid ≤ 0)) by lia. simpl.
  rewrite Eq. unfold wired_shutdown. cbn [wi_sent wi_daemon wi_peer app].
  destruct Hreq as (Hn1 & Hf1 & Hb1), Hres as (Hn2 & Hf2 & Hb2).
  destruct (handle_line (W := Pipe) state req d d' resp _ _ (mkPipe (concat (to_writer req) ++ [newline]) [])
    Hresp Hn1 Eq Hb1 Er) as (p & Hh & Hp); [done..|]. rewrite Hh.
  eexists. split; [reflexivity|]. split; [done|]. change (sent p) with (pp_sent p) in Hp. simpl in Hp.
  unfold exchange_receive, read_frame. cbn [st_read_until wired_stream wi_incoming]. rewrite Hp.
  rewrite take_ge by (rewrite length_app; simpl; lia). rewrite through_line by done.
  rewrite bool_decide_false by (rewrite length_app; simpl; lia).
  by rewrite last_snoc, bool_decide_true, Hb2 by done.
Qed.
End wired.

(** ** What the commands print *)

Section commands.
Context `{EnvFilters, !Json Request, !Json (Response Value)}.
Context (started_at : Z) (version : string) (show_value : Value → string).
#[local] Instance daemon_stream : Stream (Wired DaemonData) :=
  wired_stream (linux_server started_at version).

(** The rules and aliases that the next event meets *)
Definition in_force (d : DaemonData) : RuleSet * gmap string AppAlias :=
  let ms := sd_matching (dd_shared d) in (m_rules (ms_matcher ms), ms_aliases ms).

Definition connected (euid pid : Z) (d : DaemonData) : Wired DaemonData :=
  mkWired (mkPeerIdentity euid pid) [] [] d.

Lemma daemon_exchange euid pid req d d' resp :
  response req (linux_server started_at version) d = (d', resp) →
  carried req → carried resp → 0 < pid →
  ∃ s', exchange (Some euid) req (connected euid pid d) = (s', Ok resp) ∧ wi_daemon s' = d'.
Proof.
  intros Hr Hc1 Hc2 Hp. destruct (wired_exchange _ euid pid req d d' resp Hr Hc1 Hc2 Hp) as (s & Hs & Hd & Hv).
  exists s. split; [|done]. unfold exchange, connected, daemon_stream. by rewrite Hs, Hv.
Qed.

Lemma reload_response d :
  let '(d', resp) := response ReqReload (linux_server started_at version) d in
  match reload_outcome resp with
  | (lines, Ok _) => lines = ["reloaded"] ∧ ∃ cfg, dd_file d = Ok cfg ∧
      in_force d' = (cfg_rules cfg, cfg_app_aliases cfg) ∧ counted (dd_shared d') ∧
      sd_last_reload_at (dd_shared d') = Some (dd_now d) ∧
      (dd_handle d = Ok () → sd_filter (dd_shared d') = initial_filter (log_level (cfg_daemon cfg)))
  | (lines, Err e) => lines = [] ∧ d' = d ∧ ∃ reason, e = ["reload failed: " +++ reason]
  end.
Proof.
  cbn [response ss_reload linux_server].
  pose proof (reload_all_or_nothing (dd_shared d) (dd_file d) (dd_refused d) (dd_now d) (dd_handle d)) as Hr.
  destruct (reload_callback _ _ _ _ _) as [sh [[]|e]]; cbn.
  - destruct Hr as (cfg & Hf & Hrules & Hal & _ & Hcnt & Hlast & Hlev). split; [done|]. exists cfg.
    unfold in_force. cbn. rewrite Hrules, Hal. split_and!; try done. intros Hh. by rewrite Hlev, Hh.
  - split_and!; [done|by destruct d; rewrite Hr|by eexists].
Qed.

End commands.

(** ** A daemon that has one rule to load *)

Definition one_rule : Config := mkConfig (mkDaemonSection "debug") ∅ ∅
  (RuleSet_new [mkRule (Hotkey (mkHotkeyTrigger KeyA mods_empty)) (SendKey KeyB mods_empty) None]).
#[export] Instance all_directives : EnvFilters := λ _, None.
Definition sim_daemon : DaemonData :=
  mkDaemonData (Shared_new (mkConfig DaemonSection_default ∅ ∅ (RuleSet_new []))) (Ok one_rule)
    "refused" 5000000000 (Ok ()) None false (mkConfigured false false false false) false.
Definition sim_status : Response Value := (response ReqStatus (linux_server 0 "0.1.0") sim_daemon).2.
Definition json_answer : list byte := String.list_byte_of_string "{'kind':'status'}".
#[local] Instance sim_response_json : Json (Response Value) := {|
  to_writer v := [match v with RespReloaded => json_reloaded | _ => json_answer end];
  from_slice bs :=
    if bool_decide (bs = json_reloaded ++ [newline]) then Ok RespReloaded
    else if bool_decide (bs = json_answer ++ [newline]) then Ok sim_status else Err "invalid JSON";
|}.

