(* ===== verification/EngineThm.v ===== *)
(** * The engine behind the broker settles what it replaces

    The sink of daemon/linux.rs dispatches a key, performs the replacement and
    reports its delivery before it answers. [sink_own] is the resulting contract of
    one event on its press; [broker_release_matches_press] lifts it to runs. *)

From S2P Require Import Prelude Event TapFsm Rule MatcherInv Ownership Dispatch Config Keymap Sink.
From S2P Require Import Protocol Wire Transactions TransactionsThm Bridge Desktop Daemon DaemonThm.

(** ** One event *)

(** What the engine's answer means for the press. *)
Inductive sink_own (modifier : bool) :
    Ownership → EventKind → BackendVerdict → Ownership → Prop :=
  | sink_forwarded_down : sink_own modifier Forwarded KeyDown VerdictPass Forwarded
  | sink_forwarded_up : sink_own modifier Forwarded KeyUp VerdictPass Unowned
  | sink_consumed_down : sink_own modifier Consumed KeyDown VerdictSwallow Consumed
  | sink_consumed_up : sink_own modifier Consumed KeyUp VerdictSwallow Unowned
  | sink_down_pass : sink_own modifier Unowned KeyDown VerdictPass Unowned
  | sink_down_done : modifier = false →
      sink_own modifier Unowned KeyDown VerdictSwallow Consumed
  | sink_down_failed : modifier = false →
      sink_own modifier Unowned KeyDown VerdictPass Forwarded
  | sink_up_pass : sink_own modifier Unowned KeyUp VerdictPass Unowned
  | sink_up_tap v : modifier = true → sink_own modifier Unowned KeyUp v Unowned
  | sink_flags o v : sink_own modifier o ModifiersChanged v o.

Definition sink_matcher (self : MatcherSink) : Matcher := ms_matcher (sk_state self).

Record SinkInv (self : MatcherSink) : Prop := {
  si_matcher : MatcherInv (sink_matcher self);
  si_settled : m_pending_deliveries (sink_matcher self) = ∅;
  si_running : sk_panicked self = false;
}.

Lemma dispatch_delivery_generation m d e app now m' r :
  dispatch_device_with_delivery m d e app now = Some (m', r) →
  m_delivery_generation m ≤ m_delivery_generation m' ≤ m_delivery_generation m + 1.
Proof.
  unfold dispatch_device_with_delivery. intros ([m1 v] & [Hg _]%dispatch_device_generation & Hr)%bind_Some.
  destruct v; simplify_eq; [lia|lia|].
  apply bind_Some in Hr as (g & [-> _]%checked_add_u64_Some & [= <- <-]). simpl. lia.
Qed.

Lemma report_generation m tok del :
  m_delivery_generation (report_delivery m tok del).1 = m_delivery_generation m.
Proof. unfold report_delivery, set_remove. by repeat case_match. Qed.

(** A token comes with a replacement, and only with one. *)
Lemma dispatch_delivery_token m d e app now m' v t :
  dispatch_device_with_delivery m d e app now = Some (m', (v, t)) →
  match v with Verdict_Replace _ => is_Some t | _ => t = None end.
Proof.
  unfold dispatch_device_with_delivery. intros ([m1 v1] & _ & Hr)%bind_Some.
  destruct v1; simplify_eq; try done.
  apply bind_Some in Hr as (g & _ & [= <- <- <-]). done.
Qed.

Lemma plain_own (modifier : bool) o k o' :
  (own_step modifier o k Verdict_Pass o' → sink_own modifier o k VerdictPass o') ∧
  (own_step modifier o k Verdict_Swallow o' → sink_own modifier o k VerdictSwallow o').
Proof. split; inversion 1; constructor. Qed.

(** The answer after a replacement was settled. *)
Lemma replaced_own (modifier : bool) o k a o' (ok : bool) :
  (modifier = true → o = Unowned) →
  own_step modifier o k (Verdict_Replace a) o' →
  sink_own modifier o k (if ok then VerdictSwallow else VerdictPass)
    (if negb ok && bool_decide (o' = Consumed) then Forwarded else o').
Proof.
  intros Hm. inversion 1; subst; destruct ok; simpl; try by constructor.
  rewrite Hm by done. constructor.
Qed.

(** One event: it is answered, and only its own press may change hands. *)
Record sink_step (self self' : MatcherSink) (d : DeviceId) (e : KeyEvent) (v : BackendVerdict) :
    Prop := {
  ss_inv : SinkInv self';
  ss_own : sink_own (is_modifier (code e)) (owner (sink_matcher self) (d, code e)) (kind e) v
    (owner (sink_matcher self') (d, code e));
  ss_other : ∀ q, q ≠ (d, code e) →
    owner (sink_matcher self') q = owner (sink_matcher self) q;
  ss_generation : m_delivery_generation (sink_matcher self') ≤
    m_delivery_generation (sink_matcher self) + 1;
}.

Lemma deliver_spec self d e app :
  SinkInv self → m_delivery_generation (sink_matcher self) < u64_max →
  ∃ self' v, deliver self d e app = Some (self', v) ∧ sink_step self self' d e v.
Proof.
  intros [Hm Hp Hr] Hg. unfold deliver. destruct (sink_focus self app) as [fa identity].
  set (logical := resolve_focused_app _ _ _). set (now := env_now _ _).
  destruct (dispatch_delivery_total (sink_matcher self) d e logical now Hm Hg) as [[m [v t]] Hd].
  unfold sink_matcher in Hd, Hp |- *. rewrite Hd. simpl.
  pose proof (dispatch_with_delivery_inv _ _ _ _ _ _ _ Hm Hd) as Hm1.
  pose proof (dispatch_delivery_tokens _ _ _ _ _ _ _ _ Hm Hp Hd) as Ht.
  pose proof (dispatch_delivery_generation _ _ _ _ _ _ _ Hd) as Hgen.
  destruct (dispatch_with_delivery_owner _ _ _ _ _ _ _ _ Hm Hd) as [Ho Hq].
  pose proof (dispatch_delivery_token _ _ _ _ _ _ _ _ Hd) as Hv.
  destruct v as [| |a]; [subst t| subst t|].
  - do 2 eexists. split; [done|]. split; [by split|by apply plain_own|done|unfold sink_matcher; simpl; lia].
  - do 2 eexists. split; [done|]. split; [by split|by apply plain_own|done|unfold sink_matcher; simpl; lia].
  - destruct Hv as [tok ->]. destruct (perform self a) as [sources res] eqn:Ef.
    destruct Ht as (Hpd & Hd1 & Hk1). rewrite <- Hd1, <- Hk1 in Hpd.
    set (del := match res with Ok _ => Delivered | Err _ => RejectedOriginalForwarded end).
    destruct (report_pending_token m tok del Hpd) as [Hp2 Hacc].
    pose proof (report_delivery_inv m tok del Hm1) as Hm2.
    pose proof (report_generation m tok del) as Hg2.
    pose proof (λ q, report_owner m tok del q Hm1) as Hown.
    exists (mkMatcherSink (ms_set_tx (ms_hyprland (sk_state self), (report_delivery m tok del).1)
      (sk_state self)) (sk_inject self) sources (sk_focus self) (sk_env self)
      (S (sk_calls self)) (sk_panicked self)),
      (match res with Ok _ => VerdictSwallow | Err _ => VerdictPass end).
    split; [subst del; by destruct res|].
    destruct (report_delivery m tok del) as [m2 acc]. simpl in *. subst acc.
    split; simpl; unfold sink_matcher; simpl; [by split| | |lia].
    + specialize (Hown (d, code e)). simpl in Hown. rewrite Hown, Hd1, Hk1.
      rewrite (bool_decide_true ((d, code e) = _)), andb_true_r by done.
      replace (bool_decide (del = RejectedOriginalForwarded))
        with (negb (match res with Ok _ => true | Err _ => false end)) by (by destruct res).
      replace (match res with Ok _ => VerdictSwallow | Err _ => VerdictPass end)
        with (if match res with Ok _ => true | Err _ => false end then VerdictSwallow
              else VerdictPass) by (by destruct res).
      eapply replaced_own; [|done]. intros Hmod. by apply owner_modifier.
    + intros q Hne. transitivity (owner m q); [|by apply Hq]. specialize (Hown q).
      simpl in Hown. rewrite Hown, Hd1, Hk1, (bool_decide_false (q = _)) by done. by rewrite andb_false_r.
Qed.

(** ** Runs of the engine *)

Inductive SinkOp : Type :=
  | SinkKey (device : DeviceId) (event : KeyEvent) (focused_app : option string)
  | SinkDeviceReset (device : DeviceId)
  | SinkStreamReset
  | SinkReload (cfg : result string Config).

Definition sink_do (self : MatcherSink) (op : SinkOp) : MatcherSink :=
  match op with
  | SinkKey d e app => (on_device_event self d e app).1
  | SinkDeviceReset d => on_device_reset self d
  | SinkStreamReset => on_stream_reset self
  | SinkReload cfg =>
      mkMatcherSink (reload (sk_state self) cfg).1 (sk_inject self) (sk_sources self)
        (sk_focus self) (sk_env self) (sk_calls self) (sk_panicked self)
  end.
Definition sink_run (self : MatcherSink) (ops : list SinkOp) : MatcherSink :=
  fold_left sink_do ops self.

(** Reloads carry configurations the loader built. *)
Definition sink_op_ok (op : SinkOp) : Prop := ∀ cfg, op = SinkReload (Ok cfg) → loaded cfg.

(** The operation neither reports the press nor resets its device. *)
Definition spares (p : Press) (op : SinkOp) : bool :=
  match op with
  | SinkKey d e _ => negb (bool_decide ((d, code e) = p))
  | SinkDeviceReset d => negb (bool_decide (d = p.1))
  | SinkStreamReset => false
  | SinkReload _ => true
  end.

(** The engine with room for [n] more replacements. *)
Definition SinkRoom (n : nat) (self : MatcherSink) : Prop :=
  SinkInv self ∧ m_delivery_generation (sink_matcher self) + Z.of_nat n ≤ u64_max.

Lemma on_device_event_spec n self d e app :
  SinkRoom (S n) self →
  ∃ self' v, on_device_event self d e app = (self', v) ∧ sink_step self self' d e v ∧
    SinkRoom n self'.
Proof.
  intros [Hi Hg]. destruct (deliver_spec self d e app Hi ltac:(lia)) as (self' & v & Hd & Hs).
  exists self', v. simpl. unfold sink_deliver. rewrite (si_running _ Hi), Hd.
  split_and!; [done|done|]. split; [apply Hs|]. pose proof (ss_generation _ _ _ _ _ Hs). lia.
Qed.

(** An operation that issues no token. *)
Lemma SinkRoom_frame n self self' :
  SinkRoom (S n) self → MatcherInv (sink_matcher self') →
  m_pending_deliveries (sink_matcher self') = ∅ → sk_panicked self' = sk_panicked self →
  m_delivery_generation (sink_matcher self') = m_delivery_generation (sink_matcher self) →
  SinkRoom n self'.
Proof.
  intros [[Hm Hp Hr] Hg] Hm' Hp' Er Eg. split; [split; by rewrite ?Er|lia].
Qed.

Lemma sink_do_spec n self op :
  SinkRoom (S n) self → sink_op_ok op →
  SinkRoom n (sink_do self op) ∧
  ∀ p, spares p op = true → owner (sink_matcher (sink_do self op)) p = owner (sink_matcher self) p.
Proof.
  intros Hroom Hok. pose proof Hroom as [[Hm Hp Hr] _].
  destruct op as [d e app|d| |cfg].
  - destruct (on_device_event_spec n self d e app Hroom) as (self' & v & E & Hs & Hroom').
    cbn [sink_do]. rewrite E. split; [done|]. intros p Hsp. simpl in Hsp. bools.
    eapply ss_other; [done|congruence].
  - split.
    + apply (SinkRoom_frame n self); try done; [by apply reset_device_inv|].
      unfold sink_matcher in *. simpl. by rewrite Hp, map_filter_empty.
    + intros p Hsp. simpl in Hsp. bools.
      pose proof (matcher_step_owner _ (OpResetDevice d) _ _ p Hm eq_refl) as Ho. simpl in Ho.
      rewrite bool_decide_false in Ho by congruence. exact Ho.
  - split; [|done]. apply (SinkRoom_frame n self); try done. by apply Matcher_reset_inv.
  - simpl. unfold reload. destruct cfg as [cfg|err]; [|split; [by apply (SinkRoom_frame n self)|done]].
    destruct (_ && _); [split; [by apply (SinkRoom_frame n self)|done]|].
    destruct (Hok cfg eq_refl) as [rules Er]. split.
    + apply (SinkRoom_frame n self); try done. unfold sink_matcher, MatchingState_replace. simpl.
      rewrite Er. apply swap_rules_inv; [by apply invalidate_speculation_inv|].
      apply RuleSet_new_inv.
    + intros p _. by apply owner_eq.
Qed.

Lemma sink_run_spec ops n self :
  SinkRoom (length ops + n) self → Forall sink_op_ok ops →
  SinkRoom n (sink_run self ops) ∧
  ∀ p, Forall (λ op, spares p op = true) ops →
    owner (sink_matcher (sink_run self ops)) p = owner (sink_matcher self) p.
Proof.
  revert self. induction ops as [|op ops IH]; intros self Hr Hok; [done|].
  apply Forall_cons in Hok as [H1 H2].
  destruct (sink_do_spec (length ops + n) self op Hr H1) as [Hr1 Ho].
  destruct (IH (sink_do self op) Hr1 H2) as [Hr2 Ho2]. split; [done|].
  intros p [Hp Hps]%Forall_cons. simpl. by rewrite Ho2, Ho.
Qed.

(** Behind the broker a consumer sees matched presses. Run the engine's sink from a
    loaded configuration through any key events, device resets, stream resets and
    reloads, with any injector, source queue, focus cache and clock (fewer than 2^64
    operations). Then the worker never panics and leaves no replacement unsettled, and
    the release of a non-modifier key is answered exactly as its last press was:
    swallowed with it when the replacement took effect, passed with it when no rule
    fired or when the injection or queueing failed and the original went through. In
    between anything may happen on other keys and devices, reloads included. *)
Theorem broker_release_matches_press cfg inject sources focus env ops1 d down app ops2 up app' :
  loaded cfg →
  Forall sink_op_ok (ops1 ++ ops2) →
  Z.of_nat (length (ops1 ++ ops2)) + 2 ≤ u64_max →
  kind down = KeyDown → kind up = KeyUp → code up = code down →
  is_modifier (code down) = false →
  Forall (λ op, spares (d, code down) op = true) ops2 →
  let s1 := sink_run (mkMatcherSink (MatchingState_new cfg) inject sources focus env 0 false)
    ops1 in
  let '(s2, v1) := on_device_event s1 d down app in
  let s3 := sink_run s2 ops2 in
  let '(s4, v2) := on_device_event s3 d up app' in
  v2 = v1 ∧ sk_panicked s4 = false ∧ m_pending_deliveries (sink_matcher s4) = ∅.
Proof.
  intros [rules Er] [Hok1 Hok2]%Forall_app Hlen Hd Hu Hc Hmod Hsp.
  rewrite length_app in Hlen. set (s0 := mkMatcherSink _ _ _ _ _ _ _).
  assert (SinkRoom (length ops1 + S (length ops2 + 1)) s0) as H0.
  { split; [split; try done|].
    - unfold sink_matcher. simpl. rewrite Er. apply MatcherInv_new, RuleSet_new_inv.
    - unfold sink_matcher. simpl. lia. }
  destruct (sink_run_spec ops1 _ s0 H0 Hok1) as [H1 _].
  destruct (on_device_event_spec _ _ d down app H1) as (s2 & v1 & E1 & Hs1 & H2).
  cbv zeta. rewrite E1.
  destruct (sink_run_spec ops2 _ s2 H2 Hok2) as [H3 Ho].
  destruct (on_device_event_spec _ _ d up app' H3) as (s4 & v2 & E2 & Hs2 & [Hi4 _]).
  rewrite E2. split_and!; [|apply Hi4|apply Hi4].
  pose proof (ss_own _ _ _ _ _ Hs1) as O1. pose proof (ss_own _ _ _ _ _ Hs2) as O2.
  rewrite Hc, Hu, Hmod, (Ho _ Hsp) in O2. rewrite Hd, Hmod in O1.
  inversion O1; subst;
    match goal with H : _ = owner (sink_matcher s2) _ |- _ => rewrite <- H in O2 end;
    by inversion O2.
Qed.

(** The injector refuses; the press and its release both pass, across a reload and
    another device's press. *)
Definition a_down : KeyEvent := mkKeyEvent KeyA KeyDown mods_empty.
Definition a_up : KeyEvent := mkKeyEvent KeyA KeyUp mods_empty.
Definition between : list SinkOp :=
  [SinkReload (Ok a_to_b_config); SinkKey 8 a_down None; SinkReload (Err "unreadable")].

Lemma broker_release_matches_press_witness :
  let s0 := mkMatcherSink (MatchingState_new a_to_b_config) (λ _ _, Err (Inject "refused")) None
    None quiet_env 0 false in
  let '(s2, v1) := on_device_event s0 7 a_down None in
  let '(s4, v2) := on_device_event (sink_run s2 between) 7 a_up None in
  v2 = VerdictPass ∧ v1 = VerdictPass ∧ sk_panicked s4 = false.
Proof.
  pose proof (broker_release_matches_press a_to_b_config (λ _ _, Err (Inject "refused")) None None
    quiet_env [] 7 a_down None between a_up None ltac:(by eexists)
    ltac:(repeat constructor; intros cfg [=]; subst; by eexists)
    ltac:(vm_compute; discriminate) eq_refl eq_refl eq_refl eq_refl ltac:(repeat constructor)) as H.
  cbn [sink_run fold_left] in H. cbv zeta in *.
  destruct (on_device_event _ 7 a_down None) as [s2 v1] eqn:E1.
  destruct (on_device_event (sink_run s2 between) 7 a_up None) as [s4 v2].
  destruct H as (-> & Hp & _). apply (f_equal snd) in E1. simpl in E1.
  split_and!; [| |done]; rewrite <- E1; vm_compute; reflexivity.
Defined.
