(* ===== verification/BrokerPath.v ===== *)
(** * From the broker's requests to the engine

    The daemon behind the broker is [LinuxBackend::serve] (Client.v) over the engine's
    sink (Daemon.v), which shares its matching state with the thread that reloads the
    configuration: the sink takes the lock once per call, so reloads happen between its
    calls. [SharedSink] is the sink with the reloads still to come, and every request the
    client serves is a run of the engine in the sense of EngineThm.v. *)

From S2P Require Import Prelude Event TapFsm Rule MatcherInv Ownership Config Bridge Desktop.
From S2P Require Import Keymap Sink Daemon DaemonThm EngineThm Protocol KeyState Client.

(** ** The engine's sink with reloads between its calls *)

(** The sink, and what each later call finds reloaded since the one before it. *)
Record SharedSink : Type := mkSharedSink {
  sh_sink : MatcherSink;
  sh_reloads : list (list (result string Config));
}.

(** The reloads that happened before the next call. *)
Definition catch_up (sh : SharedSink) : SharedSink :=
  match sh_reloads sh with
  | [] => sh
  | cfgs :: later => mkSharedSink (sink_run (sh_sink sh) (SinkReload <$> cfgs)) later
  end.

Definition sh_set_sink (sink : MatcherSink) (sh : SharedSink) : SharedSink :=
  mkSharedSink sink (sh_reloads sh).

#[export] Instance shared_sink : EventSink SharedSink := {
  on_event sh e app :=
    let '(sink, v) := on_event (sh_sink (catch_up sh)) e app in
    (sh_set_sink sink (catch_up sh), v);
  on_device_event sh d e app :=
    let '(sink, v) := on_device_event (sh_sink (catch_up sh)) d e app in
    (sh_set_sink sink (catch_up sh), v);
  on_device_reset sh d :=
    sh_set_sink (on_device_reset (sh_sink (catch_up sh)) d) (catch_up sh);
  on_stream_reset sh :=
    sh_set_sink (on_stream_reset (sh_sink (catch_up sh))) (catch_up sh);
}.

(** Reloads still to come: how many, and that the loader built them. *)
Definition to_come (sh : SharedSink) : nat := length (concat (sh_reloads sh)).
Definition reloads_loaded (sh : SharedSink) : Prop :=
  Forall (Forall (λ cfg, sink_op_ok (SinkReload cfg))) (sh_reloads sh).

(** [sh'] is reached from [sh] by [calls] calls, that is by the engine's run [ops]. *)
Record ran (sh : SharedSink) (ops : list SinkOp) (calls : nat) (sh' : SharedSink) : Prop := {
  ran_sink : sh_sink sh' = sink_run (sh_sink sh) ops;
  ran_ok : reloads_loaded sh → Forall sink_op_ok ops ∧ reloads_loaded sh';
  ran_count : (length ops + to_come sh' = calls + to_come sh)%nat;
}.

Lemma ran_nil sh : ran sh [] 0 sh.
Proof. by split. Qed.

Lemma ran_app sh ops n sh' ops' n' sh'' :
  ran sh ops n sh' → ran sh' ops' n' sh'' → ran sh (ops ++ ops') (n + n') sh''.
Proof.
  intros [Hs Ho Hc] [Hs' Ho' Hc']. split.
  - rewrite Hs', Hs. unfold sink_run. by rewrite fold_left_app.
  - intros [H1 H2]%Ho. apply Ho' in H2 as [H3 H4]. by rewrite Forall_app.
  - rewrite length_app. lia.
Qed.

(** Reloads spare every press. *)
Lemma ran_catch_up sh :
  ∃ ops, ran sh ops 0 (catch_up sh) ∧ ∀ p, Forall (λ op, spares p op = true) ops.
Proof.
  unfold catch_up. destruct sh as [k [|cfgs later]]; cbn [sh_reloads sh_sink].
  { exists []. split; [apply ran_nil|by intros]. }
  exists (SinkReload <$> cfgs). split.
  - split; unfold reloads_loaded, to_come; cbn [sh_reloads sh_sink concat]; [done| |].
    + intros [H1 H2]%Forall_cons. split; [|done]. by apply Forall_fmap.
    + rewrite length_app, length_fmap. lia.
  - intros p. apply Forall_fmap, Forall_true. done.
Qed.

(** One call is its operation, after the reloads. *)
Lemma ran_call sh op (sink : MatcherSink) :
  sink = sink_do (sh_sink (catch_up sh)) op → sink_op_ok op →
  ∃ ops, ran sh ops 1 (sh_set_sink sink (catch_up sh)) ∧
    ∀ p, spares p op = true → Forall (λ op, spares p op = true) ops.
Proof.
  intros -> Hok. destruct (ran_catch_up sh) as (ops & [Hs Ho Hc] & Hsp).
  exists (ops ++ [op]). split.
  - split; [|by intros [H1 H2]%Ho; rewrite Forall_app, Forall_singleton|].
    + cbn [sh_set_sink sh_sink]. rewrite Hs. unfold sink_run. by rewrite fold_left_app.
    + rewrite length_app. unfold to_come in *. simpl in *. lia.
  - intros p Hp. rewrite Forall_app, Forall_singleton. done.
Qed.

Lemma ran_key sh d e app :
  ∃ ops, ran sh ops 1 (on_device_event sh d e app).1 ∧
    ∀ p, p ≠ (d, code e) → Forall (λ op, spares p op = true) ops.
Proof.
  destruct (ran_call sh (SinkKey d e app) _ eq_refl) as (ops & Hr & Hsp); [by intros ? [=]|].
  exists ops. split.
  - cbn [on_device_event shared_sink sink_do] in *.
    by destruct (on_device_event (sh_sink (catch_up sh)) d e app).
  - intros p Hp. apply Hsp. simpl. apply negb_true_iff, bool_decide_eq_false. congruence.
Qed.

Lemma ran_reset sh d :
  ∃ ops, ran sh ops 1 (on_device_reset sh d) ∧
    ∀ p, p.1 ≠ d → Forall (λ op, spares p op = true) ops.
Proof.
  destruct (ran_call sh (SinkDeviceReset d) _ eq_refl) as (ops & Hr & Hsp); [by intros ? [=]|].
  exists ops. split; [exact Hr|]. intros p Hp. apply Hsp. simpl.
  apply negb_true_iff, bool_decide_eq_false. congruence.
Qed.

(** ** The client's requests as runs of the engine *)

(** The request reports a press or a release of key [k]. *)
Definition reports (k : KeyCode) (m : Message) : bool :=
  bool_decide (event_type (event m) = 1) &&
  (bool_decide (value (event m) = 0) || bool_decide (value (event m) = 1)) &&
  bool_decide (Linux.from_evdev (raw_code (event m)) = Some k).

(** The request is of another device, or stays in epoch [e] of the press's device without
    resetting it or reporting the key. *)
Definition leaves (p : Press) (e : Z) (m : Message) : bool :=
  negb (bool_decide (generation m = p.1)) ||
  (bool_decide (epoch m = e) &&
   match operation m with
   | Event => negb (reports p.2 m)
   | SnapshotKey => true
   | _ => false
   end).

Definition spare_all (p : Press) (ops : list SinkOp) : Prop :=
  Forall (λ op, spares p op = true) ops.

(** Admission resets the device of a new epoch, and only that. *)
Lemma validate_ran c sh m c' sh' :
  validate c sh m = Ok (c', sh') →
  ∃ ops n, (n ≤ 1)%nat ∧ ran sh ops n sh' ∧
    (∀ p, p.1 ≠ generation m ∨ cs_epochs c !! generation m = Some (epoch m) → spare_all p ops) ∧
    (cs_epochs c !! generation m = Some (epoch m) → sh' = sh).
Proof.
  unfold validate. destruct (negb _); [done|]. destruct (stale c m); [done|].
  destruct (cs_epochs c !! generation m) as [e|]; [case_bool_decide as He|]; cbn [negb];
    intros [= <- <-].
  - exists [], 0%nat. split_and!; [lia|apply ran_nil|by intros; apply Forall_nil|done].
  - destruct (ran_reset sh (generation m)) as (ops & Hr & Hsp).
    exists ops, 1%nat. split_and!; [lia|done| |].
    + intros p [Hp|[= Hp]]; [by apply Hsp|done].
    + by intros [= Hp].
  - exists [], 0%nat. split_and!; [lia|apply ran_nil|by intros; apply Forall_nil|done].
Qed.

Lemma dispatch_raw_ran c sh m f c' sh' op :
  dispatch_raw c sh m f = (c', sh', op) →
  ∃ ops n, (n ≤ 1)%nat ∧ ran sh ops n sh' ∧
    ∀ p, p.1 ≠ generation m ∨ reports p.2 m = false → spare_all p ops.
Proof.
  assert (∃ ops n, (n ≤ 1)%nat ∧ ran sh ops n sh ∧
    ∀ p, p.1 ≠ generation m ∨ reports p.2 m = false → spare_all p ops) as Hid.
  { exists [], 0%nat. split_and!; [lia|apply ran_nil|by intros; apply Forall_nil]. }
  unfold dispatch_raw. destruct (bool_decide (event_type _ = 1)) eqn:Ht; cbn [andb];
    [|by intros; simplify_eq].
  destruct (bool_decide (value (event m) = 2)) eqn:H2; cbn [andb]; [by intros; simplify_eq|].
  destruct (bool_decide (0 ≤ value (event m) ≤ 2)) eqn:H02; [|by intros; simplify_eq].
  destruct (Linux.from_evdev (raw_code (event m))) as [k|] eqn:Hk; [|by intros; simplify_eq].
  set (ev := mkKeyEvent _ _ _).
  destruct (on_device_event sh (generation m) ev f) as [s v] eqn:Hv. intros [= <- <- <-].
  destruct (ran_key sh (generation m) ev f) as (ops & Hr & Hsp). rewrite Hv in Hr.
  exists ops, 1%nat. split_and!; [lia|done|]. intros p Hp. apply Hsp.
  intros ->. destruct Hp as [|Hp]; [done|]. revert Hp. unfold reports.
  rewrite Ht, Hk. simpl. rewrite (bool_decide_true (Some k = _)), andb_true_r by done.
  intros []%orb_false_iff. bools. lia.
Qed.

(** What follows the admission of a request that is served. *)
Lemma handle_ran c sh m f c1 sh1 c' sh' reply :
  validate c sh m = Ok (c1, sh1) → serve_request c sh m f = (c', sh', Ok reply) →
  ∃ ops n, (n ≤ 1)%nat ∧ ran sh1 ops n sh' ∧ ∀ p e, leaves p e m = true → spare_all p ops.
Proof.
  intros Hv Hs. pose proof Hs as (Hreq & _)%serve_request_books.
  unfold serve_request in Hs. rewrite Hv in Hs.
  assert (∀ sh'', sh'' = on_device_reset sh1 (generation m) →
    match operation m with Event | SnapshotKey => False | _ => True end →
    ∃ ops n, (n ≤ 1)%nat ∧ ran sh1 ops n sh'' ∧ ∀ p e, leaves p e m = true → spare_all p ops)
    as Hreset.
  { intros ? -> Hop. destruct (ran_reset sh1 (generation m)) as (ops & Hr & Hsp).
    exists ops, 1%nat. split_and!; [lia|done|]. intros p e Hl. apply Hsp. intros Hg.
    unfold leaves in Hl. rewrite bool_decide_true in Hl by done.
    destruct (operation m); simpl in Hl; rewrite ?andb_false_r in Hl; done. }
  destruct (operation m) eqn:Hop; try done; try (apply Hreset; simplify_eq; done).
  - destruct (dispatch_raw _ _ _ _) as [[c2 s2] op] eqn:Hd. simplify_eq.
    apply dispatch_raw_ran in Hd as (ops & n & ? & ? & Hsp). exists ops, n.
    split_and!; [done..|]. intros p e Hl. apply Hsp. unfold leaves in Hl. rewrite Hop in Hl.
    apply orb_true_iff in Hl as [Hl|[_ Hl]%andb_true_iff]; bools; auto.
  - case_match; simplify_eq. exists [], 0%nat.
    split_and!; [lia|apply ran_nil|by intros; apply Forall_nil].
Qed.

(** A request that leaves a press alone keeps its device's epoch. *)
Lemma leaves_epoch {S} `{EventSink S} c (sink : S) m f c' sink' reply p e :
  serve_request c sink m f = (c', sink', Ok reply) →
  cs_epochs c !! p.1 = Some e → leaves p e m = true → cs_epochs c' !! p.1 = Some e.
Proof.
  intros (_ & _ & He & _)%serve_request_books Hep Hl. rewrite He. unfold leaves in Hl.
  apply orb_true_iff in Hl as [Hl|[Hl Hl']%andb_true_iff]; bools.
  - case_bool_decide; simpl; [rewrite lookup_delete_ne by done|]; by rewrite lookup_insert_ne.
  - case_bool_decide as Hop; [by rewrite Hop in Hl'|]. simpl. rewrite lookup_insert.
    case_decide; congruence.
Qed.

(** Every request served is a run of at most two calls, and one that leaves a press alone
    spares it. *)
Lemma serve_request_ran c sh m f c' sh' reply :
  serve_request c sh m f = (c', sh', Ok reply) →
  ∃ ops n, (n ≤ 2)%nat ∧ ran sh ops n sh' ∧
    ∀ p e, cs_epochs c !! p.1 = Some e → leaves p e m = true → spare_all p ops.
Proof.
  intros Hs. destruct (validate c sh m) as [[c1 sh1]|] eqn:Hv;
    [|unfold serve_request in Hs; by rewrite Hv in Hs].
  destruct (handle_ran _ _ _ _ _ _ _ _ _ Hv Hs) as (ops2 & n2 & Hn2 & Hr2 & Hsp2).
  apply validate_ran in Hv as (ops1 & n1 & Hn1 & Hr1 & Hsp1 & _).
  exists (ops1 ++ ops2), (n1 + n2)%nat. split_and!; [lia|by eapply ran_app|].
  intros p e Hep Hl. apply Forall_app. split; [|by eapply Hsp2].
  apply Hsp1. unfold leaves in Hl. apply orb_true_iff in Hl as [Hl|[Hl _]%andb_true_iff]; bools.
  - left. congruence.
  - destruct (decide (p.1 = generation m)) as [Hg|]; [right|by left]. congruence.
Qed.

(** The session so far and a stretch of it. *)
Lemma serve_app {S} `{EventSink S} c (sink : S) rs1 rs2 :
  (serve c sink (rs1 ++ rs2)).2 = Ok () →
  ∃ c1 sink1 replies1, serve c sink rs1 = (c1, sink1, replies1, Ok ()) ∧
    length replies1 = length rs1 ∧ (serve c1 sink1 rs2).2 = Ok () ∧
    (serve c sink (rs1 ++ rs2)).1.2 = replies1 ++ (serve c1 sink1 rs2).1.2.
Proof.
  revert c sink. induction rs1 as [|[m f] rs1 IH]; intros c sink Hok; [by do 3 eexists|].
  cbn [app serve] in *.
  destruct (serve_request c sink m f) as [[c1 s1] [reply|er]]; [|done].
  destruct (serve c1 s1 (rs1 ++ rs2)) as [[[c2 s2] replies] r] eqn:Hrun.
  cbn [fst snd] in *. subst r. specialize (IH c1 s1). rewrite Hrun in IH.
  destruct (IH eq_refl) as (c3 & s3 & replies1 & Hs & Hl & Hok & Hr). rewrite Hs.
  do 3 eexists. split; [done|]. cbn [length fst snd] in *. rewrite Hl, Hr. done.
Qed.

Lemma serve_ran c sh rs c' sh' replies :
  serve c sh rs = (c', sh', replies, Ok ()) →
  ∃ ops n, (n ≤ 2 * length rs)%nat ∧ ran sh ops n sh' ∧
    ∀ p e, cs_epochs c !! p.1 = Some e → Forall (λ r, leaves p e r.1 = true) rs →
      spare_all p ops ∧ cs_epochs c' !! p.1 = Some e.
Proof.
  revert c sh replies. induction rs as [|[m f] rs IH]; intros c sh replies Hs.
  { simplify_eq/=. exists [], 0%nat. split_and!; [lia|apply ran_nil|].
    intros p e He _. split; [apply Forall_nil|]; done. }
  cbn [serve] in Hs. destruct (serve_request c sh m f) as [[c1 s1] [reply|er]] eqn:Hr; [|done].
  destruct (serve c1 s1 rs) as [[[c2 s2] replies'] r] eqn:Hrun. simplify_eq.
  destruct (IH _ _ _ Hrun) as (ops2 & n2 & Hn2 & Hr2 & Hsp2).
  destruct (serve_request_ran _ _ _ _ _ _ _ Hr) as (ops1 & n1 & Hn1 & Hr1 & Hsp1).
  exists (ops1 ++ ops2), (n1 + n2)%nat. split_and!; [cbn [length]; lia|by eapply ran_app|].
  intros p e He [Hl Hls]%Forall_cons.
  destruct (Hsp2 p e) as [H1 H2]; [by eapply leaves_epoch|done|].
  split; [|done]. apply Forall_app. split; [by eapply Hsp1|done].
Qed.

(** ** Room for the run *)

(** The engine behind the client with room for [n] more calls. *)
Definition Room (n : nat) (sh : SharedSink) : Prop :=
  SinkRoom (n + to_come sh) (sh_sink sh) ∧ reloads_loaded sh.

Definition shared_owner (sh : SharedSink) (p : Press) : Ownership :=
  owner (sink_matcher (sh_sink sh)) p.

Lemma SinkRoom_le n n' self : (n' ≤ n)%nat → SinkRoom n self → SinkRoom n' self.
Proof. intros Hn [Hi Hg]. split; [done|lia]. Qed.

Lemma Room_le n n' sh : (n' ≤ n)%nat → Room n sh → Room n' sh.
Proof. intros Hn [Hr Hl]. split; [|done]. eapply SinkRoom_le; [|done]. lia. Qed.

Lemma ran_room sh ops calls sh' n :
  ran sh ops calls sh' → Room (calls + n) sh →
  Room n sh' ∧ ∀ p, spare_all p ops → shared_owner sh' p = shared_owner sh p.
Proof.
  intros [Hs Ho Hc] [Hr [Hok Hl]%Ho].
  destruct (sink_run_spec ops (n + to_come sh') (sh_sink sh)) as [H1 H2]; [|done|].
  { eapply SinkRoom_le; [|done]. lia. }
  unfold Room, shared_owner. by rewrite Hs.
Qed.

(** One key event through the shared sink. *)
Lemma shared_event_spec n sh d e app :
  Room (S n) sh →
  ∃ sh' v, on_device_event sh d e app = (sh', v) ∧ Room n sh' ∧
    sink_own (is_modifier (code e)) (shared_owner sh (d, code e)) (kind e) v
      (shared_owner sh' (d, code e)).
Proof.
  intros Hroom. destruct (ran_catch_up sh) as (ops & Hr & Hsp).
  destruct (ran_room _ _ _ _ (S n) Hr Hroom) as [[Hs Hl] Ho].
  destruct (on_device_event_spec (n + to_come (catch_up sh)) (sh_sink (catch_up sh)) d e app Hs)
    as (self' & v & E & Hst & Hs').
  exists (sh_set_sink self' (catch_up sh)), v. split_and!.
  - cbn [on_device_event shared_sink]. by rewrite E.
  - by split.
  - rewrite <- (Ho _ (Hsp _)). apply Hst.
Qed.

(** ** Presses and releases *)

(** A press or release the client serves is one event of the engine, at most one reset
    after the request before, and its reply is the engine's verdict. *)
Lemma serve_key c sh m f c' sh' reply k n :
  serve_request c sh m f = (c', sh', Ok reply) → operation m = Event → reports k m = true →
  is_modifier k = false → Room (S (S n)) sh →
  ∃ v o, operation reply = (if bool_decide (v = VerdictSwallow) then Swallow else Pass) ∧
    sink_own false o (if bool_decide (value (event m) = 1) then KeyDown else KeyUp) v
      (shared_owner sh' (generation m, k)) ∧
    (cs_epochs c !! generation m = Some (epoch m) → o = shared_owner sh (generation m, k)) ∧
    Room n sh' ∧ cs_epochs c' !! generation m = Some (epoch m).
Proof.
  intros Hs Hop Hk Hmod Hroom. pose proof Hs as (_ & _ & He & _)%serve_request_books.
  rewrite bool_decide_false in He by congruence.
  unfold serve_request in Hs. destruct (validate c sh m) as [[c1 sh1]|] eqn:Hv; [|done].
  apply validate_ran in Hv as (ops & n1 & Hn1 & Hr & _ & Hsame).
  destruct (ran_room _ _ _ _ (S n) Hr) as [Hroom1 _]; [by eapply Room_le; [|done]; lia|].
  unfold reports in Hk. apply andb_true_iff in Hk as [[Ht Hval]%andb_true_iff Hk].
  rewrite orb_true_iff, !bool_decide_eq_true in Hval. bools.
  destruct (engine_sees_physical_keys c1 sh1 m f k Ht Hval Hk)
    as (ev & Hd & Hcode & _ & _ & Hkind). rewrite Hmod in Hkind.
  destruct (shared_event_spec n sh1 (generation m) ev f Hroom1) as (sh2 & v & Ev & Hroom2 & Ho).
  rewrite Hop, Hd, Ev in Hs. simplify_eq/=. rewrite Hmod, Hkind in Ho.
  exists v, (shared_owner sh1 (generation m, code ev)). split_and!; try done.
  - intros ->%Hsame. done.
  - rewrite He. simpl. apply lookup_insert_eq.
Qed.

Lemma release_verdict o1 v1 o2 v2 o3 :
  sink_own false o1 KeyDown v1 o2 → sink_own false o2 KeyUp v2 o3 → v2 = v1.
Proof. intros H1 H2. inversion H1; subst; inversion H2; by subst. Qed.

Lemma Room_start cfg inject sources focus env reloads n :
  loaded cfg → Forall (Forall (λ cfg, sink_op_ok (SinkReload cfg))) reloads →
  Z.of_nat (n + length (concat reloads)) ≤ u64_max →
  Room n (mkSharedSink
    (mkMatcherSink (MatchingState_new cfg) inject sources focus env 0 false) reloads).
Proof.
  intros [rules Er] Hl Hn. split; [|done]. split; [split; try done|].
  - unfold sink_matcher. simpl. rewrite Er. apply MatcherInv_new, RuleSet_new_inv.
  - unfold sink_matcher, to_come. simpl. lia.
Qed.

(** A served session answers the release as the press. *)
Lemma path_release_matches cfg inject sources focus env reloads
    rs1 down f rs2 up f' k :
  loaded cfg → Forall (Forall (λ cfg, sink_op_ok (SinkReload cfg))) reloads →
  Z.of_nat (2 * (length rs1 + length rs2) + 4 + length (concat reloads)) ≤ u64_max →
  operation down = Event → reports k down = true → value (event down) = 1 →
  operation up = Event → reports k up = true → value (event up) = 0 →
  is_modifier k = false → generation up = generation down → epoch up = epoch down →
  Forall (λ r, leaves (generation down, k) (epoch down) r.1 = true) rs2 →
  let session := serve ClientState_default (mkSharedSink
    (mkMatcherSink (MatchingState_new cfg) inject sources focus env 0 false) reloads)
    (rs1 ++ (down, f) :: rs2 ++ [(up, f')]) in
  session.2 = Ok () →
  ∃ replies1 r1 replies2 r2, session.1.2 = replies1 ++ r1 :: replies2 ++ [r2] ∧
    length replies1 = length rs1 ∧ length replies2 = length rs2 ∧ operation r2 = operation r1.
Proof.
  intros Hcfg Hl Hn Hd1 Hd2 Hd3 Hu1 Hu2 Hu3 Hmod Hg He Hsp session Hok.
  pose proof (Room_start cfg inject sources focus env reloads
    (2 * length rs1 + (4 + 2 * length rs2)) Hcfg Hl ltac:(lia)) as Hroom.
  subst session. set (sh0 := mkSharedSink _ _) in *.
  apply serve_app in Hok as (c1 & sh1 & replies1 & Hs1 & Hlen1 & Hok & ->).
  destruct (serve_ran _ _ _ _ _ _ Hs1) as (ops1 & n1 & Hn1 & Hr1 & _).
  destruct (ran_room _ _ _ _ (4 + 2 * length rs2) Hr1) as [Hroom1 _];
    [by eapply Room_le; [|done]; lia|].
  cbn [serve] in Hok |- *.
  destruct (serve_request c1 sh1 down f) as [[c2 sh2] [r1|]] eqn:Ed; [|done].
  destruct (serve_key _ _ _ _ _ _ _ k (2 + 2 * length rs2) Ed) as (v1 & o1 & Er1 & Ho1 & _ & Hroom2 & Hep2); try done.
  destruct (serve c2 sh2 (rs2 ++ [(up, f')])) as [[[c5 sh5] rest] r] eqn:Hrest.
  cbn [fst snd] in Hok |- *. subst r.
  destruct (serve_app c2 sh2 rs2 [(up, f')]) as (c3 & sh3 & replies2 & Hs3 & Hlen2 & Hok3 & Hrep);
    [by rewrite Hrest|]. rewrite Hrest in Hrep. cbn [fst snd] in Hrep. subst rest.
  destruct (serve_ran _ _ _ _ _ _ Hs3) as (ops3 & n3 & Hn3 & Hr3 & Hsp3).
  destruct (ran_room _ _ _ _ 2 Hr3) as [Hroom3 Ho3]; [by eapply Room_le; [|done]; lia|].
  destruct (Hsp3 (generation down, k) (epoch down) Hep2 Hsp) as [Hsp' Hep3].
  cbn [serve] in Hok3 |- *.
  destruct (serve_request c3 sh3 up f') as [[c4 sh4] [r2|]] eqn:Eu; [|done].
  destruct (serve_key _ _ _ _ _ _ _ k 0 Eu) as (v2 & o2 & Er2 & Ho2 & Hsame & _); try done.
  exists replies1, r1, replies2, r2. split_and!; try done.
  rewrite Hg, He in *. rewrite Hsame in Ho2 by done. rewrite (Ho3 _ Hsp') in Ho2.
  rewrite Hd3 in Ho1. rewrite Hu3 in Ho2. by rewrite Er1, Er2, (release_verdict _ _ _ _ _ Ho1 Ho2).
Qed.

(** A session that stops at an error has served the requests it answered. *)
Lemma serve_prefix {S} `{EventSink S} c (sink : S) rs1 rs2 :
  (length rs1 ≤ length (serve c sink (rs1 ++ rs2)).1.2)%nat →
  (serve c sink rs1).2 = Ok () ∧
  ∃ replies2, (serve c sink (rs1 ++ rs2)).1.2 = (serve c sink rs1).1.2 ++ replies2.
Proof.
  revert c sink. induction rs1 as [|[m f] rs1 IH]; intros c sink Hl; [by split; [|eexists]|].
  cbn [app serve] in *. destruct (serve_request c sink m f) as [[c1 s1] [reply|er]]; [|simpl in Hl; lia].
  specialize (IH c1 s1). destruct (serve c1 s1 (rs1 ++ rs2)) as [[[c2 s2] replies] r].
  destruct (serve c1 s1 rs1) as [[[c3 s3] replies1] r1]. cbn [fst snd length] in *.
  destruct IH as [-> [replies2 ->]]; [lia|]. split; [done|by eexists].
Qed.

(** C3. The whole path behind the broker answers a release as its press. Take any session
    of broker requests that the client serves over the engine, from a loaded configuration
    and with reloads at any point between the engine's calls (fewer than 2^64 calls and
    reloads). When a non-modifier key of a device goes down and later up in one epoch of
    the device, and in between the device is not reset and the key not reported again,
    whatever other devices and keys do, then the client's reply to the release is the one
    it gave to the press: both swallowed or both passed, also when the replacement failed
    or the rules changed under the held key. *)
Theorem client_release_matches_press cfg inject sources focus env reloads
    rs1 down f rs2 up f' k :
  loaded cfg → Forall (Forall (λ cfg, sink_op_ok (SinkReload cfg))) reloads →
  Z.of_nat (2 * (length rs1 + length rs2) + 4 + length (concat reloads)) ≤ u64_max →
  operation down = Event → reports k down = true → value (event down) = 1 →
  operation up = Event → reports k up = true → value (event up) = 0 →
  is_modifier k = false → generation up = generation down → epoch up = epoch down →
  Forall (λ r, leaves (generation down, k) (epoch down) r.1 = true) rs2 →
  let session := serve ClientState_default (mkSharedSink
    (mkMatcherSink (MatchingState_new cfg) inject sources focus env 0 false) reloads)
    (rs1 ++ (down, f) :: rs2 ++ [(up, f')]) in
  session.2 = Ok () →
  ∃ replies1 r1 replies2 r2, session.1.2 = replies1 ++ r1 :: replies2 ++ [r2] ∧
    length replies1 = length rs1 ∧ length replies2 = length rs2 ∧ operation r2 = operation r1.
Proof. intros. by apply (path_release_matches cfg inject sources focus env reloads rs1 down f rs2 up f' k). Qed.

(** Key A of device 9 is replaced while device 12 joins and leaves; the rules are gone by
    the time it is released, and its release is still swallowed. *)
Definition no_rules : Config := mkConfig DaemonSection_default ∅ ∅ (RuleSet_new []).
Definition raw_request (g n : Z) (op : Operation) (c v : Z) : Message :=
  mkMessage op g 1 n (key c v).
Definition meanwhile : list (Message * option string) :=
  [(raw_request 12 1 Event 30 1, None); (raw_request 9 2 Event 30 2, None);
   (raw_request 12 2 DeviceRetire 0 0, None); (raw_request 9 3 Event 48 1, None)].
Definition path_start : SharedSink :=
  mkSharedSink (mkMatcherSink (MatchingState_new a_to_b_config) (λ _ _, Ok ()) None None
    quiet_env 0 false) [[]; [Err "unreadable"; Ok no_rules]].
Definition path_session : ClientState * SharedSink * list Message * result BackendError unit :=
  serve ClientState_default path_start
    ([] ++ (raw_request 9 1 Event 30 1, None) :: meanwhile ++ [(raw_request 9 4 Event 30 0, None)]).

Lemma client_release_matches_press_witness :
  path_session.2 = Ok () ∧
  ∃ r1 replies2 r2, path_session.1.2 = r1 :: replies2 ++ [r2] ∧ length replies2 = 4%nat ∧
    operation r1 = Swallow ∧ operation r2 = Swallow.
Proof.
  assert (path_session.2 = Ok ()) as Hok by (vm_compute; reflexivity).
  split; [exact Hok|].
  destruct (client_release_matches_press a_to_b_config (λ _ _, Ok ()) None None quiet_env
    [[]; [Err "unreadable"; Ok no_rules]] [] (raw_request 9 1 Event 30 1) None meanwhile
    (raw_request 9 4 Event 30 0) None KeyA
    ltac:(by eexists) ltac:(repeat constructor; intros cfg [=]; subst; by eexists)
    ltac:(vm_compute; discriminate) eq_refl eq_refl eq_refl eq_refl eq_refl eq_refl eq_refl
    eq_refl eq_refl ltac:(repeat constructor) Hok) as (l & r1 & l2 & r2 & E & E1 & E2 & E3).
  apply nil_length_inv in E1. subst l. exists r1, l2, r2. rewrite E3.
  split; [exact E|]. split; [exact E2|].
  assert (operation <$> head path_session.1.2 = Some Swallow) as Hh by (vm_compute; reflexivity).
  change path_session.1.2 with
    (serve ClientState_default path_start ([] ++ (raw_request 9 1 Event 30 1, None) ::
      meanwhile ++ [(raw_request 9 4 Event 30 0, None)])).1.2 in Hh.
  unfold path_start in Hh. rewrite E in Hh. cbn in Hh. injection Hh as ->. split; reflexivity.
Defined.
