(* ===== verification/Whole.v ===== *)
(** * The daemon as a whole

    [daemon_run] of Commands.v with the loops the daemon really runs: the worker of an
    installed session (Installed.v), the research listener (Research.v) and the broker's
    client over the engine (Client.v, BrokerPath.v). The log of a run is what its loop told
    the compositor or the broker. *)

From Stdlib Require Import Strings.Byte.
From S2P Require Import Prelude Event TapFsm Rule MatcherInv Ownership Config Protocol Authorization Transactions.
From S2P Require Import TransactionsThm Wire Bridge BridgeThm Desktop Daemon Transport Admission AdmissionThm Installed.
From S2P Require Import DaemonThm InstalledThm Research Json Discovery Logging Control ControlThm Startup Commands EngineThm Keymap.
From S2P Require Import Sink Client BrokerPath.
Import Byte(byte).

(** What the broker's connection brings until it ends: the duplicated descriptor, the
    requests with the focus at each, the reloads between the engine's calls, and whether
    a signal asked for the end *)
Record BrokerInput : Type := mkBrokerInput {
  bi_cloned : result string unit;
  bi_requests : list (Message * option string);
  bi_reloads : list (list (result string Config));
  bi_requested : bool;
}.
Class BrokerStream (W : Type) : Type := broker_input : W → W * BrokerInput.

(** What a loop did: the calls to the compositor's handler, or the broker's requests with
    the replies to them *)
Inductive Log : Type :=
  | HandlerLog (calls : list Call)
  | BrokerLog (requests : list (Message * option string)) (replies : list Message).

Section whole.
Context {W : Type} `{Artifacts, Files W, Link W, Acceptor W, Worker W, BrokerStream W}.
(** The rounds and packets a run may take, and what its loops see of the clock, the locks
    and the caches *)
Context (rounds fuel : nat) (env : Env) (focus : nat → option FocusIdentity).

Definition failure (r : result Failure unit) : result StartError unit :=
  match r with Ok x => Ok x | Err f => Err (SInstalled f) end.
Definition backend_failure (r : result BackendError unit) : result StartError unit :=
  match r with Ok x => Ok x | Err e => Err (SBackend e) end.

(** The source queue, when there is a desktop *)
Definition queue_of (sources : bool) : option SourceQueue := if sources then Some empty_queue else None.

(** The sink of [run_linux] *)
Definition broker_sink (state : MatchingState) (sources : bool) (input : BrokerInput) : SharedSink :=
  mkSharedSink
    (mkMatcherSink state (λ _, inject None) (queue_of sources)
       (if sources then Some focus else None) env 0 false)
    (bi_reloads input).

Definition linux_loop (e : Engine) (state : MatchingState) (sources : bool) (w : W) :
    option (W * Log * result StartError unit) :=
  let handler : Recorded Handler := (mkHandler env 0 state (queue_of sources) false, []) in
  match e with
  | RunInstalled metadata =>
      '(w, h, r) ← installed_run rounds fuel metadata w handler;
      Some (w, HandlerLog h.2, failure r)
  | RunResearch peer identity =>
      '(w, h, r) ← research_run rounds peer identity w handler;
      Some (w, HandlerLog h.2, failure r)
  | RunBroker connection =>
      let '(w, input) := broker_input w in
      let '(_, _, replies, r) :=
        backend_run (mkLinuxBackend connection false false) (broker_sink state sources input)
          (bi_cloned input) (bi_requests input) (bi_requested input) in
      Some (w, BrokerLog (bi_requests input) replies, backend_failure r)
  end.
End whole.

(** ** Every loop keeps its promise *)

(** The reloads carry what the loader built, and a connection lasts fewer than 2^64 calls. *)
Class BrokerLaws (W : Type) `{BrokerStream W} : Prop := {
  broker_reloads w :
    Forall (Forall (λ cfg, sink_op_ok (SinkReload cfg))) (bi_reloads (broker_input w).2);
  broker_bounded w :
    Z.of_nat (2 * length (bi_requests (broker_input w).2) + 4 +
              length (concat (bi_reloads (broker_input w).2))) ≤ u64_max;
}.

(** A press and its release in one epoch of a device, with [rs] between them leaving both
    alone *)
Record press_and_release (k : KeyCode) (down : Message) (rs : list (Message * option string))
    (up : Message) : Prop := {
  pr_down : operation down = Event ∧ reports k down = true ∧ value (event down) = 1;
  pr_up : operation up = Event ∧ reports k up = true ∧ value (event up) = 0;
  pr_key : is_modifier k = false;
  pr_same : generation up = generation down ∧ epoch up = epoch down;
  pr_between : Forall (λ r, leaves (generation down, k) (epoch down) r.1 = true) rs;
}.

(** The release was answered as its press. *)
Definition answered_alike (requests : list (Message * option string)) (replies : list Message) : Prop :=
  ∀ rs1 down f rs2 up f' rs3 k r2,
    requests = rs1 ++ (down, f) :: rs2 ++ (up, f') :: rs3 → press_and_release k down rs2 up →
    replies !! (length rs1 + S (length rs2))%nat = Some r2 →
    ∃ r1, replies !! length rs1 = Some r1 ∧ operation r2 = operation r1.

Definition log_sound (l : Log) : Prop :=
  match l with
  | HandlerLog calls => proved_calls calls
  | BrokerLog requests replies => answered_alike requests replies
  end.

Lemma serve_answered_alike cfg inject sources focus env reloads rs :
  loaded cfg → Forall (Forall (λ cfg, sink_op_ok (SinkReload cfg))) reloads →
  Z.of_nat (2 * length rs + 4 + length (concat reloads)) ≤ u64_max →
  answered_alike rs (serve ClientState_default (mkSharedSink
    (mkMatcherSink (MatchingState_new cfg) inject sources focus env 0 false) reloads) rs).1.2.
Proof.
  intros Hc Hl Hb rs1 down f rs2 up f' rs3 k r2 -> [(Hd1 & Hd2 & Hd3) (Hu1 & Hu2 & Hu3) Hk [Hg He] Hbw] Hr.
  assert (rs1 ++ (down, f) :: rs2 ++ (up, f') :: rs3 = (rs1 ++ (down, f) :: rs2 ++ [(up, f')]) ++ rs3) as E
    by (simpl; by rewrite <- !app_assoc; simpl; rewrite <- app_assoc).
  rewrite E in Hr |- *. set (sh := mkSharedSink _ _) in *.
  pose proof (lookup_lt_Some _ _ _ Hr) as Hlen.
  destruct (serve_prefix ClientState_default sh (rs1 ++ (down, f) :: rs2 ++ [(up, f')]) rs3)
    as [Hok [rest Hrep]].
  { rewrite length_app. simpl. rewrite length_app. simpl. lia. }
  rewrite !length_app in Hb. simpl in Hb. rewrite length_app in Hb. simpl in Hb.
  destruct (path_release_matches cfg inject sources focus env reloads rs1 down f rs2 up f' k Hc Hl
    ltac:(lia) Hd1 Hd2 Hd3 Hu1 Hu2 Hu3 Hk Hg He Hbw Hok) as (l1 & r1 & l2 & r2' & El & Hl1 & Hl2 & Hop).
  fold sh in El. rewrite Hrep, El in Hr |- *. rewrite <- Hl1 in Hr |- *. rewrite <- Hl2 in Hr.
  exists r1. rewrite <- !app_assoc. split; [by rewrite lookup_app_r, Nat.sub_diag by lia|].
  rewrite <- Hop. f_equal. rewrite <- !app_assoc, lookup_app_r in Hr by lia.
  replace (length l1 + S (length l2) - length l1)%nat with (S (length l2)) in Hr by lia.
  simpl in Hr. rewrite <- app_assoc, lookup_app_r, Nat.sub_diag in Hr by lia. by injection Hr as ->.
Qed.

Section sound.
Context {W : Type} `{Artifacts, Files W, Link W, Acceptor W, WorkerLaws W, BrokerLaws W, Loader W, Host W}.
Context `{Environment W, Subscriber W, EnvFilters} (start_chain : StartError → AnyError).
Context (rounds fuel : nat) (env : Env) (focus : nat → option FocusIdentity).
#[local] Instance whole_loops : Loops W Log := linux_loop rounds fuel env focus.
#[local] Instance no_taps : Taps W Log := λ _ _, None.
(** The loader validates what it returns. *)
Hypothesis load_loaded : ∀ (w : W) path w' cfg, load_config w path = (w', Ok cfg) → loaded cfg.

Lemma loop_sound args path cfg state sources e (w w' : W) l r :
  loaded cfg → started_with args path (MatchingState_new cfg) (state, sources, e) →
  linux_loop rounds fuel env focus e state sources w = Some (w', l, r) → log_sound l.
Proof.
  intros Hc [_ Hst]. unfold linux_loop. destruct e as [md|peer identity|connection]; simpl in Hst.
  - destruct Hst as (w0 & w1 & cfg1 & Hload%load_loaded & Hin).
    intros ([[w2 [h2 l2]] r2] & Hrun & [= <- <- <-])%bind_Some.
    by destruct (installed_run_audited _ _ _ _ _ _ _ _ _ _ _ _ _ _ Hc Hload Hin Hrun).
  - subst state. intros ([[w2 [h2 l2]] r2] & Hrun & [= <- <- <-])%bind_Some.
    intros l1 scope ev d l3 Hl Hd. by eapply (research_replaces_only_proved cfg).
  - subst state. destruct (broker_input w) as [w2 input] eqn:Hi.
    pose proof (broker_reloads w) as Hr. pose proof (broker_bounded w) as Hb. rewrite Hi in Hr, Hb.
    unfold backend_run. cbn [lb_running lb_connection lb_stopped].
    assert (answered_alike (bi_requests input) []) as Hnil by (by intros ? ? ? ? ? ? ? ? ? ? ? ?).
    destruct connection as [fd|]; [|by intros [= <- <- <-]].
    destruct (bi_cloned input) as [[]|er]; [|by intros [= <- <- <-]].
    pose proof (serve_answered_alike cfg (λ _, inject None) (queue_of sources)
      (if sources then Some focus else None) env (bi_reloads input) (bi_requests input) Hc Hr Hb) as Ha.
    unfold broker_sink. destruct (serve ClientState_default _ _) as [[[c s2] replies] r2].
    by intros [= <- <- <-].
Qed.

End sound.

(** ** A whole run

    The research listener on the compositor of InstalledThm.v: the configuration is found
    through the environment, the press of KeyA is replaced by KeyB after the proof, and the
    daemon is stopped. *)

#[local] Instance whole_loader : Loader SimLink := λ w path,
  (w, if bool_decide (path = "/home/u/sledge.toml") then Ok a_to_b_config else Err "No such file").
#[local] Instance whole_environment : Environment SimLink := {|
  en_var _ name := if bool_decide (name = "SLEDGE_CONFIG") then Some "/home/u/sledge.toml" else None;
  en_home_dir _ := Some "/home/u"; en_state_dir _ := Some "/home/u/.local/state";
  en_data_local_dir _ := None; en_exists _ _ := false;
|}%string.
#[local] Instance whole_subscriber : Subscriber SimLink := {|
  lg_create_dir_all w _ := (w, Ok ()); lg_install w _ _ _ := Some w; lg_flush w := w;
|}.
#[local] Instance whole_filters : EnvFilters := λ _, None.
#[local] Instance whole_stream : BrokerStream SimLink := λ w, (w, mkBrokerInput (Ok ()) [] [] false).
#[local] Instance whole_stream_laws : BrokerLaws SimLink.
Proof. split; intros w; [by constructor|by vm_compute]. Qed.

Definition research_args : RunArgs :=
  let identity := passive_identity (am_metadata sim_admitted) in
  mkRunArgs false None None None 0 None
    (mkResearchArgs (Some "/run/r.sock") (Some 42) (Some (Wire.api_hash identity)) (Some (Wire.artifact identity)))
    None None None None.
Definition whole_run : option (SimLink * list Act * option Log * result AnyError unit) :=
  daemon_run (L := Log) (Loops0 := whole_loops 10 2 quiet_env (λ _, None)) (Taps0 := no_taps)
    (λ _, []) Linux None None research_args worker_world.

Definition calls_of (log : option Log) : list Call :=
  match log with Some (HandlerLog l) => l | _ => [] end.

